(* ===== verification/_CoqProject ===== *)
-Q . S2P
Prelude.v
Str.v
Lease.v
Breaker.v
Retry.v
Availability.v
Ownership.v
UnaryDedup.v
JsonStream.v
PyVal.v
Guards.v
Gates.v
Pool.v
Pins.v
Timeline.v
Patch.v
PatchSpec.v
PatchParse.v
PatchUnified.v
Files.v
FilesSpec.v
FilesCommit.v
FileLocks.v
Pause.v
Accumulator.v
Edit.v
EditSpec.v
EditTools.v
ToolDispatch.v
DirectTurns.v
DirectTurnsSpec.v
Coroutine.v
TurnRuntime.v
TurnRuntimeSpec.v
Tables.v
Tasks.v
TaskExecution.v
TaskExecutionSpec.v
ScheduleFires.v
ScheduleFiresSpec.v
Control.v
ControlRules.v
TaskQueue.v
TaskQueueSpec.v
Scheduler.v
SchedulerSpec.v
Compaction.v
Rotation.v
CompactionSpec.v
RotationSpec.v
Banding.v
BandingSpec.v
ContextBudget.v
HistoryReplay.v
Truncation.v
TruncationSpec.v
Workflow.v
WorkflowEngine.v
WorkflowSample.v
WorkflowRules.v
WorkflowDispatch.v
WorkflowSpec.v
WorkflowEnds.v
QuestionSets.v
