(* ===== verification/Prelude.v ===== *)
(** * Verification of Cognis

    Cognis ([src/cognis], [src/packages]) is an agent platform: controllers run
    agents whose tool calls execute on remote executors, with several controllers
    sharing one database and, optionally, Redis.  This library models the parts of it
    that decide who may act and what survives failures, and proves them correct.  It
    is a shallow embedding: pure functions are Rocq functions, stateful code is
    explicit state passing, and concurrency is the set of all histories of the
    operations that the code makes atomic (an SQL statement, a Redis script, a
    critical section, a method that never awaits).

    ** The parts, and how they interact

    - [Prelude] (this file): results of calls that may raise, Python's ordered
      dictionaries, text and string order, traces ([run]) and shared tactics.
    - [Lease] ([cognis/store/coordination.py]): the table of leases with fencing
      tokens.  [FencedStore] and [FencedStoreLaws] are the promise it makes to its
      clients, and the last lemmas of the file discharge it.
    - [Ownership] ([cognis/core/executor_connection_ownership.py]): which controller
      owns an executor's physical connection; proved against [FencedStore], so it
      holds of any store with those laws.
    - [Breaker] and [Retry] ([packages/common/src/cognis/providers/circuit_breaker.py],
      [retry.py]): the circuit breaker around provider calls, and the retry loop
      that must not retry its refusals.
    - [Availability] ([cognis/providers/llm/availability.py]): the circuit that
      admits inference attempts, as the Lua script all controllers share and as the
      in-memory branch of a single controller.
    - [UnaryDedup] ([packages/common/src/cognis/executor/unary_dedup.py]): exactly one
      execution per replay-safe call id, joined by every repeated request.
    - [JsonStream] ([packages/common/src/cognis/json_stream.py]): assembling streamed
      tool arguments from fragments that may be replayed.
    - [PyVal]: dynamic JSON-like values with Python's truth, equality, order,
      membership and printing.
    - [Guards] ([cognis/core/harness_guards.py]): the loop guard, the ledger that keeps
      a retried turn from repeating side effects, and the argument gate.
    - [Gates] ([cognis/core/gate_conditions.py]): parsing, validating and evaluating
      the conditions of workflow gates.
    - [Pool] ([cognis/core/executor_pool.py], [executor_resolution.py],
      [executor_policy.py], [executor_availability.py], [cognis/ownership.py]): the
      executors an agent may use and how one is chosen.
    - [Pins] ([cognis/core/executor_switching.py], [executor_pin_lifecycle.py] and
      the pin statements of [cognis/store/queries.py]): the executor a conversation
      and its task are pinned to, on top of [Pool].
    - [Timeline] ([cognis/api/chat_v2/item_keys.py], [cycles.py]): the text keys that
      order a chat's items, and the state of each turn's cycles.
    - [Str]: texts as lists of code points ([ustr]) with the methods of [str] the file
      tools use: splitting lines, stripping, searching, replacing, decimal numbers.
    - [Patch], [PatchSpec], [PatchParse], [PatchUnified]
      ([packages/executor/src/cognis/tools/executor/filesystem.py]): parsing patch
      envelopes, native operations and unified diffs; finding and applying hunks.
    - [Files], [FilesSpec], [FilesCommit] (the same file and [file_freshness.py]): the
      files and the tracker of what each scope has read; staging and writing a patch.
    - [FileLocks] ([file_freshness.py]): the locks tools take around their work, as a
      step relation over interleaved coroutines.
    - [Edit], [EditSpec], [EditTools]: the edit tools, which find the text to replace
      under ever weaker notions of equality; their handlers act on the world of [Files].
    - [Pause] ([cognis/core/agent_loop.py]): pauses that wait for a human, and the
      claims that make an approval exclusive.
    - [Accumulator] ([cognis/core/agent_loop.py]): assembling a streamed answer into
      text, reasoning blocks and tool calls, on top of [JsonStream].
    - [ToolDispatch], [DirectTurns], [DirectTurnsSpec] ([cognis/store/direct_turns.py]):
      the durable queue of a conversation's messages, on top of [Lease]: the tool batches
      a turn has in flight, every method of the store, and its histories.
    - [TurnRuntime], [TurnRuntimeSpec] ([cognis/core/direct_turn_runtime.py]): the
      controller that claims, executes and recovers those turns.
    - [Coroutine]: the coroutines of a controller as programs of calls ([prog]), played
      against a schedule of what everybody else does between them, and the rules to reason
      about all schedules at once.  [TurnRuntime], [TaskQueue] and [Scheduler] are written
      in it.
    - [Tables], [Tasks] ([cognis/store/models.py], [queries.py]): the tables of tasks, step
      runs and schedules, and the statements on tasks and their dependencies.
    - [TaskExecution], [TaskExecutionSpec] ([cognis/core/task_execution.py]): the claims that
      decide who runs a task and how many run at once; leases of [Lease] again.
    - [ScheduleFires], [ScheduleFiresSpec] ([cognis/store/schedule_fires.py]): the identity of
      each run of a schedule.
    - [Control], [ControlRules]: the controller process around the two components below, the
      calls their coroutines make, and which leases every call keeps.
    - [TaskQueue], [TaskQueueSpec] ([cognis/core/task_queue.py]): submission, claims, pauses,
      retries, revisions, cancellation, dependents and recovery of tasks.
    - [Scheduler], [SchedulerSpec] ([cognis/core/scheduler.py]): firing due schedules, the end
      of their runs, the catch-up after a downtime and the passes of the timer.
    - [Compaction], [CompactionSpec], [Banding], [BandingSpec]
      ([cognis/core/compaction/strategy.py], [banding.py]): what a compaction summarizes,
      what stays verbatim, and what its summarizer is given.
    - [Rotation], [RotationSpec] ([cognis/core/turn_scheduler.py], [session.py]): the kept tail
      in the session that continues a compacted one, from the layout [Compaction] records.
    - [ContextBudget], [HistoryReplay], [Truncation], [TruncationSpec]
      ([cognis/core/context_budget.py], [history_replay.py], [truncation.py],
      [tool_output_recovery.py]): the budgets of a prompt, the order of its history, and
      outputs cut in the middle.
    - [Workflow] ([cognis/models/workflow.py], [cognis/core/workflow_registry.py]): workflow
      definitions and their validation, which ends with the conditions of [Gates].
    - [WorkflowEngine] ([cognis/core/workflow_engine.py], [session_recovery.py] and the
      statements on the task's row of [queries.py]): the loop that runs a workflow, with
      deterministic steps, gates, retries, review loops, outcome routes, deferrals and the
      handlers around it, as computations in a state and error monad.  [WorkflowSample]
      holds a small workflow and runs of it, [WorkflowRules] what methods preserve,
      [WorkflowDispatch], [WorkflowSpec] and [WorkflowEnds] the theorems.
    - [QuestionSets] ([cognis/core/question_sets.py]): the questions a workflow may ask a human,
      in canonical form, and the replies that answer them.

    Definitions keep the names of the functions, methods and columns they translate
    (a leading letter and underscore distinguishes a column shared by two records).
    A component's state is a record of its attributes or tables; each method is a
    function from the state, its arguments and the clock readings it takes to the
    new state and the returned value or exception.

    ** What the theorems show

    - Safety over all histories: superseded leases and owners are powerless, at most
      one owner of a connection is current, a trial or probe excludes the others, a
      pin fails over once per generation, pools never hold foreign executors, the turns of
      a conversation run one at a time in order, a settled turn stays settled, no tool
      batch in flight is lost, recovery repeats only work that took no effect, and no
      coroutine of the runtime, the queue or the scheduler leaks a lease.  No more tasks run
      than there are slots; a finished task stays finished unless it is revised, and none
      starts before what it requires is complete; dependencies stay acyclic; an occurrence of
      a schedule runs again only after a failure; a tool of a workflow with side effects is
      called once in each generation of its step across any number of restarts; the output
      of an evaluated step was approved; a kept tool result has its call kept.
    - Refinement and equivalence: the Redis script and the memory branch are one
      circuit; detailed and plain gate evaluation agree; the narrowed executor query
      is lossless; legacy selection and the pool agree; sort keys compare as text the way
      the numbers they encode compare.
    - Functional behaviour on every branch, errors included: joining or claiming a
      call, switching an executor, validating a workflow, the argument gate, the
      loop guard, merging a fragment, the retry loop, a reply to a set of questions.
    - Round trips: a rendered envelope parses to its operations, a rendered unified diff
      parses and applies to the new text.
    - Complete application: a patch that stages is written completely and does what its
      operations do one after the other; hunks are one forward walk over the lines; an
      edit replaces just the text it names, a sequence of edits is made as a whole; no
      tool overwrites a version its caller has not seen.
    - Liveness: the locks of the file tools never deadlock and always drain; an accepted
      resolution reaches its waiter; the holder of a conversation's lease always gets its
      first unsettled turn settled or running; a recovery pass left alone moves every stale
      turn but those it lists; a schedule that is due moves on.
    - Bounds: the tail a compaction keeps and the input of its summarizer fit their token
      budgets, or what is left cannot be cut any further; truncated texts fit their limits.
    - Faithful streams: interleaved tool calls come out as each index's own deltas make
      them; the events of a reasoning block spell its content.
    - Termination: the loops of the patch parsers take the lines of the text as their
      fuel and always return; the eviction loop of [UnaryDedup] and the breadth-first walk of
      [Gates] take fuel; the fuel their callers pass (the number of calls in flight,
      the size of the tree) is proved to be enough.  A compaction comes to an outcome whatever
      the model does.  The loop of the workflow engine takes fuel; for an autonomous workflow
      whose routes back have limits, [turns_left], computed from those limits, is proved to be
      enough.  The waits of the scheduler's catch-up take fuel because they wait for others.

    ** Conventions and limits

    Times are integers in microseconds (the databases' and Python's resolution) except
    where a file says otherwise; delays of [Retry] are rationals.  Text is a list of
    code points where its content is examined: Unicode ([ustr]) in the file tools and
    answers, Latin-1 in [JsonStream] and [PyVal].  JSON coding, digests, [repr],
    [ast.parse] and the like are parameters, as are callbacks and transports.  Where a
    class awaits between two critical sections the sections are separate operations,
    so that histories interleave them.  Logging and metrics are left out.

    Parameters of the prompt components: token counters and the model's answers, which may
    fail; of the workflow engine: the record [outside] of what each await finds (the runs of
    agents, the evaluator's verdicts, tools, the operator's decisions, jinja2 rendering) and
    whether it raises, a dying process being an await that raises for good.

    Not modelled, and why: the agent loop and the turn scheduler as a whole (tens of thousands
    of lines of prompt assembly, streaming and event recording around the parts above; what
    they decide with is modelled, the rest is I/O in an order no contract fixes); how a workflow
    step is run by agents, and the delivery of results; provider clients and wire formats,
    executor transports and the tools that act on the host, channels, the HTTP and WebSocket
    API, event projection and user interfaces (effects outside the kernel's reach); migrations,
    deployment and scripts (no state of their own); periodic maintenance and stream liveness
    (timers around the leases and circuits that are modelled); timeline cursors (HMAC and JSON
    of the standard library); knowledge base and memory (external services). *)

From stdpp Require Export base tactics decidable option list numbers strings gmap sets pretty sorting.
From Stdlib Require Export ZArith Lia.

#[global] Open Scope Z_scope.

Coercion Z.of_nat : nat >-> Z.

(** ** Results: Python calls that either return or raise. *)

Inductive result (E A : Type) : Type :=
| Ok (a : A)
| Err (e : E).
Arguments Ok {E A} a.
Arguments Err {E A} e.

#[global] Instance result_eq_dec {E A} `{EqDecision E, EqDecision A} :
  EqDecision (result E A).
Proof. solve_decision. Defined.

Definition result_bind {E A B} (r : result E A) (f : A → result E B) : result E B :=
  match r with
  | Ok a => f a
  | Err e => Err e
  end.

Declare Scope result_scope.
Delimit Scope result_scope with result.
Notation "'let?' x ':=' c 'in' k" := (result_bind c (λ x, k))
  (at level 10, x pattern, c at level 100, k at level 200) : result_scope.
#[global] Open Scope result_scope.

Definition is_ok {E A} (r : result E A) : bool :=
  match r with Ok _ => true | Err _ => false end.

Lemma result_bind_ok {E A B} (r : result E A) (f : A → result E B) b :
  result_bind r f = Ok b ↔ ∃ a, r = Ok a ∧ f a = Ok b.
Proof. destruct r; simpl; split; [eauto|by intros (? & [= ->] & ?)|done|by intros (? & ? & ?)]. Qed.

(** Python's [for x in l: acc.append(f(x))] where [f] may raise. *)
Fixpoint result_map {E A B} (f : A → result E B) (l : list A) : result E (list B) :=
  match l with
  | [] => Ok []
  | x :: l => let? y := f x in let? ys := result_map f l in Ok (y :: ys)
  end.

Lemma result_map_ok {E A B} (f : A → result E B) l l' :
  result_map f l = Ok l' ↔ Forall2 (λ x y, f x = Ok y) l l'.
Proof.
  revert l'. induction l as [|x l IH]; intros l'; simpl.
  - split; [intros [= <-]; constructor | by inversion 1].
  - rewrite result_bind_ok. split.
    + intros (y & Hy & (ys & Hys & [= <-])%result_bind_ok).
      constructor; [done|]. by apply IH.
    + inversion 1 as [|? y ? ys Hy Hys]; subst. exists y. split; [done|].
      apply result_bind_ok. exists ys. split; [by apply IH|done].
Qed.

(** Python's [for x in l: state = f(state, x)] where [f] may raise. *)
Fixpoint result_fold {E S A} (f : S → A → result E S) (s : S) (l : list A) : result E S :=
  match l with
  | [] => Ok s
  | x :: l => let? s' := f s x in result_fold f s' l
  end.

(** ** Ordered dictionaries: Python's [dict] and [OrderedDict] by insertion order. *)

Section OrderedDict.
Context {K V : Type} `{EqDecision K}.

Fixpoint od_get (k : K) (d : list (K * V)) : option V :=
  match d with
  | [] => None
  | (k', v) :: d => if decide (k = k') then Some v else od_get k d
  end.

(** [d[k] = v]: in place when the key is present, at the end otherwise. *)
Fixpoint od_set (k : K) (v : V) (d : list (K * V)) : list (K * V) :=
  match d with
  | [] => [(k, v)]
  | (k', v') :: d => if decide (k = k') then (k, v) :: d else (k', v') :: od_set k v d
  end.

(** [d.pop(k, None)] *)
Definition od_del (k : K) (d : list (K * V)) : list (K * V) := filter (λ x, x.1 ≠ k) d.

(** [d.move_to_end(k)] *)
Definition od_move_end (k : K) (d : list (K * V)) : list (K * V) :=
  match od_get k d with
  | Some v => od_del k d ++ [(k, v)]
  | None => d
  end.

Lemma od_get_elem k v d : od_get k d = Some v → (k, v) ∈ d.
Proof.
  induction d as [|[k' v'] d IH]; simpl; [done|]. case_decide; simplify_eq; intros.
  - simplify_eq. constructor.
  - constructor. auto.
Qed.

Lemma od_get_none k d : od_get k d = None ↔ k ∉ d.*1.
Proof.
  induction d as [|[k' v'] d IH]; simpl; [split; [intros _; apply not_elem_of_nil|done]|].
  rewrite not_elem_of_cons. case_decide; naive_solver.
Qed.

Lemma od_elem_get k v d : NoDup d.*1 → (k, v) ∈ d → od_get k d = Some v.
Proof.
  induction d as [|[k' v'] d IH]; simpl; [by intros _ ?%elem_of_nil|].
  intros [Hk Hnd]%NoDup_cons [Heq|Hin]%elem_of_cons; simplify_eq.
  - by rewrite decide_True.
  - rewrite decide_False; [by apply IH|]. intros ->. apply Hk.
    apply list_elem_of_fmap. by exists (k', v).
Qed.

Lemma od_get_app k d1 d2 :
  od_get k (d1 ++ d2) = match od_get k d1 with Some v => Some v | None => od_get k d2 end.
Proof. induction d1 as [|[k' v'] d1 IH]; simpl; [done|]. by case_decide. Qed.

Lemma od_get_del k k' d : od_get k (od_del k' d) = if decide (k = k') then None else od_get k d.
Proof.
  unfold od_del. induction d as [|[k2 v2] d IH]; simpl; [by case_decide|].
  rewrite filter_cons. simpl. repeat (case_decide; simpl; simplify_eq); try done; tauto.
Qed.

Lemma od_get_set k k' v d : od_get k (od_set k' v d) = if decide (k = k') then Some v else od_get k d.
Proof.
  induction d as [|[k2 v2] d IH]; simpl; [done|].
  repeat (case_decide; simpl; simplify_eq); try done; tauto.
Qed.

Lemma od_get_move_end k k' d : od_get k (od_move_end k' d) = od_get k d.
Proof.
  unfold od_move_end. destruct (od_get k' d) as [v|] eqn:Hk'; [|done].
  rewrite od_get_app, od_get_del. simpl. case_decide; simplify_eq; [done|].
  by destruct (od_get k d).
Qed.

Lemma od_get_filter (P : K * V → Prop) `{∀ x, Decision (P x)} k d :
  NoDup d.*1 →
  od_get k (filter P d) =
    match od_get k d with Some v => if decide (P (k, v)) then Some v else None | None => None end.
Proof.
  induction d as [|[k' v'] d IH]; simpl; [done|]. intros [Hk Hnd]%NoDup_cons.
  rewrite filter_cons. destruct (decide (k = k')) as [->|Hne].
  - case_decide; simpl; [by rewrite decide_True|]. rewrite IH by done.
    by rewrite (proj2 (od_get_none k' d)).
  - case_decide; simpl; [rewrite decide_False by done|]; by apply IH.
Qed.

Lemma od_filter_keys (P : K * V → Prop) `{∀ x, Decision (P x)} d :
  (filter P d).*1 `sublist_of` d.*1.
Proof. apply fmap_sublist, sublist_filter. Qed.

Lemma od_filter_nodup (P : K * V → Prop) `{∀ x, Decision (P x)} d :
  NoDup d.*1 → NoDup (filter P d).*1.
Proof. intros. eapply sublist_NoDup; [done|apply od_filter_keys]. Qed.

Lemma od_set_keys k v d :
  (od_set k v d).*1 = match od_get k d with Some _ => d.*1 | None => d.*1 ++ [k] end.
Proof.
  induction d as [|[k' v'] d IH]; simpl; [done|]. case_decide; simplify_eq/=; [done|].
  rewrite IH. by destruct (od_get k d).
Qed.

Lemma od_set_absent k v d : od_get k d = None → od_set k v d = d ++ [(k, v)].
Proof. induction d as [|[k' v'] d IH]; simpl; [done|]. case_decide; [done|]. intros. by rewrite IH. Qed.

Lemma od_set_nodup k v d : NoDup d.*1 → NoDup (od_set k v d).*1.
Proof.
  intros Hd. rewrite od_set_keys. destruct (od_get k d) eqn:Hk; [done|].
  apply od_get_none in Hk. apply NoDup_app. split_and!; [done| |apply NoDup_singleton].
  intros x Hx ->%list_elem_of_singleton. done.
Qed.

Lemma od_del_nodup k d : NoDup d.*1 → NoDup (od_del k d).*1.
Proof. apply od_filter_nodup. Qed.

Lemma od_move_end_nodup k d : NoDup d.*1 → NoDup (od_move_end k d).*1.
Proof.
  intros Hd. unfold od_move_end. destruct (od_get k d) as [v|]; [|done].
  rewrite fmap_app. apply NoDup_app. split_and!; [by apply od_del_nodup| |apply NoDup_singleton].
  intros x Hx ->%list_elem_of_singleton. simpl in Hx.
  assert (od_get k (od_del k d) = None) as Hn by (rewrite od_get_del; by rewrite decide_True).
  by apply od_get_none in Hn.
Qed.

Lemma od_del_absent k d : od_get k d = None → od_del k d = d.
Proof.
  rewrite od_get_none. unfold od_del. induction d as [|[k' v'] d IH]; simpl; [done|].
  intros [? ?]%not_elem_of_cons. rewrite filter_cons_True by (simpl; congruence).
  by rewrite IH.
Qed.

Lemma od_del_present k v d :
  NoDup d.*1 → od_get k d = Some v → length d = S (length (od_del k d)).
Proof.
  intros Hd. induction d as [|[k' v'] d IH]; simpl; [done|].
  apply NoDup_cons in Hd as [Hk' Hd]. unfold od_del. rewrite filter_cons. simpl. case_decide; intros.
  - simplify_eq. rewrite decide_False by tauto. f_equal. f_equal. symmetry.
    by apply od_del_absent, od_get_none.
  - rewrite decide_True by congruence. simpl. f_equal. by apply IH.
Qed.

Lemma od_move_end_length k d : NoDup d.*1 → length (od_move_end k d) = length d.
Proof.
  intros Hd. unfold od_move_end. destruct (od_get k d) as [v|] eqn:Hk; [|done].
  rewrite length_app, (od_del_present k v d) by done. simpl. lia.
Qed.

Lemma od_del_length k d : (length (od_del k d) ≤ length d)%nat.
Proof. unfold od_del. apply length_filter. Qed.

Lemma od_set_length k v d :
  length (od_set k v d) = (length d + if od_get k d then 0 else 1)%nat.
Proof.
  induction d as [|[k' v'] d IH]; simpl; [done|]. case_decide; simpl; [lia|]. rewrite IH. lia.
Qed.
End OrderedDict.

(** ** Text: Python strings of Latin-1 code points, as lists. *)

Notation text := (list Ascii.ascii).

(** String literals as text. *)
Definition tx (s : string) : text := String.list_ascii_of_string s.

(** [str.isspace] of one code point. *)
Definition is_space (a : Ascii.ascii) : bool :=
  let n := Ascii.nat_of_ascii a in
  ((9 <=? n) && (n <=? 13))%nat || ((28 <=? n) && (n <=? 32))%nat || (n =? 133)%nat || (n =? 160)%nat.

Fixpoint lstrip (t : text) : text :=
  match t with
  | [] => []
  | a :: t' => if is_space a then lstrip t' else t
  end.

Definition rstrip (t : text) : text := reverse (lstrip (reverse t)).
Definition strip (t : text) : text := rstrip (lstrip t).

Definition startswith (t p : text) : bool := bool_decide (p `prefix_of` t).
Definition endswith (t p : text) : bool := bool_decide (p `suffix_of` t).

(** Code point order of strings. *)
Lemma ascii_compare_spec a b : Ascii.compare a b = N.compare (Ascii.N_of_ascii a) (Ascii.N_of_ascii b).
Proof. done. Qed.

Lemma N_of_ascii_inj a b : Ascii.N_of_ascii a = Ascii.N_of_ascii b → a = b.
Proof. intros H. by rewrite <- (Ascii.ascii_N_embedding a), H, Ascii.ascii_N_embedding. Qed.

Lemma string_le_trans x y z :
  String.compare x y ≠ Gt → String.compare y z ≠ Gt → String.compare x z ≠ Gt.
Proof.
  revert y z. induction x as [|a x IH]; intros [|b y] [|c z]; simpl; try done.
  rewrite !ascii_compare_spec.
  destruct (N.compare_spec (Ascii.N_of_ascii a) (Ascii.N_of_ascii b)) as [Hab|Hab|Hab],
    (N.compare_spec (Ascii.N_of_ascii b) (Ascii.N_of_ascii c)) as [Hbc|Hbc|Hbc]; try done; intros H1 H2.
  - rewrite Hab, Hbc, N.compare_refl. by eapply IH.
  - rewrite Hab, (proj2 (N.compare_lt_iff _ _)); done.
  - rewrite <- Hbc, (proj2 (N.compare_lt_iff _ _)); done.
  - rewrite (proj2 (N.compare_lt_iff _ _)); [done|]. lia.
Qed.

Lemma string_compare_refl x : String.compare x x = Eq.
Proof. induction x as [|a x IH]; simpl; [done|]. by rewrite ascii_compare_spec, N.compare_refl. Qed.

(** ** Traces: a component driven by a list of labelled operations. *)

Section Traces.
Context {S L : Type} (step : S → L → S).

Definition run (s : S) (tr : list L) : S := foldl step s tr.

Lemma run_cons s l tr : run s (l :: tr) = run (step s l) tr.
Proof. done. Qed.

Lemma run_app s tr1 tr2 : run s (tr1 ++ tr2) = run (run s tr1) tr2.
Proof. apply foldl_app. Qed.

(** Rule induction: what every operation preserves holds after every trace. *)
Lemma run_invariant (P : S → Prop) s tr :
  P s → (∀ s l, P s → P (step s l)) → P (run s tr).
Proof. intros Hs Hstep. revert s Hs. induction tr; simpl; eauto. Qed.

(** The same when the labels of the trace satisfy a side condition. *)
Lemma run_invariant_when (P : S → Prop) (Q : L → Prop) s tr :
  P s → Forall Q tr → (∀ s l, Q l → P s → P (step s l)) → P (run s tr).
Proof.
  intros Hs HQ Hstep. revert s Hs.
  induction HQ as [|l tr Hl _ IH]; simpl; eauto.
Qed.
End Traces.

(** ** Tactics *)

(** Split the boolean tests of the code into the facts they decide. *)
Ltac bool_facts :=
  repeat match goal with
  | H : (_ && _)%bool = true |- _ => apply andb_true_iff in H as [? ?]
  | H : (_ || _)%bool = false |- _ => apply orb_false_iff in H as [? ?]
  | H : negb _ = true |- _ => apply negb_true_iff in H
  | H : negb _ = false |- _ => apply negb_false_iff in H
  | H : bool_decide _ = true |- _ => apply bool_decide_eq_true_1 in H
  | H : bool_decide _ = false |- _ => apply bool_decide_eq_false_1 in H
  | H : (_ =? _)%Z = true |- _ => apply Z.eqb_eq in H
  | H : (_ =? _)%Z = false |- _ => apply Z.eqb_neq in H
  | H : (_ <=? _)%Z = true |- _ => apply Z.leb_le in H
  | H : (_ <=? _)%Z = false |- _ => apply Z.leb_gt in H
  | H : (_ <? _)%Z = true |- _ => apply Z.ltb_lt in H
  | H : (_ <? _)%Z = false |- _ => apply Z.ltb_ge in H
  end.

(** Case analysis on the guards of a handler, closing the impossible branches. *)
Ltac guards := repeat (case_match; bool_facts; simplify_eq/=); try done.
