(* ===== verification/Str.v ===== *)
(** Python strings as lists of code points: white space, lines, search and replacement.

    [text] of [Prelude] covers Latin-1; the components that look at arbitrary text
    (patches, edits, streamed speech) use the strings of this file. *)

From S2P Require Import Prelude.
Local Open Scope N_scope.

Notation ustr := (list N).

(** String literals. *)
Definition u (s : string) : ustr := Ascii.N_of_ascii <$> String.list_ascii_of_string s.

Definition LF : N := 10.
Definition CR : N := 13.

(** [str.isspace] of one code point. *)
Definition uspace (c : N) : bool :=
  ((9 <=? c) && (c <=? 13)) || ((28 <=? c) && (c <=? 32)) || (c =? 133) || (c =? 160) ||
  (c =? 5760) || ((8192 <=? c) && (c <=? 8202)) || (c =? 8232) || (c =? 8233) || (c =? 8239) ||
  (c =? 8287) || (c =? 12288).

(** The code points at which [str.splitlines] ends a line. *)
Definition line_break (c : N) : bool :=
  ((10 <=? c) && (c <=? 13)) || ((28 <=? c) && (c <=? 30)) || (c =? 133) || (c =? 8232) || (c =? 8233).

(** Longest prefix of code points that satisfy a test, removed. *)
Fixpoint lstrip_by (p : N → bool) (s : ustr) : ustr :=
  match s with
  | [] => []
  | c :: s' => if p c then lstrip_by p s' else s
  end.

Definition rstrip_by (p : N → bool) (s : ustr) : ustr := reverse (lstrip_by p (reverse s)).

Definition ulstrip : ustr → ustr := lstrip_by uspace.
Definition urstrip : ustr → ustr := rstrip_by uspace.
Definition ustrip (s : ustr) : ustr := urstrip (ulstrip s).

(** Is [p] a prefix of [s], and what follows it. *)
Fixpoint strip_prefix (p s : ustr) : option ustr :=
  match p, s with
  | [], _ => Some s
  | a :: p, b :: s => if a =? b then strip_prefix p s else None
  | _ :: _, [] => None
  end.

Definition starts (s p : ustr) : bool := if strip_prefix p s then true else false.
Definition ends (s p : ustr) : bool := starts (reverse s) (reverse p).

(** [s.splitlines(keepends=True)] *)
Fixpoint splitlines (s : ustr) : list ustr :=
  match s with
  | [] => []
  | c :: s1 =>
      match s1 with
      | d :: s2 =>
          if (c =? CR) && (d =? LF) then [CR; LF] :: splitlines s2
          else if line_break c then [c] :: splitlines s1
          else match splitlines s1 with
               | [] => [[c]]
               | l :: ls => (c :: l) :: ls
               end
      | [] => [[c]]
      end
  end.

(** The first occurrence of a non-empty string replaced, or every one from the left. *)
Section Replace.
Context (old new : ustr).

Fixpoint replace_skip (skip : nat) (s : ustr) : ustr :=
  match s with
  | [] => []
  | c :: s' =>
      match skip with
      | S skip => replace_skip skip s'
      | O => if starts s old then new ++ replace_skip (length old - 1) s' else c :: replace_skip 0 s'
      end
  end.

Definition replace_all (s : ustr) : ustr := replace_skip 0 s.

Fixpoint replace_first (s : ustr) : ustr :=
  match strip_prefix old s with
  | Some rest => new ++ rest
  | None => match s with
            | [] => []
            | c :: s => c :: replace_first s
            end
  end.
End Replace.

(** [s.count(old)]: occurrences that do not overlap, from the left. *)
Fixpoint count_skip (old : ustr) (skip : nat) (s : ustr) : nat :=
  match s with
  | [] => 0
  | _ :: s' =>
      match skip with
      | S skip => count_skip old skip s'
      | O => if starts s old then S (count_skip old (length old - 1) s') else count_skip old 0 s'
      end
  end.

Definition count (s old : ustr) : nat := count_skip old 0 s.

Fixpoint contains (s p : ustr) : bool :=
  starts s p || match s with [] => false | _ :: s => contains s p end.

(** [sep.join(parts)] *)
Fixpoint ujoin (sep : ustr) (parts : list ustr) : ustr :=
  match parts with
  | [] => []
  | [p] => p
  | p :: parts => p ++ sep ++ ujoin sep parts
  end.

(** ** Total orders as comparison functions *)

(** Lexicographic comparison of lists. *)
Fixpoint lex_compare {A} (cmp : A → A → comparison) (x y : list A) : comparison :=
  match x, y with
  | [], [] => Eq
  | [], _ :: _ => Lt
  | _ :: _, [] => Gt
  | a :: x, b :: y => match cmp a b with Eq => lex_compare cmp x y | c => c end
  end.

Class TotalCompare {A} (cmp : A → A → comparison) : Prop := {
  cmp_eq x y : cmp x y = Eq → x = y;
  cmp_refl x : cmp x x = Eq;
  cmp_opp x y : cmp y x = CompOpp (cmp x y);
  cmp_trans x y z : cmp x y = Lt → cmp y z = Lt → cmp x z = Lt;
}.

#[global] Instance N_total_compare : TotalCompare N.compare.
Proof.
  split; [apply N.compare_eq|apply N.compare_refl|intros; apply N.compare_antisym|].
  intros x y z. rewrite !N.compare_lt_iff. lia.
Qed.

#[global] Instance nat_total_compare : TotalCompare Nat.compare.
Proof.
  split; [apply Nat.compare_eq|apply Nat.compare_refl|intros; apply Nat.compare_antisym|].
  intros x y z. rewrite !Nat.compare_lt_iff. lia.
Qed.

#[global] Instance lex_total_compare {A} (cmp : A → A → comparison) `{!TotalCompare cmp} :
  TotalCompare (lex_compare cmp).
Proof.
  split.
  - induction x as [|a x IH]; intros [|b y]; simpl; try done.
    destruct (cmp a b) eqn:Hab; try done. intros ->%IH. by rewrite (cmp_eq (cmp:=cmp) _ _ Hab).
  - induction x as [|a x IH]; simpl; [done|]. by rewrite cmp_refl.
  - induction x as [|a x IH]; intros [|b y]; simpl; try done.
    rewrite (cmp_opp (cmp:=cmp) a b). destruct (cmp a b); simpl; auto.
  - induction x as [|a x IH]; intros [|b y] [|c z]; simpl; try done.
    destruct (cmp a b) eqn:Hab, (cmp b c) eqn:Hbc; try done; intros Hx Hy.
    + rewrite (cmp_eq (cmp:=cmp) _ _ Hab), Hbc. by eapply IH.
    + by rewrite (cmp_eq (cmp:=cmp) _ _ Hab), Hbc.
    + by rewrite <- (cmp_eq (cmp:=cmp) _ _ Hbc), Hab.
    + by rewrite (cmp_trans (cmp:=cmp) _ _ _ Hab Hbc).
Qed.

(** Comparison of pairs, first components first. *)
Definition pair_compare {A B} (cmp : A → A → comparison) (cmp' : B → B → comparison) (x y : A * B) :
    comparison :=
  match cmp x.1 y.1 with Eq => cmp' x.2 y.2 | c => c end.

#[global] Instance pair_total_compare {A B} (cmp : A → A → comparison) (cmp' : B → B → comparison)
  `{!TotalCompare cmp, !TotalCompare cmp'} : TotalCompare (pair_compare cmp cmp').
Proof.
  unfold pair_compare. split.
  - intros [a b] [a' b']; simpl. destruct (cmp a a') eqn:Ha; try done.
    intros Hb. by rewrite (cmp_eq _ _ Ha), (cmp_eq _ _ Hb).
  - intros [a b]; simpl. by rewrite !cmp_refl.
  - intros [a b] [a' b']; simpl. rewrite (cmp_opp (cmp:=cmp) a a').
    destruct (cmp a a'); simpl; try done. apply cmp_opp.
  - intros [a b] [a' b'] [a'' b'']; simpl.
    destruct (cmp a a') eqn:H1, (cmp a' a'') eqn:H2; try done; intros Hx Hy.
    + rewrite (cmp_eq _ _ H1), H2. by eapply cmp_trans.
    + by rewrite (cmp_eq _ _ H1), H2.
    + by rewrite <- (cmp_eq _ _ H2), H1.
    + by rewrite (cmp_trans _ _ _ H1 H2).
Qed.

(** The weak order of a comparison. *)
Section Order.
Context {A : Type} (cmp : A → A → comparison) `{!TotalCompare cmp}.

Definition cmp_le (x y : A) : Prop := cmp x y ≠ Gt.
Definition cmp_ge (x y : A) : Prop := cmp x y ≠ Lt.

#[global] Instance cmp_le_dec x y : Decision (cmp_le x y).
Proof. unfold cmp_le. solve_decision. Defined.
#[global] Instance cmp_ge_dec x y : Decision (cmp_ge x y).
Proof. unfold cmp_ge. solve_decision. Defined.

Lemma cmp_ge_le x y : cmp_ge x y ↔ cmp_le y x.
Proof. unfold cmp_ge, cmp_le. rewrite (cmp_opp (cmp:=cmp) x y). destruct (cmp x y); simpl; naive_solver. Qed.

#[global] Instance cmp_le_trans : Transitive cmp_le.
Proof.
  intros x y z. unfold cmp_le. intros Hxy Hyz.
  destruct (cmp x y) eqn:H1; [by rewrite (cmp_eq (cmp:=cmp) _ _ H1)| |done].
  destruct (cmp y z) eqn:H2; [by rewrite <- (cmp_eq (cmp:=cmp) _ _ H2), H1| |done].
  by rewrite (cmp_trans (cmp:=cmp) _ _ _ H1 H2).
Qed.

#[global] Instance cmp_le_total : Total cmp_le.
Proof. intros x y. unfold cmp_le. rewrite (cmp_opp (cmp:=cmp) x y). destruct (cmp x y); simpl; auto. Qed.

#[global] Instance cmp_le_antisym : AntiSymm (=) cmp_le.
Proof.
  intros x y. unfold cmp_le. rewrite (cmp_opp (cmp:=cmp) x y). destruct (cmp x y) eqn:H; simpl; try done.
  intros _ _. by apply (cmp_eq (cmp:=cmp)).
Qed.

#[global] Instance cmp_ge_trans : Transitive cmp_ge.
Proof. intros x y z. rewrite !cmp_ge_le. intros. by etrans. Qed.

#[global] Instance cmp_ge_total : Total cmp_ge.
Proof. intros x y. rewrite !cmp_ge_le. destruct (cmp_le_total x y); auto. Qed.

#[global] Instance cmp_ge_antisym : AntiSymm (=) cmp_ge.
Proof. intros x y. rewrite !cmp_ge_le. intros. by apply (anti_symm cmp_le). Qed.

(** Sorting in descending order reverses any ascending arrangement. *)
Lemma merge_sort_ge_reverse l l' :
  l' ≡ₚ l → StronglySorted cmp_le l' → merge_sort cmp_ge l = reverse l'.
Proof.
  intros Hp Hs. apply (StronglySorted_unique cmp_ge).
  - apply (StronglySorted_merge_sort _ _).
  - clear Hp. induction Hs as [|x l' Hs IH Hx]; [constructor|]. rewrite reverse_cons.
    apply StronglySorted_app_2; [|done|repeat constructor].
    intros y z Hy ->%list_elem_of_singleton. rewrite elem_of_reverse in Hy. apply cmp_ge_le.
    rewrite Forall_forall in Hx. by apply Hx.
  - rewrite (merge_sort_Permutation cmp_ge l), <- Hp. symmetry. apply reverse_Permutation.
Qed.
End Order.

(** ** Lemmas *)

Lemma strip_prefix_spec p s r : strip_prefix p s = Some r ↔ s = p ++ r.
Proof.
  revert s. induction p as [|a p IH]; intros s; simpl; [split; congruence|].
  destruct s as [|b s]; [done|]. destruct (N.eqb_spec a b) as [->|].
  - rewrite IH. split; congruence.
  - split; congruence.
Qed.

Lemma starts_spec s p : starts s p = true ↔ ∃ r, s = p ++ r.
Proof.
  unfold starts. destruct (strip_prefix p s) as [r|] eqn:H.
  - apply strip_prefix_spec in H as ->. split; [eauto|done].
  - split; [done|]. intros [r ->]. by rewrite (proj2 (strip_prefix_spec p (p ++ r) r)) in H.
Qed.

Lemma starts_app p s : starts (p ++ s) p = true.
Proof. apply starts_spec. eauto. Qed.

(** Induction on the length of a string. *)
Lemma ustr_ind (P : ustr → Prop) :
  (∀ s, (∀ s', (length s' < length s)%nat → P s') → P s) → ∀ s, P s.
Proof. intros H s. exact (well_founded_ind (well_founded_ltof _ (@length N)) P H s). Qed.

Lemma splitlines_cons2 c d s :
  splitlines (c :: d :: s) =
  if (c =? CR) && (d =? LF) then [CR; LF] :: splitlines s
  else if line_break c then [c] :: splitlines (d :: s)
  else match splitlines (d :: s) with [] => [[c]] | l :: ls => (c :: l) :: ls end.
Proof. done. Qed.

Lemma concat_splitlines s : concat (splitlines s) = s.
Proof.
  induction s as [[|c [|d s]] IH] using ustr_ind; [done|done|].
  pose proof (IH s ltac:(simpl; lia)) as IH1. pose proof (IH (d :: s) ltac:(simpl; lia)) as IH2.
  rewrite splitlines_cons2. destruct ((c =? CR) && (d =? LF)) eqn:Hcr.
  - apply andb_true_iff in Hcr as [->%N.eqb_eq ->%N.eqb_eq]. cbn. by rewrite IH1.
  - destruct (line_break c); [exact (f_equal (cons c) IH2)|].
    destruct (splitlines (d :: s)) as [|l ls]; exact (f_equal (cons c) IH2).
Qed.

Lemma splitlines_nil_inv s : splitlines s = [] → s = [].
Proof. intros H. by rewrite <- (concat_splitlines s), H. Qed.

(** A line that ends in a line feed and has no other break. *)
Definition lf_line (l : ustr) : Prop := ∃ b, l = b ++ [LF] ∧ Forall (λ c, line_break c = false) b.

Definition lf_lineb (l : ustr) : bool :=
  match reverse l with
  | c :: b => (c =? LF) && forallb (λ c, negb (line_break c)) b
  | [] => false
  end.

Lemma lf_lineb_spec l : lf_lineb l = true ↔ lf_line l.
Proof.
  unfold lf_lineb, lf_line. destruct l as [|c b _] using rev_ind.
  - split; [done|]. intros (b & Hb & _). by destruct b.
  - rewrite reverse_snoc, andb_true_iff, N.eqb_eq, forallb_forall. setoid_rewrite <- list_elem_of_In.
    setoid_rewrite elem_of_reverse. setoid_rewrite negb_true_iff. rewrite <- Forall_forall. split.
    + intros [-> Hb]. eauto.
    + intros (b' & Heq & Hb). by apply app_inj_tail in Heq as [-> ->].
Qed.

#[global] Instance lf_line_dec l : Decision (lf_line l).
Proof.
  destruct (lf_lineb l) eqn:Hl; [left; by apply lf_lineb_spec|right; rewrite <- lf_lineb_spec; congruence].
Defined.

Lemma splitlines_lf_line l s : lf_line l → splitlines (l ++ s) = l :: splitlines s.
Proof.
  intros (b & -> & Hb). rewrite <- app_assoc. induction Hb as [|c b Hc _ IH].
  - by destruct s.
  - cbn [app] in *. destruct (b ++ LF :: s) as [|d s'] eqn:Hs; [by destruct b|].
    rewrite splitlines_cons2.
    assert (c =? CR = false) as -> by (by apply N.eqb_neq; intros ->). cbn [andb].
    rewrite Hc. by rewrite IH.
Qed.

Lemma splitlines_lf_lines ls s : Forall lf_line ls → splitlines (concat ls ++ s) = ls ++ splitlines s.
Proof.
  induction 1 as [|l ls Hl _ IH]; [done|]. cbn. by rewrite <- app_assoc, splitlines_lf_line, IH.
Qed.

Lemma splitlines_concat_lf ls : Forall lf_line ls → splitlines (concat ls) = ls.
Proof.
  intros H. rewrite <- (app_nil_r (concat ls)), splitlines_lf_lines by done. apply app_nil_r.
Qed.

(** A last line without a line feed. *)
Lemma splitlines_unterminated b : b ≠ [] → Forall (λ c, line_break c = false) b → splitlines b = [b].
Proof.
  intros Hne Hb. induction Hb as [|c b Hc Hb IH]; [done|]. destruct b as [|d b]; [done|].
  rewrite splitlines_cons2. assert (c =? CR = false) as -> by (by apply N.eqb_neq; intros ->).
  cbn [andb]. rewrite Hc. by rewrite IH.
Qed.

Lemma lstrip_by_none p s : (∀ c, head s = Some c → p c = false) → lstrip_by p s = s.
Proof. destruct s as [|c s]; [done|]. simpl. intros H. by rewrite H. Qed.

Lemma rstrip_by_snoc p s c : rstrip_by p (s ++ [c]) = if p c then rstrip_by p s else s ++ [c].
Proof.
  unfold rstrip_by. rewrite reverse_app. simpl. destruct (p c); [done|].
  by rewrite reverse_cons, reverse_involutive.
Qed.

Lemma rstrip_by_forall p s : Forall (λ c, p c = false) s → rstrip_by p s = s.
Proof.
  destruct s as [|c s _] using rev_ind; [done|]. intros H. rewrite rstrip_by_snoc.
  apply Forall_app in H as [_ Hc]. inversion Hc as [|?? Hp]; subst. by rewrite Hp.
Qed.

Lemma replace_first_none old new s : contains s old = false → replace_first old new s = s.
Proof.
  induction s as [|c s IH]; simpl; unfold starts; destruct (strip_prefix old _) eqn:Hp; try done.
  simpl. intros. by rewrite IH.
Qed.

(** The first occurrence splits the string; [count] is zero before it. *)
Lemma replace_first_spec old new s :
  contains s old = true →
  ∃ a b, s = a ++ old ++ b ∧ replace_first old new s = a ++ new ++ b ∧
    ∀ a' b', s = a' ++ old ++ b' → (length a ≤ length a')%nat.
Proof.
  induction s as [|c s IH]; intros Hc.
  - exists [], []. cbn in Hc. unfold starts in Hc.
    destruct (strip_prefix old []) as [r|] eqn:Hp; [|done].
    pose proof Hp as Heq. apply strip_prefix_spec in Heq. cbn. rewrite Hp.
    symmetry in Heq. apply app_nil in Heq as [-> ->]. split_and!; [done|done|simpl; lia].
  - cbn [contains replace_first] in *. unfold starts in Hc.
    destruct (strip_prefix old (c :: s)) as [r|] eqn:Hp.
    + exists [], r. apply strip_prefix_spec in Hp. split_and!; [done|done|simpl; lia].
    + destruct (IH Hc) as (a & b & -> & -> & Hmin). exists (c :: a), b. split_and!; [done|done|].
      intros [|c' a'] b' Heq.
      * simpl in Heq. rewrite (proj2 (strip_prefix_spec old _ b')) in Hp; [done|exact Heq].
      * injection Heq as -> Heq. apply Hmin in Heq. simpl. lia.
Qed.
