(* ===== verification/Lease.v ===== *)
(** Database leases with fencing tokens: [cognis/store/coordination.py].

    The [coordination_leases] table is a finite map from the resource key to its
    row; every method of [DatabaseLeaseStore] is one atomic SQL statement, so it
    is one function from the table to the table and the returned row.  The
    database clock read by the statement ([database_now_expression]) is the
    argument [now], in microseconds (PostgreSQL's timestamp resolution), and
    time-to-live arguments are in microseconds too.  The class [FencedStore] is
    the promise other components build on. *)

From S2P Require Import Prelude.

(** ** Rows and leases *)

(** [CoordinationLeaseRow] without its key. *)
Record lease_row := LeaseRow {
  row_owner_id : string;
  row_fencing_token : Z;
  row_lease_expires_at : Z;
  row_created_at : Z;
  row_updated_at : Z;
}.

(** The frozen dataclass handed to the callers. *)
Record Lease := MkLease {
  resource_key : string;
  owner_id : string;
  fencing_token : Z;
  lease_expires_at : Z;
}.

#[global] Instance Lease_eq_dec : EqDecision Lease.
Proof. solve_decision. Defined.

(** [DatabaseLeaseStore._lease] *)
Definition lease_of (key : string) (row : lease_row) : Lease :=
  MkLease key (row_owner_id row) (row_fencing_token row) (row_lease_expires_at row).

(** [_lease_expiry_expression] *)
Definition lease_expiry (now ttl : Z) : Z := now + ttl.

(** The row a first [INSERT] writes. *)
Definition fresh_row (owner : string) (now ttl : Z) : lease_row :=
  LeaseRow owner 1 (lease_expiry now ttl) now now.

(** The row the [ON CONFLICT DO UPDATE] branch writes. *)
Definition taken_row (row : lease_row) (owner : string) (now ttl : Z) : lease_row :=
  LeaseRow owner (row_fencing_token row + 1) (lease_expiry now ttl) (row_created_at row) now.

(** ** The operations *)

(** [acquire_in_session]: insert, or take an owned or expired lease. *)
Definition acquire_in_session (db : gmap string lease_row) (key owner : string) (now ttl : Z)
    : gmap string lease_row * option Lease :=
  match db !! key with
  | None =>
      let row := fresh_row owner now ttl in
      (<[key := row]> db, Some (lease_of key row))
  | Some row =>
      if bool_decide (row_owner_id row = owner) || (row_lease_expires_at row <=? now) then
        let row' := taken_row row owner now ttl in
        (<[key := row']> db, Some (lease_of key row'))
      else (db, None)
  end.

(** [takeover_in_session]: the same upsert without the [WHERE] clause. *)
Definition takeover_in_session (db : gmap string lease_row) (key owner : string) (now ttl : Z)
    : gmap string lease_row * Lease :=
  let row' := match db !! key with
              | None => fresh_row owner now ttl
              | Some row => taken_row row owner now ttl
              end in
  (<[key := row']> db, lease_of key row').

(** What one of the three attempts of [acquire]/[takeover] meets: an
    [OperationalError] (rolled back), or a statement run at some clock. *)
Record attempt := Attempt { attempt_fails : bool; attempt_now : Z }.

(** [acquire]: [for attempt in range(3)]. *)
Fixpoint acquire_loop (fuel : nat) (i : nat) (at_ : nat → attempt)
    (db : gmap string lease_row) (key owner : string) (ttl : Z)
    : gmap string lease_row * option Lease :=
  match fuel with
  | O => (db, None)
  | S fuel =>
      if attempt_fails (at_ i) then
        if Nat.eqb i 2 then (db, None) else acquire_loop fuel (S i) at_ db key owner ttl
      else acquire_in_session db key owner (attempt_now (at_ i)) ttl
  end.

Definition acquire (at_ : nat → attempt) (db : gmap string lease_row) (key owner : string)
    (ttl : Z) : gmap string lease_row * option Lease :=
  acquire_loop 3 0 at_ db key owner ttl.

Inductive store_error := OperationalError | RuntimeError.

(** [takeover]: the third [OperationalError] is raised to the caller. *)
Fixpoint takeover_loop (fuel : nat) (i : nat) (at_ : nat → attempt)
    (db : gmap string lease_row) (key owner : string) (ttl : Z)
    : gmap string lease_row * result store_error Lease :=
  match fuel with
  | O => (db, Err RuntimeError)
  | S fuel =>
      if attempt_fails (at_ i) then
        if Nat.eqb i 2 then (db, Err OperationalError)
        else takeover_loop fuel (S i) at_ db key owner ttl
      else
        let '(db', lease) := takeover_in_session db key owner (attempt_now (at_ i)) ttl in
        (db', Ok lease)
  end.

Definition takeover (at_ : nat → attempt) (db : gmap string lease_row) (key owner : string)
    (ttl : Z) : gmap string lease_row * result store_error Lease :=
  takeover_loop 3 0 at_ db key owner ttl.

(** The owner/fence tuple the [WHERE] clauses of [renew] and [release] select. *)
Definition row_matches (row : lease_row) (lease : Lease) : bool :=
  bool_decide (row_owner_id row = owner_id lease)
  && (row_fencing_token row =? fencing_token lease).

(** [renew] *)
Definition renew (db : gmap string lease_row) (lease : Lease) (now ttl : Z)
    : gmap string lease_row * option Lease :=
  match db !! resource_key lease with
  | Some row =>
      if row_matches row lease && (now <? row_lease_expires_at row) then
        let row' := LeaseRow (row_owner_id row) (row_fencing_token row)
                      (lease_expiry now ttl) (row_created_at row) now in
        (<[resource_key lease := row']> db, Some (lease_of (resource_key lease) row'))
      else (db, None)
  | None => (db, None)
  end.

(** [release] *)
Definition release (db : gmap string lease_row) (lease : Lease) (now : Z)
    : gmap string lease_row * bool :=
  match db !! resource_key lease with
  | Some row =>
      if row_matches row lease then
        (<[resource_key lease := LeaseRow (row_owner_id row) (row_fencing_token row)
             now (row_created_at row) now]> db, true)
      else (db, false)
  | None => (db, false)
  end.

(** [revoke] *)
Definition revoke (db : gmap string lease_row) (key : string) (now : Z)
    : gmap string lease_row * bool :=
  match db !! key with
  | Some row =>
      (<[key := LeaseRow "revoked" (row_fencing_token row + 1) now (row_created_at row) now]> db,
       true)
  | None => (db, false)
  end.

(** [is_current_in_session] (and [is_current], the same query in its own session) *)
Definition is_current_in_session (db : gmap string lease_row) (lease : Lease) (now : Z) : bool :=
  match db !! resource_key lease with
  | Some row => row_matches row lease && (now <? row_lease_expires_at row)
  | None => false
  end.

#[global] Arguments acquire_in_session : simpl never.
#[global] Arguments takeover_in_session : simpl never.
#[global] Arguments renew : simpl never.
#[global] Arguments release : simpl never.
#[global] Arguments revoke : simpl never.
#[global] Arguments is_current_in_session : simpl never.

(** ** Facts about single operations *)

(** The fence of a resource: the token of its row, 0 before the first grant. *)
Definition fence (db : gmap string lease_row) (key : string) : Z :=
  match db !! key with Some row => row_fencing_token row | None => 0 end.

Ltac lease_cases :=
  unfold acquire_in_session, takeover_in_session, renew, release, revoke,
    is_current_in_session, fence, row_matches, taken_row, fresh_row, lease_of,
    lease_expiry in *;
  repeat (case_match; simplify_map_eq; bool_facts).

Lemma current_spec db lease now :
  is_current_in_session db lease now = true ↔
  ∃ row, db !! resource_key lease = Some row ∧ row_owner_id row = owner_id lease ∧
    row_fencing_token row = fencing_token lease ∧ now < row_lease_expires_at row.
Proof.
  unfold is_current_in_session, row_matches. destruct (db !! _) as [row|]; [|naive_solver].
  rewrite !andb_true_iff, bool_decide_eq_true, Z.eqb_eq, Z.ltb_lt. naive_solver.
Qed.

Lemma current_fence db lease now :
  is_current_in_session db lease now = true →
  fencing_token lease = fence db (resource_key lease).
Proof. intros (row & Hrow & _ & <- & _)%current_spec. unfold fence. by rewrite Hrow. Qed.

Lemma current_antitone db lease now now' :
  now' ≤ now → is_current_in_session db lease now = true →
  is_current_in_session db lease now' = true.
Proof.
  intros Hle (row & ? & ? & ? & ?)%current_spec. apply current_spec. exists row. naive_solver lia.
Qed.

Lemma stale_not_current db lease now :
  fencing_token lease ≠ fence db (resource_key lease) →
  is_current_in_session db lease now = false.
Proof.
  intros Hne. apply not_true_iff_false. intros Hcur. by apply Hne, (current_fence _ _ now).
Qed.

Lemma stale_not_released db lease now :
  fencing_token lease ≠ fence db (resource_key lease) → release db lease now = (db, false).
Proof. intros Hne. lease_cases; congruence. Qed.

Lemma stale_not_renewed db lease now ttl :
  fencing_token lease ≠ fence db (resource_key lease) → renew db lease now ttl = (db, None).
Proof. intros Hne. lease_cases; congruence. Qed.

Lemma renew_is_some db lease now ttl :
  is_Some (snd (renew db lease now ttl)) ↔ is_current_in_session db lease now = true.
Proof.
  unfold renew, is_current_in_session. destruct (db !! _); [|by split; [intros [? ?]|]].
  case_match; simpl; [naive_solver|]. by split; [intros [? ?]|].
Qed.

Lemma takeover_in_session_fence db key owner now ttl k :
  fence (fst (takeover_in_session db key owner now ttl)) k =
  fence db k + (if decide (k = key) then 1 else 0).
Proof.
  unfold takeover_in_session, fence; simpl. destruct (decide (k = key)) as [->|Hne].
  - rewrite lookup_insert_eq. by destruct (db !! key).
  - rewrite lookup_insert_ne by done. lia.
Qed.

Lemma takeover_in_session_lease db key owner now ttl :
  snd (takeover_in_session db key owner now ttl) =
  MkLease key owner (fence db key + 1) (now + ttl).
Proof. unfold takeover_in_session, fence. simpl. by destruct (db !! key). Qed.

Lemma takeover_in_session_current db key owner now ttl t :
  t < now + ttl →
  let '(db', lease) := takeover_in_session db key owner now ttl in
  is_current_in_session db' lease t = true.
Proof.
  intros Ht. unfold takeover_in_session. apply current_spec; simpl.
  destruct (db !! key); eexists; rewrite lookup_insert_eq; (split; [done|]); naive_solver.
Qed.

(** An acquisition either grants the next fence or leaves the table alone. *)
Lemma acquire_in_session_spec db key owner now ttl :
  (acquire_in_session db key owner now ttl = (db, None) ∧
   ∃ row, db !! key = Some row ∧ row_owner_id row ≠ owner ∧ now < row_lease_expires_at row) ∨
  (let '(db', lease) := takeover_in_session db key owner now ttl in
   acquire_in_session db key owner now ttl = (db', Some lease) ∧
   ∀ row, db !! key = Some row → row_owner_id row = owner ∨ row_lease_expires_at row ≤ now).
Proof.
  unfold acquire_in_session, takeover_in_session. destruct (db !! key) as [row|] eqn:Hrow.
  - destruct (_ || _)%bool eqn:Hg.
    + right. split; [done|]. intros ? [= <-]. apply orb_true_iff in Hg as [Hg|Hg]; bool_facts; auto.
    + left. bool_facts. eauto.
  - right. naive_solver.
Qed.

Lemma acquire_in_session_fence_le db key owner now ttl k :
  fence db k ≤ fence (fst (acquire_in_session db key owner now ttl)) k.
Proof.
  destruct (acquire_in_session_spec db key owner now ttl) as [[-> _]|H]; [done|].
  pose proof (takeover_in_session_fence db key owner now ttl k) as Hf.
  destruct (takeover_in_session _ _ _ _ _) as [db' l]. destruct H as [-> _]. simpl in *.
  case_decide; lia.
Qed.

Lemma renew_fence db lease now ttl k : fence (fst (renew db lease now ttl)) k = fence db k.
Proof.
  unfold renew. destruct (db !! resource_key lease) as [row|] eqn:Hrow; [|done].
  case_match; [|done]. unfold fence; simpl.
  destruct (decide (k = resource_key lease)) as [->|]; by simplify_map_eq.
Qed.

Lemma release_fence db lease now k : fence (fst (release db lease now)) k = fence db k.
Proof.
  unfold release. destruct (db !! resource_key lease) as [row|] eqn:Hrow; [|done].
  case_match; [|done]. unfold fence; simpl.
  destruct (decide (k = resource_key lease)) as [->|]; by simplify_map_eq.
Qed.

Lemma revoke_fence_le db key now k : fence db k ≤ fence (fst (revoke db key now)) k.
Proof.
  unfold revoke. destruct (db !! key) as [row|] eqn:Hrow; [|done]. unfold fence; simpl.
  destruct (decide (k = key)) as [->|]; simplify_map_eq; lia.
Qed.

#[export] Hint Resolve acquire_in_session_fence_le revoke_fence_le : lease.
#[export] Hint Rewrite renew_fence release_fence takeover_in_session_fence : lease.

(** ** Histories of the table *)

(** One statement of some controller, with the clock it reads. *)
Inductive op :=
| OpAcquire (key owner : string) (ttl : Z)
| OpTakeover (key owner : string) (ttl : Z)
| OpRenew (lease : Lease) (ttl : Z)
| OpRelease (lease : Lease)
| OpRevoke (key : string).

Definition exec (db : gmap string lease_row) (e : Z * op) : gmap string lease_row :=
  let '(now, o) := e in
  match o with
  | OpAcquire key owner ttl => fst (acquire_in_session db key owner now ttl)
  | OpTakeover key owner ttl => fst (takeover_in_session db key owner now ttl)
  | OpRenew lease ttl => fst (renew db lease now ttl)
  | OpRelease lease => fst (release db lease now)
  | OpRevoke key => fst (revoke db key now)
  end.

(** The lease a statement mints, if it mints one (a renewal keeps its fence). *)
Definition minted (db : gmap string lease_row) (e : Z * op) : option Lease :=
  let '(now, o) := e in
  match o with
  | OpAcquire key owner ttl => snd (acquire_in_session db key owner now ttl)
  | OpTakeover key owner ttl => Some (snd (takeover_in_session db key owner now ttl))
  | _ => None
  end.

(** The fences minted for [key] along a history, oldest first. *)
Fixpoint minted_fences (key : string) (db : gmap string lease_row) (tr : list (Z * op)) : list Z :=
  match tr with
  | [] => []
  | e :: tr =>
      match minted db e with
      | Some lease => if bool_decide (resource_key lease = key) then [fencing_token lease] else []
      | None => []
      end ++ minted_fences key (exec db e) tr
  end.

Lemma exec_fence_le db e k : fence db k ≤ fence (exec db e) k.
Proof.
  destruct e as [now []]; cbn [exec]; autorewrite with lease; auto with lease; try lia.
  case_decide; lia.
Qed.

Lemma run_fence_le db tr k : fence db k ≤ fence (run exec db tr) k.
Proof.
  apply (run_invariant exec (λ db', fence db k ≤ fence db' k)); [done|].
  intros db' e Hle. etrans; [done|apply exec_fence_le].
Qed.

Lemma minted_fence db e lease :
  minted db e = Some lease →
  fencing_token lease = fence (exec db e) (resource_key lease) ∧
  fence db (resource_key lease) < fencing_token lease.
Proof.
  assert (∀ key owner now ttl l,
    l = snd (takeover_in_session db key owner now ttl) →
    fencing_token l = fence (fst (takeover_in_session db key owner now ttl)) (resource_key l) ∧
    fence db (resource_key l) < fencing_token l) as Htake.
  { intros key owner now ttl l ->. rewrite takeover_in_session_fence, takeover_in_session_lease.
    simpl. rewrite decide_True by done. lia. }
  destruct e as [now []]; cbn [minted exec]; try done; [|by intros [= <-]; apply Htake].
  intros Hmint. destruct (acquire_in_session_spec db key owner now ttl) as [[Heq _]|H].
  { by rewrite Heq in Hmint. }
  specialize (Htake key owner now ttl). destruct (takeover_in_session _ _ _ _ _) as [db' l] eqn:Ht.
  destruct H as [Heq _]. rewrite Heq in *. simpl in *. by apply Htake; injection Hmint.
Qed.

Lemma minted_fences_above key db tr : Forall (λ f, fence db key < f) (minted_fences key db tr).
Proof.
  revert db. induction tr as [|e tr IH]; intros db; simpl; [constructor|].
  apply Forall_app; split.
  - destruct (minted db e) as [lease|] eqn:Hm; [|constructor].
    case_bool_decide as Hk; [|constructor]. subst. apply minted_fence in Hm as [_ ?]. by constructor.
  - eapply Forall_impl; [apply IH|]. intros f Hf. simpl in *.
    pose proof (exec_fence_le db e key). lia.
Qed.

(** What a history may do while a lease is held until [e] without touching it. *)
Definition harmless (lease : Lease) (e : Z) (ev : Z * op) : Prop :=
  let '(now, o) := ev in
  now < e ∧
  match o with
  | OpAcquire key owner _ => key = resource_key lease → owner ≠ owner_id lease
  | OpTakeover key _ _ | OpRevoke key => key ≠ resource_key lease
  | OpRenew l ttl =>
      resource_key l = resource_key lease → owner_id l = owner_id lease →
      fencing_token l = fencing_token lease → e ≤ now + ttl
  | OpRelease l =>
      ¬ (resource_key l = resource_key lease ∧ owner_id l = owner_id lease ∧
         fencing_token l = fencing_token lease)
  end.

Definition held_until (lease : Lease) (e : Z) (db : gmap string lease_row) : Prop :=
  ∃ row, db !! resource_key lease = Some row ∧ row_owner_id row = owner_id lease ∧
    row_fencing_token row = fencing_token lease ∧ e ≤ row_lease_expires_at row.

Lemma exec_other_key db now o key :
  match o with
  | OpAcquire k _ _ | OpTakeover k _ _ | OpRevoke k => k
  | OpRenew l _ | OpRelease l => resource_key l
  end ≠ key → exec db (now, o) !! key = db !! key.
Proof. intros Hne. destruct o; simpl; lease_cases; by simplify_map_eq. Qed.

Lemma exec_held lease e db ev :
  harmless lease e ev → held_until lease e db → held_until lease e (exec db ev).
Proof.
  intros Hh (row & Hrow & Ho & Hf & He). destruct ev as [now o]. destruct Hh as [Hnow Hh].
  assert (held_until lease e db) as Hheld by (by exists row).
  unfold held_until. destruct o as [k o ttl|k o ttl|l ttl|l|k].
  - destruct (decide (k = resource_key lease)) as [->|]; [|rewrite exec_other_key; eauto].
    simpl. unfold acquire_in_session. rewrite Hrow.
    rewrite bool_decide_eq_false_2 by naive_solver. rewrite (proj2 (Z.leb_gt _ _)) by lia. eauto.
  - rewrite exec_other_key; eauto.
  - destruct (decide (resource_key l = resource_key lease)) as [Hk|]; [|rewrite exec_other_key; eauto].
    simpl. unfold renew, row_matches. rewrite Hk, Hrow. case_match eqn:Hg; [|eauto].
    bool_facts. simpl. rewrite lookup_insert_eq. eexists; split_and!; [done|done|done|].
    simpl. unfold lease_expiry. apply Hh; congruence.
  - destruct (decide (resource_key l = resource_key lease)) as [Hk|]; [|rewrite exec_other_key; eauto].
    simpl. unfold release, row_matches. rewrite Hk, Hrow. case_match eqn:Hg; [|eauto].
    bool_facts. destruct Hh. split_and!; congruence.
  - rewrite exec_other_key; eauto.
Qed.

Lemma run_held lease e db tr :
  held_until lease e db → Forall (harmless lease e) tr → held_until lease e (run exec db tr).
Proof. intros Hh Htr. eapply run_invariant_when; eauto using exec_held. Qed.

(** ** Retries of the database calls *)

(** The first attempt (of [n], counted from [i]) that reaches the database. *)
Fixpoint first_attempt (n i : nat) (at_ : nat → attempt) : option Z :=
  match n with
  | O => None
  | S n => if attempt_fails (at_ i) then first_attempt n (S i) at_ else Some (attempt_now (at_ i))
  end.

(** ** The interface of the store *)

(** What the ownership components rely on: atomic operations on a fenced lease. *)
Class FencedStore (DB : Type) := {
  fs_fence : DB → string → Z;
  fs_takeover : DB → string → string → Z → Z → DB * Lease;
  fs_renew : DB → Lease → Z → Z → DB * option Lease;
  fs_release : DB → Lease → Z → DB * bool;
  fs_revoke : DB → string → Z → DB * bool;
  fs_current : DB → Lease → Z → bool;
}.

Class FencedStoreLaws (DB : Type) `{FencedStore DB} := {
  fs_current_fence db lease now :
    fs_current db lease now = true → fencing_token lease = fs_fence db (resource_key lease);
  fs_takeover_fence db key owner now ttl k :
    fs_fence (fst (fs_takeover db key owner now ttl)) k =
    fs_fence db k + (if decide (k = key) then 1 else 0);
  fs_takeover_lease db key owner now ttl :
    snd (fs_takeover db key owner now ttl) =
    MkLease key owner (fs_fence db key + 1) (now + ttl);
  fs_takeover_current db key owner now ttl t :
    t < now + ttl →
    fs_current (fst (fs_takeover db key owner now ttl))
      (snd (fs_takeover db key owner now ttl)) t = true;
  fs_renew_fence db lease now ttl k :
    fs_fence (fst (fs_renew db lease now ttl)) k = fs_fence db k;
  fs_renew_some db lease now ttl :
    is_Some (snd (fs_renew db lease now ttl)) ↔ fs_current db lease now = true;
  fs_renew_none db lease now ttl :
    snd (fs_renew db lease now ttl) = None → fst (fs_renew db lease now ttl) = db;
  fs_renewed db lease lease' now ttl :
    snd (fs_renew db lease now ttl) = Some lease' →
    lease' = MkLease (resource_key lease) (owner_id lease) (fencing_token lease) (now + ttl) ∧
    ∀ t, t < now + ttl → fs_current (fst (fs_renew db lease now ttl)) lease' t = true;
  fs_release_fence db lease now k :
    fs_fence (fst (fs_release db lease now)) k = fs_fence db k;
  fs_revoke_fence db key now k :
    fs_fence db k ≤ fs_fence (fst (fs_revoke db key now)) k;
}.

#[export] Instance database_lease_store : FencedStore (gmap string lease_row) := {
  fs_fence := fence;
  fs_takeover := takeover_in_session;
  fs_renew := renew;
  fs_release := release;
  fs_revoke := revoke;
  fs_current := is_current_in_session;
}.

Lemma renew_none db lease now ttl :
  snd (renew db lease now ttl) = None → fst (renew db lease now ttl) = db.
Proof. unfold renew. repeat case_match; by simpl. Qed.

Lemma renewed db lease lease' now ttl :
  snd (renew db lease now ttl) = Some lease' →
  lease' = MkLease (resource_key lease) (owner_id lease) (fencing_token lease) (now + ttl) ∧
  ∀ t, t < now + ttl → is_current_in_session (fst (renew db lease now ttl)) lease' t = true.
Proof.
  unfold renew, row_matches. destruct (db !! resource_key lease) as [row|]; [|done].
  case_match eqn:Hg; [|done]. bool_facts. intros [= <-]. unfold lease_of; simpl.
  split; [by f_equal|]. intros t Ht. apply current_spec. eexists. rewrite lookup_insert_eq. eauto.
Qed.

#[export] Instance database_lease_store_laws : FencedStoreLaws (gmap string lease_row).
Proof.
  split; simpl.
  - apply current_fence.
  - apply takeover_in_session_fence.
  - apply takeover_in_session_lease.
  - intros db key owner now ttl t Ht. by apply takeover_in_session_current.
  - apply renew_fence.
  - apply renew_is_some.
  - apply renew_none.
  - apply renewed.
  - apply release_fence.
  - apply revoke_fence_le.
Qed.

(** ** Properties *)

(** Fencing: once a later grant or revocation has advanced the fence of a
    resource past a lease, that lease is never current, never renewed and never
    released again, whatever statements any controller runs afterwards. *)
Theorem superseded_lease_is_dead db lease tr :
  fencing_token lease < fence db (resource_key lease) →
  let db' := run exec db tr in
  ∀ now ttl,
    is_current_in_session db' lease now = false ∧
    renew db' lease now ttl = (db', None) ∧
    release db' lease now = (db', false).
Proof.
  intros Hlt db' now ttl. pose proof (run_fence_le db tr (resource_key lease)) as Hle.
  assert (fencing_token lease ≠ fence db' (resource_key lease)) as Hne by (subst db'; lia).
  auto using stale_not_current, stale_not_renewed, stale_not_released.
Qed.

Lemma superseded_lease_is_dead_witness :
  let db := fst (takeover_in_session {["k" := LeaseRow "a" 1 100 0 0]} "k" "b" 10 50) in
  is_current_in_session (run exec db [(20, OpRenew (MkLease "k" "a" 1 100) 50)])
    (MkLease "k" "a" 1 100) 30 = false.
Proof.
  intros db. refine (proj1 (superseded_lease_is_dead db (MkLease "k" "a" 1 100) _ _ 30 50)).
  vm_compute. reflexivity.
Defined.

(** Mutual exclusion over time: while a lease is current and nobody
    preempts it (no takeover, revocation, release or re-acquisition by its own
    owner), it stays current until its expiry through every history of the other
    controllers, and every acquisition they attempt is refused and changes
    nothing. *)
Theorem held_lease_excludes db lease e tr :
  held_until lease e db → Forall (harmless lease e) tr →
  let db' := run exec db tr in
  (∀ t, t < e → is_current_in_session db' lease t = true) ∧
  (∀ owner now ttl, owner ≠ owner_id lease → now < e →
     acquire_in_session db' (resource_key lease) owner now ttl = (db', None)).
Proof.
  intros Hheld Htr db'. destruct (run_held lease e db tr Hheld Htr) as (row & Hrow & Ho & Hf & He).
  fold db' in Hrow. split.
  - intros t Ht. apply current_spec. exists row. naive_solver lia.
  - intros owner now ttl Hne Hnow. unfold acquire_in_session. rewrite Hrow.
    rewrite bool_decide_eq_false_2 by naive_solver. by rewrite (proj2 (Z.leb_gt _ _)) by lia.
Qed.

Lemma held_lease_excludes_witness :
  let db := {["k" := LeaseRow "a" 3 100 0 0]} in
  is_current_in_session (run exec db [(20, OpAcquire "k" "b" 40); (30, OpRenew (MkLease "k" "a" 3 100) 90)])
    (MkLease "k" "a" 3 100) 99 = true.
Proof.
  intros db. refine (proj1 (held_lease_excludes db (MkLease "k" "a" 3 100) 100 _ _ _) 99 _).
  - eexists. split; [reflexivity|]. simpl. split_and!; [done|done|lia].
  - apply Forall_cons_2; [split; [lia|done]|]. apply Forall_cons_2; [split; [lia|intros; lia]|]. constructor.
  - lia.
Defined.

(** Grants of one resource carry strictly increasing fencing tokens along
    every history, so two grants never share an epoch. *)
Theorem granted_fences_increase key db tr :
  StronglySorted Z.lt (minted_fences key db tr).
Proof.
  revert db. induction tr as [|e tr IH]; intros db; simpl; [constructor|].
  destruct (minted db e) as [lease|] eqn:Hm; [|apply IH].
  case_bool_decide as Hk; [|apply IH]. simpl. constructor; [apply IH|].
  apply minted_fence in Hm as [-> _]. subst key. apply minted_fences_above.
Qed.

(** Both retry loops run the statement of the first attempt the database
    accepts; when all three raise [OperationalError], [acquire] reports a refusal,
    [takeover] re-raises, and the table is unchanged. *)
Theorem retries_run_first_attempt at_ db key owner ttl :
  acquire at_ db key owner ttl =
    match first_attempt 3 0 at_ with
    | Some now => acquire_in_session db key owner now ttl
    | None => (db, None)
    end ∧
  takeover at_ db key owner ttl =
    match first_attempt 3 0 at_ with
    | Some now => let '(db', lease) := takeover_in_session db key owner now ttl in (db', Ok lease)
    | None => (db, Err OperationalError)
    end.
Proof. unfold acquire, takeover; simpl. split; repeat case_match; congruence. Qed.
