(* ===== verification/Breaker.v ===== *)
(** The circuit breaker: [packages/common/src/cognis/providers/circuit_breaker.py].

    [CircuitBreaker] is a record of its mutable attributes.  Its coroutine
    [call] takes the state lock twice, once to admit the call and once to settle
    it, and awaits the protected function in between; the two critical sections
    are [allow_call] and [settle], so a history of a breaker shared by many calls
    is any interleaving of admissions, settlements and resets.  Times are in
    microseconds ([datetime]'s resolution). Logging is not modelled. *)

From S2P Require Import Prelude.

(** ** Data *)

Inductive CircuitState := CLOSED | OPEN | HALF_OPEN.

#[global] Instance CircuitState_eq_dec : EqDecision CircuitState.
Proof. solve_decision. Defined.

(** What the provider layer inspects of a raised exception: its type name,
    whether it derives from [Exception] (a cancellation does not), from
    [CircuitBreakerError] or from [TimeoutError]/[ConnectionError]/[OSError], and
    the status code and Retry-After header of its response when it has one. *)
Record exc := Exc {
  exc_type : string;
  exc_is_exception : bool;
  exc_is_breaker_error : bool;
  exc_is_os_error : bool;
  exc_status_code : option Z;
  exc_retry_after : option string;
}.

#[global] Instance exc_eq_dec : EqDecision exc.
Proof. solve_decision. Defined.

(** [CircuitBreakerError], without its message. *)
Record CircuitBreakerError := MkBreakerError {
  err_state : CircuitState;
  err_retry_after_seconds : Z;
  err_last_error_type : option string;
  err_last_failure_at : option Z;
}.

(** The configuration given to [__init__]; [should_trip] is [None] by default. *)
Record breaker_config := BreakerConfig {
  failure_threshold : Z;
  recovery_timeout : Z;
  should_trip : option (exc → bool);
}.

(** The mutable attributes. *)
Record breaker := Breaker {
  failures : Z;
  state : CircuitState;
  opened_at : option Z;
  last_failure_at : option Z;
  last_error_type : option string;
  half_open_probe_active : bool;
}.

Definition breaker_init : breaker := Breaker 0 CLOSED None None None false.

(** ** Operations *)

Definition _retry_after_seconds (cfg : breaker_config) (b : breaker) (now : Z) : Z :=
  match opened_at b with
  | None => recovery_timeout cfg
  | Some t => Z.max 0 (recovery_timeout cfg - (now - t))
  end.

(** The common tail of [_allow_call]: claim the single half-open probe. *)
Definition claim_probe (b : breaker) : breaker * bool :=
  if half_open_probe_active b then (b, false)
  else (Breaker (failures b) (state b) (opened_at b) (last_failure_at b) (last_error_type b) true,
        true).

Definition _allow_call (cfg : breaker_config) (now : Z) (b : breaker) : breaker * bool :=
  match state b with
  | CLOSED => (b, true)
  | OPEN =>
      match opened_at b with
      | None => (b, false)
      | Some t =>
          if now - t <? recovery_timeout cfg then (b, false)
          else claim_probe (Breaker (failures b) HALF_OPEN (opened_at b) (last_failure_at b)
                              (last_error_type b) (half_open_probe_active b))
      end
  | HALF_OPEN => claim_probe b
  end.

Definition reset_nowait (b : breaker) : breaker := breaker_init.

Definition reset (b : breaker) : breaker :=
  if bool_decide (state b = CLOSED) && (failures b =? 0) then b else reset_nowait b.

Inductive outcome (T : Type) := Returned (v : T) | Raised (e : exc).
Arguments Returned {T} v.
Arguments Raised {T} e.

Definition trips (cfg : breaker_config) (e : exc) : bool :=
  exc_is_exception e && match should_trip cfg with None => true | Some f => f e end.

(** The second critical section of [call], after the protected function ended. *)
Definition settle {T} (cfg : breaker_config) (now : Z) (o : outcome T) (b : breaker) : breaker :=
  match o with
  | Returned _ => Breaker 0 CLOSED None None None false
  | Raised e =>
      if trips cfg e then
        let n := failures b + 1 in
        if bool_decide (state b = HALF_OPEN) || (failure_threshold cfg <=? n)
        then Breaker n OPEN (Some now) (Some now) (Some (exc_type e)) false
        else Breaker n (state b) (opened_at b) (Some now) (Some (exc_type e)) false
      else if bool_decide (state b = HALF_OPEN) && exc_is_exception e
      then Breaker 0 CLOSED None None None false
      else Breaker (failures b) (state b) (opened_at b) (last_failure_at b) (last_error_type b) false
  end.

Inductive call_result (T : Type) :=
| Rejected (e : CircuitBreakerError)
| Finished (o : outcome T).
Arguments Rejected {T} e.
Arguments Finished {T} o.

(** [call] run alone: admitted at [t0] (the rejection reads the clock again at
    [t0']), the protected function ends with [o], settled at [t1]. *)
Definition call {T} (cfg : breaker_config) (t0 t0' t1 : Z) (o : outcome T) (b : breaker)
    : breaker * call_result T :=
  let '(b, allowed) := _allow_call cfg t0 b in
  if allowed then (settle cfg t1 o b, Finished o)
  else (b, Rejected (MkBreakerError (state b) (_retry_after_seconds cfg b t0')
                       (last_error_type b) (last_failure_at b))).

(** ** Histories of a shared breaker *)

Inductive event :=
| EAllow (now : Z)
| ESettle (now : Z) (o : outcome unit)
| EReset.

Definition step (cfg : breaker_config) (b : breaker) (e : event) : breaker :=
  match e with
  | EAllow now => fst (_allow_call cfg now b)
  | ESettle now o => settle cfg now o b
  | EReset => reset b
  end.

(** What holds between any two critical sections. *)
Definition breaker_ok (cfg : breaker_config) (b : breaker) : Prop :=
  0 ≤ failures b ∧
  match state b with
  | CLOSED => opened_at b = None ∧ half_open_probe_active b = false ∧
              failures b < failure_threshold cfg
  | OPEN => half_open_probe_active b = false ∧ failure_threshold cfg ≤ failures b ∧
            ∃ t, opened_at b = Some t ∧ last_failure_at b = Some t ∧ is_Some (last_error_type b)
  | HALF_OPEN => failure_threshold cfg ≤ failures b ∧ is_Some (opened_at b)
  end.

(** ** Lemmas *)

Lemma claim_probe_idle b :
  half_open_probe_active b = true → claim_probe b = (b, false).
Proof. intros H. unfold claim_probe. by rewrite H. Qed.

Lemma settle_trip {T} cfg now e b :
  trips cfg e = true → state b = CLOSED → failures b + 1 < failure_threshold cfg →
  settle (T:=T) cfg now (Raised e) b =
  Breaker (failures b + 1) CLOSED (opened_at b) (Some now) (Some (exc_type e)) false.
Proof.
  intros Ht Hs Hf. simpl. rewrite Ht, Hs. by rewrite (proj2 (Z.leb_gt _ _)) by lia.
Qed.

Lemma settle_open {T} cfg now e b :
  trips cfg e = true → state b = HALF_OPEN ∨ failure_threshold cfg ≤ failures b + 1 →
  settle (T:=T) cfg now (Raised e) b =
  Breaker (failures b + 1) OPEN (Some now) (Some now) (Some (exc_type e)) false.
Proof.
  intros Ht Hor. simpl. rewrite Ht. destruct Hor as [->|Hle]; [done|].
  by rewrite (proj2 (Z.leb_le _ _)), orb_true_r.
Qed.

Lemma step_ok cfg b e :
  1 ≤ failure_threshold cfg → breaker_ok cfg b → breaker_ok cfg (step cfg b e).
Proof.
  intros Hth [Hf Hb]. destruct e as [now|now o|]; cbn [step].
  - unfold _allow_call, claim_probe. destruct b as [n [] oa lf le []]; simpl in *;
      repeat case_match; split; simpl in *; naive_solver.
  - destruct o as [v|e]; cbn [settle]; [split; simpl; naive_solver lia|].
    destruct (trips cfg e).
    + destruct (_ || _)%bool eqn:Hopen; split; simpl; try lia.
      * apply orb_true_iff in Hopen as [Hopen|Hopen]; bool_facts; [rewrite Hopen in Hb|];
          split_and!; eauto; lia.
      * bool_facts. destruct (state b); naive_solver lia.
    + destruct (_ && _)%bool eqn:Hclose; split; simpl; try lia; [naive_solver lia|].
      destruct (state b); naive_solver lia.
  - unfold reset. destruct (_ && _)%bool; [exact (conj Hf Hb)|]. split; simpl; [lia|]. split_and!; [done|done|lia].
Qed.

#[export] Hint Resolve step_ok claim_probe_idle : breaker.
#[export] Hint Rewrite @settle_trip @settle_open using (done || lia) : breaker.

(** [n] protected calls in a row that fail at the given clocks. *)
Definition fail_all (cfg : breaker_config) (es : list (Z * exc)) (b : breaker) : breaker :=
  foldl (λ b '(now, e), settle (T:=unit) cfg now (Raised e) b) b es.

Lemma fail_all_closed cfg (es : list (Z * exc)) b :
  Forall (λ '(_, e), trips cfg e = true) es → state b = CLOSED →
  failures b + length es < failure_threshold cfg →
  state (fail_all cfg es b) = CLOSED ∧ failures (fail_all cfg es b) = failures b + length es.
Proof.
  intros Hes. revert b. induction Hes as [|[now e] es He _ IH]; intros b Hs Hlt; simpl in *.
  { split; [done|lia]. }
  rewrite He, Hs. rewrite (proj2 (Z.leb_gt _ _)) by lia. simpl.
  edestruct IH as [-> ->]; simpl; [done|lia|]. split; [done|lia].
Qed.

(** ** Properties *)

(** State invariant of a shared breaker, for every interleaving of
    admissions, settlements and resets: closed means fewer failures than the
    threshold and no opening time, open means at least that many and a recorded
    opening equal to the last failure, and no probe is outstanding outside half-open. *)
Theorem breaker_always_ok cfg tr :
  1 ≤ failure_threshold cfg → breaker_ok cfg (run (step cfg) breaker_init tr).
Proof.
  intros Hth. apply run_invariant; [|auto with breaker].
  split; simpl; [lia|]. split_and!; [done|done|lia].
Qed.

Lemma breaker_always_ok_witness :
  let cfg := BreakerConfig 2 30 None in
  let e := Exc "E" true false false None None in
  let b := run (step cfg) breaker_init [ESettle 5 (Raised e); ESettle 6 (Raised e); EAllow 40] in
  state b = HALF_OPEN ∧ breaker_ok cfg b.
Proof. intros cfg e b. split; [reflexivity|]. apply (breaker_always_ok cfg). simpl. lia. Defined.

(** The breaker opens exactly at the threshold: from a closed breaker with no
    recorded failure, [n] consecutive tripping failures leave it closed while
    [n < failure_threshold] and open at the [failure_threshold]-th, with the time
    of that failure as opening time. *)
Theorem opens_exactly_at_threshold cfg (es : list (Z * exc)) now e :
  Forall (λ '(_, e), trips cfg e = true) es → trips cfg e = true →
  length es + 1 = failure_threshold cfg →
  state (fail_all cfg es breaker_init) = CLOSED ∧
  fail_all cfg (es ++ [(now, e)]) breaker_init =
    Breaker (failure_threshold cfg) OPEN (Some now) (Some now) (Some (exc_type e)) false.
Proof.
  intros Hes He Hlen. destruct (fail_all_closed cfg es breaker_init) as [Hs Hf];
    [done|done|simpl; lia|].
  split; [done|]. unfold fail_all at 1. rewrite foldl_app. cbn [foldl].
  rewrite settle_open by (try done; right; fold (fail_all cfg es breaker_init); simpl in Hf; lia).
  fold (fail_all cfg es breaker_init). rewrite Hf. f_equal. simpl. lia.
Qed.

Lemma opens_exactly_at_threshold_witness :
  let cfg := BreakerConfig 2 30 None in
  let e := Exc "E" true false false None None in
  state (fail_all cfg [(1, e)] breaker_init) = CLOSED ∧
  state (fail_all cfg [(1, e); (9, e)] breaker_init) = OPEN.
Proof.
  intros cfg e. destruct (opens_exactly_at_threshold cfg [(1, e)] 9 e) as [H1 H2].
  - by repeat constructor.
  - reflexivity.
  - reflexivity.
  - split; [exact H1|]. change [(1, e); (9, e)] with ([(1, e)] ++ [(9, e)]). by rewrite H2.
Defined.

(** One probe at a time: once an open or half-open breaker has admitted its probe,
    every further admission is refused, at any clock and in any number, and leaves
    the breaker unchanged until a call settles or the breaker is reset. *)
Theorem single_probe_until_settled cfg b0 b t0 nows now :
  state b0 ≠ CLOSED → _allow_call cfg t0 b0 = (b, true) →
  run (step cfg) b (EAllow <$> nows) = b ∧ _allow_call cfg now b = (b, false).
Proof.
  intros Hs Hb.
  assert (state b = HALF_OPEN ∧ half_open_probe_active b = true) as [Hhalf Hp].
  { unfold _allow_call, claim_probe in Hb. by repeat (case_match; simplify_eq/=). }
  assert (∀ t, _allow_call cfg t b = (b, false)) as Hall.
  { intros t. unfold _allow_call. rewrite Hhalf. auto with breaker. }
  split; [|done]. induction nows as [|t nows IH]; [done|]. cbn [fmap list_fmap].
  rewrite run_cons. cbn [step]. by rewrite Hall.
Qed.

Lemma single_probe_until_settled_witness :
  let cfg := BreakerConfig 1 30 None in
  let b0 := Breaker 1 OPEN (Some 5) (Some 5) (Some "E") false in
  let b := fst (_allow_call cfg 40 b0) in
  snd (_allow_call cfg 99 b) = false.
Proof.
  intros cfg b0 b.
  destruct (single_probe_until_settled cfg b0 b 40 [50; 60] 99 ltac:(done) eq_refl) as [_ ->].
  reflexivity.
Defined.

(** The retry hint of an open breaker is exact: the error carries the time
    that remains, an admission any earlier is refused with the breaker unchanged,
    and one at or after that time is granted as the half-open probe. *)
Theorem open_retry_hint_exact {T} cfg b t now (o : outcome T) :
  state b = OPEN → opened_at b = Some t → half_open_probe_active b = false →
  now < t + recovery_timeout cfg →
  ∃ err, call cfg now now now o b = (b, Rejected err) ∧
    0 < err_retry_after_seconds err ∧
    (∀ t', t' < now + err_retry_after_seconds err → _allow_call cfg t' b = (b, false)) ∧
    (∀ t', now + err_retry_after_seconds err ≤ t' →
       snd (_allow_call cfg t' b) = true ∧
       state (fst (_allow_call cfg t' b)) = HALF_OPEN ∧
       half_open_probe_active (fst (_allow_call cfg t' b)) = true).
Proof.
  intros Hs Ho Hp Hnow.
  assert (∀ t', t' < t + recovery_timeout cfg → _allow_call cfg t' b = (b, false)) as Hno.
  { intros t' Ht'. unfold _allow_call. rewrite Hs, Ho. by rewrite (proj2 (Z.ltb_lt _ _)) by lia. }
  unfold call. rewrite Hno by done. eexists; split; [done|]. simpl.
  unfold _retry_after_seconds. rewrite Ho. split_and!; [lia|intros; apply Hno; lia|].
  intros t' Ht'. unfold _allow_call. rewrite Hs, Ho. rewrite (proj2 (Z.ltb_ge _ _)) by lia.
  unfold claim_probe; simpl. by rewrite Hp.
Qed.

Lemma open_retry_hint_exact_witness :
  let cfg := BreakerConfig 1 30 None in
  let b := Breaker 1 OPEN (Some 5) (Some 5) (Some "E") false in
  ∃ err, call cfg 20 20 20 (Returned tt) b = (b, Rejected err) ∧ 0 < err_retry_after_seconds err.
Proof.
  intros cfg b. destruct (open_retry_hint_exact cfg b 5 20 (Returned tt)) as (err & H1 & H2 & _);
    [reflexivity|reflexivity|reflexivity|simpl; lia|]. exists err. by split.
Defined.

(** A call admitted while the breaker was closed and cancelled while it is
    half-open clears the probe flag, so a second concurrent probe is admitted
    although the first has not settled. *)
Example cancelled_straggler_admits_second_probe :
  let cfg := BreakerConfig 1 30 None in
  let failure := Exc "HTTPError" true false false None None in
  let cancelled := Exc "CancelledError" false false false None None in
  let b0 := breaker_init in
  let '(b1, straggler) := _allow_call cfg 0 b0 in
  let '(b2, failing) := _allow_call cfg 1 b1 in
  let b3 := settle (T:=unit) cfg 2 (Raised failure) b2 in
  let '(b4, probe1) := _allow_call cfg 40 b3 in
  let b5 := settle (T:=unit) cfg 41 (Raised cancelled) b4 in
  let '(b6, probe2) := _allow_call cfg 42 b5 in
  (straggler, failing, state b3, probe1, probe2, state b6) =
  (true, true, OPEN, true, true, HALF_OPEN).
Proof. reflexivity. Qed.
