(* ===== verification/Retry.v ===== *)
(** Bounded retry: [packages/common/src/cognis/providers/retry.py].

    Delays are rational numbers of seconds (the code's floats, without their
    rounding).  The operation is the sequence of outcomes of its successive calls,
    [random.random()] the sequence of numbers drawn, and [float(...)] on a header
    is the parameter [parse_float].  [with_retry] returns what the coroutine
    returns or raises together with the delays it slept, in order. *)

From S2P Require Import Prelude Breaker.
From Stdlib Require Import QArith Lqa.
Local Open Scope Z_scope.

(** Python's [min(a, b)] and [max(a, b)]: the first argument unless the second is
    strictly smaller (larger). *)
Definition qmin (a b : Q) : Q := if Qle_bool a b then a else b.
Definition qmax (a b : Q) : Q := if Qle_bool b a then a else b.

Definition Qltb (a b : Q) : bool := negb (Qle_bool b a).

(** [compute_delay]; the jitter argument is the number drawn when jitter is on. *)
Definition compute_delay (attempt : nat) (base_delay max_delay : Q) (jitter : option Q) : Q :=
  let delay := qmin (base_delay * inject_Z (2 ^ attempt)) max_delay in
  match jitter with
  | None => delay
  | Some r => delay * ((3 # 4) + r * (1 # 2))
  end.

Definition is_retryable_http_error (e : exc) : bool :=
  if exc_is_breaker_error e then false
  else
    match exc_status_code e with
    | Some c => bool_decide (c ∈ [429; 500; 502; 503; 504])
    | None =>
        exc_is_os_error e ||
        bool_decide (exc_type e ∈ ["ConnectError"; "ConnectTimeout"; "ReadTimeout";
                                   "WriteTimeout"; "PoolTimeout"; "TimeoutException"])
    end.

(** What [float(text)] does. *)
Inductive float_parse := FloatError | FloatNonFinite | FloatFinite (q : Q).

Record retry_config := RetryConfig {
  max_retries : Z;
  base_delay : Q;
  max_delay : Q;
  use_jitter : bool;
  retryable_check : option (exc → bool);
  respect_retry_after : bool;
}.

Inductive retry_result (T : Type) :=
| RetryReturned (v : T)
| RetryRaised (e : exc)
| RetryAssertionError.
Arguments RetryReturned {T} v.
Arguments RetryRaised {T} e.
Arguments RetryAssertionError {T}.

Section WithRetry.
Context {T : Type} (parse_float : string → float_parse) (random : nat → Q).
Context (cfg : retry_config) (fn : nat → outcome T).

Definition retry_check (e : exc) : bool :=
  match retryable_check cfg with Some f => f e | None => is_retryable_http_error e end.

(** The opt-in Retry-After adjustment. *)
Definition retry_delay (attempt : nat) (e : exc) : Q :=
  let delay := compute_delay attempt (base_delay cfg) (max_delay cfg)
                 (if use_jitter cfg then Some (random attempt) else None) in
  if respect_retry_after cfg then
    match parse_float (default "" (exc_retry_after e)) with
    | FloatFinite after =>
        if Qltb 0 after then qmin (qmax delay after) (max_delay cfg) else delay
    | FloatError | FloatNonFinite => delay
    end
  else delay.

(** The body of [for attempt in range(max_retries + 1)]. *)
Fixpoint retry_loop (fuel attempt : nat) : list Q * retry_result T :=
  match fuel with
  | O => ([], RetryAssertionError)
  | S fuel =>
      match fn attempt with
      | Returned v => ([], RetryReturned v)
      | Raised e =>
          if negb (exc_is_exception e) then ([], RetryRaised e)
          else if negb (retry_check e) then ([], RetryRaised e)
          else if max_retries cfg <=? attempt then ([], RetryRaised e)
          else
            let '(delays, r) := retry_loop fuel (S attempt) in
            (retry_delay attempt e :: delays, r)
      end
  end.

Definition with_retry : list Q * retry_result T :=
  retry_loop (Z.to_nat (max_retries cfg + 1)) 0.

(** An outcome after which the loop goes on. *)
Definition retries_on (o : outcome T) : Prop :=
  ∃ e, o = Raised e ∧ exc_is_exception e = true ∧ retry_check e = true.

Definition result_of (o : outcome T) : retry_result T :=
  match o with Returned v => RetryReturned v | Raised e => RetryRaised e end.

Lemma retry_loop_spec (fuel attempt : nat) :
  attempt + fuel = max_retries cfg + 1 → (0 < fuel)%nat →
  ∃ n : nat, attempt + n ≤ max_retries cfg ∧
    (∀ i, (attempt ≤ i < attempt + n)%nat → retries_on (fn i)) ∧
    length (fst (retry_loop fuel attempt)) = n ∧
    snd (retry_loop fuel attempt) = result_of (fn (attempt + n)%nat) ∧
    (¬ retries_on (fn (attempt + n)%nat) ∨ attempt + n = max_retries cfg).
Proof.
  revert attempt. induction fuel as [|fuel IH]; intros attempt Hf Hpos; [lia|].
  simpl. destruct (fn attempt) as [v|e] eqn:Hfn.
  { exists 0%nat. rewrite Nat.add_0_r, Hfn. split_and!; try done; try lia.
    left. intros (? & ? & _). congruence. }
  destruct (exc_is_exception e) eqn:Hex; simpl; [destruct (retry_check e) eqn:Hck; simpl|].
  2,3: exists 0%nat; rewrite Nat.add_0_r, Hfn; split_and!; try done; try lia;
    left; intros (? & ? & ? & ?); congruence.
  destruct (Z.leb_spec (max_retries cfg) attempt).
  { exists 0%nat. rewrite Nat.add_0_r, Hfn. split_and!; try done; try lia. }
  destruct (IH (S attempt)) as (n & Hn & Hall & Hlen & Hres & Hend); [lia|lia|].
  destruct (retry_loop fuel (S attempt)) as [ds r]. simpl in *. exists (S n).
  rewrite !Nat.add_succ_r. split_and!; try lia; try done.
  - intros i Hi. destruct (decide (i = attempt)) as [->|]; [by exists e|apply Hall; lia].
  - destruct Hend; [by left|right; lia].
Qed.

Lemma retry_loop_delays (P : Q → Prop) (fuel attempt : nat) :
  (∀ i e, P (retry_delay i e)) → Forall P (fst (retry_loop fuel attempt)).
Proof.
  intros HP. revert attempt. induction fuel as [|fuel IH]; intros attempt; simpl; [constructor|].
  repeat case_match; simpl; try constructor; auto.
  match goal with H : retry_loop _ _ = _ |- _ => specialize (IH (S attempt)); by rewrite H in IH end.
Qed.

End WithRetry.

Lemma qmin_spec a b : (qmin a b <= a ∧ qmin a b <= b)%Q ∧ (qmin a b = a ∨ qmin a b = b).
Proof.
  unfold qmin. destruct (Qle_bool a b) eqn:E.
  - apply Qle_bool_iff in E. split; [split; lra|auto].
  - assert (¬ (a <= b)%Q) by (rewrite <- Qle_bool_iff; congruence). split; [split; lra|auto].
Qed.

Lemma qmax_spec a b : (a <= qmax a b ∧ b <= qmax a b)%Q ∧ (qmax a b = a ∨ qmax a b = b).
Proof.
  unfold qmax. destruct (Qle_bool b a) eqn:E.
  - apply Qle_bool_iff in E. split; [split; lra|auto].
  - assert (¬ (b <= a)%Q) by (rewrite <- Qle_bool_iff; congruence). split; [split; lra|auto].
Qed.

Lemma Qltb_true a b : Qltb a b = true → (a < b)%Q.
Proof.
  unfold Qltb. rewrite negb_true_iff. intros H.
  apply Qnot_le_lt. rewrite <- Qle_bool_iff. congruence.
Qed.

Lemma backoff_nonneg attempt base cap :
  (0 <= base → 0 <= cap → 0 <= qmin (base * inject_Z (2 ^ Z.of_nat attempt)) cap)%Q.
Proof.
  intros Hb Hc. destruct (qmin_spec (base * inject_Z (2 ^ Z.of_nat attempt)) cap) as [_ [->| ->]];
    [|done].
  apply Qmult_le_0_compat; [done|]. change 0%Q with (inject_Z 0). rewrite <- Zle_Qle. lia.
Qed.

Lemma compute_delay_bounds attempt base cap jitter :
  (0 <= base → 0 <= cap → (∀ r, jitter = Some r → 0 <= r < 1) →
   0 <= compute_delay attempt base cap jitter <= cap * (5 # 4))%Q.
Proof.
  intros Hb Hc Hj. unfold compute_delay.
  pose proof (backoff_nonneg attempt base cap Hb Hc) as Hd.
  destruct (qmin_spec (base * inject_Z (2 ^ Z.of_nat attempt)) cap) as [[_ Hle] _].
  set (d := qmin _ _) in *. destruct jitter as [r|]; [|split; lra].
  destruct (Hj r eq_refl) as [Hr0 Hr1]. split; [nra|]. nra.
Qed.

(** ** Properties *)

(** [with_retry] always ends with the outcome of one call of the operation:
    the first one that returned, raised something not retryable, or exhausted
    [max_retries]; it makes at most [max_retries + 1] calls, sleeps once between
    two calls, and never reaches its final [AssertionError]. *)
Theorem with_retry_outcome {T} parse_float random cfg (fn : nat → outcome T) :
  0 ≤ max_retries cfg →
  ∃ n : nat, n ≤ max_retries cfg ∧
    (∀ i, (i < n)%nat → retries_on cfg (fn i)) ∧
    length (fst (with_retry parse_float random cfg fn)) = n ∧
    snd (with_retry parse_float random cfg fn) = result_of (fn n) ∧
    (¬ retries_on cfg (fn n) ∨ n = max_retries cfg :> Z).
Proof.
  intros H. destruct (retry_loop_spec parse_float random cfg fn (Z.to_nat (max_retries cfg + 1)) 0)
    as (n & H1 & H2 & H3 & H4 & H5); [lia|lia|]. exists n.
  split_and!; [lia|intros i Hi; apply H2; lia|done|done|destruct H5; auto].
Qed.

Lemma with_retry_outcome_witness :
  let cfg := RetryConfig 2 1 30 false None false in
  let fn i := match i with 0%nat => Raised (Exc "ReadTimeout" true false false None None)
              | _ => Returned 7 end in
  snd (with_retry (λ _, FloatError) (λ _, 0%Q) cfg fn) = RetryReturned 7 ∧
  ∃ n : nat, n ≤ 2 ∧ snd (with_retry (λ _, FloatError) (λ _, 0%Q) cfg fn) = result_of (fn n).
Proof.
  intros cfg fn. split; [reflexivity|].
  destruct (with_retry_outcome (λ _, FloatError) (λ _, 0%Q) cfg fn) as (n & H1 & _ & _ & H4 & _);
    [simpl; lia|]. exists n. split; [exact H1|exact H4].
Defined.

(** Every sleep of the loop is non-negative and within the configured
    bound: at most [max_delay], or at most a quarter more when jitter is on; a
    Retry-After header never extends it past the same bound. *)
Theorem with_retry_delays_bounded {T} parse_float random cfg (fn : nat → outcome T) :
  (0 <= base_delay cfg → 0 <= max_delay cfg → (∀ i, 0 <= random i < 1) →
   Forall (λ d, 0 <= d <= (if use_jitter cfg then max_delay cfg * (5 # 4) else max_delay cfg))
     (fst (with_retry parse_float random cfg fn)))%Q.
Proof.
  intros Hb Hm Hr. apply retry_loop_delays. intros i e. unfold retry_delay.
  set (d := compute_delay _ _ _ _).
  assert (0 <= d <= (if use_jitter cfg then max_delay cfg * (5 # 4) else max_delay cfg))%Q as Hd.
  { subst d. destruct (use_jitter cfg).
    - apply compute_delay_bounds; [done|done|]. by intros r [= <-].
    - unfold compute_delay. split; [by apply backoff_nonneg|]. apply qmin_spec. }
  destruct (respect_retry_after cfg); [|done].
  destruct (parse_float _) as [| |after]; [done|done|].
  destruct (Qltb 0 after) eqn:Ha; [|done]. apply Qltb_true in Ha.
  destruct (qmax_spec d after) as [[H1 H2] _], (qmin_spec (qmax d after) (max_delay cfg)) as [[H3 H4] H5].
  split; [destruct H5 as [->| ->]; lra|]. destruct (use_jitter cfg); lra.
Qed.

Lemma with_retry_delays_bounded_witness :
  let cfg := RetryConfig 2 1 (3 # 2) false (Some (λ _, true)) true in
  let e := Exc "HTTPStatusError" true false false (Some 503) (Some "900") in
  let ds := fst (with_retry (T:=unit) (λ _, FloatFinite 900) (λ _, 0%Q) cfg (λ _, Raised e)) in
  ds = [3 # 2; 3 # 2]%Q ∧ Forall (λ d, 0 <= d <= 3 # 2)%Q ds.
Proof.
  intros cfg e ds. split; [reflexivity|].
  apply (with_retry_delays_bounded (λ _, FloatFinite 900) (λ _, 0%Q) cfg);
    [vm_compute; discriminate|vm_compute; discriminate|intros i; split; [apply Qle_refl|reflexivity]].
Defined.
