(* ===== verification/Availability.v ===== *)
(** Inference availability: [cognis/providers/llm/availability.py].

    The circuit that admits inference attempts has two implementations: a Lua
    script run atomically by Redis ([_AVAILABILITY_SCRIPT], shared by all
    controllers) and the in-memory branch of [InferenceAvailability._operate].
    Both are functions of the store, the clock and the operation; a simulation
    shows that they answer every history of operations alike.  Clock readings and
    durations are integers in microseconds ([tick] per second); numbers survive
    the Redis JSON encoding exactly. *)

From S2P Require Import Prelude.

Definition tick : Z := 1000000.

(** The fields of [RecoveryPolicy] the circuit reads. *)
Record RecoveryPolicy := MkPolicy {
  failure_threshold : Z;
  failure_window_seconds : Z;
  cooldown_seconds : Z;
}.

Record AvailabilityPermit := MkPermit {
  permit_key : string;
  permit_generation : string;
  permit_trial_token : string;
  retry_after_seconds : Z;
  permit_failure_category : option string;
}.

#[global] Instance AvailabilityPermit_eq_dec : EqDecision AvailabilityPermit.
Proof. solve_decision. Defined.

(** [AvailabilityPermit.allowed] *)
Definition allowed (p : AvailabilityPermit) : bool := retry_after_seconds p =? 0.

(** [AvailabilityPermit(key, generation, token)] with the defaults. *)
Definition granted (key gen token : string) : AvailabilityPermit := MkPermit key gen token 0 None.

(** [_State], without [expires_at], which is kept beside it in both stores. *)
Record _State := MkState {
  generation : string;
  failures : gmap string Z;
  open_until : Z;
  trial_token : string;
  trial_until : Z;
  failure_category : option string;
}.

Inductive action := Admit | Check | Release | Success | Failure.

#[global] Instance action_eq_dec : EqDecision action.
Proof. solve_decision. Defined.

(** The arguments of [_operate], and the fresh [uuid4] it draws. *)
Record operation := Operation {
  op_action : action;
  op_permit : AvailabilityPermit;
  op_request_id : string;
  op_block_seconds : Z;
  op_lease_seconds : Z;
  op_failure_category : option string;
  op_next_generation : string;
}.

Section Circuit.
Context (policy : RecoveryPolicy).

(** [int(max(...)) + 60] seconds *)
Definition op_ttl (o : operation) : Z :=
  (Z.max (failure_window_seconds policy)
     (Z.max (cooldown_seconds policy) (Z.max (op_block_seconds o) (op_lease_seconds o)))
   / tick + 60) * tick.

(** A failure still inside the window. *)
Definition alive (now : Z) (x : string * Z) : Prop := now < x.2 + failure_window_seconds policy.

#[global] Instance alive_dec now x : Decision (alive now x).
Proof. unfold alive. apply _. Defined.

Definition prune (now : Z) (fs : gmap string Z) : gmap string Z := filter (alive now) fs.

(** [dict.setdefault] *)
Definition setdefault (k : string) (v : Z) (m : gmap string Z) : gmap string Z :=
  match m !! k with Some _ => m | None => <[k := v]> m end.

(** ** The in-memory branch of [_operate] *)

(** What the branch does with the live state of the key: the new state (with its
    failures pruned), whether its expiry is refreshed, and the returned permit. *)
Definition memory_transition (now : Z) (o : operation) (st : _State)
    : _State * bool * AvailabilityPermit :=
  let p := op_permit o in
  let key := permit_key p in
  let token := permit_trial_token p in
  if bool_decide (op_action o = Check) then
    let valid := if bool_decide (token = "") then open_until st =? 0
                 else bool_decide (trial_token st = token) && (now <? trial_until st) in
    (st, false,
     if valid then p
     else MkPermit key (permit_generation p) "" (Z.max 1 (open_until st - now)) None)
  else
    let fs := prune now (failures st) in
    let st := MkState (generation st) fs (open_until st) (trial_token st) (trial_until st)
                (failure_category st) in
    match op_action o with
    | Admit =>
        let remaining := Z.max (open_until st) (trial_until st) - now in
        if 0 <? remaining then
          (st, false, MkPermit key (generation st) "" remaining (failure_category st))
        else if bool_decide (open_until st ≠ 0) then
          (MkState (generation st) fs (open_until st) token (now + op_lease_seconds o)
             (failure_category st), true, granted key (generation st) token)
        else (st, true, granted key (generation st) "")
    | Release =>
        let st' := if bool_decide (token ≠ "") && bool_decide (trial_token st = token)
                   then MkState (generation st) fs (open_until st) "" 0 (failure_category st)
                   else st in
        (st', true, granted key (generation st') token)
    | Success =>
        let st' := if bool_decide (token ≠ "") && bool_decide (trial_token st = token)
                      && (now <? trial_until st)
                   then MkState (op_next_generation o) ∅ 0 "" 0 (failure_category st)
                   else st in
        (st', true, granted key (generation st') token)
    | Failure =>
        if bool_decide (token ≠ "")
           && (negb (bool_decide (trial_token st = token)) || (trial_until st <=? now))
        then (st, false, p)
        else
          let fs := setdefault (op_request_id o) now fs in
          let category := match op_failure_category o with
                          | Some c => if bool_decide (c = "") then failure_category st else Some c
                          | None => failure_category st
                          end in
          let st' :=
            if bool_decide (op_block_seconds o ≠ 0) || (failure_threshold policy <=? size fs)
               || bool_decide (token ≠ "")
            then MkState (op_next_generation o) fs
                   (Z.max (open_until st) (now + Z.max (op_block_seconds o) (cooldown_seconds policy)))
                   "" 0 category
            else MkState (generation st) fs (open_until st) (trial_token st) (trial_until st) category in
          (st', true, granted key (generation st') token)
    | Check => (st, false, p)
    end.

(** The branch: drop expired entries, then look the key up. *)
Definition operate_memory (now : Z) (o : operation) (m : gmap string (_State * Z))
    : gmap string (_State * Z) * AvailabilityPermit :=
  let p := op_permit o in
  let m := filter (λ x : string * (_State * Z), now < x.2.2) m in
  let refused := if bool_decide (op_action o = Check)
                 then MkPermit (permit_key p) (permit_generation p) "" 1 None else p in
  let apply_to (m : gmap string (_State * Z)) (st : _State) (expires : Z) :=
    let '(st', refresh, q) := memory_transition now o st in
    (<[permit_key p := (st', if refresh then now + op_ttl o else expires)]> m, q) in
  match m !! permit_key p with
  | None =>
      if bool_decide (op_action o = Admit) then
        let st := MkState (permit_generation p) ∅ 0 "" 0 None in
        let m := <[permit_key p := (st, now + op_ttl o)]> m in
        apply_to m st (now + op_ttl o)
      else (m, refused)
  | Some (st, expires) =>
      if bool_decide (op_action o ≠ Admit)
         && negb (bool_decide (generation st = permit_generation p))
      then (m, refused)
      else apply_to m st expires
  end.

(** ** The Redis branch *)

(** The reply of the script. *)
Inductive reply :=
| RStale
| ROk (generation token : string)
| RBlocked (generation : string) (delay : Z) (category : string).

(** [_AVAILABILITY_SCRIPT] on the decoded state of the key, if any; the returned
    state is the one [SET] with a fresh time to live, [None] when the script
    returned before it. *)
Definition availability_script (now : Z) (o : operation) (raw : option _State)
    : option _State * reply :=
  let p := op_permit o in
  let token := permit_trial_token p in
  let gen := permit_generation p in
  let state := match raw with
               | Some st => Some st
               | None => if bool_decide (op_action o = Admit)
                         then Some (MkState gen ∅ 0 "" 0 None) else None
               end in
  match state with
  | None => (None, if bool_decide (op_action o = Check) then RBlocked gen 1 "" else RStale)
  | Some st =>
      if bool_decide (op_action o ≠ Admit) && negb (bool_decide (generation st = gen)) then
        (None, if bool_decide (op_action o = Check) then RBlocked gen 1 "" else RStale)
      else
        let fs := prune now (failures st) in
        match op_action o with
        | Check =>
            if (bool_decide (token = "") && (0 <? open_until st))
               || (bool_decide (token ≠ "")
                   && (negb (bool_decide (trial_token st = token)) || (trial_until st <=? now)))
            then (None, RBlocked gen (Z.max 1 (open_until st - now)) "")
            else (None, ROk gen token)
        | Admit =>
            if now <? open_until st then
              (None, RBlocked (generation st) (open_until st - now) (default "" (failure_category st)))
            else if 0 <? open_until st then
              if now <? trial_until st then
                (None, RBlocked (generation st) (trial_until st - now)
                         (default "" (failure_category st)))
              else
                (Some (MkState (generation st) fs (open_until st) token
                         (now + op_lease_seconds o) (failure_category st)),
                 ROk (generation st) token)
            else
              (Some (MkState (generation st) fs (open_until st) (trial_token st) (trial_until st)
                       (failure_category st)), ROk (generation st) "")
        | Release =>
            if bool_decide (token ≠ "") && bool_decide (trial_token st = token) then
              (Some (MkState (generation st) fs (open_until st) "" 0 (failure_category st)),
               ROk (generation st) token)
            else
              (Some (MkState (generation st) fs (open_until st) (trial_token st) (trial_until st)
                       (failure_category st)), ROk (generation st) token)
        | Success =>
            if bool_decide (token ≠ "") && bool_decide (trial_token st = token)
               && (now <? trial_until st) then
              (Some (MkState (op_next_generation o) ∅ 0 "" 0 (failure_category st)),
               ROk (op_next_generation o) token)
            else
              (Some (MkState (generation st) fs (open_until st) (trial_token st) (trial_until st)
                       (failure_category st)), ROk (generation st) token)
        | Failure =>
            if bool_decide (token ≠ "")
               && (negb (bool_decide (trial_token st = token)) || (trial_until st <=? now))
            then (None, RStale)
            else
              let fs := setdefault (op_request_id o) now fs in
              let arg := default "" (op_failure_category o) in
              let category := if bool_decide (arg ≠ "") then Some arg else failure_category st in
              if (0 <? op_block_seconds o) || (failure_threshold policy <=? size fs)
                 || bool_decide (token ≠ "")
              then (Some (MkState (op_next_generation o) fs
                            (Z.max (open_until st)
                               (now + Z.max (op_block_seconds o) (cooldown_seconds policy)))
                            "" 0 category),
                    ROk (op_next_generation o) token)
              else (Some (MkState (generation st) fs (open_until st) (trial_token st)
                            (trial_until st) category), ROk (generation st) token)
        end
  end.

(** Decoding of the reply in [_operate]. *)
Definition permit_of_reply (p : AvailabilityPermit) (r : reply) : AvailabilityPermit :=
  match r with
  | RStale => p
  | ROk gen token => MkPermit (permit_key p) gen token 0 None
  | RBlocked gen delay category =>
      MkPermit (permit_key p) gen "" delay (if bool_decide (category = "") then None else Some category)
  end.

(** [GET] sees a key until its time to live has passed; [SET ... EX ttl]. *)
Definition operate_redis (now : Z) (o : operation) (r : gmap string (_State * Z))
    : gmap string (_State * Z) * AvailabilityPermit :=
  let p := op_permit o in
  let raw := match r !! permit_key p with
             | Some (st, expires) => if now <? expires then Some st else None
             | None => None
             end in
  let '(write, rep) := availability_script now o raw in
  (match write with Some st => <[permit_key p := (st, now + op_ttl o)]> r | None => r end,
   permit_of_reply p rep).

(** ** Relating the two stores *)

Lemma prune_prune now now' fs : now ≤ now' → prune now' (prune now fs) = prune now' fs.
Proof.
  intros Hle. unfold prune. rewrite map_filter_filter. apply map_filter_ext.
  intros k t _. unfold alive. simpl. lia.
Qed.

Definition live (now : Z) (m : gmap string (_State * Z)) (k : string) : option (_State * Z) :=
  match m !! k with
  | Some (st, expires) => if now <? expires then Some (st, expires) else None
  | None => None
  end.

(** The invariant of a reachable state of the circuit at a clock. *)
Definition state_ok (now : Z) (st : _State) : Prop :=
  0 ≤ open_until st ∧ 0 ≤ trial_until st ∧ failure_category st ≠ Some "" ∧
  (trial_until st = 0 ∨ 0 < open_until st ≤ now).

Definition same_state (now : Z) (s1 s2 : _State) : Prop :=
  generation s1 = generation s2 ∧ prune now (failures s1) = prune now (failures s2) ∧
  open_until s1 = open_until s2 ∧ trial_token s1 = trial_token s2 ∧
  trial_until s1 = trial_until s2 ∧ failure_category s1 = failure_category s2 ∧
  state_ok now s1.

Definition same_store (now : Z) (m r : gmap string (_State * Z)) : Prop :=
  ∀ k, option_Forall2 (λ x y, same_state now x.1 y.1 ∧ x.2 = y.2) (live now m k) (live now r k).

(** The operations of the public methods: a non-negative retry-after, and a
    check of a permit that was granted. *)
Definition admissible (o : operation) : Prop :=
  0 ≤ op_block_seconds o ∧ 0 ≤ op_lease_seconds o ∧
  (op_action o = Check →
   retry_after_seconds (op_permit o) = 0 ∧ permit_failure_category (op_permit o) = None).

Lemma same_state_later now now' s1 s2 :
  now ≤ now' → same_state now s1 s2 → same_state now' s1 s2.
Proof.
  intros Hle (Hg & Hf & Ho & Ht & Hu & Hc & Hok). unfold same_state, state_ok in *.
  split_and!; try done; try naive_solver lia.
  by rewrite <- (prune_prune now now'), Hf, prune_prune.
Qed.

Lemma live_later now now' m k :
  now ≤ now' →
  live now' m k = match live now m k with
                  | Some (st, e) => if now' <? e then Some (st, e) else None
                  | None => None
                  end.
Proof.
  intros Hle. unfold live. destruct (m !! k) as [[st e]|]; [|done].
  destruct (Z.ltb_spec now e), (Z.ltb_spec now' e); try done; lia.
Qed.

Lemma same_store_later now now' m r :
  now ≤ now' → same_store now m r → same_store now' m r.
Proof.
  intros Hle H k. rewrite !(live_later now now') by done.
  destruct (H k) as [[s1 e1] [s2 e2] [Hs He]|]; [|constructor]. simpl in *. subst e2.
  destruct (now' <? e1); constructor. split; [by eapply same_state_later|done].
Qed.

Lemma filter_live now (m : gmap string (_State * Z)) k :
  filter (λ x : string * (_State * Z), now < x.2.2) m !! k = live now m k.
Proof.
  unfold live. destruct (m !! k) as [[st e]|] eqn:Hk.
  - destruct (Z.ltb_spec now e).
    + apply map_lookup_filter_Some. by split.
    + apply map_lookup_filter_None. right. intros x Hx. rewrite Hk in Hx. injection Hx as <-.
      simpl. lia.
  - apply map_lookup_filter_None. by left.
Qed.

Lemma live_insert now (m : gmap string (_State * Z)) k x k' :
  live now (<[k := x]> m) k' =
  if decide (k = k') then (if now <? x.2 then Some x else None) else live now m k'.
Proof.
  unfold live. destruct (decide (k = k')) as [->|Hne].
  - rewrite lookup_insert_eq. by destruct x.
  - by rewrite lookup_insert_ne.
Qed.

Lemma live_filter_live now (m : gmap string (_State * Z)) k :
  live now (filter (λ x : string * (_State * Z), now < x.2.2) m) k = live now m k.
Proof.
  unfold live at 1. rewrite filter_live. unfold live. destruct (m !! k) as [[st e]|]; [|done].
  destruct (now <? e) eqn:E; [by rewrite E|done].
Qed.

Lemma same_state_mk now g f f' o t u c :
  prune now f = prune now f' → 0 ≤ o → 0 ≤ u → c ≠ Some "" → (u = 0 ∨ 0 < o ≤ now) →
  same_state now (MkState g f o t u c) (MkState g f' o t u c).
Proof. intros. unfold same_state, state_ok. simpl. naive_solver. Qed.

(** The category survives its trip through the script's empty string. *)
Lemma category_decoded (c : option string) :
  c ≠ Some "" → (if bool_decide (default "" c = "") then None else Some (default "" c)) = c.
Proof. destruct c as [x|]; simpl; [|done]. intros Hc. rewrite bool_decide_false; [done|naive_solver]. Qed.

Lemma category_recorded (new_ old : option string) :
  old ≠ Some "" →
  let cat := match new_ with
             | Some x => if bool_decide (x = "") then old else Some x
             | None => old
             end in
  cat ≠ Some "" ∧ (if bool_decide (default "" new_ ≠ "") then Some (default "" new_) else old) = cat.
Proof.
  intros Hold. destruct new_ as [x|]; simpl; [|done].
  destruct (decide (x = "")) as [->|]; [by rewrite bool_decide_true|].
  rewrite bool_decide_false, bool_decide_true by done. naive_solver.
Qed.

(** One operation on related states: same answer, related states again. *)
Lemma transition_simulates now o s1 s2 :
  0 ≤ now → 0 < cooldown_seconds policy → admissible o → same_state now s1 s2 →
  (op_action o ≠ Admit → generation s2 = permit_generation (op_permit o)) →
  let '(s1', refresh, q) := memory_transition now o s1 in
  let '(write, rep) := availability_script now o (Some s2) in
  q = permit_of_reply (op_permit o) rep ∧
  match write with
  | Some s2' => refresh = true ∧ same_state now s1' s2'
  | None => refresh = false ∧ same_state now s1' s2
  end.
Proof.
  intros Hnow Hcool (Hblock & Hlease & Hcheck) Hsame Hgen.
  destruct s1 as [g f1 o1 t u c], s2 as [g2 f2 o2 t2 u2 c2], o as [a p req blk lease cat nxt].
  destruct Hsame as (Hg & Hf & Ho & Ht & Hu & Hc & Hok). simpl in *. subst g2 o2 t2 u2 c2.
  destruct Hok as (Ho & Hu & Hc & Htr). simpl in *.
  assert (prune now (prune now f1) = prune now f1) as Hpp by (apply prune_prune; lia).
  assert (setdefault req now (prune now f1) = setdefault req now (prune now f2)) as Hset
    by by rewrite Hf.
  unfold memory_transition, availability_script, permit_of_reply, granted. simpl.
  destruct a; simpl; try rewrite (Hgen ltac:(done));
    rewrite ?(bool_decide_true (permit_generation p = _)) by done; simpl.
  - destruct (Z.ltb_spec 0 (Z.max o1 u - now)), (Z.ltb_spec now o1), (Z.ltb_spec 0 o1),
      (Z.ltb_spec now u); try lia; simpl;
      rewrite ?category_decoded by done.
    all: try destruct (bool_decide_reflect (o1 ≠ 0)); try lia; simpl.
    all: (split; [f_equal; lia|]); (split; [done|]).
    all: apply same_state_mk; congruence || lia.
  - destruct (Hcheck eq_refl) as [Hr Hpc]. destruct p as [pk pg pt pr pc]. simpl in *. subst pr pc.
    case_bool_decide; simpl.
    + rewrite bool_decide_false by naive_solver. simpl. rewrite orb_false_r.
      destruct (Z.eqb_spec o1 0), (Z.ltb_spec 0 o1); try lia; simpl;
        (split; [congruence|]); (split; [done|]); apply same_state_mk; congruence || lia.
    + rewrite bool_decide_true by done. simpl.
      case_bool_decide; simpl; [destruct (Z.ltb_spec now u), (Z.leb_spec u now); try lia|]; simpl;
        (split; [congruence|]); (split; [done|]); apply same_state_mk; congruence || lia.
  - destruct (bool_decide _ && bool_decide _); simpl;
      (split; [done|]); (split; [done|]); apply same_state_mk; congruence || lia.
  - destruct (bool_decide _ && bool_decide _ && _); simpl;
      (split; [done|]); (split; [done|]); apply same_state_mk; congruence || lia.
  - destruct (bool_decide _ && _) eqn:Estale; simpl.
    + split; [by destruct p|]. split; [done|]. apply same_state_mk; congruence || lia.
    + replace (0 <? blk) with (bool_decide (blk ≠ 0))
        by (destruct (Z.ltb_spec 0 blk); [apply bool_decide_true|apply bool_decide_false]; lia).
      rewrite <- Hset. destruct (category_recorded cat c Hc) as [Hcat' ->].
      destruct (bool_decide _ || _ || _); simpl;
        (split; [done|]); (split; [done|]); apply same_state_mk; congruence || lia.
Qed.

(** *** Histories *)

Lemma op_ttl_gt o x :
  x ≤ Z.max (failure_window_seconds policy)
        (Z.max (cooldown_seconds policy) (Z.max (op_block_seconds o) (op_lease_seconds o))) →
  x < op_ttl o.
Proof.
  unfold op_ttl. intros H. revert H. generalize (Z.max (failure_window_seconds policy)
    (Z.max (cooldown_seconds policy) (Z.max (op_block_seconds o) (op_lease_seconds o)))).
  intros y H. assert (0 < tick) as Ht by done.
  pose proof (Z.div_mod y tick ltac:(lia)). pose proof (Z.mod_pos_bound y tick Ht). lia.
Qed.

Lemma op_ttl_pos o : admissible o → 0 < op_ttl o.
Proof.
  intros (Hb & _). pose proof (op_ttl_gt o (op_block_seconds o)). lia.
Qed.

Lemma same_store_insert now m r k s1 s2 e :
  same_store now m r → same_state now s1 s2 →
  same_store now (<[k := (s1, e)]> m) (<[k := (s2, e)]> r).
Proof.
  intros Hst Hs k'. rewrite !live_insert. case_decide; [|apply Hst].
  simpl. destruct (now <? e); by constructor.
Qed.

Lemma same_store_insert_l now m r k s1 s2 e :
  same_store now m r → live now r k = Some (s2, e) → same_state now s1 s2 →
  same_store now (<[k := (s1, e)]> m) r.
Proof.
  intros Hst Hr Hs k'. rewrite live_insert. case_decide as Hk; [|apply Hst]. subst k'.
  rewrite Hr. unfold live in Hr. destruct (r !! k) as [[s e']|]; [|done].
  destruct (now <? e') eqn:He; simplify_eq. simpl. rewrite He. by constructor.
Qed.

Definition fresh_state (gen : string) : _State := MkState gen ∅ 0 "" 0 None.

Lemma fresh_state_ok now gen : 0 ≤ now → same_state now (fresh_state gen) (fresh_state gen).
Proof. intros. apply same_state_mk; lia || done. Qed.

(** An admission without a state always writes one. *)
Lemma script_fresh now o :
  0 ≤ now → op_action o = Admit →
  availability_script now o None =
    availability_script now o (Some (fresh_state (permit_generation (op_permit o)))) ∧
  (availability_script now o (Some (fresh_state (permit_generation (op_permit o))))).1 ≠ None.
Proof.
  intros Hnow Ha. unfold availability_script. rewrite Ha. rewrite (bool_decide_true (Admit = Admit)) by done.
  simpl. rewrite (proj2 (Z.ltb_ge now 0)) by lia. rewrite ?(bool_decide_false (Admit ≠ Admit)) by tauto.
  done.
Qed.

(** One operation on related stores: same answer, related stores again. *)
Lemma operate_simulates now o m r :
  0 ≤ now → 0 < cooldown_seconds policy → admissible o → same_store now m r →
  (operate_memory now o m).2 = (operate_redis now o r).2 ∧
  same_store now (operate_memory now o m).1 (operate_redis now o r).1.
Proof.
  intros Hnow Hcool Hadm Hst. pose proof (op_ttl_pos o Hadm) as Httl.
  set (m1 := filter (λ x : string * (_State * Z), now < x.2.2) m).
  assert (same_store now m1 r) as Hst1.
  { intros k. subst m1. rewrite live_filter_live. apply Hst. }
  assert (match r !! permit_key (op_permit o) with
          | Some (st, expires) => if now <? expires then Some st else None
          | None => None end = fst <$> live now r (permit_key (op_permit o))) as Hraw.
  { unfold live. destruct (r !! _) as [[? e]|]; [|done]. by destruct (now <? e). }
  unfold operate_memory, operate_redis. rewrite filter_live, Hraw. fold m1.
  specialize (Hst (permit_key (op_permit o))) as Hk.
  destruct (live now m _) as [[s1 e]|] eqn:Hm, (live now r _) as [[s2 e2]|] eqn:Hr; inversion Hk
    as [? ? [Hs He]|]; subst; simpl in *; [subst e2|clear Hk].
  - destruct (bool_decide (op_action o ≠ Admit) && _) eqn:Hstale.
    + destruct Hs as (Hg & _). unfold availability_script. rewrite <- Hg, Hstale. simpl.
      split; [|done]. by destruct (bool_decide (op_action o = Check)).
    + pose proof (transition_simulates now o s1 s2 Hnow Hcool Hadm Hs) as Htr.
      destruct (memory_transition now o s1) as [[s1' refresh] q].
      destruct (availability_script now o (Some s2)) as [write rep].
      destruct Htr as [-> Hw].
      { intros Ha. destruct Hs as (Hg & _). rewrite bool_decide_true in Hstale by done.
        simpl in Hstale. bool_facts. congruence. }
      simpl. split; [done|]. destruct write; destruct Hw as [-> Hs'].
      * by apply same_store_insert.
      * by eapply same_store_insert_l.
  - destruct (decide (op_action o = Admit)) as [Ha|Ha].
    + destruct (script_fresh now o Hnow Ha) as [-> Hwrites].
      pose proof (transition_simulates now o _ _ Hnow Hcool Hadm
        (fresh_state_ok now (permit_generation (op_permit o)) Hnow) ltac:(done)) as Htr.
      rewrite bool_decide_true by done. fold (fresh_state (permit_generation (op_permit o))).
      destruct (memory_transition now o _) as [[s1' refresh] q].
      destruct (availability_script now o _) as [[s2'|] rep]; [|done].
      destruct Htr as (-> & -> & Hs'). simpl. split; [done|].
      rewrite insert_insert_eq. by apply same_store_insert.
    + rewrite (bool_decide_false (op_action o = Admit)) by done. unfold availability_script.
      rewrite ?(bool_decide_false (op_action o = Admit)) by done. simpl. split; [|done].
      by destruct (bool_decide (op_action o = Check)).
Qed.

(** A history of timed operations, and the answers one of the stores gives. *)
Fixpoint answers (operate : Z → operation → gmap string (_State * Z) →
                            gmap string (_State * Z) * AvailabilityPermit)
    (m : gmap string (_State * Z)) (tr : list (Z * operation)) : list AvailabilityPermit :=
  match tr with
  | [] => []
  | (now, o) :: tr => let '(m, q) := operate now o m in q :: answers operate m tr
  end.

(** The clock of a history starts at [now] and never goes back. *)
Fixpoint clocked (now : Z) (tr : list (Z * operation)) : Prop :=
  match tr with
  | [] => True
  | (now', _) :: tr => now ≤ now' ∧ clocked now' tr
  end.

Lemma answers_simulate now m r tr :
  0 < cooldown_seconds policy → 0 ≤ now → clocked now tr →
  Forall (λ x, admissible x.2) tr → same_store now m r →
  answers operate_memory m tr = answers operate_redis r tr.
Proof.
  intros Hcool. revert now m r. induction tr as [|[now' o] tr IH]; intros now m r Hnow Htr Hadm Hst;
    [done|]. simpl in *. destruct Htr as [Hle Htr]. inversion Hadm; subst.
  destruct (operate_simulates now' o m r) as [Hq Hst']; [lia|done|done| |].
  { by eapply same_store_later. }
  destruct (operate_memory now' o m) as [m' q], (operate_redis now' o r) as [r' q'].
  simpl in *. subst q'. f_equal. eapply IH; [|done..]. lia.
Qed.


(** *** Exclusion *)

(** The key is held back until [until]: its circuit is open, or its trial runs. *)
Definition held_until (now : Z) (m : gmap string (_State * Z)) (key gen : string) (until : Z)
    (category : option string) : Prop :=
  ∃ st expires, m !! key = Some (st, expires) ∧ generation st = gen ∧
    Z.max (open_until st) (trial_until st) = until ∧ failure_category st = category ∧
    until ≤ expires ∧ now < until.

(** Operations that nobody holding a current permit issues: admissions, checks and
    reports on another key or for a superseded generation. *)
Definition outsider (key gen : string) (o : operation) : Prop :=
  op_action o = Admit ∨ op_action o = Check ∨ permit_key (op_permit o) ≠ key ∨
  permit_generation (op_permit o) ≠ gen.

Definition refuses (key gen : string) (until : Z) (category : option string)
    (x : Z * operation) (q : AvailabilityPermit) : Prop :=
  op_action x.2 = Admit → permit_key (op_permit x.2) = key →
  q = MkPermit key gen "" (until - x.1) category.

Lemma outsider_refused now now' o m key gen until category :
  held_until now m key gen until category → now' < until → outsider key gen o →
  held_until now' (operate_memory now' o m).1 key gen until category ∧
  refuses key gen until category (now', o) (operate_memory now' o m).2.
Proof.
  intros (st & e & Hm & Hg & Hu & Hc & He & _) Hnow' Hout.
  assert (live now' m key = Some (st, e)) as Hlive.
  { unfold live. rewrite Hm. by rewrite (proj2 (Z.ltb_lt _ _)) by lia. }
  unfold operate_memory, refuses. rewrite filter_live.
  destruct (decide (permit_key (op_permit o) = key)) as [Hkey|Hkey].
  - subst key. rewrite Hlive. destruct (bool_decide _ && _) eqn:Hstale; simpl.
    + split; [|intros Ha; bool_facts; done]. exists st, e. by rewrite filter_live.
    + assert (op_action o = Admit ∨ op_action o = Check) as Hact.
      { destruct Hout as [?|[?|[?|Hne]]]; auto; [done|].
        apply andb_false_iff in Hstale as [?|?]; bool_facts; [left; by apply dec_stable|congruence]. }
      unfold memory_transition. destruct Hact as [Ha|Ha]; rewrite Ha; simpl.
      * rewrite (proj2 (Z.ltb_lt _ _)) by lia. simpl. rewrite Hu, Hg, Hc. split; [|done].
        eexists _, e. rewrite lookup_insert_eq. split; [done|]. simpl. by split_and!.
      * split; [|done]. eexists _, e. by rewrite lookup_insert_eq.
  - assert (∀ x, <[permit_key (op_permit o) := x]>
      (filter (λ x : string * (_State * Z), now' < x.2.2) m) !! key = Some (st, e)) as Hother.
    { intros x. by rewrite lookup_insert_ne, filter_live. }
    repeat first [case_match | simpl]; split; try done; exists st, e;
      rewrite ?lookup_insert_ne by done; rewrite ?filter_live; by split_and!.
Qed.

Lemma outsiders_refused now m key gen until category tr :
  held_until now m key gen until category → clocked now tr →
  Forall (λ x, x.1 < until ∧ outsider key gen x.2) tr →
  Forall2 (refuses key gen until category) tr (answers operate_memory m tr).
Proof.
  revert now m. induction tr as [|[now' o] tr IH]; intros now m Hheld Htr Hall; [constructor|].
  inversion Hall as [|? ? [Hlt Hout] Hall']; subst. destruct Htr as [Hle Htr]. simpl in *.
  destruct (outsider_refused now now' o m key gen until category) as [Hheld' Hq]; [done..|].
  destruct (operate_memory now' o m) as [m' q]. constructor; [done|]. by eapply IH.
Qed.

(** A failure report that opens the circuit (known block, failure threshold
    reached, or failed trial) shuts it for exactly [max(block, cooldown)] seconds:
    until then every admission, in every history of admissions, checks, and reports
    that do not carry the fresh generation, is refused with the exact remaining time
    and the recorded failure category. *)
Theorem opened_circuit_refuses now o m st expires tr :
  let p := op_permit o in
  let until := now + Z.max (op_block_seconds o) (cooldown_seconds policy) in
  live now m (permit_key p) = Some (st, expires) →
  op_action o = Failure → generation st = permit_generation p →
  permit_trial_token p = "" ∨ (trial_token st = permit_trial_token p ∧ now < trial_until st) →
  op_block_seconds o ≠ 0 ∨ permit_trial_token p ≠ "" ∨
    failure_threshold policy ≤ size (setdefault (op_request_id o) now (prune now (failures st))) →
  0 < cooldown_seconds policy → 0 ≤ open_until st ≤ now → clocked now tr →
  Forall (λ x, x.1 < until ∧ outsider (permit_key p) (op_next_generation o) x.2) tr →
  ∃ category,
    Forall2 (refuses (permit_key p) (op_next_generation o) until category) tr
      (answers operate_memory (operate_memory now o m).1 tr).
Proof.
  intros p until Hlive Ha Hg Htok Htrip Hcool Hopen Htr Hall.
  eexists. eapply outsiders_refused; [|done..].
  pose proof (op_ttl_gt o (Z.max (op_block_seconds o) (cooldown_seconds policy)) ltac:(lia)) as Httl.
  unfold operate_memory. rewrite filter_live. fold p. rewrite Hlive, Ha, Hg.
  rewrite (bool_decide_true (permit_generation p = _)) by done. rewrite andb_false_r.
  unfold memory_transition. rewrite Ha. simpl. fold p.
  rewrite ?(bool_decide_false (Failure = Check)) by done.
  replace (bool_decide (permit_trial_token p ≠ "") && _) with false.
  2:{ symmetry. destruct Htok as [->|[-> Hlt]]; [done|].
      rewrite (bool_decide_true (_ = _)), (proj2 (Z.leb_gt _ _)) by done. by rewrite andb_false_r. }
  replace (bool_decide (op_block_seconds o ≠ 0) || _ || _) with true.
  2:{ symmetry. rewrite !orb_true_iff, !bool_decide_eq_true, Z.leb_le. tauto. }
  eexists _, _. simpl. rewrite lookup_insert_eq. split; [done|]. simpl. split_and!; try done; lia.
Qed.

(** Half-open trials exclude each other: once an admission through an expired
    circuit is granted with its trial token, no further admission is granted before
    the trial's lease ends, in every history of admissions, checks, and reports of
    other keys and generations. *)
Theorem trial_is_exclusive now o m st expires tr :
  let p := op_permit o in
  live now m (permit_key p) = Some (st, expires) → op_action o = Admit →
  0 < open_until st ≤ now → trial_until st ≤ now → 0 < op_lease_seconds o → clocked now tr →
  Forall (λ x, x.1 < now + op_lease_seconds o ∧ outsider (permit_key p) (generation st) x.2) tr →
  (operate_memory now o m).2 = granted (permit_key p) (generation st) (permit_trial_token p) ∧
  Forall2 (refuses (permit_key p) (generation st) (now + op_lease_seconds o) (failure_category st)) tr
    (answers operate_memory (operate_memory now o m).1 tr).
Proof.
  intros p Hlive Ha Hopen Htrial Hlease Htr Hall.
  pose proof (op_ttl_gt o (op_lease_seconds o) ltac:(lia)) as Httl.
  assert (operate_memory now o m =
    (<[permit_key p := (MkState (generation st) (prune now (failures st)) (open_until st)
        (permit_trial_token p) (now + op_lease_seconds o) (failure_category st), now + op_ttl o)]>
      (filter (λ x : string * (_State * Z), now < x.2.2) m),
     granted (permit_key p) (generation st) (permit_trial_token p))) as ->.
  { unfold operate_memory. rewrite filter_live. fold p. rewrite Hlive, Ha.
    rewrite (bool_decide_false (Admit ≠ Admit)) by tauto. simpl.
    unfold memory_transition. rewrite Ha. simpl. fold p.
    rewrite ?(bool_decide_false (Admit = Check)) by done.
    rewrite (proj2 (Z.ltb_ge _ _)) by lia. by rewrite bool_decide_true by lia. }
  split; [done|]. eapply outsiders_refused; [|done..].
  eexists _, _. simpl. rewrite lookup_insert_eq. split; [done|]. simpl. split_and!; try done; lia.
Qed.

End Circuit.

(** ** The public methods *)

(** The operation each method issues; [uuid4] results are arguments. *)
Definition admit_operation (key next_gen token : string) (lease : Z) (fresh : string) : operation :=
  Operation Admit (granted key next_gen token) "" 0 lease None fresh.

Definition failed (p : AvailabilityPermit) (request : string) (retry_after : Z)
    (category : option string) (fresh : string) : operation :=
  Operation Failure p request retry_after tick category fresh.

Definition verify (p : AvailabilityPermit) (fresh : string) : operation :=
  Operation Check p "" 0 tick None fresh.

Definition succeeded (p : AvailabilityPermit) (fresh : string) : operation :=
  Operation Success p "" 0 tick None fresh.

(** No operation at all without a trial token. *)
Definition release (p : AvailabilityPermit) (fresh : string) : option operation :=
  if bool_decide (permit_trial_token p = "") then None
  else Some (Operation Release p "" 0 tick None fresh).

(** ** Known rate and quota limits: [limit] *)

(** The in-memory branch; [block] is [block_seconds]. *)
Definition limit_memory (now : Z) (key : string) (block : Z) (blocks : gmap string Z)
    : gmap string Z * Z :=
  let blocks := filter (λ x : string * Z, now < x.2) blocks in
  let blocks := if bool_decide (block = 0) then blocks
                else <[key := Z.max (default 0 (blocks !! key)) (now + block)]> blocks in
  (blocks, Z.max 0 (default 0 (blocks !! key) - now)).

(** The script: the key expires after the remaining time, in whole milliseconds
    rounded up. *)
Definition limit_redis (now : Z) (key : string) (block : Z) (r : gmap string (Z * Z))
    : gmap string (Z * Z) * Z :=
  let until_time := match r !! key with
                    | Some (u, expires) => if now <? expires then u else 0
                    | None => 0
                    end in
  if 0 <? block then
    let until_time := Z.max until_time (now + block) in
    (<[key := (until_time, now + Z.max 1 (- ((now - until_time) / 1000)) * 1000)]> r,
     Z.max 0 (until_time - now))
  else (r, Z.max 0 (until_time - now)).

(** Both stores report the same remaining time for every key, from now on. *)
Definition same_limits (now : Z) (blocks : gmap string Z) (r : gmap string (Z * Z)) : Prop :=
  ∀ k, match r !! k with
       | Some (u, expires) => u ≤ expires ∧ (default 0 (blocks !! k) = u ∨
           (u ≤ now ∧ default 0 (blocks !! k) ≤ now))
       | None => default 0 (blocks !! k) ≤ now
       end.

Lemma limit_pruned now (blocks : gmap string Z) k :
  0 ≤ now →
  default 0 (filter (λ x : string * Z, now < x.2) blocks !! k) =
  if now <? default 0 (blocks !! k) then default 0 (blocks !! k) else 0.
Proof.
  intros Hnow. destruct (blocks !! k) as [u|] eqn:Hk; simpl.
  - destruct (Z.ltb_spec now u).
    + by rewrite (proj2 (map_lookup_filter_Some _ _ _ _) (conj Hk H)).
    + rewrite (proj2 (map_lookup_filter_None _ _ _)); [done|].
      right. intros x Hx. rewrite Hk in Hx. injection Hx as <-. simpl. lia.
  - rewrite (proj2 (map_lookup_filter_None _ _ _)) by by left. simpl. by destruct (now <? 0).
Qed.

(** Milliseconds rounded up never expire a limit early. *)
Lemma limit_ttl_enough now u : u ≤ now + Z.max 1 (- ((now - u) / 1000)) * 1000.
Proof. pose proof (Z.div_mod (now - u) 1000). pose proof (Z.mod_pos_bound (now - u) 1000). lia. Qed.

(** Known rate and quota limits: the Redis script and the in-memory branch report
    the same remaining time for every call, and stay in agreement, although the
    script lets the key expire in whole milliseconds while memory prunes all keys. *)
Theorem limit_simulates now now' key block blocks r :
  0 ≤ now ≤ now' → 0 ≤ block → same_limits now blocks r →
  (limit_memory now' key block blocks).2 = (limit_redis now' key block r).2 ∧
  same_limits now' (limit_memory now' key block blocks).1 (limit_redis now' key block r).1.
Proof.
  intros Hnow Hblock Hsame.
  assert (same_limits now' (filter (λ x : string * Z, now' < x.2) blocks) r) as Hpruned.
  { intros k. rewrite limit_pruned by lia. specialize (Hsame k).
    destruct (r !! k) as [[u e]|]; destruct (Z.ltb_spec now' (default 0 (blocks !! k))); lia. }
  assert (Hold : Z.max 0 (default 0 (filter (λ x : string * Z, now' < x.2) blocks !! key) - now') =
    Z.max 0 (match r !! key with Some (u, expires) => if now' <? expires then u else 0
             | None => 0 end - now')).
  { specialize (Hpruned key). destruct (r !! key) as [[u e]|]; [destruct (Z.ltb_spec now' e)|]; lia. }
  unfold limit_memory, limit_redis.
  set (b := default 0 (filter _ _ !! key)) in *. set (u := match r !! key with Some _ => _ | None => _ end) in *.
  destruct (Z.ltb_spec 0 block).
  - rewrite bool_decide_false by lia. simpl. rewrite lookup_insert_eq. simpl. split; [lia|].
    intros k. destruct (decide (key = k)) as [<-|Hne].
    + rewrite !lookup_insert_eq. simpl. split; [apply limit_ttl_enough|]. left. lia.
    + rewrite !lookup_insert_ne by done. apply Hpruned.
  - rewrite bool_decide_true by lia. simpl. by split.
Qed.

(** ** Witnesses *)

Lemma limit_simulates_witness :
  let blocks := {["k" := 7000]} in let r := {["k" := (7000, 7500)]} in
  (limit_memory 5 "k" 9999 blocks).2 = (limit_redis 5 "k" 9999 r).2 ∧
  same_limits 5 (limit_memory 5 "k" 9999 blocks).1 (limit_redis 5 "k" 9999 r).1.
Proof.
  apply (limit_simulates 2 5); [lia|lia|]. intros k.
  destruct (decide (k = "k")) as [->|Hk].
  - simpl. split; [lia|by left].
  - rewrite lookup_singleton_ne by done. rewrite lookup_singleton_ne by done. simpl. lia.
Defined.

Definition example_policy : RecoveryPolicy := MkPolicy 2 (60 * tick) (30 * tick).

Definition example_operation (a : action) (gen token request : string) (block lease : Z) (next : string)
    : operation :=
  Operation a (MkPermit "k" gen token 0 None) request block lease (Some "timeout") next.

Definition example_history : list (Z * operation) :=
  [(1, example_operation Admit "g0" "t0" "" 0 tick "u0");
   (2, example_operation Failure "g0" "" "r1" 0 tick "u1");
   (3, example_operation Failure "g0" "" "r2" 0 tick "u2");
   (4, example_operation Admit "g1" "t1" "" 0 tick "u3");
   (31 * tick, example_operation Admit "g2" "t2" "" 0 (5 * tick) "u4");
   (32 * tick, example_operation Admit "g3" "t3" "" 0 (5 * tick) "u5");
   (33 * tick, example_operation Success "u2" "t2" "" 0 tick "u6");
   (34 * tick, example_operation Admit "g4" "t4" "" 0 tick "u7")].


Lemma opened_circuit_refuses_witness :
  ∃ category,
    Forall2 (refuses "k" "u2" (3 + 30 * tick) category)
      [(4, example_operation Admit "g1" "t1" "" 0 tick "u3");
       (20 * tick, example_operation Admit "g2" "t2" "" 0 tick "u4")]
      (answers (operate_memory example_policy)
         (operate_memory example_policy 3
            (example_operation Failure "g0" "" "r2" 0 tick "u2")
            {["k" := (MkState "g0" {["r1" := 2]} 0 "" 0 None, 120 * tick)]}).1
         [(4, example_operation Admit "g1" "t1" "" 0 tick "u3");
          (20 * tick, example_operation Admit "g2" "t2" "" 0 tick "u4")]).
Proof.
  apply (opened_circuit_refuses example_policy 3 (example_operation Failure "g0" "" "r2" 0 tick "u2")
           {["k" := (MkState "g0" {["r1" := 2]} 0 "" 0 None, 120 * tick)]}
           (MkState "g0" {["r1" := 2]} 0 "" 0 None) (120 * tick)); try done.
  - by left.
  - right. right. by vm_compute.
  - repeat constructor; simpl; try (by vm_compute); by left.
Defined.

Lemma trial_is_exclusive_witness :
  (operate_memory example_policy (31 * tick)
     (example_operation Admit "g2" "t2" "" 0 (5 * tick) "u4")
     {["k" := (MkState "u2" ∅ (30 * tick) "" 0 (Some "timeout"), 90 * tick)]}).2 =
    granted "k" "u2" "t2" ∧
  Forall2 (refuses "k" "u2" (36 * tick) (Some "timeout"))
    [(32 * tick, example_operation Admit "g3" "t3" "" 0 (5 * tick) "u5")]
    (answers (operate_memory example_policy)
       (operate_memory example_policy (31 * tick)
          (example_operation Admit "g2" "t2" "" 0 (5 * tick) "u4")
          {["k" := (MkState "u2" ∅ (30 * tick) "" 0 (Some "timeout"), 90 * tick)]}).1
       [(32 * tick, example_operation Admit "g3" "t3" "" 0 (5 * tick) "u5")]).
Proof.
  apply (trial_is_exclusive example_policy (31 * tick)
           (example_operation Admit "g2" "t2" "" 0 (5 * tick) "u4")
           {["k" := (MkState "u2" ∅ (30 * tick) "" 0 (Some "timeout"), 90 * tick)]}
           (MkState "u2" ∅ (30 * tick) "" 0 (Some "timeout")) (90 * tick)); try done.
  repeat constructor; simpl; try (by vm_compute); by left.
Defined.

(** Every report of a live generation rewrites the time to live from its own
    arguments alone, so the late release of an earlier trial of the same generation
    can shorten it below the lease of the running trial: the state is then forgotten
    and the circuit admits again while that trial is still held. *)
Example late_release_forgets_running_trial :
  answers (operate_memory example_policy)
    {["k" := (MkState "u2" ∅ (30 * tick) "" 0 (Some "timeout"), 90 * tick)]}
    [(31 * tick, example_operation Admit "g2" "t2" "" 0 (1 * tick) "u4");
     (33 * tick, example_operation Admit "g3" "t3" "" 0 (600 * tick) "u5");
     (34 * tick, example_operation Release "u2" "t2" "" 0 tick "u6");
     (200 * tick, example_operation Admit "g4" "t4" "" 0 tick "u7")] =
  [granted "k" "u2" "t2"; granted "k" "u2" "t3"; granted "k" "u2" "t2"; granted "k" "g4" ""].
Proof. by vm_compute. Qed.
