(* ===== verification/Ownership.v ===== *)
(** Ownership of executor connections: [cognis/core/executor_connection_ownership.py].

    A controller that accepts an executor's WebSocket takes over the lease of that
    executor's connection; every later effect through the socket runs in a
    transaction that first locks and validates the exact owner/epoch tuple.  The
    development is written against the interface [FencedStore] of the lease store.
    [ExecutorConnectionOwner] objects are mutable and shared, so they live in a
    list and are named by their index; application state and callbacks are
    abstract.  Times are in microseconds. *)

From S2P Require Import Prelude Lease.

Definition EXECUTOR_CONNECTION_LEASE_TTL : Z := 45000000.
Definition EXECUTOR_HEARTBEAT_FRESHNESS : Z := 30000000.

Definition executor_connection_resource_key (executor_id : string) : string :=
  "executor_connection:" +:+ executor_id.

#[global] Arguments executor_connection_resource_key : simpl never.
#[global] Arguments EXECUTOR_CONNECTION_LEASE_TTL : simpl never.

Record ExecutorConnectionOwner := MkOwner {
  owner_executor_id : string;
  owner_lease : Lease;
}.

(** [ExecutorConnectionOwner.epoch] *)
Definition epoch (o : ExecutorConnectionOwner) : Z := fencing_token (owner_lease o).

(** An executor row, by column. *)
Inductive cell := CText (s : string) | CInt (z : Z).

#[global] Instance cell_eq_dec : EqDecision cell.
Proof. solve_decision. Defined.

Notation executor_row := (gmap string cell).

(** What a callback does: return, or raise (a timeout included). *)
Definition callback (A R : Type) := A → A * result string R.

Section Ownership.
Context {DB : Type} `{FencedStoreLaws DB} {A R : Type}.

(** The database, the live owner objects and the state callbacks work on. *)
Record world := World {
  leases : DB;
  executors : gmap string executor_row;
  owners : list ExecutorConnectionOwner;
  app : A;
}.

(** ** The operations *)

(** [takeover]: the new owner object is the last of the list. *)
Definition takeover (w : world) (executor_id controller : string) (now : Z) : world :=
  let '(db, lease) := fs_takeover (leases w) (executor_connection_resource_key executor_id)
                        controller now EXECUTOR_CONNECTION_LEASE_TTL in
  World db (executors w) (owners w ++ [MkOwner executor_id lease]) (app w).

(** The validation of [takeover_validated]. *)
Definition takeover_allowed (w : world) (executor_id : string) (token_version : Z) : bool :=
  match executors w !! executor_id with
  | None => false
  | Some row =>
      bool_decide (row !! "executor_type" = Some (CText "websocket"))
      && bool_decide (row !! "status" = Some (CText "active"))
      && bool_decide (row !! "token_version" = Some (CInt token_version))
  end.

Definition takeover_validated (w : world) (executor_id controller : string) (token_version now : Z)
    : world * option ExecutorConnectionOwner :=
  if takeover_allowed w executor_id token_version then
    let w' := takeover w executor_id controller now in (w', last (owners w'))
  else (w, None).

(** [renew_from_heartbeat]; [now] is the controller's clock, [db_now] the database's. *)
Definition renew_from_heartbeat (w : world) (i : nat) (received_at now db_now : Z) : world * bool :=
  match owners w !! i with
  | None => (w, false)
  | Some o =>
      if EXECUTOR_HEARTBEAT_FRESHNESS <? now - received_at then (w, false)
      else
        let '(db, renewed) := fs_renew (leases w) (owner_lease o) db_now EXECUTOR_CONNECTION_LEASE_TTL in
        match renewed with
        | None => (World db (executors w) (owners w) (app w), false)
        | Some lease =>
            (World db (executors w) (<[i := MkOwner (owner_executor_id o) lease]> (owners w)) (app w),
             true)
        end
  end.

Definition release (w : world) (i : nat) (now : Z) : world * bool :=
  match owners w !! i with
  | None => (w, false)
  | Some o =>
      let '(db, ok) := fs_release (leases w) (owner_lease o) now in
      (World db (executors w) (owners w) (app w), ok)
  end.

Definition revoke (w : world) (executor_id : string) (now : Z) : world * bool :=
  let '(db, ok) := fs_revoke (leases w) (executor_connection_resource_key executor_id) now in
  (World db (executors w) (owners w) (app w), ok).

(** [lock_current] (and [is_current]) *)
Definition lock_current (w : world) (o : ExecutorConnectionOwner) (now : Z) : bool :=
  fs_current (leases w) (owner_lease o) now.

Definition with_app (w : world) (a : A) : world := World (leases w) (executors w) (owners w) a.

(** [run_callback_if_current]: [Ok true] after the callback, [Ok false] without
    running it; an exception of the callback propagates. *)
Definition run_callback_if_current (w : world) (i : nat) (cb : callback A R) (now : Z)
    : world * result string bool :=
  match owners w !! i with
  | None => (w, Ok false)
  | Some o =>
      if negb (lock_current w o now) then (w, Ok false)
      else let '(a, r) := cb (app w) in
           (with_app w a, let? _ := r in Ok true)
  end.

(** [run_durable_callback_if_current] *)
Definition run_durable_callback_if_current (w : world) (i : nat) (cb : callback A R) (now : Z)
    : world * result string (bool * option R) :=
  match owners w !! i with
  | None => (w, Ok (false, None))
  | Some o =>
      if negb (lock_current w o now) then (w, Ok (false, None))
      else let '(a, r) := cb (app w) in
           (with_app w a, let? v := r in Ok (true, Some v))
  end.

(** [apply_effect_if_current] *)
Definition apply_effect_if_current (w : world) (i : nat) (effect : A → A) (now : Z) : world * bool :=
  match owners w !! i with
  | None => (w, false)
  | Some o => if negb (lock_current w o now) then (w, false) else (with_app w (effect (app w)), true)
  end.

(** [update_runtime_state]: [None] values are dropped first. *)
Definition update_runtime_state (w : world) (i : nat) (values : gmap string (option cell)) (now : Z)
    : world * option executor_row :=
  match owners w !! i with
  | None => (w, None)
  | Some o =>
      let filtered_values : gmap string cell := omap id values in
      match executors w !! owner_executor_id o with
      | None => (w, None)
      | Some row =>
          if bool_decide (filtered_values = ∅) then (w, Some row)
          else if negb (lock_current w o now) then (w, None)
          else
            let row' : executor_row := filtered_values ∪ row in
            (World (leases w) (<[owner_executor_id o := row']> (executors w)) (owners w) (app w),
             Some row')
      end
  end.

(** ** Histories *)

Inductive operation :=
| OpTakeover (executor_id controller : string) (now : Z)
| OpTakeoverValidated (executor_id controller : string) (token_version now : Z)
| OpHeartbeat (i : nat) (received_at now db_now : Z)
| OpRelease (i : nat) (now : Z)
| OpRevoke (executor_id : string) (now : Z)
| OpCallback (i : nat) (cb : callback A R) (now : Z)
| OpDurable (i : nat) (cb : callback A R) (now : Z)
| OpEffect (i : nat) (effect : A → A) (now : Z)
| OpUpdate (i : nat) (values : gmap string (option cell)) (now : Z).

Definition exec (w : world) (op : operation) : world :=
  match op with
  | OpTakeover e c now => takeover w e c now
  | OpTakeoverValidated e c v now => (takeover_validated w e c v now).1
  | OpHeartbeat i r now db_now => (renew_from_heartbeat w i r now db_now).1
  | OpRelease i now => (release w i now).1
  | OpRevoke e now => (revoke w e now).1
  | OpCallback i cb now => (run_callback_if_current w i cb now).1
  | OpDurable i cb now => (run_durable_callback_if_current w i cb now).1
  | OpEffect i f now => (apply_effect_if_current w i f now).1
  | OpUpdate i vs now => (update_runtime_state w i vs now).1
  end.

(** The object an operation acts through, if any. *)
Definition actor (op : operation) : option nat :=
  match op with
  | OpTakeover _ _ _ | OpTakeoverValidated _ _ _ _ | OpRevoke _ _ => None
  | OpHeartbeat i _ _ _ | OpRelease i _ | OpCallback i _ _ | OpDurable i _ _ | OpEffect i _ _
  | OpUpdate i _ _ => Some i
  end.

(** ** Invariant *)

Definition connection_fence (w : world) (executor_id : string) : Z :=
  fs_fence (leases w) (executor_connection_resource_key executor_id).

(** Every owner object leases the connection of its executor at an epoch the fence
    has reached, and later objects of the same executor have later epochs. *)
Definition ownership_ok (w : world) : Prop :=
  (∀ i o, owners w !! i = Some o →
     resource_key (owner_lease o) = executor_connection_resource_key (owner_executor_id o) ∧
     epoch o ≤ connection_fence w (owner_executor_id o)) ∧
  (∀ i j o1 o2, (i < j)%nat → owners w !! i = Some o1 → owners w !! j = Some o2 →
     owner_executor_id o1 = owner_executor_id o2 → epoch o1 < epoch o2).

Lemma connection_key_inj e1 e2 :
  executor_connection_resource_key e1 = executor_connection_resource_key e2 → e1 = e2.
Proof. unfold executor_connection_resource_key. by intros ?%(inj _). Qed.

Lemma takeover_owners w e c now :
  owners (takeover w e c now) =
  owners w ++ [MkOwner e (MkLease (executor_connection_resource_key e) c (connection_fence w e + 1)
                            (now + EXECUTOR_CONNECTION_LEASE_TTL))].
Proof.
  unfold takeover. destruct (fs_takeover _ _ _ _ _) as [db lease] eqn:Ht. simpl.
  pose proof (fs_takeover_lease (leases w) (executor_connection_resource_key e) c now
    EXECUTOR_CONNECTION_LEASE_TTL) as Hl.
  rewrite Ht in Hl. simpl in Hl. by rewrite Hl.
Qed.

Lemma takeover_connection_fence w e c now e' :
  connection_fence (takeover w e c now) e' =
  connection_fence w e' + (if decide (e' = e) then 1 else 0).
Proof.
  unfold connection_fence, takeover. destruct (fs_takeover _ _ _ _ _) as [db lease] eqn:Ht. simpl.
  pose proof (fs_takeover_fence (leases w) (executor_connection_resource_key e) c now
    EXECUTOR_CONNECTION_LEASE_TTL (executor_connection_resource_key e')) as Hf.
  rewrite Ht in Hf. cbn [fst] in Hf. rewrite Hf.
  destruct (decide (e' = e)) as [->|Hne]; [by rewrite decide_True|].
  rewrite decide_False; [done|]. by intros ?%connection_key_inj.
Qed.

Lemma takeover_ok w e c now : ownership_ok w → ownership_ok (takeover w e c now).
Proof.
  intros [Hep Hord]. split.
  - intros i o. rewrite takeover_owners, takeover_connection_fence.
    intros [Ho|[_ Ho]]%lookup_app_Some.
    + specialize (Hep i o Ho). case_decide; naive_solver lia.
    + apply list_lookup_singleton_Some in Ho as [_ <-]. simpl. rewrite decide_True by done.
      unfold epoch; simpl. split; [done|lia].
  - intros i j o1 o2 Hij. rewrite !takeover_owners. intros H1 H2 He.
    apply lookup_app_Some in H2 as [H2|[Hj H2]].
    + apply lookup_app_Some in H1 as [H1|[Hi H1]]; [by eapply Hord|].
      apply lookup_lt_Some in H2. lia.
    + apply list_lookup_singleton_Some in H2 as [Hj2 <-]. rewrite lookup_app_l in H1 by lia.
      simpl in He. destruct (Hep i o1 H1) as [_ Hle]. unfold epoch at 2; simpl. rewrite He in Hle. lia.
Qed.

(** Every step but a takeover keeps the objects' executors, lease keys and epochs,
    and never lowers a fence. *)
Definition same_epochs (w w' : world) : Prop :=
  (∀ i, (λ o, (owner_executor_id o, resource_key (owner_lease o), epoch o)) <$> owners w' !! i =
        (λ o, (owner_executor_id o, resource_key (owner_lease o), epoch o)) <$> owners w !! i) ∧
  (∀ e, connection_fence w e ≤ connection_fence w' e).

Lemma same_epochs_refl w w' : leases w' = leases w → owners w' = owners w → same_epochs w w'.
Proof. unfold same_epochs, connection_fence. intros -> ->. by split. Qed.

Lemma same_epochs_ok w w' : same_epochs w w' → ownership_ok w → ownership_ok w'.
Proof.
  intros [Hsame Hf] [Hep Hord].
  assert (∀ i o', owners w' !! i = Some o' → ∃ o, owners w !! i = Some o ∧
    owner_executor_id o = owner_executor_id o' ∧
    resource_key (owner_lease o) = resource_key (owner_lease o') ∧ epoch o = epoch o') as Hback.
  { intros i o' Ho'. specialize (Hsame i). rewrite Ho' in Hsame. simpl in Hsame.
    destruct (owners w !! i) as [o|]; [|done]. simpl in Hsame. injection Hsame as ???. eauto. }
  split.
  - intros i o' Ho'. destruct (Hback i o' Ho') as (o & Ho & He & Hk & Hepo).
    destruct (Hep i o Ho) as [H1 H2]. rewrite <- He, <- Hk, <- Hepo. split; [done|].
    specialize (Hf (owner_executor_id o)). lia.
  - intros i j o1 o2 Hij H1 H2 He.
    destruct (Hback i o1 H1) as (p1 & Hp1 & He1 & _ & <-), (Hback j o2 H2) as (p2 & Hp2 & He2 & _ & <-).
    eapply Hord; eauto; congruence.
Qed.

Lemma heartbeat_same_epochs w i r now db_now :
  same_epochs w (renew_from_heartbeat w i r now db_now).1.
Proof.
  unfold renew_from_heartbeat. destruct (owners w !! i) as [o|] eqn:Ho; [|by apply same_epochs_refl].
  case_match; [by apply same_epochs_refl|].
  destruct (fs_renew _ _ _ _) as [db renewed] eqn:Hr.
  assert (∀ e, fs_fence db (executor_connection_resource_key e) = connection_fence w e) as Hf.
  { intros e. pose proof (fs_renew_fence (leases w) (owner_lease o) db_now
      EXECUTOR_CONNECTION_LEASE_TTL (executor_connection_resource_key e)) as Hr'.
    by rewrite Hr in Hr'. }
  destruct renewed as [lease|]; simpl; (split; [|intros e; unfold connection_fence at 2; simpl; rewrite Hf; lia]);
    [|done].
  pose proof (fs_renewed (leases w) (owner_lease o) lease db_now EXECUTOR_CONNECTION_LEASE_TTL) as Hl.
  rewrite Hr in Hl. destruct (Hl eq_refl) as [-> _]. intros j. simpl.
  destruct (decide (i = j)) as [<-|Hne].
  - rewrite list_lookup_insert_eq by by eapply lookup_lt_Some. by rewrite Ho.
  - by rewrite list_lookup_insert_ne.
Qed.

Lemma exec_same_epochs w op :
  match op with OpTakeover _ _ _ | OpTakeoverValidated _ _ _ _ => True | _ => same_epochs w (exec w op) end.
Proof.
  destruct op as [| |i r now db_now|i now|e now|i cb now|i cb now|i f now|i vs now]; try done; simpl.
  - apply heartbeat_same_epochs.
  - unfold release. destruct (owners w !! i) as [o|]; [|by apply same_epochs_refl].
    destruct (fs_release _ _ _) as [db ok] eqn:Hr. split; [done|]. intros e.
    pose proof (fs_release_fence (leases w) (owner_lease o) now (executor_connection_resource_key e)) as Hf.
    rewrite Hr in Hf. unfold connection_fence. simpl in *. lia.
  - unfold revoke. destruct (fs_revoke _ _ _) as [db ok] eqn:Hr. split; [done|]. intros e'.
    pose proof (fs_revoke_fence (leases w) (executor_connection_resource_key e) now
      (executor_connection_resource_key e')) as Hf.
    rewrite Hr in Hf. unfold connection_fence. simpl in *. lia.
  - unfold run_callback_if_current. repeat case_match; by apply same_epochs_refl.
  - unfold run_durable_callback_if_current. repeat case_match; by apply same_epochs_refl.
  - unfold apply_effect_if_current. repeat case_match; by apply same_epochs_refl.
  - unfold update_runtime_state. repeat case_match; by apply same_epochs_refl.
Qed.

Lemma exec_ok w op : ownership_ok w → ownership_ok (exec w op).
Proof.
  intros Hok. pose proof (exec_same_epochs w op) as Hs.
  destruct op; try (by eapply same_epochs_ok).
  - by apply takeover_ok.
  - simpl. unfold takeover_validated. case_match; [by apply takeover_ok|done].
Qed.

(** An object whose epoch the fence has passed stays so. *)
Definition superseded (i : nat) (w : world) : Prop :=
  ∃ o, owners w !! i = Some o ∧
    resource_key (owner_lease o) = executor_connection_resource_key (owner_executor_id o) ∧
    epoch o < connection_fence w (owner_executor_id o).

Lemma superseded_same_epochs i w w' : same_epochs w w' → superseded i w → superseded i w'.
Proof.
  intros [Hsame Hf] (o & Ho & Hk & Hlt). specialize (Hsame i). rewrite Ho in Hsame.
  destruct (owners w' !! i) as [o'|] eqn:Ho'; [|done]. injection Hsame as He Hk' Hep.
  exists o'. split; [done|]. specialize (Hf (owner_executor_id o)).
  rewrite He, Hk', Hep. split; [done|]. lia.
Qed.

Lemma superseded_takeover i w e c now : superseded i w → superseded i (takeover w e c now).
Proof.
  intros (o & Ho & Hk & Hlt). exists o. rewrite takeover_owners, takeover_connection_fence.
  rewrite lookup_app_l by by eapply lookup_lt_Some. split; [done|]. split; [done|].
  case_decide; lia.
Qed.

Lemma superseded_exec i w op : superseded i w → superseded i (exec w op).
Proof.
  intros Hsup. pose proof (exec_same_epochs w op) as Hs.
  destruct op; try (by eapply superseded_same_epochs).
  - by apply superseded_takeover.
  - simpl. unfold takeover_validated. case_match; [by apply superseded_takeover|done].
Qed.

Lemma superseded_not_current i w o now :
  superseded i w → owners w !! i = Some o → lock_current w o now = false.
Proof.
  intros (o' & Ho' & Hk & Hlt) Ho. simplify_eq. unfold lock_current.
  apply not_true_is_false. intros Hc%fs_current_fence. rewrite Hk in Hc.
  unfold connection_fence, epoch in Hlt. lia.
Qed.

(** ** Properties *)

(** C26. One owner per executor: along every history from a database without owner
    objects, two different objects of one executor are never current together,
    whichever controllers took over, renewed, released or revoked in between. *)
Theorem at_most_one_current_owner w tr i j o1 o2 now1 now2 :
  owners w = [] → owners (run exec w tr) !! i = Some o1 → owners (run exec w tr) !! j = Some o2 →
  owner_executor_id o1 = owner_executor_id o2 →
  lock_current (run exec w tr) o1 now1 = true → lock_current (run exec w tr) o2 now2 = true →
  i = j.
Proof.
  intros Hnil Hi Hj He H1 H2.
  destruct (run_invariant exec ownership_ok w tr) as [Hep Hord].
  { split; intros *; rewrite Hnil; naive_solver. }
  { intros. by apply exec_ok. }
  apply fs_current_fence in H1, H2.
  destruct (Hep i o1 Hi) as [Hk1 _], (Hep j o2 Hj) as [Hk2 _].
  rewrite Hk1 in H1. rewrite Hk2, <- He in H2.
  destruct (Nat.lt_trichotomy i j) as [Hij|[?|Hij]]; [|done|].
  - specialize (Hord i j o1 o2 Hij Hi Hj He). unfold epoch in Hord. lia.
  - specialize (Hord j i o2 o1 Hij Hj Hi (eq_sym He)). unfold epoch in Hord. lia.
Qed.

(** A superseded connection is powerless: once the fence of an executor has
    passed an owner object's epoch, then after every further history each operation
    through that object is refused and neither runs its callback or effect, nor
    renews its lease, nor changes an executor row. *)
Theorem superseded_owner_is_powerless w tr i op :
  superseded i w → actor op = Some i →
  let w' := run exec w tr in
  app (exec w' op) = app w' ∧ executors (exec w' op) = executors w' ∧
  owners (exec w' op) = owners w' ∧
  match op with
  | OpHeartbeat _ r now db_now => (renew_from_heartbeat w' i r now db_now).2 = false
  | OpCallback _ cb now => (run_callback_if_current w' i cb now).2 = Ok false
  | OpDurable _ cb now => (run_durable_callback_if_current w' i cb now).2 = Ok (false, None)
  | OpEffect _ f now => (apply_effect_if_current w' i f now).2 = false
  | OpUpdate _ vs now => omap id vs ≠ (∅ : gmap string cell) → (update_runtime_state w' i vs now).2 = None
  | _ => True
  end.
Proof.
  intros Hs Ha w'.
  assert (superseded i w') as Hs'.
  { apply (run_invariant exec (superseded i)); [done|]. intros. by apply superseded_exec. }
  destruct Hs' as (o & Ho & Hk & Hlt).
  assert (∀ now, lock_current w' o now = false) as Hdead.
  { intros now. eapply superseded_not_current; [|done]. by exists o. }
  destruct op; simplify_eq/=.
  - unfold renew_from_heartbeat. rewrite Ho. case_match; [done|].
    destruct (fs_renew _ _ _ _) as [db renewed] eqn:Hr.
    destruct renewed as [lease|]; [exfalso|done].
    specialize (Hdead db_now). unfold lock_current in Hdead.
    rewrite (proj1 (fs_renew_some (leases w') (owner_lease o) db_now EXECUTOR_CONNECTION_LEASE_TTL))
      in Hdead; [done|]. rewrite Hr. eauto.
  - unfold release. rewrite Ho. by destruct (fs_release _ _ _).
  - unfold run_callback_if_current. by rewrite Ho, Hdead.
  - unfold run_durable_callback_if_current. by rewrite Ho, Hdead.
  - unfold apply_effect_if_current. by rewrite Ho, Hdead.
  - unfold update_runtime_state. rewrite Ho, Hdead. simpl. repeat case_match; try done.
    all: split_and!; try done; intros; by bool_facts.
Qed.

(** [update_runtime_state] through a current owner writes exactly the given
    non-[None] columns of its own executor's row and nothing else. *)
Theorem update_runtime_state_exact w i o row values now :
  owners w !! i = Some o → executors w !! owner_executor_id o = Some row →
  lock_current w o now = true →
  ∃ row', (update_runtime_state w i values now).2 = Some row' ∧
    executors (update_runtime_state w i values now).1 = <[owner_executor_id o := row']> (executors w) ∧
    leases (update_runtime_state w i values now).1 = leases w ∧
    app (update_runtime_state w i values now).1 = app w ∧
    ∀ column, row' !! column = match values !! column with
                               | Some (Some v) => Some v
                               | _ => row !! column
                               end.
Proof.
  intros Ho Hrow Hcur. unfold update_runtime_state. rewrite Ho, Hrow, Hcur. simpl.
  case_bool_decide as Hempty; simpl.
  - exists row. split_and!; try done; [by rewrite insert_id|]. intros c.
    assert ((omap id values : gmap string cell) !! c = None) as Hc by by rewrite Hempty.
    rewrite lookup_omap in Hc. by destruct (values !! c) as [[v|]|].
  - eexists. split_and!; try done. intros c. rewrite lookup_union, lookup_omap.
    destruct (values !! c) as [[v|]|]; simpl; [by rewrite union_Some_l| |]; by rewrite (left_id_L None _).
Qed.
End Ownership.

(** ** The database store, and witnesses *)

Definition example_world : world (DB := gmap string lease_row) (A := nat) :=
  World (DB := gmap string lease_row) ∅
    {["e" := {["executor_type" := CText "websocket"; "status" := CText "active";
               "token_version" := CInt 3; "version" := CText "0.9"]}]} [] 0%nat.

Definition example_trace : list (operation (A := nat) (R := string)) :=
  [OpTakeoverValidated "e" "controller-a" 3 0; OpHeartbeat 0 900000 1000000 1000000;
   OpTakeover "e" "controller-b" 2000000].

Lemma at_most_one_current_owner_witness :
  let w' := run exec example_world example_trace in
  ∃ o, owners w' !! 1%nat = Some o ∧ lock_current w' o 3000000 = true ∧ 1%nat = 1%nat.
Proof.
  intros w'. eexists. split; [vm_compute; reflexivity|]. split; [vm_compute; reflexivity|].
  apply (at_most_one_current_owner example_world example_trace 1 1
           (MkOwner "e" (MkLease "executor_connection:e" "controller-b" 2 47000000))
           (MkOwner "e" (MkLease "executor_connection:e" "controller-b" 2 47000000)) 3000000 3000000);
    vm_compute; reflexivity.
Defined.

Lemma superseded_owner_is_powerless_witness :
  let w := run exec example_world example_trace in
  superseded 0 w ∧ app (exec w (OpEffect (R:=string) 0 S 2500000)) = 0%nat ∧
  app (exec w (OpEffect (R:=string) 1 S 2500000)) = 1%nat.
Proof.
  intros w. assert (superseded 0 w) as Hs.
  { eexists. split; [vm_compute; reflexivity|]. split; vm_compute; reflexivity. }
  split; [done|]. split; [|vm_compute; reflexivity].
  exact (proj1 (superseded_owner_is_powerless w [] 0 (OpEffect (R:=string) 0 S 2500000) Hs eq_refl)).
Defined.

Lemma update_runtime_state_exact_witness :
  let w := run exec example_world example_trace in
  ∃ row', (update_runtime_state w 1 {["version" := Some (CText "1.0"); "status" := None]} 2500000).2
            = Some row' ∧ row' !! "version" = Some (CText "1.0") ∧ row' !! "status" = Some (CText "active").
Proof.
  intros w.
  destruct (update_runtime_state_exact w 1
    (MkOwner "e" (MkLease "executor_connection:e" "controller-b" 2 47000000))
    {["executor_type" := CText "websocket"; "status" := CText "active";
      "token_version" := CInt 3; "version" := CText "0.9"]}
    {["version" := Some (CText "1.0"); "status" := None]} 2500000)
    as (row' & Hr & _ & _ & _ & Hc); [vm_compute; reflexivity..|].
  exists row'. split; [exact Hr|]. split; rewrite Hc; vm_compute; reflexivity.
Defined.
