(* ===== verification/UnaryDedup.v ===== *)
(** Deduplication of replay-safe unary calls:
    [packages/common/src/cognis/executor/unary_dedup.py].

    [UnaryDedupCache] keeps finished results and in-flight futures by call id, both
    in insertion order.  Futures are shared with every joined caller, so they live
    in a store and are named by their index; a joined caller may also cancel its
    future from outside.  The methods never await: each runs at one reading [now]
    of the monotonic clock (microseconds).  Result dictionaries are of the abstract
    type [V]. *)

From S2P Require Import Prelude.

Definition REPLAY_SAFE_UNARY_METHODS : list string :=
  ["tool.list"; "tool.result_fetch"; "lsp.status"; "shell.background_status";
   "local_model.status"; "local_model.show"; "llm.discover_models";
   "executor.mcp.reload_credentials"].

Definition is_replay_safe_unary_method (method : string) : bool :=
  bool_decide (method ∈ REPLAY_SAFE_UNARY_METHODS).

(** Terminal frames: a result, or a JSON-RPC error the cache itself made. *)
Inductive frame (V : Type) :=
| FResult (v : V)
| FError (code : Z) (message : string).
Arguments FResult {V} v.
Arguments FError {V} code message.

Inductive future (V : Type) :=
| Pending
| Resolved (r : frame V)
| Cancelled.
Arguments Pending {V}.
Arguments Resolved {V} r.
Arguments Cancelled {V}.

Inductive error := UnaryCallConflict | OutOfFuel.

Section Cache.
Context {V : Type} (max_entries : nat) (ttl_seconds : Z).

Record cache := Cache {
  _entries : list (string * (string * Z * frame V));
  _inflight : list (string * (string * nat));
  futures : list (future V);
}.

Definition empty_cache : cache := Cache [] [] [].

(** ** The methods *)

Definition unexpired (now : Z) (x : string * (string * Z * frame V)) : Prop := now < x.2.1.2.

#[global] Instance unexpired_dec now x : Decision (unexpired now x).
Proof. unfold unexpired. apply _. Defined.

Definition _purge (now : Z) (c : cache) : cache :=
  Cache (filter (unexpired now) (_entries c)) (_inflight c) (futures c).

Definition get (now : Z) (c : cache) (call_id payload_digest : string)
    : cache * result error (option (frame V)) :=
  let c := _purge now c in
  match od_get call_id (_entries c) with
  | None => (c, Ok None)
  | Some (digest, _, r) =>
      if bool_decide (digest ≠ payload_digest) then (c, Err UnaryCallConflict)
      else (Cache (od_move_end call_id (_entries c)) (_inflight c) (futures c), Ok (Some r))
  end.

(** [future.done()] guards both ways of finishing a future. *)
Definition settle (f : nat) (x : future V) (fs : list (future V)) : list (future V) :=
  match fs !! f with
  | Some Pending => <[f := x]> fs
  | _ => fs
  end.

(** [while len(entries) > max_entries: entries.popitem(last=False)] *)
Fixpoint trim (d : list (string * (string * Z * frame V))) : list (string * (string * Z * frame V)) :=
  match d with
  | [] => []
  | _ :: d' => if (max_entries <? length d)%nat then trim d' else d
  end.

Definition put (now : Z) (c : cache) (call_id payload_digest : string) (r : frame V)
    : cache * result error unit :=
  let c := _purge now c in
  match od_get call_id (_entries c) with
  | Some (digest, _, _) =>
      if bool_decide (digest ≠ payload_digest) then (c, Err UnaryCallConflict) else (c, Ok tt)
  | None =>
      let entries := od_set call_id (payload_digest, now + ttl_seconds, r) (_entries c) in
      let entries := trim (od_move_end call_id entries) in
      let futures' := match od_get call_id (_inflight c) with
                      | Some (_, f) => settle f (Resolved r) (futures c)
                      | None => futures c
                      end in
      (Cache entries (od_del call_id (_inflight c)) futures', Ok tt)
  end.

Definition complete_error (now : Z) (c : cache) (call_id payload_digest : string)
    (code : Z) (message : string) : cache * result error (frame V) :=
  let '(c, existing) := get now c call_id payload_digest in
  match existing with
  | Err e => (c, Err e)
  | Ok (Some r) => (c, Ok r)
  | Ok None =>
      let r := FError code message in
      let '(c, done) := put now c call_id payload_digest r in
      (c, let? _ := done in Ok r)
  end.

Definition evict (now : Z) (c : cache) (call_id payload_digest : string)
    : cache * result error (frame V) :=
  complete_error now c call_id payload_digest (-32099)
    "Replay-safe unary call was evicted before completion".

(** [while len(inflight) > max_entries: evict the oldest] *)
Fixpoint evict_loop (fuel : nat) (now : Z) (c : cache) : cache * result error unit :=
  if (max_entries <? length (_inflight c))%nat then
    match fuel, _inflight c with
    | S fuel, (evicted_id, (evicted_digest, _)) :: _ =>
        let '(c, r) := evict now c evicted_id evicted_digest in
        match r with
        | Ok _ => evict_loop fuel now c
        | Err e => (c, Err e)
        end
    | _, _ => (c, Err OutOfFuel)
    end
  else (c, Ok tt).

(** The future and whether the caller owns the execution. *)
Definition join_or_claim (now : Z) (c : cache) (call_id payload_digest : string)
    : cache * result error (nat * bool) :=
  let '(c, cached) := get now c call_id payload_digest in
  match cached with
  | Err e => (c, Err e)
  | Ok (Some r) =>
      (Cache (_entries c) (_inflight c) (futures c ++ [Resolved r]), Ok (length (futures c), false))
  | Ok None =>
      match od_get call_id (_inflight c) with
      | Some (digest, f) =>
          if bool_decide (digest ≠ payload_digest) then (c, Err UnaryCallConflict)
          else (c, Ok (f, false))
      | None =>
          let f := length (futures c) in
          let c := Cache (_entries c) (od_set call_id (payload_digest, f) (_inflight c))
                     (futures c ++ [Pending]) in
          let '(c, r) := evict_loop (length (_inflight c)) now c in
          (c, let? _ := r in Ok (f, true))
      end
  end.

(** [cancel] and [fail] finish the future of the popped entry. *)
Definition finish (c : cache) (call_id : string) (x : future V) : cache :=
  match od_get call_id (_inflight c) with
  | None => c
  | Some (_, f) => Cache (_entries c) (od_del call_id (_inflight c)) (settle f x (futures c))
  end.

Definition cancel (c : cache) (call_id : string) : cache := finish c call_id Cancelled.

Definition fail (c : cache) (call_id : string) (message : string) : cache :=
  finish c call_id (Resolved (FError (-32098) message)).

Definition cancel_inflight (c : cache) : cache :=
  foldl (λ c id, cancel c id) c (_inflight c).*1.

(** A joined caller cancels its future. *)
Definition cancel_future (c : cache) (f : nat) : cache :=
  Cache (_entries c) (_inflight c) (settle f Cancelled (futures c)).

(** ** Histories *)

Inductive operation :=
| OpGet (now : Z) (call_id digest : string)
| OpJoin (now : Z) (call_id digest : string)
| OpPut (now : Z) (call_id digest : string) (r : frame V)
| OpError (now : Z) (call_id digest : string) (code : Z) (message : string)
| OpCancel (call_id : string)
| OpFail (call_id message : string)
| OpCancelInflight
| OpCancelFuture (f : nat).

Definition exec (c : cache) (op : operation) : cache :=
  match op with
  | OpGet now i d => (get now c i d).1
  | OpJoin now i d => (join_or_claim now c i d).1
  | OpPut now i d r => (put now c i d r).1
  | OpError now i d code m => (complete_error now c i d code m).1
  | OpCancel i => cancel c i
  | OpFail i m => fail c i m
  | OpCancelInflight => cancel_inflight c
  | OpCancelFuture f => cancel_future c f
  end.

(** ** The invariant, with at most [n] calls in flight *)

Record cache_ok (n : nat) (c : cache) : Prop := {
  ok_entries : NoDup (_entries c).*1;
  ok_inflight : NoDup (_inflight c).*1;
  ok_disjoint id x : od_get id (_inflight c) = Some x → od_get id (_entries c) = None;
  ok_entries_bound : (length (_entries c) ≤ max_entries)%nat;
  ok_inflight_bound : (length (_inflight c) ≤ n)%nat;
  ok_exists id d f : od_get id (_inflight c) = Some (d, f) → is_Some (futures c !! f);
  ok_distinct id1 id2 d1 d2 f :
    od_get id1 (_inflight c) = Some (d1, f) → od_get id2 (_inflight c) = Some (d2, f) → id1 = id2;
  ok_waited f : futures c !! f = Some Pending → ∃ id d, od_get id (_inflight c) = Some (d, f);
}.

Lemma settle_lookup f x fs g :
  settle f x fs !! g = if decide (f = g) then match fs !! g with Some Pending => Some x | y => y end
                       else fs !! g.
Proof.
  unfold settle. destruct (decide (f = g)) as [->|Hne].
  - destruct (fs !! g) as [[]|] eqn:Hg; try done. by rewrite list_lookup_insert_eq by by eapply lookup_lt_Some.
  - destruct (fs !! f) as [[]|]; try done. by rewrite list_lookup_insert_ne.
Qed.

Lemma trim_drop d : trim d = drop (length d - max_entries) d.
Proof.
  induction d as [|x d IH]; simpl; [done|]. destruct (Nat.ltb_spec max_entries (S (length d))).
  - rewrite IH. replace (S (length d) - max_entries)%nat with (S (length d - max_entries)) by lia. done.
  - by replace (S (length d) - max_entries)%nat with 0%nat by lia.
Qed.

Lemma od_get_drop_none {W} n id (d : list (string * W)) :
  od_get id d = None → od_get id (drop n d) = None.
Proof.
  rewrite !od_get_none. intros Hn Hin. apply Hn. rewrite fmap_drop in Hin.
  rewrite <- (take_drop n). apply elem_of_app. by right.
Qed.

Lemma purge_ok n now c : cache_ok n c → cache_ok n (_purge now c).
Proof.
  intros []. split; simpl; try done.
  - by apply od_filter_nodup.
  - intros id x Hid. rewrite od_get_filter by done. by rewrite (ok_disjoint0 id x).
  - etrans; [apply length_filter|done].
Qed.

Lemma get_ok n now c id d : cache_ok n c → cache_ok n (get now c id d).1.
Proof.
  intros Hok%(purge_ok _ now). unfold get.
  destruct (od_get id _) as [[[dg t] r]|]; [|done]. case_bool_decide; [done|].
  destruct Hok. split; simpl in *; try done.
  - by apply od_move_end_nodup.
  - intros id' x Hid. rewrite od_get_move_end. by eapply ok_disjoint0.
  - by rewrite od_move_end_length.
Qed.

Lemma finish_ok n c id x : x ≠ Pending → cache_ok n c → cache_ok n (finish c id x).
Proof.
  intros Hx Hok. unfold finish. destruct (od_get id (_inflight c)) as [[d f]|] eqn:Hid; [|done].
  destruct Hok. split; simpl; try done.
  - by apply od_del_nodup.
  - intros id' y. rewrite od_get_del. case_decide; [done|]. apply ok_disjoint0.
  - etrans; [apply od_del_length|done].
  - intros id' d' f'. rewrite od_get_del. case_decide; [done|]. intros Hf. rewrite settle_lookup.
    destruct (ok_exists0 _ _ _ Hf) as [y Hy]. case_decide; [|done]. rewrite Hy. by destruct y.
  - intros id1 id2 d1 d2 f'. rewrite !od_get_del. repeat case_decide; try done. apply ok_distinct0.
  - intros g. rewrite settle_lookup. case_decide as Hfg.
    + destruct (futures c !! g) as [[]|]; congruence.
    + intros (id' & d' & Hg)%ok_waited0. exists id', d'. rewrite od_get_del. case_decide; [|done].
      congruence.
Qed.

Lemma cancel_future_ok n c f : cache_ok n c → cache_ok n (cancel_future c f).
Proof.
  intros []. split; simpl; try done.
  - intros id d g Hg. rewrite settle_lookup. destruct (ok_exists0 _ _ _ Hg) as [y Hy].
    case_decide; [|done]. rewrite Hy. by destruct y.
  - intros g. rewrite settle_lookup. case_decide; [|apply ok_waited0].
    destruct (futures c !! g) as [[]|]; congruence.
Qed.

Lemma cancel_inflight_ok n c : cache_ok n c → cache_ok n (cancel_inflight c).
Proof.
  unfold cancel_inflight. generalize (_inflight c).*1. intros ids. revert c.
  induction ids as [|id ids IH]; intros c Hok; simpl; [done|]. apply IH. by apply finish_ok.
Qed.

Lemma put_ok n now c id d r :
  cache_ok n c → cache_ok n (put now c id d r).1.
Proof.
  intros Hok%(purge_ok _ now). unfold put. set (c' := _purge now c) in *.
  destruct (od_get id (_entries c')) as [[[dg t] r']|] eqn:Hid; [by case_bool_decide|].
  pose proof (finish_ok n c' id (Resolved r) ltac:(done) Hok) as Hfin. unfold finish in Hfin.
  set (e' := od_move_end id (od_set id (d, now + ttl_seconds, r) (_entries c'))).
  assert (∀ id', id' ≠ id → od_get id' e' = od_get id' (_entries c')) as He'.
  { intros id' Hne. subst e'. rewrite od_get_move_end, od_get_set. by rewrite decide_False. }
  assert (NoDup e'.*1) as Hnd.
  { apply od_move_end_nodup, od_set_nodup. by destruct Hok. }
  assert (cache_ok n (Cache (_entries c') (od_del id (_inflight c'))
    (match od_get id (_inflight c') with
     | Some (_, f) => settle f (Resolved r) (futures c') | None => futures c' end))) as Hmid.
  { destruct (od_get id (_inflight c')) as [[d' f]|] eqn:Hf; [done|].
    replace (od_del id (_inflight c')) with (_inflight c'); [by destruct c'|].
    symmetry. by apply od_del_absent. }
  destruct Hmid. simpl in *. split; simpl; try done.
  - rewrite trim_drop, fmap_drop. eapply sublist_NoDup; [exact Hnd|apply sublist_drop].
  - intros id' x Hx. rewrite trim_drop. apply od_get_drop_none.
    rewrite He'; [by eapply ok_disjoint0|]. intros ->. revert Hx. rewrite od_get_del.
    by rewrite decide_True.
  - rewrite trim_drop, length_drop. lia.
Qed.

Lemma complete_error_ok n now c id d code m :
  cache_ok n c → cache_ok n (complete_error now c id d code m).1.
Proof.
  intros Hok. unfold complete_error.
  pose proof (get_ok n now c id d Hok) as Hget. destruct (get now c id d) as [c' [[r|]|e]]; simpl in *;
    try done.
  pose proof (put_ok n now c' id d (FError code m) Hget) as Hput.
  by destruct (put now c' id d (FError code m)) as [c2 r2].
Qed.

(** What [get] and [put] answer while the id is unknown. *)
Lemma get_absent now c id d :
  od_get id (_entries (_purge now c)) = None → get now c id d = (_purge now c, Ok None).
Proof. intros Hn. unfold get. by rewrite Hn. Qed.

Lemma purge_purge now c : _purge now (_purge now c) = _purge now c.
Proof.
  unfold _purge. simpl. f_equal. rewrite list_filter_filter. apply list_filter_iff. tauto.
Qed.

(** One eviction removes exactly the evicted call and never fails. *)
Lemma evict_inflight n now c id d f :
  cache_ok n c → od_get id (_inflight c) = Some (d, f) →
  (evict now c id d).2 = Ok (FError (-32099) "Replay-safe unary call was evicted before completion") ∧
  _inflight (evict now c id d).1 = od_del id (_inflight c) ∧
  futures (evict now c id d).1 = settle f (Resolved (FError (-32099)
    "Replay-safe unary call was evicted before completion")) (futures c).
Proof.
  intros Hok Hf. pose proof (purge_ok _ now _ Hok) as Hok'.
  assert (od_get id (_entries (_purge now c)) = None) as Hn by by eapply ok_disjoint.
  unfold evict, complete_error. rewrite get_absent by done. unfold put. rewrite purge_purge, Hn.
  simpl. by rewrite Hf.
Qed.

Lemma evict_loop_ok fuel now c n :
  (1 ≤ max_entries)%nat → (length (_inflight c) ≤ max_entries + fuel)%nat →
  cache_ok n c →
  (evict_loop fuel now c).2 = Ok tt ∧ cache_ok max_entries (evict_loop fuel now c).1 ∧
  ∃ k, _inflight (evict_loop fuel now c).1 = drop k (_inflight c) ∧
       k = (length (_inflight c) - max_entries)%nat.
Proof.
  intros Hmax. revert c. induction fuel as [|fuel IH]; intros c Hlen Hok; simpl;
    destruct (Nat.ltb_spec max_entries (length (_inflight c))) as [Hlt|Hge]; try lia.
  1,3: split; [done|]; split; [destruct Hok; split; try done; simpl; lia|]; exists 0%nat; split; [done|lia].
  destruct (_inflight c) as [|[id [d f]] rest] eqn:Hin; [simpl in *; lia|].
  assert (od_get id (_inflight c) = Some (d, f)) as Hf by (rewrite Hin; simpl; by rewrite decide_True).
  destruct (evict_inflight n now c id d f Hok Hf) as (Hr & Hi & _).
  pose proof (complete_error_ok n now c id d (-32099)
    "Replay-safe unary call was evicted before completion" Hok) as Hok'. fold (evict now c id d) in Hok'.
  destruct (evict now c id d) as [c' r']. simpl in Hr, Hi, Hok'. subst r'.
  assert (_inflight c' = rest) as Hrest.
  { rewrite Hi, Hin. unfold od_del. rewrite filter_cons_False by tauto.
    destruct Hok as [_ Hnd _ _ _ _ _ _]. rewrite Hin in Hnd. apply NoDup_cons in Hnd as [Hnot _].
    by apply od_del_absent, od_get_none. }
  destruct (IH c') as (H1 & H2 & k & Hk & ->); [rewrite Hrest; simpl in *; lia|done|].
  split; [done|]. split; [done|]. eexists. split; [rewrite Hk, Hrest|done].
  simpl length. replace (S (length rest) - max_entries)%nat with (S (length rest - max_entries))
    by (simpl in *; lia). done.
Qed.

(** The newest call survives the loop: only older calls are evicted. *)
Lemma evict_loop_keeps fuel now c n id x :
  (1 ≤ max_entries)%nat → (length (_inflight c) ≤ max_entries + fuel)%nat → cache_ok n c →
  (∃ l, _inflight c = l ++ [(id, x)]) → futures c !! x.2 = Some Pending →
  (evict_loop fuel now c).2 = Ok tt ∧
  futures (evict_loop fuel now c).1 !! x.2 = Some Pending ∧
  od_get id (_inflight (evict_loop fuel now c).1) = Some x.
Proof.
  intros Hmax. revert c. induction fuel as [|fuel IH]; intros c Hlen Hok [l Hl] Hx; simpl;
    destruct (Nat.ltb_spec max_entries (length (_inflight c))) as [Hlt|Hge]; try lia.
  1,3: split; [done|]; split; [done|]; apply od_elem_get;
    [by destruct Hok|simpl; rewrite Hl; apply elem_of_app; right; by apply list_elem_of_singleton].
  destruct l as [|[id0 [d0 f0]] l]; [rewrite Hl in Hlt; simpl in *; lia|]. simpl in Hl.
  replace (match _inflight c with [] => _ | _ => _ end) with
    (let '(c', r) := evict now c id0 d0 in
     match r with Ok _ => evict_loop fuel now c' | Err e => (c', Err e) end) by (by rewrite Hl).
  assert (od_get id0 (_inflight c) = Some (d0, f0)) as Hf by (rewrite Hl; simpl; by rewrite decide_True).
  destruct (evict_inflight n now c id0 d0 f0 Hok Hf) as (Hr & Hi & Hfut).
  pose proof (complete_error_ok n now c id0 d0 (-32099)
    "Replay-safe unary call was evicted before completion" Hok) as Hok'.
  fold (evict now c id0 d0) in Hok'.
  destruct (evict now c id0 d0) as [c' r']. simpl in Hr, Hi, Hok', Hfut. subst r'.
  destruct Hok as [_ Hnd _ _ _ _ Hdist _]. pose proof Hnd as Hnd2. rewrite Hl in Hnd2.
  apply NoDup_cons in Hnd2 as [Hnot Hnd2].
  assert (_inflight c' = l ++ [(id, x)]) as Hrest.
  { rewrite Hi, Hl. unfold od_del. rewrite filter_cons_False by tauto.
    by apply od_del_absent, od_get_none. }
  apply IH; [|done|by exists l|].
  - rewrite Hrest. rewrite Hl in Hlen. simpl in *. lia.
  - rewrite Hfut, settle_lookup. case_decide as Heq; [|done]. exfalso.
    assert (od_get id (_inflight c) = Some x) as Hid.
    { apply od_elem_get; [done|]. rewrite Hl. apply elem_of_cons; right. apply elem_of_app; right.
      by apply list_elem_of_singleton. }
    destruct x as [dx fx]. simpl in *. subst f0.
    rewrite (Hdist _ _ _ _ _ Hf Hid) in Hnot. apply Hnot, list_elem_of_fmap.
    exists (id, (dx, fx)). split; [done|]. apply elem_of_app. right. by apply list_elem_of_singleton.
Qed.

(** A claim, before the loop makes room for it. *)
Lemma claimed_ok now c id d :
  cache_ok max_entries c → od_get id (_entries (_purge now c)) = None →
  od_get id (_inflight c) = None →
  cache_ok (S max_entries)
    (Cache (filter (unexpired now) (_entries c))
       (od_set id (d, length (futures c)) (_inflight c)) (futures c ++ [Pending])).
Proof.
  intros Hok%(purge_ok _ now) Hid Hf. destruct Hok. simpl in *. split; simpl; try done.
  - by apply od_set_nodup.
  - intros i x. rewrite od_get_set. case_decide; [by intros; simplify_eq|]. apply ok_disjoint0.
  - rewrite od_set_length, Hf. lia.
  - intros i d' f'. rewrite od_get_set. case_decide; intros Hi; simplify_eq.
    + rewrite lookup_app_r, Nat.sub_diag by lia. by eexists.
    + destruct (ok_exists0 _ _ _ Hi) as [y Hy]. rewrite lookup_app_l; [by eexists|].
      by eapply lookup_lt_Some.
  - assert (∀ i d', od_get i (_inflight c) = Some (d', length (futures c)) → False) as Hfresh.
    { intros i d' Hi. destruct (ok_exists0 _ _ _ Hi) as [y Hy%lookup_lt_Some]. lia. }
    intros i1 i2 d1 d2 f'. rewrite !od_get_set. repeat case_decide; intros; simplify_eq; try done;
      try (exfalso; by eapply Hfresh). by eapply ok_distinct0.
  - intros f' [Hf'|[Hge Hf']]%lookup_app_Some.
    + destruct (ok_waited0 _ Hf') as (i & d' & Hi). exists i, d'. rewrite od_get_set.
      case_decide; [congruence|done].
    + exists id, d. rewrite od_get_set, decide_True by done. do 2 f_equal.
      apply list_lookup_singleton_Some in Hf' as [Hz _]. lia.
Qed.

Lemma join_ok now c id d :
  (1 ≤ max_entries)%nat → cache_ok max_entries c →
  cache_ok max_entries (join_or_claim now c id d).1 ∧ (join_or_claim now c id d).2 ≠ Err OutOfFuel.
Proof.
  intros Hmax Hok. pose proof (get_ok _ now c id d Hok) as Hget. unfold join_or_claim.
  destruct (od_get id (_entries (_purge now c))) as [[[dg t] r]|] eqn:Hid.
  - unfold get in *. rewrite Hid in *. case_bool_decide; [by destruct Hok|]. simpl in *. split; [|done].
    destruct Hget. split; simpl in *; try done.
    + intros i d' f Hf. destruct (ok_exists0 _ _ _ Hf) as [y Hy]. rewrite lookup_app_l; [by eexists|].
      by eapply lookup_lt_Some.
    + intros f [Hf|[_ Hf]]%lookup_app_Some; [by apply ok_waited0|].
      by apply list_lookup_singleton_Some in Hf as [_ ?].
  - rewrite get_absent in * by done. simpl in *.
    destruct (od_get id (_inflight c)) as [[dg f]|] eqn:Hf; [by case_bool_decide|].
    set (c1 := Cache _ (od_set _ _ _) _).
    pose proof (claimed_ok now c id d Hok Hid Hf) as Hc1. fold c1 in Hc1.
    destruct (evict_loop_ok (length (_inflight c1)) now c1 (S max_entries) Hmax ltac:(lia) Hc1)
      as (Hr & Hc2 & _).
    destruct (evict_loop _ now c1) as [c2 r2]. simpl in *. subst r2. simpl. split; [|done].
    done.
Qed.

Lemma dedup_exec_ok c op :
  (1 ≤ max_entries)%nat → cache_ok max_entries c → cache_ok max_entries (exec c op).
Proof.
  intros Hmax Hok. destruct op; simpl.
  - by apply get_ok.
  - by apply join_ok.
  - by apply put_ok.
  - by apply complete_error_ok.
  - by apply finish_ok.
  - by apply finish_ok.
  - by apply cancel_inflight_ok.
  - by apply cancel_future_ok.
Qed.

Lemma empty_cache_ok n : cache_ok n empty_cache.
Proof. by split; simpl; try (constructor || lia). Qed.

Lemma reachable_ok tr : (1 ≤ max_entries)%nat → cache_ok max_entries (run exec empty_cache tr).
Proof.
  intros Hmax. apply (run_invariant exec (cache_ok max_entries)); [apply empty_cache_ok|].
  intros. by apply dedup_exec_ok.
Qed.

(** ** Properties *)

(** C38. No waiter is forgotten and nothing grows without bound: after every history
    of the cache, a future that is still pending belongs to a call in flight (so an
    answer, an eviction, a failure or a disconnect will settle it), no call is both
    in flight and finished, both tables respect [max_entries], and the eviction loop
    of the next claim terminates. *)
Theorem waiters_never_orphaned tr :
  (1 ≤ max_entries)%nat →
  let c := run exec empty_cache tr in
  (∀ f, futures c !! f = Some Pending → ∃ id d, od_get id (_inflight c) = Some (d, f)) ∧
  (∀ id x, od_get id (_inflight c) = Some x → od_get id (_entries c) = None) ∧
  (length (_entries c) ≤ max_entries)%nat ∧ (length (_inflight c) ≤ max_entries)%nat ∧
  ∀ now id d, (join_or_claim now c id d).2 ≠ Err OutOfFuel.
Proof.
  intros Hmax c. pose proof (reachable_ok tr Hmax) as Hok. fold c in Hok.
  destruct Hok as [? ? ? ? ? ? ? ?] eqn:Heq. split_and!; try done.
  intros now id d. by apply join_ok.
Qed.

(** [join_or_claim] in every case: a finished call with the same payload is
    answered from the cache, one in flight is joined on its own future, a call known
    with another payload is a conflict, and only an unknown call is claimed, with a
    fresh pending future that is in flight afterwards even when older calls had to
    be evicted. *)
Theorem join_or_claim_cases tr now id d :
  (1 ≤ max_entries)%nat →
  let c := run exec empty_cache tr in
  let '(c', r) := join_or_claim now c id d in
  match od_get id (_entries (_purge now c)), od_get id (_inflight c) with
  | Some (d', _, v), _ =>
      if bool_decide (d' = d) then ∃ f, r = Ok (f, false) ∧ futures c' !! f = Some (Resolved v)
      else r = Err UnaryCallConflict
  | None, Some (d', f) => r = if bool_decide (d' = d) then Ok (f, false) else Err UnaryCallConflict
  | None, None =>
      ∃ f, r = Ok (f, true) ∧ futures c !! f = None ∧ futures c' !! f = Some Pending ∧
           od_get id (_inflight c') = Some (d, f)
  end.
Proof.
  intros Hmax c. pose proof (reachable_ok tr Hmax) as Hok. fold c in Hok. clearbody c.
  pose proof (purge_ok _ now _ Hok) as Hpurge. unfold join_or_claim.
  destruct (od_get id (_entries (_purge now c))) as [[[d' t] v]|] eqn:Hid.
  - unfold get. rewrite Hid. rewrite bool_decide_not. case_bool_decide; simpl; [|done].
    eexists. split; [done|]. by rewrite lookup_app_r, Nat.sub_diag by lia.
  - rewrite get_absent by done. simpl.
    destruct (od_get id (_inflight c)) as [[d' f]|] eqn:Hf.
    { rewrite bool_decide_not. by case_bool_decide. }
    pose proof (claimed_ok now c id d Hok Hid Hf) as Hc1. set (c1 := Cache _ (od_set _ _ _) _) in *.
    destruct (evict_loop_keeps (length (_inflight c1)) now c1 (S max_entries) id (d, length (futures c)))
      as (Hr & Hin & Hfut); [done|lia|done|..].
    { exists (_inflight c). subst c1. simpl. by rewrite od_set_absent. }
    { simpl. by rewrite lookup_app_r, Nat.sub_diag by lia. }
    destruct (evict_loop _ now c1) as [c2 r2]. simpl in *. subst r2. simpl.
    exists (length (futures c)). split_and!; try done. apply lookup_ge_None. lia.
Qed.

(** The entry a [put] of an unknown call leaves behind is the newest one. *)
Lemma put_unknown now c id d r :
  (1 ≤ max_entries)%nat → od_get id (_entries (_purge now c)) = None →
  (put now c id d r).2 = Ok tt ∧
  od_get id (_entries (put now c id d r).1) = Some (d, now + ttl_seconds, r).
Proof.
  intros Hmax Hid. unfold put. rewrite Hid. simpl. split; [done|].
  simpl in Hid. set (e := filter (unexpired now) (_entries c)) in *.
  assert (od_move_end id (od_set id (d, now + ttl_seconds, r) e) = e ++ [(id, (d, now + ttl_seconds, r))])
    as ->.
  { unfold od_move_end. rewrite od_get_set, decide_True by done. f_equal.
    rewrite od_set_absent by done. unfold od_del. rewrite filter_app, filter_cons_False by tauto.
    simpl. rewrite app_nil_r. by apply od_del_absent. }
  rewrite trim_drop, length_app. simpl.
  rewrite drop_app_le by lia. rewrite od_get_app, od_get_drop_none by done. simpl.
  by rewrite decide_True.
Qed.

(** A finished call answers everyone: publishing the result of an unknown or
    in-flight call settles the future its callers wait on with that result, takes
    the call out of flight, and until its time to live ends every further request
    with the same payload gets the same result while another payload is refused. *)
Theorem finished_call_is_replayed tr now now' id d r :
  (1 ≤ max_entries)%nat →
  let c := run exec empty_cache tr in
  let c' := (put now c id d r).1 in
  od_get id (_entries (_purge now c)) = None → now' < now + ttl_seconds →
  (∀ d' f, od_get id (_inflight c) = Some (d', f) → futures c !! f = Some Pending →
     futures c' !! f = Some (Resolved r)) ∧
  od_get id (_inflight c') = None ∧
  (get now' c' id d).2 = Ok (Some r) ∧
  ∀ d2, d2 ≠ d → (get now' c' id d2).2 = Err UnaryCallConflict ∧
                 (join_or_claim now' c' id d2).2 = Err UnaryCallConflict.
Proof.
  intros Hmax c c' Hid Hnow.
  pose proof (put_ok _ now c id d r (reachable_ok tr Hmax)) as Hok.
  destruct (put_unknown now c id d r Hmax Hid) as [_ Hnew]. fold c' in Hok, Hnew.
  assert (od_get id (_entries (_purge now' c')) = Some (d, now + ttl_seconds, r)) as Hget.
  { simpl. rewrite od_get_filter by by destruct Hok. rewrite Hnew. by rewrite decide_True. }
  assert (∀ d2, d2 ≠ d → (get now' c' id d2).2 = Err UnaryCallConflict) as Hconf.
  { intros d2 Hd2. unfold get. rewrite Hget. by rewrite bool_decide_true. }
  split_and!.
  - intros d' f Hf Hp. subst c'. unfold put. rewrite Hid. simpl. rewrite Hf, settle_lookup.
    by rewrite decide_True, Hp.
  - subst c'. unfold put. rewrite Hid. simpl. by rewrite od_get_del, decide_True.
  - unfold get. rewrite Hget. rewrite bool_decide_false by tauto. done.
  - intros d2 Hd2. split; [by apply Hconf|]. unfold join_or_claim. specialize (Hconf d2 Hd2).
    destruct (get now' c' id d2) as [c2 r2]. simpl in *. by subst r2.
Qed.
End Cache.

(** ** Witnesses *)

Definition example_trace : list (operation (V := string)) :=
  [OpJoin 0 "a" "da"; OpJoin 1 "b" "db"; OpJoin 2 "a" "da"; OpJoin 3 "c" "dc"; OpCancel "c"].

Lemma waiters_never_orphaned_witness :
  let c := run (exec 2 100) empty_cache example_trace in
  futures c = [Resolved (FError (-32099) "Replay-safe unary call was evicted before completion");
               Pending; Cancelled] ∧
  ∃ id d, od_get id (_inflight c) = Some (d, 1%nat).
Proof.
  intros c. split; [vm_compute; reflexivity|].
  apply (waiters_never_orphaned 2 100 example_trace); [lia|]. vm_compute. reflexivity.
Defined.

Lemma join_or_claim_cases_witness :
  let c := run (exec 2 100) empty_cache example_trace in
  (join_or_claim 2 100 5 c "b" "db").2 = Ok (1%nat, false).
Proof. exact (join_or_claim_cases 2 100 example_trace 5 "b" "db" ltac:(lia)). Defined.

Lemma finished_call_is_replayed_witness :
  let c := run (exec 2 100) empty_cache example_trace in
  let c' := (put 2 100 6 c "b" "db" (FResult "done")).1 in
  futures c' !! 1%nat = Some (Resolved (FResult "done")) ∧
  (get 50 c' "b" "db").2 = Ok (Some (FResult "done")).
Proof.
  intros c c'.
  destruct (finished_call_is_replayed 2 100 example_trace 6 50 "b" "db" (FResult "done"))
    as (H1 & _ & H2 & _); [lia|vm_compute; reflexivity|lia|].
  split; [|exact H2]. apply (H1 "db" 1%nat); vm_compute; reflexivity.
Defined.
