(* ===== verification/JsonStream.v ===== *)
(** Streamed JSON arguments: [packages/common/src/cognis/json_stream.py].

    Fragments of a tool call's JSON arguments are merged into one accumulated text
    although providers replay prefixes, restart at an overlap or resend a corrected
    object.  The JSON decoder is a parameter: [loads] either returns an object,
    another value, or the message and position of its error; [raw_decode] decodes
    at a position and returns the value with the end position. *)

From S2P Require Import Prelude.

Record IncrementalJsonMergeResult := Merge {
  merged : text;
  emitted : text;
  replaced : bool;
}.

Section Json.
Context {obj : Type} `{EqDecision obj}.

Inductive decoded :=
| Object (o : obj)
| OtherValue
| JSONDecodeError (msg : string) (pos : nat).

Context (loads : text → decoded) (raw_decode : text → nat → option (option obj * nat)).

Definition _parse_json_object (raw : text) : option obj :=
  let raw := strip raw in
  if bool_decide (raw = []) then None
  else match loads raw with
       | Object o => Some o
       | _ => None
       end.

(** The loop of [recover_trailing_json_object] from position [pos], [rest] being the
    text from there on. *)
Fixpoint recover_loop (raw : text) (pos : nat) (rest : text) (recovered : option obj) : option obj :=
  match rest with
  | [] => recovered
  | char :: rest =>
      let recovered :=
        if bool_decide (char ≠ Ascii.ascii_of_nat 123) then recovered
        else match raw_decode raw pos with
             | None => recovered
             | Some (None, _) => recovered
             | Some (Some parsed, end_) =>
                 if bool_decide (strip (drop end_ raw) ≠ []) then recovered else Some parsed
             end in
      recover_loop raw (S pos) rest recovered
  end.

Definition recover_trailing_json_object (raw : text) : option obj :=
  let raw := strip raw in
  if bool_decide (raw = []) then None else recover_loop raw 0 raw None.

Definition structural_chars : text :=
  tx "{}[],: " ++ [Ascii.ascii_of_nat 9; Ascii.ascii_of_nat 13; Ascii.ascii_of_nat 10].

Definition _is_structural_continuation (existing incoming : text) : bool :=
  if bool_decide (_parse_json_object incoming = None)
     && existsb (λ char, bool_decide (char ∉ structural_chars)) incoming
  then false
  else
    let combined := strip (existing ++ incoming) in
    if negb (startswith combined (tx "{")) then false
    else match loads combined with
         | JSONDecodeError msg pos =>
             (pos =? length combined)%nat
             && bool_decide (msg ∈ ["Expecting value";
                  "Expecting property name enclosed in double quotes"; "Expecting ',' delimiter"])
         | Object _ => true
         | OtherValue => false
         end.

(** [for overlap in range(n, 0, -1)] *)
Fixpoint overlap_loop (n : nat) (existing incoming : text) : option nat :=
  match n with
  | O => None
  | S n' => if endswith existing (take n incoming) then Some n else overlap_loop n' existing incoming
  end.

Definition merge_incremental_json_fragment (existing incoming : text) : IncrementalJsonMergeResult :=
  if bool_decide (incoming = []) then Merge existing [] false
  else if bool_decide (existing = []) then Merge incoming incoming false
  else if startswith incoming existing then Merge incoming (drop (length existing) incoming) false
  else if _is_structural_continuation existing incoming then
    Merge (existing ++ incoming) incoming false
  else if startswith existing incoming then Merge existing [] false
  else
    let existing_object := _parse_json_object existing in
    let incoming_object := _parse_json_object incoming in
    if bool_decide (incoming_object ≠ None) && bool_decide (existing_object = None)
       && (length existing <=? length incoming)%nat
    then Merge incoming incoming true
    else if bool_decide (incoming_object ≠ None) && bool_decide (existing_object ≠ None)
            && bool_decide (existing_object ≠ incoming_object)
    then Merge incoming incoming true
    else match overlap_loop (Nat.min (length existing) (length incoming)) existing incoming with
         | Some overlap => Merge (existing ++ drop overlap incoming) (drop overlap incoming) false
         | None => Merge (existing ++ incoming) incoming false
         end.

(** A stream of fragments folded into the accumulator, and what a consumer that
    appends every emitted piece (starting afresh on a replacement) has seen. *)
Definition accumulate (fragments : list text) : text :=
  foldl (λ acc fragment, merged (merge_incremental_json_fragment acc fragment)) [] fragments.

Fixpoint consume (acc seen : text) (fragments : list text) : text :=
  match fragments with
  | [] => seen
  | fragment :: fragments =>
      let r := merge_incremental_json_fragment acc fragment in
      consume (merged r) (if replaced r then emitted r else seen ++ emitted r) fragments
  end.

(** ** Lemmas *)

Lemma overlap_loop_spec n existing incoming :
  match overlap_loop n existing incoming with
  | Some k => (0 < k ≤ n)%nat ∧ take k incoming `suffix_of` existing ∧
              ∀ j, (k < j ≤ n)%nat → ¬ take j incoming `suffix_of` existing
  | None => ∀ j, (0 < j ≤ n)%nat → ¬ take j incoming `suffix_of` existing
  end.
Proof.
  induction n as [|n IH]; [simpl; intros; lia|]. cbn [overlap_loop]. unfold endswith. case_bool_decide as Hs.
  - split; [lia|]. split; [done|]. intros; lia.
  - destruct (overlap_loop n existing incoming) as [k|].
    + destruct IH as (? & ? & Hmax). split; [lia|]. split; [done|]. intros j Hj.
      destruct (decide (j = S n)) as [->|]; [done|]. apply Hmax. lia.
    + intros j Hj. destruct (decide (j = S n)) as [->|]; [done|]. apply IH. lia.
Qed.

Lemma merge_shape existing incoming :
  let r := merge_incremental_json_fragment existing incoming in
  if replaced r then merged r = incoming ∧ emitted r = incoming
  else merged r = existing ++ emitted r.
Proof.
  unfold merge_incremental_json_fragment.
  repeat case_match; simpl; bool_facts; subst; rewrite ?app_nil_r; try done.
  unfold startswith in *. bool_facts.
  match goal with H : _ `prefix_of` _ |- _ => destruct H as [k ->] end. by rewrite drop_app_length.
Qed.

(** ** Properties *)

(** What is emitted is what is accumulated: whatever fragments a provider sends,
    a consumer that appends each emitted piece, and starts afresh only when told
    that the accumulation was replaced, holds exactly the accumulated text. *)
Theorem emitted_reconstructs_merged fragments :
  consume [] [] fragments = accumulate fragments.
Proof.
  unfold accumulate. generalize (@nil Ascii.ascii) as acc. 
  induction fragments as [|f fs IH]; intros acc; simpl; [done|]. rewrite <- IH.
  pose proof (merge_shape acc f) as Hs. simpl in Hs. destruct (replaced _); [|by rewrite Hs].
  by destruct Hs as [-> ->].
Qed.

(** An accumulation is never cut down by accident: the merged text extends the
    existing one (and a fragment that replays it, or continues it from a replayed
    prefix, adds exactly the new suffix), unless the fragment is a complete JSON
    object that replaces an incomplete accumulation no longer than itself, or a
    complete object it differs from. *)
Theorem accumulation_never_truncated existing incoming :
  let r := merge_incremental_json_fragment existing incoming in
  (replaced r = false ∧ existing `prefix_of` merged r ∧ emitted r `suffix_of` incoming) ∨
  (replaced r = true ∧ merged r = incoming ∧
   ∃ o, _parse_json_object incoming = Some o ∧
     match _parse_json_object existing with
     | None => (length existing ≤ length incoming)%nat
     | Some o' => o' ≠ o
     end).
Proof.
  assert (∀ e, e `suffix_of` incoming →
    let r := Merge (existing ++ e) e false in
    replaced r = false ∧ existing `prefix_of` merged r ∧ emitted r `suffix_of` incoming) as Happ.
  { intros e He. simpl. split; [done|]. split; [by apply prefix_app_r|done]. }
  assert (Merge existing [] false = Merge (existing ++ []) [] false) as Hnil by by rewrite app_nil_r.
  unfold merge_incremental_json_fragment.
  case_bool_decide as Hi; [left; rewrite Hnil; apply Happ, suffix_nil|].
  case_bool_decide as He; [left; subst; by apply (Happ incoming)|].
  destruct (startswith incoming existing) eqn:Hp.
  { left. unfold startswith in Hp. apply bool_decide_eq_true in Hp as [k ->].
    rewrite drop_app_length. apply Happ. by apply suffix_app_r. }
  case_match; [left; by apply Happ|].
  destruct (startswith existing incoming); [left; rewrite Hnil; apply Happ, suffix_nil|].
  destruct (_parse_json_object incoming) as [o|] eqn:Ho; simpl.
  - destruct (_ && (_ <=? _)%nat) eqn:Hfirst; [right; bool_facts|].
    { split; [done|]. split; [done|]. exists o. split; [done|].
      destruct (_parse_json_object existing); [done|]. by apply Nat.leb_le. }
    destruct (_ && bool_decide (_ ≠ _)) eqn:Hdiff; [right; bool_facts|].
    { split; [done|]. split; [done|]. exists o. split; [done|].
      destruct (_parse_json_object existing); naive_solver. }
    left. destruct (overlap_loop _ _ _); apply Happ; [apply suffix_drop|done].
  - left. destruct (overlap_loop _ _ _); apply Happ; [apply suffix_drop|done].
Qed.

(** An overlapping restart is spliced at its longest overlap: when the fragment
    neither replays the accumulation nor continues it structurally and neither text
    is a complete object, exactly the longest prefix of the fragment that ends the
    accumulation is dropped. *)
Theorem restart_spliced_at_longest_overlap existing incoming :
  incoming ≠ [] → existing ≠ [] →
  ¬ existing `prefix_of` incoming → ¬ incoming `prefix_of` existing →
  _is_structural_continuation existing incoming = false →
  _parse_json_object incoming = None →
  ∃ k, merge_incremental_json_fragment existing incoming =
         Merge (existing ++ drop k incoming) (drop k incoming) false ∧
       (k ≤ length incoming)%nat ∧ take k incoming `suffix_of` existing ∧
       ∀ j, (k < j ≤ length incoming)%nat → ¬ take j incoming `suffix_of` existing.
Proof.
  intros Hi He Hp1 Hp2 Hs Hpi. unfold merge_incremental_json_fragment, startswith.
  rewrite !bool_decide_false, Hs, Hpi by done. rewrite (bool_decide_false (None ≠ None)) by tauto. simpl.
  pose proof (overlap_loop_spec (length existing `min` length incoming) existing incoming) as Hl.
  assert (∀ j, (j ≤ length incoming)%nat → take j incoming `suffix_of` existing →
            (j ≤ length existing `min` length incoming)%nat) as Hlen.
  { intros j Hj Hsuf%suffix_length. rewrite length_take in Hsuf. lia. }
  destruct (overlap_loop _ existing incoming) as [k|].
  - destruct Hl as (Hk & Hsuf & Hmax). exists k. split; [done|]. split; [lia|]. split; [done|].
    intros j Hj Hsj. apply (Hmax j); [|done]. specialize (Hlen j). lia || (split; [lia|apply Hlen; [lia|done]]).
  - exists 0%nat. rewrite drop_0. split; [done|]. split; [lia|]. split; [apply suffix_nil|].
    intros j Hj Hsj. apply (Hl j); [|done]. split; [lia|]. apply Hlen; [lia|done].
Qed.

Lemma recover_loop_spec raw pos rest r :
  rest = drop pos raw →
  let ok p := raw !! p = Some (Ascii.ascii_of_nat 123) ∧
              ∃ o e, raw_decode raw p = Some (Some o, e) ∧ strip (drop e raw) = [] in
  match recover_loop raw pos rest r with
  | Some o => r = Some o ∧ (∀ p, (pos ≤ p)%nat → ¬ ok p) ∨
      ∃ p e, (pos ≤ p)%nat ∧ raw_decode raw p = Some (Some o, e) ∧ strip (drop e raw) = [] ∧
             ∀ p', (p < p')%nat → ¬ ok p'
  | None => r = None ∧ ∀ p, (pos ≤ p)%nat → ¬ ok p
  end.
Proof.
  intros Hrest ok. revert pos r Hrest. induction rest as [|char rest IH]; intros pos r Hrest; simpl.
  - assert (∀ p, (pos ≤ p)%nat → ¬ ok p) as Hno.
    { intros p Hp [Hc _]. apply lookup_lt_Some in Hc. apply (f_equal length) in Hrest.
      rewrite length_drop in Hrest. simpl in Hrest. lia. }
    destruct r; [by left|done].
  - assert (raw !! pos = Some char) as Hchar.
    { rewrite <- (Nat.add_0_r pos), <- lookup_drop, <- Hrest. done. }
    assert (rest = drop (S pos) raw) as Hrest'.
    { rewrite <- Nat.add_1_r, <- drop_drop, <- Hrest. done. }
    set (r' := if bool_decide (char ≠ _) then _ else _).
    specialize (IH (S pos) r' Hrest').
    assert ((r' = r ∧ ¬ ok pos) ∨ ∃ o e, r' = Some o ∧ raw_decode raw pos = Some (Some o, e) ∧
              strip (drop e raw) = []) as Hr'.
    { subst r'. case_bool_decide as Hc; [left; split; [done|]; intros [? _]; congruence|].
      destruct (raw_decode raw pos) as [[[o|] e]|] eqn:Hd;
        [|left; split; [done|]; intros (_ & ? & ? & Hd' & _); congruence..].
      case_bool_decide as Hs; [left; split; [done|]; intros (_ & o' & e' & Hd' & Hs'); simplify_eq; congruence|].
      right. exists o, e. split; [done|]. split; [done|].
      destruct (decide (strip (drop e raw) = [])); [done|tauto]. }
    assert (∀ p, (pos ≤ p)%nat → ¬ ok pos → (∀ p, (S pos ≤ p)%nat → ¬ ok p) → ¬ ok p) as Hext.
    { intros p Hp H1 H2. destruct (decide (p = pos)) as [->|]; [done|]. apply H2. lia. }
    destruct (recover_loop raw (S pos) rest r') as [o|].
    + destruct IH as [[Ho Hno]|(p & e & Hp & Hd & Hs & Hmax)].
      * destruct Hr' as [[Heq Hpos]|(o' & e & Heq & Hd & Hs)].
        -- left. split; [congruence|]. intros p Hp. by apply Hext.
        -- right. exists pos, e. split; [lia|]. split; [congruence|]. split; [done|].
           intros p' Hp'. apply Hno. lia.
      * right. exists p, e. split; [lia|]. done.
    + destruct IH as [Ho Hno]. destruct Hr' as [[Heq Hpos]|(o' & e & Heq & _)]; [|congruence].
      split; [congruence|]. intros p Hp. by apply Hext.
Qed.

(** Recovery returns the object of the last opening brace from which a complete
    object runs to the end of the text, and nothing exactly when there is none. *)
Theorem recover_returns_last_object raw :
  let t := strip raw in
  let ok p := t !! p = Some (Ascii.ascii_of_nat 123) ∧
              ∃ o e, raw_decode t p = Some (Some o, e) ∧ strip (drop e t) = [] in
  match recover_trailing_json_object raw with
  | Some o => ∃ p e, raw_decode t p = Some (Some o, e) ∧ strip (drop e t) = [] ∧
                     ∀ p', (p < p')%nat → ¬ ok p'
  | None => ∀ p, ¬ ok p
  end.
Proof.
  intros t ok. unfold recover_trailing_json_object. fold t. case_bool_decide as Ht.
  - intros p [Hp _]. by rewrite Ht in Hp.
  - pose proof (recover_loop_spec t 0 t None eq_refl) as Hl. simpl in Hl.
    destruct (recover_loop t 0 t None).
    + destruct Hl as [[? _]|(p & e & _ & ?)]; [done|]. by exists p, e.
    + destruct Hl as [_ Hl]. intros p. apply Hl. lia.
Qed.
End Json.

(** ** Witness: a restart in the middle of a key *)

Lemma restart_spliced_at_longest_overlap_witness :
  let loads := λ _ : text, @JSONDecodeError nat "Expecting value" 0 in
  ∃ k, merge_incremental_json_fragment loads (tx "{'a': 1, 'bc") (tx "'bcd': 2}") =
         Merge (tx "{'a': 1, 'bc" ++ drop k (tx "'bcd': 2}")) (drop k (tx "'bcd': 2}")) false ∧ (k ≤ 9)%nat.
Proof.
  intros loads.
  destruct (restart_spliced_at_longest_overlap loads (λ _ _, None) (tx "{'a': 1, 'bc") (tx "'bcd': 2}"))
    as (k & Hk & Hle & _).
  - done.
  - done.
  - refine (bool_decide_eq_true_1 _ _). vm_compute. reflexivity.
  - refine (bool_decide_eq_true_1 _ _). vm_compute. reflexivity.
  - vm_compute. reflexivity.
  - vm_compute. reflexivity.
  - exists k. split; [exact Hk|exact Hle].
Defined.

Example restart_spliced_example :
  merge_incremental_json_fragment (λ _ : text, @JSONDecodeError nat "Expecting value" 0)
    (tx "{'a': 1, 'bc") (tx "'bcd': 2}") = Merge (tx "{'a': 1, 'bcd': 2}") (tx "d': 2}") false.
Proof. vm_compute. reflexivity. Qed.
