(* ===== verification/PyVal.v ===== *)
(** Dynamic values: the JSON-like Python objects that tool arguments, rule
    contexts, configuration and events are made of.

    Dictionaries have string keys and keep insertion order.  A finite float is
    [m * 2 ^ e] exactly; infinities and not-a-number are left out.  [repr] of a
    string or a float is a parameter of the functions that print one. *)

From S2P Require Import Prelude.

Inductive pyval :=
| PNone
| PBool (b : bool)
| PInt (z : Z)
| PFloat (m e : Z)
| PStr (s : string)
| PList (l : list pyval)
| PDict (d : list (string * pyval)).

(** Keyword arguments: a dictionary, or [None]. *)
Notation pydict := (list (string * pyval)).

(** [bool(v)] *)
Definition truthy (v : pyval) : bool :=
  match v with
  | PNone => false
  | PBool b => b
  | PInt z => negb (z =? 0)
  | PFloat m _ => negb (m =? 0)
  | PStr s => negb (bool_decide (s = ""))
  | PList l => match l with [] => false | _ => true end
  | PDict d => match d with [] => false | _ => true end
  end.

(** [a or b] *)
Definition py_or (a b : pyval) : pyval := if truthy a then a else b.

(** [d.get(k)] *)
Definition dict_get (k : string) (d : pydict) : pyval :=
  match od_get k d with Some v => v | None => PNone end.

Definition is_str (v : pyval) : bool := match v with PStr _ => true | _ => false end.
Definition is_dict (v : pyval) : bool := match v with PDict _ => true | _ => false end.
Definition is_list (v : pyval) : bool := match v with PList _ => true | _ => false end.
Definition is_none (v : pyval) : bool := match v with PNone => true | _ => false end.

(** [str(z)] *)
Definition str_int (z : Z) : string := pretty z.

Definition join (sep : string) (l : list string) : string :=
  match l with
  | [] => ""
  | x :: l => foldl (λ acc y, acc +:+ sep +:+ y) x l
  end.

Section Printing.
Context (repr_str : string → string) (repr_float : Z → Z → string).

Fixpoint py_repr (v : pyval) : string :=
  match v with
  | PNone => "None"
  | PBool true => "True"
  | PBool false => "False"
  | PInt z => str_int z
  | PFloat m e => repr_float m e
  | PStr s => repr_str s
  | PList l => "[" +:+ join ", " (map py_repr l) +:+ "]"
  | PDict d => "{" +:+ join ", " (map (λ x, repr_str x.1 +:+ ": " +:+ py_repr x.2) d) +:+ "}"
  end.

Definition py_str (v : pyval) : string :=
  match v with PStr s => s | _ => py_repr v end.
End Printing.

(** ** Comparison *)

(** The exact value of a number, as [m * 2 ^ e]. *)
Definition number (v : pyval) : option (Z * Z) :=
  match v with
  | PBool b => Some (if b then 1 else 0, 0)
  | PInt z => Some (z, 0)
  | PFloat m e => Some (m, e)
  | _ => None
  end.

Definition num_compare (x y : Z * Z) : comparison :=
  let e := Z.min x.2 y.2 in
  Z.compare (x.1 * 2 ^ (x.2 - e)) (y.1 * 2 ^ (y.2 - e)).

(** [v == w] *)
Fixpoint py_eq (v w : pyval) : bool :=
  match number v, number w with
  | Some x, Some y => match num_compare x y with Eq => true | _ => false end
  | _, _ =>
      match v, w with
      | PNone, PNone => true
      | PStr s, PStr t => bool_decide (s = t)
      | PList l, PList k =>
          (fix eqs (l k : list pyval) : bool :=
             match l, k with
             | [], [] => true
             | x :: l, y :: k => py_eq x y && eqs l k
             | _, _ => false
             end) l k
      | PDict d, PDict f =>
          (length d =? length f)%nat &&
          (fix eqs (d : pydict) : bool :=
             match d with
             | [] => true
             | (k, x) :: d => match od_get k f with Some y => py_eq x y | None => false end && eqs d
             end) d
      | _, _ => false
      end
  end.

Inductive order := OLt | OLe | OGt | OGe.

Definition holds (o : order) (c : comparison) : bool :=
  match o, c with
  | OLt, Lt | OLe, Lt | OLe, Eq | OGt, Gt | OGe, Gt | OGe, Eq => true
  | _, _ => false
  end.

(** [v < w] and the like; [None] is [TypeError]. *)
Fixpoint py_order (o : order) (v w : pyval) : option bool :=
  match number v, number w with
  | Some x, Some y => Some (holds o (num_compare x y))
  | _, _ =>
      match v, w with
      | PStr s, PStr t => Some (holds o (String.compare s t))
      | PList l, PList k =>
          (fix lex (l k : list pyval) : option bool :=
             match l, k with
             | x :: l, y :: k => if py_eq x y then lex l k else py_order o x y
             | [], [] => Some (holds o Eq)
             | [], _ :: _ => Some (holds o Lt)
             | _ :: _, [] => Some (holds o Gt)
             end) l k
      | _, _ => None
      end
  end.

Definition hashable (v : pyval) : bool :=
  match v with PList _ | PDict _ => false | _ => true end.

(** The text of a string, and back. *)
Definition untx (t : text) : string := String.string_of_list_ascii t.

Lemma untx_tx s : untx (tx s) = s.
Proof. apply String.string_of_list_ascii_of_string. Qed.

Definition str_strip (s : string) : string := untx (strip (tx s)).

(** [str.lower] on Latin-1 code points. *)
Definition lower_char (a : Ascii.ascii) : Ascii.ascii :=
  let n := Ascii.nat_of_ascii a in
  if (((65 <=? n) && (n <=? 90)) || ((192 <=? n) && (n <=? 222) && negb (n =? 215)))%nat then Ascii.ascii_of_nat (n + 32) else a.

Definition str_lower (s : string) : string := untx (map lower_char (tx s)).

(** [p in t] for texts. *)
Fixpoint infix (p t : text) : bool :=
  startswith t p || match t with [] => false | _ :: t => infix p t end.

(** [v in w]; [None] is [TypeError]. *)
Definition py_in (v w : pyval) : option bool :=
  match w with
  | PStr t => match v with PStr s => Some (infix (tx s) (tx t)) | _ => None end
  | PList l => Some (existsb (λ x, py_eq v x) l)
  | PDict d => if hashable v then match v with PStr s => Some (bool_decide (is_Some (od_get s d)))
                                  | _ => Some false end
               else None
  | _ => None
  end.

Definition type_name (v : pyval) : string :=
  match v with
  | PNone => "NoneType" | PBool _ => "bool" | PInt _ => "int" | PFloat _ _ => "float"
  | PStr _ => "str" | PList _ => "list" | PDict _ => "dict"
  end.

(** ** Products of doubles *)

(** The nearest integer multiple with 53 significant bits, half to even. *)
Definition round53 (n : Z) : Z :=
  let d := Z.log2 n - 52 in
  if d <=? 0 then n else
  let q := n / 2 ^ d in
  let r := 2 * (n mod 2 ^ d) in
  (if (2 ^ d <? r) || (r =? 2 ^ d) && Z.odd q then q + 1 else q) * 2 ^ d.

(** [int(n * x)] for a double [x] of mantissa [m] and exponent [-e], [n] and [x] not negative. *)
Definition int_times (m e n : Z) : Z := round53 (round53 n * m) / 2 ^ e.
