(* ===== verification/Guards.v ===== *)
(** Harness guards between the model and tool dispatch: [cognis/core/harness_guards.py].

    [LoopGuardState] and [SameTurnToolCallLedger] are records of their attributes.
    JSON encoding ([json_codec.dumps] with [default=str], total on JSON-like
    values), the digests and [repr] of a string are parameters. *)

From S2P Require Import Prelude PyVal.

Section Guards.
Context (dumps dumps_sorted : pyval → string) (sha256_hex sha1_hex : string → string)
        (repr_str : string → string) (repr_float : Z → Z → string).

(** ** Loop guard *)

Record LoopGuardState := MkLoopGuard {
  last_key : option (string * string);
  last_result_hash : option string;
  identical_result_streak : Z;
  exemptions : gset string;
}.

Definition loop_guard_init (exempt : gset string) : LoopGuardState := MkLoopGuard None None 0 exempt.

Definition _LOOP_GUARD_EXEMPT_TOOLS : list string :=
  ["agent_conversation_get"; "agent_conversation_wait"; "bash_output"; "get_subsession";
   "memory_list"; "memory_recent"; "memory_search"; "memory_find";
   "step_request_questions"; "request_credential"; "request_auth_challenge"].

(** [arguments: dict | None]; [None] and the empty dictionary are alike. *)
Definition _canonical_args (arguments : pydict) : string :=
  if bool_decide (arguments = []) then "{}" else dumps_sorted (PDict arguments).

Definition str_prefix (n : nat) (s : string) : string := String.substring 0 n s.

Definition _args_hash (tool_name : string) (arguments : pydict) : string :=
  str_prefix 32 (sha256_hex (tool_name +:+ "::" +:+ _canonical_args arguments)).

Definition tool_call_argument_fingerprint (tool_name : string) (arguments : pydict) : string :=
  _args_hash tool_name arguments.

Definition exempt (state : LoopGuardState) (tool_name : string) : bool :=
  bool_decide (tool_name ∈ _LOOP_GUARD_EXEMPT_TOOLS) || bool_decide (tool_name ∈ exemptions state).

Definition check_loop_guard (state : LoopGuardState) (tool_name : string) (arguments : pydict)
    : option string :=
  if exempt state tool_name then None
  else
    let key := (tool_name, _args_hash tool_name arguments) in
    if bool_decide (last_key state = Some key) && (2 <=? identical_result_streak state) then
      Some ("Detected repeated identical tool calls with identical results — " +:+
            "'" +:+ tool_name +:+ "' was called with the same arguments and produced no " +:+
            "new information. Proceed with a different concrete action, update " +:+
            "the todo list, or call step_complete if the objective is done. Do " +:+
            "not retry the same call.")
    else None.

Definition record_tool_call (state : LoopGuardState) (tool_name : string) (arguments : pydict)
    : LoopGuardState := state.

Definition _result_hash (r : pyval) : string := str_prefix 16 (sha1_hex (dumps_sorted r)).

Definition record_tool_result (state : LoopGuardState) (tool_name : string) (arguments : pydict)
    (r : pyval) : LoopGuardState :=
  if exempt state tool_name then state
  else
    let key := (tool_name, _args_hash tool_name arguments) in
    let result_hash := _result_hash r in
    if bool_decide (last_key state = Some key)
       && bool_decide (last_result_hash state = Some result_hash)
    then MkLoopGuard (last_key state) (last_result_hash state)
           (identical_result_streak state + 1) (exemptions state)
    else MkLoopGuard (Some key) (Some result_hash) 1 (exemptions state).

Definition loop_guard_rejection_payload (tool_name : string) (arguments : pydict) (message : string)
    : string :=
  dumps (PDict [("status", PStr "rejected"); ("reason", PStr "loop_detected");
                ("message", PStr message); ("tool", PStr tool_name)]).

(** ** Ledger of executed calls *)

Record SameTurnToolCallLedger := Ledger {
  executed : gset (string * string);
  uncertain : gset (string * string);
}.

Definition ledger_init : SameTurnToolCallLedger := Ledger ∅ ∅.

Definition record_fingerprint (l : SameTurnToolCallLedger) (tool_name fingerprint : string)
    : SameTurnToolCallLedger :=
  Ledger ({[(tool_name, fingerprint)]} ∪ executed l) (uncertain l ∖ {[(tool_name, fingerprint)]}).

Definition record (l : SameTurnToolCallLedger) (tool_name : string) (arguments : pydict)
    : SameTurnToolCallLedger :=
  record_fingerprint l tool_name (tool_call_argument_fingerprint tool_name arguments).

Definition record_uncertain_fingerprint (l : SameTurnToolCallLedger) (tool_name fingerprint : string)
    : SameTurnToolCallLedger :=
  let key := (tool_name, fingerprint) in
  if bool_decide (key ∉ executed l) then Ledger (executed l) ({[key]} ∪ uncertain l) else l.

Definition record_uncertain (l : SameTurnToolCallLedger) (tool_name : string) (arguments : pydict)
    : SameTurnToolCallLedger :=
  record_uncertain_fingerprint l tool_name (tool_call_argument_fingerprint tool_name arguments).

Definition already_executed (l : SameTurnToolCallLedger) (tool_name : string) (arguments : pydict) : bool :=
  bool_decide ((tool_name, tool_call_argument_fingerprint tool_name arguments) ∈ executed l).

Definition uncertain_outcome (l : SameTurnToolCallLedger) (tool_name : string) (arguments : pydict) : bool :=
  bool_decide ((tool_name, tool_call_argument_fingerprint tool_name arguments) ∈ uncertain l).

Definition consume_uncertain (l : SameTurnToolCallLedger) (tool_name : string) (arguments : pydict)
    : SameTurnToolCallLedger * bool :=
  let key := (tool_name, tool_call_argument_fingerprint tool_name arguments) in
  if bool_decide (key ∈ uncertain l) then (Ledger (executed l) (uncertain l ∖ {[key]}), true)
  else (l, false).

Definition seed_from (l : SameTurnToolCallLedger) (other : option SameTurnToolCallLedger)
    : SameTurnToolCallLedger :=
  match other with
  | None => l
  | Some other =>
      let executed' := executed l ∪ executed other in
      Ledger executed' (uncertain l ∪ (uncertain other ∖ executed'))
  end.

Definition same_turn_duplicate_rejection_payload (tool_name : string) (arguments : pydict) : string :=
  dumps (PDict [("status", PStr "skipped"); ("reason", PStr "duplicate_tool_call_same_turn_lineage");
    ("message", PStr ("This exact '" +:+ tool_name +:+ "' call already executed successfully " +:+
      "earlier in this turn (or a turn it was retried/continued from) " +:+
      "and was NOT executed again to avoid a duplicate side effect. " +:+
      "Use the earlier result, or make a different concrete call."));
    ("tool", PStr tool_name)]).

Definition uncertain_outcome_rejection_payload (tool_name : string) (arguments : pydict) : string :=
  dumps (PDict [("status", PStr "blocked_uncertain_outcome");
    ("reason", PStr "previous_identical_call_outcome_unknown");
    ("message", PStr ("An earlier identical '" +:+ tool_name +:+ "' call was accepted by the " +:+
      "executor but its outcome is UNKNOWN (the executor connection " +:+
      "was lost and the result could not be recovered). It was NOT " +:+
      "re-executed automatically because it may have performed side " +:+
      "effects. First verify whether the earlier call took effect " +:+
      "(inspect the expected outcome). If you then still need to run " +:+
      "it, re-issue the exact same call once more and it will " +:+ "execute."));
    ("tool", PStr tool_name)]).

(** ** Argument sanity *)

Record ArgumentSanityViolation := Violation { reason : string; message : string }.

Definition _DISALLOWED_FILE_PATHS : list string :=
  ["/dev/null"; "/dev/zero"; "/dev/random"; "/dev/urandom"].

Definition _PLACEHOLDER_IDENTIFIERS : list string :=
  ["dummy"; "placeholder"; "example"; "<call_id>"; "<id>"; "..."].

Definition _as_str (value : pyval) : string :=
  match value with PNone => "" | _ => py_str repr_str repr_float value end.

Definition _READER_TOOLS : list string :=
  ["list_tool_output_anchors"; "read_tool_output_anchor"; "read_tool_output"; "search_tool_output"].

(** The first rule. *)
Definition check_call_id (tool_name : string) (arguments : pydict) : option ArgumentSanityViolation :=
  if bool_decide (tool_name ∈ _READER_TOOLS) then
    let call_id := str_strip (_as_str (dict_get "call_id" arguments)) in
    if bool_decide (call_id = "") then
      Some (Violation "invalid_call_id" (tool_name +:+ " requires a real prior tool call_id. " +:+
        "Omit this call if you do not have one; never pass an " +:+ "empty string."))
    else if bool_decide (str_lower call_id ∈ _PLACEHOLDER_IDENTIFIERS) then
      Some (Violation "invalid_call_id" (tool_name +:+ " was called with a placeholder call_id " +:+
        "(" +:+ repr_str call_id +:+ "). Use the actual call_id string from a " +:+
        "prior tool_call event, or do not call this tool."))
    else None
  else None.

Definition device_violation (tool_name target : string) : ArgumentSanityViolation :=
  Violation "invalid_file_path" (tool_name +:+ " cannot target special device file " +:+
    repr_str target +:+ ". Supply an actual file path, or do not " +:+
    "call this tool if no file change is required.").

Definition check_target (tool_name target : string) : option ArgumentSanityViolation :=
  if bool_decide (target ∈ _DISALLOWED_FILE_PATHS) then Some (device_violation tool_name target) else None.

(** The first rejection of a list of checks made in order. *)
Fixpoint first_violation {A} (f : A → option ArgumentSanityViolation) (l : list A)
    : option ArgumentSanityViolation :=
  match l with
  | [] => None
  | x :: l => match f x with Some v => Some v | None => first_violation f l end
  end.

Definition is_line_break (a : Ascii.ascii) : bool :=
  let n := Ascii.nat_of_ascii a in
  ((10 <=? n) && (n <=? 13))%nat || ((28 <=? n) && (n <=? 30))%nat || (n =? 133)%nat.

(** [str.splitlines]; [cur] is the current line, reversed. *)
Fixpoint splitlines_from (cur t : text) : list text :=
  match t with
  | [] => match cur with [] => [] | _ => [reverse cur] end
  | a :: t =>
      if is_line_break a then
        reverse cur ::
          match t with
          | b :: t' =>
              if (Ascii.nat_of_ascii a =? 13)%nat && (Ascii.nat_of_ascii b =? 10)%nat
              then splitlines_from [] t' else splitlines_from [] t
          | [] => splitlines_from [] t
          end
      else splitlines_from (a :: cur) t
  end.

Definition _PATCH_PREFIXES : list string :=
  ["*** Add File: "; "*** Update File: "; "*** Delete File: "; "*** Move to: "].

Definition check_patch_prefix (tool_name : string) (line : text) (prefix : string)
    : option ArgumentSanityViolation :=
  if negb (startswith line (tx prefix)) then None
  else check_target tool_name (untx (strip (drop (length (tx prefix)) line))).

Definition check_diff_prefix (tool_name : string) (line : text) (prefix : string)
    : option ArgumentSanityViolation :=
  if negb (startswith line (tx prefix)) then None
  else
    let target := strip (drop (length (tx prefix)) line) in
    let target := if startswith target (tx "a/") || startswith target (tx "b/")
                  then drop 2 target else target in
    check_target tool_name (untx target).

Definition check_patch_line (tool_name : string) (line : text) : option ArgumentSanityViolation :=
  match first_violation (check_patch_prefix tool_name line) _PATCH_PREFIXES with
  | Some v => Some v
  | None => first_violation (check_diff_prefix tool_name line) ["--- "; "+++ "]
  end.

Definition check_patch (tool_name : string) (arguments : pydict) : option ArgumentSanityViolation :=
  match match dict_get "operation" arguments with
        | PDict operation => check_target tool_name (str_strip (_as_str (dict_get "path" operation)))
        | _ => None
        end with
  | Some v => Some v
  | None => first_violation (check_patch_line tool_name)
              (splitlines_from [] (tx (_as_str (dict_get "patchText" arguments))))
  end.

Definition _WRITE_TOOLS : list string := ["write"; "edit"; "multiedit"; "apply_patch"].

(** The second rule. *)
Definition check_file_path (tool_name : string) (arguments : pydict) : option ArgumentSanityViolation :=
  if bool_decide (tool_name ∈ _WRITE_TOOLS) then
    match check_target tool_name (str_strip (_as_str (dict_get "file_path" arguments))) with
    | Some v => Some v
    | None => if bool_decide (tool_name = "apply_patch") then check_patch tool_name arguments else None
    end
  else None.

Definition check_edits (tool_name : string) (arguments : pydict) : option ArgumentSanityViolation :=
  if bool_decide (tool_name = "multiedit") then
    match dict_get "edits" arguments with
    | PList (_ :: _) => None
    | _ => Some (Violation "empty_edits" ("multiedit requires at least one edit. Pass a non-empty " +:+
             "edits list, or use the edit tool for a single change, " +:+
             "or do not call this tool if no change is required."))
    end
  else None.

Definition check_argument_sanity (tool_name : string) (arguments : pydict)
    : option ArgumentSanityViolation :=
  match check_call_id tool_name arguments with
  | Some v => Some v
  | None =>
      match check_file_path tool_name arguments with
      | Some v => Some v
      | None => check_edits tool_name arguments
      end
  end.

Definition argument_sanity_rejection_payload (tool_name : string) (arguments : pydict)
    (violation : ArgumentSanityViolation) : string :=
  let received_repr := str_prefix 500 (dumps (PDict arguments)) in
  dumps (PDict [("status", PStr "rejected"); ("reason", PStr (reason violation));
    ("message", PStr (message violation)); ("tool", PStr tool_name); ("received", PStr received_repr)]).

(** ** The loop guard over a history *)

(** Completed calls in order: tool, arguments, model-visible result. *)
Definition observe (state : LoopGuardState) (x : string * pydict * pyval) : LoopGuardState :=
  record_tool_result state x.1.1 x.1.2 x.2.

(** The identities of the calls the guard watches. *)
Definition watched (ex : gset string) (tr : list (string * pydict * pyval))
    : list (string * string * string) :=
  map (λ x, (x.1.1, _args_hash x.1.1 x.1.2, _result_hash x.2))
    (filter (λ x, exempt (loop_guard_init ex) x.1.1 = false) tr).

(** The length of the run of [x] a list starts with. *)
Fixpoint run_length (x : string * string * string) (l : list (string * string * string)) : nat :=
  match l with
  | y :: l => if decide (y = x) then S (run_length x l) else 0
  | [] => 0
  end.

Lemma watched_snoc ex tr x :
  watched ex (tr ++ [x]) =
  watched ex tr ++ (if exempt (loop_guard_init ex) x.1.1 then []
                    else [(x.1.1, _args_hash x.1.1 x.1.2, _result_hash x.2)]).
Proof.
  unfold watched. rewrite filter_app, map_app. f_equal. rewrite filter_cons.
  destruct (exempt _ _); [by rewrite decide_False|by rewrite decide_True].
Qed.

Lemma observed_state ex tr :
  run observe (loop_guard_init ex) tr =
  match reverse (watched ex tr) with
  | [] => loop_guard_init ex
  | (x :: _) as l => MkLoopGuard (Some x.1) (Some x.2) (run_length x l) ex
  end.
Proof.
  induction tr as [|x tr IH] using rev_ind; [done|].
  rewrite run_app, IH, watched_snoc. simpl. unfold observe, record_tool_result.
  assert (∀ s, exemptions s = ex → exempt s x.1.1 = exempt (loop_guard_init ex) x.1.1) as Hex
    by (intros s Hs; unfold exempt; by rewrite Hs).
  rewrite Hex by by destruct (reverse _).
  destruct (exempt _ _); [by rewrite app_nil_r|]. rewrite reverse_snoc.
  destruct (reverse (watched ex tr)) as [|y l]; simpl; [by rewrite decide_True|].
  rewrite decide_True by done. destruct y as [k r]. simpl.
  destruct (decide (k = (x.1.1, _args_hash x.1.1 x.1.2) ∧ r = _result_hash x.2)) as [[-> ->]|Hne].
  - rewrite !bool_decide_true by done. rewrite !decide_True by done. simpl. f_equal. lia.
  - rewrite (decide_True (P := (x.1.1, _args_hash x.1.1 x.1.2, _result_hash x.2) = _)) by done.
    case_decide as Heq; [exfalso; apply Hne; by injection Heq|].
    replace (bool_decide (Some k = _) && _) with false; [done|].
    symmetry. apply andb_false_iff. rewrite !bool_decide_eq_false. 
    destruct (decide (k = (x.1.1, _args_hash x.1.1 x.1.2))) as [->|]; [right|left]; intros [=]; subst; tauto.
Qed.

(** The loop guard stops a call exactly when the two latest watched calls were
    that same call (tool and argument fingerprint) and returned the same result;
    exempt tools are neither stopped nor counted, and one different call or result
    in between lifts the block. *)
Theorem loop_guard_trips_iff ex tr tool_name arguments :
  check_loop_guard (run observe (loop_guard_init ex) tr) tool_name arguments ≠ None ↔
  exempt (loop_guard_init ex) tool_name = false ∧
  ∃ r, [(tool_name, _args_hash tool_name arguments, r); (tool_name, _args_hash tool_name arguments, r)]
         `suffix_of` watched ex tr.
Proof.
  rewrite observed_state. unfold check_loop_guard.
  assert (exempt match reverse (watched ex tr) with
    | [] => loop_guard_init ex
    | (x :: _) as l => MkLoopGuard (Some x.1) (Some x.2) (run_length x l) ex end tool_name =
    exempt (loop_guard_init ex) tool_name) as -> by (by destruct (reverse _)).
  destruct (exempt _ _); [naive_solver|].
  set (key := (tool_name, _args_hash tool_name arguments)).
  assert (∀ r l, reverse (watched ex tr) = (key, r) :: (key, r) :: l ↔
                 watched ex tr = reverse l ++ [(key, r); (key, r)]) as Hrev.
  { intros r l. split; intros Heq.
    - rewrite <- (reverse_involutive (watched ex tr)), Heq, !reverse_cons. by rewrite <- app_assoc.
    - rewrite Heq, reverse_app. by rewrite reverse_involutive. }
  split.
  - intros Hc. split; [done|]. destruct (reverse (watched ex tr)) as [|[k r] [|y l]]; simpl in Hc; try done.
    { rewrite decide_True in Hc by done. by rewrite andb_false_r in Hc. }
    rewrite decide_True in Hc by done. case_match eqn:Hg; [|done]. bool_facts. simplify_eq.
    destruct (decide (y = (key, r))) as [->|]; [|simpl in *; lia].
    exists r, (reverse l). by apply Hrev.
  - intros (_ & r & l & Hl). 
    assert (reverse (watched ex tr) = (key, r) :: (key, r) :: reverse l) as ->
      by (apply Hrev; by rewrite reverse_involutive).
    simpl. rewrite !decide_True by done. rewrite bool_decide_true by done.
    rewrite (proj2 (Z.leb_le _ _)) by lia. done.
Qed.

(** ** The ledger over a history *)

Inductive ledger_op :=
| LRecord (tool_name : string) (arguments : pydict)
| LUncertain (tool_name : string) (arguments : pydict)
| LConsume (tool_name : string) (arguments : pydict).

Definition ledger_exec (l : SameTurnToolCallLedger) (op : ledger_op) : SameTurnToolCallLedger :=
  match op with
  | LRecord t a => record l t a
  | LUncertain t a => record_uncertain l t a
  | LConsume t a => (consume_uncertain l t a).1
  end.

Definition identity (tool_name : string) (arguments : pydict) : string * string :=
  (tool_name, tool_call_argument_fingerprint tool_name arguments).

Definition recorded (key : string * string) (op : ledger_op) : Prop :=
  match op with LRecord t a => identity t a = key | _ => False end.

Definition marked (key : string * string) (op : ledger_op) : Prop :=
  match op with LUncertain t a => identity t a = key | _ => False end.

Definition disjoint_ledger (l : SameTurnToolCallLedger) : Prop := executed l ## uncertain l.

Ltac ledger_cases :=
  unfold record, record_fingerprint, record_uncertain, record_uncertain_fingerprint,
    consume_uncertain, disjoint_ledger in *;
  repeat (case_match; bool_facts); simpl in *.

Lemma ledger_exec_disjoint l op : disjoint_ledger l → disjoint_ledger (ledger_exec l op).
Proof. destruct op; simpl; ledger_cases; set_solver. Qed.

Lemma ledger_exec_executed l op key :
  key ∈ executed (ledger_exec l op) ↔ key ∈ executed l ∨ recorded key op.
Proof. destruct op; simpl; unfold identity; ledger_cases; set_solver. Qed.

Lemma ledger_run_executed l tr key :
  key ∈ executed (run ledger_exec l tr) ↔ key ∈ executed l ∨ Exists (recorded key) tr.
Proof.
  revert l. induction tr as [|op tr IH]; intros l; simpl.
  - rewrite Exists_nil. tauto.
  - rewrite Exists_cons, IH, ledger_exec_executed. tauto.
Qed.

Lemma ledger_unmarked l op key :
  key ∉ uncertain l → ¬ marked key op → key ∉ uncertain (ledger_exec l op).
Proof. destruct op; simpl; unfold identity; ledger_cases; set_solver. Qed.

(** The ledger of a retried turn, seeded from its source turn: it reports a call
    as already executed exactly when the source turn or this one recorded its
    execution; no call is both executed and uncertain, so a confirmed execution
    always supersedes uncertainty; and an uncertain call is held back once, not
    again unless its outcome is lost again. *)
Theorem ledger_lineage other tr :
  disjoint_ledger other →
  let l := run ledger_exec (seed_from ledger_init (Some other)) tr in
  disjoint_ledger l ∧
  (∀ t a, already_executed l t a = true ↔
     already_executed other t a = true ∨ Exists (recorded (identity t a)) tr) ∧
  (∀ t a tr', Forall (λ op, ¬ marked (identity t a) op) tr' →
     (consume_uncertain (run ledger_exec (consume_uncertain l t a).1 tr') t a).2 = false).
Proof.
  intros Hother l. split_and!.
  - apply (run_invariant ledger_exec disjoint_ledger); [|intros; by apply ledger_exec_disjoint].
    unfold disjoint_ledger in *. simpl. set_solver.
  - intros t a. unfold already_executed. rewrite !bool_decide_eq_true. subst l.
    rewrite ledger_run_executed. simpl. fold (identity t a). set_solver.
  - intros t a tr' Htr'.
    assert (identity t a ∉ uncertain (run ledger_exec (consume_uncertain l t a).1 tr')) as Hno.
    { apply (run_invariant_when ledger_exec (λ l, identity t a ∉ uncertain l)
        (λ op, ¬ marked (identity t a) op)); [|done|].
      - unfold consume_uncertain. fold (identity t a). case_bool_decide; simpl; set_solver.
      - intros s op Hop Hs. by apply ledger_unmarked. }
    unfold consume_uncertain at 1. fold (identity t a). by rewrite bool_decide_false.
Qed.

(** ** What the sanity gate lets through *)

(** The side prefix of a unified diff header is dropped. *)
Definition strip_side (target : text) : text :=
  if startswith target (tx "a/") || startswith target (tx "b/") then drop 2 target else target.

(** A line of a patch names a file. *)
Inductive names_file : text → string → Prop :=
| names_marker prefix rest :
    prefix ∈ _PATCH_PREFIXES → names_file (tx prefix ++ rest) (untx (strip rest))
| names_side prefix rest :
    prefix ∈ ["--- "; "+++ "] → names_file (tx prefix ++ rest) (untx (strip_side (strip rest))).

Lemma first_violation_none {B} (f : B → option ArgumentSanityViolation) l :
  first_violation f l = None ↔ ∀ x, x ∈ l → f x = None.
Proof.
  induction l as [|x l IH]; simpl.
  - split; [intros _ x Hx; by apply not_elem_of_nil in Hx|done].
  - destruct (f x) eqn:Hf.
    + split; [done|]. intros Hall. specialize (Hall x (list_elem_of_here _ _)). congruence.
    + rewrite IH. split.
      * intros Hall y [->|Hy]%elem_of_cons; auto.
      * intros Hall y Hy. apply Hall. by constructor.
Qed.

Lemma check_target_none t target :
  check_target t target = None ↔ target ∉ _DISALLOWED_FILE_PATHS.
Proof. unfold check_target. case_bool_decide; naive_solver. Qed.

Lemma prefix_check_none (line : text) (prefix : string) (f : text → option ArgumentSanityViolation) :
  (if negb (startswith line (tx prefix)) then None else f (drop (length (tx prefix)) line)) = None ↔
  ∀ rest, line = tx prefix ++ rest → f rest = None.
Proof.
  unfold startswith. case_bool_decide as Hp; simpl.
  - destruct Hp as [k ->]. rewrite drop_app_length. split; [|by intros ->].
    intros Hk rest ?%(inj (app _)). by subst.
  - split; [|done]. intros _ rest ->. exfalso. apply Hp. by apply prefix_app_r.
Qed.

Lemma check_patch_line_none t line :
  check_patch_line t line = None ↔ ∀ target, names_file line target → target ∉ _DISALLOWED_FILE_PATHS.
Proof.
  unfold check_patch_line.
  assert (first_violation (check_patch_prefix t line) _PATCH_PREFIXES = None ↔
    ∀ prefix rest, prefix ∈ _PATCH_PREFIXES → line = tx prefix ++ rest →
      untx (strip rest) ∉ _DISALLOWED_FILE_PATHS) as H1.
  { rewrite first_violation_none. setoid_rewrite <- (check_target_none t).
    unfold check_patch_prefix. setoid_rewrite (prefix_check_none line _ (λ r, check_target t (untx (strip r)))).
    naive_solver. }
  assert (first_violation (check_diff_prefix t line) ["--- "; "+++ "] = None ↔
    ∀ prefix rest, prefix ∈ ["--- "; "+++ "] → line = tx prefix ++ rest →
      untx (strip_side (strip rest)) ∉ _DISALLOWED_FILE_PATHS) as H2.
  { rewrite first_violation_none. setoid_rewrite <- (check_target_none t).
    unfold check_diff_prefix.
    setoid_rewrite (prefix_check_none line _ (λ r, check_target t (untx (strip_side (strip r))))).
    naive_solver. }
  destruct (first_violation (check_patch_prefix t line) _PATCH_PREFIXES) as [v|].
  - split; [done|]. intros Hall. exfalso. enough (Some v = None) by done. apply H1.
    intros prefix rest Hp ->. apply Hall. by constructor.
  - rewrite H2. split.
    + intros Hall target Hn. inversion Hn; subst; [by eapply H1|by eapply Hall].
    + intros Hall prefix rest Hp ->. apply Hall. by constructor.
Qed.

(** The argument gate lets a call through exactly when: a tool-output reader names
    a call id that is not blank and not a placeholder; a write tool targets no
    device file; a patch names none in its operation nor in any line of its text,
    marker or diff header; and a multiedit carries at least one edit. *)
Theorem check_argument_sanity_passes_iff t args :
  check_argument_sanity t args = None ↔
  (t ∈ _READER_TOOLS →
     let call_id := str_strip (_as_str (dict_get "call_id" args)) in
     call_id ≠ "" ∧ str_lower call_id ∉ _PLACEHOLDER_IDENTIFIERS) ∧
  (t ∈ _WRITE_TOOLS → str_strip (_as_str (dict_get "file_path" args)) ∉ _DISALLOWED_FILE_PATHS) ∧
  (t = "apply_patch" →
     (∀ operation, dict_get "operation" args = PDict operation →
        str_strip (_as_str (dict_get "path" operation)) ∉ _DISALLOWED_FILE_PATHS) ∧
     ∀ line target, line ∈ splitlines_from [] (tx (_as_str (dict_get "patchText" args))) →
        names_file line target → target ∉ _DISALLOWED_FILE_PATHS) ∧
  (t = "multiedit" → ∃ e es, dict_get "edits" args = PList (e :: es)).
Proof.
  assert (check_call_id t args = None ↔ (t ∈ _READER_TOOLS →
     let call_id := str_strip (_as_str (dict_get "call_id" args)) in
     call_id ≠ "" ∧ str_lower call_id ∉ _PLACEHOLDER_IDENTIFIERS)) as H1.
  { unfold check_call_id. repeat case_bool_decide; naive_solver. }
  assert (check_patch t args = None ↔
     (∀ operation, dict_get "operation" args = PDict operation →
        str_strip (_as_str (dict_get "path" operation)) ∉ _DISALLOWED_FILE_PATHS) ∧
     ∀ line target, line ∈ splitlines_from [] (tx (_as_str (dict_get "patchText" args))) →
        names_file line target → target ∉ _DISALLOWED_FILE_PATHS) as H2.
  { unfold check_patch. set (first := match dict_get _ _ with PDict _ => _ | _ => _ end).
    assert (first = None ↔ ∀ operation, dict_get "operation" args = PDict operation →
        str_strip (_as_str (dict_get "path" operation)) ∉ _DISALLOWED_FILE_PATHS) as Hf.
    { subst first. destruct (dict_get "operation" args); try naive_solver.
      rewrite check_target_none. naive_solver. }
    destruct first as [v|]; [naive_solver|]. rewrite first_violation_none.
    setoid_rewrite check_patch_line_none. naive_solver. }
  assert (check_file_path t args = None ↔
    (t ∈ _WRITE_TOOLS → str_strip (_as_str (dict_get "file_path" args)) ∉ _DISALLOWED_FILE_PATHS) ∧
    (t = "apply_patch" → check_patch t args = None)) as H3.
  { unfold check_file_path. case_bool_decide as Hw.
    - rewrite <- (check_target_none t). destruct (check_target t _); [naive_solver|].
      case_bool_decide; naive_solver.
    - split; [|done]. intros _. split; [done|]. intros ->. exfalso. apply Hw.
      by repeat constructor. }
  assert (check_edits t args = None ↔
    (t = "multiedit" → ∃ e es, dict_get "edits" args = PList (e :: es))) as H4.
  { unfold check_edits. case_bool_decide; [|naive_solver].
    destruct (dict_get "edits" args) as [| | | | |[]|]; naive_solver. }
  unfold check_argument_sanity. rewrite <- H1, <- H4.
  destruct (check_call_id t args); [naive_solver|]. rewrite H2 in H3.
  destruct (check_file_path t args); [|tauto]. split; [done|]. intros (_ & ? & ? & _).
  exfalso. enough (Some a = None) by done. tauto.
Qed.
End Guards.

(** ** Witness *)

Lemma ledger_lineage_witness :
  let sha := λ s : string, s in
  let dumps := λ _ : pyval, "x" in
  let other := Ledger {[("bash", "bash::{}")]} ∅ in
  let l := run (ledger_exec dumps sha) (seed_from ledger_init (Some other))
             [LUncertain "write" []; LUncertain "bash" []] in
  already_executed dumps sha l "bash" [] = true ∧
  (consume_uncertain dumps sha l "write" []).2 = true ∧
  (consume_uncertain dumps sha (consume_uncertain dumps sha l "write" []).1 "write" []).2 = false.
Proof.
  intros sha dumps other l.
  destruct (ledger_lineage dumps sha sha sha other [LUncertain "write" []; LUncertain "bash" []])
    as (_ & H1 & H2).
  { unfold disjoint_ledger. simpl. set_solver. }
  split; [|split].
  - apply H1. left. vm_compute. reflexivity.
  - vm_compute. reflexivity.
  - apply (H2 "write" [] []). constructor.
Defined.

(** Seeding a ledger that already holds an uncertain call with a source turn that
    executed it leaves the call both executed and uncertain. *)
Example late_seed_keeps_uncertainty :
  let l := seed_from (Ledger ∅ {[("bash", "f")]}) (Some (Ledger {[("bash", "f")]} ∅)) in
  bool_decide (("bash", "f") ∈ executed l) && bool_decide (("bash", "f") ∈ uncertain l) = true.
Proof. vm_compute. reflexivity. Qed.
