(* ===== verification/Gates.v ===== *)
(** Conditional workflow gates: [cognis/core/gate_conditions.py].

    Expressions are the trees of Python's [ast] module; [ast.parse] is a parameter
    that returns a tree or a syntax error.  Node classes the gate language does not
    know are [Other] with their class name.  Exceptions are values of
    [gate_error], every one of them a [ValueError] whose text is [message]. *)

From S2P Require Import Prelude PyVal.

(** ** Syntax trees *)

Inductive cmpop := Eq_ | NotEq | Lt_ | LtE | Gt_ | GtE | Is | IsNot | In | NotIn.
Inductive unop := Not | UAdd | USub | Invert.

#[global] Instance unop_eq_dec : EqDecision unop.
Proof. solve_decision. Defined.

Inductive expr :=
| Constant (value : pyval)
| List_ (elts : list expr)
| Tuple (elts : list expr)
| Name (id : string)
| Attribute (value : expr) (attr : string)
| BoolOp (is_and : bool) (values : list expr)
| UnaryOp (op : unop) (operand : expr)
| Compare (lhs : expr) (ops : list cmpop) (comparators : list expr)
| Other (class : string).

Definition cmpop_class (op : cmpop) : string :=
  match op with
  | Eq_ => "Eq" | NotEq => "NotEq" | Lt_ => "Lt" | LtE => "LtE" | Gt_ => "Gt" | GtE => "GtE"
  | Is => "Is" | IsNot => "IsNot" | In => "In" | NotIn => "NotIn"
  end.

Definition unop_class (op : unop) : string :=
  match op with Not => "Not" | UAdd => "UAdd" | USub => "USub" | Invert => "Invert" end.

Definition expr_class (e : expr) : string :=
  match e with
  | Constant _ => "Constant" | List_ _ => "List" | Tuple _ => "Tuple" | Name _ => "Name"
  | Attribute _ _ => "Attribute" | BoolOp _ _ => "BoolOp" | UnaryOp _ _ => "UnaryOp"
  | Compare _ _ _ => "Compare" | Other class => class
  end.

(** The nodes [ast.walk] visits: the root, expressions, operators and contexts. *)
Inductive node := NExpression (body : expr) | NExpr (e : expr) | NOp (class : string).

Definition node_class (n : node) : string :=
  match n with NExpression _ => "Expression" | NExpr e => expr_class e | NOp c => c end.

(** [ast.iter_child_nodes]. *)
Definition children (n : node) : list node :=
  match n with
  | NExpression body => [NExpr body]
  | NOp _ => []
  | NExpr e =>
      match e with
      | Constant _ | Other _ => []
      | List_ es | Tuple es => map NExpr es ++ [NOp "Load"]
      | Name _ => [NOp "Load"]
      | Attribute v _ => [NExpr v; NOp "Load"]
      | BoolOp b es => NOp (if b then "And" else "Or") :: map NExpr es
      | UnaryOp op e => [NOp (unop_class op); NExpr e]
      | Compare l ops cs => NExpr l :: map (λ op, NOp (cmpop_class op)) ops ++ map NExpr cs
      end
  end.

Fixpoint expr_size (e : expr) : nat :=
  match e with
  | Constant _ | Other _ => 1
  | List_ es | Tuple es => 2 + sum_list (map expr_size es)
  | Name _ => 2
  | Attribute v _ => 2 + expr_size v
  | BoolOp _ es => 2 + sum_list (map expr_size es)
  | UnaryOp _ e => 2 + expr_size e
  | Compare l ops cs => 1 + expr_size l + length ops + sum_list (map expr_size cs)
  end%nat.

Definition node_size (n : node) : nat :=
  match n with NExpression b => S (expr_size b) | NExpr e => expr_size e | NOp _ => 1 end.

(** [ast.walk]: breadth first from a queue. *)
Fixpoint walk_queue (fuel : nat) (queue : list node) : list node :=
  match fuel, queue with
  | S fuel, n :: queue => n :: walk_queue fuel (queue ++ children n)
  | _, _ => []
  end.

Definition walk (n : node) : list node := walk_queue (node_size n) [n].

(** ** Errors *)

Inductive gate_error :=
| InvalidSyntax (expression : string)
| UnsupportedSyntax (class : string)
| UnsupportedIdentifier (id : string)
| UnsupportedReference
| UnsupportedReferenceTo (parts : list string)
| IncompatibleValues
| UnsupportedComparison (class : string)
| UnknownStep (gate_step step : string)
| UndeclaredMetadata (gate_step step field : string).

#[global] Instance gate_error_eq_dec : EqDecision gate_error.
Proof. solve_decision. Defined.

Section Gates.
Context (ast_parse : string → option expr) (repr_str : string → string).

Definition message (err : gate_error) : string :=
  match err with
  | InvalidSyntax e => "Invalid gate condition syntax: " +:+ repr_str e
  | UnsupportedSyntax c => "Unsupported gate condition syntax: " +:+ c
  | UnsupportedIdentifier i => "Unsupported gate condition identifier: " +:+ i
  | UnsupportedReference => "Unsupported gate condition reference"
  | UnsupportedReferenceTo p => "Unsupported gate condition reference: " +:+ join "." p
  | IncompatibleValues => "Gate condition compared incompatible values"
  | UnsupportedComparison c => "Unsupported gate comparison: " +:+ c
  | UnknownStep g s => "Gate " +:+ repr_str g +:+ " condition references unknown/later step " +:+ repr_str s
  | UndeclaredMetadata g s f =>
      "Gate " +:+ repr_str g +:+ " condition references undeclared metadata " +:+ s +:+ "." +:+ f
  end.

Definition _ALLOWED_AST_NODES : list string :=
  ["Expression"; "BoolOp"; "UnaryOp"; "Compare"; "Name"; "Load"; "Constant"; "List"; "Tuple";
   "Attribute"; "And"; "Or"; "Not"; "Eq"; "NotEq"; "Lt"; "LtE"; "Gt"; "GtE"; "In"; "NotIn"].

(** A node of an unknown class is never allowed. *)
Definition allowed (n : node) : bool :=
  match n with
  | NExpr (Other _) => false
  | _ => bool_decide (node_class n ∈ _ALLOWED_AST_NODES)
  end.

Fixpoint validate_nodes (ns : list node) : result gate_error unit :=
  match ns with
  | [] => Ok tt
  | n :: ns => if allowed n then validate_nodes ns
               else Err (UnsupportedSyntax (node_class n))
  end.

Definition _validate_ast (tree : expr) : result gate_error unit :=
  validate_nodes (walk (NExpression tree)).

(** [_parse] returns the body of the [Expression]. *)
Definition _parse (expression : string) : result gate_error expr :=
  match ast_parse expression with
  | None => Err (InvalidSyntax expression)
  | Some tree => let? _ := _validate_ast tree in Ok tree
  end.

(** ** Evaluation *)

Definition _build_context (step_outputs thresholds : pydict) : pydict :=
  let field name raw := match raw with
                        | PDict d => match od_get name d with Some v => v | None => PDict [] end
                        | _ => PDict []
                        end in
  [("metadata", PDict (foldl (λ d x, od_set x.1 (field "metadata" x.2) d) [] step_outputs));
   ("outputs", PDict (foldl (λ d x, od_set x.1 (field "outputs" x.2) d) [] step_outputs));
   ("thresholds", PDict thresholds)].

Definition _resolve_parts (parts : list string) (context : pydict) : pyval :=
  foldl (λ value part, match value with PDict d => dict_get part d | _ => PNone end)
    (PDict context) parts.

(** Attribute names from the root out; the root is a name, or another expression. *)
Fixpoint attribute_chain (e : expr) : list string * bool :=
  match e with
  | Attribute v a => let '(parts, named) := attribute_chain v in (parts ++ [a], named)
  | Name id => ([id], true)
  | _ => ([], false)
  end.

Definition _attribute_parts (e : expr) : list string := (attribute_chain e).1.

Definition namespaces : list string := ["metadata"; "outputs"; "thresholds"].

Definition _resolve_attribute (e : expr) (context : pydict) : result gate_error pyval :=
  let '(parts, named) := attribute_chain e in
  if negb named then Err UnsupportedReference
  else if bool_decide (head parts ∈ map Some namespaces) then Ok (_resolve_parts parts context)
  else Err (UnsupportedReferenceTo parts).

Definition type_checked (r : option bool) : result gate_error bool :=
  match r with Some b => Ok b | None => Err IncompatibleValues end.

Definition _compare (lhs : pyval) (op : cmpop) (rhs : pyval) : result gate_error bool :=
  match op with
  | Eq_ => Ok (py_eq lhs rhs)
  | NotEq => Ok (negb (py_eq lhs rhs))
  | Lt_ => type_checked (py_order OLt lhs rhs)
  | LtE => type_checked (py_order OLe lhs rhs)
  | Gt_ => type_checked (py_order OGt lhs rhs)
  | GtE => type_checked (py_order OGe lhs rhs)
  | In => type_checked (py_in lhs rhs)
  | NotIn => type_checked (negb <$> py_in lhs rhs)
  | Is | IsNot => Err (UnsupportedComparison (cmpop_class op))
  end.

Fixpoint _eval_node (e : expr) (context : pydict) {struct e} : result gate_error pyval :=
  match e with
  | Constant v => Ok v
  | List_ es | Tuple es => let? vs := result_map (λ e, _eval_node e context) es in Ok (PList vs)
  | Name id => if bool_decide (id ∈ ["true"; "false"]) then Ok (PBool (bool_decide (id = "true")))
               else Err (UnsupportedIdentifier id)
  | Attribute _ _ => _resolve_attribute e context
  | BoolOp is_and es =>
      let? vs := result_map (λ e, _eval_node e context) es in
      Ok (PBool (if is_and then forallb truthy vs else existsb truthy vs))
  | UnaryOp Not e => let? v := _eval_node e context in Ok (PBool (negb (truthy v)))
  | UnaryOp _ _ => Err (UnsupportedSyntax "UnaryOp")
  | Compare l ops cs =>
      let? lhs := _eval_node l context in
      (fix chain (lhs : pyval) (ops : list cmpop) (cs : list expr) {struct cs} : result gate_error pyval :=
         match cs, ops with
         | c :: cs, op :: ops =>
             let? rhs := _eval_node c context in
             let? b := _compare lhs op rhs in
             if b then chain rhs ops cs else Ok (PBool false)
         | _, _ => Ok (PBool true)
         end) lhs ops cs
  | Other class => Err (UnsupportedSyntax class)
  end.

Definition _eval_expression (expression : string) (context : pydict) : result gate_error pyval :=
  let? tree := _parse expression in _eval_node tree context.

(** [any(bool(...) for expr in expressions)] *)
Fixpoint any_true (expressions : list string) (context : pydict) : result gate_error bool :=
  match expressions with
  | [] => Ok false
  | e :: es => let? v := _eval_expression e context in
               if truthy v then Ok true else any_true es context
  end.

Definition evaluate_gate_conditions (expressions : list string) (step_outputs thresholds : pydict)
    : result gate_error bool :=
  if bool_decide (expressions = []) then Ok true
  else any_true expressions (_build_context step_outputs thresholds).

(** ** Observability metadata *)

Fixpoint _safe_gate_value (value : pyval) : pyval :=
  match value with
  | PNone | PBool _ | PInt _ | PFloat _ _ => value
  | PStr s => if (String.length s <=? 200)%nat then value else PStr (String.substring 0 200 s +:+ "...")
  | PList l => PList (take 10 (map _safe_gate_value l))
  | PDict _ => PStr ("<" +:+ type_name value +:+ ">")
  end.

(** One visited node of [_expression_reference_values]: referenced and expected values. *)
Definition add_reference (context : pydict) (acc : pydict * pydict) (n : node) : pydict * pydict :=
  match n with
  | NExpr (Attribute v a as e) =>
      let parts := _attribute_parts e in
      match parts with
      | ns :: _ =>
          if negb (bool_decide (ns ∈ namespaces)) then acc
          else if bool_decide (ns ∈ ["metadata"; "outputs"]) && (length parts <? 3)%nat then acc
          else
            let key := join "." parts in
            let value := _safe_gate_value (_resolve_parts parts context) in
            if bool_decide (ns = "thresholds") then (acc.1, od_set key value acc.2)
            else (od_set key value acc.1, acc.2)
      | [] => acc
      end
  | _ => acc
  end.

Definition _expression_reference_values (tree : expr) (context : pydict) : pydict * pydict :=
  foldl (add_reference context) ([], []) (walk (NExpression tree)).

Definition cmpop_label (op : cmpop) : string :=
  match op with
  | Eq_ => "==" | NotEq => "!=" | Lt_ => "<" | LtE => "<=" | Gt_ => ">" | GtE => ">="
  | In => "in" | NotIn => "not in" | Is => "Is" | IsNot => "IsNot"
  end.

Definition _first_compare_operator (tree : expr) : option string :=
  head (omap (λ n, match n with NExpr (Compare _ (op :: _) _) => Some (cmpop_label op) | _ => None end)
          (walk (NExpression tree))).

Record detail := Detail {
  d_expression : string;
  d_operator : option string;
  d_referenced_values : pydict;
  d_expected_values : pydict;
  d_actual_result : option bool;
  d_passed : bool;
  d_error : option string;
}.

(** One turn of the loop of [evaluate_gate_conditions_detailed]. *)
Definition evaluate_detail (context : pydict) (expression : string) : detail :=
  match _parse expression with
  | Err err => Detail expression None [] [] None false (Some (message err))
  | Ok tree =>
      let '(referenced, expected) := _expression_reference_values tree context in
      let operator := _first_compare_operator tree in
      match _eval_node tree context with
      | Ok v => Detail expression operator referenced expected (Some (truthy v)) (truthy v) None
      | Err err => Detail expression operator referenced expected None false (Some (message err))
      end
  end.

Record detailed := Detailed { conditions : list detail; passed : bool; errors : list string }.

Definition evaluate_gate_conditions_detailed (expressions : list string)
    (step_outputs thresholds : pydict) : detailed :=
  let context := _build_context step_outputs thresholds in
  foldl (λ acc expression,
    let d := evaluate_detail context expression in
    Detailed (conditions acc ++ [d]) (passed acc || d_passed d)
      (match d_error d with Some m => errors acc ++ [m] | None => errors acc end))
    (Detailed [] (bool_decide (expressions = [])) []) expressions.

(** ** Validation of a workflow *)

Record step := Step { step_name : string; gate : list string; metadata_fields : list string }.

(** [_references] *)
Definition _references (tree : expr) : list (string * string * string) :=
  omap (λ n, match n with
             | NExpr (Attribute v a as e) =>
                 match _attribute_parts e with
                 | ns :: s :: f :: _ =>
                     if bool_decide (ns ∈ ["metadata"; "outputs"]) then Some (ns, s, f) else None
                 | _ => None
                 end
             | _ => None
             end) (walk (NExpression tree)).

Definition check_reference (name : string) (seen : gmap string (list string))
    (ref : string * string * string) : result gate_error unit :=
  let '(ns, s, f) := ref in
  match seen !! s with
  | None => Err (UnknownStep name s)
  | Some fields => if bool_decide (ns = "metadata") && bool_decide (f ∉ fields)
                   then Err (UndeclaredMetadata name s f) else Ok tt
  end.

Fixpoint all_ok {A} (f : A → result gate_error unit) (l : list A) : result gate_error unit :=
  match l with
  | [] => Ok tt
  | x :: l => let? _ := f x in all_ok f l
  end.

Definition check_condition (name : string) (seen : gmap string (list string)) (expression : string)
    : result gate_error unit :=
  let? tree := _parse expression in all_ok (check_reference name seen) (_references tree).

(** [seen_steps] and [metadata_fields] have the same keys. *)
Fixpoint validate_steps (seen : gmap string (list string)) (steps : list step)
    : result gate_error unit :=
  match steps with
  | [] => Ok tt
  | s :: steps =>
      let? _ := all_ok (check_condition (step_name s) seen) (gate s) in
      validate_steps (<[step_name s := metadata_fields s]> seen) steps
  end.

Definition validate_gate_conditions (steps : list step) : result gate_error unit :=
  validate_steps ∅ steps.

(** ** Walking visits every node *)

Inductive within : node → node → Prop :=
| within_refl n : within n n
| within_child n c m : c ∈ children n → within m c → within m n.

Lemma sum_list_app' (l k : list nat) : sum_list (l ++ k) = (sum_list l + sum_list k)%nat.
Proof. induction l; simpl; lia. Qed.

Lemma sum_exprs (es : list expr) : sum_list (map node_size (map NExpr es)) = sum_list (map expr_size es).
Proof. induction es; simpl; congruence. Qed.

Lemma sum_ops (ops : list cmpop) :
  sum_list (map node_size (map (λ op, NOp (cmpop_class op)) ops)) = length ops.
Proof. induction ops; simpl; congruence. Qed.

Lemma children_smaller n : (sum_list (map node_size (children n)) < node_size n)%nat.
Proof.
  destruct n as [b|e|c]; [| |simpl; lia]; simpl; [lia|].
  destruct e; simpl; rewrite ?map_app, ?sum_list_app', ?map_app, ?sum_list_app', ?sum_exprs, ?sum_ops; simpl; try lia.
Qed.

Lemma node_size_pos n : (0 < node_size n)%nat.
Proof. pose proof (children_smaller n). lia. Qed.

Lemma walk_queue_complete fuel q n m :
  (sum_list (map node_size q) ≤ fuel)%nat → n ∈ q → within m n → m ∈ walk_queue fuel q.
Proof.
  revert q n. induction fuel as [|fuel IH]; intros q n Hf Hn Hm.
  - destruct q as [|x q]; [by apply elem_of_nil in Hn|]. pose proof (node_size_pos x). simpl in Hf. lia.
  - destruct q as [|x q]; [by apply elem_of_nil in Hn|]. simpl in *.
    pose proof (children_smaller x) as Hc.
    assert (sum_list (map node_size (q ++ children x)) ≤ fuel)%nat as Hf'.
    { rewrite map_app, sum_list_app'. lia. }
    apply elem_of_cons in Hn as [->|Hn].
    + inversion Hm; subst; [by constructor|]. constructor. eapply IH; [done| |done].
      apply elem_of_app. by right.
    + constructor. eapply IH; [done| |done]. apply elem_of_app. by left.
Qed.

Lemma walk_complete n m : within m n → m ∈ walk n.
Proof. intros Hm. eapply walk_queue_complete; [|by apply list_elem_of_singleton|done]. simpl. lia. Qed.

Lemma validate_nodes_ok ns : validate_nodes ns = Ok tt ↔ Forall (λ n, allowed n = true) ns.
Proof.
  induction ns as [|n ns IH]; simpl; [done|]. rewrite Forall_cons.
  destruct (allowed n); [rewrite IH|]; naive_solver.
Qed.

Lemma parse_allowed e tree :
  _parse e = Ok tree → ∀ n, within n (NExpression tree) → allowed n = true.
Proof.
  unfold _parse, _validate_ast. destruct (ast_parse e) as [t|]; [|done]. intros H n Hn.
  apply result_bind_ok in H as ([] & Hv & [= ->]). apply validate_nodes_ok in Hv.
  rewrite Forall_forall in Hv. by apply Hv, walk_complete.
Qed.

(** ** Evaluating a validated expression *)

(** The failures left once the syntax is validated: an unknown name, an attribute of
    something that is no context namespace, operands that do not compare. *)
Definition runtime_error (err : gate_error) : Prop :=
  match err with
  | UnsupportedIdentifier _ | UnsupportedReference | UnsupportedReferenceTo _ | IncompatibleValues => True
  | _ => False
  end.

Lemma result_map_err {E B C} (f : B → result E C) l err :
  result_map f l = Err err → ∃ x, x ∈ l ∧ f x = Err err.
Proof.
  induction l as [|x l IH]; simpl; [done|]. destruct (f x) eqn:Hx; simpl; intros.
  - destruct (result_map f l) eqn:Hl; simplify_eq/=. destruct IH as (y & ? & ?); [done|].
    exists y. split; [by constructor|done].
  - simplify_eq. exists x. split; [by constructor|done].
Qed.

Lemma expr_size_elem e es : e ∈ es → (expr_size e ≤ sum_list (map expr_size es))%nat.
Proof. induction 1; simpl; lia. Qed.

Lemma within_expr e e' n :
  NExpr e' ∈ children (NExpr e) → within n (NExpr e') → within n (NExpr e).
Proof. intros. by eapply within_child. Qed.

Lemma compare_error lhs op rhs err :
  op ≠ Is → op ≠ IsNot → _compare lhs op rhs = Err err → runtime_error err.
Proof.
  intros. destruct op; simpl in *; try done; try (unfold type_checked in *; case_match; by simplify_eq).
Qed.

(** The comparisons of a chain, once its operands fail only at run time. *)
Lemma chain_error ctx ops cs lhs err :
  (∀ op, op ∈ ops → op ≠ Is ∧ op ≠ IsNot) →
  (∀ c err', c ∈ cs → _eval_node c ctx = Err err' → runtime_error err') →
  (fix chain (lhs : pyval) (ops : list cmpop) (cs : list expr) {struct cs} : result gate_error pyval :=
     match cs, ops with
     | c :: cs, op :: ops =>
         let? rhs := _eval_node c ctx in
         let? b := _compare lhs op rhs in
         if b then chain rhs ops cs else Ok (PBool false)
     | _, _ => Ok (PBool true)
     end) lhs ops cs = Err err →
  runtime_error err.
Proof.
  revert lhs ops. induction cs as [|c cs IH]; intros lhs ops Hops Hcs; [done|].
  destruct ops as [|op ops]; [done|]. destruct (_eval_node c ctx) as [rhs|] eqn:Hc; simpl.
  2:{ intros [= ->]. eapply Hcs, Hc. constructor. }
  destruct (_compare lhs op rhs) as [[]|] eqn:Hcmp; simpl.
  - apply IH; [intros; apply Hops; by constructor|intros; eapply Hcs; [by constructor|done]].
  - done.
  - intros [= ->]. destruct (Hops op); [constructor|]. by eapply compare_error.
Qed.

Lemma eval_error n e ctx err :
  (expr_size e < n)%nat → (∀ m, within m (NExpr e) → allowed m = true) →
  _eval_node e ctx = Err err → runtime_error err.
Proof.
  revert e err. induction n as [|n IH]; intros e err Hn Hall; [lia|].
  assert (∀ e' err', NExpr e' ∈ children (NExpr e) → (expr_size e' < expr_size e)%nat →
            _eval_node e' ctx = Err err' → runtime_error err') as Hrec.
  { intros e' err' Hc Hlt. apply IH; [lia|]. intros m Hm. by eapply Hall, within_expr. }
  assert (∀ es err', (∀ e', e' ∈ es → NExpr e' ∈ children (NExpr e)) →
            (sum_list (map expr_size es) < expr_size e)%nat →
            result_map (λ e, _eval_node e ctx) es = Err err' → runtime_error err') as Hrecs.
  { intros es err' Hc Hlt (e' & He' & Herr)%result_map_err. apply (Hrec e' err'); [auto| |done].
    pose proof (expr_size_elem e' es He'). lia. }
  pose proof (Hall _ (within_refl _)) as Hself.
  assert (∀ e' es, e' ∈ es → NExpr e' ∈ map NExpr es) as Hmap by (intros; by apply list_elem_of_fmap_2).
  destruct e as [v|es|es|id|v a|b es|op e|l ops cs|c]; simpl in Hself |- *.
  - done.
  - destruct (result_map _ es) eqn:Hr; simpl; [done|]. intros [= ->]. eapply Hrecs, Hr; [|simpl; lia].
    intros e' He'. simpl. apply elem_of_app. left. auto.
  - destruct (result_map _ es) eqn:Hr; simpl; [done|]. intros [= ->]. eapply Hrecs, Hr; [|simpl; lia].
    intros e' He'. simpl. apply elem_of_app. left. auto.
  - case_bool_decide; [done|]. by intros [= <-].
  - unfold _resolve_attribute. destruct (attribute_chain _) as [parts named].
    destruct named; simpl; [case_bool_decide|]; intros; by simplify_eq.
  - destruct (result_map _ es) eqn:Hr; simpl; [done|]. intros [= ->]. eapply Hrecs, Hr; [|simpl; lia].
    intros e' He'. simpl. constructor. auto.
  - assert (op = Not) as ->.
    { assert (allowed (NOp (unop_class op)) = true) as Hop.
      { apply Hall. eapply within_child; [|constructor]. simpl. constructor. }
      destruct op; try done; vm_compute in Hop; done. }
    destruct (_eval_node e ctx) eqn:He; simpl; [done|]. intros [= ->]. eapply Hrec, He; [|simpl; lia].
    simpl. constructor. constructor.
  - assert (∀ op, op ∈ ops → op ≠ Is ∧ op ≠ IsNot) as Hops.
    { intros op Hop. assert (allowed (NOp (cmpop_class op)) = true) as Ha.
      { apply Hall. eapply within_child; [|constructor]. simpl. constructor. apply elem_of_app. left.
        apply list_elem_of_fmap. by exists op. }
      destruct op; split; try done; vm_compute in Ha; done. }
    assert (∀ c err', c ∈ cs → _eval_node c ctx = Err err' → runtime_error err') as Hcs.
    { intros c err' Hc. apply Hrec; [|pose proof (expr_size_elem c cs Hc); simpl; lia].
      simpl. constructor. apply elem_of_app. right. auto. }
    destruct (_eval_node l ctx) as [lhs|] eqn:Hl; simpl.
    2:{ intros [= ->]. eapply Hrec, Hl; [simpl; constructor|simpl; lia]. }
    by apply chain_error.
  - done.
Qed.

(** A gate expression that parses evaluates for every context to a value, or
    fails only because of a name, a reference or operands that do not compare: the
    evaluator never meets syntax the validation of the tree let through. *)
Theorem validated_expression_evaluates e tree ctx :
  _parse e = Ok tree →
  match _eval_node tree ctx with Ok _ => True | Err err => runtime_error err end.
Proof.
  intros Hp. destruct (_eval_node tree ctx) as [v|e0] eqn:He; [done|].
  apply (eval_error (S (expr_size tree)) tree ctx e0); [lia| |done].
  intros m Hm. eapply parse_allowed; [done|]. eapply within_child; [|done]. simpl. constructor.
Qed.

(** ** The two evaluators *)

Lemma evaluate_detail_spec ctx e :
  d_expression (evaluate_detail ctx e) = e ∧
  match _eval_expression e ctx with
  | Ok v => d_passed (evaluate_detail ctx e) = truthy v ∧ d_error (evaluate_detail ctx e) = None ∧
            d_actual_result (evaluate_detail ctx e) = Some (truthy v)
  | Err err => d_passed (evaluate_detail ctx e) = false ∧
               d_error (evaluate_detail ctx e) = Some (message err) ∧
               d_actual_result (evaluate_detail ctx e) = None
  end.
Proof.
  unfold evaluate_detail, _eval_expression. destruct (_parse e) as [tree|err]; simpl; [|done].
  destruct (_expression_reference_values tree ctx). by destruct (_eval_node tree ctx).
Qed.

Lemma detailed_fold ctx es acc :
  foldl (λ acc expression,
    let d := evaluate_detail ctx expression in
    Detailed (conditions acc ++ [d]) (passed acc || d_passed d)
      (match d_error d with Some m => errors acc ++ [m] | None => errors acc end)) acc es =
  Detailed (conditions acc ++ map (evaluate_detail ctx) es)
    (passed acc || existsb d_passed (map (evaluate_detail ctx) es))
    (errors acc ++ omap d_error (map (evaluate_detail ctx) es)).
Proof.
  revert acc. induction es as [|e es IH]; intros acc; simpl.
  - rewrite !app_nil_r, orb_false_r. by destruct acc.
  - rewrite IH. simpl. rewrite <- app_assoc, orb_assoc. f_equal.
    destruct (d_error _); simpl; [by rewrite <- app_assoc|done].
Qed.

Lemma any_true_spec es ctx :
  match any_true es ctx with
  | Ok b => b = existsb d_passed (map (evaluate_detail ctx) es) ∧
            (b = false → omap d_error (map (evaluate_detail ctx) es) = [])
  | Err err => message err ∈ omap d_error (map (evaluate_detail ctx) es)
  end.
Proof.
  induction es as [|e es IH]; simpl; [done|].
  destruct (evaluate_detail_spec ctx e) as [_ Hd].
  destruct (_eval_expression e ctx) as [v|err]; simpl; destruct Hd as (Hp & -> & _).
  - rewrite Hp. destruct (truthy v); simpl; [done|]. by destruct (any_true es ctx).
  - constructor.
Qed.

(** The detailed evaluation agrees with the plain one: it reports every condition
    in order and passes exactly when there is none or one of them evaluates to a
    true value; whatever the plain evaluation returns is the detailed verdict (and a
    refusal comes with no error), and what it raises is among the reported errors. *)
Theorem detailed_agrees_with_plain es outputs thresholds :
  let ctx := _build_context outputs thresholds in
  let d := evaluate_gate_conditions_detailed es outputs thresholds in
  map d_expression (conditions d) = es ∧
  (passed d = true ↔ es = [] ∨ ∃ e v, e ∈ es ∧ _eval_expression e ctx = Ok v ∧ truthy v = true) ∧
  match evaluate_gate_conditions es outputs thresholds with
  | Ok b => b = passed d ∧ (b = false → errors d = [])
  | Err err => message err ∈ errors d
  end.
Proof.
  intros ctx d. subst d. unfold evaluate_gate_conditions_detailed. fold ctx.
  rewrite detailed_fold. simpl. split; [|split].
  - rewrite map_map. rewrite <- (map_id es) at 2. apply map_ext. intros e. apply evaluate_detail_spec.
  - rewrite orb_true_iff, bool_decide_eq_true, existsb_exists. apply or_iff_compat_l. split.
    + intros (x & Hx & Hp). apply in_map_iff in Hx as (e & <- & He).
      destruct (evaluate_detail_spec ctx e) as [_ Hd].
      destruct (_eval_expression e ctx) as [v|] eqn:Hv; destruct Hd as (Hd & _); [|congruence].
        exists e, v. split; [by apply list_elem_of_In|]. split; [done|congruence].
    + intros (e & v & He & Hv & Ht). exists (evaluate_detail ctx e). split.
      * apply in_map, list_elem_of_In, He.
      * destruct (evaluate_detail_spec ctx e) as [_ Hd]. rewrite Hv in Hd. destruct Hd. congruence.
  - unfold evaluate_gate_conditions. fold ctx. pose proof (any_true_spec es ctx) as Ha.
    case_bool_decide as Hnil; [by subst|]. simpl. by destruct (any_true es ctx).
Qed.

(** ** Validation *)

(** The steps before the [i]-th, the latest of one name last. *)
Definition declared (steps : list step) : gmap string (list string) :=
  foldl (λ m s, <[step_name s := metadata_fields s]> m) ∅ steps.

Lemma all_ok_iff {A} (f : A → result gate_error unit) l :
  all_ok f l = Ok tt ↔ ∀ x, x ∈ l → f x = Ok tt.
Proof.
  induction l as [|x l IH]; simpl.
  - split; [intros _ x Hx; by apply elem_of_nil in Hx|done].
  - destruct (f x) as [[]|] eqn:Hx; simpl.
    + rewrite IH. split; [intros H y [->|Hy]%elem_of_cons; auto|intros H y Hy; apply H; by constructor].
    + split; [done|]. intros H. specialize (H x (list_elem_of_here _ _)). congruence.
Qed.

Definition reference_declared (seen : gmap string (list string)) (ref : string * string * string) : Prop :=
  ∃ fields, seen !! ref.1.2 = Some fields ∧ (ref.1.1 = "metadata" → ref.2 ∈ fields).

Lemma check_reference_iff name seen ref :
  check_reference name seen ref = Ok tt ↔ reference_declared seen ref.
Proof.
  destruct ref as [[ns s] f]. unfold check_reference, reference_declared. simpl.
  destruct (seen !! s) as [fields|]; [|naive_solver].
  repeat case_bool_decide; simpl; naive_solver.
Qed.

(** A workflow validates exactly when every condition of every gate parses and
    each three-part metadata or outputs reference in it names a step declared before
    the gate's own, with, for metadata, a field of that step's contract. *)
Theorem validate_gate_conditions_iff steps :
  validate_gate_conditions steps = Ok tt ↔
  ∀ i s e, steps !! i = Some s → e ∈ gate s →
    ∃ tree, _parse e = Ok tree ∧
      ∀ ref, ref ∈ _references tree → reference_declared (declared (take i steps)) ref.
Proof.
  unfold validate_gate_conditions, declared. generalize (∅ : gmap string (list string)) as seen.
  induction steps as [|s steps IH]; intros seen; simpl; [naive_solver|].
  assert (all_ok (check_condition (step_name s) seen) (gate s) = Ok tt ↔
    ∀ e, e ∈ gate s → ∃ tree, _parse e = Ok tree ∧
      ∀ ref, ref ∈ _references tree → reference_declared seen ref) as Hgate.
  { rewrite all_ok_iff. apply forall_proper. intros e.
    unfold check_condition. split; intros H He; specialize (H He).
    - apply result_bind_ok in H as (tree & Hp & Hall). exists tree. split; [done|].
      rewrite all_ok_iff in Hall. intros ref Href. by eapply check_reference_iff, Hall.
    - destruct H as (tree & Hp & Hall). rewrite Hp. simpl. apply all_ok_iff.
      intros ref Href. apply check_reference_iff. auto. }
  split.
  - intros H%result_bind_ok. destruct H as ([] & Hg & Hrest). intros [|i] s' e Hs He; simpl in *.
    + simplify_eq. by apply Hgate.
    + by eapply (proj1 (IH _) Hrest).
  - intros H. rewrite (proj2 Hgate); simpl.
    + apply IH. intros i s' e Hs He. by apply (H (S i) s' e).
    + intros e He. by apply (H 0%nat s e).
Qed.
End Gates.

(** ** Witness and examples *)

(** [metadata.review.score >= thresholds.min] and [outputs.later == "x"]. *)
Definition example_parse (s : string) : option expr :=
  if bool_decide (s = "score") then
    Some (Compare (Attribute (Attribute (Name "metadata") "review") "score") [GtE]
            [Attribute (Name "thresholds") "min"])
  else if bool_decide (s = "later") then
    Some (Compare (Constant (PStr "x")) [NotIn] [Attribute (Name "outputs") "later"])
  else None.

Definition example_outputs : pydict :=
  [("review", PDict [("metadata", PDict [("score", PFloat 3 (-2))]); ("outputs", PDict [])])].

Lemma validated_expression_evaluates_witness :
  let tree := Compare (Attribute (Attribute (Name "metadata") "review") "score") [GtE]
                [Attribute (Name "thresholds") "min"] in
  let ctx := _build_context example_outputs [("min", PFloat 1 (-1))] in
  match _eval_node tree ctx with Ok _ => True | Err err => runtime_error err end ∧
  _eval_node tree ctx = Ok (PBool true).
Proof.
  intros tree ctx. split; [|vm_compute; reflexivity].
  apply (validated_expression_evaluates example_parse "score"). vm_compute. reflexivity.
Defined.

Example detailed_example :
  let d := evaluate_gate_conditions_detailed example_parse (λ s, s) ["score"; "later"; "oops"]
             example_outputs [("min", PFloat 1 (-1))] in
  passed d = true ∧
  errors d = ["Gate condition compared incompatible values"; "Invalid gate condition syntax: oops"].
Proof. vm_compute. by split. Qed.

(** A reference of two parts to a later step passes validation. *)
Example two_part_reference_not_validated :
  validate_gate_conditions example_parse
    [Step "first" ["later"] []; Step "later" [] []] = Ok tt.
Proof. vm_compute. reflexivity. Qed.
