(* ===== verification/Pool.v ===== *)
(** Executor assignment and selection: [cognis/core/executor_pool.py], with
    [cognis/core/executor_resolution.py], [executor_policy.py],
    [executor_availability.py] and [cognis/ownership.py].

    The executors table is the list of its rows in name order; an agent's execution
    configuration is a JSON-like dictionary.  Whether the local executor package is
    installed is a parameter (a process-lifetime constant of the environment). *)

From S2P Require Import Prelude PyVal.

(** ** Rows *)

(** [ExecutorRow]: the columns resolution reads. *)
Record executor_row := ExecutorRow {
  r_executor_id : string;
  r_executor_type : string;
  r_labels : pydict;
  r_enabled_tools : list string;
  r_enabled_tool_groups : list string;
  r_observed_tools : list pyval;
  r_config : pydict;
  r_status : string;
  r_desired_config_version : Z;
  r_applied_config_version : Z;
  r_runtime_state : string;
  r_last_observed_at : option Z;
  r_is_default : bool;
  r_owner_email : option string;
}.

Definition SYSTEM_USER_EMAIL : string := "system@cognis.local".

Definition is_shared_owner_email (owner_email : option string) : bool :=
  bool_decide (owner_email ∈ [None; Some SYSTEM_USER_EMAIL]).

(** Every lookup shares this gate: no owner asked for, the owner's own, or shared. *)
Definition visible_to (owner_email row_owner : option string) : bool :=
  bool_decide (owner_email = None) || bool_decide (row_owner = owner_email)
  || is_shared_owner_email row_owner.

(** ** Availability and policy *)

Definition LOCAL_EXECUTOR_TYPES : list string := ["in_process"; "subprocess"].
Definition ALL_EXECUTOR_TYPES : list string := ["in_process"; "subprocess"; "websocket"].

Record ExecutorPolicy := MkPolicy { allow_in_process : bool; allow_subprocess : bool }.

(** [StrEnum ExecutorAvailability] *)
Inductive ExecutorAvailability :=
| USABLE | DEGRADED | OFFLINE | BLOCKED | RECONFIGURING | POLICY_DENIED | NOT_FOUND | UNAUTHORIZED
| UNAVAILABLE.

#[global] Instance ExecutorAvailability_eq_dec : EqDecision ExecutorAvailability.
Proof. solve_decision. Defined.

Definition availability_value (s : ExecutorAvailability) : string :=
  match s with
  | USABLE => "usable" | DEGRADED => "degraded" | OFFLINE => "offline" | BLOCKED => "blocked"
  | RECONFIGURING => "reconfiguring" | POLICY_DENIED => "policy_denied" | NOT_FOUND => "not_found"
  | UNAUTHORIZED => "unauthorized" | UNAVAILABLE => "unavailable"
  end.

Definition is_state_usable (s : ExecutorAvailability) : bool :=
  match s with USABLE | DEGRADED => true | _ => false end.

Record ResolvedExecutorTarget := Target {
  executor_id : string;
  executor_type : string;
  is_primary : bool;
  selection_source : string;
  description : option string;
  state : ExecutorAvailability;
  enabled_tools : list string;
  enabled_tool_groups : list string;
  observed_tools : list pyval;
  runtime_state : string;
  desired_config_version : Z;
  applied_config_version : Z;
  owner_email : option string;
  labels : pydict;
  config : pydict;
  last_observed_at : option Z;
  row : option executor_row;
}.

Definition usable (t : ResolvedExecutorTarget) : bool := is_state_usable (state t).

(** [observed_tool_names]: the set of the names met, without duplicates. *)
Definition observed_tool_names (t : ResolvedExecutorTarget) : list string :=
  remove_dups (omap (λ entry, match entry with
                 | PDict d =>
                     let name := dict_get "name" d in
                     let name := if truthy name then name else dict_get "tool_name" d in
                     match name with
                     | PStr s => if bool_decide (s = "") then None else Some s
                     | _ => None
                     end
                 | PStr s => Some s
                 | _ => None
                 end) (observed_tools t)).

Record ExecutorPool := Pool { primary : list ResolvedExecutorTarget; additional : list ResolvedExecutorTarget }.

Definition all (p : ExecutorPool) : list ResolvedExecutorTarget := primary p ++ additional p.

Definition by_id (p : ExecutorPool) (id : string) : option ResolvedExecutorTarget :=
  head (filter (λ t, executor_id t = id) (all p)).

Definition usable_primaries (p : ExecutorPool) : list ResolvedExecutorTarget :=
  filter (λ t, usable t = true) (primary p).

Definition is_assigned (p : ExecutorPool) (id : string) : bool := bool_decide (is_Some (by_id p id)).

Definition is_primary_id (p : ExecutorPool) (id : string) : bool :=
  existsb (λ t, bool_decide (executor_id t = id)) (primary p).

Section Resolution.
Context (package_available : bool) (repr_str : string → string) (repr_float : Z → Z → string).

Notation str_ := (py_str repr_str repr_float).

Definition is_executor_type_available (type : string) : bool :=
  bool_decide (type ∈ ALL_EXECUTOR_TYPES)
  && (negb (bool_decide (type ∈ LOCAL_EXECUTOR_TYPES)) || package_available).

Definition EXECUTOR_PACKAGE_UNAVAILABLE_REASON : string :=
  "cognis-executor package is not installed; local executors are unavailable".

Definition unavailable_executor_reason (type : string) : option string :=
  if bool_decide (type ∈ LOCAL_EXECUTOR_TYPES) && negb package_available
  then Some EXECUTOR_PACKAGE_UNAVAILABLE_REASON else None.

Definition available_executor_types : list string :=
  if package_available then ALL_EXECUTOR_TYPES else ["websocket"].

Definition is_executor_type_allowed (type : string) (policy : ExecutorPolicy) : bool :=
  if negb (is_executor_type_available type) then false
  else if bool_decide (type = "in_process") then allow_in_process policy
  else if bool_decide (type = "subprocess") then allow_subprocess policy
  else true.

Definition is_executor_row_usable (r : option executor_row) (policy : ExecutorPolicy)
    (owner : option string) : bool :=
  match r with
  | None => false
  | Some r =>
      if negb (visible_to owner (r_owner_email r)) then false
      else if negb (bool_decide (r_status r = "active")) then false
      else is_executor_type_allowed (r_executor_type r) policy
  end.

Inductive policy_error := UnknownExecutorType (type : string) | Unavailable (reason : string)
| DisabledByPolicy (type : string).

Definition ensure_executor_type_allowed (type : string) (policy : ExecutorPolicy)
    : result policy_error unit :=
  if negb (bool_decide (type ∈ ALL_EXECUTOR_TYPES)) then Err (UnknownExecutorType type)
  else match unavailable_executor_reason type with
       | Some reason => Err (Unavailable reason)
       | None => if is_executor_type_allowed type policy then Ok tt else Err (DisabledByPolicy type)
       end.

(** [is_tool_enabled] on a tool's name, category and profile group. *)
Definition is_tool_enabled (name category : string) (profile_group : option string)
    (tools groups : list string) : bool :=
  if bool_decide ("*" ∈ tools) then true
  else if bool_decide (name ∈ tools) then true
  else bool_decide (category ∈ groups)
       || match profile_group with Some g => bool_decide (g ∈ groups) | None => false end.

Definition labels_match (executor_labels : pydict) (selector : list (string * string)) : bool :=
  if bool_decide (selector = []) then true
  else match executor_labels with
       | [] => false
       | _ => forallb (λ kv, bool_decide (str_ (dict_get kv.1 executor_labels) = kv.2)) selector
       end.

(** [{str(k): str(v) for k, v in selector.items()}] *)
Definition normalized_selector (selector : pydict) : list (string * string) :=
  map (λ kv, (kv.1, str_ kv.2)) selector.

(** [select_executor_for_agent]; [policy] may be absent. *)
Definition select_usable (owner : option string) (policy : option ExecutorPolicy) (r : executor_row)
    : bool :=
  match policy with
  | Some policy => is_executor_type_available (r_executor_type r)
                   && is_executor_row_usable (Some r) policy owner
  | None => is_executor_type_available (r_executor_type r) && bool_decide (r_status r = "active")
            && visible_to owner (r_owner_email r)
  end.

Definition first_row (f : executor_row → bool) (rows : list executor_row) : option executor_row :=
  head (filter (λ r, f r = true) rows).

Definition or_else {A} (x y : option A) : option A := match x with Some _ => x | None => y end.

Definition select_executor_for_agent (rows : list executor_row) (execution : pydict)
    (owner : option string) (policy : option ExecutorPolicy) : option executor_row :=
  let explicit_id := dict_get "executor_id" execution in
  let selector := match dict_get "executor_selector" execution with PDict d => d | _ => [] end in
  let ok := select_usable owner policy in
  let own r := bool_decide (r_owner_email r = owner) in
  let shared r := is_shared_owner_email (r_owner_email r) in
  if truthy explicit_id then
    first_row (λ r, py_eq (PStr (r_executor_id r)) explicit_id && ok r) rows
  else match selector with
  | _ :: _ =>
      match filter (λ r, (ok r && labels_match (r_labels r) (normalized_selector selector)) = true) rows with
      | [r] => Some r
      | _ => None
      end
  | [] =>
      or_else (first_row (λ r, r_is_default r && ok r && own r) rows)
        (or_else (first_row (λ r, r_is_default r && ok r && shared r) rows)
           (or_else (first_row (λ r, ok r && own r) rows) (first_row (λ r, ok r && shared r) rows)))
  end.

(** ** Additional bindings *)

(** A normalized entry: exactly one of an id and a selector. *)
Inductive binding := ById (id : string) | BySelector (selector : list (string * string)).

Definition scalar (v : pyval) : bool :=
  match v with PStr _ | PInt _ | PBool _ => true | _ => false end.

Definition stripped (v : pyval) : option string :=
  match v with
  | PStr s => if bool_decide (str_strip s = "") then None else Some (str_strip s)
  | _ => None
  end.

Definition parse_entry (item : pyval) : option (binding * option string) :=
  match item with
  | PDict d =>
      let id := stripped (dict_get "executor_id" d) in
      let selector := match dict_get "executor_selector" d with
                      | PDict ((_ :: _) as s) => if forallb (λ kv, scalar kv.2) s then Some s else None
                      | _ => None
                      end in
      let description := stripped (dict_get "description" d) in
      match id, selector with
      | Some id, None => Some (ById id, description)
      | None, Some s => Some (BySelector (normalized_selector s), description)
      | _, _ => None
      end
  | _ => None
  end.

Definition parse_additional_executors (execution : pydict) : list (binding * option string) :=
  match dict_get "additional_executors" execution with
  | PList raw => omap parse_entry raw
  | _ => []
  end.

(** ** The pool *)

Section Pool.
Context (policy : ExecutorPolicy) (executor_owner_email : string).

Definition _classify_state (r : option executor_row) (owner : option string) : ExecutorAvailability :=
  match r with
  | None => NOT_FOUND
  | Some r =>
      if negb (visible_to owner (r_owner_email r)) then UNAUTHORIZED
      else if negb (bool_decide (r_status r = "active")) then BLOCKED
      else if bool_decide (unavailable_executor_reason (r_executor_type r) ≠ None) then UNAVAILABLE
      else if negb (is_executor_type_allowed (r_executor_type r) policy) then POLICY_DENIED
      else if negb (r_desired_config_version r =? r_applied_config_version r) then RECONFIGURING
      else if bool_decide (r_executor_type r = "in_process") then USABLE
      else if bool_decide (r_runtime_state r = "active") then USABLE
      else if bool_decide (r_runtime_state r = "degraded") then DEGRADED
      else OFFLINE
  end.

Definition classify (r : executor_row) : ExecutorAvailability :=
  _classify_state (Some r) (Some executor_owner_email).

Definition _target_from_row (r : executor_row) (primary : bool) (source : string)
    (description : option string) (state : ExecutorAvailability) : ResolvedExecutorTarget :=
  Target (r_executor_id r) (r_executor_type r) primary source description state
    (r_enabled_tools r) (r_enabled_tool_groups r) (r_observed_tools r)
    (if bool_decide (r_runtime_state r = "") then "offline" else r_runtime_state r)
    (r_desired_config_version r) (r_applied_config_version r) (r_owner_email r) (r_labels r)
    (r_config r) (r_last_observed_at r) (Some r).

(** The placeholder of a configured executor without a row. *)
Definition missing_target (id : string) (primary : bool) (source : string)
    (description : option string) : ResolvedExecutorTarget :=
  Target id "" primary source description NOT_FOUND [] [] [] "offline" 0 0 None [] [] None None.

(** [list_executors(owner_email=..., include_shared=True, executor_ids=...)] *)
Definition list_executors (table : list executor_row) (ids : option (list string))
    : list executor_row :=
  filter (λ r, match ids with None => true | Some ids => bool_decide (r_executor_id r ∈ ids) end
               && visible_to (Some executor_owner_email) (r_owner_email r) = true) table.

(** [rows_by_id.get(id)]: the last row of that id. *)
Definition row_by_id (rows : list executor_row) (id : string) : option executor_row :=
  last (filter (λ r, r_executor_id r = id) rows).

(** The targets found so far and [seen_ids]. *)
Definition found := (list ResolvedExecutorTarget * list string)%type.

(** One row of a selector loop. *)
Definition scan_row (selector : list (string * string)) (primary : bool) (source : string)
    (description : option string) (acc : found) (r : executor_row) : found :=
  let '(targets, seen) := acc in
  if bool_decide (r_executor_id r ∈ seen) then acc
  else if negb (labels_match (r_labels r) selector) then acc
  else
    let state := classify r in
    if bool_decide (state = UNAUTHORIZED) then acc
    else (targets ++ [_target_from_row r primary source description state], r_executor_id r :: seen).

Definition add_additional (rows : list executor_row) (acc : found) (entry : binding * option string)
    : found :=
  let '(targets, seen) := acc in
  match entry.1 with
  | ById id =>
      if bool_decide (id ∈ seen) then acc
      else match row_by_id rows id with
           | None => (targets ++ [missing_target id false "additional_explicit" entry.2], id :: seen)
           | Some r =>
               let state := classify r in
               if bool_decide (state = UNAUTHORIZED) then acc
               else (targets ++ [_target_from_row r false "additional_explicit" entry.2 state],
                     r_executor_id r :: seen)
           end
  | BySelector selector =>
      foldl (scan_row selector false "additional_selector" entry.2) acc rows
  end.

(** How the primary set is configured. *)
Inductive primary_binding := PrimaryId (id : string) | PrimarySelector (s : list (string * string))
| NoPrimary.

Definition primary_of (execution : pydict) : primary_binding :=
  let selector := match dict_get "executor_selector" execution with
                  | PDict ((_ :: _) as s) => PrimarySelector (normalized_selector s)
                  | _ => NoPrimary
                  end in
  match dict_get "executor_id" execution with
  | PStr id => if bool_decide (str_strip id ≠ "") then PrimaryId id else selector
  | _ => selector
  end.

Definition resolve_primary (rows : list executor_row) (p : primary_binding) : found :=
  match p with
  | PrimaryId id =>
      match row_by_id rows id with
      | None => ([missing_target id true "explicit" None], [id])
      | Some r => ([_target_from_row r true "explicit" None (classify r)], [r_executor_id r])
      end
  | PrimarySelector selector => foldl (scan_row selector true "selector" None) ([], []) rows
  | NoPrimary => ([], [])
  end.

Definition pool_of_rows (rows : list executor_row) (p : primary_binding)
    (entries : list (binding * option string)) : ExecutorPool :=
  let '(primary_targets, seen) := resolve_primary rows p in
  let '(additional_targets, _) := foldl (add_additional rows) ([], seen) entries in
  Pool primary_targets additional_targets.

(** [candidate_ids]: [None] when a selector needs every row. *)
Definition candidate_ids (p : primary_binding) (entries : list (binding * option string))
    : option (list string) :=
  if match p with PrimarySelector _ => true | _ => false end
     || existsb (λ e, match e.1 with BySelector _ => true | ById _ => false end) entries
  then None
  else Some (match p with PrimaryId id => [id] | _ => [] end
             ++ omap (λ e, match e.1 with ById id => Some id | BySelector _ => None end) entries).

Definition resolve_executor_pool (table : list executor_row) (execution : pydict) : ExecutorPool :=
  let p := primary_of execution in
  let entries := parse_additional_executors execution in
  pool_of_rows (list_executors table (candidate_ids p entries)) p entries.
End Pool.

(** ** Selection *)

Definition sort_key (t : ResolvedExecutorTarget) : Z * string :=
  (if bool_decide (state t = USABLE) then 0 else 1, executor_id t).

(** The order of the tuples [sorted] compares. *)
Definition key_le (x y : Z * string) : bool :=
  (x.1 <? y.1) || ((x.1 =? y.1) && match String.compare x.2 y.2 with Gt => false | _ => true end).

(** [sorted(candidates, key=key)[0]]: the first of the least. *)
Fixpoint least (key : ResolvedExecutorTarget → Z * string) (best : ResolvedExecutorTarget)
    (ts : list ResolvedExecutorTarget) : ResolvedExecutorTarget :=
  match ts with
  | [] => best
  | t :: ts => least key (if key_le (key best) (key t) then best else t) ts
  end.

Definition pick_initial_active (p : ExecutorPool) : option ResolvedExecutorTarget :=
  match usable_primaries p with
  | [] => None
  | t :: ts => Some (least sort_key t ts)
  end.

(** [tool_observed_on]; the stub tool has an empty category and no profile group. *)
Definition tool_observed_on (t : ResolvedExecutorTarget) (tool_name : string) (require_usable : bool)
    : bool :=
  if require_usable && negb (usable t) then false
  else if negb (is_tool_enabled tool_name "" None (enabled_tools t) (enabled_tool_groups t)) then false
  else match observed_tools t with
       | [] => true
       | _ => bool_decide (tool_name ∈ observed_tool_names t)
       end.

(** ** Well-formed pools *)

Section Facts.
Context (policy : ExecutorPolicy) (owner : string).

Notation cls := (classify policy owner).
Notation add := (add_additional policy owner).

(** Targets of one kind with distinct, recorded ids, never of an unauthorized row. *)
Definition found_ok (seen0 : list string) (primary : bool) (acc : found) : Prop :=
  (∀ id, id ∈ acc.2 ↔ id ∈ seen0 ∨ id ∈ map executor_id acc.1) ∧
  NoDup (map executor_id acc.1) ∧ (∀ id, id ∈ seen0 → id ∉ map executor_id acc.1) ∧
  Forall (λ t, is_primary t = primary ∧ state t ≠ UNAUTHORIZED ∧
               state t = match row t with Some r => cls r | None => NOT_FOUND end) acc.1.

Lemma found_ok_add seen0 primary acc t :
  found_ok seen0 primary acc → executor_id t ∉ acc.2 → is_primary t = primary →
  state t ≠ UNAUTHORIZED →
  state t = match row t with Some r => cls r | None => NOT_FOUND end →
  found_ok seen0 primary (acc.1 ++ [t], executor_id t :: acc.2).
Proof.
  intros (Hseen & Hnd & Hdis & Hall) Hnew Hp Hs Hst. unfold found_ok. simpl.
  rewrite map_app. simpl. split_and!.
  - intros id. rewrite elem_of_cons, Hseen, elem_of_app, list_elem_of_singleton. tauto.
  - apply NoDup_app. split_and!; [done| |apply NoDup_singleton].
    intros id Hid ->%list_elem_of_singleton. apply Hnew, Hseen. by right.
  - intros id Hid [?|He]%elem_of_app; [by eapply Hdis|].
    apply list_elem_of_singleton in He as ->. apply Hnew, Hseen. by left.
  - apply Forall_app. split; [done|]. by constructor.
Qed.

Lemma scan_row_ok selector primary source desc seen0 acc r :
  found_ok seen0 primary acc → found_ok seen0 primary (scan_row policy owner selector primary source desc acc r).
Proof.
  intros Hok. unfold scan_row. destruct acc as [targets seen].
  case_bool_decide; [done|]. destruct (negb _); [done|]. case_bool_decide; [done|].
  by apply (found_ok_add _ _ (targets, seen) (_target_from_row r primary source desc (cls r))).
Qed.

Lemma scan_ok selector primary source desc seen0 rows acc :
  found_ok seen0 primary acc →
  found_ok seen0 primary (foldl (scan_row policy owner selector primary source desc) acc rows).
Proof.
  revert acc. induction rows as [|r rows IH]; intros acc Hok; simpl; [done|].
  by apply IH, scan_row_ok.
Qed.

Lemma row_by_id_some rows id r : row_by_id rows id = Some r → r_executor_id r = id.
Proof.
  unfold row_by_id. intros Hl%last_Some_elem_of. by apply list_elem_of_filter in Hl as [? _].
Qed.

Lemma resolve_primary_ok rows p :
  (∀ r, r ∈ rows → cls r ≠ UNAUTHORIZED) →
  found_ok [] true (resolve_primary policy owner rows p).
Proof.
  intros Hrows.
  assert (found_ok [] true ([], [])) as Hnil.
  { split_and!; simpl; [intros id; rewrite !elem_of_nil; tauto|constructor|intros id _; apply not_elem_of_nil|constructor]. }
  destruct p as [id|selector|]; simpl; [|by apply scan_ok|done].
  pose proof (found_ok_add [] true ([], [])) as Hadd. simpl in Hadd.
  destruct (row_by_id rows id) as [r|] eqn:Hr.
  - apply (Hadd (_target_from_row r true "explicit" None (cls r)));
      [done|apply not_elem_of_nil|done| |done].
    simpl. apply Hrows. unfold row_by_id in Hr. apply last_Some_elem_of in Hr.
    by apply list_elem_of_filter in Hr as [_ ?].
  - apply (Hadd (missing_target id true "explicit" None)); try done. apply not_elem_of_nil.
Qed.

Lemma add_additional_ok seen0 rows acc entry :
  found_ok seen0 false acc → found_ok seen0 false (add rows acc entry).
Proof.
  intros Hok. unfold add_additional. destruct acc as [targets seen], entry as [[id|selector] desc]; simpl.
  - case_bool_decide as Hseen; [done|]. destruct (row_by_id rows id) as [r|] eqn:Hr.
    + case_bool_decide; [done|]. apply row_by_id_some in Hr.
      apply (found_ok_add _ _ (targets, seen)
        (_target_from_row r false "additional_explicit" desc (cls r))); try done. simpl. by subst.
    + by apply (found_ok_add _ _ (targets, seen) (missing_target id false "additional_explicit" desc)).
  - by apply scan_ok.
Qed.

Lemma list_executors_visible table ids r :
  r ∈ list_executors owner table ids → cls r ≠ UNAUTHORIZED.
Proof.
  intros [Hr _]%list_elem_of_filter. bool_facts. unfold classify, _classify_state.
  rewrite H0. simpl. repeat case_match; done.
Qed.

(** *** Narrowing the query *)

Lemma row_by_id_narrow table ids id :
  id ∈ ids →
  row_by_id (list_executors owner table (Some ids)) id = row_by_id (list_executors owner table None) id.
Proof.
  intros Hid. unfold row_by_id, list_executors. f_equal. rewrite !list_filter_filter.
  apply list_filter_iff. intros r. split.
  - intros [-> Hv]. bool_facts. simpl. done.
  - intros [-> Hv]. rewrite bool_decide_true by done. done.
Qed.

Lemma pool_of_rows_ext rows rows' p entries :
  (∀ s, p ≠ PrimarySelector s) →
  (∀ s d, (BySelector s, d) ∉ entries) →
  (∀ id, p = PrimaryId id → row_by_id rows id = row_by_id rows' id) →
  (∀ id d, (ById id, d) ∈ entries → row_by_id rows id = row_by_id rows' id) →
  pool_of_rows policy owner rows p entries = pool_of_rows policy owner rows' p entries.
Proof.
  intros Hp Hs Hid Hids. unfold pool_of_rows.
  assert (resolve_primary policy owner rows p = resolve_primary policy owner rows' p) as ->.
  { destruct p as [id|s|]; [|by destruct (Hp s)|done]. simpl. by rewrite (Hid id). }
  destruct (resolve_primary policy owner rows' p) as [targets seen].
  assert (∀ acc, foldl (add rows) acc entries = foldl (add rows') acc entries) as Hf; [|by rewrite Hf].
  clear Hid. induction entries as [|[[id|s] d] entries IH]; intros acc; simpl; [done| |].
  - rewrite IH; [|intros s' d' ?; eapply Hs; by constructor|intros id' d' ?; eapply Hids; by constructor].
    f_equal. unfold add_additional. destruct acc. simpl. rewrite (Hids id d); [done|constructor].
  - destruct (Hs s d). constructor.
Qed.
End Facts.

(** ** Properties *)

(** C39. Pools are well formed: whatever an agent's configuration says, no executor
    occurs twice (so primary membership wins), primary and additional targets are
    marked as such, no target belongs to another user's private executor, and the
    state of every target is the factual classification of its row. *)
Theorem resolved_pool_well_formed policy owner table execution :
  let pool := resolve_executor_pool policy owner table execution in
  NoDup (map executor_id (all pool)) ∧
  Forall (λ t, is_primary t = true) (primary pool) ∧
  Forall (λ t, is_primary t = false) (additional pool) ∧
  Forall (λ t, state t ≠ UNAUTHORIZED ∧
               state t = match row t with Some r => classify policy owner r | None => NOT_FOUND end)
    (all pool).
Proof.
  intros pool. subst pool. unfold resolve_executor_pool, pool_of_rows.
  set (rows := list_executors _ _ _). set (p := primary_of execution).
  pose proof (resolve_primary_ok policy owner rows p) as (Hseen & Hnd & _ & Hall).
  { intros r. apply list_executors_visible. }
  clearbody rows.
  destruct (resolve_primary policy owner rows p) as [targets seen]. simpl in *.
  assert (found_ok policy owner seen false
    (foldl (add_additional policy owner rows) ([], seen) (parse_additional_executors execution))) as Hadd.
  { assert (found_ok policy owner seen false ([], seen)) as Hnil.
    { split_and!; simpl; [intros id; rewrite elem_of_nil; tauto|constructor
                         |intros id _; apply not_elem_of_nil|constructor]. }
    revert Hnil. generalize ([] : list ResolvedExecutorTarget, seen).
    induction (parse_additional_executors execution) as [|e es IH]; intros acc Hacc; simpl; [done|].
    by apply IH, add_additional_ok. }
  destruct (foldl _ _ _) as [more seen']. destruct Hadd as (Hseen' & Hnd' & Hdis & Hall').
  simpl in *. unfold all. simpl. rewrite map_app. split_and!.
  - apply NoDup_app. split_and!; [done| |done]. intros id Hid. apply Hdis. apply Hseen. by right.
  - eapply Forall_impl; [exact Hall|]. by intros t [? _].
  - eapply Forall_impl; [exact Hall'|]. by intros t [? _].
  - apply Forall_app. split; (eapply Forall_impl; [eassumption|]); by intros t [_ ?].
Qed.

Lemma narrowed_query policy owner table execution :
  resolve_executor_pool policy owner table execution =
  pool_of_rows policy owner (list_executors owner table None)
    (primary_of execution) (parse_additional_executors execution).
Proof.
  unfold resolve_executor_pool. set (p := primary_of execution).
  set (entries := parse_additional_executors execution). unfold candidate_ids.
  destruct (_ || _) eqn:Hsel; [done|]. apply orb_false_iff in Hsel as [Hp He].
  assert (∀ e, e ∈ entries → match e.1 with BySelector _ => true | _ => false end = false) as He'.
  { intros e Hin. apply not_true_is_false. intros Ht.
    assert (existsb (λ e, match e.1 with BySelector _ => true | _ => false end) entries = true); [|congruence].
    apply existsb_exists. exists e. split; [by apply list_elem_of_In|done]. }
  apply pool_of_rows_ext.
  - intros s ->. done.
  - intros s d Hin. by specialize (He' _ Hin).
  - intros id ->. apply row_by_id_narrow. constructor.
  - intros id d Hin. apply row_by_id_narrow, elem_of_app. right. apply list_elem_of_omap.
    by exists (ById id, d).
Qed.

(** Narrowing the query is lossless: when no selector is configured, resolving
    from only the rows of the configured ids gives the same pool as resolving from
    every row the owner can see. *)
Theorem narrowed_query_is_lossless policy owner table execution :
  resolve_executor_pool policy owner table execution =
  pool_of_rows policy owner (list_executors owner table None)
    (primary_of execution) (parse_additional_executors execution).
Proof. apply narrowed_query. Qed.

Lemma key_le_total x y : key_le x y = false → key_le y x = true.
Proof.
  unfold key_le. intros Hf. apply orb_false_iff in Hf as [H1 H2]. apply Z.ltb_ge in H1.
  apply orb_true_iff. destruct (Z.eqb_spec x.1 y.1) as [He|He]; simpl in H2.
  - right. rewrite He, Z.eqb_refl. simpl. rewrite String.compare_antisym.
    destruct (String.compare x.2 y.2); simpl; done.
  - left. apply Z.ltb_lt. lia.
Qed.

Lemma key_le_refl x : key_le x x = true.
Proof. unfold key_le. rewrite Z.eqb_refl, string_compare_refl. by rewrite orb_true_r. Qed.

Lemma key_le_spec x y :
  key_le x y = true ↔ x.1 < y.1 ∨ (x.1 = y.1 ∧ String.compare x.2 y.2 ≠ Gt).
Proof.
  unfold key_le. rewrite orb_true_iff, andb_true_iff, Z.ltb_lt, Z.eqb_eq.
  destruct (String.compare x.2 y.2); naive_solver.
Qed.

Lemma key_le_trans x y z : key_le x y = true → key_le y z = true → key_le x z = true.
Proof.
  rewrite !key_le_spec. intros [?|[? H1]] [?|[? H2]]; try (left; lia).
  right. split; [lia|]. by eapply string_le_trans.
Qed.

Lemma least_spec key best ts :
  least key best ts ∈ best :: ts ∧
  ∀ t, t ∈ best :: ts → key_le (key (least key best ts)) (key t) = true.
Proof.
  revert best. induction ts as [|t ts IH]; intros best; simpl.
  - split; [constructor|]. intros t ->%list_elem_of_singleton. apply key_le_refl.
  - destruct (key_le (key best) (key t)) eqn:Hle.
    + destruct (IH best) as [Hin Hmin]. split.
      { apply elem_of_cons in Hin as [->|?]; [constructor|by do 2 constructor]. }
      intros u [->|[->|Hu]%elem_of_cons]%elem_of_cons; [apply Hmin; constructor| |apply Hmin; by constructor].
      eapply key_le_trans; [|done]. apply Hmin. constructor.
    + destruct (IH t) as [Hin Hmin]. split; [by constructor|].
      intros u [->|Hu]%elem_of_cons; [|by apply Hmin].
      eapply key_le_trans; [apply Hmin; constructor|]. by apply key_le_total.
Qed.

(** The initial executor of a conversation is picked only among the usable
    primaries: it is one of them, the least by (reduced health, executor id), and
    nothing is picked exactly when no primary is usable, however many additional
    executors are. *)
Theorem initial_active_is_best_primary p :
  match pick_initial_active p with
  | Some t => t ∈ primary p ∧ usable t = true ∧
      ∀ u, u ∈ primary p → usable u = true → key_le (sort_key t) (sort_key u) = true
  | None => ∀ u, u ∈ primary p → usable u = false
  end.
Proof.
  assert (∀ u, u ∈ usable_primaries p ↔ usable u = true ∧ u ∈ primary p) as Hu.
  { intros u. unfold usable_primaries. by rewrite list_elem_of_filter. }
  unfold pick_initial_active. destruct (usable_primaries p) as [|t ts].
  - intros u Hin. apply not_true_is_false. intros Hus.
    by apply (not_elem_of_nil u), Hu.
  - destruct (least_spec sort_key t ts) as [Hin Hmin]. apply Hu in Hin as [? ?]. split; [done|].
    split; [done|]. intros u Hup Hus. apply Hmin, Hu. done.
Qed.

Lemma unique_row table r (P : executor_row → Prop) `{∀ x, Decision (P x)} :
  NoDup (map r_executor_id table) → r ∈ table → P r →
  last (filter (λ x, r_executor_id x = r_executor_id r ∧ P x) table) = Some r.
Proof.
  intros Hnd Hr HP. assert (filter (λ x, r_executor_id x = r_executor_id r ∧ P x) table = [r]) as ->; [|done].
  induction table as [|x table IH]; simpl in *; [by apply elem_of_nil in Hr|].
  apply NoDup_cons in Hnd as [Hx Hnd]. rewrite filter_cons. apply elem_of_cons in Hr as [->|Hr].
  - rewrite decide_True by done. f_equal. clear IH.
    induction table as [|y table IH]; [done|]. simpl in Hx. apply not_elem_of_cons in Hx as [Hne Hx].
    apply NoDup_cons in Hnd as [_ Hnd]. rewrite filter_cons_False by naive_solver. auto.
  - rewrite decide_False; [auto|]. intros [Heq _]. apply Hx. rewrite Heq.
    apply list_elem_of_fmap. by exists r.
Qed.

(** The two resolution paths agree on a single executor: when the agent names an
    executor id, the legacy selection returns a row exactly when that row is usable
    under the policy, and then the pool's only primary target is that row, never in a
    denied state. *)
Theorem explicit_selection_agrees_with_pool policy owner table execution id r :
  NoDup (map r_executor_id table) →
  dict_get "executor_id" execution = PStr id → str_strip id ≠ "" →
  select_executor_for_agent table execution (Some owner) (Some policy) = Some r →
  primary (resolve_executor_pool policy owner table execution) =
    [_target_from_row r true "explicit" None (classify policy owner r)] ∧
  r_executor_id r = id ∧
  classify policy owner r ∉ [UNAUTHORIZED; BLOCKED; UNAVAILABLE; POLICY_DENIED; NOT_FOUND].
Proof.
  intros Hnd Hid Hblank Hsel.
  assert (id ≠ "") as Hne by (intros ->; by vm_compute in Hblank).
  unfold select_executor_for_agent in Hsel. rewrite Hid in Hsel. simpl in Hsel.
  rewrite bool_decide_false in Hsel by done. simpl in Hsel. unfold first_row in Hsel.
  apply head_Some_elem_of in Hsel as [Hok Hr]%list_elem_of_filter. bool_facts.
  unfold select_usable, is_executor_row_usable in *. bool_facts.
  destruct (visible_to (Some owner) (r_owner_email r)) eqn:Hvis; [|done]. simpl in *.
  destruct (bool_decide (r_status r = "active")) eqn:Hst; [|done]. simpl in *.
  assert (row_by_id (list_executors owner table None) (r_executor_id r) = Some r) as Hrow.
  { unfold row_by_id, list_executors. rewrite list_filter_filter.
    apply (unique_row table r _ Hnd Hr). by rewrite Hvis. }
  rewrite narrowed_query. unfold pool_of_rows, primary_of. rewrite Hid, bool_decide_true by done.
  simpl. subst id. rewrite Hrow. destruct (foldl _ _ _). simpl. split; [done|]. split; [done|].
  unfold classify, _classify_state. rewrite Hvis, Hst. simpl.
  match goal with H : is_executor_type_allowed _ _ = true |- _ => rewrite H end. simpl.
  assert (unavailable_executor_reason (r_executor_type r) = None) as ->.
  { unfold is_executor_type_available, unavailable_executor_reason in *. bool_facts.
    by destruct (bool_decide (r_executor_type r ∈ LOCAL_EXECUTOR_TYPES)), package_available. }
  simpl. repeat case_match; rewrite !not_elem_of_cons; split_and!; try done; apply not_elem_of_nil.
Qed.
End Resolution.

(** ** Witness *)

Definition example_row : executor_row :=
  ExecutorRow "e1" "websocket" [] ["*"] [] [] [] "active" 3 3 "active" None false (Some "ann@x").

Lemma explicit_selection_agrees_with_pool_witness :
  let policy := MkPolicy true true in
  let execution := [("executor_id", PStr "e1")] in
  primary (resolve_executor_pool false (λ s, s) (λ _ _, "") policy "ann@x" [example_row] execution) =
    [_target_from_row example_row true "explicit" None USABLE].
Proof.
  intros policy execution.
  refine (proj1 (explicit_selection_agrees_with_pool false (λ s, s) (λ _ _, "") policy "ann@x"
    [example_row] execution "e1" example_row _ _ _ _)).
  - repeat constructor. apply not_elem_of_nil.
  - vm_compute. reflexivity.
  - by vm_compute.
  - vm_compute. reflexivity.
Defined.
