(* ===== verification/Pins.v ===== *)
(** Active executor pins: [cognis/core/executor_switching.py],
    [cognis/core/executor_pin_lifecycle.py] and the pin statements of
    [cognis/store/queries.py].

    A conversation and the task it may belong to each carry the executor they are
    pinned to, with its provenance, expiry and generation.  The database is a record
    of tables; a statement is a function on it, and a transaction that is rolled
    back returns the database it started from.  Times are in microseconds. *)

From S2P Require Import Prelude PyVal Pool.

(** ** The database *)

(** The [active_executor_*] columns shared by [Conversation] and [Task]. *)
Record pin := Pin {
  active_executor_id : option string;
  active_executor_assigned_at : option Z;
  active_executor_expires_at : option Z;
  active_executor_source : option string;
  active_executor_unavailable_since : option Z;
  active_executor_generation : Z;
  updated_at : Z;
}.

Record conversation := Conversation { c_pin : pin; c_active_session_id : option string }.

(** The columns of [Session] a notice copies. *)
Record session_row := Session {
  intaris_session_id : option string;
  user_email : option string;
  agent_id : option string;
}.

(** [ExecutorPinTransitionRow] *)
Record transition := Transition {
  transition_id : string;
  scope_type : string;
  scope_id : string;
  t_generation : Z;
  old_executor_id : string;
  new_executor_id : string;
  t_reason : string;
  notice_id : string;
}.

(** [ExecutorPinNoticeOutboxRow] *)
Record notice_row := Notice {
  outbox_id : string;
  n_transition_id : string;
  n_conversation_id : string;
  n_intaris_session_id : option string;
  idempotency_key : string;
  n_user_email : option string;
  n_agent_id : option string;
  payload : pydict;
}.

Record database := Db {
  conversations : gmap string conversation;
  tasks : gmap string pin;
  sessions : gmap string session_row;
  transitions : list transition;
  outbox : list notice_row;
}.

(** [if x:] on an optional string. *)
Definition given (o : option string) : option string :=
  match o with Some s => if bool_decide (s = "") then None else Some s | None => None end.

Definition set_conversation_pin (d : database) (id : string) (c : conversation) (p : pin) : database :=
  Db (<[id := Conversation p (c_active_session_id c)]> (conversations d)) (tasks d) (sessions d)
    (transitions d) (outbox d).

Definition set_task_pin (d : database) (id : string) (p : pin) : database :=
  Db (conversations d) (<[id := p]> (tasks d)) (sessions d) (transitions d) (outbox d).

(** ** Statements *)

(** The values both setters write; without an executor the columns are cleared. *)
Definition pin_values (p : pin) (executor : option string) (timestamp : Z) (expires : option Z)
    (source : option string) (unavailable : option Z) : pin :=
  match given executor with
  | Some _ => Pin executor (Some timestamp) expires source unavailable
                (active_executor_generation p + 1) timestamp
  | None => Pin executor None None None None (active_executor_generation p + 1) timestamp
  end.

Definition set_conversation_active_executor (d : database) (id : string) (executor : option string)
    (timestamp : Z) (expires : option Z) (source : option string) : database * bool :=
  match conversations d !! id with
  | Some c => (set_conversation_pin d id c (pin_values (c_pin c) executor timestamp expires source None), true)
  | None => (d, false)
  end.

Definition set_task_active_executor (d : database) (id : string) (executor : option string)
    (timestamp : Z) (expires : option Z) (source : option string) : database * bool :=
  match tasks d !! id with
  | Some p => (set_task_pin d id (pin_values p executor timestamp expires source None), true)
  | None => (d, false)
  end.

Definition switch_task_and_conversation_active_executor (d : database) (task_id conversation_id : string)
    (executor : string) (timestamp : Z) (expires : option Z) (source : string)
    : database * (bool * Z) :=
  match conversations d !! conversation_id with
  | None => (d, (false, 0))
  | Some c =>
      match tasks d !! task_id with
      | None => (d, (false, 0))
      | Some p =>
          let p' := Pin (Some executor) (Some timestamp) expires (Some source) None
                      (active_executor_generation p + 1) timestamp in
          (set_conversation_pin (set_task_pin d task_id p') conversation_id c p',
           (true, active_executor_generation p'))
      end
  end.

(** The pin a failover writes. *)
Definition failover_pin (executor : string) (timestamp : Z) (source : string) (generation : Z) : pin :=
  Pin (Some executor) (Some timestamp) None (Some source) None generation timestamp.

(** The compare half of the compare-and-set. *)
Definition pin_matches (p : pin) (executor : string) (generation : Z) : bool :=
  bool_decide (active_executor_id p = Some executor) && (active_executor_generation p =? generation).

Definition state_caveat : string :=
  "The controller did not replay any in-flight, accepted-unknown, or partially delivered operation.".

Definition add_transition (d : database) (t : transition) : database :=
  Db (conversations d) (tasks d) (sessions d) (transitions d ++ [t]) (outbox d).

Definition add_notice (d : database) (n : notice_row) : database :=
  Db (conversations d) (tasks d) (sessions d) (transitions d) (outbox d ++ [n]).

(** The rows a persisted failover leaves for the notice dispatcher. *)
Definition record_failover (d : database) (conversation_id task_id : option string)
    (old new_ reason : string) (generation : Z) : database * string :=
  let authority := default "" (match task_id with Some _ => task_id | None => conversation_id end) in
  let suffix := str_int generation in
  let tid := "epin_" +:+ authority +:+ "_" +:+ suffix in
  let nid := "executor_failover:" +:+ authority +:+ ":" +:+ suffix in
  let text := "Executor changed from '" +:+ old +:+ "' to '" +:+ new_ +:+ "': " +:+
              reason +:+ ". " +:+ state_caveat in
  let d := add_transition d (Transition tid
             (match given task_id with Some _ => "task" | None => "conversation" end)
             (default "" (match given task_id with Some t => Some t | None => conversation_id end))
             generation old new_ reason nid) in
  match given conversation_id with
  | None => (d, nid)
  | Some cid =>
      let active := conversations d !! cid ≫= λ c, given (c_active_session_id c) ≫= λ s, sessions d !! s in
      let intaris := active ≫= intaris_session_id in
      let session := default cid (given intaris) in
      let key := session +:+ ":executor_failover:" +:+ nid in
      (add_notice d (Notice ("epout_" +:+ cid +:+ "_" +:+ suffix) tid cid intaris key
         (active ≫= user_email) (active ≫= agent_id)
         [("event", PStr "system_notice"); ("type", PStr "system_notice");
          ("kind", PStr "executor_failover"); ("notice_id", PStr nid);
          ("old_executor_id", PStr old); ("new_executor_id", PStr new_); ("reason", PStr reason);
          ("state_caveat", PStr state_caveat); ("replay_claim", PBool false); ("message", PStr text);
          ("text", PStr text); ("session_id", PStr session); ("idempotency_key", PStr key);
          ("user_email", match active ≫= user_email with Some e => PStr e | None => PNone end);
          ("agent_id", match active ≫= agent_id with Some a => PStr a | None => PNone end)]), nid)
  end.

Inductive store_error := LostLockedConversation.

Definition cas_executor_failover (d : database) (conversation_id task_id : option string)
    (expected new_ : string) (expected_generation : Z) (reason : string) (timestamp : Z)
    (failover_source : string) : database * result store_error (bool * Z * option string) :=
  let refused := (d, Ok (false, expected_generation, None)) in
  let generation := expected_generation + 1 in
  match given task_id, given conversation_id with
  | Some tid, Some cid =>
      match conversations d !! cid, tasks d !! tid with
      | Some _, Some p =>
          if pin_matches p expected expected_generation then
            let p' := failover_pin new_ timestamp failover_source generation in
            let d := set_task_pin d tid p' in
            match conversations d !! cid with
            | None => (d, Err LostLockedConversation)
            | Some c =>
                let '(d, nid) := record_failover (set_conversation_pin d cid c p') conversation_id
                                   task_id expected new_ reason generation in
                (d, Ok (true, generation, Some nid))
            end
          else refused
      | _, _ => refused
      end
  | Some _, None => refused
  | None, Some cid =>
      match conversations d !! cid with
      | Some c =>
          if pin_matches (c_pin c) expected expected_generation then
            let p' := failover_pin new_ timestamp failover_source generation in
            let '(d, nid) := record_failover (set_conversation_pin d cid c p') conversation_id
                               task_id expected new_ reason generation in
            (d, Ok (true, generation, Some nid))
          else refused
      | None => refused
      end
  | None, None => refused
  end.

Definition legacy (p : pin) : bool :=
  bool_decide (active_executor_source p ∈ [None; Some "initial"]).

Definition with_source (p : pin) (source : string) : pin :=
  Pin (active_executor_id p) (active_executor_assigned_at p) (active_executor_expires_at p)
    (Some source) (active_executor_unavailable_since p) (active_executor_generation p) (updated_at p).

Definition canonicalize_executor_pin_source (d : database) (conversation_id task_id : option string)
    (expected : string) (expected_generation : Z) (source : string) : database * result store_error bool :=
  match given task_id, given conversation_id with
  | Some _, None => (d, Ok false)
  | Some tid, Some cid =>
      match conversations d !! cid, tasks d !! tid with
      | Some c, Some p =>
          if pin_matches p expected expected_generation && legacy p then
            let d := set_task_pin d tid (with_source p source) in
            if pin_matches (c_pin c) expected expected_generation then
              (set_conversation_pin d cid c (with_source (c_pin c) source), Ok true)
            else (d, Err LostLockedConversation)
          else (d, Ok false)
      | _, _ => (d, Ok false)
      end
  | None, Some cid =>
      match conversations d !! cid with
      | Some c =>
          if pin_matches (c_pin c) expected expected_generation && legacy (c_pin c) then
            (set_conversation_pin d cid c (with_source (c_pin c) source), Ok true)
          else (d, Ok false)
      | None => (d, Ok false)
      end
  | None, None => (d, Ok false)
  end.

(** ** Provenance and expiry: [executor_pin_lifecycle.py] *)

Definition DEFAULT_SECONDARY_ASSIGNMENT_TTL_SECONDS : Z := 3600.
Definition DEFAULT_SECONDARY_DISCONNECT_RETRY_SECONDS : Z := 15.
Definition DEFAULT_SECONDARY_DISCONNECT_RETRY_INTERVAL_SECONDS : Z := 3.
Definition CANONICAL_PIN_SOURCES : list string := ["selector_primary"; "explicit_primary"; "additional"].

Definition normalize_active_executor_source (source : option string) (expires_at : option Z)
    (execution : pydict) : option string :=
  if bool_decide (source ∈ map Some CANONICAL_PIN_SOURCES) then source
  else if bool_decide (source ∈ [Some "additional_explicit"; Some "additional"]) then Some "additional"
  else if bool_decide (source ∈ [Some "selector"; Some "auto_failover"]) then Some "selector_primary"
  else if bool_decide (source = Some "explicit") then Some "explicit_primary"
  else if bool_decide (source ∈ [None; Some "initial"; Some "default"]) then
    match expires_at with
    | Some _ => Some "additional"
    | None =>
        if truthy (dict_get "executor_id" execution) then Some "explicit_primary"
        else match dict_get "executor_selector" execution with
             | PDict (_ :: _) => Some "selector_primary"
             | _ => None
             end
    end
  else if bool_decide (source ∈ [Some "user_switch"; Some "agent_switch"]) then
    match expires_at with Some _ => Some "additional" | None => Some "explicit_primary" end
  else source.

Record ExecutorPinFallbackNotice := FallbackNotice {
  previous_executor_id : string;
  f_new_executor_id : string;
  f_reason : string;
  ui_message : string;
  llm_message : string;
}.

Record ExecutorPinLifecycleResult := LifecycleResult {
  l_active_executor_id : option string;
  notice : option ExecutorPinFallbackNotice;
  transient_unavailable : bool;
  retry_after_seconds : option Z;
}.

Definition _fallback_notice (previous new_ reason : string) : ExecutorPinFallbackNotice :=
  FallbackNotice previous new_ reason
    ("Executor '" +:+ previous +:+ "' is no longer available (" +:+ reason +:+ "). " +:+
     "Switched active executor to selector-matching primary '" +:+ new_ +:+ "'. " +:+
     "No in-flight, accepted-unknown, or partially delivered operation was replayed.")
    ("The previously active non-primary executor '" +:+ previous +:+ "' is no longer " +:+
     "available (" +:+ reason +:+ "). The controller switched this session back to primary executor " +:+
     "'" +:+ new_ +:+ "'. Do not assume files, tools, working directory, or local state " +:+
     "from '" +:+ previous +:+ "' are available unless explicitly switched again. " +:+
     "No in-flight, accepted-unknown, or partially delivered operation was replayed.").

Definition _pin_expired (expires_at : option Z) (now : Z) : bool :=
  match expires_at with None => false | Some e => e <=? now end.

(** [ready] says which executors have a ready connection; [None] without a provider. *)
Definition _target_ready (t : ResolvedExecutorTarget) (ready : option (string → bool)) : bool :=
  if negb (usable t) then false
  else match ready with
       | None => true
       | Some ready =>
           if bool_decide (executor_type t ∉ ["websocket"; "subprocess"]) then true
           else ready (executor_id t)
       end.

(** [_coerce_positive_int]; [parse_int] is [int] of a string. *)
Definition _coerce_positive_int (parse_int : string → option Z) (value : pyval) (default_ : Z) : Z :=
  let coerced := match value with
                 | PStr s => parse_int s
                 | PInt z => Some z
                 | PBool b => Some (if b then 1 else 0)
                 | PFloat m e => Some (if 0 <=? e then m * 2 ^ e else Z.quot m (2 ^ (- e)))
                 | _ => None
                 end in
  match coerced with
  | Some z => if 0 <? z then z else default_
  | None => default_
  end.

Definition secondary_pin_expires_at (ttl_seconds assigned_at : Z) : Z :=
  assigned_at + ttl_seconds * 1000000.

(** The outcome of one admission: the database, the result, or the store's error. *)
Section Lifecycle.
Context (ready : option (string → bool)) (execution : pydict) (p : ExecutorPool).

Definition fallback_key (t : ResolvedExecutorTarget) : Z * string :=
  (if _target_ready t ready then 0 else 1, executor_id t).

Definition fallback_candidate : option ResolvedExecutorTarget :=
  match usable_primaries p with
  | [] => None
  | t :: ts => Some (least fallback_key t ts)
  end.

(** The end of [ensure_active_executor_pin]: keep the pin. *)
Definition keep_pin (executor : string) (retry_interval : Z) : ExecutorPinLifecycleResult :=
  if match by_id p executor with Some t => _target_ready t ready | None => false end
  then LifecycleResult (Some executor) None false None
  else LifecycleResult (Some executor) None true (Some retry_interval).

Definition ensure_active_executor_pin (d : database) (conversation_id task_id : option string)
    (active : option string) (expires_at : option Z) (generation : Z)
    (unavailable_since : option Z) (raw_source : option string) (retry_interval now timestamp : Z)
    : database * result store_error ExecutorPinLifecycleResult :=
  let source := normalize_active_executor_source raw_source expires_at execution in
  match given active with
  | None => (d, Ok (LifecycleResult None None false None))
  | Some executor =>
      let '(d1, canonicalized) :=
        match source with
        | Some s =>
            if bool_decide (s ∈ CANONICAL_PIN_SOURCES)
               && bool_decide (raw_source ∈ [None; Some "initial"])
            then canonicalize_executor_pin_source d conversation_id task_id executor generation s
            else (d, Ok false)
        | None => (d, Ok false)
        end in
      match canonicalized with
      | Err e => (d, Err e)
      | Ok _ =>
          if bool_decide (source ∉ map Some CANONICAL_PIN_SOURCES) then
            (d1, Ok (LifecycleResult (Some executor) None false None))
          else
            let additional_expired :=
              bool_decide (source = Some "additional")
              && (bool_decide (expires_at = None) || _pin_expired expires_at now) in
            let keep := (d1, Ok (keep_pin executor retry_interval)) in
            if additional_expired && bool_decide (unavailable_since = None) then
              match fallback_candidate with
              | Some t =>
                  if bool_decide (is_Some (row t)) then
                    let reason := match expires_at with
                                  | None => "secondary assignment has no expiry"
                                  | Some _ => "secondary assignment expired"
                                  end in
                    let fallback_source := if truthy (dict_get "executor_id" execution)
                                           then "explicit_primary" else "selector_primary" in
                    let '(d', cas) := cas_executor_failover d1 conversation_id task_id executor
                                        (executor_id t) generation reason timestamp fallback_source in
                    match cas with
                    | Err e => (d1, Err e)
                    | Ok (true, _, _) =>
                        (d', Ok (LifecycleResult (Some (executor_id t))
                                   (Some (_fallback_notice executor (executor_id t) reason)) false None))
                    | Ok (false, _, _) => keep
                    end
                  else keep
              | None => keep
              end
            else keep
      end
  end.
End Lifecycle.

(** ** Switching: [executor_switching.py] *)

Record SwitchOutcome := Outcome {
  status_ok : bool;
  target : option ResolvedExecutorTarget;
  error_reason : option string;
  error_detail : option string;
  o_is_primary : bool;
  available_tools : option (list string);
}.

Definition to_tool_result (o : SwitchOutcome) : pydict :=
  match status_ok o, target o with
  | true, Some t =>
      [("status", PStr "ok"); ("executor_id", PStr (executor_id t));
       ("executor_type", PStr (executor_type t)); ("is_primary", PBool (o_is_primary o));
       ("state", PStr (availability_value (state t)));
       ("description", match description t with Some s => PStr s | None => PNone end);
       ("available_tools", PList (map PStr (default [] (available_tools o))))]
  | _, _ =>
      [("status", PStr "error"); ("reason", PStr (default "unknown_error" (given (error_reason o))));
       ("detail", PStr (default "" (error_detail o)));
       ("executor_id", match target o with Some t => PStr (executor_id t) | None => PNone end)]
  end.

Definition to_user_message (o : SwitchOutcome) : string :=
  let id := match target o with Some t => executor_id t | None => "<unknown>" end in
  match status_ok o, target o with
  | true, Some t =>
      let kind := if o_is_primary o then "primary" else "additional" in
      "Active executor switched to " +:+ executor_id t +:+ " " +:+
      "(" +:+ executor_type t +:+ ") [" +:+ kind +:+ "]." +:+
      (if o_is_primary o then "" else
       " You are now routing to a non-primary executor. Additional " +:+
       "executors are special-purpose targets, not fallback capacity; " +:+
       "switch_executor or /executor again to return to a primary " +:+
       "when the specific task is done or before unrelated generic " +:+ "work.")
  | _, _ =>
      if bool_decide (error_reason o = Some "not_assigned") then
        "Executor '" +:+ id +:+ "' is not assigned to this agent. " +:+ "Active executor unchanged."
      else if bool_decide (error_reason o = Some "unavailable") then
        "Executor '" +:+ id +:+ "' is unavailable (state: " +:+
        (match target o with Some t => availability_value (state t) | None => "unknown" end) +:+ "). " +:+
        "Active executor unchanged."
      else if bool_decide (error_reason o = Some "conversation_missing") then
        "Could not switch executor — conversation state was not " +:+
        "found. Try again after refreshing the page."
      else "Could not switch executor: " +:+
           default (default "error" (given (error_reason o))) (given (error_detail o))
  end.

(** [perform_executor_switch]; [ttl] is the configured time to live, [None] when the
    settings could not be loaded; [sort] is [sorted] on the observed tool names. *)
Definition perform_executor_switch (sort : list string → list string) (d : database)
    (conversation_id : string) (p : ExecutorPool) (id : string) (task_id : option string)
    (ttl : option Z) (assigned_at : Z) : database * SwitchOutcome :=
  match by_id p id with
  | None =>
      (d, Outcome false (Some (missing_target id false "unknown" None)) (Some "not_assigned")
            (Some ("Executor '" +:+ id +:+ "' is not in the agent's assigned pool.")) false None)
  | Some t =>
      if negb (usable t) then
        (d, Outcome false (Some t) (Some "unavailable")
              (Some ("Executor '" +:+ id +:+ "' is not usable (state: " +:+
                     availability_value (state t) +:+ ").")) false None)
      else
        let expires_at := if is_primary t then None
                          else Some (secondary_pin_expires_at (default 3600 ttl) assigned_at) in
        let source := if is_primary t then "explicit_primary" else "additional" in
        let '(d', ok) :=
          match given task_id with
          | Some tid =>
              let '(d', (ok, _)) := switch_task_and_conversation_active_executor d tid conversation_id
                                      (executor_id t) assigned_at expires_at source in (d', ok)
          | None => set_conversation_active_executor d conversation_id (Some (executor_id t))
                      assigned_at expires_at (Some source)
          end in
        if negb ok then
          (d, Outcome false (Some t) (Some "conversation_missing")
                (Some ("Conversation '" +:+ conversation_id +:+ "' not found; cannot persist switch."))
                false None)
        else (d', Outcome true (Some t) None None (is_primary t) (Some (sort (observed_tool_names t))))
  end.

(** ** Lemmas *)

Lemma record_failover_tables d cid tid old new_ reason g :
  conversations (record_failover d cid tid old new_ reason g).1 = conversations d ∧
  tasks (record_failover d cid tid old new_ reason g).1 = tasks d.
Proof. unfold record_failover. by destruct (given cid). Qed.

(** A compare-and-set either changes nothing, or moves the authority from the
    expected pin to the new one, and a task's conversation along with it. *)
Lemma cas_cases d cid tid expected new_ g reason now source :
  let '(d', r) := cas_executor_failover d cid tid expected new_ g reason now source in
  let p' := failover_pin new_ now source (g + 1) in
  (d' = d ∧ r = Ok (false, g, None)) ∨
  ((∃ nid, r = Ok (true, g + 1, Some nid)) ∧
   ∃ c conv, given cid = Some c ∧ conversations d !! c = Some conv ∧
     conversations d' = <[c := Conversation p' (c_active_session_id conv)]> (conversations d) ∧
     match given tid with
     | Some t => ∃ p, tasks d !! t = Some p ∧ pin_matches p expected g = true ∧
                      tasks d' = <[t := p']> (tasks d)
     | None => pin_matches (c_pin conv) expected g = true ∧ tasks d' = tasks d
     end).
Proof.
  unfold cas_executor_failover. destruct (given tid) as [t|], (given cid) as [c|] eqn:Hcid; try (by left).
  - destruct (conversations d !! c) as [conv|] eqn:Hconv; [|by left].
    destruct (tasks d !! t) as [p|] eqn:Htask; [|by left].
    destruct (pin_matches p expected g) eqn:Hm; [|by left]. simpl. rewrite Hconv.
    destruct (record_failover _ cid tid expected new_ reason (g + 1)) as [d2 nid] eqn:Hr.
    match type of Hr with record_failover ?x _ _ _ _ _ _ = _ =>
      pose proof (record_failover_tables x cid tid expected new_ reason (g + 1)) as [Hc Ht] end.
    rewrite Hr in Hc, Ht. simpl in Hc, Ht. right. split; [by eexists|]. exists c, conv. eauto 10.
  - destruct (conversations d !! c) as [conv|] eqn:Hconv; [|by left].
    destruct (pin_matches (c_pin conv) expected g) eqn:Hm; [|by left].
    destruct (record_failover _ cid tid expected new_ reason (g + 1)) as [d2 nid] eqn:Hr.
    match type of Hr with record_failover ?x _ _ _ _ _ _ = _ =>
      pose proof (record_failover_tables x cid tid expected new_ reason (g + 1)) as [Hc Ht] end.
    rewrite Hr in Hc, Ht. simpl in Hc, Ht. right. split; [by eexists|]. exists c, conv. eauto 10.
Qed.

(** ** Histories of one database *)

Inductive pin_op :=
| OpSetConversation (id : string) (executor : option string) (now : Z) (expires : option Z) (source : option string)
| OpSetTask (id : string) (executor : option string) (now : Z) (expires : option Z) (source : option string)
| OpSwitch (tid cid executor : string) (now : Z) (expires : option Z) (source : string)
| OpFailover (cid tid : option string) (expected new_ : string) (g : Z) (reason : string) (now : Z) (source : string)
| OpCanonicalize (cid tid : option string) (expected : string) (g : Z) (source : string).

(** A statement whose transaction raises is rolled back. *)
Definition pin_exec (d : database) (op : pin_op) : database :=
  match op with
  | OpSetConversation i e n x s => (set_conversation_active_executor d i e n x s).1
  | OpSetTask i e n x s => (set_task_active_executor d i e n x s).1
  | OpSwitch t c e n x s => (switch_task_and_conversation_active_executor d t c e n x s).1
  | OpFailover c t e n g r now s =>
      let '(d', res) := cas_executor_failover d c t e n g r now s in
      match res with Ok _ => d' | Err _ => d end
  | OpCanonicalize c t e g s =>
      let '(d', res) := canonicalize_executor_pin_source d c t e g s in
      match res with Ok _ => d' | Err _ => d end
  end.

(** A task's generation has passed [g]. *)
Definition generation_past (tid : string) (g : Z) (d : database) : Prop :=
  match tasks d !! tid with Some p => g < active_executor_generation p | None => True end.

Lemma generation_past_insert tid g d t p p' :
  tasks d !! t = Some p → active_executor_generation p ≤ active_executor_generation p' →
  generation_past tid g d →
  match (<[t := p']> (tasks d)) !! tid with Some p => g < active_executor_generation p | None => True end.
Proof.
  intros Ht Hle Hg. unfold generation_past in Hg. destruct (decide (t = tid)) as [->|Hne].
  - rewrite lookup_insert_eq. rewrite Ht in Hg. lia.
  - by rewrite lookup_insert_ne.
Qed.

Lemma pin_exec_generation tid g d op : generation_past tid g d → generation_past tid g (pin_exec d op).
Proof.
  intros Hg. destruct op as [i e n x s|i e n x s|t c e n x s|c t e n g' r now s|c t e g' s]; simpl.
  - unfold set_conversation_active_executor. by destruct (conversations d !! i).
  - unfold set_task_active_executor. destruct (tasks d !! i) as [p|] eqn:Hp; [|done].
    eapply generation_past_insert; [done| |done]. unfold pin_values. destruct (given e); simpl; lia.
  - unfold switch_task_and_conversation_active_executor.
    destruct (conversations d !! c); [|done]. destruct (tasks d !! t) as [p|] eqn:Hp; [|done].
    eapply generation_past_insert; [done| |done]. simpl. lia.
  - pose proof (cas_cases d c t e n g' r now s) as Hc.
    destruct (cas_executor_failover d c t e n g' r now s) as [d' res].
    destruct Hc as [[-> ->]|[[nid ->] (ci & conv & _ & _ & _ & Ht)]]; [done|].
    unfold generation_past. destruct (given t) as [ti|]; [|by destruct Ht as [_ ->]].
    destruct Ht as (p & Hp & Hm & ->). eapply generation_past_insert; [done| |done].
    unfold pin_matches in Hm. bool_facts. simpl. lia.
  - unfold canonicalize_executor_pin_source.
    destruct (given t) as [ti|], (given c) as [ci|]; try done.
    + repeat (case_match; simplify_eq/=; try done).
      all: eapply generation_past_insert; [done| |done]; simpl; lia.
    + repeat (case_match; simplify_eq/=; try done).
Qed.

(** ** Properties *)

(** C37. A failover happens once per generation: when the compare-and-set of a task's
    pin succeeds, the task and its conversation are moved together to the same pin
    with the next generation, and in every later history of switches, failovers and
    provenance fixes a second failover from that generation is refused without a
    change, so two controllers never fail the same pin over twice. *)
Theorem failover_once_per_generation d cid tid expected new_ g reason now source tr d' r
    expected2 new2 cid2 reason2 now2 source2 t :
  given tid = Some t →
  cas_executor_failover d cid tid expected new_ g reason now source = (d', Ok r) → r.1.1 = true →
  (∃ c conv, given cid = Some c ∧ conversations d' !! c = Some conv ∧
     tasks d' !! t = Some (c_pin conv) ∧ active_executor_id (c_pin conv) = Some new_ ∧
     active_executor_generation (c_pin conv) = g + 1) ∧
  let d2 := run pin_exec d' tr in
  cas_executor_failover d2 cid2 tid expected2 new2 g reason2 now2 source2 = (d2, Ok (false, g, None)).
Proof.
  intros Ht Hcas Hok. pose proof (cas_cases d cid tid expected new_ g reason now source) as Hc.
  rewrite Hcas in Hc. destruct Hc as [[-> [= ->]]|[[nid [= ->]] (c & conv & Hc & Hconv & Hd' & Htask)]];
    [done|]. rewrite Ht in Htask. destruct Htask as (p & Hp & Hm & Htasks). split.
  - exists c, (Conversation (failover_pin new_ now source (g + 1)) (c_active_session_id conv)).
    rewrite Hd', Htasks, !lookup_insert_eq. done.
  - intros d2. assert (generation_past t g d2) as Hpast.
    { apply (run_invariant pin_exec (generation_past t g)); [|intros; by apply pin_exec_generation].
      unfold generation_past. rewrite Htasks, lookup_insert_eq. simpl. lia. }
    pose proof (cas_cases d2 cid2 tid expected2 new2 g reason2 now2 source2) as Hc2.
    destruct (cas_executor_failover d2 cid2 tid expected2 new2 g reason2 now2 source2) as [d3 r3].
    destruct Hc2 as [[-> ->]|[_ (c2 & conv2 & _ & _ & _ & Ht2)]]; [done|exfalso].
    rewrite Ht in Ht2. destruct Ht2 as (p2 & Hp2 & Hm2 & _). unfold generation_past in Hpast.
    rewrite Hp2 in Hpast. unfold pin_matches in Hm2. bool_facts. lia.
Qed.

Lemma by_id_spec p id t : by_id p id = Some t → executor_id t = id ∧ t ∈ all p.
Proof. unfold by_id. intros H%head_Some_elem_of. by apply list_elem_of_filter in H. Qed.

Ltac fail_case :=
  split; [done|]; split; (split; [intros; simplify_eq; eauto|]); intros; destruct_and?; naive_solver congruence.

(** A switch either fails and leaves the database untouched (the executor is not
    assigned, not usable, or a row is missing), or pins the conversation to exactly
    the requested executor with the provenance and expiry of its role, one
    generation on, and a task to the very same pin; nothing else changes. *)
Theorem switch_is_all_or_nothing sort d cid p id tid ttl now :
  id ≠ "" →
  let '(d', o) := perform_executor_switch sort d cid p id tid ttl now in
  if status_ok o then
    ∃ t conv pin', by_id p id = Some t ∧ usable t = true ∧ conversations d !! cid = Some conv ∧
      conversations d' = <[cid := Conversation pin' (c_active_session_id conv)]> (conversations d) ∧
      active_executor_id pin' = Some id ∧
      active_executor_source pin' = Some (if is_primary t then "explicit_primary" else "additional") ∧
      active_executor_expires_at pin' =
        (if is_primary t then None else Some (now + default 3600 ttl * 1000000)) ∧
      match given tid with
      | Some ti => ∃ q, tasks d !! ti = Some q ∧ tasks d' = <[ti := pin']> (tasks d) ∧
                        active_executor_generation pin' = active_executor_generation q + 1
      | None => tasks d' = tasks d ∧
                active_executor_generation pin' = active_executor_generation (c_pin conv) + 1
      end
  else
    d' = d ∧
    (error_reason o = Some "not_assigned" ↔ by_id p id = None) ∧
    (error_reason o = Some "unavailable" ↔ ∃ t, by_id p id = Some t ∧ usable t = false).
Proof.
  intros Hid. unfold perform_executor_switch. destruct (by_id p id) as [t|] eqn:Hby; simpl; [|fail_case].
  destruct (by_id_spec p id t Hby) as [He _].
  destruct (usable t) eqn:Hu; simpl; [|fail_case].
  set (expires := if is_primary t then None else _). set (source := if is_primary t then _ else _).
  assert (given (Some (executor_id t)) = Some id) as Hgiven.
  { simpl. by rewrite He, bool_decide_false. }
  destruct (given tid) as [ti|].
  - unfold switch_task_and_conversation_active_executor.
    destruct (conversations d !! cid) as [conv|] eqn:Hconv; simpl; [|fail_case].
    destruct (tasks d !! ti) as [q|] eqn:Hq; simpl; [|fail_case].
    exists t, conv. eexists. split_and!; try done; [simpl; by rewrite He|].
    exists q. done.
  - unfold set_conversation_active_executor.
    destruct (conversations d !! cid) as [conv|] eqn:Hconv; cbn [negb status_ok].
    2:{ simpl. split_and!; [done|split; intros; simplify_eq|]. split; [done|]. intros (? & ? & ?); congruence. }
    exists t, conv. eexists. split_and!; try done; unfold pin_values; rewrite Hgiven; simpl; by rewrite ?He.
Qed.

(** Pins are the same up to their provenance. *)
Definition blur (p : pin) : pin := with_source p "".

Definition same_authority (d d' : database) : Prop :=
  (∀ t, blur <$> tasks d' !! t = blur <$> tasks d !! t) ∧
  (∀ c, (blur ∘ c_pin) <$> conversations d' !! c = (blur ∘ c_pin) <$> conversations d !! c).

Lemma same_authority_conversation d c conv source :
  conversations d !! c = Some conv →
  same_authority d (set_conversation_pin d c conv (with_source (c_pin conv) source)).
Proof.
  intros Hc. split; [done|]. intros c'. simpl. destruct (decide (c = c')) as [<-|Hne].
  - by rewrite lookup_insert_eq, Hc.
  - by rewrite lookup_insert_ne.
Qed.

Lemma same_authority_task d t p source :
  tasks d !! t = Some p → same_authority d (set_task_pin d t (with_source p source)).
Proof.
  intros Hp. split; [|done]. intros t'. simpl. destruct (decide (t = t')) as [<-|Hne].
  - by rewrite lookup_insert_eq, Hp.
  - by rewrite lookup_insert_ne.
Qed.

Lemma same_authority_trans d1 d2 d3 :
  same_authority d1 d2 → same_authority d2 d3 → same_authority d1 d3.
Proof. intros [H1 H2] [H3 H4]. split; intros; [by rewrite H3|by rewrite H4]. Qed.

Lemma canonicalize_same_authority d c t e g s d' b :
  canonicalize_executor_pin_source d c t e g s = (d', Ok b) → same_authority d d'.
Proof.
  unfold canonicalize_executor_pin_source. intros H.
  repeat (case_match; simplify_eq/=; try done).
  - eapply same_authority_trans; [by apply same_authority_task|].
    by apply (same_authority_conversation (set_task_pin d _ _)).
  - by apply same_authority_conversation.
Qed.

Lemma fallback_candidate_spec ready p t :
  fallback_candidate ready p = Some t →
  t ∈ primary p ∧ usable t = true ∧
  ∀ u, u ∈ primary p → usable u = true → key_le (fallback_key ready t) (fallback_key ready u) = true.
Proof.
  assert (∀ u, u ∈ usable_primaries p ↔ usable u = true ∧ u ∈ primary p) as Hu.
  { intros u. unfold usable_primaries. by rewrite list_elem_of_filter. }
  unfold fallback_candidate. destruct (usable_primaries p) as [|x xs]; [done|]. intros [= <-].
  destruct (least_spec (fallback_key ready) x xs) as [Hin Hmin]. apply Hu in Hin as [? ?].
  split; [done|]. split; [done|]. intros u Hup Hus. apply Hmin, Hu. done.
Qed.

(** Admission never moves a pin by itself: the selected executor is kept (only
    legacy provenance is rewritten), except that a secondary assignment without
    expiry or past it, and not in recovery, falls back to the best usable primary by
    transport readiness; then the conversation, and its task, are durably pinned to
    that primary without an expiry before it is returned. *)
Theorem admission_keeps_the_pin ready execution p d cid tid active expires g unavailable raw
    interval now timestamp d' res :
  ensure_active_executor_pin ready execution p d cid tid active expires g unavailable raw interval
    now timestamp = (d', Ok res) →
  (l_active_executor_id res = given active ∧ notice res = None ∧ same_authority d d') ∨
  (∃ t c conv,
    normalize_active_executor_source raw expires execution = Some "additional" ∧
    (expires = None ∨ _pin_expired expires now = true) ∧ unavailable = None ∧
    fallback_candidate ready p = Some t ∧ t ∈ primary p ∧ usable t = true ∧
    (∀ u, u ∈ primary p → usable u = true → key_le (fallback_key ready t) (fallback_key ready u) = true) ∧
    l_active_executor_id res = Some (executor_id t) ∧
    given cid = Some c ∧ conversations d' !! c = Some conv ∧
    active_executor_id (c_pin conv) = Some (executor_id t) ∧
    active_executor_expires_at (c_pin conv) = None ∧
    match given tid with Some ti => tasks d' !! ti = Some (c_pin conv) | None => True end).
Proof.
  unfold ensure_active_executor_pin. set (source := normalize_active_executor_source _ _ _).
  destruct (given active) as [e|]; [|intros [= <- <-]; by left].
  destruct (match source with Some _ => _ | None => _ end) as [d1 canon] eqn:Hcanon.
  destruct canon as [b|]; [|done].
  assert (same_authority d d1) as Hsame.
  { destruct source as [s|]; [|by simplify_eq].
    destruct (_ && _); [by eapply canonicalize_same_authority|by simplify_eq]. }
  assert (∀ x, (d1, Ok (keep_pin ready p e interval)) = (x, Ok res : result store_error _) →
    l_active_executor_id res = Some e ∧ notice res = None ∧ same_authority d x) as Hkeep.
  { intros x [= <- <-]. unfold keep_pin. by repeat case_match. }
  clear Hcanon.   case_bool_decide as Hcanonical; [intros [= <- <-]; by left|].
  destruct (_ && bool_decide (unavailable = None)) eqn:Hexp; [|intros Hr; left; by apply Hkeep].
  apply andb_true_iff in Hexp as [Hexp Hun]. apply bool_decide_eq_true in Hun.
  apply andb_true_iff in Hexp as [Hadd Hexp]. apply bool_decide_eq_true in Hadd.
  destruct (fallback_candidate ready p) as [t|] eqn:Hf; [|intros Hr; left; by apply Hkeep].
  destruct (bool_decide (is_Some (row t))); [|intros Hr; left; by apply Hkeep].
  destruct (fallback_candidate_spec ready p t Hf) as (Hin & Hus & Hmin).
  set (reason := match expires with None => _ | _ => _ end). set (fs := if truthy _ then _ else _).
  pose proof (cas_cases d1 cid tid e (executor_id t) g reason timestamp fs) as Hcas.
  destruct (cas_executor_failover d1 cid tid e (executor_id t) g reason timestamp fs) as [d2 r2].
  destruct Hcas as [[-> ->]|[[nid ->] (c & conv & Hc & Hconv & Hcs & Ht)]].
  { intros Hr. left. by apply Hkeep. }
  intros [= <- <-]. right. exists t, c, (Conversation (failover_pin (executor_id t) timestamp fs (g + 1))
    (c_active_session_id conv)).
  split_and!; try done.
  - apply orb_true_iff in Hexp as [?|?]; bool_facts; auto.
  - by rewrite Hcs, lookup_insert_eq.
  - destruct (given tid) as [ti|]; [|done]. destruct Ht as (q & _ & _ & ->). by rewrite lookup_insert_eq.
Qed.

(** ** Witnesses *)

Definition example_target (id : string) (primary : bool) : ResolvedExecutorTarget :=
  Target id "websocket" primary "selector" None USABLE ["*"] [] [PStr "bash"] "active" 1 1 None [] [] None
    (Some example_row).

Definition example_pool : ExecutorPool := Pool [example_target "e1" true] [example_target "e2" false].

Definition example_pin : pin := Pin (Some "e2") (Some 5) (Some 100) (Some "additional") None 7 5.

Definition example_db : database :=
  Db {["c" := Conversation example_pin (Some "s")]} {["t" := example_pin]}
    {["s" := Session (Some "i") (Some "ann@x") None]} [] [].

Lemma failover_once_per_generation_witness :
  let d' := (cas_executor_failover example_db (Some "c") (Some "t") "e2" "e1" 7 "expired" 200 "selector_primary").1 in
  let d2 := run pin_exec d' [OpSwitch "t" "c" "e2" 300 None "additional"] in
  cas_executor_failover d2 (Some "c") (Some "t") "e2" "e1" 7 "expired" 400 "selector_primary" =
    (d2, Ok (false, 7, None)).
Proof.
  intros d' d2.
  refine (proj2 (failover_once_per_generation example_db (Some "c") (Some "t") "e2" "e1" 7 "expired" 200
    "selector_primary" [OpSwitch "t" "c" "e2" 300 None "additional"] d'
    (true, 8, Some "executor_failover:t:8") "e2" "e1" (Some "c") "expired" 400 "selector_primary" "t" _ _ _));
    vm_compute; reflexivity.
Defined.

Lemma switch_is_all_or_nothing_witness :
  let r := perform_executor_switch id example_db "c" example_pool "e1" (Some "t") (Some 60) 50 in
  ∃ t, by_id example_pool "e1" = Some t ∧ usable t = true.
Proof.
  intros r.
  pose proof (switch_is_all_or_nothing id example_db "c" example_pool "e1" (Some "t") (Some 60) 50
    ltac:(done)) as H.
  vm_compute in H. destruct H as (t & conv & pin' & Ht & Hu & _). exists t.
  split; [exact Ht|exact Hu].
Defined.

Lemma admission_keeps_the_pin_witness :
  let r := ensure_active_executor_pin (Some (λ _, true)) [] example_pool example_db (Some "c") (Some "t")
             (Some "e2") (Some 100) 7 None (Some "additional") 3 150 151 in
  ∃ d' res q, r = (d', Ok res) ∧ l_active_executor_id res = Some "e1" ∧
    tasks d' !! "t" = Some q ∧ active_executor_id q = Some "e1".
Proof.
  intros r. destruct r as [d' [res|err]] eqn:Hr; [|vm_compute in Hr; discriminate].
  destruct (admission_keeps_the_pin _ _ _ _ _ _ _ _ _ _ _ _ _ _ d' res Hr)
    as [(Hkept & _)|(t & c & conv & _ & _ & _ & Ht & _ & _ & _ & Hl & _ & _ & Hc & _ & Htask)].
  - exfalso. vm_compute in Hr. injection Hr as <- <-. vm_compute in Hkept. discriminate.
  - vm_compute in Ht. injection Ht as <-. exists d', res, (c_pin conv).
    split; [reflexivity|]. split; [exact Hl|]. split; [exact Htask|exact Hc].
Defined.
