(* ===== verification/Timeline.v ===== *)
(** Chat timeline order and cycles: [cognis/api/chat_v2/item_keys.py] and [cycles.py].

    Items of a timeline are ordered by comparing encoded text keys; the theorem shows
    when that order is the order of the numbers encoded.  Cycle states fold the items
    of a timeline into one state per turn and cycle. *)

From S2P Require Import Prelude PyVal.

(** ** Sort keys *)

Definition KIND_RANK : list (string * Z) :=
  [("user_message", 0); ("thinking", 1); ("assistant_message", 2); ("assistant_deliverable", 3);
   ("tool_call", 3); ("tool_result", 3); ("evaluation", 3); ("delegation", 4);
   ("managed_conversation", 4); ("task", 5); ("question_set", 6); ("auth_challenge", 6);
   ("credential_request", 6); ("user_interaction", 6); ("todo_state", 7); ("artifact", 8);
   ("file_diff", 8); ("system_message", 9); ("compaction", 10); ("recap", 10); ("handoff", 10);
   ("notice", 10); ("error", 11); ("unknown", 12)].

Definition ORDER_KEY_NO_LINEAGE : Z := 9999.
Definition ORDER_KEY_NO_SEQ : Z := 10 ^ 15 - 1.
Definition ORDER_KEY_ACTIVE_LINEAGE : Z := 9998.
Definition ORDER_KEY_PRE_TURN_LINEAGE : Z := 9997.

Definition digit (z : Z) : Ascii.ascii := Ascii.ascii_of_N (48 + Z.to_N z).

(** Decimal digits of a non-negative integer; the fuel bounds their number. *)
Fixpoint decimal (fuel : nat) (z : Z) : text :=
  match fuel with
  | O => [digit (z mod 10)]
  | S fuel => if z <? 10 then [digit z] else decimal fuel (z / 10) ++ [digit (z mod 10)]
  end.

Definition str_nat (z : Z) : text := decimal (Z.to_nat (Z.log2 z)) z.

(** [f"{z:0wd}"] *)
Definition zero_padded (w : nat) (z : Z) : text :=
  if z <? 0 then let d := str_nat (- z) in tx "-" ++ replicate (w - 1 - length d) (digit 0) ++ d
  else let d := str_nat z in replicate (w - length d) (digit 0) ++ d.

Definition encode_timeline_sort_key (lineage seq phase : option Z) (kind_rank local : Z) : text :=
  let li := default ORDER_KEY_NO_LINEAGE lineage in
  let s := default ORDER_KEY_NO_SEQ seq in
  let p := default 0 phase in
  zero_padded 4 li ++ tx ":" ++ zero_padded 15 s ++ tx ":" ++ zero_padded 6 p ++ tx ":" ++
  zero_padded 2 kind_rank ++ tx ":" ++ zero_padded 9 local.

Definition runtime_timeline_sort_key (phase : option Z) (kind_rank local : Z) : text :=
  encode_timeline_sort_key (Some ORDER_KEY_ACTIVE_LINEAGE) None phase kind_rank local.

Definition pre_turn_runtime_timeline_sort_key (kind_rank local : Z) : text :=
  encode_timeline_sort_key (Some ORDER_KEY_PRE_TURN_LINEAGE) None None kind_rank local.

Definition late_runtime_timeline_sort_key (kind_rank local : Z) : text :=
  encode_timeline_sort_key (Some ORDER_KEY_NO_LINEAGE) None None kind_rank local.

Definition assistant_message_item_id (message_id : string) (phase : option Z) : string :=
  match phase with
  | Some p => "message:" +:+ message_id +:+ ":phase:" +:+ str_int p
  | None => "message:" +:+ message_id
  end.

Definition thinking_item_id (message_id : string) (phase : option Z) (block_id : string) : string :=
  match phase with
  | Some p => "thinking:" +:+ message_id +:+ ":phase:" +:+ str_int p +:+ ":" +:+ block_id
  | None => "thinking:" +:+ message_id +:+ ":" +:+ block_id
  end.

(** Comparison of texts by code point. *)
Fixpoint text_compare (s t : text) : comparison :=
  match s, t with
  | [], [] => Eq
  | [], _ :: _ => Lt
  | _ :: _, [] => Gt
  | a :: s, b :: t => match Ascii.compare a b with Eq => text_compare s t | c => c end
  end.

(** Comparison of tuples of numbers. *)
Fixpoint tuple_compare (x y : list Z) : comparison :=
  match x, y with
  | [], [] => Eq
  | [], _ :: _ => Lt
  | _ :: _, [] => Gt
  | a :: x, b :: y => match Z.compare a b with Eq => tuple_compare x y | c => c end
  end.

Definition key_tuple (lineage seq phase : option Z) (kind_rank local : Z) : list Z :=
  [default ORDER_KEY_NO_LINEAGE lineage; default ORDER_KEY_NO_SEQ seq; default 0 phase; kind_rank; local].

(** *** Lemmas on fixed-width decimals *)

Fixpoint fixed (w : nat) (z : Z) : text :=
  match w with
  | O => []
  | S w => fixed w (z / 10) ++ [digit (z mod 10)]
  end.

Lemma fixed_zero w : fixed w 0 = replicate w (digit 0).
Proof. induction w as [|w IH]; [done|]. cbn [fixed]. change (0 / 10) with 0. change (0 mod 10) with 0.
  by rewrite IH, <- replicate_S_end. Qed.

Lemma length_fixed w z : length (fixed w z) = w.
Proof. revert z. induction w as [|w IH]; intros z; simpl; [done|]. rewrite length_app, IH. simpl. lia. Qed.

Lemma decimal_fixed fuel (w : nat) z :
  0 ≤ z < 10 ^ w → z < 2 ^ S fuel → (0 < w)%nat →
  replicate (w - length (decimal fuel z)) (digit 0) ++ decimal fuel z = fixed w z.
Proof.
  revert w z. induction fuel as [|fuel IH]; intros w z Hz Hfuel Hw.
  - destruct w as [|w]; [lia|]. simpl in Hfuel. cbn [decimal fixed]. simpl length.
    replace (z / 10) with 0 by (symmetry; apply Z.div_small; lia).
    rewrite fixed_zero. do 2 f_equal. lia.
  - destruct w as [|w]; [lia|]. cbn [decimal fixed]. destruct (Z.ltb_spec z 10).
    + simpl length. replace (z / 10) with 0 by (symmetry; apply Z.div_small; lia).
      rewrite fixed_zero, Z.mod_small by lia. do 2 f_equal. lia.
    + rewrite length_app. simpl length.
      replace (S w - (length (decimal fuel (z / 10)) + 1))%nat with (w - length (decimal fuel (z / 10)))%nat by lia.
      rewrite app_assoc. f_equal. apply IH.
      * split; [apply Z.div_pos; lia|]. apply Z.div_lt_upper_bound; [lia|].
        rewrite Nat2Z.inj_succ, Z.pow_succ_r in Hz by lia. lia.
      * apply Z.div_lt_upper_bound; [lia|].
        rewrite (Nat2Z.inj_succ (S fuel)), Z.pow_succ_r in Hfuel by lia. lia.
      * destruct w; [simpl in Hz; lia|lia].
Qed.

Lemma zero_padded_fixed (w : nat) z : (0 < w)%nat → 0 ≤ z < 10 ^ w → zero_padded w z = fixed w z.
Proof.
  intros Hw Hz. unfold zero_padded, str_nat. rewrite (proj2 (Z.ltb_ge z 0)) by lia.
  apply decimal_fixed; [done| |done]. rewrite Nat2Z.inj_succ, Z2Nat.id by apply Z.log2_nonneg.
  destruct (decide (z = 0)) as [->|]; [done|]. apply Z.log2_spec. lia.
Qed.

Lemma text_compare_app s s' t t' :
  length s = length s' →
  text_compare (s ++ t) (s' ++ t') =
  match text_compare s s' with Eq => text_compare t t' | c => c end.
Proof.
  revert s'. induction s as [|a s IH]; intros [|b s']; simpl; try done; intros [= Hl].
  destruct (Ascii.compare a b); [by apply IH|done|done].
Qed.

Lemma text_compare_refl s : text_compare s s = Eq.
Proof. induction s as [|a s IH]; simpl; [done|]. by rewrite ascii_compare_spec, N.compare_refl. Qed.

Lemma digit_compare x y : 0 ≤ x < 10 → 0 ≤ y < 10 → Ascii.compare (digit x) (digit y) = Z.compare x y.
Proof.
  intros Hx Hy. rewrite ascii_compare_spec. unfold digit.
  rewrite !Ascii.N_ascii_embedding by lia. rewrite <- N2Z.inj_compare.
  destruct (Z.compare_spec x y); [apply Z.compare_eq_iff|apply Z.compare_lt_iff|apply Z.compare_gt_iff]; lia.
Qed.

Lemma fixed_compare (w : nat) x y :
  0 ≤ x < 10 ^ w → 0 ≤ y < 10 ^ w → text_compare (fixed w x) (fixed w y) = Z.compare x y.
Proof.
  revert x y. induction w as [|w IH]; intros x y Hx Hy.
  - simpl in *. by replace x with y by lia; rewrite Z.compare_refl.
  - cbn [fixed]. rewrite text_compare_app by by rewrite !length_fixed.
    rewrite Nat2Z.inj_succ, Z.pow_succ_r in Hx, Hy by lia.
    rewrite IH by (split; [apply Z.div_pos; lia|apply Z.div_lt_upper_bound; lia]).
    pose proof (Z.mod_pos_bound x 10). pose proof (Z.mod_pos_bound y 10).
    pose proof (Z.div_mod x 10). pose proof (Z.div_mod y 10).
    cbn [text_compare]. rewrite digit_compare by lia.
    destruct (Z.compare_spec (x / 10) (y / 10)), (Z.compare_spec (x mod 10) (y mod 10)); symmetry;
      first [apply Z.compare_eq_iff; lia|apply Z.compare_lt_iff; lia|apply Z.compare_gt_iff; lia].
Qed.

(** One field of a key decides, or leaves the decision to the rest. *)
Lemma field_compare (w : nat) x y s t :
  (0 < w)%nat → 0 ≤ x < 10 ^ w → 0 ≤ y < 10 ^ w →
  text_compare (zero_padded w x ++ s) (zero_padded w y ++ t) =
  match Z.compare x y with Eq => text_compare s t | c => c end.
Proof.
  intros Hw Hx Hy. rewrite !zero_padded_fixed by done.
  rewrite text_compare_app by by rewrite !length_fixed. by rewrite fixed_compare.
Qed.

Lemma colon_compare s t : text_compare (tx ":" ++ s) (tx ":" ++ t) = text_compare s t.
Proof. done. Qed.

(** The fields fit their widths. *)
Definition key_in_range (k : list Z) : Prop :=
  Forall2 (λ z (w : nat), 0 ≤ z < 10 ^ w) k [4; 15; 6; 2; 9]%nat.

Lemma fits {A B} (P : A → B → Prop) a b c d e a' b' c' d' e' :
  Forall2 P [a; b; c; d; e] [a'; b'; c'; d'; e'] → P a a' ∧ P b b' ∧ P c c' ∧ P d d' ∧ P e e' ∧ True.
Proof. intros H. by repeat match goal with H : Forall2 _ _ _ |- _ => inversion H; clear H; subst end. Qed.

Lemma encode_order l1 s1 p1 k1 n1 l2 s2 p2 k2 n2 :
  key_in_range (key_tuple l1 s1 p1 k1 n1) →
  key_in_range (key_tuple l2 s2 p2 k2 n2) →
  text_compare (encode_timeline_sort_key l1 s1 p1 k1 n1) (encode_timeline_sort_key l2 s2 p2 k2 n2) =
  tuple_compare (key_tuple l1 s1 p1 k1 n1) (key_tuple l2 s2 p2 k2 n2).
Proof.
  unfold key_in_range, key_tuple, encode_timeline_sort_key.
  intros (?&?&?&?&?&_)%fits (?&?&?&?&?&_)%fits. cbv zeta.
  do 4 (rewrite field_compare by (done || lia); rewrite colon_compare).
  rewrite <- (app_nil_r (zero_padded 9 n1)), <- (app_nil_r (zero_padded 9 n2)).
  by rewrite field_compare by (done || lia).
Qed.

(** Every rank of the table fits its field. *)
Lemma kind_rank_bound kind r : od_get kind KIND_RANK = Some r → 0 ≤ r < 10 ^ 2%nat.
Proof.
  intros Hr%od_get_elem.
  assert (Forall (λ kr : string * Z, 0 ≤ kr.2 < 10 ^ 2%nat) KIND_RANK) as Hall
    by (apply (bool_decide_unpack _); by vm_compute).
  rewrite Forall_forall in Hall. by apply (Hall (kind, r)).
Qed.

Lemma overlay_in_range lineage phase rank local :
  0 ≤ lineage ≤ ORDER_KEY_NO_LINEAGE → 0 ≤ default 0 phase < 10 ^ 6 → 0 ≤ rank < 10 ^ 2%nat →
  0 ≤ local < 10 ^ 9 → key_in_range (key_tuple (Some lineage) None phase rank local).
Proof. intros. unfold key_in_range, ORDER_KEY_NO_LINEAGE in *.
  repeat apply Forall2_cons_2; simpl in *; [lia|done|lia..|constructor].
Qed.

(** The encoded keys of two timeline items compare as text exactly as the tuples
    of the numbers encoded compare, missing lineages and sequence numbers counting
    as the sentinels and a missing phase as zero, whenever every number fits its field. *)
Theorem sort_key_order l1 s1 p1 k1 n1 l2 s2 p2 k2 n2 :
  key_in_range (key_tuple l1 s1 p1 k1 n1) →
  key_in_range (key_tuple l2 s2 p2 k2 n2) →
  text_compare (encode_timeline_sort_key l1 s1 p1 k1 n1) (encode_timeline_sort_key l2 s2 p2 k2 n2) =
  tuple_compare (key_tuple l1 s1 p1 k1 n1) (key_tuple l2 s2 p2 k2 n2).
Proof. apply encode_order. Qed.

Lemma sort_key_order_witness :
  text_compare (encode_timeline_sort_key (Some 3) (Some 99) None 2 7) (encode_timeline_sort_key (Some 3) (Some 100) (Some 1) 0 0) =
  Lt.
Proof.
  rewrite sort_key_order; [done| |]; repeat constructor; vm_compute; congruence.
Defined.

(** Beyond its width a field grows and the text order is no longer the tuples' order. *)
Example sort_key_overflow :
  text_compare (encode_timeline_sort_key (Some 10000) None None 0 0) (encode_timeline_sort_key (Some 2000) None None 0 0) = Lt
  ∧ tuple_compare (key_tuple (Some 10000) None None 0 0) (key_tuple (Some 2000) None None 0 0) = Gt.
Proof. by vm_compute. Qed.

(** Runtime overlays sort after every persisted item of a lineage below the
    sentinels, the pre-turn ones before the active turn's and those before the late
    ones, whatever their sequence numbers, phases, kinds and local positions. *)
Theorem overlay_order lineage seq phase phase' rank rank1 rank2 rank3 local local1 local2 local3 :
  0 ≤ lineage < ORDER_KEY_PRE_TURN_LINEAGE →
  key_in_range (key_tuple (Some lineage) seq phase rank local) →
  0 ≤ default 0 phase' < 10 ^ 6 →
  Forall (λ r, ∃ kind, od_get kind KIND_RANK = Some r) [rank1; rank2; rank3] →
  Forall (λ n, 0 ≤ n < 10 ^ 9) [local1; local2; local3] →
  text_compare (encode_timeline_sort_key (Some lineage) seq phase rank local)
    (pre_turn_runtime_timeline_sort_key rank1 local1) = Lt ∧
  text_compare (pre_turn_runtime_timeline_sort_key rank1 local1)
    (runtime_timeline_sort_key phase' rank2 local2) = Lt ∧
  text_compare (runtime_timeline_sort_key phase' rank2 local2)
    (late_runtime_timeline_sort_key rank3 local3) = Lt.
Proof.
  intros Hl Hkey Hphase Hranks Hlocals.
  repeat match goal with H : Forall _ (_ :: _) |- _ => apply Forall_cons in H as [? H] end.
  repeat match goal with H : ∃ _, _ |- _ => destruct H as [? ?%kind_rank_bound] end.
  unfold pre_turn_runtime_timeline_sort_key, runtime_timeline_sort_key, late_runtime_timeline_sort_key.
  split_and!; (rewrite encode_order; [|first [done|by apply overlay_in_range]..]); simpl; [|done..].
  by rewrite (proj2 (Z.compare_lt_iff _ _)) by (unfold ORDER_KEY_PRE_TURN_LINEAGE in *; lia).
Qed.

Lemma overlay_order_witness :
  let item := encode_timeline_sort_key (Some 0) (Some 5) (Some 2) 12 3 in
  text_compare item (pre_turn_runtime_timeline_sort_key 0 0) = Lt ∧
  text_compare (pre_turn_runtime_timeline_sort_key 0 0) (runtime_timeline_sort_key None 2 0) = Lt ∧
  text_compare (runtime_timeline_sort_key None 2 0) (late_runtime_timeline_sort_key 10 4) = Lt.
Proof.
  apply overlay_order; [done| |done| |].
  - repeat constructor; vm_compute; congruence.
  - repeat apply Forall_cons_2; [by exists "user_message"|by exists "assistant_message"|by exists "recap"|done].
  - by repeat apply Forall_cons_2.
Defined.

(** ** Turn cycles *)

(** The attributes of an item that cycles read; [None] where the item has none. *)
Record TimelineItem := {
  kind : string;
  item_turn_id : option string;
  item_turn_cycle_index : option Z;
  item_status : option string;
}.

Inductive CycleStatus := CycleOpen | CycleComplete.

Record TurnCycleState := {
  turn_id : string;
  turn_cycle_index : Z;
  lifecycle_status : CycleStatus;
  has_tool_activity : bool;
}.

Record _CycleAccumulator := {
  acc_turn_id : string;
  acc_turn_cycle_index : Z;
  acc_has_tool_activity : bool;
  acc_is_open : bool;
}.

Definition _OPEN_ITEM_STATUSES : list string := ["pending"; "running"; "waiting"].

Definition to_state (a : _CycleAccumulator) : TurnCycleState :=
  {| turn_id := acc_turn_id a;
     turn_cycle_index := acc_turn_cycle_index a;
     lifecycle_status := if acc_is_open a then CycleOpen else CycleComplete;
     has_tool_activity := acc_has_tool_activity a |}.

(** The cycle an item belongs to: it needs a non-empty turn and an index. *)
Definition cycle_key (i : TimelineItem) : option (string * Z) :=
  match item_turn_id i, item_turn_cycle_index i with
  | Some t, Some n => if decide (t = "") then None else Some (t, n)
  | _, _ => None
  end.

Definition is_tool_call (i : TimelineItem) : bool := bool_decide (kind i = "tool_call").

Definition is_open_item (i : TimelineItem) : bool :=
  match item_status i with
  | Some s => bool_decide (s ∈ _OPEN_ITEM_STATUSES)
  | None => false
  end.

Definition cycle_step (states : list ((string * Z) * _CycleAccumulator)) (i : TimelineItem) :
    list ((string * Z) * _CycleAccumulator) :=
  match cycle_key i with
  | None => states
  | Some k =>
      let a := default {| acc_turn_id := k.1; acc_turn_cycle_index := k.2;
                          acc_has_tool_activity := false; acc_is_open := false |} (od_get k states) in
      od_set k {| acc_turn_id := acc_turn_id a; acc_turn_cycle_index := acc_turn_cycle_index a;
                  acc_has_tool_activity := is_tool_call i || acc_has_tool_activity a;
                  acc_is_open := is_open_item i || acc_is_open a |} states
  end.

(** Order of the sort keys [(turn_id, turn_cycle_index)]. *)
Definition cycle_compare (x y : string * Z) : comparison :=
  match String.compare x.1 y.1 with Eq => Z.compare x.2 y.2 | c => c end.

Definition acc_key (a : _CycleAccumulator) : string * Z := (acc_turn_id a, acc_turn_cycle_index a).
Definition state_key (s : TurnCycleState) : string * Z := (turn_id s, turn_cycle_index s).

Definition acc_le (x y : _CycleAccumulator) : Prop := cycle_compare (acc_key x) (acc_key y) ≠ Gt.

#[global] Instance acc_le_dec x y : Decision (acc_le x y).
Proof. unfold acc_le. solve_decision. Defined.

Definition cycle_states_from_items (items : list TimelineItem) : list TurnCycleState :=
  to_state <$> merge_sort acc_le (foldl cycle_step [] items).*2.

(** *** Lemmas on cycles *)

Definition in_cycle (k : string * Z) (i : TimelineItem) : bool := bool_decide (cycle_key i = Some k).

(** What the items seen so far say of a cycle. *)
Definition cycle_summary (items : list TimelineItem) (k : string * Z) : _CycleAccumulator :=
  {| acc_turn_id := k.1; acc_turn_cycle_index := k.2;
     acc_has_tool_activity := existsb (λ i, in_cycle k i && is_tool_call i) items;
     acc_is_open := existsb (λ i, in_cycle k i && is_open_item i) items |}.

Lemma existsb_snoc {A} (f : A → bool) l x : existsb f (l ++ [x]) = f x || existsb f l.
Proof. rewrite existsb_app. simpl. by rewrite orb_false_r, orb_comm. Qed.

Lemma existsb_in_cycle_none items k f :
  existsb (in_cycle k) items = false → existsb (λ i, in_cycle k i && f i) items = false.
Proof.
  induction items as [|i items IH]; simpl; [done|].
  intros [-> ?]%orb_false_iff. simpl. by apply IH.
Qed.

Lemma cycle_step_get states i k :
  od_get k (cycle_step states i) =
  if in_cycle k i
  then let a := default (cycle_summary [] k) (od_get k states) in
       Some {| acc_turn_id := acc_turn_id a; acc_turn_cycle_index := acc_turn_cycle_index a;
               acc_has_tool_activity := is_tool_call i || acc_has_tool_activity a;
               acc_is_open := is_open_item i || acc_is_open a |}
  else od_get k states.
Proof.
  unfold cycle_step, in_cycle. destruct (cycle_key i) as [k'|]; [|by rewrite bool_decide_eq_false_2].
  rewrite od_get_set. destruct (decide (k = k')) as [->|].
  - by rewrite bool_decide_eq_true_2.
  - by rewrite bool_decide_eq_false_2 by congruence.
Qed.

(** The dictionary of accumulators holds the summary of each cycle seen, and no other. *)
Lemma cycle_fold_get items k :
  od_get k (foldl cycle_step [] items) =
  if existsb (in_cycle k) items then Some (cycle_summary items k) else None.
Proof.
  induction items as [|i items IH] using rev_ind; [done|].
  rewrite foldl_app. simpl. rewrite cycle_step_get, IH, existsb_snoc.
  unfold cycle_summary. rewrite !existsb_snoc.
  destruct (in_cycle k i) eqn:Hi; simpl; [|done].
  destruct (existsb (in_cycle k) items) eqn:Hs; simpl; [done|].
  by rewrite !existsb_in_cycle_none.
Qed.

Lemma cycle_fold_nodup items : NoDup (foldl cycle_step [] items).*1.
Proof.
  apply (run_invariant cycle_step (λ s, NoDup s.*1)); [constructor|].
  intros s i Hs. unfold cycle_step. case_match; [by apply od_set_nodup|done].
Qed.

Lemma cycle_compare_lt_le x y z :
  cycle_compare x y ≠ Gt → cycle_compare y z ≠ Gt → cycle_compare x z ≠ Gt.
Proof.
  unfold cycle_compare. intros Hxy Hyz.
  pose proof (string_le_trans x.1 y.1 z.1) as Htrans.
  destruct (String.compare x.1 y.1) eqn:H1, (String.compare y.1 z.1) eqn:H2; try done.
  - apply String.compare_eq_iff in H1 as ->, H2 as ->. rewrite string_compare_refl.
    rewrite Z.compare_le_iff in *. lia.
  - apply String.compare_eq_iff in H1 as ->. by rewrite H2.
  - apply String.compare_eq_iff in H2 as <-. by rewrite H1.
  - destruct (String.compare x.1 z.1) eqn:H3; [|done|by destruct Htrans].
    apply String.compare_eq_iff in H3. rewrite H3, String.compare_antisym, H2 in H1. done.
Qed.

Lemma cycle_compare_total x y : cycle_compare x y ≠ Gt ∨ cycle_compare y x ≠ Gt.
Proof.
  unfold cycle_compare. rewrite (String.compare_antisym y.1).
  destruct (String.compare x.1 y.1); simpl; auto. rewrite !Z.compare_le_iff. lia.
Qed.

Lemma cycle_compare_eq x y : cycle_compare x y = Eq → x = y.
Proof.
  destruct x as [t n], y as [t' n']. unfold cycle_compare. simpl.
  destruct (String.compare t t') eqn:Ht; [|done|done].
  apply String.compare_eq_iff in Ht as ->. by intros ->%Z.compare_eq_iff.
Qed.

#[global] Instance acc_le_trans : Transitive acc_le.
Proof. intros x y z. apply cycle_compare_lt_le. Qed.

#[global] Instance acc_le_total : Total acc_le.
Proof. intros x y. apply cycle_compare_total. Qed.

(** Sorting a list whose keys are distinct is strict. *)
Lemma sorted_distinct_strict l :
  NoDup (acc_key <$> l) → StronglySorted acc_le l →
  StronglySorted (λ x y, cycle_compare (acc_key x) (acc_key y) = Lt) l.
Proof.
  induction l as [|a l IH]; [constructor|]. intros [Ha Hnd]%NoDup_cons Hs.
  apply StronglySorted_inv in Hs as [Hs Hle]. constructor; [by apply IH|].
  rewrite Forall_forall in *. intros b Hb. pose proof (Hle b Hb) as Hab. unfold acc_le in Hab.
  destruct (cycle_compare (acc_key a) (acc_key b)) eqn:Hc; [|done|done].
  apply cycle_compare_eq in Hc. destruct Ha. rewrite Hc. by apply list_elem_of_fmap_2.
Qed.

Lemma cycle_values items a :
  a ∈ (foldl cycle_step [] items).*2 ↔
  existsb (in_cycle (acc_key a)) items = true ∧ a = cycle_summary items (acc_key a).
Proof.
  pose proof (cycle_fold_nodup items) as Hnd. rewrite list_elem_of_fmap. split.
  - intros ([k v] & -> & Hin). simpl. pose proof (od_elem_get _ _ _ Hnd Hin) as Hget.
    rewrite cycle_fold_get in Hget. case_match; simplify_eq. by destruct k.
  - intros [Hex Ha]. exists (acc_key a, a). split; [done|]. apply od_get_elem.
    by rewrite cycle_fold_get, Hex, <- Ha.
Qed.

Lemma cycle_values_keys items : acc_key <$> (foldl cycle_step [] items).*2 = (foldl cycle_step [] items).*1.
Proof.
  rewrite <- list_fmap_compose. apply list_fmap_ext. intros i [k v] Hi%list_elem_of_lookup_2. simpl.
  apply od_elem_get in Hi; [|apply cycle_fold_nodup].
  rewrite cycle_fold_get in Hi. case_match; simplify_eq. by destruct k.
Qed.

Lemma existsb_cycle items k f :
  existsb (λ i, in_cycle k i && f i) items = true ↔ ∃ i, i ∈ items ∧ cycle_key i = Some k ∧ f i = true.
Proof.
  rewrite existsb_exists. unfold in_cycle. setoid_rewrite andb_true_iff.
  setoid_rewrite bool_decide_eq_true. by setoid_rewrite list_elem_of_In.
Qed.

Lemma open_item_spec i : is_open_item i = true ↔ ∃ st, item_status i = Some st ∧ st ∈ _OPEN_ITEM_STATUSES.
Proof.
  unfold is_open_item. destruct (item_status i) as [st|]; [|naive_solver].
  rewrite bool_decide_eq_true. naive_solver.
Qed.

Lemma existsb_in_cycle items k : existsb (in_cycle k) items = true ↔ ∃ i, i ∈ items ∧ cycle_key i = Some k.
Proof.
  rewrite existsb_exists. unfold in_cycle. setoid_rewrite bool_decide_eq_true.
  by setoid_rewrite list_elem_of_In.
Qed.

(** A reported state is the summary of its cycle when its three fields say so. *)
Lemma cycle_state_summary items s :
  existsb (in_cycle (state_key s)) items = true ∧ s = to_state (cycle_summary items (state_key s)) ↔
  (∃ i, i ∈ items ∧ cycle_key i = Some (state_key s)) ∧
  (has_tool_activity s = true ↔ ∃ i, i ∈ items ∧ cycle_key i = Some (state_key s) ∧ kind i = "tool_call") ∧
  (lifecycle_status s = CycleOpen ↔
     ∃ i, i ∈ items ∧ cycle_key i = Some (state_key s) ∧
       ∃ st, item_status i = Some st ∧ st ∈ _OPEN_ITEM_STATUSES).
Proof.
  rewrite existsb_in_cycle. apply and_iff_compat_l. setoid_rewrite <- open_item_spec.
  assert (∀ i, kind i = "tool_call" ↔ is_tool_call i = true) as Htool
    by (intros; unfold is_tool_call; by rewrite bool_decide_eq_true).
  setoid_rewrite Htool. rewrite <- !existsb_cycle.
  destruct s as [t n st tool]. unfold to_state, cycle_summary, state_key. simpl.
  destruct (existsb (λ i, in_cycle (t, n) i && is_tool_call i) items),
    (existsb (λ i, in_cycle (t, n) i && is_open_item i) items), st, tool; naive_solver.
Qed.

(** The cycles of a timeline are reported in strict order of turn and index, exactly
    one for each turn and index some item names; a cycle has tool activity when one
    of its items is a tool call, and is open when one of its items is pending, running
    or waiting. *)
Theorem cycle_states_spec items :
  StronglySorted (λ x y, cycle_compare (state_key x) (state_key y) = Lt) (cycle_states_from_items items) ∧
  ∀ s, s ∈ cycle_states_from_items items ↔
    (∃ i, i ∈ items ∧ cycle_key i = Some (state_key s)) ∧
    (has_tool_activity s = true ↔ ∃ i, i ∈ items ∧ cycle_key i = Some (state_key s) ∧ kind i = "tool_call") ∧
    (lifecycle_status s = CycleOpen ↔
       ∃ i, i ∈ items ∧ cycle_key i = Some (state_key s) ∧
         ∃ st, item_status i = Some st ∧ st ∈ _OPEN_ITEM_STATUSES).
Proof.
  unfold cycle_states_from_items. set (values := (foldl cycle_step [] items).*2).
  split.
  - apply (StronglySorted_fmap _ (λ x y, cycle_compare (acc_key x) (acc_key y) = Lt)); [done|].
    apply sorted_distinct_strict.
    + rewrite (merge_sort_Permutation acc_le values). unfold values. rewrite cycle_values_keys.
      apply cycle_fold_nodup.
    + apply StronglySorted_merge_sort; apply _.
  - intros s. rewrite list_elem_of_fmap. setoid_rewrite (merge_sort_Permutation acc_le values).
    unfold values. setoid_rewrite cycle_values. rewrite <- cycle_state_summary. split.
    + intros (a & -> & Hex & Ha). rewrite Ha. by simpl.
    + intros [Hex ->]. eauto.
Qed.

Example cycle_states_example :
  let item k t n st := {| kind := k; item_turn_id := t; item_turn_cycle_index := n; item_status := st |} in
  cycle_states_from_items
    [item "assistant_message" (Some "t2") (Some 0) (Some "complete");
     item "tool_call" (Some "t1") (Some 10) (Some "running");
     item "tool_call" (Some "t1") (Some 2) (Some "complete");
     item "notice" (Some "") (Some 0) None; item "recap" (Some "t1") (Some 10) None] =
  [{| turn_id := "t1"; turn_cycle_index := 2; lifecycle_status := CycleComplete; has_tool_activity := true |};
   {| turn_id := "t1"; turn_cycle_index := 10; lifecycle_status := CycleOpen; has_tool_activity := true |};
   {| turn_id := "t2"; turn_cycle_index := 0; lifecycle_status := CycleComplete; has_tool_activity := false |}].
Proof. by vm_compute. Qed.
