(* ===== verification/Patch.v ===== *)
(** Patches: parsing and hunk application
    ([packages/executor/src/cognis/tools/executor/filesystem.py]).

    A patch arrives as an envelope ([*** Begin Patch] ...), a unified diff or a native
    operation.  [parse_patch_operations] turns it into operations on resolved paths and
    [apply_envelope_hunks] computes the new content of one file.  Staging and writing
    are in [Files].  Resolving a path (environment, links, home) is a parameter. *)

From S2P Require Import Prelude Str.

(** Component names of a resolved absolute path, root first. *)
Notation path := (list ustr).

Record _PatchHunk := {
  old_text : ustr;
  new_text : ustr;
  old_start : option Z;
  change_context : option ustr;
  is_end_of_file : bool;
}.

Inductive patch_kind := KAdd | KDelete | KUpdate | KMove.

Record _PatchOperation := {
  op_kind : patch_kind;
  source_path : option path;
  destination_path : option path;
  hunks : list _PatchHunk;
  add_content : ustr;
}.

(** The exceptions of parsing and matching: the class, its message, the text it quotes.
    [PatchValueError] stands for other [ValueError]s: resolving a path, long integers. *)
Inductive PatchError :=
| PatchFormatError (message : string) (detail : ustr)
| PatchConflictError (message : string) (detail : ustr)
| PatchValueError (detail : ustr).

#[global] Instance PatchError_eq_dec : EqDecision PatchError.
Proof. solve_decision. Defined.

Definition format_error {A} (m : string) : result PatchError A := Err (PatchFormatError m []).

(** ** Lines of a patch *)

Definition is_newline_char (c : N) : bool := (c =? CR)%N || (c =? LF)%N.

Definition _line_stripped (line : ustr) : ustr := rstrip_by is_newline_char line.

Definition _is_patch_envelope_header (stripped : ustr) : bool :=
  bool_decide (stripped = u "*** End Patch") || bool_decide (stripped = u "*** End of File") ||
  starts stripped (u "*** Update File: ") || starts stripped (u "*** Add File: ") ||
  starts stripped (u "*** Delete File: ") || starts stripped (u "*** Move to: ").

Definition _is_no_newline_marker (stripped : ustr) : bool :=
  bool_decide (stripped = u "\ No newline at end of file").

Definition CRLF : ustr := [CR; LF].

Definition _detect_newline (text : ustr) : ustr := if contains text CRLF then CRLF else [LF].

Definition _normalize_text_for_newline (text newline : ustr) : ustr :=
  let t := replace_all CRLF [LF] text in
  if bool_decide (newline = [LF]) then t else replace_all [LF] newline t.

Definition _normalize_patch_text_for_newline (text newline : ustr) : ustr :=
  if bool_decide (newline = [LF]) then text else replace_all [LF] newline text.

Definition _strip_one_trailing_newline (text : ustr) : ustr :=
  if ends text CRLF then take (length text - 2) text
  else if ends text [LF] then take (length text - 1) text
  else text.

Definition _strip_last_part_newline (parts : list ustr) : list ustr :=
  match reverse parts with
  | [] => []
  | l :: parts => reverse (_strip_one_trailing_newline l :: parts)
  end.

(** The kind of the last hunk line: its first code point, or none yet. *)
Definition MINUS : N := 45.
Definition PLUS : N := 43.
Definition SPACE : N := 32.

Definition _apply_no_newline_marker (old_parts new_parts : list ustr) (last_line_kind : option N) :
    list ustr * list ustr :=
  if decide (last_line_kind = Some MINUS) then (_strip_last_part_newline old_parts, new_parts)
  else if decide (last_line_kind = Some PLUS) then (old_parts, _strip_last_part_newline new_parts)
  else if decide (last_line_kind = Some SPACE)
  then (_strip_last_part_newline old_parts, _strip_last_part_newline new_parts)
  else (old_parts, new_parts).

(** [stripped or '<blank>'] *)
Definition or_blank (stripped : ustr) : ustr := match stripped with [] => u "<blank>" | _ => stripped end.

(** ** Hunks of an envelope *)

(** The body of a hunk: accumulated parts, kind of the last line, remaining lines; the
    result also tells whether an end-of-file line closed the hunk. *)
Fixpoint envelope_hunk_body (old_parts new_parts : list ustr) (last_line_kind : option N)
    (lines : list ustr) : result PatchError (list ustr * list ustr * bool * list ustr) :=
  match lines with
  | [] => Ok (old_parts, new_parts, false, [])
  | line :: rest =>
      let stripped := _line_stripped line in
      if starts line (u "@@") || _is_patch_envelope_header stripped then
        if bool_decide (stripped = u "*** End of File") then Ok (old_parts, new_parts, true, rest)
        else Ok (old_parts, new_parts, false, lines)
      else if _is_no_newline_marker stripped then
        let '(o, n) := _apply_no_newline_marker old_parts new_parts last_line_kind in
        envelope_hunk_body o n last_line_kind rest
      else match line with
      | c :: body =>
          if (c =? MINUS)%N then envelope_hunk_body (old_parts ++ [body]) new_parts (Some MINUS) rest
          else if (c =? PLUS)%N then envelope_hunk_body old_parts (new_parts ++ [body]) (Some PLUS) rest
          else if (c =? SPACE)%N
          then envelope_hunk_body (old_parts ++ [body]) (new_parts ++ [body]) (Some SPACE) rest
          else Err (PatchFormatError "Invalid hunk line" (or_blank stripped))
      | [] => Err (PatchFormatError "Invalid hunk line" (or_blank stripped))
      end
  end.

(** The first line is an optional [@@] marker, whose text is the change context. *)
Definition _parse_patch_envelope_hunk (lines : list ustr) : result PatchError (_PatchHunk * list ustr) :=
  let '(change_context, body) :=
    match lines with
    | line :: rest =>
        if starts line (u "@@") then (strip_prefix (u "@@ ") (_line_stripped line), rest) else (None, lines)
    | [] => (None, lines)
    end in
  let? (old_parts, new_parts, eof, rest) := envelope_hunk_body [] [] None body in
  Ok ({| old_text := concat old_parts; new_text := concat new_parts; old_start := None;
         change_context := change_context; is_end_of_file := eof |}, rest).

(** ** Envelopes *)

Section Parse.
Context (resolve : ustr → result PatchError path).

(** The hunks of an update; [None] would be running out of fuel. *)
Fixpoint update_hunks (fuel : nat) (acc : list _PatchHunk) (lines : list ustr) :
    option (result PatchError (list _PatchHunk * list ustr)) :=
  match fuel with
  | O => None
  | S fuel =>
      match lines with
      | [] => Some (Ok (acc, []))
      | line :: rest =>
          let stripped := _line_stripped line in
          if bool_decide (stripped = u "*** End of File") then update_hunks fuel acc rest
          else if _is_patch_envelope_header stripped && negb (starts stripped (u "@@")) then Some (Ok (acc, lines))
          else if negb (starts line (u "@@") || starts line [MINUS] || starts line [PLUS] || starts line [SPACE])
          then Some (Err (PatchFormatError "Unexpected line in update patch" (or_blank stripped)))
          else match _parse_patch_envelope_hunk lines with
               | Ok (hunk, rest) => update_hunks fuel (acc ++ [hunk]) rest
               | Err e => Some (Err e)
               end
      end
  end.

Fixpoint add_lines (parts : list ustr) (lines : list ustr) : result PatchError (list ustr * list ustr) :=
  match lines with
  | [] => Ok (parts, [])
  | line :: rest =>
      let stripped := _line_stripped line in
      if bool_decide (stripped = u "*** End of File") then add_lines parts rest
      else if _is_patch_envelope_header stripped then Ok (parts, lines)
      else if _is_no_newline_marker stripped then add_lines (_strip_last_part_newline parts) rest
      else match line with
      | c :: body =>
          if (c =? PLUS)%N then add_lines (parts ++ [body]) rest
          else format_error "`*** Add File:` only accepts `+` lines."
      | [] => format_error "`*** Add File:` only accepts `+` lines."
      end
  end.

Fixpoint delete_lines (lines : list ustr) : result PatchError (list ustr) :=
  match lines with
  | [] => Ok []
  | line :: rest =>
      let stripped := _line_stripped line in
      if bool_decide (stripped = u "*** End of File") then delete_lines rest
      else if _is_patch_envelope_header stripped then Ok lines
      else format_error "`*** Delete File:` does not accept body content."
  end.

(** [*** Move to:] directly after an update header: the kind and destination, and the rest. *)
Definition move_header (source : path) (lines : list ustr) :
    result PatchError (patch_kind * path * list ustr) :=
  match lines with
  | line :: rest =>
      match strip_prefix (u "*** Move to: ") (_line_stripped line) with
      | Some raw =>
          if bool_decide (ustrip raw = []) then format_error "`*** Move to:` requires a path."
          else let? destination := resolve (ustrip raw) in Ok (KMove, destination, rest)
      | None => Ok (KUpdate, source, lines)
      end
  | [] => Ok (KUpdate, source, lines)
  end.

Fixpoint envelope_operations (fuel : nat) (operations : list _PatchOperation) (lines : list ustr) :
    option (result PatchError (list _PatchOperation)) :=
  match fuel with
  | O => None
  | S fuel =>
      match lines with
      | [] => Some (format_error "apply_patch is missing `*** End Patch`.")
      | line :: rest =>
          let stripped := _line_stripped line in
          if bool_decide (stripped = u "*** End Patch") then
            Some (if existsb (λ l, negb (bool_decide (ustrip l = []))) rest
                  then format_error "Unexpected content after `*** End Patch`." else Ok operations)
          else if bool_decide (stripped = u "*** End of File") then envelope_operations fuel operations rest
          else match strip_prefix (u "*** Update File: ") stripped with
          | Some raw =>
              if bool_decide (ustrip raw = []) then Some (format_error "`*** Update File:` requires a path.") else
              match (let? source := resolve (ustrip raw) in
                     let? (kind, destination, rest) := move_header source rest in
                     Ok (source, kind, destination, rest)) with
              | Err e => Some (Err e)
              | Ok (source, kind, destination, rest) =>
                  match update_hunks fuel [] rest with
                  | None => None
                  | Some (Err e) => Some (Err e)
                  | Some (Ok (hs, rest)) =>
                      if bool_decide (hs = []) && negb (match kind with KMove => true | _ => false end)
                      then Some (format_error "`*** Update File:` requires at least one hunk.")
                      else envelope_operations fuel
                             (operations ++ [{| op_kind := kind; source_path := Some source;
                                                destination_path := Some destination; hunks := hs;
                                                add_content := [] |}]) rest
                  end
              end
          | None =>
          match strip_prefix (u "*** Add File: ") stripped with
          | Some raw =>
              if bool_decide (ustrip raw = []) then Some (format_error "`*** Add File:` requires a path.") else
              match (let? destination := resolve (ustrip raw) in
                     let? (parts, rest) := add_lines [] rest in Ok (destination, parts, rest)) with
              | Err e => Some (Err e)
              | Ok (destination, parts, rest) =>
                  envelope_operations fuel
                    (operations ++ [{| op_kind := KAdd; source_path := None;
                                       destination_path := Some destination; hunks := [];
                                       add_content := concat parts |}]) rest
              end
          | None =>
          match strip_prefix (u "*** Delete File: ") stripped with
          | Some raw =>
              if bool_decide (ustrip raw = []) then Some (format_error "`*** Delete File:` requires a path.") else
              match (let? source := resolve (ustrip raw) in
                     let? rest := delete_lines rest in Ok (source, rest)) with
              | Err e => Some (Err e)
              | Ok (source, rest) =>
                  envelope_operations fuel
                    (operations ++ [{| op_kind := KDelete; source_path := Some source;
                                       destination_path := None; hunks := []; add_content := [] |}]) rest
              end
          | None => Some (Err (PatchFormatError "Unknown patch header" (or_blank stripped)))
          end end end
      end
  end.

Definition _parse_patch_envelope (patch_text : ustr) : option (result PatchError (list _PatchOperation)) :=
  match splitlines patch_text with
  | line :: rest =>
      if bool_decide (_line_stripped line = u "*** Begin Patch")
      then envelope_operations (S (length rest)) [] rest
      else Some (format_error "apply_patch must start with `*** Begin Patch`.")
  | [] => Some (format_error "apply_patch must start with `*** Begin Patch`.")
  end.

(** ** Native operations: the fields of the operation as text ([str(value or "")]) *)

Fixpoint native_hunks (fuel : nat) (acc : list _PatchHunk) (lines : list ustr) :
    option (result PatchError (list _PatchHunk)) :=
  match fuel with
  | O => None
  | S fuel =>
      match lines with
      | [] => Some (if bool_decide (acc = [])
                    then format_error "Native apply_patch update_file diff did not contain a hunk."
                    else Ok acc)
      | line :: _ =>
          if negb (starts line (u "@@"))
          then Some (format_error "Native apply_patch update_file diff must use @@ hunks.")
          else match _parse_patch_envelope_hunk lines with
               | Ok (hunk, rest) => native_hunks fuel (acc ++ [hunk]) rest
               | Err e => Some (Err e)
               end
      end
  end.

Definition _parse_native_apply_patch_hunks (diff : ustr) : option (result PatchError (list _PatchHunk)) :=
  let lines := splitlines diff in native_hunks (S (length lines)) [] lines.

Fixpoint native_create_lines (parts : list ustr) (lines : list ustr) : result PatchError (list ustr) :=
  match lines with
  | [] => Ok parts
  | line :: rest =>
      if _is_no_newline_marker (_line_stripped line)
      then native_create_lines (_strip_last_part_newline parts) rest
      else match line with
      | c :: body =>
          if (c =? PLUS)%N || (c =? SPACE)%N then native_create_lines (parts ++ [body]) rest
          else format_error "Native apply_patch create_file diff must use @@ hunks or + lines."
      | [] => format_error "Native apply_patch create_file diff must use @@ hunks or + lines."
      end
  end.

Definition _native_apply_patch_create_content (diff : ustr) : option (result PatchError ustr) :=
  match splitlines diff with
  | [] => Some (Ok [])
  | (line :: _) as lines =>
      if starts line (u "@@") then
        match _parse_native_apply_patch_hunks diff with
        | Some (Ok hs) => Some (Ok (concat (new_text <$> hs)))
        | Some (Err e) => Some (Err e)
        | None => None
        end
      else Some (let? parts := native_create_lines [] lines in Ok (concat parts))
  end.

Definition _parse_native_apply_patch_operation (operation_type raw_path diff : ustr) :
    option (result PatchError (list _PatchOperation)) :=
  if bool_decide (ustrip raw_path = [])
  then Some (format_error "Native apply_patch operation requires a path.") else
  match resolve (ustrip raw_path) with
  | Err e => Some (Err e)
  | Ok path =>
      if bool_decide (ustrip operation_type = u "delete_file") then
        Some (Ok [{| op_kind := KDelete; source_path := Some path; destination_path := None;
                     hunks := []; add_content := [] |}])
      else if bool_decide (ustrip operation_type = u "create_file") then
        match _native_apply_patch_create_content diff with
        | Some (Ok content) =>
            Some (Ok [{| op_kind := KAdd; source_path := None; destination_path := Some path;
                         hunks := []; add_content := content |}])
        | Some (Err e) => Some (Err e)
        | None => None
        end
      else if bool_decide (ustrip operation_type = u "update_file") then
        if bool_decide (ustrip diff = [])
        then Some (format_error "Native apply_patch update_file operation requires a diff.")
        else match _parse_native_apply_patch_hunks diff with
        | Some (Ok hs) =>
            Some (Ok [{| op_kind := KUpdate; source_path := Some path; destination_path := Some path;
                         hunks := hs; add_content := [] |}])
        | Some (Err e) => Some (Err e)
        | None => None
        end
      else Some (format_error "Unsupported native apply_patch operation type.")
  end.

(** ** Unified diffs *)

(** The zeros of the decimal digit blocks of Unicode 15 ([\d] and [int]). *)
Definition digit_zeros : list N :=
  [48; 1632; 1776; 1984; 2406; 2534; 2662; 2790; 2918; 3046; 3174; 3302; 3430; 3558; 3664; 3792; 3872;
   4160; 4240; 6112; 6160; 6470; 6608; 6784; 6800; 6992; 7088; 7232; 7248; 42528; 43216; 43264; 43472;
   43504; 43600; 44016; 65296; 66720; 68912; 69734; 69872; 69942; 70096; 70384; 70736; 70864; 71248;
   71360; 71472; 71904; 72016; 72784; 73040; 73120; 73552; 92768; 92864; 93008; 120782; 120792; 120802;
   120812; 120822; 123200; 123632; 124144; 125264; 130032]%N.

Definition digit_value (c : N) : option Z :=
  match filter (λ z, (z ≤ c ∧ c < z + 10)%N) digit_zeros with
  | z :: _ => Some (Z.of_N (c - z))
  | [] => None
  end.

(** The longest prefix of digits, most significant first, and the rest. *)
Fixpoint digits (s : ustr) : list Z * ustr :=
  match s with
  | [] => ([], [])
  | c :: s' =>
      match digit_value c with
      | Some d => let (ds, r) := digits s' in (d :: ds, r)
      | None => ([], s)
      end
  end.

Definition digits_int (ds : list Z) : Z := foldl (λ n d, 10 * n + d) 0 ds.

(** [\d+(?:,\d+)?]: the digits before the comma. *)
Definition range_start (s : ustr) : option (list Z * ustr) :=
  match digits s with
  | ([], _) => None
  | (ds, r) =>
      match r with
      | c :: r' =>
          if (c =? 44)%N then match digits r' with ([], _) => Some (ds, r) | (_, r'') => Some (ds, r'') end
          else Some (ds, r)
      | [] => Some (ds, r)
      end
  end.

(** The match of [^@@ -(\d+)(?:,\d+)? \+(\d+)(?:,\d+)? @@]: its first group. *)
Definition hunk_header (line : ustr) : option (list Z) :=
  s ← strip_prefix (u "@@ -") line;
  '(ds, s) ← range_start s;
  s ← strip_prefix (u " +") s;
  '(_, s) ← range_start s;
  _ ← strip_prefix (u " @@") s;
  Some ds.

(** The limit of [int] on the number of digits. *)
Definition INT_MAX_STR_DIGITS : nat := 4300.

Record UnifiedState := {
  operations : list _PatchOperation;
  current_path : option path;
  expected_old_path : option path;
  current_hunks : list _PatchHunk;
  old_parts : list ustr;
  new_parts : list ustr;
  hunk_start : option Z;
  last_line_kind : option N;
}.

Definition unified_init : UnifiedState :=
  {| operations := []; current_path := None; expected_old_path := None; current_hunks := [];
     old_parts := []; new_parts := []; hunk_start := None; last_line_kind := None |}.

(** The open hunk joins the hunks of the current file when it has any part. *)
Definition close_hunk (st : UnifiedState) : list _PatchHunk :=
  match old_parts st, new_parts st with
  | [], [] => current_hunks st
  | o, n => current_hunks st ++
      [{| old_text := concat o; new_text := concat n; old_start := hunk_start st;
          change_context := None; is_end_of_file := false |}]
  end.

Definition close_file (st : UnifiedState) : list _PatchOperation :=
  match current_path st, close_hunk st with
  | Some p, (_ :: _) as hs =>
      operations st ++ [{| op_kind := KUpdate; source_path := Some p; destination_path := Some p;
                           hunks := hs; add_content := [] |}]
  | _, _ => operations st
  end.

Definition set_parts (st : UnifiedState) (o n : list ustr) (kind : option N) : UnifiedState :=
  {| operations := operations st; current_path := current_path st;
     expected_old_path := expected_old_path st; current_hunks := current_hunks st;
     old_parts := o; new_parts := n; hunk_start := hunk_start st; last_line_kind := kind |}.

(** [a/] or [b/] in front of a path is removed. *)
Definition strip_side (side raw : ustr) : ustr := default raw (strip_prefix side raw).

Definition old_file_line (st : UnifiedState) (raw : ustr) : result PatchError UnifiedState :=
  if bool_decide (ustrip raw = u "/dev/null")
  then format_error "Unified diff add/delete/rename operations are not supported."
  else let? p := resolve (strip_side (u "a/") (ustrip raw)) in
    Ok {| operations := operations st; current_path := current_path st; expected_old_path := Some p;
          current_hunks := current_hunks st; old_parts := old_parts st; new_parts := new_parts st;
          hunk_start := hunk_start st; last_line_kind := last_line_kind st |}.

Definition new_file_line (st : UnifiedState) (raw : ustr) : result PatchError UnifiedState :=
  if bool_decide (ustrip raw = u "/dev/null")
  then format_error "Unified diff add/delete/rename operations are not supported."
  else let? p := resolve (strip_side (u "b/") (ustrip raw)) in
    if match expected_old_path st with Some old => negb (bool_decide (old = p)) | None => false end
    then format_error "Unified diff rename/add/delete operations are not supported."
    else Ok {| operations := close_file st; current_path := Some p; expected_old_path := None;
               current_hunks := []; old_parts := []; new_parts := []; hunk_start := None;
               last_line_kind := None |}.

Definition hunk_line (st : UnifiedState) (line : ustr) : result PatchError UnifiedState :=
  match current_path st with
  | None => format_error "Unified diff hunk is missing a target file."
  | Some _ =>
      match hunk_header line with
      | None => format_error "Unsupported unified diff hunk header."
      | Some ds =>
          if (INT_MAX_STR_DIGITS <? length ds)%nat
          then Err (PatchValueError (u "Exceeds the limit for integer string conversion"))
          else Ok {| operations := operations st; current_path := current_path st;
                     expected_old_path := expected_old_path st; current_hunks := close_hunk st;
                     old_parts := []; new_parts := []; hunk_start := Some (digits_int ds);
                     last_line_kind := None |}
      end
  end.

Definition unified_line (st : UnifiedState) (line : ustr) : result PatchError UnifiedState :=
  let stripped := _line_stripped line in
  if _is_no_newline_marker stripped then
    let '(o, n) := _apply_no_newline_marker (old_parts st) (new_parts st) (last_line_kind st) in
    Ok (set_parts st o n (last_line_kind st))
  else if starts line (u "diff ") || starts line (u "index ") then Ok st
  else match strip_prefix (u "--- ") line, strip_prefix (u "+++ ") line with
  | Some raw, _ => old_file_line st raw
  | None, Some raw => new_file_line st raw
  | None, None =>
      if starts line (u "rename ") || starts line (u "new file mode") || starts line (u "deleted file mode")
      then format_error "Unified diff rename/add/delete metadata is not supported."
      else if starts line (u "@@") then hunk_line st line
      else match current_path st, line with
      | None, _ => Ok st
      | Some _, c :: body =>
          if (c =? MINUS)%N then Ok (set_parts st (old_parts st ++ [body]) (new_parts st) (Some MINUS))
          else if (c =? PLUS)%N then Ok (set_parts st (old_parts st) (new_parts st ++ [body]) (Some PLUS))
          else if (c =? SPACE)%N
          then Ok (set_parts st (old_parts st ++ [body]) (new_parts st ++ [body]) (Some SPACE))
          else Err (PatchFormatError "Unsupported unified diff line" (or_blank stripped))
      | Some _, [] => Err (PatchFormatError "Unsupported unified diff line" (or_blank stripped))
      end
  end.

Definition _parse_unified_diff (patch_text : ustr) : result PatchError (list _PatchOperation) :=
  let? st := result_fold unified_line unified_init (splitlines patch_text) in
  match close_file st with
  | [] => format_error "Patch did not contain any supported file operations."
  | ops => Ok ops
  end.

Definition _parse_patch_operations (patch_text : ustr) : option (result PatchError (list _PatchOperation)) :=
  if starts (ulstrip patch_text) (u "*** Begin Patch") then _parse_patch_envelope patch_text
  else Some (_parse_unified_diff patch_text).
End Parse.

(** ** Finding the lines of a hunk *)

(** Typographic punctuation and spaces that count as their ASCII forms. *)
Definition patch_line_char (c : N) : N :=
  (if ((8208 <=? c) && (c <=? 8213)) || (c =? 8722) then 45
   else if (8216 <=? c) && (c <=? 8219) then 39
   else if (8220 <=? c) && (c <=? 8223) then 34
   else if (c =? 160) || ((8194 <=? c) && (c <=? 8202)) || (c =? 8239) || (c =? 8287) || (c =? 12288) then 32
   else c)%N.

Definition _normalize_patch_line_for_match (text : ustr) : ustr :=
  patch_line_char <$> ustrip (_line_stripped text).

Definition exact (l r : ustr) : bool := bool_decide (_line_stripped l = _line_stripped r).
Definition trim_end (l r : ustr) : bool :=
  bool_decide (urstrip (_line_stripped l) = urstrip (_line_stripped r)).
Definition trim (l r : ustr) : bool :=
  bool_decide (ustrip (_line_stripped l) = ustrip (_line_stripped r)).
Definition _normalized_patch_line_equal (l r : ustr) : bool :=
  bool_decide (_normalize_patch_line_for_match l = _normalize_patch_line_for_match r).

Definition match_predicates : list (ustr → ustr → bool) :=
  [exact; trim_end; trim; _normalized_patch_line_equal].

(** The pattern, line by line, at the front of the lines. *)
Fixpoint window_matches (predicate : ustr → ustr → bool) (lines pattern : list ustr) {struct pattern} : bool :=
  match pattern, lines with
  | [], _ => true
  | item :: pattern, line :: lines => predicate line item && window_matches predicate lines pattern
  | _ :: _, [] => false
  end.

(** The first index of [search_start .. search_end] where the window matches; [n] is the
    number of indices left. *)
Fixpoint seek_from (predicate : ustr → ustr → bool) (lines pattern : list ustr) (index n : nat) : option nat :=
  match n with
  | O => None
  | S n => if window_matches predicate (drop index lines) pattern then Some index
           else seek_from predicate lines pattern (S index) n
  end.

Definition _seek_patch_sequence_with (lines pattern : list ustr) (search_start search_end : nat)
    (predicate : ustr → ustr → bool) : option nat :=
  seek_from predicate lines pattern search_start (S search_end - search_start).

Fixpoint first_found {A B} (f : A → option B) (l : list A) : option B :=
  match l with
  | [] => None
  | x :: l => match f x with Some y => Some y | None => first_found f l end
  end.

Definition _seek_patch_sequence (lines pattern : list ustr) (start : nat) (eof : bool) : option nat :=
  match pattern with
  | [] => Some start
  | _ =>
      if (length lines <? length pattern)%nat then None else
      let search_end := (length lines - length pattern)%nat in
      let search_start := if eof then search_end else start in
      if (search_end <? search_start)%nat then None
      else first_found (_seek_patch_sequence_with lines pattern search_start search_end) match_predicates
  end.

(** ** Applying hunks *)

(** [lines[i : i + n] = new] *)
Definition splice (i n : nat) (new lines : list ustr) : list ustr := take i lines ++ new ++ drop (i + n) lines.

Definition hunk_old_lines (newline : ustr) (h : _PatchHunk) : list ustr :=
  splitlines (_normalize_patch_text_for_newline (old_text h) newline).
Definition hunk_new_lines (newline : ustr) (h : _PatchHunk) : list ustr :=
  splitlines (_normalize_patch_text_for_newline (new_text h) newline).

(** One hunk at its line number; the state is the lines and the offset so far. *)
Definition apply_unified_hunk (newline : ustr) (st : list ustr * Z) (h : _PatchHunk) :
    result PatchError (list ustr * Z) :=
  match old_start h with
  | None => Err (PatchConflictError "Mixed patch hunk modes are not supported." [])
  | Some start =>
      let (lines, offset) := st in
      let old_lines := hunk_old_lines newline h in
      let new_lines := hunk_new_lines newline h in
      let index := start - 1 + offset in
      if (index <? 0) || negb (bool_decide (take (length old_lines) (drop (Z.to_nat index) lines) = old_lines))
      then Err (PatchConflictError "Unified diff hunk did not match at the expected location." [])
      else Ok (splice (Z.to_nat index) (length old_lines) new_lines lines,
               offset + (length new_lines - length old_lines))
  end.

(** A replacement: start, number of old lines, new lines. *)
Notation replacement := (nat * nat * list ustr)%type.

(** One hunk located by its text; the state is the replacements and the line index. *)
Definition locate_hunk (newline : ustr) (lines : list ustr) (st : list replacement * nat) (h : _PatchHunk) :
    result PatchError (list replacement * nat) :=
  let (replacements, line_index) := st in
  let old_lines := hunk_old_lines newline h in
  let new_lines := hunk_new_lines newline h in
  let? line_index :=
    match change_context h with
    | None => Ok line_index
    | Some c =>
        match _seek_patch_sequence lines [_normalize_patch_text_for_newline c newline] line_index false with
        | Some i => Ok (S i)
        | None => Err (PatchConflictError "Failed to find context in the current file content." c)
        end
    end in
  match old_lines with
  | [] =>
      if bool_decide (new_lines = []) then Ok (replacements, line_index)
      else Ok (replacements ++ [(length lines, 0%nat, new_lines)], line_index)
  | _ =>
      let seek l := _seek_patch_sequence lines l line_index (is_end_of_file h) in
      let '(found, old_lines, new_lines) :=
        match seek old_lines with
        | Some i => (Some i, old_lines, new_lines)
        | None =>
            if bool_decide (last old_lines = Some []) then
              let old_lines := take (length old_lines - 1) old_lines in
              let new_lines := if bool_decide (last new_lines = Some [])
                               then take (length new_lines - 1) new_lines else new_lines in
              (seek old_lines, old_lines, new_lines)
            else (None, old_lines, new_lines)
        end in
      match found with
      | None => Err (PatchConflictError "Patch hunk did not match the current file content." [])
      | Some i => Ok (replacements ++ [(i, length old_lines, new_lines)], (i + length old_lines)%nat)
      end
  end.

(** Order of lists of lines, and of tuples: start, number of old lines, new lines. *)
Definition lines_compare : list ustr → list ustr → comparison := lex_compare (lex_compare N.compare).

Definition replacement_compare : replacement → replacement → comparison :=
  pair_compare (pair_compare Nat.compare Nat.compare) lines_compare.

Definition apply_replacement (lines : list ustr) (r : replacement) : list ustr :=
  let '(i, n, new) := r in splice i n new lines.

Definition _apply_envelope_hunks (content : ustr) (hs : list _PatchHunk) (newline : ustr) :
    result PatchError ustr :=
  let lines := splitlines content in
  if existsb (λ h, bool_decide (is_Some (old_start h))) hs then
    let? (lines, _) := result_fold (apply_unified_hunk newline) (lines, 0) hs in
    Ok (concat lines)
  else
    let? (replacements, _) := result_fold (locate_hunk newline lines) ([], 0%nat) hs in
    Ok (concat (foldl apply_replacement lines (merge_sort (cmp_ge replacement_compare) replacements))).
