(* ===== verification/PatchSpec.v ===== *)
(** What hunk application does: a forward walk over the lines of the file.

    [Patch._apply_envelope_hunks] collects replacements, sorts them and splices from the
    end.  [splice_hunks] is the specification: read the lines once from the front, keep
    what lies between the hunks, write the new lines of each hunk in place of its window. *)

From S2P Require Import Prelude Str Patch.

#[local] Arguments _seek_patch_sequence : simpl never.
#[local] Arguments merge_sort : simpl never.

(** ** Searching *)

Lemma window_matches_spec p lines pattern :
  window_matches p lines pattern = true ↔
  ∃ window rest, lines = window ++ rest ∧ Forall2 (λ l r, p l r = true) window pattern.
Proof.
  revert lines. induction pattern as [|item pattern IH]; intros lines.
  - split; [|done]. intros _. by exists [], lines.
  - destruct lines as [|line lines]; simpl.
    + split; [done|]. by intros ([|??] & rest & ? & Hf); inversion Hf.
    + rewrite andb_true_iff, IH. split.
      * intros (? & window & rest & -> & ?). exists (line :: window), rest. auto.
      * intros (window & rest & Heq & Hf). inversion Hf as [|w ? ws]; subst.
        simplify_eq/=. naive_solver.
Qed.

Lemma seek_from_spec p lines pattern index n :
  match seek_from p lines pattern index n with
  | Some k => (index ≤ k < index + n)%nat ∧ window_matches p (drop k lines) pattern = true ∧
      ∀ j, (index ≤ j < k)%nat → window_matches p (drop j lines) pattern = false
  | None => ∀ j, (index ≤ j < index + n)%nat → window_matches p (drop j lines) pattern = false
  end.
Proof.
  revert index. induction n as [|n IH]; intros index; simpl; [lia|].
  destruct (window_matches p (drop index lines) pattern) eqn:Hw.
  - split_and!; [lia|lia|done|lia].
  - specialize (IH (S index)). destruct (seek_from _ _ _ _ _) as [k|].
    + destruct IH as (? & ? & Hj). split_and!; [lia|lia|done|]. intros j ?.
      destruct (decide (j = index)) as [->|]; [done|apply Hj; lia].
    + intros j ?. destruct (decide (j = index)) as [->|]; [done|apply IH; lia].
Qed.

Lemma seek_from_shift p lines pattern start index n :
  seek_from p lines pattern (start + index) n =
  Nat.add start <$> seek_from p (drop start lines) pattern index n.
Proof.
  revert index. induction n as [|n IH]; intros index; simpl; [done|].
  rewrite drop_drop. destruct (window_matches _ _ _); [done|].
  rewrite <- IH. f_equal. lia.
Qed.

Lemma first_found_fmap {A B C} (f : A → option B) (g : A → option C) (h : B → C) l :
  (∀ x, g x = h <$> f x) → first_found g l = h <$> first_found f l.
Proof. intros Hg. induction l as [|x l IH]; simpl; [done|]. rewrite Hg. by destruct (f x). Qed.

(** Searching from a line is searching the lines from there on. *)
Lemma seek_shift lines pattern start :
  _seek_patch_sequence lines pattern start false =
  Nat.add start <$> _seek_patch_sequence (drop start lines) pattern 0 false.
Proof.
  unfold _seek_patch_sequence. destruct pattern as [|item pattern']; [simpl; f_equal; lia|].
  set (pattern := item :: pattern'). assert (0 < length pattern)%nat by (simpl; lia).
  clearbody pattern. cbv zeta. rewrite length_drop.
  destruct (Nat.ltb_spec (length lines) (length pattern)); [rewrite (proj2 (Nat.ltb_lt _ _)) by lia; done|].
  destruct (Nat.ltb_spec (length lines - length pattern) start);
    [rewrite (proj2 (Nat.ltb_lt _ _)) by lia; done|].
  rewrite (proj2 (Nat.ltb_ge (length lines - start) _)) by lia.
  rewrite (proj2 (Nat.ltb_ge _ 0)) by lia.
  apply first_found_fmap. intros p. unfold _seek_patch_sequence_with.
  rewrite <- seek_from_shift. f_equal; lia.
Qed.

(** The window found lies inside the lines. *)
Lemma seek_bound lines pattern k :
  pattern ≠ [] → _seek_patch_sequence lines pattern 0 false = Some k →
  (k + length pattern ≤ length lines)%nat.
Proof.
  intros Hne. unfold _seek_patch_sequence. destruct pattern as [|item pattern']; [done|].
  set (pattern := item :: pattern'). clearbody pattern.
  destruct (Nat.ltb_spec (length lines) (length pattern)); [done|]. cbv zeta.
  destruct (Nat.ltb_spec (length lines - length pattern) 0); [done|].
  generalize match_predicates. intros ps. induction ps as [|p ps IH]; simpl; [done|].
  unfold _seek_patch_sequence_with at 1.
  pose proof (seek_from_spec p lines pattern 0 (S (length lines - length pattern) - 0)) as Hs.
  destruct (seek_from _ _ _ _ _); [|done]. intros [= <-]. lia.
Qed.

(** The lines up to and including the change context of a hunk, and the lines after it. *)
Definition after_context (newline : ustr) (h : _PatchHunk) (lines : list ustr) :
    option (list ustr * list ustr) :=
  match change_context h with
  | None => Some ([], lines)
  | Some c =>
      i ← _seek_patch_sequence lines [_normalize_patch_text_for_newline c newline] 0 false;
      Some (take (S i) lines, drop (S i) lines)
  end.

(** The specification: one walk from the front.  Hunks without old lines write nothing
    here; their lines go to the end of the file. *)
Fixpoint splice_hunks (newline : ustr) (hs : list _PatchHunk) (lines : list ustr) : option (list ustr) :=
  match hs with
  | [] => Some lines
  | h :: hs =>
      '(before, lines) ← after_context newline h lines;
      match hunk_old_lines newline h with
      | [] => app before <$> splice_hunks newline hs lines
      | old_lines =>
          i ← _seek_patch_sequence lines old_lines 0 false;
          rest ← splice_hunks newline hs (drop (i + length old_lines) lines);
          Some (before ++ take i lines ++ hunk_new_lines newline h ++ rest)
      end
  end.

(** The new lines of the hunks that have no old lines. *)
Definition appended (newline : ustr) (hs : list _PatchHunk) : list (list ustr) :=
  filter (.≠ []) (hunk_new_lines newline <$> filter (λ h, hunk_old_lines newline h = []) hs).

Definition result_option {E A} (r : result E A) : option A :=
  match r with Ok a => Some a | Err _ => None end.

(** ** Replacements *)

#[export] Instance lines_total_compare : TotalCompare lines_compare.
Proof. unfold lines_compare. apply _. Qed.

#[export] Instance replacement_total_compare : TotalCompare replacement_compare.
Proof. unfold replacement_compare. apply _. Qed.

(** Windows in ascending order, apart, from [pos] on and inside [len] lines. *)
Fixpoint ascending (pos len : nat) (rs : list replacement) : Prop :=
  match rs with
  | [] => (pos ≤ len)%nat
  | (i, n, _) :: rs => (pos ≤ i)%nat ∧ (0 < n)%nat ∧ ascending (i + n) len rs
  end.

(** Rebuilding the lines from [pos] on, front to back. *)
Fixpoint rebuild (pos : nat) (lines : list ustr) (rs : list replacement) : list ustr :=
  match rs with
  | [] => drop pos lines
  | (i, n, new) :: rs => take (i - pos) (drop pos lines) ++ new ++ rebuild (i + n) lines rs
  end.

Lemma ascending_bound pos len rs : ascending pos len rs → (pos ≤ len)%nat.
Proof. revert pos. induction rs as [|[[i n] new] rs IH]; intros pos; simpl; [done|]. intros (? & ? & ?%IH). lia. Qed.

Lemma splice_rebuild lines tail pos rs :
  ascending pos (length lines) rs →
  foldr (λ r l, apply_replacement l r) (lines ++ tail) rs = take pos lines ++ rebuild pos lines rs ++ tail.
Proof.
  revert pos. induction rs as [|[[i n] new] rs IH]; intros pos; simpl.
  - intros. by rewrite app_assoc, take_drop.
  - intros (Hi & _ & Hrs). rewrite (IH _ Hrs). apply ascending_bound in Hrs. unfold splice.
    assert (length (take (i + n) lines) = (i + n)%nat) as Hl by (rewrite length_take; lia).
    rewrite take_app_le, drop_app_length' by lia. rewrite take_take, Nat.min_l by lia.
    rewrite <- (take_drop pos (take i lines)), take_take, Nat.min_l by lia.
    rewrite <- !app_assoc. do 2 f_equal. rewrite skipn_firstn_comm. done.
Qed.

Lemma splice_appends lines news :
  foldr (λ r l, apply_replacement l r) lines ((λ new, (length lines, 0%nat, new)) <$> news) =
  lines ++ concat news.
Proof.
  induction news as [|new news IH]; [by rewrite app_nil_r|].
  rewrite fmap_cons. cbn [foldr concat]. rewrite IH. unfold apply_replacement, splice.
  rewrite Nat.add_0_r, take_app_length, drop_app_length. done.
Qed.

(** *** The located replacements *)

Definition is_window (r : replacement) : Prop := (0 < r.1.2)%nat.
#[global] Instance is_window_dec r : Decision (is_window r).
Proof. unfold is_window. apply _. Defined.

(** The hunks of an envelope that the walk specifies: no line numbers, no end-of-file mark. *)
Definition located_by_text (h : _PatchHunk) : Prop := old_start h = None ∧ is_end_of_file h = false.

Lemma after_context_locate newline lines h li :
  (li ≤ length lines)%nat →
  match after_context newline h (drop li lines) with
  | Some (before, rest) => ∃ li', (li ≤ li' ≤ length lines)%nat ∧ before = take (li' - li) (drop li lines) ∧
      rest = drop li' lines ∧
      (match change_context h with
       | None => Ok li
       | Some c =>
           match _seek_patch_sequence lines [_normalize_patch_text_for_newline c newline] li false with
           | Some i => Ok (S i)
           | None => Err (PatchConflictError "Failed to find context in the current file content." c)
           end
       end) = Ok li'
  | None => ∃ c, change_context h = Some c ∧
      _seek_patch_sequence lines [_normalize_patch_text_for_newline c newline] li false = None
  end.
Proof.
  intros Hli. unfold after_context. destruct (change_context h) as [c|].
  - rewrite (seek_shift lines _ li).
    destruct (_seek_patch_sequence (drop li lines) _ 0 false) as [i|] eqn:Hi;
      [cbn [mbind option_bind fmap option_fmap option_map] | exists c; split; [done|]; by rewrite seek_shift, Hi].
    apply seek_bound in Hi; [|done]. rewrite length_drop in Hi. simpl in Hi.
    exists (S (li + i)). split_and!; [lia|lia| |by rewrite drop_drop; f_equal; lia|done].
    f_equal. lia.
  - exists li. split_and!; [lia|lia| |done|done]. by rewrite Nat.sub_diag.
Qed.

Lemma splitlines_no_empty s : Forall (.≠ []) (splitlines s).
Proof.
  induction s as [[|c [|d s]] IH] using ustr_ind; [constructor|by repeat constructor|].
  pose proof (IH s ltac:(simpl; lia)) as IH1. pose proof (IH (d :: s) ltac:(simpl; lia)) as IH2.
  rewrite splitlines_cons2. case_match; [by constructor|]. case_match; [by constructor|].
  destruct (splitlines (d :: s)); [by repeat constructor|]. inversion IH2; subst. by constructor.
Qed.

Lemma hunk_old_lines_last newline h : last (hunk_old_lines newline h) ≠ Some [].
Proof.
  intros (l & Hl)%last_Some. pose proof (splitlines_no_empty (_normalize_patch_text_for_newline (old_text h) newline)) as Hf.
  unfold hunk_old_lines in Hl. rewrite Hl in Hf. apply Forall_app in Hf as [_ Hf]. by inversion Hf.
Qed.

(** What one hunk adds to the replacements, and where the walk goes on. *)
Lemma locate_hunk_step newline lines rs li h :
  located_by_text h → (li ≤ length lines)%nat →
  result_option (locate_hunk newline lines (rs, li) h) =
  ('(before, rest) ← after_context newline h (drop li lines);
   let li' := (li + length before)%nat in
   match hunk_old_lines newline h with
   | [] => Some (rs ++ filter (λ r, r.2 ≠ []) [(length lines, 0%nat, hunk_new_lines newline h)], li')
   | old => i ← _seek_patch_sequence rest old 0 false;
            Some (rs ++ [((li' + i)%nat, length old, hunk_new_lines newline h)], (li' + i + length old)%nat)
   end).
Proof.
  intros [_ Heof] Hli. unfold locate_hunk. pose proof (after_context_locate newline lines h li Hli) as Hc.
  destruct (after_context newline h (drop li lines)) as [[before rest]|]; simpl.
  - destruct Hc as (li' & Hle & Hbefore & -> & ->). simpl.
    assert (li + length before = li')%nat as ->.
    { rewrite Hbefore, length_take, length_drop. lia. }
    destruct (hunk_old_lines newline h) as [|l old] eqn:Hold.
    + case_bool_decide as Hn.
      * rewrite filter_cons_False, filter_nil, app_nil_r by (simpl; tauto). done.
      * rewrite filter_cons_True, filter_nil by done. done.
    + rewrite Heof, (seek_shift lines _ li').
      destruct (_seek_patch_sequence (drop li' lines) (l :: old) 0 false) as [i|]; [done|].
      rewrite bool_decide_eq_false_2; [done|]. rewrite <- Hold. apply hunk_old_lines_last.
  - destruct Hc as (c & -> & ->). done.
Qed.

Lemma take_drop_join {A} (a b c : nat) (l : list A) :
  (a ≤ b)%nat → (b ≤ c)%nat → take (b - a) (drop a l) ++ take (c - b) (drop b l) = take (c - a) (drop a l).
Proof.
  intros Ha Hb. replace (drop b l) with (drop (b - a) (drop a l)) by (rewrite drop_drop; f_equal; lia).
  rewrite <- (take_drop (b - a) (take (c - a) (drop a l))), take_take, Nat.min_l by lia. f_equal.
  rewrite skipn_firstn_comm. f_equal. lia.
Qed.

Lemma ascending_weaken pos pos' len rs :
  (pos ≤ pos')%nat → ascending pos' len rs → ascending pos len rs.
Proof. destruct rs as [|[[i n] new] rs]; simpl; [lia|]. intros ? (? & ? & ?). split_and!; [lia|done|done]. Qed.

Lemma rebuild_skip pos pos' lines rs :
  (pos ≤ pos')%nat → ascending pos' (length lines) rs →
  take (pos' - pos) (drop pos lines) ++ rebuild pos' lines rs = rebuild pos lines rs.
Proof.
  destruct rs as [|[[i n] new] rs]; simpl; intros Hle Ha.
  - replace (drop pos' lines) with (drop (pos' - pos) (drop pos lines)) by (rewrite drop_drop; f_equal; lia).
    apply take_drop.
  - rewrite app_assoc, take_drop_join by lia. done.
Qed.

(** Where a walk and the located replacements agree. *)
Definition walk_agrees (newline : ustr) (lines : list ustr) (hs : list _PatchHunk) (li : nat)
    (rs : list replacement) (located : option (list replacement * nat)) (walk : option (list ustr)) : Prop :=
  match located, walk with
  | Some (rs', _), Some out =>
      ∃ new, rs' = rs ++ new ∧ ascending li (length lines) (filter is_window new) ∧
        out = rebuild li lines (filter is_window new) ∧
        filter (λ r, ¬ is_window r) new = (λ l, (length lines, 0%nat, l)) <$> appended newline hs
  | None, None => True
  | _, _ => False
  end.

Lemma result_fold_option {E S A} (f : S → A → result E S) s x l :
  result_option (result_fold f s (x :: l)) = s' ← result_option (f s x); result_option (result_fold f s' l).
Proof. simpl. by destruct (f s x). Qed.

Lemma appended_cons newline h hs :
  appended newline (h :: hs) =
  match hunk_old_lines newline h with
  | [] => filter (.≠ []) [hunk_new_lines newline h] ++ appended newline hs
  | _ => appended newline hs
  end.
Proof.
  unfold appended. destruct (hunk_old_lines newline h) eqn:Ho.
  - rewrite (filter_cons_True _ h) by done. rewrite fmap_cons. cbn [app]. rewrite <- filter_app. done.
  - by rewrite (filter_cons_False _ h) by congruence.
Qed.

Lemma filter_no_window n (l : list ustr) :
  filter is_window (filter (λ r : replacement, r.2 ≠ []) [(n, 0%nat, l)]) = [].
Proof.
  destruct (decide (l = [])); [by rewrite filter_cons_False by (simpl; tauto)|].
  rewrite filter_cons_True by done. by rewrite filter_cons_False by (unfold is_window; simpl; lia).
Qed.

Lemma filter_insert n (l : list ustr) :
  filter (λ r, ¬ is_window r) (filter (λ r : replacement, r.2 ≠ []) [(n, 0%nat, l)]) =
  (λ l, (n, 0%nat, l)) <$> filter (.≠ []) [l].
Proof.
  destruct (decide (l = [])); [by rewrite !filter_cons_False by (simpl; tauto)|].
  rewrite (filter_cons_True (λ r : replacement, r.2 ≠ [])), (filter_cons_True (.≠ [])) by done.
  by rewrite filter_cons_True by (unfold is_window; simpl; lia).
Qed.

Lemma walk_locate newline lines hs rs li :
  Forall located_by_text hs → (li ≤ length lines)%nat →
  walk_agrees newline lines hs li rs (result_option (result_fold (locate_hunk newline lines) (rs, li) hs))
    (splice_hunks newline hs (drop li lines)).
Proof.
  intros Hhs. revert rs li. induction Hhs as [|h hs Hh _ IH]; intros rs li Hli.
  - exists []. rewrite app_nil_r. auto.
  - rewrite result_fold_option, locate_hunk_step by done. cbn [splice_hunks].
    pose proof (after_context_locate newline lines h li Hli) as Hc.
    destruct (after_context newline h (drop li lines)) as [[before rest]|]; simpl; [|done].
    destruct Hc as (li' & Hle & -> & -> & _). rewrite length_take, length_drop.
    replace (li + (li' - li) `min` (length lines - li))%nat with li' by lia.
    pose proof (appended_cons newline h hs) as Happ. destruct (hunk_old_lines newline h) as [|l old] eqn:Hold; simpl.
    + set (ins := filter _ [(length lines, 0%nat, hunk_new_lines newline h)]).
      specialize (IH (rs ++ ins) li' ltac:(lia)). unfold walk_agrees in *.
      destruct (result_option _) as [[rs' ?]|], (splice_hunks newline hs (drop li' lines)); simpl; try done.
      destruct IH as (new & -> & Ha & -> & Hins). exists (ins ++ new).
      rewrite !filter_app, Hins, Happ, fmap_app, <- app_assoc.
      assert (filter is_window ins = []) as -> by apply filter_no_window.
      split_and!; [done|by eapply ascending_weaken; [|done]; lia|by apply rebuild_skip; [lia|]|].
      f_equal. apply filter_insert.
    + destruct (_seek_patch_sequence (drop li' lines) (l :: old) 0 false) as [i|] eqn:Hseek; simpl; [|done].
      apply seek_bound in Hseek; [|done]. rewrite length_drop in Hseek. simpl in Hseek.
      rewrite drop_drop. specialize (IH (rs ++ [((li' + i)%nat, S (length old), hunk_new_lines newline h)])
        (li' + i + S (length old))%nat ltac:(lia)).
      unfold walk_agrees in *. rewrite Nat.add_assoc.
      destruct (result_option _) as [[rs' ?]|], (splice_hunks newline hs _); simpl; try done.
      destruct IH as (new & -> & Ha & -> & Hins). rewrite Happ.
      exists (((li' + i)%nat, S (length old), hunk_new_lines newline h) :: new).
      rewrite filter_cons_True, filter_cons_False by (unfold is_window; simpl; lia).
      split_and!; [by rewrite <- app_assoc|simpl; split_and!; [lia|lia|done]| |done].
      simpl. rewrite app_assoc. f_equal. replace i with (li' + i - li')%nat at 1 by lia.
      by rewrite take_drop_join by lia.
Qed.

Lemma foldl_reverse {A B} (f : A → B → A) a l : foldl f a (reverse l) = foldr (λ y x, f x y) a l.
Proof. induction l as [|y l IH]; [done|]. rewrite reverse_cons, foldl_snoc, IH. done. Qed.

Lemma ascending_starts pos len rs i n new :
  ascending pos len rs → (i, n, new) ∈ rs → (pos ≤ i < len)%nat.
Proof.
  revert pos. induction rs as [|[[i' n'] new'] rs IH]; intros pos; simpl; [by intros _ ?%elem_of_nil|].
  intros (? & ? & Hrs) [Heq|Hin]%elem_of_cons.
  - simplify_eq. apply ascending_bound in Hrs. lia.
  - pose proof (IH _ Hrs Hin). lia.
Qed.

Lemma replacement_le_start i n new i' n' new' :
  (i < i')%nat → cmp_le replacement_compare (i, n, new) (i', n', new').
Proof.
  intros. unfold cmp_le, replacement_compare, pair_compare. simpl.
  by rewrite (proj2 (Nat.compare_lt_iff _ _)) by done.
Qed.

Lemma ascending_sorted pos len rs :
  ascending pos len rs → StronglySorted (cmp_le replacement_compare) rs.
Proof.
  revert pos. induction rs as [|[[i n] new] rs IH]; intros pos; simpl; [constructor|].
  intros (? & ? & Hrs). constructor; [by eapply IH|]. rewrite Forall_forall.
  intros [[i' n'] new'] Hin. apply replacement_le_start.
  pose proof (ascending_starts _ _ _ _ _ _ Hrs Hin). lia.
Qed.

Lemma inserts_sorted len news :
  StronglySorted (cmp_le lines_compare) news →
  StronglySorted (cmp_le replacement_compare) ((λ new, (len, 0%nat, new)) <$> news).
Proof.
  apply StronglySorted_fmap. intros x y. unfold cmp_le, replacement_compare, pair_compare. simpl.
  by rewrite !Nat.compare_refl.
Qed.

Lemma existsb_false_forall {A} (f : A → bool) l : Forall (λ x, f x = false) l → existsb f l = false.
Proof. induction 1 as [|x l Hx _ IH]; simpl; [done|]. by rewrite Hx. Qed.

(** The sorted replacements, applied from the last to the first. *)
Lemma apply_sorted lines new news :
  ascending 0 (length lines) (filter is_window new) →
  filter (λ r, ¬ is_window r) new = (λ l, (length lines, 0%nat, l)) <$> news →
  foldl apply_replacement lines (merge_sort (cmp_ge replacement_compare) new) =
  rebuild 0 lines (filter is_window new) ++ concat (merge_sort (cmp_le lines_compare) news).
Proof.
  intros Ha Hins. set (sorted := merge_sort (cmp_le lines_compare) news).
  rewrite (merge_sort_ge_reverse _ new (filter is_window new ++ ((λ l, (length lines, 0%nat, l)) <$> sorted))).
  - rewrite foldl_reverse, foldr_app, splice_appends. by rewrite (splice_rebuild _ _ 0).
  - etrans; [|by apply (filter_app_complement is_window new)]. apply Permutation_app_head.
    rewrite Hins. apply fmap_Permutation, merge_sort_Permutation.
  - apply StronglySorted_app_2.
    + intros [[i n] l] r Hw (l' & -> & _)%list_elem_of_fmap. apply replacement_le_start.
      by eapply ascending_starts.
    + by eapply ascending_sorted.
    + apply inserts_sorted, (StronglySorted_merge_sort _ _).
Qed.

(** C30. Applying hunks located by their text is one forward walk over the lines of the
    file: each hunk's window, found from where the previous one ended, gives way to its
    new lines and everything between the windows is kept; hunks without old lines add
    their lines at the end of the file.  When the walk fails, so does the application. *)
Theorem envelope_is_forward_walk content hs newline :
  Forall located_by_text hs →
  result_option (_apply_envelope_hunks content hs newline) =
  (λ lines, concat (lines ++ concat (merge_sort (cmp_le lines_compare) (appended newline hs)))) <$>
    splice_hunks newline hs (splitlines content).
Proof.
  intros Hhs. unfold _apply_envelope_hunks.
  rewrite (existsb_false_forall _ hs) by (eapply Forall_impl; [done|]; by intros h [-> _]).
  pose proof (walk_locate newline (splitlines content) hs [] 0 Hhs ltac:(lia)) as Hw.
  unfold walk_agrees in Hw. rewrite drop_0 in Hw.
  destruct (result_fold _ _ hs) as [[rs ?]|e]; simpl in *.
  - destruct (splice_hunks _ _ _) as [lines|]; [|done].
    destruct Hw as (new & -> & Ha & -> & Hins). simpl. f_equal. f_equal. by apply apply_sorted.
  - by destruct (splice_hunks _ _ _).
Qed.

(** *** Checking the walk on concrete hunks *)

Definition sample_lines (ls : list string) : ustr := concat ((λ l, u l ++ [LF]) <$> ls).
Definition sample_hunk (old new : list string) (eof : bool) : _PatchHunk :=
  {| old_text := sample_lines old; new_text := sample_lines new; old_start := None; change_context := None;
     is_end_of_file := eof |}.

Lemma envelope_is_forward_walk_witness :
  let hs := [sample_hunk ["b"] ["B"; "B2"] false; sample_hunk ["c"; "d"] ["c"] false; sample_hunk [] ["z"] false] in
  let content := sample_lines ["a"; "b"; "c"; "d"] in
  result_option (_apply_envelope_hunks content hs [LF]) = Some (sample_lines ["a"; "B"; "B2"; "c"; "z"]) ∧
  result_option (_apply_envelope_hunks content hs [LF]) =
  (λ lines, concat (lines ++ concat (merge_sort (cmp_le lines_compare) (appended [LF] hs)))) <$>
    splice_hunks [LF] hs (splitlines content).
Proof.
  intros hs content. split; [by vm_compute|]. apply envelope_is_forward_walk.
  repeat constructor.
Defined.

(** Two hunks that only add lines are appended in the order of their texts, not in theirs. *)
Example insertions_sorted_by_text :
  _apply_envelope_hunks (sample_lines ["x"]) [sample_hunk [] ["b"] false; sample_hunk [] ["a"] false] [LF] =
  Ok (sample_lines ["x"; "a"; "b"]).
Proof. by vm_compute. Qed.

(** Lines added after an unterminated last line are glued to it. *)
Example appended_to_unterminated_line :
  _apply_envelope_hunks (u "a") [sample_hunk [] ["z"] false] [LF] = Ok (u "az" ++ [LF]).
Proof. by vm_compute. Qed.

(** A hunk marked as the end of the file is searched there wherever the previous hunk
    ended; where the two overlap, one of the changes is lost. *)
Example end_of_file_hunk_overlaps :
  _apply_envelope_hunks (sample_lines ["a"; "b"])
    [sample_hunk ["a"; "b"] ["A"; "B"] false; sample_hunk ["b"] ["c"] true] [LF] =
  Ok (sample_lines ["A"; "B"]).
Proof. by vm_compute. Qed.
