(* ===== verification/PatchParse.v ===== *)
(** What patch parsing recovers: rendering an edit script and parsing it gives the script
    back, whatever the lines of the files contain, and parsing always returns. *)

From S2P Require Import Prelude Str Patch PatchSpec.
Local Open Scope N_scope.

(** ** Edit scripts *)

(** A line of a hunk: kept, deleted or added. *)
Inductive edit_line := Keep (l : ustr) | Del (l : ustr) | Add (l : ustr).

Definition old_line (d : edit_line) : list ustr := match d with Keep l | Del l => [l] | Add _ => [] end.
Definition new_line (d : edit_line) : list ustr := match d with Keep l | Add l => [l] | Del _ => [] end.
Definition olds (ds : list edit_line) : list ustr := ds ≫= old_line.
Definition news (ds : list edit_line) : list ustr := ds ≫= new_line.
Definition line_of (d : edit_line) : ustr := match d with Keep l | Del l | Add l => l end.

Definition render_line (d : edit_line) : ustr :=
  match d with Keep l => SPACE :: l | Del l => MINUS :: l | Add l => PLUS :: l end.

(** A hunk of an envelope: its context, its lines, and whether it is marked as the last. *)
Record edit_hunk := { eh_context : option ustr; eh_lines : list edit_line; eh_eof : bool }.

Inductive edit :=
| EUpdate (file : ustr) (move_to : option ustr) (hs : list edit_hunk)
| EAdd (file : ustr) (content : list ustr)
| EDelete (file : ustr).

(** A line made of a literal and a text. *)
Definition header (h : string) (s : ustr) : ustr := u h ++ s ++ [LF].

Definition render_hunk (h : edit_hunk) : list ustr :=
  match eh_context h with Some c => [header "@@ " c] | None => [header "@@" []] end ++
  (render_line <$> eh_lines h) ++
  if eh_eof h then [header "*** End of File" []] else [].

Definition render_edit (e : edit) : list ustr :=
  match e with
  | EUpdate file move_to hs =>
      [header "*** Update File: " file] ++
      match move_to with Some d => [header "*** Move to: " d] | None => [] end ++
      (hs ≫= render_hunk)
  | EAdd file content => [header "*** Add File: " file] ++ (cons PLUS <$> content)
  | EDelete file => [header "*** Delete File: " file]
  end.

Definition render_patch (es : list edit) : ustr :=
  concat ([header "*** Begin Patch" []] ++ (es ≫= render_edit) ++ [header "*** End Patch" []]).

(** Texts that fit on one line, and names that survive trimming. *)
Definition one_line (s : ustr) : Prop := Forall (λ c, line_break c = false) s.
Definition clean_name (s : ustr) : Prop :=
  one_line s ∧ s ≠ [] ∧ ∀ c, head s = Some c ∨ last s = Some c → uspace c = false.

Definition valid_hunk (h : edit_hunk) : Prop :=
  Forall (λ d, lf_line (line_of d)) (eh_lines h) ∧
  match eh_context h with Some c => one_line c | None => True end.

Definition valid_edit (e : edit) : Prop :=
  match e with
  | EUpdate file move_to hs =>
      clean_name file ∧ Forall valid_hunk hs ∧
      match move_to with Some d => clean_name d | None => hs ≠ [] end
  | EAdd file content => clean_name file ∧ Forall lf_line content
  | EDelete file => clean_name file
  end.

Definition hunk_of (h : edit_hunk) : _PatchHunk :=
  {| old_text := concat (olds (eh_lines h)); new_text := concat (news (eh_lines h)); old_start := None;
     change_context := eh_context h; is_end_of_file := eh_eof h |}.

Section Roundtrip.
Context (resolve : ustr → result PatchError path).

Definition operation_of (e : edit) : result PatchError _PatchOperation :=
  match e with
  | EUpdate file move_to hs =>
      let? source := resolve file in
      let? destination := match move_to with Some d => resolve d | None => Ok source end in
      Ok {| op_kind := if move_to then KMove else KUpdate; source_path := Some source;
            destination_path := Some destination; hunks := hunk_of <$> hs; add_content := [] |}
  | EAdd file content =>
      let? destination := resolve file in
      Ok {| op_kind := KAdd; source_path := None; destination_path := Some destination; hunks := [];
            add_content := concat content |}
  | EDelete file =>
      let? source := resolve file in
      Ok {| op_kind := KDelete; source_path := Some source; destination_path := None; hunks := [];
            add_content := [] |}
  end.

(** ** Lines *)

Lemma clean_strip s : clean_name s → ustrip s = s.
Proof.
  intros (_ & _ & Hs). unfold ustrip, ulstrip, urstrip.
  rewrite lstrip_by_none by naive_solver. destruct s as [|c s _] using rev_ind; [done|].
  rewrite rstrip_by_snoc, Hs; [done|]. right. apply last_snoc.
Qed.

Lemma line_stripped_lf b : one_line b → _line_stripped (b ++ [LF]) = b.
Proof.
  intros Hb. unfold _line_stripped. rewrite rstrip_by_snoc. simpl. apply rstrip_by_forall.
  eapply Forall_impl; [exact Hb|]. intros c Hc. unfold is_newline_char. apply orb_false_iff.
  split; apply N.eqb_neq; by intros ->.
Qed.

Lemma one_line_u h : forallb (λ c, negb (line_break c)) (u h) = true → one_line (u h).
Proof. intros Hf. apply Forall_forall. intros c Hc. rewrite forallb_forall in Hf.
  apply list_elem_of_In, Hf in Hc. by apply negb_true_iff in Hc. Qed.

Lemma header_lf_line h s :
  forallb (λ c, negb (line_break c)) (u h) = true → one_line s → lf_line (header h s).
Proof.
  intros Hh%one_line_u Hs. exists (u h ++ s). unfold header. rewrite app_assoc. split; [done|].
  by apply Forall_app.
Qed.

Lemma header_stripped h s :
  forallb (λ c, negb (line_break c)) (u h) = true → one_line s → _line_stripped (header h s) = u h ++ s.
Proof.
  intros Hh%one_line_u Hs. unfold header. rewrite app_assoc. apply line_stripped_lf.
  by apply Forall_app.
Qed.

(** Hunk lines start with a space, a minus or a plus: never with what a header or an
    annotation starts with. *)
Definition body_char (c : N) : Prop := c = SPACE ∨ c = MINUS ∨ c = PLUS.

Lemma body_line_lf c l : body_char c → lf_line l → lf_line (c :: l).
Proof.
  intros Hc (b & -> & Hb). exists (c :: b). split; [done|]. constructor; [|done].
  by destruct Hc as [->|[->| ->]].
Qed.

Lemma body_line_plain c l :
  body_char c → lf_line l →
  let stripped := _line_stripped (c :: l) in
  starts (c :: l) (u "@@") = false ∧ _is_patch_envelope_header stripped = false ∧
  _is_no_newline_marker stripped = false ∧ bool_decide (stripped = u "*** End of File") = false.
Proof.
  intros Hc (b & -> & Hb). cbv zeta. change (c :: b ++ [LF]) with ((c :: b) ++ [LF]).
  assert (one_line (c :: b)) as Hcb.
  { constructor; [|done]. by destruct Hc as [->|[->| ->]]. }
  rewrite line_stripped_lf by done. unfold _is_patch_envelope_header, _is_no_newline_marker, starts.
  by destruct Hc as [->|[->| ->]].
Qed.

Lemma render_line_shape d : ∃ c, body_char c ∧ render_line d = c :: line_of d.
Proof. destruct d; [exists SPACE|exists MINUS|exists PLUS]; unfold body_char; auto. Qed.

(** ** Envelopes *)

Lemma envelope_body_lines o n k ds rest :
  Forall (λ d, lf_line (line_of d)) ds →
  ∃ k', envelope_hunk_body o n k ((render_line <$> ds) ++ rest) =
        envelope_hunk_body (o ++ olds ds) (n ++ news ds) k' rest.
Proof.
  intros Hds. revert o n k. induction Hds as [|d ds Hd _ IH]; intros o n k.
  - exists k. unfold olds, news. simpl. by rewrite !app_nil_r.
  - assert (∃ k', envelope_hunk_body o n k (render_line d :: (render_line <$> ds) ++ rest) =
      envelope_hunk_body (o ++ old_line d) (n ++ new_line d) k' ((render_line <$> ds) ++ rest)) as [k1 Hstep].
    { destruct (render_line_shape d) as (c & Hc & Hr).
      destruct (body_line_plain c _ Hc Hd) as (H1 & H2 & H3 & _). rewrite <- Hr in H1, H2, H3.
      cbn [envelope_hunk_body]. rewrite H1, H2, H3. cbn [orb].
      destruct d; simpl; rewrite ?app_nil_r; eauto. }
    destruct (IH (o ++ old_line d) (n ++ new_line d) k1) as [k2 IH']. exists k2.
    rewrite fmap_cons. cbn [app]. rewrite Hstep, IH', <- !app_assoc. done.
Qed.

(** A line at which the body of a hunk ends, other than an end-of-file line. *)
Definition hunk_end (line : ustr) : Prop :=
  starts line (u "@@") || _is_patch_envelope_header (_line_stripped line) = true ∧
  _line_stripped line ≠ u "*** End of File".

(** A header of the envelope, other than an end-of-file line. *)
Definition envelope_header (line : ustr) : Prop :=
  starts line (u "@@") = false ∧ starts (_line_stripped line) (u "@@") = false ∧
  _is_patch_envelope_header (_line_stripped line) = true ∧ _line_stripped line ≠ u "*** End of File".

Lemma envelope_header_end line : envelope_header line → hunk_end line.
Proof. intros (_ & _ & Hh & He). split; [|done]. by rewrite Hh, orb_true_r. Qed.

Lemma starts_cons_ne c d s p : c ≠ d → starts (c :: s) (d :: p) = false.
Proof. intros. unfold starts. simpl. by rewrite (proj2 (N.eqb_neq d c)) by done. Qed.

Lemma end_patch_header : envelope_header (header "*** End Patch" []).
Proof. by vm_compute. Qed.

Lemma file_header h s :
  h ∈ ["*** Update File: "; "*** Add File: "; "*** Delete File: "; "*** Move to: "] → one_line s →
  envelope_header (header h s).
Proof.
  intros Hh Hs. unfold envelope_header.
  assert (forallb (λ c, negb (line_break c)) (u h) = true) as Hf
    by (repeat (apply elem_of_cons in Hh as [->|Hh]; [done|]); by apply elem_of_nil in Hh).
  rewrite header_stripped by done. unfold _is_patch_envelope_header.
  repeat (apply elem_of_cons in Hh as [->|Hh]; [split_and!; [done|done| |done]|]);
    [..|by apply elem_of_nil in Hh];
    rewrite starts_app, ?orb_true_r; done.
Qed.

Definition context_line (context : option ustr) : ustr :=
  match context with Some c => header "@@ " c | None => header "@@" [] end.

Lemma context_line_facts context :
  match context with Some c => one_line c | None => True end →
  let line := context_line context in
  lf_line line ∧ hunk_end line ∧ starts line (u "@@") = true ∧ starts (_line_stripped line) (u "@@") = true ∧
  strip_prefix (u "@@ ") (_line_stripped line) = context.
Proof.
  intros Hc. cbv zeta. unfold hunk_end, context_line.
  destruct context as [c|]; [|split_and!; [by apply header_lf_line; [done|constructor]|done..]].
  rewrite header_stripped by done.
  split_and!; [by apply header_lf_line|done|done|done|done|]. by apply strip_prefix_spec.
Qed.

(** Where a hunk without end-of-file mark may be followed by. *)
Definition ends_hunk (rest : list ustr) : Prop := match rest with [] => True | line :: _ => hunk_end line end.

Lemma envelope_hunk_body_end o n k rest :
  ends_hunk rest → envelope_hunk_body o n k rest = Ok (o, n, false, rest).
Proof.
  destruct rest as [|line rest]; [done|]. intros [Hend Heof]. cbn [envelope_hunk_body].
  by rewrite Hend, bool_decide_eq_false_2.
Qed.

Lemma envelope_hunk_body_eof o n k rest :
  envelope_hunk_body o n k (header "*** End of File" [] :: rest) = Ok (o, n, true, rest).
Proof. done. Qed.

Lemma render_hunk_cons h :
  render_hunk h = context_line (eh_context h) ::
    (render_line <$> eh_lines h) ++ if eh_eof h then [header "*** End of File" []] else [].
Proof. unfold render_hunk, context_line. by destruct (eh_context h). Qed.

Lemma parse_rendered_hunk h rest :
  valid_hunk h → ends_hunk rest →
  _parse_patch_envelope_hunk (render_hunk h ++ rest) = Ok (hunk_of h, rest).
Proof.
  intros [Hlines Hc] Hrest. rewrite render_hunk_cons. unfold _parse_patch_envelope_hunk. cbn [app].
  destruct (context_line_facts _ Hc) as (_ & _ & -> & _ & ->). rewrite <- app_assoc.
  destruct (envelope_body_lines [] [] None (eh_lines h)
    ((if eh_eof h then [header "*** End of File" []] else []) ++ rest) Hlines) as [k ->].
  destruct h as [c ds eof]. simpl in *. destruct eof; simpl app.
  - by rewrite envelope_hunk_body_eof.
  - by rewrite envelope_hunk_body_end.
Qed.

Lemma render_hunk_ends h rest : valid_hunk h → ends_hunk (render_hunk h ++ rest).
Proof. intros [_ Hc]. rewrite render_hunk_cons. by apply (context_line_facts _ Hc). Qed.

Lemma update_hunks_rendered hs line rest fuel acc :
  Forall valid_hunk hs → envelope_header line → (length hs < fuel)%nat →
  update_hunks fuel acc ((hs ≫= render_hunk) ++ line :: rest) = Some (Ok (acc ++ (hunk_of <$> hs), line :: rest)).
Proof.
  intros Hhs Hline. revert fuel acc.
  induction Hhs as [|h hs Hh Hhs IH]; intros fuel acc Hfuel; (destruct fuel as [|fuel]; [simpl in Hfuel; lia|]).
  - destruct Hline as (_ & Hat & Hhead & Heof). simpl.
    by rewrite bool_decide_eq_false_2, Hhead, Hat, app_nil_r.
  - rewrite bind_cons, <- app_assoc. set (more := (hs ≫= render_hunk) ++ line :: rest).
    assert (ends_hunk more) as Hmore.
    { unfold more. destruct Hhs; [by apply envelope_header_end|].
      rewrite bind_cons, <- app_assoc. by apply render_hunk_ends. }
    pose proof (parse_rendered_hunk h more Hh Hmore) as Hparse. destruct Hh as [_ Hc].
    destruct (context_line_facts _ Hc) as (_ & [_ Heof] & Hat & Hat' & _).
    rewrite render_hunk_cons in *. cbn [app update_hunks] in *.
    rewrite bool_decide_eq_false_2, Hat', andb_false_r, Hat by done. cbn [negb orb]. rewrite Hparse.
    rewrite IH by (simpl in Hfuel; lia). by rewrite <- app_assoc.
Qed.

Lemma add_lines_rendered content line rest parts :
  Forall lf_line content → envelope_header line →
  add_lines parts ((cons PLUS <$> content) ++ line :: rest) = Ok (parts ++ content, line :: rest).
Proof.
  intros Hc (Hat & _ & Hhead & Heof). revert parts.
  induction Hc as [|l content Hl _ IH]; intros parts.
  - simpl. by rewrite bool_decide_eq_false_2, Hhead, app_nil_r.
  - rewrite fmap_cons. cbn [app add_lines].
    destruct (body_line_plain PLUS l ltac:(unfold body_char; auto) Hl) as (_ & -> & -> & ->).
    simpl. by rewrite IH, <- app_assoc.
Qed.

Lemma delete_lines_header line rest :
  envelope_header line → delete_lines (line :: rest) = Ok (line :: rest).
Proof. intros (_ & _ & Hhead & Heof). simpl. by rewrite bool_decide_eq_false_2, Hhead. Qed.

(** The number of lines an edit renders to bounds its hunks. *)
Lemma render_hunks_length hs : (length hs ≤ length (hs ≫= render_hunk))%nat.
Proof.
  induction hs as [|h hs IH]; [done|]. rewrite bind_cons, length_app, render_hunk_cons. simpl. lia.
Qed.

Lemma move_header_rendered source move_to line rest :
  match move_to with Some d => clean_name d | None => starts (_line_stripped line) (u "*** Move to: ") = false end →
  move_header resolve source (match move_to with Some d => [header "*** Move to: " d] | None => [] end ++ line :: rest) =
  (let? d := match move_to with Some d => resolve d | None => Ok source end in
   Ok (if move_to then KMove else KUpdate, d, line :: rest)).
Proof.
  destruct move_to as [d|]; cbn [app move_header].
  - intros Hname. pose proof (clean_strip _ Hname) as Htrim. destruct Hname as (Hd & Hne & _).
    rewrite header_stripped by done.
    rewrite (proj2 (strip_prefix_spec _ _ d)) by done. rewrite Htrim, bool_decide_eq_false_2 by done. done.
  - unfold starts. intros Hs. by destruct (strip_prefix _ _).
Qed.

(** The first line that an update's hunks and what follows them start with is no move. *)
Lemma hunks_no_move hs line rest :
  Forall valid_hunk hs → envelope_header line → starts (_line_stripped line) (u "*** Move to: ") = false →
  ∃ line' rest', (hs ≫= render_hunk) ++ line :: rest = line' :: rest' ∧
    starts (_line_stripped line') (u "*** Move to: ") = false.
Proof.
  intros Hhs Hline Hmove. destruct Hhs as [|h hs [_ Hc] _]; [by eexists _, _|].
  destruct (context_line_facts _ Hc) as (_ & _ & _ & (r & Hr)%starts_spec & _).
  rewrite bind_cons, render_hunk_cons. eexists _, _. split; [done|]. by rewrite Hr.
Qed.

(** One edit: its operation joins the list, or resolving one of its names fails. *)
Lemma envelope_edit e fuel ops line rest :
  valid_edit e → (length (render_edit e) ≤ fuel)%nat →
  envelope_header line → starts (_line_stripped line) (u "*** Move to: ") = false →
  envelope_operations resolve (S fuel) ops (render_edit e ++ line :: rest) =
  match operation_of e with
  | Ok op => envelope_operations resolve fuel (ops ++ [op]) (line :: rest)
  | Err er => Some (Err er)
  end.
Proof.
  intros Hv Hfuel Hline Hmove. destruct e as [file move_to hs|file content|file]; simpl in Hv;
    cbn [render_edit app envelope_operations operation_of].
  - destruct Hv as (Hname & Hhs & Hmv). pose proof (clean_strip _ Hname) as Htrim. destruct Hname as (Hfile & Hne & _). rewrite header_stripped by done.
    rewrite !bool_decide_eq_false_2 by done. rewrite (proj2 (strip_prefix_spec _ _ file)) by done.
    rewrite Htrim, bool_decide_eq_false_2 by done. destruct (resolve file) as [source|]; [|done].
    cbn [result_bind]. rewrite <- app_assoc.
    destruct (hunks_no_move hs line rest) as (line' & rest' & Hrest & Hnm); [done..|].
    rewrite Hrest, move_header_rendered by (by destruct move_to).
    destruct (match move_to with Some d => resolve d | None => Ok source end) as [destination|]; [|done].
    cbn [result_bind]. rewrite <- Hrest, update_hunks_rendered; [|done..|].
    2: { pose proof (render_hunks_length hs). simpl in Hfuel. rewrite length_app in Hfuel. lia. }
    cbn [app]. destruct move_to; [by rewrite andb_false_r|].
    rewrite bool_decide_eq_false_2; [done|]. by destruct hs.
  - destruct Hv as (Hname & Hc). pose proof (clean_strip _ Hname) as Htrim. destruct Hname as (Hfile & Hne & _). rewrite header_stripped by done.
    rewrite !bool_decide_eq_false_2 by done.
    change (strip_prefix (u "*** Update File: ") (u "*** Add File: " ++ file)) with (@None ustr).
    rewrite (proj2 (strip_prefix_spec _ _ file)) by done.
    rewrite Htrim, bool_decide_eq_false_2 by done. destruct (resolve file); [|done]. cbn [result_bind].
    by rewrite add_lines_rendered.
  - pose proof (clean_strip _ Hv) as Htrim. destruct Hv as (Hfile & Hne & _). rewrite header_stripped by done.
    rewrite !bool_decide_eq_false_2 by done.
    change (strip_prefix (u "*** Update File: ") (u "*** Delete File: " ++ file)) with (@None ustr).
    change (strip_prefix (u "*** Add File: ") (u "*** Delete File: " ++ file)) with (@None ustr).
    rewrite (proj2 (strip_prefix_spec _ _ file)) by done.
    rewrite Htrim, bool_decide_eq_false_2 by done. destruct (resolve file); [|done]. cbn [result_bind].
    by rewrite delete_lines_header.
Qed.

(** Every edit starts with a header that is not a move. *)
Lemma render_edit_head e :
  valid_edit e → ∃ line rest, render_edit e = line :: rest ∧ envelope_header line ∧
    starts (_line_stripped line) (u "*** Move to: ") = false.
Proof.
  intros Hv. destruct e; (eexists _, _; split; [done|]);
    (split; [apply file_header|rewrite header_stripped]); try done;
    try (by repeat constructor); by apply Hv.
Qed.

Lemma envelope_edits es fuel ops :
  Forall valid_edit es → (length (es ≫= render_edit) < fuel)%nat →
  envelope_operations resolve fuel ops ((es ≫= render_edit) ++ [header "*** End Patch" []]) =
  Some (let? more := result_map operation_of es in Ok (ops ++ more)).
Proof.
  intros Hes. revert fuel ops. induction Hes as [|e es He Hes IH]; intros [|fuel] ops Hfuel; try (simpl in Hfuel; lia).
  - simpl. by rewrite app_nil_r.
  - rewrite bind_cons, <- app_assoc in *.
    assert (∃ line rest, (es ≫= render_edit) ++ [header "*** End Patch" []] = line :: rest ∧
      envelope_header line ∧ starts (_line_stripped line) (u "*** Move to: ") = false) as (line & rest & Hrest & Hline & Hm).
    { destruct Hes as [|e' es He' _]; [by eexists _, _|].
      destruct (render_edit_head e' He') as (line & rest & Hr & Hline).
      rewrite bind_cons, Hr. by eexists _, _. }
    rewrite length_app in Hfuel. destruct (render_edit_head e He) as (l & r & Hr & _).
    rewrite Hrest, envelope_edit by (done || lia). cbn [result_map].
    destruct (operation_of e) as [op|]; [|done]. cbn [result_bind].
    rewrite <- Hrest, IH by (rewrite Hr in Hfuel; simpl in Hfuel; lia).
    destruct (result_map operation_of es); simpl; by rewrite <- ?app_assoc.
Qed.

Lemma render_edit_lf e : valid_edit e → Forall lf_line (render_edit e).
Proof.
  assert (∀ c l, body_char c → Forall lf_line l → Forall lf_line (cons c <$> l)) as Hbody.
  { intros c l Hc Hl. apply Forall_fmap. eapply Forall_impl; [exact Hl|]. intros. by apply body_line_lf. }
  intros Hv. destruct e as [file move_to hs|file content|file]; simpl in Hv; cbn [render_edit].
  - destruct Hv as ([Hf _] & Hhs & Hm). rewrite !Forall_app. split_and!.
    + constructor; [by apply header_lf_line|done].
    + destruct move_to as [d|]; [|done]. constructor; [|done]. apply header_lf_line; [done|apply Hm].
    + apply Forall_bind. eapply Forall_impl; [exact Hhs|]. intros h [Hl Hc]. cbv beta. unfold compose. rewrite render_hunk_cons.
      constructor; [by apply (context_line_facts _ Hc)|]. apply Forall_app. split.
      * apply Forall_fmap. eapply Forall_impl; [exact Hl|]. intros d Hd. simpl.
        destruct (render_line_shape d) as (c & ? & ->). by apply body_line_lf.
      * destruct (eh_eof h); [|done]. constructor; [|done]. by apply header_lf_line; [|constructor].
  - destruct Hv as ([Hf _] & Hc). constructor; [by apply header_lf_line|].
    apply Hbody; [unfold body_char; auto|done].
  - constructor; [apply header_lf_line; [done|apply Hv]|done].
Qed.

End Roundtrip.

(** ** Parsing always returns *)

Lemma header_not_at s : _is_patch_envelope_header s = true → starts s (u "@@") = false.
Proof.
  unfold _is_patch_envelope_header. rewrite !orb_true_iff, !bool_decide_eq_true, !starts_spec.
  intros [[[[[->| ->]|[r ->]]|[r ->]]|[r ->]]|[r ->]]; done.
Qed.

Lemma envelope_hunk_body_shorter o n k lines o' n' eof rest :
  envelope_hunk_body o n k lines = Ok (o', n', eof, rest) → (length rest ≤ length lines)%nat.
Proof.
  revert o n k. induction lines as [|line lines IH]; intros o n k; cbn [envelope_hunk_body].
  - intros [= <- <- <- <-]. done.
  - repeat case_match; intros; simplify_eq/=; try lia;
      match goal with H : envelope_hunk_body _ _ _ lines = _ |- _ => apply IH in H; lia end.
Qed.

(** A hunk that begins with a marker or a hunk line consumes it. *)
Lemma parse_hunk_shorter line lines h rest :
  starts line (u "@@") || negb (_is_patch_envelope_header (_line_stripped line)) = true →
  _parse_patch_envelope_hunk (line :: lines) = Ok (h, rest) → (length rest < length (line :: lines))%nat.
Proof.
  intros Hline. unfold _parse_patch_envelope_hunk. destruct (starts line (u "@@")) eqn:Hat.
  - intros ([[[o n] eof] r] & Hb & [= <- <-])%result_bind_ok. apply envelope_hunk_body_shorter in Hb.
    simpl. lia.
  - apply negb_true_iff in Hline. cbn [envelope_hunk_body]. rewrite Hat, Hline. cbn [orb].
    intros ([[[o n] eof] r] & Hb & [= <- <-])%result_bind_ok. revert Hb.
    repeat case_match; intros; simplify_eq/=;
      match goal with H : envelope_hunk_body _ _ _ lines = _ |- _ =>
        apply envelope_hunk_body_shorter in H; simpl; lia end.
Qed.

Definition total_within {A} (len : nat) (r : option (result PatchError (A * list ustr))) : Prop :=
  match r with
  | Some (Ok (_, rest)) => (length rest ≤ len)%nat
  | Some (Err _) => True
  | None => False
  end.

Lemma update_hunks_total fuel acc lines :
  (length lines < fuel)%nat → total_within (length lines) (update_hunks fuel acc lines).
Proof.
  revert acc lines. induction fuel as [|fuel IH]; intros acc [|line lines] Hfuel; simpl in Hfuel; try lia;
    cbn [update_hunks]; [simpl; lia|].
  destruct (bool_decide _).
  { specialize (IH acc lines ltac:(lia)). unfold total_within in *. repeat case_match; simpl; try done; lia. }
  destruct (_is_patch_envelope_header (_line_stripped line)) eqn:Hh; cbn [andb].
  { rewrite (header_not_at _ Hh). simpl. lia. }
  destruct (negb _); [done|].
  destruct (_parse_patch_envelope_hunk (line :: lines)) as [[h rest]|e] eqn:Hp; [|done].
  apply parse_hunk_shorter in Hp; [|by rewrite Hh, orb_true_r]. simpl in Hp.
  specialize (IH (acc ++ [h]) rest ltac:(lia)). unfold total_within in *. repeat case_match; simpl; try done; lia.
Qed.

Lemma add_lines_shorter parts lines parts' rest :
  add_lines parts lines = Ok (parts', rest) → (length rest ≤ length lines)%nat.
Proof.
  revert parts. induction lines as [|line lines IH]; intros parts; cbn [add_lines]; [by intros [= <- <-]|].
  unfold format_error. repeat case_match; intros; simplify_eq/=; try lia;
    match goal with H : add_lines _ lines = _ |- _ => apply IH in H; lia end.
Qed.

Lemma delete_lines_shorter lines rest : delete_lines lines = Ok rest → (length rest ≤ length lines)%nat.
Proof.
  induction lines as [|line lines IH]; cbn [delete_lines]; [by intros [= <-]|]. unfold format_error.
  repeat case_match; intros; simplify_eq/=; try lia. by etrans; [apply IH|lia].
Qed.

Lemma move_header_shorter resolve source lines kind destination rest :
  move_header resolve source lines = Ok (kind, destination, rest) → (length rest ≤ length lines)%nat.
Proof.
  unfold move_header, format_error. repeat case_match; try (by intros [= <- <- <-]).
  intros (d & _ & [= <- <- <-])%result_bind_ok. simpl. lia.
Qed.

Lemma envelope_operations_total resolve fuel ops lines :
  (length lines < fuel)%nat → is_Some (envelope_operations resolve fuel ops lines).
Proof.
  revert ops lines. induction fuel as [|fuel IH]; intros ops [|line lines] Hfuel; simpl in Hfuel; try lia;
    cbn [envelope_operations]; [done|].
  destruct (bool_decide _); [done|]. destruct (bool_decide _); [apply IH; lia|].
  destruct (strip_prefix (u "*** Update File: ") _) as [raw|].
  { destruct (bool_decide _); [done|]. destruct (resolve (ustrip raw)) as [source|]; [|done]. cbn [result_bind].
    destruct (move_header resolve source lines) as [[[kind destination] rest]|] eqn:Hm; [|done].
    cbn [result_bind]. apply move_header_shorter in Hm.
    pose proof (update_hunks_total fuel [] rest ltac:(lia)) as Hu. unfold total_within in Hu.
    destruct (update_hunks fuel [] rest) as [[[hs rest']|]|]; [|done|done].
    destruct (_ && _); [done|apply IH; lia]. }
  destruct (strip_prefix (u "*** Add File: ") _) as [raw|].
  { destruct (bool_decide _); [done|]. destruct (resolve (ustrip raw)); [|done]. cbn [result_bind].
    destruct (add_lines [] lines) as [[parts rest]|] eqn:Ha; [|done].
    apply add_lines_shorter in Ha. apply IH. lia. }
  destruct (strip_prefix (u "*** Delete File: ") _) as [raw|]; [|done].
  destruct (bool_decide _); [done|]. destruct (resolve (ustrip raw)); [|done]. cbn [result_bind].
  destruct (delete_lines lines) as [rest|] eqn:Hd; [|done].
  apply delete_lines_shorter in Hd. apply IH. lia.
Qed.

Lemma native_hunks_total fuel acc lines :
  (length lines < fuel)%nat → is_Some (native_hunks fuel acc lines).
Proof.
  revert acc lines. induction fuel as [|fuel IH]; intros acc [|line lines] Hfuel; simpl in Hfuel; try lia;
    cbn [native_hunks]; [done|].
  destruct (starts line (u "@@")) eqn:Hat; [|done]. cbn [negb].
  destruct (_parse_patch_envelope_hunk (line :: lines)) as [[h rest]|] eqn:Hp; [|done].
  apply parse_hunk_shorter in Hp; [|by rewrite Hat]. simpl in Hp. apply IH. lia.
Qed.

(** Parsing terminates on every input: each round of the loops over the lines of an
    envelope, a native operation or a creation diff consumes a line, so the number of
    lines is enough fuel and parsing returns operations or an error. *)
Theorem parsing_returns resolve patch_text operation_type raw_path diff :
  is_Some (_parse_patch_operations resolve patch_text) ∧
  is_Some (_parse_native_apply_patch_operation resolve operation_type raw_path diff).
Proof.
  assert (is_Some (_parse_native_apply_patch_hunks diff)) as [hs Hhs]
    by (apply native_hunks_total; lia).
  split.
  - unfold _parse_patch_operations, _parse_patch_envelope. destruct (starts _ _); [|done].
    destruct (splitlines patch_text) as [|line lines]; [done|].
    destruct (bool_decide _); [|done]. apply envelope_operations_total. lia.
  - unfold _parse_native_apply_patch_operation, _native_apply_patch_create_content. rewrite Hhs.
    destruct (bool_decide (ustrip raw_path = [])); [done|]. destruct (resolve _); [|done].
    repeat case_match; simplify_eq; done.
Qed.

(** *** Checking the round trip on a concrete patch *)

Lemma clean_name_check s :
  forallb (λ c, negb (line_break c) && negb (uspace c)) s = true → s ≠ [] → clean_name s.
Proof.
  intros Hf Hne. rewrite forallb_forall in Hf.
  assert (∀ c, c ∈ s → line_break c = false ∧ uspace c = false) as Hs.
  { intros c Hc. by apply list_elem_of_In, Hf, andb_prop in Hc as [?%negb_true_iff ?%negb_true_iff]. }
  split_and!; [apply Forall_forall; intros c Hc; by apply Hs|done|].
  intros c [Hc|Hc]; apply Hs; [by apply head_Some_elem_of|by apply last_Some_elem_of].
Qed.

Definition hostile_lines : list ustr :=
  (λ l, u l ++ [LF]) <$> ["*** End Patch"; "@@"; "*** Delete File: a"; ""; "\ No newline at end of file"].

