(* ===== verification/PatchUnified.v ===== *)
(** Unified diffs: parsing a rendered diff and applying it gives the new file. *)

From S2P Require Import Prelude Str Patch PatchSpec PatchParse.
Local Open Scope N_scope.

(** ** Diffs as edit scripts *)

(** A hunk with the unchanged lines in front of it; its lines hold the context. *)
Record diff_hunk := { dh_gap : list ustr; dh_lines : list edit_line }.

Record diff_file := { df_name : ustr; df_hunks : list diff_hunk; df_tail : list ustr }.

Definition before_lines (hs : list diff_hunk) : list ustr := hs ≫= λ h, dh_gap h ++ olds (dh_lines h).
Definition after_lines (hs : list diff_hunk) : list ustr := hs ≫= λ h, dh_gap h ++ news (dh_lines h).
Definition before (f : diff_file) : ustr := concat (before_lines (df_hunks f) ++ df_tail f).
Definition after (f : diff_file) : ustr := concat (after_lines (df_hunks f) ++ df_tail f).

(** Decimal digits; the fuel bounds their number. *)
Fixpoint dec (fuel : nat) (n : Z) : ustr :=
  match fuel with
  | O => [48 + Z.to_N (n mod 10)]
  | S fuel => if (n <? 10)%Z then [48 + Z.to_N n] else dec fuel (n / 10) ++ [48 + Z.to_N (n mod 10)]
  end.

Definition udec (n : Z) : ustr := dec (Z.to_nat (Z.log2 n)) n.

Definition range_line (o ol n nl : nat) : ustr :=
  u "@@ -" ++ udec o ++ u "," ++ udec ol ++ u " +" ++ udec n ++ u "," ++ udec nl ++ u " @@" ++ [LF].

(** The hunks, from the given numbers of lines on. *)
Fixpoint render_hunks (o n : nat) (hs : list diff_hunk) : list ustr :=
  match hs with
  | [] => []
  | h :: hs =>
      let g := length (dh_gap h) in
      let ol := length (olds (dh_lines h)) in
      let nl := length (news (dh_lines h)) in
      range_line (S (o + g)) ol (S (n + g)) nl :: (render_line <$> dh_lines h) ++
      render_hunks (o + g + ol) (n + g + nl) hs
  end.

Definition render_file (f : diff_file) : list ustr :=
  [header "--- a/" (df_name f); header "+++ b/" (df_name f)] ++ render_hunks 0 0 (df_hunks f).

Definition render_diff (fs : list diff_file) : ustr := concat (fs ≫= render_file).

(** The hunks a parser should find. *)
Fixpoint hunks_from (o : nat) (hs : list diff_hunk) : list _PatchHunk :=
  match hs with
  | [] => []
  | h :: hs =>
      {| old_text := concat (olds (dh_lines h)); new_text := concat (news (dh_lines h));
         old_start := Some (Z.of_nat (S (o + length (dh_gap h)))); change_context := None;
         is_end_of_file := false |} ::
      hunks_from (o + length (dh_gap h) + length (olds (dh_lines h))) hs
  end.

Definition file_operation (resolve : ustr → result PatchError path) (f : diff_file) :
    result PatchError _PatchOperation :=
  let? p := resolve (df_name f) in
  Ok {| op_kind := KUpdate; source_path := Some p; destination_path := Some p;
        hunks := hunks_from 0 (df_hunks f); add_content := [] |}.

(** A deleted line that starts with two dashes and a space renders as the header of an
    old file, an added one with two pluses as that of a new file: the parser cannot tell. *)
Definition valid_line (d : edit_line) : Prop :=
  lf_line (line_of d) ∧
  match d with
  | Keep _ => True
  | Del l => starts l (u "-- ") = false
  | Add l => starts l (u "++ ") = false
  end.

Definition valid_diff_hunk (h : diff_hunk) : Prop :=
  Forall lf_line (dh_gap h) ∧ Forall valid_line (dh_lines h) ∧ olds (dh_lines h) ≠ [].

(** Line numbers are printed in at most [INT_MAX_STR_DIGITS] digits. *)
Definition valid_file (f : diff_file) : Prop :=
  clean_name (df_name f) ∧ df_hunks f ≠ [] ∧ Forall valid_diff_hunk (df_hunks f) ∧
  Forall lf_line (df_tail f) ∧ (Z.of_nat (length (before_lines (df_hunks f))) < 10 ^ INT_MAX_STR_DIGITS)%Z.

#[global] Instance valid_line_dec d : Decision (valid_line d).
Proof. destruct d; apply _. Defined.

#[global] Instance valid_diff_hunk_dec h : Decision (valid_diff_hunk h).
Proof. apply _. Defined.

(** ** Decimal numbers *)

Lemma digit_value_digit d : (0 ≤ d < 10)%Z → digit_value (48 + Z.to_N d) = Some d.
Proof.
  intros Hd. assert (d ∈ [0; 1; 2; 3; 4; 5; 6; 7; 8; 9]%Z) as Hin by (rewrite !elem_of_cons; lia).
  repeat (apply elem_of_cons in Hin as [->|Hin]; [by vm_compute|]). by apply elem_of_nil in Hin.
Qed.

Lemma digits_app s r :
  (∀ c, head r = Some c → digit_value c = None) → Forall (λ c, is_Some (digit_value c)) s →
  digits (s ++ r) = (omap digit_value s, r).
Proof.
  intros Hr Hs. induction Hs as [|c s [x Hx] _ IH].
  - destruct r as [|c r]; [done|]. cbn [app digits]. by rewrite Hr.
  - cbn [app digits omap list_omap] in *. rewrite Hx. by rewrite IH.
Qed.

Lemma dec_spec fuel n w :
  (0 ≤ n)%Z → (n < 2 ^ S fuel)%Z → (n < 10 ^ Z.of_nat w)%Z → (0 < w)%nat →
  Forall (λ c, is_Some (digit_value c)) (dec fuel n) ∧ digits_int (omap digit_value (dec fuel n)) = n ∧
  (length (dec fuel n) ≤ w)%nat ∧ dec fuel n ≠ [].
Proof.
  revert n w. induction fuel as [|fuel IH]; intros n w Hn Hfuel Hw Hw0.
  - cbn [dec omap list_omap]. rewrite digit_value_digit by (apply Z.mod_pos_bound; lia).
    rewrite Z.mod_small by (simpl in Hfuel; lia).
    split_and!; [|unfold digits_int; simpl; lia|simpl; lia|done].
    repeat constructor. rewrite digit_value_digit by (simpl in Hfuel; lia). done.
  - cbn [dec]. destruct (Z.ltb_spec n 10).
    + cbn [omap list_omap]. rewrite digit_value_digit by lia.
      split_and!; [|unfold digits_int; simpl; lia|simpl; lia|done].
      repeat constructor. by rewrite digit_value_digit by lia.
    + destruct w as [|w]; [lia|]. rewrite Nat2Z.inj_succ, Z.pow_succ_r in Hw by lia.
      rewrite (Nat2Z.inj_succ (S fuel)), Z.pow_succ_r in Hfuel by lia.
      assert (0 < w)%nat by (destruct w; [simpl in Hw; lia|lia]).
      destruct (IH (n / 10)%Z w) as (Hd & Hi & Hl & Hne);
        [apply Z.div_pos; lia|apply Z.div_lt_upper_bound; lia|apply Z.div_lt_upper_bound; lia|done|].
      pose proof (Z.mod_pos_bound n 10 ltac:(lia)). split_and!.
      * apply Forall_app. split; [done|]. repeat constructor. by rewrite digit_value_digit by done.
      * rewrite omap_app. cbn [omap list_omap]. rewrite digit_value_digit by done.
        unfold digits_int in *. rewrite foldl_snoc, Hi. pose proof (Z.div_mod n 10). lia.
      * rewrite length_app. simpl. lia.
      * by destruct (dec fuel (n / 10)).
Qed.

Lemma udec_spec n w :
  (0 ≤ n < 10 ^ Z.of_nat w)%Z → (0 < w)%nat →
  Forall (λ c, is_Some (digit_value c)) (udec n) ∧ digits_int (omap digit_value (udec n)) = n ∧
  (length (udec n) ≤ w)%nat ∧ udec n ≠ [].
Proof.
  intros Hn Hw. apply dec_spec; [lia| |lia|done]. rewrite Nat2Z.inj_succ, Z2Nat.id by apply Z.log2_nonneg.
  destruct (decide (n = 0)%Z) as [->|]; [done|]. apply Z.log2_spec. lia.
Qed.

Lemma udec_digits n :
  (0 ≤ n)%Z → Forall (λ c, is_Some (digit_value c)) (udec n) ∧ omap digit_value (udec n) ≠ [].
Proof.
  intros Hn. destruct (udec_spec n (S (Z.to_nat n))) as (Hd & _ & _ & Hne); [|lia|].
  - split; [done|]. eapply Z.lt_le_trans; [apply (Z.pow_gt_lin_r 10); lia|]. apply Z.pow_le_mono_r; lia.
  - split; [done|]. destruct Hd as [|c s [x Hx]]; [done|]. cbn [omap list_omap]. by rewrite Hx.
Qed.

Lemma digit_value_break c : line_break c = true → digit_value c = None.
Proof.
  intros Hc. assert (c ∈ [10; 11; 12; 13; 28; 29; 30; 133; 8232; 8233]) as Hin.
  { unfold line_break in Hc. rewrite !orb_true_iff, !andb_true_iff, !N.leb_le, !N.eqb_eq in Hc.
    rewrite !elem_of_cons. lia. }
  repeat (apply elem_of_cons in Hin as [->|Hin]; [by vm_compute|]). by apply elem_of_nil in Hin.
Qed.

Lemma range_start_app a b r :
  (0 ≤ a)%Z → (0 ≤ b)%Z →
  range_start (udec a ++ u "," ++ udec b ++ u " " ++ r) = Some (omap digit_value (udec a), u " " ++ r).
Proof.
  intros Ha Hb. destruct (udec_digits a Ha) as [Ha1 Ha2], (udec_digits b Hb) as [Hb1 Hb2].
  unfold range_start. rewrite digits_app by (done || by intros ? [= <-]).
  destruct (omap digit_value (udec a)); [done|]. change (u "," ++ ?x) with (44 :: x).
  cbn [N.eqb Pos.eqb]. rewrite digits_app by (done || by intros ? [= <-]).
  by destruct (omap digit_value (udec b)).
Qed.

Lemma hunk_header_range o ol n nl :
  hunk_header (range_line o ol n nl) = Some (omap digit_value (udec o)).
Proof.
  unfold hunk_header, range_line. rewrite (proj2 (strip_prefix_spec _ _ _) eq_refl). cbn [mbind option_bind].
  change (u " +") with (u " " ++ u "+"). rewrite <- !app_assoc, range_start_app by lia. cbn [mbind option_bind].
  rewrite app_assoc, (proj2 (strip_prefix_spec _ _ _) eq_refl). cbn [mbind option_bind].
  change (u " @@" ++ [LF]) with (u " " ++ u "@@" ++ [LF]). rewrite range_start_app by lia. done.
Qed.

Lemma range_line_lf o ol n nl : lf_line (range_line o ol n nl).
Proof.
  assert (∀ z, (0 ≤ z)%Z → one_line (udec z)) as Hdec.
  { intros z Hz. eapply Forall_impl; [apply (udec_digits z Hz)|]. intros c [d Hd].
    destruct (line_break c) eqn:Hc; [|done]. by rewrite digit_value_break in Hd. }
  exists (u "@@ -" ++ udec o ++ u "," ++ udec ol ++ u " +" ++ udec n ++ u "," ++ udec nl ++ u " @@").
  split; [unfold range_line; by rewrite <- !app_assoc|]. unfold one_line in *.
  rewrite !Forall_app. split_and!; try (by apply one_line_u); apply Hdec; lia.
Qed.

Lemma omap_length_le {A B} (f : A → option B) l : (length (omap f l) ≤ length l)%nat.
Proof.
  induction l as [|x l IH]; [done|]. change (omap f (x :: l)) with (match f x with Some y => y :: omap f l | None => omap f l end).
  destruct (f x); simpl length; lia.
Qed.

Lemma int_max_pos : (0 < INT_MAX_STR_DIGITS)%nat.
Proof. apply Nat.ltb_lt. by vm_compute. Qed.

#[local] Opaque INT_MAX_STR_DIGITS.

Lemma starts_false s p : starts s p = false → strip_prefix p s = None.
Proof. unfold starts. by destruct (strip_prefix p s). Qed.

(** ** The lines of a diff, one by one *)

Section Parse.
Context (resolve : ustr → result PatchError path).

Lemma unified_body_line st d p :
  valid_line d → current_path st = Some p →
  ∃ k, unified_line resolve st (render_line d) =
       Ok (set_parts st (old_parts st ++ old_line d) (new_parts st ++ new_line d) k).
Proof.
  intros [Hlf Hd] Hp. destruct (render_line_shape d) as (c & Hc & Hr).
  destruct (body_line_plain c _ Hc Hlf) as (Hat & _ & Hm & _). rewrite <- Hr in Hat, Hm.
  assert (strip_prefix (u "--- ") (render_line d) = None ∧ strip_prefix (u "+++ ") (render_line d) = None) as [Ho Hn].
  { destruct d as [l|l|l]; [done|split; [|done]|split; [done|]]; by apply starts_false in Hd. }
  unfold unified_line. rewrite Hm, Ho, Hn, Hat, Hp.
  destruct d; simpl; rewrite ?app_nil_r; eauto.
Qed.

Lemma unified_body st ds p rest :
  Forall valid_line ds → current_path st = Some p →
  ∃ k, result_fold (unified_line resolve) st ((render_line <$> ds) ++ rest) =
       result_fold (unified_line resolve) (set_parts st (old_parts st ++ olds ds) (new_parts st ++ news ds) k) rest.
Proof.
  intros Hds. revert st. induction Hds as [|d ds Hd _ IH]; intros st Hp.
  - exists (last_line_kind st). unfold olds, news. simpl. rewrite !app_nil_r. by destruct st.
  - destruct (unified_body_line st d p Hd Hp) as [k Hstep].
    set (st' := set_parts st (old_parts st ++ old_line d) (new_parts st ++ new_line d) k) in *.
    destruct (IH st' Hp) as [k' Hfold]. exists k'.
    rewrite fmap_cons. cbn [app result_fold]. rewrite Hstep. cbn [result_bind]. rewrite Hfold.
    unfold olds, news, st', set_parts. simpl. by rewrite <- !app_assoc.
Qed.

Lemma plain_range_line o ol n nl :
  _is_no_newline_marker (_line_stripped (range_line o ol n nl)) = false.
Proof.
  destruct (range_line_lf o ol n nl) as (b & Hb & Hone). rewrite Hb, line_stripped_lf by done.
  destruct b as [|c b]; [by vm_compute|]. unfold range_line in Hb. simpl in Hb. injection Hb as <- _.
  done.
Qed.

(** A hunk of the diff: its header closes the open hunk, its lines are the new open one. *)
Lemma unified_hunk st p o n h rest :
  valid_diff_hunk h → current_path st = Some p →
  (Z.of_nat (S (o + length (dh_gap h))) < 10 ^ Z.of_nat INT_MAX_STR_DIGITS)%Z →
  ∃ st', result_fold (unified_line resolve) st (render_hunks o n [h] ++ rest) =
           result_fold (unified_line resolve) st' rest ∧
    operations st' = operations st ∧ current_path st' = Some p ∧ expected_old_path st' = expected_old_path st ∧
    close_hunk st' = close_hunk st ++ hunks_from o [h].
Proof.
  intros (Hgap & Hlines & Hold) Hp Hnum. cbn [render_hunks app]. rewrite app_nil_r.
  set (line := range_line _ _ _ _). cbn [result_fold].
  assert (unified_line resolve st line = hunk_line st line) as ->.
  { assert (_is_no_newline_marker (_line_stripped line) = false) as Hm by apply plain_range_line.
    unfold unified_line. by rewrite Hm. }
  unfold hunk_line. rewrite Hp. unfold line at 1. rewrite hunk_header_range.
  destruct (udec_spec (Z.of_nat (S (o + length (dh_gap h)))) INT_MAX_STR_DIGITS) as (Hd & Hint & Hlen & _).
  { split; [lia|done]. }
  { apply int_max_pos. }
  rewrite (proj2 (Nat.ltb_ge _ _)).
  2: { etrans; [|exact Hlen]. apply omap_length_le. }
  rewrite Hint. cbn [result_bind].
  set (st1 := {| operations := _ |}).
  destruct (unified_body st1 (dh_lines h) p rest Hlines eq_refl) as [k Hfold].
  eexists. split; [exact Hfold|]. split_and!; [done..|].
  clear Hnum Hd Hint Hlen. unfold close_hunk at 1, st1, set_parts. simpl.
  destruct (olds (dh_lines h)) as [|l ls]; [done|]. by destruct (news (dh_lines h)).
Qed.

(** All hunks of a file, whose line numbers stay below the limit. *)
Lemma unified_hunks st p o n hs rest :
  Forall valid_diff_hunk hs → current_path st = Some p →
  (Z.of_nat (o + length (before_lines hs)) < 10 ^ Z.of_nat INT_MAX_STR_DIGITS)%Z →
  ∃ st', result_fold (unified_line resolve) st (render_hunks o n hs ++ rest) =
           result_fold (unified_line resolve) st' rest ∧
    operations st' = operations st ∧ current_path st' = Some p ∧ expected_old_path st' = expected_old_path st ∧
    close_hunk st' = close_hunk st ++ hunks_from o hs.
Proof.
  intros Hhs. revert st o n. induction Hhs as [|h hs Hh _ IH]; intros st o n Hp Hnum.
  - exists st. by rewrite app_nil_r.
  - unfold before_lines in Hnum. rewrite bind_cons, !length_app in Hnum. fold (before_lines hs) in Hnum.
    assert (0 < length (olds (dh_lines h)))%nat by (destruct Hh as (_ & _ & Hne); destruct (olds _); [done|simpl; lia]).
    set (o' := (o + length (dh_gap h) + length (olds (dh_lines h)))%nat).
    set (n' := (n + length (dh_gap h) + length (news (dh_lines h)))%nat).
    destruct (unified_hunk st p o n h (render_hunks o' n' hs ++ rest) Hh Hp ltac:(lia))
      as (st1 & Hf1 & Hop1 & Hp1 & He1 & Hc1).
    destruct (IH st1 o' n' Hp1 ltac:(unfold o'; lia)) as (st2 & Hf2 & Hop2 & Hp2 & He2 & Hc2).
    exists st2. rewrite <- Hf2, <- Hf1. split_and!; [|congruence|done|congruence|].
    + f_equal. cbn [render_hunks app]. by rewrite app_nil_r, <- app_assoc.
    + by rewrite Hc2, Hc1, <- app_assoc.
Qed.

Lemma side_prefix side name :
  clean_name name → uspace (default 0 (head (u side))) = false → u side ≠ [] →
  strip_side (u side) (ustrip (u side ++ name ++ [LF])) = name ∧
  ustrip (u side ++ name ++ [LF]) = u side ++ name.
Proof.
  intros (_ & Hne & Hs) Hside Hside0.
  assert (ustrip (u side ++ name ++ [LF]) = u side ++ name) as Heq.
  { unfold ustrip, ulstrip. rewrite lstrip_by_none by (destruct (u side); [done|]; by intros ? [= <-]).
    unfold urstrip. rewrite app_assoc, rstrip_by_snoc. simpl.
    destruct name as [|c name _] using rev_ind; [done|].
    rewrite app_assoc, rstrip_by_snoc, Hs; [done|]. right. apply last_snoc. }
  split; [|done]. rewrite Heq. unfold strip_side. by rewrite (proj2 (strip_prefix_spec _ _ name) eq_refl).
Qed.

Lemma unified_file st f rest :
  valid_file f →
  match file_operation resolve f with
  | Err e => result_fold (unified_line resolve) st (render_file f ++ rest) = Err e
  | Ok op => ∃ st', result_fold (unified_line resolve) st (render_file f ++ rest) =
      result_fold (unified_line resolve) st' rest ∧ close_file st' = close_file st ++ [op]
  end.
Proof.
  intros (Hname & Hne & Hhs & _ & Hnum). unfold render_file, file_operation. cbn [app result_fold].
  destruct (side_prefix "a/" (df_name f) Hname eq_refl ltac:(done)) as [Ha Ha'].
  destruct (side_prefix "b/" (df_name f) Hname eq_refl ltac:(done)) as [Hb Hb'].
  destruct Hname as (Hone & _ & _).
  assert (∀ h, h = "--- a/" ∨ h = "+++ b/" →
    _is_no_newline_marker (_line_stripped (header h (df_name f))) = false) as Hm.
  { intros h [-> | ->]; rewrite header_stripped by done; done. }
  assert (unified_line resolve st (header "--- a/" (df_name f)) =
    old_file_line resolve st (u "a/" ++ df_name f ++ [LF])) as ->
    by (unfold unified_line; by rewrite Hm by auto).
  unfold old_file_line. rewrite Ha, Ha'. rewrite bool_decide_eq_false_2 by done.
  destruct (resolve (df_name f)) as [p|e] eqn:Hres; [|done]. cbn [result_bind].
  set (st1 := {| operations := operations st; expected_old_path := Some p |}).
  assert (unified_line resolve st1 (header "+++ b/" (df_name f)) =
    new_file_line resolve st1 (u "b/" ++ df_name f ++ [LF])) as ->
    by (unfold unified_line; by rewrite Hm by auto).
  unfold new_file_line. rewrite Hb, Hb'. rewrite bool_decide_eq_false_2 by done.
  rewrite Hres. cbn [result_bind expected_old_path st1]. rewrite bool_decide_eq_true_2 by done.
  cbn [negb result_bind]. set (st2 := {| operations := close_file st1 |}).
  destruct (unified_hunks st2 p 0 0 (df_hunks f) rest Hhs eq_refl Hnum) as (st3 & Hfold & Hop & Hp & _ & Hc).
  exists st3. split; [exact Hfold|]. unfold close_file at 1. rewrite Hp, Hc, Hop.
  change (close_hunk st2) with (@nil _PatchHunk). cbn [app].
  clear Hnum. by destruct (df_hunks f).
Qed.

Lemma unified_files st fs :
  Forall valid_file fs →
  (let? st' := result_fold (unified_line resolve) st (fs ≫= render_file) in Ok (close_file st')) =
  (let? ops := result_map (file_operation resolve) fs in Ok (close_file st ++ ops)).
Proof.
  intros Hfs. revert st. induction Hfs as [|f fs Hf _ IH]; intros st.
  - simpl. by rewrite app_nil_r.
  - rewrite bind_cons. pose proof (unified_file st f (fs ≫= render_file) Hf) as Hfile. cbn [result_map].
    destruct (file_operation resolve f) as [op|e]; [|by rewrite Hfile].
    destruct Hfile as (st1 & -> & Hc). rewrite IH, Hc. cbn [result_bind].
    destruct (result_map _ fs); simpl; by rewrite <- ?app_assoc.
Qed.
End Parse.

(** ** Applying the hunks *)

Lemma concat_lf_no_cr ls : Forall lf_line ls → Forall (λ c, c ≠ CR) (concat ls).
Proof.
  intros Hls. apply Forall_concat. eapply Forall_impl; [exact Hls|]. intros l (b & -> & Hb).
  apply Forall_app. split; [|by repeat constructor]. eapply Forall_impl; [exact Hb|]. by intros c Hc ->.
Qed.

Lemma detect_lf s : Forall (λ c, c ≠ CR) s → _detect_newline s = [LF].
Proof.
  intros Hs. unfold _detect_newline. assert (contains s CRLF = false) as ->; [|done].
  induction Hs as [|c s Hc _ IH]; [done|]. cbn [contains]. rewrite IH, orb_false_r.
  apply starts_cons_ne. done.
Qed.

Lemma valid_old_lines ds : Forall valid_line ds → Forall lf_line (olds ds) ∧ Forall lf_line (news ds).
Proof.
  intros Hds. split; apply Forall_bind; (eapply Forall_impl; [exact Hds|]); intros d [Hd _]; by destruct d; repeat constructor.
Qed.

(** The hunks, applied to what is left of the old lines behind the lines already new. *)
Lemma apply_hunks_from hs done_new (o : nat) rest :
  Forall valid_diff_hunk hs →
  result_fold (apply_unified_hunk [LF]) (done_new ++ before_lines hs ++ rest, length done_new - o)%Z (hunks_from o hs) =
  Ok (done_new ++ after_lines hs ++ rest,
      length done_new + length (after_lines hs) - (o + length (before_lines hs)))%Z.
Proof.
  intros Hhs. revert done_new o. induction Hhs as [|h hs (_ & Hlines & _) _ IH]; intros done_new o.
  - simpl. do 3 f_equal; lia.
  - destruct (valid_old_lines _ Hlines) as [Ho Hn].
    cbn [hunks_from result_fold]. unfold apply_unified_hunk at 1, hunk_old_lines, hunk_new_lines. cbn [old_start].
    cbn [old_text new_text].
    assert (∀ t, _normalize_patch_text_for_newline t [LF] = t) as Hnorm by done. rewrite !Hnorm.
    rewrite !splitlines_concat_lf by done.
    set (old := olds (dh_lines h)) in *. set (new := news (dh_lines h)) in *. set (gap := dh_gap h).
    assert (before_lines (h :: hs) = gap ++ old ++ before_lines hs) as -> by (symmetry; apply app_assoc).
    assert (after_lines (h :: hs) = gap ++ new ++ after_lines hs) as -> by (symmetry; apply app_assoc).
    replace (Z.of_nat (S (o + length gap)) - 1 + (length done_new - o))%Z
      with (Z.of_nat (length (done_new ++ gap))) by (rewrite length_app; lia).
    rewrite (proj2 (Z.ltb_ge _ _)), Nat2Z.id by lia. cbn [orb].
    rewrite <- !app_assoc, (app_assoc done_new gap), drop_app_length, take_app_length.
    rewrite bool_decide_eq_true_2 by done. cbn [negb result_bind]. unfold splice.
    rewrite take_app_length, <- length_app, (app_assoc _ old), drop_app_length.
    specialize (IH ((done_new ++ gap) ++ new) (o + length gap + length old)%nat).
    rewrite <- app_assoc in IH. replace (length ((done_new ++ gap) ++ new) - (o + length gap + length old)%nat)%Z with
      (length done_new - o + (length new - length old))%Z in IH by (rewrite !length_app; lia).
    rewrite IH. f_equal. f_equal; [by rewrite <- !app_assoc|]. rewrite !length_app. lia.
Qed.

Lemma before_lf f : valid_file f → Forall lf_line (before_lines (df_hunks f) ++ df_tail f).
Proof.
  intros (_ & _ & Hhs & Ht & _). apply Forall_app. split; [|done]. apply Forall_bind.
  eapply Forall_impl; [exact Hhs|]. intros h (Hg & Hl & _). apply Forall_app. split; [done|].
  by apply valid_old_lines.
Qed.

Lemma render_file_lf f : valid_file f → Forall lf_line (render_file f).
Proof.
  intros ((Hone & _) & _ & Hhs & _). unfold render_file. repeat apply Forall_cons_2; try by apply header_lf_line.
  generalize 0%nat at 1. generalize 0%nat. induction Hhs as [|h hs (_ & Hl & _) _ IH]; intros n o; [constructor|].
  cbn [render_hunks]. constructor; [apply range_line_lf|]. apply Forall_app. split; [|apply IH].
  apply Forall_fmap. eapply Forall_impl; [exact Hl|]. intros d [Hd _]. unfold compose.
  destruct (render_line_shape d) as (c & ? & ->). by apply body_line_lf.
Qed.

Lemma file_op_not_begin fs : fs ≠ [] → starts (ulstrip (render_diff fs)) (u "*** Begin Patch") = false.
Proof. by destruct fs. Qed.


Definition sample_file : diff_file :=
  {| df_name := u "src/a.py";
     df_hunks := [{| dh_gap := [u "x = 1" ++ [LF]];
                     dh_lines := [Keep (u "def f():" ++ [LF]); Del (u "  return 0" ++ [LF]);
                                  Add (u "  y = 2" ++ [LF]); Add (u "  return y" ++ [LF])] |};
                  {| dh_gap := [[LF]]; dh_lines := [Del (u "*** End Patch" ++ [LF]); Keep (u "@@" ++ [LF])] |}];
     df_tail := [u "end" ++ [LF]] |}.


(** *** What the hypotheses exclude *)

Definition lines (l : list string) : ustr := concat ((λ s, u s ++ [LF]) <$> l).

Definition apply_diff (content diff : ustr) : option ustr :=
  match _parse_patch_operations (λ s, Ok [s]) diff with
  | Some (Ok [op]) => result_option (_apply_envelope_hunks content (hunks op) (_detect_newline content))
  | _ => None
  end.

(** The deletion of a line that starts with two dashes and a space is dropped silently. *)
Example deleted_dashes_ignored :
  apply_diff (lines ["a"; "-- b"; "c"]) (lines ["--- a/f"; "+++ b/f"; "@@ -1,2 +1,2 @@"; "-a"; "+A"; "--- b"]) =
  Some (lines ["A"; "-- b"; "c"]).
Proof. by vm_compute. Qed.

(** A hunk without context lines inserts before the line it should insert after. *)
Example insertion_without_context_misplaced :
  apply_diff (lines ["a"; "b"]) (lines ["--- a/f"; "+++ b/f"; "@@ -1,0 +2 @@"; "+X"]) = Some (lines ["X"; "a"; "b"]).
Proof. by vm_compute. Qed.
