(* ===== verification/Files.v ===== *)
(** The file tools of an executor: freshness tracking, staging and writing of patches
    ([packages/executor/src/cognis/tools/executor/filesystem.py], [file_freshness.py]).

    The world is a file tree and the tracker's table of reads.  Tools run as state
    transformers that may raise; what they read and write is explicit.  The formatter
    that may rewrite a written file, and the clock that stamps writes, are parameters.
    Diagnostics, diffs and messages are left out, except which files they name. *)

From S2P Require Import Prelude Str Patch.

(** ** The world *)

Record FileStamp := { mtime_ns : Z; size : Z }.

#[global] Instance FileStamp_eq_dec : EqDecision FileStamp.
Proof. solve_decision. Defined.

(** The content of a file: bytes that decode as UTF-8 to a text, or other bytes. *)
Inductive file_data := Text (s : ustr) | Bytes.

Inductive node := Dir | File (data : file_data) (stamp : FileStamp).

Record world := {
  fs : gmap path node;
  reads : gmap string (gmap path FileStamp);
  clock : Z;
}.

(** The root is always there. *)
Definition node_at (w : world) (p : path) : option node :=
  match p with [] => Some Dir | _ => fs w !! p end.

Definition set_fs (w : world) (m : gmap path node) : world := {| fs := m; reads := reads w; clock := clock w |}.
Definition set_reads (w : world) (r : gmap string (gmap path FileStamp)) : world :=
  {| fs := fs w; reads := r; clock := clock w |}.

(** What tools raise.  An operating system error names the path; a text that cannot be
    decoded, or encoded, names the file. *)
Inductive ToolError :=
| EPatch (e : PatchError)
| EMustRead (p : path)
| EModifiedSince (p : path)
| EOS (p : path)
| EUnicode (p : path)
| EEncode (p : path)
| EAssertion.

(** ** State transformers that may raise *)

Definition M (A : Type) : Type := world → result ToolError A * world.

Definition ret {A} (a : A) : M A := λ w, (Ok a, w).
Definition raise {A} (e : ToolError) : M A := λ w, (Err e, w).
Definition bind {A B} (m : M A) (f : A → M B) : M B := λ w,
  match m w with
  | (Ok a, w) => f a w
  | (Err e, w) => (Err e, w)
  end.
(** A computation that only reads. *)
Definition ask {A} (f : world → result ToolError A) : M A := λ w, (f w, w).

Declare Scope tool_scope.
Delimit Scope tool_scope with tool.
Notation "'let!' x ':=' c 'in' k" := (bind c (λ x, k))
  (at level 10, x pattern, c at level 100, k at level 200) : tool_scope.
Notation "c ';;!' k" := (bind c (λ _, k)) (at level 62, right associativity) : tool_scope.
Local Open Scope tool_scope.

(** ** Files *)

(** The length of a text in UTF-8. *)
Definition utf8_size (s : ustr) : Z :=
  foldr (λ c n, (if (c <? 128)%N then 1 else if (c <? 2048)%N then 2 else if (c <? 65536)%N then 3 else 4) + n) 0 s.

(** Surrogates cannot be encoded. *)
Definition encodable (s : ustr) : bool := forallb (λ c, negb ((55296 <=? c)%N && (c <=? 57343)%N)) s.

Definition stat (w : world) (p : path) : result ToolError FileStamp :=
  match node_at w p with
  | Some (File _ st) => Ok st
  | Some Dir => Ok {| mtime_ns := 0; size := 0 |}
  | None => Err (EOS p)
  end.

(** What staging keeps of the files: the operations to write, and an overlay of the tree. *)
Record _StagedPatchOperation := {
  st_kind : patch_kind;
  st_source : option path;
  st_destination : option path;
  previous_content : ustr;
  st_content : option ustr;
}.

Record _PatchOverlayEntry := { exists_ : bool; ov_content : ustr; on_disk : bool }.

Definition missing : _PatchOverlayEntry := {| exists_ := false; ov_content := []; on_disk := false |}.

Notation overlay := (gmap path _PatchOverlayEntry).

(** A native operation: its type, path and diff. *)
Notation native_operation := (ustr * ustr * ustr)%type.

Section Tools.
Context (format : path → ustr → option file_data) (tick : Z → Z).

(** New content, stamped with the clock. *)
Definition put (p : path) (d : file_data) (sz : Z) : M () := λ w,
  (Ok (), {| fs := <[p := File d {| mtime_ns := clock w; size := sz |}]> (fs w); reads := reads w;
             clock := tick (clock w) |}).

(** [path.write_text(content, encoding="utf-8", newline="")]: opening truncates the file
    before the text is encoded. *)
Definition write_text (p : path) (content : ustr) : M () := λ w,
  match node_at w p, node_at w (removelast p) with
  | Some Dir, _ => (Err (EOS p), w)
  | _, Some Dir =>
      if encodable content then put p (Text content) (utf8_size content) w
      else bind (put p (Text []) 0) (λ _, raise (EEncode p)) w
  | _, _ => (Err (EOS p), w)
  end.

(** [path.parent.mkdir(parents=True, exist_ok=True)] *)
Definition ancestors (p : path) : list path := (λ i, take i p) <$> seq 1 (length p - 1).

Definition make_parents (p : path) : M () := λ w,
  if existsb (λ q, match node_at w q with Some (File _ _) => true | _ => false end) (ancestors p)
  then (Err (EOS p), w)
  else (Ok (), set_fs w (foldr (λ q m, match m !! q with None => <[q := Dir]> m | _ => m end) (fs w) (ancestors p))).

Definition unlink (p : path) : M () := λ w,
  match node_at w p with
  | Some (File _ _) => (Ok (), set_fs w (delete p (fs w)))
  | _ => (Err (EOS p), w)
  end.

(** [source.replace(destination)] *)
Definition replace (p q : path) : M () := λ w,
  match node_at w p, node_at w q with
  | Some (File d st), Some Dir => (Err (EOS q), w)
  | Some (File d st), _ => (Ok (), set_fs w (<[q := File d st]> (delete p (fs w))))
  | _, _ => (Err (EOS p), w)
  end.

Definition _read_text_file (w : world) (p : path) : result ToolError ustr :=
  match node_at w p with
  | Some (File (Text s) _) =>
      if bool_decide (0%N ∈ s) then Err (EPatch (PatchConflictError "Patch only supports UTF-8 text files" [])) else Ok s
  | Some (File Bytes _) => Err (EPatch (PatchConflictError "Patch only supports UTF-8 text files" []))
  | _ => Err (EPatch (PatchConflictError "Cannot read file" []))
  end.

Definition _read_text_preserving_newlines (w : world) (p : path) : result ToolError ustr :=
  match node_at w p with
  | Some (File (Text s) _) => Ok s
  | Some (File Bytes _) => Err (EUnicode p)
  | _ => Err (EOS p)
  end.

(** The formatter may rewrite the file just written. *)
Definition _maybe_format_file (p : path) : M () := λ w,
  match node_at w p with
  | Some (File (Text s) _) =>
      match format p s with
      | Some d => put p d (match d with Text s => utf8_size s | Bytes => 0 end) w
      | None => (Ok (), w)
      end
  | _ => (Ok (), w)
  end.

(** ** The tracker *)

Definition scope_reads (w : world) (scope : string) : gmap path FileStamp := default ∅ (reads w !! scope).

(** [record_read] and [record_write] do the same: stamp the file as it is now. *)
Definition record_write (scope : string) (p : path) : M () := λ w,
  match stat w p with
  | Ok st => (Ok (), set_reads w (<[scope := <[p := st]> (scope_reads w scope)]> (reads w)))
  | Err e => (Err e, w)
  end.

Definition record_read : string → path → M () := record_write.

Definition remove_path (scope : string) (p : path) : M () := λ w,
  match reads w !! scope with
  | None => (Ok (), w)
  | Some m =>
      let m' := delete p m in
      (Ok (), set_reads w (if decide (m' = ∅) then delete scope (reads w) else <[scope := m']> (reads w)))
  end.

Definition move_path (scope : string) (p q : path) : M () :=
  remove_path scope p ;;! record_write scope q.

Definition assert_can_modify_existing (scope : string) (w : world) (p : path) : result ToolError () :=
  match scope_reads w scope !! p with
  | None => Err (EMustRead p)
  | Some stamp =>
      let? current := stat w p in
      if decide (current = stamp) then Ok () else Err (EModifiedSince p)
  end.

(** ** Staging *)

(** The paths a tool locks while it stages and writes. *)
Definition op_paths (op : _PatchOperation) : list path :=
  option_list (source_path op) ++ option_list (destination_path op).

Definition _operation_lock_paths (ops : list _PatchOperation) : list path := ops ≫= op_paths.

Definition conflict {A} (m : string) : result ToolError A := Err (EPatch (PatchConflictError m [])).

Definition load_path (w : world) (ov : overlay) (p : path) : result ToolError (_PatchOverlayEntry * overlay) :=
  match ov !! p with
  | Some entry => Ok (entry, ov)
  | None =>
      let? entry :=
        match node_at w p with
        | Some Dir => conflict "Not a file"
        | Some (File _ _) =>
            let? s := _read_text_file w p in Ok {| exists_ := true; ov_content := s; on_disk := true |}
        | None => Ok missing
        end in
      Ok (entry, <[p := entry]> ov)
  end.

(** A file that is on disk must be fresh before it is changed. *)
Definition check_fresh (scope : string) (w : world) (entry : _PatchOverlayEntry) (p : path) : result ToolError () :=
  if on_disk entry then assert_can_modify_existing scope w p else Ok ().

Definition stage_operation (scope : string) (w : world) (acc : list _StagedPatchOperation * overlay)
    (op : _PatchOperation) : result ToolError (list _StagedPatchOperation * overlay) :=
  let (staged, ov) := acc in
  match op_kind op with
  | KAdd =>
      match destination_path op with
      | None => Err EAssertion
      | Some q =>
          let? (destination, ov) := load_path w ov q in
          let? _ := if exists_ destination then check_fresh scope w destination q else Ok () in
          Ok (staged ++ [{| st_kind := KAdd; st_source := None; st_destination := Some q;
                            previous_content := if exists_ destination then ov_content destination else [];
                            st_content := Some (add_content op) |}],
              <[q := {| exists_ := true; ov_content := add_content op; on_disk := on_disk destination |}]> ov)
      end
  | kind =>
      match source_path op with
      | None => Err EAssertion
      | Some p =>
          let? (source, ov) := load_path w ov p in
          if negb (exists_ source) then conflict "File not found" else
          let? _ := check_fresh scope w source p in
          match kind with
          | KDelete =>
              Ok (staged ++ [{| st_kind := KDelete; st_source := Some p; st_destination := None;
                                previous_content := ov_content source; st_content := None |}],
                  <[p := missing]> ov)
          | _ =>
              match _apply_envelope_hunks (ov_content source) (hunks op) (_detect_newline (ov_content source)) with
              | Err e => Err (EPatch e)
              | Ok content =>
                  match kind with
                  | KMove =>
                      let q := default p (destination_path op) in
                      if decide (q = p) then conflict "Move destination must differ from source" else
                      let? (destination, ov) := load_path w ov q in
                      let? _ := if exists_ destination then check_fresh scope w destination q else Ok () in
                      Ok (staged ++ [{| st_kind := KMove; st_source := Some p; st_destination := Some q;
                                        previous_content := if exists_ destination then ov_content destination
                                                            else ov_content source;
                                        st_content := Some content |}],
                          <[q := {| exists_ := true; ov_content := content; on_disk := on_disk destination |}]>
                            (<[p := missing]> ov))
                  | _ =>
                      Ok (staged ++ [{| st_kind := KUpdate; st_source := Some p; st_destination := Some p;
                                        previous_content := ov_content source; st_content := Some content |}],
                          <[p := {| exists_ := true; ov_content := content; on_disk := on_disk source |}]> ov)
                  end
              end
          end
      end
  end.

Definition _stage_patch_operations (scope : string) (ops : list _PatchOperation) (w : world) :
    result ToolError (list _StagedPatchOperation) :=
  let? (staged, _) := result_fold (stage_operation scope w) ([], ∅) ops in Ok staged.

(** ** Writing what was staged *)

Inductive summary := Added (p : path) | Deleted (p : path) | Unchanged (p : path) | Updated (p : path)
| Moved (p q : path).

(** A diff to print: the file, its text before and after. *)
Definition file_diff : Type := path * ustr * ustr.

(** Writing a text, formatting the file, reading it back and recording the write. *)
Definition write_formatted (scope : string) (p : path) (content : ustr) : M ustr :=
  write_text p content ;;!
  _maybe_format_file p ;;!
  let! final := ask (λ w, _read_text_file w p) in
  record_write scope p ;;!
  ret final.

Definition apply_operation (scope : string) (op : _StagedPatchOperation) : M (summary * option path * option file_diff) :=
  match st_kind op, st_source op, st_destination op, st_content op with
  | KAdd, _, Some q, Some content =>
      make_parents q ;;!
      let! final := write_formatted scope q content in
      ret (Added q, Some q, Some (q, previous_content op, final))
  | KDelete, Some p, _, _ =>
      ask (λ w, assert_can_modify_existing scope w p) ;;!
      unlink p ;;!
      remove_path scope p ;;!
      ret (Deleted p, None, Some (p, previous_content op, []))
  | KUpdate, Some p, _, Some content =>
      if decide (content = previous_content op) then ret (Unchanged p, None, None) else
      ask (λ w, assert_can_modify_existing scope w p) ;;!
      let! final := write_formatted scope p content in
      ret (Updated p, Some p, Some (p, previous_content op, final))
  | KMove, Some p, Some q, Some content =>
      ask (λ w, assert_can_modify_existing scope w p) ;;!
      let! source_content := ask (λ w, _read_text_file w p) in
      let! final :=
        (if decide (source_content = content) then
           make_parents q ;;! replace p q ;;! move_path scope p q ;;! ret content
         else
           make_parents q ;;!
           let! final := write_formatted scope q content in
           unlink p ;;! remove_path scope p ;;! ret final) in
      ret (Moved p q, Some q, Some (q, previous_content op, final))
  | _, _, _, _ => raise EAssertion
  end.

Fixpoint _apply_staged_patch_operations (scope : string) (staged : list _StagedPatchOperation) :
    M (list (summary * option path * option file_diff)) :=
  match staged with
  | [] => ret []
  | op :: staged =>
      let! out := apply_operation scope op in
      let! outs := _apply_staged_patch_operations scope staged in
      ret (out :: outs)
  end.

(** The result of a tool: what was done, or the error reported.  [EAssertion] would escape
    the handler. *)
Inductive ToolResult :=
| Patched (outs : list (summary * option path * option file_diff))
| Failed (e : ToolError)
| EmptyPayload
| NoFilesPatched.

Section Handler.
Context (resolve : ustr → result PatchError path).

Definition parse_payload (patch_text : ustr) (operation : option native_operation) :
    option (result PatchError (list _PatchOperation)) :=
  if bool_decide (ustrip patch_text = []) then
    match operation with
    | Some (t, p, d) => _parse_native_apply_patch_operation resolve t p d
    | None => Some (Ok [])
    end
  else _parse_patch_operations resolve patch_text.

(** [None] would be a parser that does not return. *)
Definition handle_apply_patch (scope : string) (patch_text : ustr) (operation : option native_operation)
    (w : world) : option (ToolResult * world) :=
  if bool_decide (ustrip patch_text = []) && negb (bool_decide (is_Some operation))
  then Some (EmptyPayload, w) else
  match parse_payload patch_text operation with
  | None => None
  | Some (Err e) => Some (Failed (EPatch e), w)
  | Some (Ok ops) =>
      match bind (ask (_stage_patch_operations scope ops)) (_apply_staged_patch_operations scope) w with
      | (Err e, w) => Some (Failed e, w)
      | (Ok [], w) => Some (NoFilesPatched, w)
      | (Ok outs, w) => Some (Patched outs, w)
      end
  end.
End Handler.
End Tools.
