(* ===== verification/FilesSpec.v ===== *)
(** What the patch tool guarantees: files that were not read in their current version are
    never touched, and a patch that stages without error is applied completely. *)

From S2P Require Import Prelude Str Patch PatchSpec PatchParse Files.

(** ** Frames: which files a computation may change *)

(** Making directories adds those that were not there. *)
Lemma foldr_dirs (qs : list path) (m : gmap path node) (r : path) :
  foldr (λ q m, match m !! q with None => <[q := Dir]> m | _ => m end) m qs !! r =
  match m !! r with None => if bool_decide (r ∈ qs) then Some Dir else None | x => x end.
Proof.
  destruct (m !! r) as [x|] eqn:Hr; induction qs as [|q qs IH]; cbn [foldr]; [done| |done|];
    destruct (foldr _ m qs !! q) eqn:Hq.
  - done.
  - destruct (decide (r = q)) as [->|Hne]; [congruence|]. by rewrite lookup_insert_ne.
  - rewrite IH. destruct (decide (r = q)) as [->|Hne].
    + rewrite (bool_decide_eq_true_2 (q ∈ q :: qs)) by set_solver.
      rewrite Hq in IH. by destruct (bool_decide (q ∈ qs)).
    + by rewrite (bool_decide_ext (r ∈ q :: qs) (r ∈ qs)) by set_solver.
  - destruct (decide (r = q)) as [->|Hne].
    + by rewrite lookup_insert_eq, (bool_decide_eq_true_2 (q ∈ q :: qs)) by set_solver.
    + rewrite lookup_insert_ne by done.
      by rewrite (bool_decide_ext (r ∈ q :: qs) (r ∈ qs)) by set_solver.
Qed.

Section Frame.
Context (format : path → ustr → option file_data) (tick : Z → Z).

(** The file at a path, if there is one. *)
Definition file_at (w : world) (p : path) : option (file_data * FileStamp) :=
  match node_at w p with Some (File d st) => Some (d, st) | _ => None end.

Lemma file_at_some w p d st : file_at w p = Some (d, st) ↔ node_at w p = Some (File d st).
Proof. unfold file_at. destruct (node_at w p) as [[]|]; naive_solver. Qed.

Lemma file_at_fs w w' p : (p ≠ [] → fs w' !! p = fs w !! p) → file_at w' p = file_at w p.
Proof. unfold file_at. destruct p as [|c p]; [done|]. simpl. by intros ->. Qed.

(** Outside [X] files stay as they are, and none appears. *)
Definition keeps {A} (X : path → Prop) (m : M A) : Prop :=
  ∀ w r, ¬ X r → file_at (m w).2 r = file_at w r.

Lemma keeps_bind {A B} X (m : M A) (f : A → M B) : keeps X m → (∀ a, keeps X (f a)) → keeps X (bind m f).
Proof.
  intros Hm Hf w r Hr. unfold bind. specialize (Hm w r Hr).
  destruct (m w) as [[a|e] w']; [|done]. by rewrite Hf.
Qed.

Lemma keeps_ret {A} X (a : A) : keeps X (ret a).
Proof. by intros w r ?. Qed.
Lemma keeps_raise {A} X e : keeps X (raise (A:=A) e).
Proof. by intros w r ?. Qed.
Lemma keeps_ask {A} X (f : world → result ToolError A) : keeps X (ask f).
Proof. by intros w r ?. Qed.

Lemma keeps_put (X : path → Prop) p d sz : X p → keeps X (put tick p d sz).
Proof. intros Hp w r Hr. apply file_at_fs. intros _. simpl. rewrite lookup_insert_ne; [done|]. by intros ->. Qed.

Lemma keeps_write_text (X : path → Prop) p s : X p → keeps X (write_text tick p s).
Proof.
  intros Hp w r Hr. unfold write_text.
  repeat case_match; try done; by apply (keeps_put X p _ _ Hp w).
Qed.

Lemma keeps_format (X : path → Prop) p : X p → keeps X (_maybe_format_file format tick p).
Proof. intros Hp w r Hr. unfold _maybe_format_file. repeat case_match; try done; by apply (keeps_put X). Qed.

Lemma keeps_make_parents X p : keeps X (make_parents p).
Proof.
  intros w r Hr. unfold make_parents. case_match; [done|]. unfold file_at. destruct r as [|c r]; [done|].
  simpl. rewrite foldr_dirs. destruct (fs w !! _); [done|]. by case_bool_decide.
Qed.

Lemma keeps_unlink (X : path → Prop) p : X p → keeps X (unlink p).
Proof.
  intros Hp w r Hr. unfold unlink. repeat case_match; try done. apply file_at_fs. intros _. simpl.
  rewrite lookup_delete_ne; [done|]. by intros ->.
Qed.

Lemma keeps_replace (X : path → Prop) p q : X p → X q → keeps X (replace p q).
Proof.
  intros Hp Hq w r Hr. unfold replace.
  repeat case_match; try done; apply file_at_fs; intros _; simpl;
    (rewrite lookup_insert_ne by (by intros ->); rewrite lookup_delete_ne by (by intros ->); done).
Qed.

Lemma node_at_set_reads w r p : node_at (set_reads w r) p = node_at w p.
Proof. done. Qed.

Lemma keeps_record X scope p : keeps X (record_write scope p).
Proof. intros w r Hr. unfold record_write. by case_match. Qed.

Lemma keeps_remove X scope p : keeps X (remove_path scope p).
Proof. intros w r Hr. unfold remove_path. by case_match. Qed.

Lemma keeps_move_path X scope p q : keeps X (move_path scope p q).
Proof. apply keeps_bind; [apply keeps_remove|intros; apply keeps_record]. Qed.
End Frame.

Create HintDb frame.
#[export] Hint Resolve keeps_bind keeps_ret keeps_raise keeps_ask keeps_write_text keeps_format
  keeps_make_parents keeps_unlink keeps_replace keeps_record keeps_remove keeps_move_path : frame.

(** Split a computation into its steps and look each one up. *)
Ltac frame := repeat first [apply keeps_bind; [|intros] | case_match; simplify_eq | solve [eauto with frame]].

(** The files an operation names. *)
Definition footprint (op : _StagedPatchOperation) (r : path) : Prop :=
  st_source op = Some r ∨ st_destination op = Some r.

Lemma keeps_operation format tick scope op : keeps (footprint op) (apply_operation format tick scope op).
Proof.
  unfold apply_operation, write_formatted.
  assert (∀ p, st_source op = Some p → footprint op p) as Hs by (intros; by left).
  assert (∀ p, st_destination op = Some p → footprint op p) as Hd by (intros; by right).
  frame.
Qed.

Lemma keeps_staged format tick scope staged :
  keeps (λ r, Exists (λ op, footprint op r) staged) (_apply_staged_patch_operations format tick scope staged).
Proof.
  induction staged as [|op staged IH]; simpl; [apply keeps_ret|].
  apply keeps_bind; [|intros; apply keeps_bind; [|intros; apply keeps_ret]].
  - intros w r Hr. apply keeps_operation. intros Hop. apply Hr. by apply Exists_cons_hd.
  - intros w r Hr. apply IH. intros Hop. apply Hr. by apply Exists_cons_tl.
Qed.

(** ** Staging only admits fresh files *)

Section Guard.
Context (scope : string) (w : world).

(** The scope has read the file in its current version. *)
Definition fresh (p : path) : Prop :=
  ∀ d st, node_at w p = Some (File d st) → scope_reads w scope !! p = Some st.

Lemma assert_fresh p : assert_can_modify_existing scope w p = Ok () → fresh p.
Proof.
  unfold assert_can_modify_existing, fresh, stat. intros H d st Hn. rewrite Hn in H.
  destruct (scope_reads w scope !! p); [|done]. simpl in H. by case_decide; simplify_eq.
Qed.

(** What is not as it was on disk has been checked, or was not a file. *)
Definition guarded (ov : overlay) : Prop :=
  ∀ p e, ov !! p = Some e → fresh p ∨ (exists_ e = true ∧ on_disk e = true).

Lemma load_path_guarded ov p e ov' :
  guarded ov → load_path w ov p = Ok (e, ov') → guarded ov' ∧ ov' !! p = Some e.
Proof.
  unfold load_path. intros Hg. destruct (ov !! p) as [e'|] eqn:Hp; [by intros [= <- <-]|].
  intros (e' & He & [= <- <-])%result_bind_ok. split; [|apply lookup_insert_eq].
  intros q e. destruct (decide (p = q)) as [->|Hne]; [|rewrite lookup_insert_ne by done; apply Hg].
  rewrite lookup_insert_eq. intros [= <-]. destruct (node_at w q) as [[|d st]|] eqn:Hn; [done| |].
  - apply result_bind_ok in He as (s & _ & [= <-]). by right.
  - left. intros d st. congruence.
Qed.

(** The check before a file is changed, and what it gives. *)
Definition checked (e : _PatchOverlayEntry) (p : path) : Prop :=
  (if exists_ e then check_fresh scope w e p else Ok ()) = Ok ().

Lemma checked_fresh ov p e : guarded ov → ov !! p = Some e → checked e p → fresh p.
Proof.
  intros Hg Hp. unfold checked, check_fresh. destruct (Hg p e Hp) as [?|[-> ->]]; [done|]. apply assert_fresh.
Qed.

Lemma guarded_insert ov p e : guarded ov → fresh p → guarded (<[p := e]> ov).
Proof.
  intros Hg Hf q e'. destruct (decide (p = q)) as [->|Hne]; [by left|].
  rewrite lookup_insert_ne by done. apply Hg.
Qed.

(** The shape of a successful staging step: one more operation; its files are named, loaded
    and checked; only their entries change. *)
Lemma stage_operation_guarded staged ov op staged' ov' :
  guarded ov → stage_operation scope w (staged, ov) op = Ok (staged', ov') →
  guarded ov' ∧ ∃ s, staged' = staged ++ [s] ∧ ∀ r, footprint s r → r ∈ op_paths op ∧ fresh r.
Proof.
  intros Hg. unfold stage_operation.
  assert (∀ e p, negb (exists_ e) = false → check_fresh scope w e p = Ok () → checked e p) as Hcheck
    by (intros e p He Hc; unfold checked; by destruct (exists_ e)).
  assert (∀ r, source_path op = Some r ∨ destination_path op = Some r → r ∈ op_paths op) as Hnamed
    by (intros r [Hr|Hr]; unfold op_paths; rewrite Hr; set_solver).
  destruct (op_kind op).
  { destruct (destination_path op) as [q|]; [|done].
    intros ([e ov1] & Hl & ([] & Hc & [= <- <-])%result_bind_ok)%result_bind_ok.
    destruct (load_path_guarded _ _ _ _ Hg Hl) as [Hg1 Hq].
    pose proof (checked_fresh _ _ _ Hg1 Hq Hc) as Hf. split; [by apply guarded_insert|].
    eexists. split; [done|]. intros r [?|[= <-]]; [done|]. split; [apply Hnamed; by right|done]. }
  all: destruct (source_path op) as [p|]; [|done];
    intros ([e ov1] & Hl & Hrest)%result_bind_ok;
    destruct (negb (exists_ e)) eqn:Hex; [done|];
    apply result_bind_ok in Hrest as ([] & Hc & Hrest);
    destruct (load_path_guarded _ _ _ _ Hg Hl) as [Hg1 Hp];
    pose proof (checked_fresh _ _ _ Hg1 Hp (Hcheck _ _ Hex Hc)) as Hf;
    assert (p ∈ op_paths op ∧ fresh p) as Hpf by (split; [apply Hnamed; by left|done]).
  - injection Hrest as <- <-. split; [by apply guarded_insert|].
    eexists. split; [done|]. by intros r [[= <-]|?].
  - destruct (_apply_envelope_hunks _ _ _); [|done]. injection Hrest as <- <-.
    split; [by apply guarded_insert|]. eexists. split; [done|]. by intros r [[= <-]|[= <-]].
  - destruct (_apply_envelope_hunks _ _ _); [|done]. destruct (decide _) as [|Hne]; [done|].
    apply result_bind_ok in Hrest as ([e2 ov2] & Hl2 & ([] & Hc2 & [= <- <-])%result_bind_ok).
    destruct (load_path_guarded _ _ _ _ Hg1 Hl2) as [Hg2 Hq].
    pose proof (checked_fresh _ _ _ Hg2 Hq Hc2) as Hf2.
    split; [by repeat apply guarded_insert|]. eexists. split; [done|].
    intros r [[= <-]|[= <-]]; [done|]. split; [|done]. apply Hnamed. right. by destruct (destination_path op).
Qed.

Lemma stage_fresh ops staged :
  _stage_patch_operations scope ops w = Ok staged →
  ∀ r, Exists (λ s, footprint s r) staged → r ∈ _operation_lock_paths ops ∧ fresh r.
Proof.
  unfold _stage_patch_operations. intros ([staged' ov] & Hfold & [= ->])%result_bind_ok.
  enough (∀ (T : list path) ops st0 ov0, guarded ov0 → (∀ r, Exists (λ s, footprint s r) st0 → r ∈ T ∧ fresh r) →
    (∀ r, r ∈ _operation_lock_paths ops → r ∈ T) →
    result_fold (stage_operation scope w) (st0, ov0) ops = Ok (staged, ov) →
    ∀ r, Exists (λ s, footprint s r) staged → r ∈ T ∧ fresh r) as Hall.
  { eapply Hall; [|by intros r ?%Exists_nil|done|exact Hfold]. intros p e. by rewrite lookup_empty. }
  clear. intros T ops. induction ops as [|op ops IH]; intros st0 ov0 Hg Hst0 HT; cbn [result_fold]; [by intros [= <- _]|].
  assert (∀ r, r ∈ op_paths op ∨ r ∈ _operation_lock_paths ops → r ∈ T) as HT'
    by (intros r Hr; by apply HT, elem_of_app).
  intros ([st1 ov1] & Hstep & Hfold)%result_bind_ok.
  destruct (stage_operation_guarded _ _ _ _ _ Hg Hstep) as (Hg1 & s & -> & Hs).
  eapply IH; [done| |by auto|exact Hfold]. intros r [?|Hr]%Exists_app; [by apply Hst0|].
  apply Exists_cons in Hr as [[??]%Hs|[]%Exists_nil]. by auto.
Qed.
End Guard.

(** C27. Whatever payload the patch tool is given and however it ends, a path where it
    changes, removes or creates a file is one of those it has locked, and a file that was
    there had been read before by its scope, in exactly the version found on disk when
    the tool started. *)
Theorem unread_files_untouched format tick resolve scope patch_text operation w result w' :
  handle_apply_patch format tick resolve scope patch_text operation w = Some (result, w') →
  ∀ p, file_at w' p ≠ file_at w p →
    (∃ ops, parse_payload resolve patch_text operation = Some (Ok ops) ∧ p ∈ _operation_lock_paths ops) ∧
    ∀ d st, node_at w p = Some (File d st) → scope_reads w scope !! p = Some st.
Proof.
  intros Hh p Hn. revert Hh. unfold handle_apply_patch.
  case_match; [by intros [= <- <-]|]. destruct (parse_payload _ _ _) as [[ops|]|]; [|by intros [= <- <-]|done].
  unfold bind, ask. destruct (_stage_patch_operations scope ops w) as [staged|] eqn:Hst; [|by intros [= <- <-]].
  intros Hh. assert ((_apply_staged_patch_operations format tick scope staged w).2 = w') as Hw'.
  { by destruct (_apply_staged_patch_operations _ _ _ _ _) as [[[]|] ?]; injection Hh as <- <-. }
  destruct (decide (Exists (λ s, footprint s p) staged)) as [Hex|Hex].
  - destruct (stage_fresh scope w ops staged Hst p Hex) as [? Hf]. split; [eauto|exact Hf].
  - by rewrite <- Hw', (keeps_staged format tick scope staged w p Hex) in Hn.
Qed.

(** *** Checking the guard on a concrete world *)

Lemma unread_files_untouched_witness :
  let st := {| mtime_ns := 1; size := 2 |} in
  let p := [u "a"] in
  let w := {| fs := {[ p := File (Text (u "x" ++ [LF])) st ]};
              reads := {[ "s" := {[ p := st ]} ]}; clock := 5 |} in
  let resolve := λ s, Ok [s] in
  let patch := concat ((λ s, u s ++ [LF]) <$> ["*** Begin Patch"; "*** Delete File: a"; "*** End Patch"]) in
  ∃ result w', handle_apply_patch (λ _ _, None) Z.succ resolve "s" patch None w = Some (result, w') ∧
    node_at w' p = None ∧
    (∃ ops, parse_payload resolve patch None = Some (Ok ops) ∧ p ∈ _operation_lock_paths ops) ∧
    ∀ d st, node_at w p = Some (File d st) → scope_reads w "s" !! p = Some st.
Proof.
  intros st p w resolve patch. eexists _, _. split; [vm_compute; reflexivity|]. split; [by vm_compute|].
  eapply (unread_files_untouched (λ _ _, None) Z.succ resolve "s" patch None w); [vm_compute; reflexivity|by vm_compute].
Defined.
