(* ===== verification/FilesCommit.v ===== *)
(** A staged patch is applied completely.

    Where no formatter rewrites files, a patch whose operations stage without error is
    written without error, and the texts on disk are then what performing the operations
    one after the other gives ([patch_reference]). *)

From S2P Require Import Prelude Str Patch PatchSpec PatchParse Files FilesSpec.
Local Open Scope tool_scope.

(** ** The reference: operations on texts *)

Definition text_of (n : node) : option ustr := match n with File (Text s) _ => Some s | _ => None end.
Definition texts (w : world) : gmap path ustr := omap text_of (fs w).

Definition patched_text (op : _PatchOperation) (s : ustr) : option ustr :=
  result_option (_apply_envelope_hunks s (hunks op) (_detect_newline s)).

Definition reference_operation (v : gmap path ustr) (op : _PatchOperation) : option (gmap path ustr) :=
  match op_kind op with
  | KAdd => q ← destination_path op; Some (<[q := add_content op]> v)
  | KDelete => p ← source_path op; _ ← v !! p; Some (delete p v)
  | KUpdate => p ← source_path op; s ← v !! p; s' ← patched_text op s; Some (<[p := s']> v)
  | KMove =>
      p ← source_path op; s ← v !! p; s' ← patched_text op s;
      let q := default p (destination_path op) in
      if decide (q = p) then None else Some (<[q := s']> (delete p v))
  end.

Fixpoint patch_reference (ops : list _PatchOperation) (v : gmap path ustr) : option (gmap path ustr) :=
  match ops with
  | [] => Some v
  | op :: ops => v ← reference_operation v op; patch_reference ops v
  end.

(** ** Well-formed trees *)

(** What is in the tree has a directory as its parent; the root has no entry. *)
Definition tree_ok (w : world) : Prop :=
  fs w !! [] = None ∧ ∀ p, p ≠ [] → is_Some (node_at w p) → node_at w (removelast p) = Some Dir.

(** No path of the patch lies below a file or below another path of the patch. *)
Definition paths_apart (w : world) (T : list path) : Prop :=
  ∀ q a, q ∈ T → a ∈ ancestors q → a ∉ T ∧ ∀ d st, node_at w a ≠ Some (File d st).

(** What can be stored and read back as text. *)
Definition storable (s : ustr) : Prop := encodable s = true ∧ 0%N ∉ s.

Definition no_format : path → ustr → option file_data := λ _ _, None.

Lemma node_at_ne w p : p ≠ [] → node_at w p = fs w !! p.
Proof. by destruct p. Qed.

Lemma removelast_take (p : path) : removelast p = take (length p - 1) p.
Proof.
  destruct p as [|c p] using rev_ind; [done|]. rewrite removelast_last, length_app. simpl.
  by rewrite Nat.add_sub, take_app_length.
Qed.

Lemma removelast_ne (p : path) : p ≠ [] → removelast p ≠ p.
Proof.
  intros Hp Heq. apply (f_equal length) in Heq. rewrite removelast_take, length_take in Heq.
  destruct p; [done|]. simpl in Heq. lia.
Qed.

Lemma parent_ancestor (p : path) : p ≠ [] → removelast p = [] ∨ removelast p ∈ ancestors p.
Proof.
  intros Hp. rewrite removelast_take. destruct (decide (length p ≤ 1)%nat).
  - left. destruct p as [|c [|d p]]; [done|done|simpl in *; lia].
  - right. unfold ancestors. apply list_elem_of_fmap. exists (length p - 1)%nat. split; [done|].
    apply elem_of_seq. lia.
Qed.

Lemma ancestor_parent (p a : path) :
  a ∈ ancestors p → a ≠ [] ∧ (removelast a = [] ∨ removelast a ∈ ancestors p).
Proof.
  unfold ancestors. intros (i & -> & Hi%elem_of_seq)%list_elem_of_fmap.
  assert (length (take i p) = i) as Hl by (rewrite length_take; lia). split.
  - intros Hn. rewrite Hn in Hl. simpl in Hl. lia.
  - rewrite removelast_take, Hl, take_take, Nat.min_l by lia. destruct (decide (i = 1)%nat) as [->|]; [by left|].
    right. apply list_elem_of_fmap. exists (i - 1)%nat. split; [done|]. apply elem_of_seq. lia.
Qed.

Lemma ancestor_self (p : path) : p ∉ ancestors p.
Proof.
  unfold ancestors. intros (i & Hp & Hi%elem_of_seq)%list_elem_of_fmap.
  apply (f_equal length) in Hp. rewrite length_take in Hp. lia.
Qed.

(** Nodes of a world that differ from another's at one path only. *)
Definition node_update (w : world) (p : path) (n : option node) (w' : world) : Prop :=
  fs w' = partial_alter (λ _, n) p (fs w).

Lemma node_update_at w p n w' r :
  p ≠ [] → node_update w p n w' → node_at w' r = if decide (r = p) then n else node_at w r.
Proof.
  intros Hp Hu. unfold node_update in Hu. case_decide as Hr.
  - subst r. by rewrite node_at_ne, Hu, lookup_partial_alter_eq.
  - destruct r as [|c r]; [done|]. simpl. by rewrite Hu, lookup_partial_alter_ne.
Qed.

(** Writing a file below a directory, and removing a file, keep the tree well-formed. *)
Lemma tree_ok_update w p n w' :
  tree_ok w → p ≠ [] → node_at w p ≠ Some Dir → node_update w p n w' →
  (is_Some n → node_at w (removelast p) = Some Dir) → tree_ok w'.
Proof.
  intros [Hroot Ht] Hp Hdir Hu Hn. split.
  { unfold node_update in Hu. rewrite Hu, lookup_partial_alter_ne; done. }
  intros r Hr. rewrite !(node_update_at w p n w') by done. intros Hs.
  case_decide as Hrp.
  - subst r. rewrite decide_False by (by apply removelast_ne). by apply Hn.
  - pose proof (Ht r Hr Hs) as Hpar. case_decide as Hpp; [|done]. by rewrite Hpp in Hpar.
Qed.

Lemma texts_update w p s st w' :
  node_update w p (Some (File (Text s) st)) w' → texts w' = <[p := s]> (texts w).
Proof.
  unfold node_update, texts. intros ->. apply map_eq. intros r. rewrite lookup_omap.
  destruct (decide (r = p)) as [->|Hne].
  - by rewrite lookup_partial_alter_eq, lookup_insert_eq.
  - by rewrite lookup_partial_alter_ne, lookup_insert_ne, lookup_omap.
Qed.

Lemma texts_delete w p w' : node_update w p None w' → texts w' = delete p (texts w).
Proof.
  unfold node_update, texts. intros ->. apply map_eq. intros r. rewrite lookup_omap.
  destruct (decide (r = p)) as [->|Hne].
  - by rewrite lookup_partial_alter_eq, lookup_delete_eq.
  - by rewrite lookup_partial_alter_ne, lookup_delete_ne, lookup_omap.
Qed.

Lemma texts_lookup w p s st : p ≠ [] → node_at w p = Some (File (Text s) st) → texts w !! p = Some s.
Proof. intros Hp Hn. rewrite node_at_ne in Hn by done. unfold texts. by rewrite lookup_omap, Hn. Qed.

(** ** What each step does *)

Section Commit.
Context (tick : Z → Z) (scope : string).

Definition reads_update (w : world) (p : path) (m : option FileStamp) (w' : world) : Prop :=
  ∀ r, scope_reads w' scope !! r = if decide (r = p) then m else scope_reads w scope !! r.

Lemma scope_reads_insert w m r : scope_reads (set_reads w (<[scope := m]> (reads w))) scope !! r = m !! r.
Proof. unfold scope_reads. simpl. by rewrite lookup_insert_eq. Qed.

Lemma record_write_ok w p d st :
  node_at w p = Some (File d st) →
  ∃ w', record_write scope p w = (Ok (), w') ∧ fs w' = fs w ∧ reads_update w p (Some st) w'.
Proof.
  intros Hn. unfold record_write, stat. rewrite Hn. eexists. split_and!; [done|done|].
  intros r. rewrite scope_reads_insert. case_decide as Hr; [by subst; rewrite lookup_insert_eq|].
  by rewrite lookup_insert_ne.
Qed.

Lemma remove_path_ok w p :
  ∃ w', remove_path scope p w = (Ok (), w') ∧ fs w' = fs w ∧ reads_update w p None w'.
Proof.
  unfold remove_path. destruct (reads w !! scope) as [m|] eqn:Hm.
  - eexists. split_and!; [done|done|]. intros r. unfold scope_reads at 2. rewrite Hm. simpl.
    destruct (decide (delete p m = ∅)) as [He|He].
    + unfold scope_reads. simpl. rewrite lookup_delete_eq. simpl.
      case_decide as Hr; [by rewrite lookup_empty|]. rewrite <- (lookup_delete_ne m p r), He by done. done.
    + rewrite scope_reads_insert. case_decide as Hr; [by subst; rewrite lookup_delete_eq|].
      by rewrite lookup_delete_ne.
  - eexists. split_and!; [done|done|]. intros r. unfold scope_reads. rewrite Hm. simpl.
    case_decide; by rewrite ?lookup_empty.
Qed.

(** A text is written, read back unchanged and recorded. *)
Lemma write_formatted_ok w p s :
  p ≠ [] → node_at w p ≠ Some Dir → node_at w (removelast p) = Some Dir → storable s →
  ∃ w' st, write_formatted no_format tick scope p s w = (Ok s, w') ∧
    node_update w p (Some (File (Text s) st)) w' ∧ reads_update w p (Some st) w'.
Proof.
  intros Hp Hdir Hpar [Henc Hnul]. unfold write_formatted, bind, write_text, put. rewrite Hpar, Henc.
  set (st := {| mtime_ns := clock w; size := utf8_size s |}).
  set (w1 := {| fs := <[p := File (Text s) st]> (fs w); reads := reads w; clock := tick (clock w) |}).
  assert (node_at w1 p = Some (File (Text s) st)) as Hn1.
  { rewrite node_at_ne by done. simpl. by rewrite lookup_insert_eq. }
  destruct (record_write_ok w1 p _ _ Hn1) as (w2 & Hrec & Hfs & Hreads).
  assert (match node_at w p with Some Dir => (Err (EOS p), w) | _ => (Ok (), w1) end = (Ok (), w1)) as ->
    by (by destruct (node_at w p) as [[]|]).
  unfold _maybe_format_file, no_format. rewrite Hn1. unfold ask, _read_text_file. rewrite Hn1.
  rewrite bool_decide_eq_false_2 by done. rewrite Hrec. exists w2, st. split_and!; [done| |exact Hreads].
  unfold node_update. rewrite Hfs. simpl. unfold insert, map_insert. done.
Qed.

(** The parents of a path exist afterwards, and nothing else is new. *)
Definition with_parents (q : path) (w w' : world) : Prop :=
  reads w' = reads w ∧
  ∀ r, fs w' !! r = match fs w !! r with
                    | None => if bool_decide (r ∈ ancestors q) then Some Dir else None
                    | x => x
                    end.

Lemma make_parents_ok w q :
  (∀ a, a ∈ ancestors q → ∀ d st, node_at w a ≠ Some (File d st)) →
  ∃ w', make_parents q w = (Ok (), w') ∧ with_parents q w w'.
Proof.
  intros Hanc. unfold make_parents. rewrite existsb_false_forall.
  - eexists. split; [done|]. split; [done|]. intros r. simpl. apply foldr_dirs.
  - apply Forall_forall. intros a Ha. specialize (Hanc a Ha). destruct (node_at w a) as [[|d st]|]; [done| |done].
    by destruct (Hanc d st).
Qed.

Lemma with_parents_node q w w' r :
  with_parents q w w' → (r ∉ ancestors q ∨ is_Some (node_at w r)) → node_at w' r = node_at w r.
Proof.
  intros [_ Hfs] Hr. destruct r as [|c r]; [done|]. simpl in *. rewrite Hfs.
  destruct (fs w !! (c :: r)); [done|]. destruct Hr as [Hr|[? ?]]; [|done]. by rewrite bool_decide_eq_false_2.
Qed.

Lemma with_parents_texts q w w' : with_parents q w w' → texts w' = texts w.
Proof.
  intros [_ Hfs]. apply map_eq. intros r. unfold texts. rewrite !lookup_omap, Hfs.
  destruct (fs w !! r); [done|]. by case_bool_decide.
Qed.

Lemma with_parents_reads q w w' : with_parents q w w' → scope_reads w' scope = scope_reads w scope.
Proof. intros [Hr _]. unfold scope_reads. by rewrite Hr. Qed.

(** Ancestors that are not files are directories afterwards. *)
Lemma with_parents_dir q w w' a :
  (∀ a, a ∈ ancestors q → ∀ d st, node_at w a ≠ Some (File d st)) → with_parents q w w' →
  a = [] ∨ a ∈ ancestors q → node_at w' a = Some Dir.
Proof.
  intros Hanc [_ Hfs] [->|Ha]; [done|]. pose proof (Hanc a Ha) as Hn. destruct a as [|c a]; [done|].
  simpl in *. rewrite Hfs. destruct (fs w !! (c :: a)) as [[|d st]|]; [done|by destruct (Hn d st)|].
  by rewrite bool_decide_eq_true_2.
Qed.

Lemma with_parents_tree q w w' :
  tree_ok w → (∀ a, a ∈ ancestors q → ∀ d st, node_at w a ≠ Some (File d st)) → with_parents q w w' → tree_ok w'.
Proof.
  intros [Hroot Ht] Hanc Hw. pose proof Hw as [_ Hfs]. split.
  { rewrite Hfs, Hroot, bool_decide_eq_false_2; [done|]. intros Ha. by apply ancestor_parent in Ha as [? _]. }
  intros r Hr [n Hn]. destruct (node_at w r) as [n0|] eqn:Hn0.
  - rewrite (with_parents_node q w w') by (done || by right; rewrite (Ht r Hr ltac:(eauto))). by apply Ht; eauto.
  - destruct (decide (r ∈ ancestors q)) as [Ha|Ha].
    + apply (with_parents_dir q w w'); [done|done|]. by apply ancestor_parent in Ha as [_ ?].
    + rewrite (with_parents_node q w w') in Hn by auto. congruence.
Qed.

(** ** The overlay describes the world *)

Context (w0 : world) (T : list path) (Hapart : paths_apart w0 T).

(** An entry: the text on disk, fresh or as it was at the start, or nothing on disk. *)
Definition entry_ok (w : world) (p : path) (e : _PatchOverlayEntry) : Prop :=
  if exists_ e then
    ∃ st, node_at w p = Some (File (Text (ov_content e)) st) ∧ 0%N ∉ ov_content e ∧
      (scope_reads w scope !! p = Some st ∨
       on_disk e = true ∧ node_at w0 p = node_at w p ∧ scope_reads w scope !! p = scope_reads w0 scope !! p)
  else node_at w p = None.

Record commit_inv (ov : overlay) (w : world) : Prop := {
  ci_paths p : is_Some (ov !! p) → p ∈ T ∧ p ≠ [];
  ci_entry p e : ov !! p = Some e → entry_ok w p e;
  ci_reads p : ov !! p = None → scope_reads w scope !! p = scope_reads w0 scope !! p;
  ci_nodes p : ov !! p = None → p ∈ T → node_at w p = node_at w0 p;
  ci_rest p : p ∉ T → node_at w p = node_at w0 p ∨ node_at w p = Some Dir;
  ci_tree : tree_ok w;
}.

Lemma inv_update ov w p e n m w1 :
  commit_inv ov w → p ∈ T → p ≠ [] → node_update w p n w1 → reads_update w p m w1 → tree_ok w1 →
  entry_ok w1 p e → commit_inv (<[p := e]> ov) w1.
Proof.
  intros Hinv HpT Hp Hn Hm Ht He.
  assert (∀ r, r ≠ p → node_at w1 r = node_at w r ∧ scope_reads w1 scope !! r = scope_reads w scope !! r) as Hsame.
  { intros r Hr. rewrite (node_update_at w p n w1), Hm by done. by rewrite !decide_False. }
  split.
  - intros r. destruct (decide (r = p)) as [->|]; [done|]. rewrite lookup_insert_ne by done. apply Hinv.
  - intros r e'. destruct (decide (r = p)) as [->|Hr]; [rewrite lookup_insert_eq; by intros [= <-]|].
    rewrite lookup_insert_ne by done. intros Her%Hinv. unfold entry_ok in *.
    by destruct (Hsame r Hr) as [-> ->].
  - intros r. destruct (decide (r = p)) as [->|Hr]; [by rewrite lookup_insert_eq|].
    rewrite lookup_insert_ne by done. destruct (Hsame r Hr) as [_ ->]. apply Hinv.
  - intros r. destruct (decide (r = p)) as [->|Hr]; [by rewrite lookup_insert_eq|].
    rewrite lookup_insert_ne by done. destruct (Hsame r Hr) as [-> _]. apply Hinv.
  - intros r Hr. destruct (Hsame r) as [-> _]; [by intros ->|]. by apply Hinv.
  - done.
Qed.

Lemma inv_no_file ov w q a d st :
  commit_inv ov w → q ∈ T → a ∈ ancestors q → node_at w a ≠ Some (File d st).
Proof.
  intros Hinv Hq Ha Hn. destruct (Hapart q a Hq Ha) as [HaT Hf].
  destruct (ci_rest _ _ Hinv a HaT) as [Hw|Hw]; [|congruence]. rewrite Hw in Hn. by destruct (Hf d st).
Qed.

Lemma inv_parents ov w q w1 :
  commit_inv ov w → q ∈ T → with_parents q w w1 → commit_inv ov w1.
Proof.
  intros Hinv Hq Hw.
  assert (∀ r, r ∈ T → node_at w1 r = node_at w r) as Hsame.
  { intros r Hr. apply (with_parents_node q); [done|]. left. intros Ha. by destruct (Hapart q r Hq Ha). }
  pose proof (with_parents_reads q w w1 Hw) as Hreads. split.
  - apply Hinv.
  - intros p e Hp. destruct (ci_paths _ _ Hinv p) as [HpT _]; [by rewrite Hp|].
    apply Hinv in Hp. unfold entry_ok in *. by rewrite Hsame, Hreads.
  - intros p Hp. rewrite Hreads. by apply Hinv.
  - intros p Hp HpT. rewrite Hsame by done. by apply Hinv.
  - intros p HpT. destruct (decide (p ∈ ancestors q)) as [Ha|Ha].
    + right. apply (with_parents_dir q w); [intros; by eapply inv_no_file|done|by right].
    + rewrite (with_parents_node q w) by auto. by apply Hinv.
  - eapply with_parents_tree; [apply Hinv|intros; by eapply inv_no_file|done].
Qed.

(** Loading a path of the patch describes it as it is. *)
Lemma inv_load ov w p e ov' :
  commit_inv ov w → p ∈ T → load_path w0 ov p = Ok (e, ov') → commit_inv ov' w ∧ ov' !! p = Some e.
Proof.
  intros Hinv Hp. unfold load_path. destruct (ov !! p) as [e'|] eqn:Hov; [by intros [= <- <-]|].
  intros (e' & He & [= <- <-])%result_bind_ok. split; [|apply lookup_insert_eq].
  assert (p ≠ []) as Hne by (by intros ->). pose proof (ci_nodes _ _ Hinv p Hov Hp) as Hn.
  split; try apply Hinv.
  - intros r. destruct (decide (r = p)) as [->|]; [done|]. rewrite lookup_insert_ne by done. apply Hinv.
  - intros r e2. destruct (decide (r = p)) as [->|Hr]; [|rewrite lookup_insert_ne by done; apply Hinv].
    rewrite lookup_insert_eq. intros [= <-]. unfold entry_ok. rewrite Hn.
    destruct (node_at w0 p) as [[|d st]|] eqn:Hn0; [done| |by injection He as <-].
    apply result_bind_ok in He as (s & Hs & [= <-]). unfold _read_text_file in Hs. rewrite Hn0 in Hs.
    destruct d; [|done]. case_bool_decide; [done|]. injection Hs as ->. simpl. exists st.
    split_and!; [done|done|]. right. split_and!; [done|done|]. by apply Hinv.
  - intros r. destruct (decide (r = p)) as [->|]; [by rewrite lookup_insert_eq|].
    rewrite lookup_insert_ne by done. apply Hinv.
  - intros r. destruct (decide (r = p)) as [->|]; [by rewrite lookup_insert_eq|].
    rewrite lookup_insert_ne by done. apply Hinv.
Qed.

Lemma inv_assert ov w p e :
  commit_inv ov w → ov !! p = Some e → exists_ e = true → check_fresh scope w0 e p = Ok () →
  assert_can_modify_existing scope w p = Ok ().
Proof.
  intros Hinv Hp Hex Hc. pose proof (ci_entry _ _ Hinv p e Hp) as He. unfold entry_ok in He. rewrite Hex in He.
  destruct He as (st & Hn & _ & [Hr|(Hd & Hn0 & Hr)]); unfold assert_can_modify_existing, stat.
  - rewrite Hr, Hn. simpl. by rewrite decide_True.
  - unfold check_fresh in Hc. rewrite Hd in Hc. unfold assert_can_modify_existing, stat in Hc.
    rewrite Hr. by rewrite <- Hn0.
Qed.

Lemma inv_text ov w p e :
  commit_inv ov w → ov !! p = Some e → exists_ e = true →
  p ∈ T ∧ p ≠ [] ∧ texts w !! p = Some (ov_content e) ∧ _read_text_file w p = Ok (ov_content e) ∧
  node_at w (removelast p) = Some Dir ∧ ∃ st, node_at w p = Some (File (Text (ov_content e)) st).
Proof.
  intros Hinv Hp Hex. destruct (ci_paths _ _ Hinv p) as [HpT Hne]; [by rewrite Hp|].
  pose proof (ci_entry _ _ Hinv p e Hp) as He. unfold entry_ok in He. rewrite Hex in He.
  destruct He as (st & Hn & Hnul & _). split_and!; [done|done|by eapply texts_lookup| | |by eauto].
  - unfold _read_text_file. rewrite Hn. by rewrite bool_decide_eq_false_2.
  - apply (ci_tree _ _ Hinv); [done|by rewrite Hn].
Qed.

Lemma inv_not_dir ov w p e : commit_inv ov w → ov !! p = Some e → node_at w p ≠ Some Dir.
Proof.
  intros Hinv Hp. pose proof (ci_entry _ _ Hinv p e Hp) as He. unfold entry_ok in He.
  destruct (exists_ e); [destruct He as (st & -> & _)|rewrite He]; done.
Qed.

(** ** Writing keeps the description true *)

Lemma commit_write ov w q e s od :
  commit_inv ov w → ov !! q = Some e → node_at w (removelast q) = Some Dir → storable s →
  ∃ w1, write_formatted no_format tick scope q s w = (Ok s, w1) ∧
    commit_inv (<[q := {| exists_ := true; ov_content := s; on_disk := od |}]> ov) w1 ∧
    texts w1 = <[q := s]> (texts w).
Proof.
  intros Hinv Hq Hpar Hs. destruct (ci_paths _ _ Hinv q) as [HqT Hne]; [by rewrite Hq|].
  pose proof (inv_not_dir _ _ _ _ Hinv Hq) as Hdir.
  destruct (write_formatted_ok w q s Hne Hdir Hpar Hs) as (w1 & st & Hw & Hn & Hr).
  exists w1. split_and!; [done| |by eapply texts_update].
  eapply inv_update; try done; [eapply tree_ok_update; try done; apply Hinv|].
  unfold entry_ok. simpl. exists st. split_and!; [|apply Hs|left].
  - rewrite (node_update_at w q _ w1) by done. by rewrite decide_True.
  - rewrite Hr. by rewrite decide_True.
Qed.

(** Removing a file from disk and from the tracker. *)
Lemma commit_remove ov w p e :
  commit_inv ov w → ov !! p = Some e → exists_ e = true →
  ∃ w1, bind (unlink p) (λ _, remove_path scope p) w = (Ok (), w1) ∧
    commit_inv (<[p := missing]> ov) w1 ∧ texts w1 = delete p (texts w).
Proof.
  intros Hinv Hp Hex. destruct (inv_text _ _ _ _ Hinv Hp Hex) as (HpT & Hne & _ & _ & _ & st & Hn).
  unfold bind, unlink. rewrite Hn.
  destruct (remove_path_ok (set_fs w (delete p (fs w))) p) as (w1 & Hrem & Hfs & Hr). rewrite Hrem.
  assert (node_update w p None w1) as Hu by done.
  exists w1. split_and!; [done| |by eapply texts_delete].
  eapply (inv_update _ _ _ _ _ None); try done.
  - eapply tree_ok_update; try done; [apply Hinv|by eapply inv_not_dir].
  - unfold entry_ok. simpl. rewrite (node_update_at w p _ w1) by done. by rewrite decide_True.
Qed.

Lemma inv_make_parents ov w q :
  commit_inv ov w → q ∈ T → q ≠ [] →
  ∃ w1, make_parents q w = (Ok (), w1) ∧ commit_inv ov w1 ∧ texts w1 = texts w ∧
    node_at w1 (removelast q) = Some Dir ∧
    (∀ p d st, node_at w p = Some (File d st) → node_at w1 p = Some (File d st)).
Proof.
  intros Hinv Hq Hne.
  assert (∀ a, a ∈ ancestors q → ∀ d st, node_at w a ≠ Some (File d st)) as Hanc by (intros; by eapply inv_no_file).
  destruct (make_parents_ok w q Hanc) as (w1 & Hm & Hw). exists w1. split_and!; [done| | | |].
  - by eapply inv_parents.
  - by eapply with_parents_texts.
  - apply (with_parents_dir q w); [done|done|]. by apply parent_ancestor.
  - intros p d st Hn. rewrite (with_parents_node q w) by (done || right; by rewrite Hn). done.
Qed.

(** Two updates in a row: the source goes, the destination gets its node. *)
Lemma rename_inv ov w wa w3 p q ep eq od st :
  commit_inv ov w → ov !! p = Some ep → exists_ ep = true → ov !! q = Some eq → q ≠ p →
  node_at w (removelast q) = Some Dir →
  node_at w p = Some (File (Text (ov_content ep)) st) →
  node_update w p None wa → reads_update w p None wa →
  node_update wa q (Some (File (Text (ov_content ep)) st)) w3 → reads_update wa q (Some st) w3 →
  commit_inv (<[q := {| exists_ := true; ov_content := ov_content ep; on_disk := od |}]> (<[p := missing]> ov)) w3 ∧
  texts w3 = <[q := ov_content ep]> (delete p (texts w)).
Proof.
  intros Hinv Hp Hex Hq Hqp Hpar Hn Hua Hra Hub Hrb.
  destruct (ci_paths _ _ Hinv p) as [HpT Hne]; [by rewrite Hp|].
  destruct (ci_paths _ _ Hinv q) as [HqT Hqne]; [by rewrite Hq|].
  pose proof (ci_entry _ _ Hinv p ep Hp) as He. unfold entry_ok in He. rewrite Hex in He.
  destruct He as (_ & _ & Hnul & _).
  assert (commit_inv (<[p := missing]> ov) wa) as Hinva.
  { eapply inv_update; try done.
    - apply (tree_ok_update w p None wa); [apply Hinv|done|by eapply inv_not_dir|done|by intros [? ?]].
    - unfold entry_ok. simpl. rewrite (node_update_at w p _ wa) by done. by rewrite decide_True. }
  split; [|by rewrite (texts_update wa q _ _ w3 Hub), (texts_delete w p wa Hua)].
  eapply inv_update; try done.
  - eapply tree_ok_update; [apply Hinva|done| |done|].
    + eapply inv_not_dir; [done|]. by rewrite lookup_insert_ne.
    + intros _. rewrite (node_update_at w p _ wa) by done. rewrite decide_False; [done|].
      intros Heq. rewrite Heq, Hn in Hpar. done.
  - unfold entry_ok. simpl. exists st. split_and!; [|done|left].
    + rewrite (node_update_at wa q _ w3) by done. by rewrite decide_True.
    + rewrite Hrb. by rewrite decide_True.
Qed.

(** Moving a file whose text does not change keeps its node. *)
Lemma commit_rename ov w p q ep eq od :
  commit_inv ov w → ov !! p = Some ep → exists_ ep = true → ov !! q = Some eq → q ≠ p →
  node_at w (removelast q) = Some Dir →
  ∃ w1, bind (replace p q) (λ _, move_path scope p q) w = (Ok (), w1) ∧
    commit_inv (<[q := {| exists_ := true; ov_content := ov_content ep; on_disk := od |}]> (<[p := missing]> ov)) w1 ∧
    texts w1 = <[q := ov_content ep]> (delete p (texts w)).
Proof.
  intros Hinv Hp Hex Hq Hqp Hpar.
  destruct (inv_text _ _ _ _ Hinv Hp Hex) as (HpT & Hne & _ & Hread & _ & st & Hn).
  destruct (ci_paths _ _ Hinv q) as [HqT Hqne]; [by rewrite Hq|].
  pose proof (inv_not_dir _ _ _ _ Hinv Hq) as Hqdir.
  unfold bind, replace. rewrite Hn.
  set (node := File (Text (ov_content ep)) st) in *.
  set (w1 := set_fs w (<[q := node]> (delete p (fs w)))).
  assert (match node_at w q with Some Dir => (Err (EOS q), w) | _ => (Ok (), w1) end = (Ok (), w1)) as ->
    by (by destruct (node_at w q) as [[]|]).
  unfold move_path, bind. destruct (remove_path_ok w1 p) as (w2 & -> & Hfs2 & Hr2).
  assert (node_at w2 q = Some node) as Hn2.
  { rewrite node_at_ne, Hfs2 by done. simpl. apply lookup_insert_eq. }
  destruct (record_write_ok w2 q _ _ Hn2) as (w3 & -> & Hfs3 & Hr3).
  set (wa := {| fs := delete p (fs w); reads := <[scope := delete p (scope_reads w scope)]> (reads w);
                clock := clock w |}).
  assert (node_update w p None wa) as Hua by done.
  assert (reads_update w p None wa) as Hra.
  { intros r. unfold wa, scope_reads at 1. simpl. rewrite lookup_insert_eq. simpl.
    case_decide as Hr; [by subst; rewrite lookup_delete_eq|by rewrite lookup_delete_ne]. }
  assert (node_update wa q (Some node) w3) as Hub by (unfold node_update; by rewrite Hfs3, Hfs2).
  assert (reads_update wa q (Some st) w3) as Hrb.
  { intros r. rewrite Hr3, Hr2. case_decide; [done|]. by rewrite Hra. }
  exists w3. split; [done|]. apply (rename_inv ov w wa w3 p q ep eq od st); done.
Qed.

(** ** One operation, staged and performed *)

Definition storable_op (s : _StagedPatchOperation) : Prop :=
  match st_content s with Some c => storable c | None => True end.

Definition commits (ov : overlay) (w : world) (op : _PatchOperation) (s : _StagedPatchOperation) : Prop :=
  storable_op s → ∃ out w1, apply_operation no_format tick scope s w = (Ok out, w1) ∧ commit_inv ov w1 ∧
    reference_operation (texts w) op = Some (texts w1).

(** What staging an operation must have found, and that performing it succeeds. *)
Definition step_commits (op : _PatchOperation) : Prop :=
  ∀ ov w staged staged' ov', commit_inv ov w → (∀ p, p ∈ op_paths op → p ∈ T) →
    stage_operation scope w0 (staged, ov) op = Ok (staged', ov') →
    ∃ s, staged' = staged ++ [s] ∧ commits ov' w op s.

Lemma bind_ok {A B} (m : M A) (f : A → M B) a w w1 : m w = (Ok a, w1) → bind m f w = f a w1.
Proof. intros H. unfold bind. by rewrite H. Qed.

Lemma bind_ok_inv {A B} (m : M A) (f : A → M B) b w w2 :
  bind m f w = (Ok b, w2) → ∃ a w1, m w = (Ok a, w1) ∧ f a w1 = (Ok b, w2).
Proof. unfold bind. destruct (m w) as [[a|e] w1]; [eauto|done]. Qed.

Lemma bind_assoc {A B C} (m : M A) (f : A → M B) (g : B → M C) w :
  bind (bind m f) g w = bind m (λ a, bind (f a) g) w.
Proof. unfold bind. by destruct (m w) as [[a|e] w1]. Qed.

Lemma ask_ok {A} (f : world → result ToolError A) a w : f w = Ok a → ask f w = (Ok a, w).
Proof. intros H. unfold ask. by rewrite H. Qed.

Lemma commit_add op : op_kind op = KAdd → step_commits op.
Proof.
  intros Hk ov w staged staged' ov' Hinv HT. unfold stage_operation, commits, reference_operation, op_paths in *.
  rewrite Hk. destruct (destination_path op) as [q|] eqn:Hdst; [|done].
  assert (q ∈ T) as HqT by (apply HT, elem_of_app; right; by apply list_elem_of_singleton).
  intros ([e ov1] & Hl & ([] & Hc & [= <- <-])%result_bind_ok)%result_bind_ok.
  destruct (inv_load _ _ _ _ _ Hinv HqT Hl) as [Hinv1 Hq]. eexists. split; [done|]. intros Hs.
  destruct (ci_paths _ _ Hinv1 q) as [_ Hne]; [by rewrite Hq|].
  destruct (inv_make_parents _ _ _ Hinv1 HqT Hne) as (w1 & Hm & Hinv2 & Htx & Hpar & _).
  destruct (commit_write _ _ _ _ _ (on_disk e) Hinv2 Hq Hpar Hs) as (w2 & Hw & Hinv3 & Htx2).
  unfold apply_operation. cbn [st_kind st_source st_destination st_content].
  rewrite (bind_ok _ _ _ _ _ Hm), (bind_ok _ _ _ _ _ Hw). eexists _, w2. split; [done|].
  split; [done|]. simpl. by rewrite Htx2, Htx.
Qed.

Lemma commit_delete op : op_kind op = KDelete → step_commits op.
Proof.
  intros Hk ov w staged staged' ov' Hinv HT. unfold stage_operation, commits, reference_operation, op_paths in *.
  rewrite Hk. destruct (source_path op) as [p|] eqn:Hsrc; [|done].
  assert (p ∈ T) as HpT by (apply HT, elem_of_app; left; by apply list_elem_of_singleton).
  intros ([e ov1] & Hl & Hrest)%result_bind_ok. destruct (exists_ e) eqn:Hex; [|done]. simpl negb in Hrest.
  apply result_bind_ok in Hrest as ([] & Hc & [= <- <-]).
  destruct (inv_load _ _ _ _ _ Hinv HpT Hl) as [Hinv1 Hp]. eexists. split; [done|]. intros _.
  pose proof (inv_assert _ _ _ _ Hinv1 Hp Hex Hc) as Hassert.
  destruct (inv_text _ _ _ _ Hinv1 Hp Hex) as (_ & _ & Htext & _).
  destruct (commit_remove _ _ _ _ Hinv1 Hp Hex) as (w1 & Hrem & Hinv2 & Htx).
  unfold apply_operation. cbn [st_kind st_source st_destination st_content].
  rewrite (bind_ok _ _ () _ w) by (by apply ask_ok). rewrite <- bind_assoc, (bind_ok _ _ _ _ _ Hrem).
  eexists _, w1. split; [done|]. split; [done|]. simpl. rewrite Htext. simpl. by rewrite Htx.
Qed.

Lemma commit_update op : op_kind op = KUpdate → step_commits op.
Proof.
  intros Hk ov w staged staged' ov' Hinv HT. unfold stage_operation, commits, reference_operation, op_paths in *.
  rewrite Hk. destruct (source_path op) as [p|] eqn:Hsrc; [|done].
  assert (p ∈ T) as HpT by (apply HT, elem_of_app; left; by apply list_elem_of_singleton).
  intros ([e ov1] & Hl & Hrest)%result_bind_ok. destruct (exists_ e) eqn:Hex; [|done]. simpl negb in Hrest.
  apply result_bind_ok in Hrest as ([] & Hc & Hrest).
  destruct (_apply_envelope_hunks _ _ _) as [content|] eqn:Hh; [|done]. injection Hrest as <- <-.
  destruct (inv_load _ _ _ _ _ Hinv HpT Hl) as [Hinv1 Hp]. eexists. split; [done|]. intros Hs.
  pose proof (inv_assert _ _ _ _ Hinv1 Hp Hex Hc) as Hassert.
  destruct (inv_text _ _ _ _ Hinv1 Hp Hex) as (_ & Hne & Htext & _ & Hpar & _).
  assert (patched_text op (ov_content e) = Some content) as Hpt by (unfold patched_text; by rewrite Hh).
  unfold apply_operation. cbn [st_kind st_source st_destination st_content previous_content mbind option_bind].
  rewrite Htext. cbn [mbind option_bind]. rewrite Hpt. cbn [mbind option_bind].
  case_decide as Hsame.
  - eexists _, w. split; [done|]. rewrite Hsame, (insert_id (texts w)) by done. split; [|done].
    assert ({| exists_ := true; ov_content := ov_content e; on_disk := on_disk e |} = e) as ->
      by (destruct e; simpl in *; by subst).
    by rewrite (insert_id ov1).
  - destruct (commit_write _ _ _ _ content (on_disk e) Hinv1 Hp Hpar Hs) as (w1 & Hw & Hinv2 & Htx).
    rewrite (bind_ok _ _ () _ w) by (by apply ask_ok). rewrite (bind_ok _ _ _ _ _ Hw).
    eexists _, w1. split; [done|]. split; [done|]. by rewrite Htx.
Qed.

Lemma commit_moved ov w p q e e2 content od :
  commit_inv ov w → ov !! p = Some e → exists_ e = true → check_fresh scope w0 e p = Ok () →
  ov !! q = Some e2 → q ≠ p → storable content → ∀ previous,
  ∃ out w1, apply_operation no_format tick scope
      {| st_kind := KMove; st_source := Some p; st_destination := Some q; previous_content := previous;
         st_content := Some content |} w = (Ok out, w1) ∧
    commit_inv (<[q := {| exists_ := true; ov_content := content; on_disk := od |}]> (<[p := missing]> ov)) w1 ∧
    Some (<[q := content]> (delete p (texts w))) = Some (texts w1).
Proof.
  intros Hinv Hp Hex Hc Hq Hqp Hs previous. destruct (ci_paths _ _ Hinv q) as [HqT Hqne]; [by rewrite Hq|].
  pose proof (inv_assert _ _ _ _ Hinv Hp Hex Hc) as Hassert.
  destruct (inv_text _ _ _ _ Hinv Hp Hex) as (_ & _ & _ & Hread & _).
  destruct (inv_make_parents _ _ _ Hinv HqT Hqne) as (w1 & Hm & Hinv1 & Htx1 & Hpar & _).
  unfold apply_operation. cbn [st_kind st_source st_destination st_content].
  rewrite (bind_ok _ _ () _ w) by (by apply ask_ok). rewrite (bind_ok _ _ (ov_content e) _ w) by (by apply ask_ok).
  case_decide as Hsame.
  - destruct (commit_rename _ _ _ _ _ _ od Hinv1 Hp Hex Hq Hqp Hpar) as (w2 & Hmv & Hinv2 & Htx2).
    rewrite Hsame in *. eexists _, w2. split; [|by rewrite Htx2, Htx1].
    apply bind_ok_inv in Hmv as ([] & wx & Hr & Hmv).
    rewrite bind_assoc, (bind_ok _ _ _ _ _ Hm), bind_assoc, (bind_ok _ _ _ _ _ Hr), bind_assoc.
    by rewrite (bind_ok _ _ _ _ _ Hmv).
  - destruct (commit_write _ _ _ _ content od Hinv1 Hq Hpar Hs) as (w2 & Hw & Hinv2 & Htx2).
    destruct (commit_remove _ w2 p e Hinv2) as (w3 & Hrem & Hinv3 & Htx3); [by rewrite lookup_insert_ne|done|].
    eexists _, w3. split.
    + apply bind_ok_inv in Hrem as ([] & wx & Hu & Hrem).
      rewrite bind_assoc, (bind_ok _ _ _ _ _ Hm), bind_assoc, (bind_ok _ _ _ _ _ Hw), bind_assoc.
      rewrite (bind_ok _ _ _ _ _ Hu), bind_assoc. by rewrite (bind_ok _ _ _ _ _ Hrem).
    + split; [by rewrite insert_insert_ne|]. rewrite Htx3, Htx2, Htx1. by rewrite delete_insert_ne.
Qed.

Lemma commit_move op : op_kind op = KMove → step_commits op.
Proof.
  intros Hk ov w staged staged' ov' Hinv HT. unfold stage_operation, commits, reference_operation, op_paths in *.
  rewrite Hk. destruct (source_path op) as [p|] eqn:Hsrc; [|done].
  assert (p ∈ T) as HpT by (apply HT, elem_of_app; left; by apply list_elem_of_singleton).
  intros ([e ov1] & Hl & Hrest)%result_bind_ok. destruct (exists_ e) eqn:Hex; [|done]. simpl negb in Hrest.
  apply result_bind_ok in Hrest as ([] & Hc & Hrest).
  destruct (_apply_envelope_hunks _ _ _) as [content|] eqn:Hh; [|done].
  destruct (inv_load _ _ _ _ _ Hinv HpT Hl) as [Hinv1 Hp].
  set (q := default p (destination_path op)) in *. destruct (decide (q = p)) as [|Hqp]; [done|].
  assert (q ∈ T) as HqT.
  { unfold q in *. destruct (destination_path op); [|done]. apply HT, elem_of_app. right. by apply list_elem_of_singleton. }
  apply result_bind_ok in Hrest as ([e2 ov2] & Hl2 & ([] & Hc2 & [= <- <-])%result_bind_ok).
  destruct (inv_load _ _ _ _ _ Hinv1 HqT Hl2) as [Hinv2 Hq].
  assert (ov2 !! p = Some e) as Hp2.
  { unfold load_path in Hl2. destruct (ov1 !! q); [by injection Hl2 as _ <-|].
    apply result_bind_ok in Hl2 as (? & _ & [= _ <-]). by rewrite lookup_insert_ne. }
  eexists. split; [done|]. intros Hs.
  assert (patched_text op (ov_content e) = Some content) as Hpt by (unfold patched_text; by rewrite Hh).
  destruct (inv_text _ _ _ _ Hinv2 Hp2 Hex) as (_ & _ & Htext & _).
  cbn [mbind option_bind]. rewrite Htext. cbn [mbind option_bind]. rewrite Hpt. cbn [mbind option_bind].
  rewrite decide_False by done.
  destruct (commit_moved _ _ p q e e2 content (on_disk e2) Hinv2 Hp2 Hex Hc Hq Hqp Hs
    (if exists_ e2 then ov_content e2 else ov_content e)) as (out & w1 & Happ & Hinv3 & Htx).
  exists out, w1. split_and!; [exact Happ|exact Hinv3|exact Htx].
Qed.

Lemma commit_step op : step_commits op.
Proof.
  destruct (op_kind op) eqn:Hk; [by apply commit_add|by apply commit_delete|by apply commit_update|by apply commit_move].
Qed.

Lemma stage_shape ops staged0 ov staged ov' :
  guarded scope w0 ov → result_fold (stage_operation scope w0) (staged0, ov) ops = Ok (staged, ov') →
  ∃ more, staged = staged0 ++ more ∧ length more = length ops.
Proof.
  revert staged0 ov. induction ops as [|op ops IH]; intros staged0 ov Hg; simpl.
  { intros [= <- <-]. exists []. by rewrite app_nil_r. }
  intros ([staged1 ov1] & Hstep & Hfold)%result_bind_ok.
  destruct (stage_operation_guarded _ _ _ _ _ _ _ Hg Hstep) as (Hg1 & s & -> & _).
  destruct (IH _ _ Hg1 Hfold) as (more & -> & Hl).
  exists (s :: more). rewrite <- app_assoc. simpl. by rewrite Hl.
Qed.

Lemma commit_all ops ov w staged0 staged ov' :
  commit_inv ov w → guarded scope w0 ov → (∀ op p, op ∈ ops → p ∈ op_paths op → p ∈ T) →
  result_fold (stage_operation scope w0) (staged0, ov) ops = Ok (staged, ov') → Forall storable_op staged →
  ∃ more outs w1, staged = staged0 ++ more ∧
    _apply_staged_patch_operations no_format tick scope more w = (Ok outs, w1) ∧
    length outs = length ops ∧ patch_reference ops (texts w) = Some (texts w1).
Proof.
  intros Hinv Hg HT Hfold Hst. revert ov w staged0 Hinv Hg HT Hfold.
  induction ops as [|op ops IH]; intros ov w staged0 Hinv Hg HT; simpl.
  { intros [= <- <-]. exists [], [], w. by rewrite app_nil_r. }
  intros ([staged1 ov1] & Hstep & Hfold)%result_bind_ok.
  destruct (commit_step op ov w staged0 staged1 ov1) as (s & -> & Hs); [done| |done|].
  { intros p. apply HT. by apply list_elem_of_here. }
  destruct (stage_operation_guarded _ _ _ _ _ _ _ Hg Hstep) as [Hg1 _].
  destruct (stage_shape _ _ _ _ _ Hg1 Hfold) as (more' & Heq & _).
  destruct Hs as (out & w1 & Hop & Hinv1 & Href).
  { rewrite Heq, !Forall_app in Hst. destruct Hst as [[_ Hst] _]. by inversion Hst. }
  destruct (IH ov1 w1 (staged0 ++ [s]) Hinv1 Hg1) as (more & outs & w2 & -> & Hrun & Hl & Href2); [|done|].
  { intros op' p Hop'. apply HT. by apply list_elem_of_further. }
  exists (s :: more), (out :: outs), w2. rewrite <- app_assoc. split; [done|]. simpl.
  rewrite (bind_ok _ _ _ _ _ Hop), (bind_ok _ _ _ _ _ Hrun), Hl, Href. done.
Qed.

Lemma commit_start : tree_ok w0 → commit_inv ∅ w0.
Proof.
  intros Ht. split; try done; try (intros; by left).
  intros p [e He]. by rewrite lookup_empty in He.
Qed.
End Commit.


(** *** Checking the hypotheses on a concrete world *)

#[global] Instance node_eq_dec : EqDecision node.
Proof.
  assert (EqDecision file_data) by solve_decision. solve_decision.
Defined.

Lemma tree_ok_check w :
  bool_decide (fs w !! [] = None ∧ map_Forall (λ p _, node_at w (removelast p) = Some Dir) (fs w)) = true → tree_ok w.
Proof.
  intros [Hroot Hall]%bool_decide_eq_true. split; [done|]. intros p Hp [n Hn].
  rewrite node_at_ne in Hn by done. by apply (Hall p n).
Qed.

Definition is_file (w : world) (a : path) : bool :=
  match node_at w a with Some (File _ _) => true | _ => false end.

Lemma paths_apart_check w T :
  bool_decide (Forall (λ q, Forall (λ a, a ∉ T ∧ is_file w a = false) (ancestors q)) T) = true → paths_apart w T.
Proof.
  intros Hall%bool_decide_eq_true q a Hq Ha. rewrite Forall_forall in Hall. specialize (Hall q Hq). simpl in Hall.
  rewrite Forall_forall in Hall. destruct (Hall a Ha) as [? Hn]. split; [done|].
  intros d st Hf. unfold is_file in Hn. by rewrite Hf in Hn.
Qed.

#[global] Instance storable_op_dec s : Decision (storable_op s).
Proof. unfold storable_op, storable. destruct (st_content s); apply _. Defined.

Definition sample_path (names : list string) : path := u <$> names.
Definition sample_world : world :=
  let st := {| mtime_ns := 1; size := 4 |} in
  {| fs := list_to_map [(sample_path ["d"], Dir);
                        (sample_path ["d"; "a"], File (Text (u "x" ++ [LF] ++ u "y" ++ [LF])) st);
                        (sample_path ["d"; "b"], File (Text (u "z" ++ [LF])) st)];
     reads := {[ "s" := list_to_map [(sample_path ["d"; "a"], st); (sample_path ["d"; "b"], st)] ]};
     clock := 5 |}.

Definition sample_patch : ustr :=
  concat ((λ s, u s ++ [LF]) <$>
    ["*** Begin Patch"; "*** Update File: a"; "@@"; " x"; "-y"; "+Y"; "*** Update File: b"; "*** Move to: c"; "@@";
     "-z"; "+Z"; "*** Add File: e"; "+new"; "*** Delete File: c"; "*** End Patch"]).


(** A text that cannot be encoded is refused after its file was emptied. *)
Example unencodable_text_empties_the_file :
  let w := sample_world in
  let p := sample_path ["d"; "a"] in
  let r := write_formatted no_format Z.succ "s" p [55296%N] w in
  r.1 = Err (EEncode p) ∧ texts r.2 !! p = Some [].
Proof. by vm_compute. Qed.
