(* ===== verification/FileLocks.v ===== *)
(** The locks that serialise file mutations in an executor
    ([packages/executor/src/cognis/tools/executor/file_freshness.py]).

    A tool holds one [asyncio.Lock] per file it names while it runs.  [asyncio.Lock] is a
    flag and a queue: a request that finds the flag up or the queue inhabited joins the
    queue, and releasing lets the front of the queue take the lock.  The coroutines
    interleave between any two of these actions, which is finer than what the event loop
    does; a task that waits may be cancelled. *)

From S2P Require Import Prelude Str Patch.

Record Lock := { locked : bool; waiters : list N }.

Definition free_lock : Lock := {| locked := false; waiters := [] |}.

(** A coroutine inside [locks_for]: taking its locks, waiting for the next one, running the
    body, or unwinding the exit stack. *)
Inductive phase := Entering | Waiting | Inside | Leaving.

#[global] Instance phase_eq_dec : EqDecision phase.
Proof. solve_decision. Defined.

(** [held] has the lock taken last in front, as the exit stack does. *)
Record task := { paths : list path; ph : phase; held : list ustr; wanted : list ustr }.

Record system := { locks : gmap ustr Lock; tasks : gmap N task }.

Definition set_lock (k : ustr) (l : Lock) (s : system) : system :=
  {| locks := <[k := l]> (locks s); tasks := tasks s |}.
Definition set_task (i : N) (t : task) (s : system) : system :=
  {| locks := locks s; tasks := <[i := t]> (tasks s) |}.

(** [self._locks.get(normalized)], or a new lock. *)
Definition lock_for (s : system) (k : ustr) : Lock := default free_lock (locks s !! k).

Definition key_compare : ustr → ustr → comparison := lex_compare N.compare.

Section Locks.
Context (normalize : path → ustr).

(** [sorted({self._normalize(path) for path in paths})] *)
Definition lock_keys (ps : list path) : list ustr :=
  merge_sort (cmp_le key_compare) (elements (list_to_set (normalize <$> ps) : gset ustr)).

Inductive action :=
| Start (i : N) (ps : list path)
| Request (i : N)
| Wake (i : N)
| Cancel (i : N)
| Finish (i : N)
| Unwind (i : N).

Definition holding (t : task) (k : ustr) (ws : list ustr) : task :=
  {| paths := paths t; ph := Entering; held := k :: held t; wanted := ws |}.
Definition in_phase (t : task) (p : phase) : task :=
  {| paths := paths t; ph := p; held := held t; wanted := wanted t |}.
Definition leaving (t : task) (hs : list ustr) : task :=
  {| paths := paths t; ph := Leaving; held := hs; wanted := [] |}.

(** The next lock is taken, or the task joins its queue; after the last one it goes in. *)
Definition request (i : N) (t : task) (s : system) : system :=
  match wanted t with
  | [] => set_task i (in_phase t Inside) s
  | k :: ws =>
      let l := lock_for s k in
      if negb (locked l) && bool_decide (waiters l = [])
      then set_task i (holding t k ws) (set_lock k {| locked := true; waiters := [] |} s)
      else set_task i (in_phase t Waiting) (set_lock k {| locked := locked l; waiters := waiters l ++ [i] |} s)
  end.

(** The front of the queue of a lock that is free takes it. *)
Definition wake (i : N) (t : task) (s : system) : option system :=
  match wanted t with
  | [] => None
  | k :: ws =>
      let l := lock_for s k in
      match waiters l with
      | j :: js =>
          if negb (locked l) && bool_decide (j = i)
          then Some (set_task i (holding t k ws) (set_lock k {| locked := true; waiters := js |} s))
          else None
      | [] => None
      end
  end.

Definition cancel (i : N) (t : task) (s : system) : option system :=
  match wanted t with
  | [] => None
  | k :: _ =>
      let l := lock_for s k in
      Some (set_task i (leaving t (held t))
        (set_lock k {| locked := locked l; waiters := filter (λ j, j ≠ i) (waiters l) |} s))
  end.

(** The exit stack releases the lock taken last; when none is left the task is gone. *)
Definition unwind (i : N) (t : task) (s : system) : system :=
  match held t with
  | [] => {| locks := locks s; tasks := delete i (tasks s) |}
  | k :: hs => set_task i (leaving t hs) (set_lock k {| locked := false; waiters := waiters (lock_for s k) |} s)
  end.

(** What an action does, when it is possible. *)
Definition perform (a : action) (s : system) : option system :=
  let at_phase i p f := match tasks s !! i with
                        | Some t => if decide (ph t = p) then f t else None
                        | None => None
                        end in
  match a with
  | Start i ps =>
      match tasks s !! i with
      | Some _ => None
      | None => Some (set_task i {| paths := ps; ph := Entering; held := []; wanted := lock_keys ps |} s)
      end
  | Request i => at_phase i Entering (λ t, Some (request i t s))
  | Wake i => at_phase i Waiting (λ t, wake i t s)
  | Cancel i => at_phase i Waiting (λ t, cancel i t s)
  | Finish i => at_phase i Inside (λ t, Some (set_task i (leaving t (held t)) s))
  | Unwind i => at_phase i Leaving (λ t, Some (unwind i t s))
  end.

Definition starts_task (a : action) : bool := match a with Start _ _ => true | _ => false end.

(** A step of the tasks there are; [reachable] also starts tasks. *)
Definition step (s s' : system) : Prop := ∃ a, starts_task a = false ∧ perform a s = Some s'.

Inductive reachable : system → Prop :=
| reachable_init : reachable {| locks := ∅; tasks := ∅ |}
| reachable_step s a s' : reachable s → perform a s = Some s' → reachable s'.

(** ** The invariant *)

Definition waits_for (t : task) : option ustr := if decide (ph t = Waiting) then head (wanted t) else None.

Definition task_ok (t : task) : Prop :=
  NoDup (held t) ∧
  match ph t with
  | Entering => reverse (held t) ++ wanted t = lock_keys (paths t)
  | Waiting => reverse (held t) ++ wanted t = lock_keys (paths t) ∧ wanted t ≠ []
  | Inside => reverse (held t) = lock_keys (paths t) ∧ wanted t = []
  | Leaving => wanted t = []
  end.

Record lock_inv (s : system) : Prop := {
  inv_task i t : tasks s !! i = Some t → task_ok t;
  inv_held i t k : tasks s !! i = Some t → k ∈ held t → locked (lock_for s k) = true;
  inv_one i j t t' k : tasks s !! i = Some t → tasks s !! j = Some t' → k ∈ held t → k ∈ held t' → i = j;
  inv_locked k : locked (lock_for s k) = true → ∃ i t, tasks s !! i = Some t ∧ k ∈ held t;
  inv_waiters k i : i ∈ waiters (lock_for s k) ↔ ∃ t, tasks s !! i = Some t ∧ waits_for t = Some k;
  inv_queue k : NoDup (waiters (lock_for s k));
}.

#[local] Instance key_total_compare : TotalCompare key_compare.
Proof. apply _. Qed.

Lemma lock_keys_sorted ps : StronglySorted (cmp_le key_compare) (lock_keys ps).
Proof. apply (StronglySorted_merge_sort _ _). Qed.

Lemma lock_keys_perm ps : lock_keys ps ≡ₚ elements (list_to_set (normalize <$> ps) : gset ustr).
Proof. apply merge_sort_Permutation. Qed.

Lemma lock_keys_nodup ps : NoDup (lock_keys ps).
Proof. rewrite lock_keys_perm. apply NoDup_elements. Qed.

Lemma elem_of_lock_keys ps k : k ∈ lock_keys ps ↔ k ∈ normalize <$> ps.
Proof. rewrite lock_keys_perm, elem_of_elements. apply elem_of_list_to_set. Qed.

(** One task changes, and one lock with it. *)
Lemma inv_locks_update s s' i t t' k l' :
  lock_inv s → tasks s !! i = Some t → tasks s' = <[i := t']> (tasks s) →
  (∀ k', lock_for s' k' = if decide (k' = k) then l' else lock_for s k') →
  task_ok t' →
  (∀ k', k' ≠ k → (k' ∈ held t' ↔ k' ∈ held t) ∧ (waits_for t' = Some k' ↔ waits_for t = Some k')) →
  (locked l' = true ↔ k ∈ held t' ∨ (locked (lock_for s k) = true ∧ k ∉ held t)) →
  (k ∈ held t' → locked (lock_for s k) = true → k ∈ held t) →
  (∀ j, j ∈ waiters l' ↔ if decide (j = i) then waits_for t' = Some k else j ∈ waiters (lock_for s k)) →
  NoDup (waiters l') →
  lock_inv s'.
Proof.
  intros [Ht Hh H1 Hl Hw Hq] Hi Hts Hls Hok Hother Hlock Htake Hwait Hnd.
  assert (∀ k', k' ∈ held t' → k' ∈ held t ∨ locked (lock_for s k') = false) as Hnew.
  { intros k' Hk'. destruct (decide (k' = k)) as [->|Hne]; [|by left; apply Hother].
    destruct (locked (lock_for s k)) eqn:Hlk; [left; by apply Htake|by right]. }
  split.
  - intros j tj. rewrite Hts, lookup_insert. case_decide; [by intros [= <-]|apply Ht].
  - intros j tj k'. rewrite Hts, lookup_insert, Hls. case_decide as Hj; [intros [= <-] Hk'|intros Htj Hk'].
    + case_decide; subst; [apply Hlock; by left|]. apply (Hh j t); [done|]. by apply Hother.
    + case_decide; subst; [|by eapply Hh]. apply Hlock. right. split; [by eapply Hh|].
      intros Hki. by pose proof (H1 _ _ _ _ _ Hi Htj Hki Hk').
  - intros j j' tj tj' k'. rewrite Hts, !lookup_insert. repeat case_decide; subst; try done.
    + intros [= <-] Hj' [Hk|Hk]%Hnew Hk'; [by eapply H1|]. by rewrite (Hh _ _ _ Hj' Hk') in Hk.
    + intros Hj [= <-] Hk' [Hk|Hk]%Hnew; [by eapply H1|]. by rewrite (Hh _ _ _ Hj Hk') in Hk.
    + by apply H1.
  - intros k'. rewrite Hls. case_decide as Hk; subst.
    + intros [Hk'|[Hlk Hk']]%Hlock; [exists i, t'; by rewrite Hts, lookup_insert_eq|].
      destruct (Hl _ Hlk) as (j & tj & Hj & Hkj). exists j, tj. rewrite Hts, lookup_insert_ne; [done|]. by intros ->; simplify_eq.
    + intros (j & tj & Hj & Hkj)%Hl. destruct (decide (i = j)) as [->|Hne].
      * simplify_eq. exists j, t'. rewrite Hts, lookup_insert_eq. split; [done|]. by apply Hother.
      * exists j, tj. by rewrite Hts, lookup_insert_ne.
  - intros k' j. rewrite Hls, Hts, lookup_insert. case_decide as Hk; subst; [rewrite Hwait|rewrite Hw].
    + destruct (decide (j = i)) as [->|Hj].
      * rewrite decide_True by done. naive_solver.
      * rewrite decide_False by done. apply Hw.
    + case_decide; subst; [|done]. rewrite Hi. specialize (Hother _ Hk). naive_solver.
  - intros k'. rewrite Hls. case_decide; [done|apply Hq].
Qed.

Lemma lock_for_set k l i t s k' :
  lock_for (set_task i t (set_lock k l s)) k' = if decide (k' = k) then l else lock_for s k'.
Proof. unfold lock_for. simpl. rewrite lookup_insert. by repeat case_decide; simplify_eq/=. Qed.

Lemma waits_for_next t k ws : ph t = Waiting → wanted t = k :: ws → waits_for t = Some k.
Proof. intros Hp Hw. unfold waits_for. by rewrite Hp, Hw. Qed.

Lemma waits_for_not t : ph t ≠ Waiting → waits_for t = None.
Proof. intros Hp. unfold waits_for. by rewrite decide_False. Qed.

(** The part of a task that is not at its next lock. *)
Lemma task_ok_next t k ws :
  task_ok t → ph t = Entering ∨ ph t = Waiting → wanted t = k :: ws →
  k ∉ held t ∧ task_ok (holding t k ws) ∧ task_ok (in_phase t Waiting).
Proof.
  intros [Hnd Hph] Hp Hw. assert (reverse (held t) ++ k :: ws = lock_keys (paths t)) as Hk.
  { destruct Hp as [Hp|Hp]; rewrite Hp, Hw in Hph; naive_solver. }
  assert (k ∉ held t) as Hnk.
  { pose proof (lock_keys_nodup (paths t)) as Hall. rewrite <- Hk in Hall.
    apply NoDup_app in Hall as (_ & Hd & _). intros Hin. apply (Hd k); [by rewrite elem_of_reverse|left]. }
  split_and!; [done| |].
  - split; simpl; [by constructor|]. rewrite reverse_cons. by rewrite <- app_assoc.
  - split; simpl; [done|]. by rewrite Hw.
Qed.

Lemma task_ok_leaving t : task_ok t → task_ok (leaving t (held t)).
Proof. intros [? ?]. by split. Qed.

Lemma inv_task_only s i t t' :
  lock_inv s → tasks s !! i = Some t → task_ok t' → held t' = held t → waits_for t' = waits_for t →
  lock_inv (set_task i t' s).
Proof.
  intros Hs Hi Hok Hh Hw. pose proof (inv_held _ Hs i t) as Hheld. pose proof (inv_waiters _ Hs [] i) as Hwait.
  eapply (inv_locks_update s _ i t t' [] (lock_for s [])); try done.
  - intros k'. by case_decide; subst.
  - intros k' _. by rewrite Hh, Hw.
  - rewrite Hh. destruct (decide ([] ∈ held t)); naive_solver.
  - by rewrite Hh.
  - intros j. case_decide; subst; [|done]. rewrite Hw, Hwait, Hi. naive_solver.
  - apply Hs.
Qed.

(** A task takes its next lock, which is free, and leaves its queue. *)
Lemma inv_take s i t k ws js :
  lock_inv s → tasks s !! i = Some t → ph t = Entering ∨ ph t = Waiting → wanted t = k :: ws →
  locked (lock_for s k) = false → (∀ j, j ∈ js ↔ j ≠ i ∧ j ∈ waiters (lock_for s k)) → NoDup js →
  lock_inv (set_task i (holding t k ws) (set_lock k {| locked := true; waiters := js |} s)).
Proof.
  intros Hs Hi Hp Hw Hl Hjs Hnd. destruct (task_ok_next t k ws) as (Hk & Hok & _); [by eapply inv_task|done|done|].
  eapply (inv_locks_update s _ i t (holding t k ws) k); try done.
  - apply lock_for_set.
  - intros k' Hne. simpl. rewrite elem_of_cons. rewrite (waits_for_not (holding t k ws)) by done.
    split; [naive_solver|]. destruct Hp as [Hp|Hp]; [by rewrite waits_for_not by congruence|].
    rewrite (waits_for_next t k ws) by done. naive_solver.
  - simpl. set_solver.
  - simpl. by rewrite Hl.
  - intros j. simpl. rewrite Hjs, waits_for_not by done. case_decide; naive_solver.
  - exact Hnd.
Qed.

Lemma inv_request s i t : lock_inv s → tasks s !! i = Some t → ph t = Entering → lock_inv (request i t s).
Proof.
  intros Hs Hi Hp. pose proof (inv_task _ Hs _ _ Hi) as Hok. unfold request.
  destruct (wanted t) as [|k ws] eqn:Hw.
  { apply (inv_task_only s i t); try done.
    - destruct Hok as [? Hph]. rewrite Hp, Hw, app_nil_r in Hph. by split.
    - by rewrite !waits_for_not by (simpl; congruence). }
  destruct (negb _ && _) eqn:Hfree; bool_facts.
  { apply inv_take; auto using NoDup_nil_2. intros j. rewrite H0. set_solver. }
  destruct (task_ok_next t k ws) as (Hk & _ & Hok'); [done|by left|done|].
  pose proof (inv_waiters _ Hs k i) as Hwait. rewrite Hi in Hwait.
  assert (i ∉ waiters (lock_for s k)) as Hni.
  { intros (t' & [= <-] & Ht')%Hwait. by rewrite waits_for_not in Ht' by congruence. }
  eapply (inv_locks_update s _ i t (in_phase t Waiting) k); try done.
  - apply lock_for_set.
  - intros k' Hne. split; [done|]. rewrite (waits_for_not t) by congruence.
    rewrite (waits_for_next (in_phase t Waiting) k ws) by done. naive_solver.
  - simpl. pose proof (inv_held _ Hs i t k Hi). naive_solver.
  - intros j. simpl. rewrite elem_of_app, list_elem_of_singleton.
    rewrite (waits_for_next (in_phase t Waiting) k ws) by done. case_decide; naive_solver.
  - simpl. apply NoDup_app. split_and!; [apply Hs| |apply NoDup_singleton].
    intros j Hj ->%list_elem_of_singleton. done.
Qed.

Lemma inv_wake s i t s' :
  lock_inv s → tasks s !! i = Some t → ph t = Waiting → wake i t s = Some s' → lock_inv s'.
Proof.
  intros Hs Hi Hp. unfold wake. destruct (wanted t) as [|k ws] eqn:Hw; [done|].
  destruct (waiters (lock_for s k)) as [|j js] eqn:Hq; [done|].
  destruct (negb _ && _) eqn:Hfree; [|done]. bool_facts. subst j. intros [= <-].
  pose proof (inv_queue _ Hs k) as Hnd. rewrite Hq in Hnd. apply NoDup_cons in Hnd as [Hni Hnd].
  apply inv_take; auto. intros j. rewrite Hq, elem_of_cons. naive_solver.
Qed.

Lemma inv_cancel s i t s' :
  lock_inv s → tasks s !! i = Some t → ph t = Waiting → cancel i t s = Some s' → lock_inv s'.
Proof.
  intros Hs Hi Hp. unfold cancel. destruct (wanted t) as [|k ws] eqn:Hw; [done|]. intros [= <-].
  pose proof (inv_task _ Hs _ _ Hi) as Hok. pose proof (waits_for_next t k ws Hp Hw) as Hwf.
  eapply (inv_locks_update s _ i t (leaving t (held t)) k); try done.
  - apply lock_for_set.
  - by apply task_ok_leaving.
  - intros k' Hne. split; [done|]. rewrite Hwf, waits_for_not by done. naive_solver.
  - simpl. pose proof (inv_held _ Hs i t k Hi). destruct (decide (k ∈ held t)); naive_solver.
  - intros j. simpl. rewrite list_elem_of_filter, waits_for_not by done. case_decide; naive_solver.
  - apply NoDup_filter, Hs.
Qed.

Lemma inv_unwind s i t : lock_inv s → tasks s !! i = Some t → ph t = Leaving → lock_inv (unwind i t s).
Proof.
  intros Hs Hi Hp. pose proof (inv_task _ Hs _ _ Hi) as [Hnd Hok]. unfold unwind.
  destruct (held t) as [|k hs] eqn:Hh.
  - destruct Hs as [Ht Hheld H1 Hl Hw Hq].
    assert (∀ j tj, delete i (tasks s) !! j = Some tj → tasks s !! j = Some tj) as Hd
      by (intros j tj [_ ?]%lookup_delete_Some; done).
    split; simpl; eauto.
    + intros k (j & tj & Hj & Hk)%Hl. exists j, tj. rewrite lookup_delete_ne; [done|]. intros ->. simplify_eq.
      rewrite Hh in Hk. by apply elem_of_nil in Hk.
    + intros k j. etrans; [apply Hw|]. rewrite lookup_delete. case_decide; subst; [|done]. rewrite Hi.
      split; [|naive_solver]. intros (t' & [= <-] & Hw'). by rewrite waits_for_not in Hw' by congruence.
  - apply NoDup_cons in Hnd as [Hk Hnd].
    eapply (inv_locks_update s _ i t (leaving t hs) k); try done.
    + apply lock_for_set.
    + intros k' Hne. simpl. rewrite Hh, elem_of_cons. rewrite !waits_for_not by (simpl; congruence). naive_solver.
    + simpl. rewrite Hh, elem_of_cons. naive_solver.
    + intros j. simpl. case_decide; subst; [|done]. rewrite (inv_waiters _ Hs k).
      rewrite Hi, (waits_for_not (leaving t hs)) by done. split; [|done].
      intros (t' & [= <-] & Hw). by rewrite waits_for_not in Hw by congruence.
    + apply Hs.
Qed.

Lemma inv_perform s a s' : lock_inv s → perform a s = Some s' → lock_inv s'.
Proof.
  intros Hs. destruct a as [i ps|i|i|i|i|i]; simpl;
    (destruct (tasks s !! i) as [t|] eqn:Hi; [|try done]); try (case_decide as Hp; [|done]).
  - done.
  - intros [= <-]. destruct Hs as [Ht Hheld H1 Hl Hw Hq].
    split; simpl; try setoid_rewrite lookup_insert_Some.
    + intros j tj [[-> <-]|[_ ?]]; [|by eapply Ht]. split; [constructor|]. done.
    + intros j tj k [[-> <-]|[_ Hj]]; [by intros ?%elem_of_nil|]. by eapply Hheld.
    + intros j j' tj tj' k [[<- <-]|[_ Hj]] [[<- <-]|[_ Hj']]; simpl; try (by intros ?%elem_of_nil).
      * by intros _ ?%elem_of_nil.
      * by eapply H1.
    + intros k (j & tj & Hj & Hk)%Hl. exists j, tj. split; [|done]. right. split; [|done]. by intros ->; simplify_eq.
    + intros k j. etrans; [apply Hw|]. split; [intros (t & Hj & ?); exists t|].
      * split; [right|done]. split; [|done]. by intros ->; simplify_eq.
      * intros (t & [[<- <-]|[_ ?]] & Hwf); [by rewrite waits_for_not in Hwf|]. by exists t.
    + apply Hq.
  - intros [= <-]. by apply inv_request.
  - by apply (inv_wake s i t).
  - by apply (inv_cancel s i t).
  - intros [= <-]. pose proof (inv_task _ Hs _ _ Hi). apply (inv_task_only s i t); try done.
    + by apply task_ok_leaving.
    + by rewrite !waits_for_not by (simpl; congruence).
  - intros [= <-]. by apply inv_unwind.
Qed.

Lemma reachable_inv s : reachable s → lock_inv s.
Proof.
  induction 1 as [|s a s' _ IH Hp]; [|by eapply inv_perform].
  split; simpl; unfold lock_for; simpl; try setoid_rewrite lookup_empty; simpl; try done; [|constructor].
  intros k i. rewrite elem_of_nil. naive_solver.
Qed.

(** ** Progress *)

(** The step a task can make, unless it waits for a lock that is held. *)
Lemma can_step s i t :
  lock_inv s → tasks s !! i = Some t →
  (∃ s', step s s') ∨ ∃ k ws, ph t = Waiting ∧ wanted t = k :: ws ∧ locked (lock_for s k) = true.
Proof.
  intros Hs Hi. destruct (ph t) eqn:Hp.
  - left. eexists. exists (Request i). split; [done|]. simpl. by rewrite Hi, decide_True.
  - pose proof (inv_task _ Hs _ _ Hi) as [_ Hok]. rewrite Hp in Hok. destruct Hok as [_ Hne].
    destruct (wanted t) as [|k ws] eqn:Hw; [done|].
    destruct (locked (lock_for s k)) eqn:Hl; [right; eauto|left].
    assert (i ∈ waiters (lock_for s k)) as Hwait.
    { apply (inv_waiters _ Hs). exists t. split; [done|]. by eapply waits_for_next. }
    destruct (waiters (lock_for s k)) as [|j js] eqn:Hq; [by apply elem_of_nil in Hwait|].
    assert (j ∈ waiters (lock_for s k)) as (tj & Hj & Hwj)%(inv_waiters _ Hs) by (rewrite Hq; left).
    unfold waits_for in Hwj. case_decide as Hpj; [|done]. destruct (wanted tj) as [|? ws'] eqn:Hwj'; [done|].
    injection Hwj as ->. eexists. exists (Wake j). split; [done|]. simpl. unfold wake.
    by rewrite Hj, decide_True, Hwj', Hq, Hl, bool_decide_eq_true_2.
  - left. eexists. exists (Finish i). split; [done|]. simpl. by rewrite Hi, decide_True.
  - left. eexists. exists (Unwind i). split; [done|]. simpl. by rewrite Hi, decide_True.
Qed.

(** What a task holds comes before what it waits for. *)
Lemma held_before_wanted s i t k k' ws :
  lock_inv s → tasks s !! i = Some t → ph t = Waiting → wanted t = k' :: ws → k ∈ held t →
  key_compare k k' = Lt.
Proof.
  intros Hs Hi Hp Hw Hk. pose proof (inv_task _ Hs _ _ Hi) as [_ Hok]. rewrite Hp, Hw in Hok.
  destruct Hok as [Hkeys _]. pose proof (lock_keys_sorted (paths t)) as Hsort.
  pose proof (lock_keys_nodup (paths t)) as Hnd. rewrite <- Hkeys in Hsort, Hnd.
  assert (cmp_le key_compare k k') as Hle
    by (eapply StronglySorted_app_1_elem_of; [exact Hsort|by apply elem_of_reverse|left]).
  apply NoDup_app in Hnd as (_ & Hd & _).
  destruct (key_compare k k') eqn:Hc; [|done|done].
  apply (cmp_eq _ _) in Hc as ->. destruct (Hd k'); [by apply elem_of_reverse|left].
Qed.

Definition above (s : system) (k : ustr) : gset ustr :=
  filter (λ k', key_compare k k' = Lt) (dom (locks s)).

(** The chain from a waiting task to the holder of its lock, and on, climbs: it ends at a
    task that can move. *)
Lemma chain_moves n s i t k ws :
  lock_inv s → (size (above s k) < n)%nat → tasks s !! i = Some t → ph t = Waiting → wanted t = k :: ws →
  ∃ s', step s s'.
Proof.
  intros Hs. revert i t k ws. induction n as [|n IH]; intros i t k ws Hn Hi Hp Hw; [lia|].
  destruct (can_step s i t Hs Hi) as [?|(k1 & ws1 & _ & Hw1 & Hl)]; [done|].
  rewrite Hw in Hw1. injection Hw1 as <- <-.
  destruct (inv_locked _ Hs _ Hl) as (j & tj & Hj & Hk).
  destruct (can_step s j tj Hs Hj) as [?|(k' & ws' & Hp' & Hw' & Hl')]; [done|].
  pose proof (held_before_wanted _ _ _ _ _ _ Hs Hj Hp' Hw' Hk) as Hlt.
  eapply (IH j tj k' ws'); [|done..].
  assert (above s k' ⊂ above s k) as Hsub%subset_size; [|lia].
  assert (k' ∈ dom (locks s)) as Hdom.
  { apply elem_of_dom. unfold lock_for in Hl'. by destruct (locks s !! k'). }
  unfold above. split.
  - intros x [Hx ?]%elem_of_filter. apply elem_of_filter. split; [|done]. exact (cmp_trans (cmp:=key_compare) k k' x Hlt Hx).
  - intros Hback. specialize (Hback k'). rewrite !elem_of_filter in Hback.
    destruct Hback as [Hx _]; [done|]. by rewrite cmp_refl in Hx.
Qed.

Lemma progress s : lock_inv s → tasks s ≠ ∅ → ∃ s', step s s'.
Proof.
  intros Hs (i & t & Hi)%map_choose. destruct (can_step s i t Hs Hi) as [?|(k & ws & Hp & Hw & _)]; [done|].
  by eapply (chain_moves _ s i t k ws Hs (Nat.lt_succ_diag_r _)).
Qed.

(** ** Termination *)

(** The steps a task has left, at most. *)
Definition weight (t : task) : nat :=
  match ph t with
  | Entering => 3 * length (wanted t) + length (held t) + 3
  | Waiting => 3 * length (wanted t) + length (held t) + 2
  | Inside => length (held t) + 2
  | Leaving => length (held t) + 1
  end.

Definition total (m : gmap N task) : nat := map_fold (λ _ t n, (weight t + n)%nat) 0%nat m.

Lemma total_delete m i t : m !! i = Some t → total m = (weight t + total (delete i m))%nat.
Proof. intros Hi. unfold total. apply (map_fold_delete_L (λ (_ : N) t n, (weight t + n)%nat) 0%nat i t m); [lia|done]. Qed.

Lemma total_insert m i t t' : m !! i = Some t → (weight t' < weight t → total (<[i := t']> m) < total m)%nat.
Proof.
  intros Hi Hw. rewrite (total_delete m i t Hi), (total_delete (<[i := t']> m) i t') by apply lookup_insert_eq.
  rewrite delete_insert_eq. lia.
Qed.

Lemma step_decreases s s' : step s s' → (total (tasks s') < total (tasks s))%nat.
Proof.
  intros (a & Ha & Hp). destruct a as [i ps|i|i|i|i|i]; [done|..]; simpl in Hp;
    (destruct (tasks s !! i) as [t|] eqn:Hi; [|done]); (case_decide as Hph; [|done]).
  - injection Hp as <-. unfold request. destruct (wanted t) as [|k ws] eqn:Hw; [|case_match];
      simpl; apply (total_insert _ _ _ _ Hi); unfold weight; simpl; rewrite Hph, Hw; simpl; lia.
  - unfold wake in Hp. destruct (wanted t) as [|k ws] eqn:Hw; [done|]. repeat case_match; try done.
    injection Hp as <-. simpl; apply (total_insert _ _ _ _ Hi); unfold weight; simpl; rewrite Hph, Hw; simpl; lia.
  - unfold cancel in Hp. destruct (wanted t) as [|k ws] eqn:Hw; [done|]. injection Hp as <-.
    simpl; apply (total_insert _ _ _ _ Hi); unfold weight; simpl; rewrite Hph; lia.
  - injection Hp as <-. simpl; apply (total_insert _ _ _ _ Hi); unfold weight; simpl; rewrite Hph; lia.
  - injection Hp as <-. unfold unwind. destruct (held t) as [|k hs] eqn:Hh; simpl.
    + rewrite (total_delete _ _ _ Hi). unfold weight. rewrite Hph. lia.
    + apply (total_insert _ _ _ _ Hi); unfold weight; simpl; rewrite Hph, Hh; simpl; lia.
Qed.

Lemma reachable_rtc s s' : reachable s → rtc step s s' → reachable s'.
Proof. intros Hs. induction 1 as [|s s1 s' (a & _ & Ha) _ IH]; [done|]. apply IH. by eapply reachable_step. Qed.

(** C32. The file locks never deadlock: from any state, however tools interleave, wait and
    are cancelled, only finitely many steps are possible without a new tool, and when no
    step is possible every tool is done, no lock is held and no queue has a waiter. *)
Theorem file_locks_drain s :
  reachable s →
  Acc (λ s2 s1, step s1 s2) s ∧
  ∀ s', rtc step s s' → (∀ s2, ¬ step s' s2) → tasks s' = ∅ ∧ ∀ k, lock_for s' k = free_lock.
Proof.
  intros Hs. split.
  - clear Hs. remember (total (tasks s)) as n eqn:Hn. revert s Hn.
    induction n as [n IH] using lt_wf_ind. intros s ->. constructor. intros s2 Hst.
    eapply IH; [by apply step_decreases|done].
  - intros s' Hrtc Hstuck. pose proof (reachable_inv _ (reachable_rtc _ _ Hs Hrtc)) as Hinv.
    assert (tasks s' = ∅) as Hempty.
    { destruct (decide (tasks s' = ∅)) as [|Hne]; [done|]. by destruct (progress _ Hinv Hne) as [s2 ?%Hstuck]. }
    split; [done|]. intros k. destruct (lock_for s' k) as [b q] eqn:Hk. unfold free_lock. f_equal.
    + destruct b; [|done]. destruct (inv_locked _ Hinv k) as (i & t & Hi & _); [by rewrite Hk|].
      by rewrite Hempty in Hi.
    + destruct q as [|i q]; [done|]. destruct (proj1 (inv_waiters _ Hinv k i)) as (t & Hi & _).
      { rewrite Hk. left. }
      by rewrite Hempty in Hi.
Qed.

(** Two tools that run at the same time never have a file in common, under any name
    that normalises to it. *)
Theorem tools_inside_are_disjoint s i j t t' p p' :
  reachable s → i ≠ j → tasks s !! i = Some t → tasks s !! j = Some t' → ph t = Inside → ph t' = Inside →
  p ∈ paths t → p' ∈ paths t' → normalize p ≠ normalize p'.
Proof.
  intros Hs%reachable_inv Hij Hi Hj Hp Hp' Hin Hin' Heq.
  assert (∀ i t p, tasks s !! i = Some t → ph t = Inside → p ∈ paths t → normalize p ∈ held t) as Hheld.
  { clear -Hs. intros i t p Hi Hp Hin. destruct (inv_task _ Hs _ _ Hi) as [_ Hok]. rewrite Hp in Hok.
    destruct Hok as [Hk _]. rewrite <- elem_of_reverse, Hk. apply elem_of_lock_keys, list_elem_of_fmap. by exists p. }
  apply Hij. eapply (inv_one _ Hs i j t t' (normalize p)); [done|done|by eapply Hheld|]. rewrite Heq. by eapply Hheld.
Qed.
End Locks.

(** *** Checking the hypotheses on a concrete run *)

Definition run_actions (normalize : path → ustr) (acts : list action) : system :=
  foldl (λ s a, default s (perform normalize a s)) {| locks := ∅; tasks := ∅ |} acts.

Lemma reachable_run normalize acts : reachable normalize (run_actions normalize acts).
Proof.
  unfold run_actions. assert (∀ s, reachable normalize s →
    reachable normalize (foldl (λ s a, default s (perform normalize a s)) s acts)) as Hall.
  { induction acts as [|a acts IH]; intros s Hs; simpl; [done|]. apply IH.
    destruct (perform normalize a s) as [s'|] eqn:Ha; [by eapply reachable_step|done]. }
  apply Hall. constructor.
Qed.

Definition join (p : path) : ustr := ujoin (u "/") p.

(** Two tools that name the same files in opposite orders: the second waits for the first. *)
Definition crossing : system :=
  run_actions join [Start 1 [[u "a"]; [u "b"]]; Start 2 [[u "b"]; [u "a"]]; Request 1; Request 2; Request 1].

Lemma file_locks_drain_witness :
  ph <$> tasks crossing = {[ 1%N := Entering; 2%N := Waiting ]} ∧
  Acc (λ s2 s1, step join s1 s2) crossing ∧
  ∀ s', rtc (step join) crossing s' → (∀ s2, ¬ step join s' s2) →
    tasks s' = ∅ ∧ ∀ k, lock_for s' k = free_lock.
Proof.
  split; [by apply (bool_decide_unpack _); vm_compute|]. apply file_locks_drain, reachable_run.
Defined.

Definition side_by_side : system :=
  run_actions join [Start 1 [[u "a"]]; Start 2 [[u "b"]]; Request 1; Request 2; Request 2; Request 1].

Lemma tools_inside_are_disjoint_witness :
  ph <$> tasks side_by_side = {[ 1%N := Inside; 2%N := Inside ]} ∧ join [u "a"] ≠ join [u "b"].
Proof.
  split; [by apply (bool_decide_unpack _); vm_compute|].
  eapply (tools_inside_are_disjoint join side_by_side 1 2); try (apply reachable_run || done || vm_compute; reflexivity).
  - left.
  - left.
Defined.
