(* ===== verification/Pause.v ===== *)
(** Pauses: the point where a step waits for somebody's decision
    ([PauseWaiter] of [cognis/core/agent_loop.py]).

    A pause is registered, waited for, and resolved by whoever answers first; an approval
    may be claimed before it is submitted.  Pause objects are shared and mutable, so they
    live in a store and the table of pending pauses holds references.  [wait] suspends once:
    it is a start and then a return or an abort (timeout or cancellation).  The clock of a
    method that looks at several pauses may advance between them, so it is a function of
    the pause looked at. *)

From S2P Require Import Prelude PyVal.

Record PauseResolution := { decision : string; data : pyval }.

(** [details] stands for the question, options, questions and context, which are only kept. *)
Record PendingPause := {
  pause_id : string;
  pause_type : string;
  task_id : option string;
  step_name : option string;
  step_run_id : option string;
  session_id : option string;
  conversation_id : option string;
  details : pyval;
  resolved : bool;
}.

(** A call of [wait]: the pause, its event, and whether it is still suspended. *)
Record waiting := { w_pause : string; w_set : bool; w_open : bool }.

Record PauseWaiter := {
  objects : list PendingPause;
  waits : list waiting;
  _events : gmap string nat;
  _resolutions : gmap string PauseResolution;
  _pending : list (string * nat);
  _legacy_claims : gmap string (nat * string);
  _pause_deadlines : gmap string Z;
}.

Definition init : PauseWaiter :=
  {| objects := []; waits := []; _events := ∅; _resolutions := ∅; _pending := []; _legacy_claims := ∅;
     _pause_deadlines := ∅ |}.

Definition set_objects l w := {| objects := l; waits := waits w; _events := _events w;
  _resolutions := _resolutions w; _pending := _pending w; _legacy_claims := _legacy_claims w;
  _pause_deadlines := _pause_deadlines w |}.
Definition set_waits l w := {| objects := objects w; waits := l; _events := _events w;
  _resolutions := _resolutions w; _pending := _pending w; _legacy_claims := _legacy_claims w;
  _pause_deadlines := _pause_deadlines w |}.
Definition set_events m w := {| objects := objects w; waits := waits w; _events := m;
  _resolutions := _resolutions w; _pending := _pending w; _legacy_claims := _legacy_claims w;
  _pause_deadlines := _pause_deadlines w |}.
Definition set_resolutions m w := {| objects := objects w; waits := waits w; _events := _events w;
  _resolutions := m; _pending := _pending w; _legacy_claims := _legacy_claims w;
  _pause_deadlines := _pause_deadlines w |}.
Definition set_pending d w := {| objects := objects w; waits := waits w; _events := _events w;
  _resolutions := _resolutions w; _pending := d; _legacy_claims := _legacy_claims w;
  _pause_deadlines := _pause_deadlines w |}.
Definition set_claims m w := {| objects := objects w; waits := waits w; _events := _events w;
  _resolutions := _resolutions w; _pending := _pending w; _legacy_claims := m;
  _pause_deadlines := _pause_deadlines w |}.
Definition set_deadlines m w := {| objects := objects w; waits := waits w; _events := _events w;
  _resolutions := _resolutions w; _pending := _pending w; _legacy_claims := _legacy_claims w;
  _pause_deadlines := m |}.

(** ** Operations *)

(** A caller makes a pause object; its reference is the number of objects before. *)
Definition new_pause (p : PendingPause) (w : PauseWaiter) : PauseWaiter := set_objects (objects w ++ [p]) w.

Definition object_at (w : PauseWaiter) (r : nat) : option PendingPause := objects w !! r.

(** The pending object under an id, with its reference. *)
Definition lookup_pending (w : PauseWaiter) (pid : string) : option (nat * PendingPause) :=
  r ← od_get pid (_pending w); p ← object_at w r; Some (r, p).

Definition get (w : PauseWaiter) (pid : string) : option PendingPause := snd <$> lookup_pending w pid.

Definition is_claimed (w : PauseWaiter) (pid : string) : bool := bool_decide (is_Some (_legacy_claims w !! pid)).

(** [None] is the [ValueError]. *)
Definition register (r : nat) (w : PauseWaiter) : option PauseWaiter :=
  match object_at w r with
  | None => None
  | Some p =>
      if is_claimed w (pause_id p) && negb (bool_decide (od_get (pause_id p) (_pending w) = Some r)) then None
      else Some (set_pending (od_set (pause_id p) r (_pending w)) w)
  end.

Definition retarget (pid type conversation : string) (w : PauseWaiter) : PauseWaiter :=
  match lookup_pending w pid with
  | None => w
  | Some (r, p) =>
      set_objects (<[r := {| pause_id := pause_id p; pause_type := type; task_id := task_id p;
        step_name := step_name p; step_run_id := step_run_id p; session_id := session_id p;
        conversation_id := Some conversation; details := details p; resolved := resolved p |}]> (objects w)) w
  end.

Definition unknown_pause (pid : string) : PendingPause :=
  {| pause_id := pid; pause_type := "unknown"; task_id := None; step_name := None; step_run_id := None;
     session_id := None; conversation_id := None; details := PNone; resolved := false |}.

Definition set_default_deadline (pid : string) (t : Z) (w : PauseWaiter) : PauseWaiter :=
  match _pause_deadlines w !! pid with
  | Some _ => w
  | None => set_deadlines (<[pid := t]> (_pause_deadlines w)) w
  end.

(** [wait] up to its suspension; the new call is numbered like its event. *)
Definition wait_start (pid : string) (timeout now : Z) (w : PauseWaiter) : PauseWaiter :=
  let w := match od_get pid (_pending w) with
           | Some _ => w
           | None => set_pending (od_set pid (length (objects w)) (_pending w)) (new_pause (unknown_pause pid) w)
           end in
  let w := set_default_deadline pid (now + timeout) w in
  let set := bool_decide (is_Some (_resolutions w !! pid)) in
  set_events (<[pid := length (waits w)]> (_events w))
    (set_waits (waits w ++ [{| w_pause := pid; w_set := set; w_open := true |}]) w).

(** The [finally] of [wait]. *)
Definition forget (pid : string) (w : PauseWaiter) : PauseWaiter :=
  {| objects := objects w; waits := waits w; _events := delete pid (_events w);
     _resolutions := _resolutions w; _pending := od_del pid (_pending w);
     _legacy_claims := delete pid (_legacy_claims w); _pause_deadlines := delete pid (_pause_deadlines w) |}.

Definition close_wait (i : nat) (x : waiting) (w : PauseWaiter) : PauseWaiter :=
  set_waits (<[i := {| w_pause := w_pause x; w_set := w_set x; w_open := false |}]> (waits w)) w.

Definition deny : PauseResolution := {| decision := "deny"; data := PDict [] |}.

(** [wait] resumes once its event is set; [None] when it cannot. *)
Definition wait_return (i : nat) (w : PauseWaiter) : option PauseResolution * PauseWaiter :=
  match waits w !! i with
  | Some x =>
      if w_open x && w_set x then
        let pid := w_pause x in
        (Some (default deny (_resolutions w !! pid)),
         forget pid (close_wait i x (set_resolutions (delete pid (_resolutions w)) w)))
      else (None, w)
  | None => (None, w)
  end.

(** The timeout passes, or the task is cancelled. *)
Definition wait_abort (i : nat) (w : PauseWaiter) : PauseWaiter :=
  match waits w !! i with
  | Some x => if w_open x then forget (w_pause x) (close_wait i x w) else w
  | None => w
  end.

Definition expired (w : PauseWaiter) (pid : string) (now : Z) : bool :=
  match _pause_deadlines w !! pid with Some d => d <=? now | None => false end.

(** [filter is not None and value != filter] *)
Definition differs (wanted : option string) (value : option string) : bool :=
  match wanted with Some s => negb (bool_decide (value = Some s)) | None => false end.

Definition live_escalation (w : PauseWaiter) (now : string → Z) (p : PendingPause) : bool :=
  negb (bool_decide (pause_type p = "escalation") && expired w (pause_id p) (now (pause_id p))).

Record pause_filter := {
  f_task : option string; f_session : option string; f_conversation : option string;
  f_step : option string; f_type : option string;
}.

Definition passes (f : pause_filter) (p : PendingPause) : bool :=
  negb (differs (f_task f) (task_id p)) && negb (differs (f_session f) (session_id p)) &&
  negb (differs (f_conversation f) (conversation_id p)) && negb (differs (f_step f) (step_name p)) &&
  negb (differs (f_type f) (Some (pause_type p))).

Definition pending_values (w : PauseWaiter) : list PendingPause := omap (λ x, object_at w x.2) (_pending w).

Definition find_pending (w : PauseWaiter) (now : string → Z) (f : pause_filter) (include_resolved : bool) :
    option PendingPause :=
  head (filter (λ p, (negb (resolved p) || include_resolved) && live_escalation w now p && passes f p = true)
    (pending_values w)).

Definition list_pending (w : PauseWaiter) (now : string → Z) (f : pause_filter) : list PendingPause :=
  filter (λ p, negb (resolved p) && live_escalation w now p && passes f p = true) (pending_values w).

Definition pending_count (w : PauseWaiter) : nat := length (filter (λ p, resolved p = false) (pending_values w)).

(** [token] is the new [uuid4]. *)
Definition claim_escalation (pid conversation : string) (require_unique : bool) (now : string → Z) (later : string → Z)
    (token : string) (w : PauseWaiter) : option string * PauseWaiter :=
  match lookup_pending w pid with
  | None => (None, w)
  | Some (r, p) =>
      if resolved p || negb (bool_decide (pause_type p = "escalation")) ||
         negb (bool_decide (conversation_id p = Some conversation)) || is_claimed w pid || expired w pid (now pid)
      then (None, w)
      else if require_unique &&
        negb (length (list_pending w later {| f_task := None; f_session := None; f_conversation := Some conversation;
                                              f_step := None; f_type := Some "escalation" |}) =? 1)%nat
      then (None, w)
      else (Some token, set_claims (<[pid := (r, token)]> (_legacy_claims w)) w)
  end.

(** The claim of the pause that is pending, held with this token. *)
Definition owns (w : PauseWaiter) (pid : string) (r : nat) (token : string) : bool :=
  bool_decide (_legacy_claims w !! pid = Some (r, token)).

Definition release_escalation_claim (pid token : string) (now : Z) (w : PauseWaiter) : bool * PauseWaiter :=
  match lookup_pending w pid with
  | None => (false, w)
  | Some (r, p) =>
      if negb (owns w pid r token) || resolved p || expired w pid now then (false, w)
      else (true, set_claims (delete pid (_legacy_claims w)) w)
  end.

Definition mark_resolved (r : nat) (p : PendingPause) (w : PauseWaiter) : PauseWaiter :=
  set_objects (<[r := {| pause_id := pause_id p; pause_type := pause_type p; task_id := task_id p;
    step_name := step_name p; step_run_id := step_run_id p; session_id := session_id p;
    conversation_id := conversation_id p; details := details p; resolved := true |}]> (objects w)) w.

(** [event.set()] on the event of a pause, if there is one. *)
Definition set_event (pid : string) (w : PauseWaiter) : PauseWaiter :=
  match _events w !! pid with
  | Some i => set_waits (alter (λ x, {| w_pause := w_pause x; w_set := true; w_open := w_open x |}) i (waits w)) w
  | None => w
  end.

Definition resolve (pid : string) (resolution : PauseResolution) (claim : option string) (now : Z) (w : PauseWaiter) :
    bool * PauseWaiter :=
  match lookup_pending w pid with
  | None => (false, w)
  | Some (r, p) =>
      if resolved p then (false, w)
      else if match claim with
              | Some token => negb (owns w pid r token) || expired w pid now
              | None => is_claimed w pid
              end then (false, w)
      else (true, set_event pid (set_resolutions (<[pid := resolution]> (_resolutions w)) (mark_resolved r p w)))
  end.

Definition clear (pid : string) (w : PauseWaiter) : PauseWaiter :=
  forget pid (set_resolutions (delete pid (_resolutions w)) w).

Definition discard_unwatched (pid : string) (w : PauseWaiter) : bool * PauseWaiter :=
  match _events w !! pid with
  | Some _ => (false, w)
  | None => (true, clear pid w)
  end.

(** ** Histories *)

Inductive op :=
| New (p : PendingPause)
| Register (r : nat)
| Retarget (pid type conversation : string)
| WaitStart (pid : string) (timeout now : Z)
| WaitReturn (i : nat)
| WaitAbort (i : nat)
| Claim (pid conversation : string) (unique : bool) (now later : string → Z) (token : string)
| Release (pid token : string) (now : Z)
| Resolve (pid : string) (resolution : PauseResolution) (claim : option string) (now : Z)
| Clear (pid : string)
| Discard (pid : string).

Definition exec (w : PauseWaiter) (o : op) : PauseWaiter :=
  match o with
  | New p => new_pause p w
  | Register r => default w (register r w)
  | Retarget pid type conversation => retarget pid type conversation w
  | WaitStart pid timeout now => wait_start pid timeout now w
  | WaitReturn i => (wait_return i w).2
  | WaitAbort i => wait_abort i w
  | Claim pid conversation unique now later token => (claim_escalation pid conversation unique now later token w).2
  | Release pid token now => (release_escalation_claim pid token now w).2
  | Resolve pid resolution claim now => (resolve pid resolution claim now w).2
  | Clear pid => clear pid w
  | Discard pid => (discard_unwatched pid w).2
  end.

(** No step of a history is one of the [bad] ones, judged in the state it is taken in. *)
Fixpoint runs_without (bad : PauseWaiter → op → Prop) (w : PauseWaiter) (tr : list op) : Prop :=
  match tr with
  | [] => True
  | o :: tr => ¬ bad w o ∧ runs_without bad (exec w o) tr
  end.

Lemma run_without (I : PauseWaiter → Prop) bad w tr :
  (∀ w o, I w → ¬ bad w o → I (exec w o)) → I w → runs_without bad w tr → I (run exec w tr).
Proof.
  intros Hstep. revert w. induction tr as [|o tr IH]; intros w Hw; simpl; [done|]. intros [Ho Htr].
  apply IH; [by apply Hstep|done].
Qed.

(** ** Well-formed waiters: pending references point to objects of that id *)

Definition waiter_ok (w : PauseWaiter) : Prop :=
  ∀ k r, od_get k (_pending w) = Some r → ∃ p, object_at w r = Some p ∧ pause_id p = k.

(** What a step does to an object: it stays, and only becomes resolved. *)
Definition object_grows (w w' : PauseWaiter) : Prop :=
  ∀ r p, object_at w r = Some p →
    ∃ p', object_at w' r = Some p' ∧ pause_id p' = pause_id p ∧ (resolved p = true → resolved p' = true).

#[global] Instance object_grows_refl : Reflexive object_grows.
Proof. intros w r p Hp. by exists p. Qed.

Lemma object_grows_same w w' : objects w' = objects w → object_grows w w'.
Proof. intros H r p Hp. exists p. unfold object_at. by rewrite H. Qed.

Lemma object_grows_trans w1 w2 w3 : object_grows w1 w2 → object_grows w2 w3 → object_grows w1 w3.
Proof.
  intros H12 H23 r p Hp. destruct (H12 r p Hp) as (p2 & H2 & ? & ?).
  destruct (H23 r p2 H2) as (p3 & ? & ? & ?). exists p3. naive_solver congruence.
Qed.

Lemma object_grows_new p w : object_grows w (new_pause p w).
Proof. intros r q Hq. exists q. split; [|done]. by apply lookup_app_l_Some. Qed.

Lemma object_grows_insert w r p q :
  object_at w r = Some p → pause_id q = pause_id p → (resolved p = true → resolved q = true) →
  object_grows w (set_objects (<[r := q]> (objects w)) w).
Proof.
  intros Hp Hid Hres r' p' Hp'. unfold object_at in *. simpl. rewrite list_lookup_insert.
  destruct (decide _) as [[-> Hlt]|]; [|by exists p']. simplify_eq. by exists q.
Qed.

Lemma lookup_pending_some w pid r p :
  lookup_pending w pid = Some (r, p) ↔ od_get pid (_pending w) = Some r ∧ object_at w r = Some p.
Proof.
  unfold lookup_pending. split; [|intros [-> H]; simpl; by rewrite H].
  by intros (r' & ? & (p' & ? & [= <- <-])%bind_Some)%bind_Some.
Qed.

Lemma objects_set_event pid w : objects (set_event pid w) = objects w.
Proof. unfold set_event. by case_match. Qed.

Lemma object_grows_wait_start pid timeout now w : object_grows w (wait_start pid timeout now w).
Proof.
  unfold wait_start, set_default_deadline. destruct (od_get pid (_pending w)); simpl; case_match; simpl;
    (etrans || idtac); try (by apply object_grows_same);
    (eapply object_grows_trans; [apply (object_grows_new (unknown_pause pid))|by apply object_grows_same]).
Qed.

Lemma object_grows_resolve pid res claim now w : object_grows w (resolve pid res claim now w).2.
Proof.
  unfold resolve. destruct (lookup_pending w pid) as [[r p]|] eqn:Hp; [|done].
  apply lookup_pending_some in Hp as [_ Hp]. destruct (resolved p); [done|].
  match goal with |- context [if ?b then _ else _] => destruct b end; [done|]. simpl. apply (object_grows_trans _ (mark_resolved r p w)); [by eapply object_grows_insert|]. apply object_grows_same.
  by rewrite objects_set_event.
Qed.

Lemma exec_grows w o : object_grows w (exec w o).
Proof.
  destruct o; simpl.
  - apply object_grows_new.
  - unfold register. repeat case_match; by try apply object_grows_same.
  - unfold retarget. destruct (lookup_pending w pid) as [[r p]|] eqn:Hp; [|done].
    apply lookup_pending_some in Hp as [_ Hp]. by eapply object_grows_insert.
  - apply object_grows_wait_start.
  - unfold wait_return. repeat case_match; by try apply object_grows_same.
  - unfold wait_abort. repeat case_match; by try apply object_grows_same.
  - unfold claim_escalation. repeat case_match; by try apply object_grows_same.
  - unfold release_escalation_claim. repeat case_match; by try apply object_grows_same.
  - apply object_grows_resolve.
  - by apply object_grows_same.
  - unfold discard_unwatched. repeat case_match; by try apply object_grows_same.
Qed.

(** The table of pending pauses after a step, seen from one id. *)
Lemma exec_pending w o pid :
  waiter_ok w →
  od_get pid (_pending (exec w o)) = od_get pid (_pending w) ∨
  match o with
  | Register r => ∃ p, object_at w r = Some p ∧ pause_id p = pid ∧ od_get pid (_pending (exec w o)) = Some r ∧
                    (is_claimed w pid = true → od_get pid (_pending w) = Some r)
  | WaitStart p _ _ => p = pid ∧ od_get pid (_pending w) = None ∧
      od_get pid (_pending (exec w o)) = Some (length (objects w)) ∧
      object_at (exec w o) (length (objects w)) = Some (unknown_pause pid)
  | WaitReturn i | WaitAbort i => ∃ x, waits w !! i = Some x ∧ w_pause x = pid ∧ od_get pid (_pending (exec w o)) = None
  | Clear p | Discard p => p = pid ∧ od_get pid (_pending (exec w o)) = None
  | _ => False
  end.
Proof.
  intros Hok. destruct o; simpl; try (by left).
  - unfold register. destruct (object_at w r) as [p|] eqn:Hp; [|by left].
    destruct (is_claimed w (pause_id p) && _) eqn:Hc; [by left|]. simpl. rewrite od_get_set.
    destruct (decide (pid = pause_id p)) as [Hid|]; [right|by left]. exists p. split_and!; try done. intros Hcl.
    rewrite <- Hid, Hcl in Hc. simpl in Hc. by apply negb_false_iff, bool_decide_eq_true in Hc.
  - left. unfold retarget. by repeat case_match.
  - unfold wait_start, set_default_deadline. destruct (od_get pid0 (_pending w)) eqn:Hg; simpl.
    { left. by case_match. }
    assert (∀ w', _pending w' = od_set pid0 (length (objects w)) (_pending w) →
      od_get pid (_pending w') = if decide (pid = pid0) then Some (length (objects w)) else od_get pid (_pending w)) as Hset
      by (intros w' ->; apply od_get_set).
    destruct (decide (pid = pid0)) as [->|Hne]; [right|left].
    + case_match; simpl; (split_and!; [done|done|rewrite od_get_set; by rewrite decide_True|]); unfold object_at; simpl;
        by rewrite lookup_app_r, Nat.sub_diag by lia.
    + case_match; simpl; rewrite od_get_set; by rewrite decide_False.
  - unfold wait_return. destruct (waits w !! i) as [x|] eqn:Hx; [|by left]. destruct (w_open x && w_set x); [|by left].
    simpl. rewrite od_get_del. case_decide; [right|by left]. by exists x.
  - unfold wait_abort. destruct (waits w !! i) as [x|] eqn:Hx; [|by left]. destruct (w_open x); [|by left].
    simpl. rewrite od_get_del. case_decide; [right|by left]. by exists x.
  - left. unfold claim_escalation. by repeat case_match.
  - left. unfold release_escalation_claim. by repeat case_match.
  - left. unfold resolve, set_event. by repeat case_match.
  - rewrite od_get_del. case_decide; [by right|by left].
  - unfold discard_unwatched. destruct (_events w !! pid0); [by left|]. simpl. rewrite od_get_del.
    case_decide; [by right|by left].
Qed.

Lemma exec_waiter_ok w o : waiter_ok w → waiter_ok (exec w o).
Proof.
  intros Hok k r Hr.
  assert (∀ r, od_get k (_pending w) = Some r → ∃ p, object_at (exec w o) r = Some p ∧ pause_id p = k) as Hold.
  { clear Hr. intros r' (p & Hp & <-)%Hok. destruct (exec_grows w o r' p Hp) as (p' & ? & ? & _). by exists p'. }
  destruct (exec_pending w o k Hok) as [Heq|Hcase]; [rewrite Heq in Hr; by apply Hold|].
  destruct o; try done.
  - destruct Hcase as (p & Hp & Hid & Hg & _). rewrite Hg in Hr. injection Hr as <-.
    destruct (exec_grows w (Register r0) r0 p Hp) as (p' & ? & ? & _). exists p'. split; [done|congruence].
  - destruct Hcase as (-> & _ & Hg & Hat). rewrite Hg in Hr. injection Hr as <-. by eexists.
  - destruct Hcase as (x & _ & _ & Hg). by rewrite Hg in Hr.
  - destruct Hcase as (x & _ & _ & Hg). by rewrite Hg in Hr.
  - destruct Hcase as [_ Hg]. by rewrite Hg in Hr.
  - destruct Hcase as [_ Hg]. by rewrite Hg in Hr.
Qed.

Lemma init_ok : waiter_ok init.
Proof. by intros k r ?. Qed.

Lemma run_ok w tr : waiter_ok w → waiter_ok (run exec w tr).
Proof. intros Hw. apply run_invariant; [done|]. intros; by apply exec_waiter_ok. Qed.

(** ** A pause is resolved once *)

Lemma resolve_true pid res claim now w :
  (resolve pid res claim now w).1 = true →
  ∃ r p, lookup_pending w pid = Some (r, p) ∧ resolved p = false ∧
    (resolve pid res claim now w).2 =
      set_event pid (set_resolutions (<[pid := res]> (_resolutions w)) (mark_resolved r p w)).
Proof.
  unfold resolve. destruct (lookup_pending w pid) as [[r p]|]; [|done]. destruct (resolved p) eqn:Hres; [done|].
  match goal with |- context [if ?b then _ else _] => destruct b end; [done|]. intros _. by exists r, p.
Qed.

Lemma resolved_at_most_once pid r p w :
  lookup_pending w pid = Some (r, p) → resolved p = true →
  (∀ res claim now, resolve pid res claim now w = (false, w)) ∧
  (∀ c unique now later token, claim_escalation pid c unique now later token w = (None, w)).
Proof. intros Hp Hres. unfold resolve, claim_escalation. by rewrite Hp, Hres. Qed.

(** A pause is resolved exactly once: after a call of [resolve] that returned true,
    whatever happens, as long as the same pause is pending every other call is refused
    without effect, and so is every claim. *)
Theorem pause_resolved_once w pid r res claim now tr :
  (resolve pid res claim now w).1 = true → od_get pid (_pending w) = Some r →
  let w2 := run exec (resolve pid res claim now w).2 tr in
  od_get pid (_pending w2) = Some r →
  (∀ res' claim' now', resolve pid res' claim' now' w2 = (false, w2)) ∧
  (∀ c unique now' later token, claim_escalation pid c unique now' later token w2 = (None, w2)).
Proof.
  intros (r' & p & Hp & _ & Heq)%resolve_true Hr w2 Hr2. apply lookup_pending_some in Hp as [Hr' Hp].
  assert (r' = r) as -> by congruence.
  assert (∃ p', object_at (resolve pid res claim now w).2 r = Some p' ∧ resolved p' = true) as (p1 & H1 & Hres1).
  { rewrite Heq. unfold object_at. rewrite objects_set_event. simpl.
    rewrite list_lookup_insert_eq by (by apply lookup_lt_Some in Hp). by eexists. }
  assert (∀ tr w, object_grows w (run exec w tr)) as Hrun.
  { clear. induction tr as [|o tr IH]; intros w; [done|]. rewrite run_cons.
    eapply object_grows_trans; [apply exec_grows|apply IH]. }
  destruct (Hrun tr _ r p1 H1) as (p2 & H2 & _ & Hres2).
  apply (resolved_at_most_once pid r p2); [by apply lookup_pending_some|by apply Hres2].
Qed.

(** ** A claim excludes everybody else *)

(** The steps that end a claim: its owner's, the end of the wait, and clearing. *)
Definition settles (pid token : string) (w : PauseWaiter) (o : op) : Prop :=
  match o with
  | WaitReturn i | WaitAbort i => ∃ x, waits w !! i = Some x ∧ w_pause x = pid
  | Clear p | Discard p => p = pid
  | Release p t _ | Resolve p _ (Some t) _ => p = pid ∧ t = token
  | _ => False
  end.

Record claimed (pid token : string) (r : nat) (w : PauseWaiter) : Prop := {
  cl_ok : waiter_ok w;
  cl_pending : od_get pid (_pending w) = Some r;
  cl_claim : _legacy_claims w !! pid = Some (r, token);
  cl_open : ∃ p, object_at w r = Some p ∧ resolved p = false;
}.

Lemma claimed_is_claimed pid token r w : claimed pid token r w → is_claimed w pid = true.
Proof. intros [_ _ Hc _]. unfold is_claimed. rewrite Hc. by apply bool_decide_eq_true_2. Qed.

Lemma claimed_owns pid token r w t : claimed pid token r w → owns w pid r t = bool_decide (t = token).
Proof. intros [_ _ Hc _]. unfold owns. rewrite Hc. apply bool_decide_ext. naive_solver. Qed.

Lemma claimed_lookup pid token r w :
  claimed pid token r w → ∃ p, lookup_pending w pid = Some (r, p) ∧ resolved p = false ∧ pause_id p = pid.
Proof.
  intros [Hok Hp _ (p & Hat & Hres)]. exists p. split; [by apply lookup_pending_some|]. split; [done|].
  destruct (Hok pid r Hp) as (p' & ? & ?). by simplify_eq.
Qed.

(** What others attempt on a claimed pause is refused. *)
Lemma claimed_refuses pid token r w :
  claimed pid token r w →
  (∀ res now, resolve pid res None now w = (false, w)) ∧
  (∀ res t now, t ≠ token → resolve pid res (Some t) now w = (false, w)) ∧
  (∀ t now, t ≠ token → release_escalation_claim pid t now w = (false, w)) ∧
  (∀ c unique now later t, claim_escalation pid c unique now later t w = (None, w)) ∧
  (∀ r' p', object_at w r' = Some p' → pause_id p' = pid → r' ≠ r → register r' w = None) ∧
  (∀ res now, expired w pid now = false → (resolve pid res (Some token) now w).1 = true).
Proof.
  intros Hc. destruct (claimed_lookup _ _ _ _ Hc) as (p & Hp & Hres & Hid).
  pose proof (claimed_is_claimed _ _ _ _ Hc) as Hcl.
  assert (∀ t, owns w pid r t = bool_decide (t = token)) as Hown by (intros; by apply claimed_owns).
  unfold resolve, release_escalation_claim, claim_escalation, register. rewrite Hp, Hres, Hcl.
  setoid_rewrite Hown. split_and!.
  - done.
  - intros res t now Ht. by rewrite bool_decide_eq_false_2.
  - intros t now Ht. by rewrite bool_decide_eq_false_2.
  - intros. by rewrite !orb_true_r.
  - intros r' p' -> -> Hne. rewrite Hcl, (cl_pending _ _ _ _ Hc), bool_decide_eq_false_2; [done|]. congruence.
  - intros res now ->. by rewrite bool_decide_eq_true_2.
Qed.

(** Other pauses' steps leave the object and the claim alone. *)
Lemma mark_other pid token r w pid' r' p' :
  claimed pid token r w → lookup_pending w pid' = Some (r', p') → pid' ≠ pid → r' ≠ r.
Proof.
  intros Hc [Hr' Hp']%lookup_pending_some Hne ->. destruct (cl_ok _ _ _ _ Hc _ _ Hr') as (q & Hq & Hid).
  destruct (cl_ok _ _ _ _ Hc _ _ (cl_pending _ _ _ _ Hc)) as (q' & Hq' & Hid'). congruence.
Qed.

Lemma claims_set_event pid w : _legacy_claims (set_event pid w) = _legacy_claims w.
Proof. unfold set_event. by case_match. Qed.

Definition same_claim (pid : string) (r : nat) (w w' : PauseWaiter) : Prop :=
  _legacy_claims w' !! pid = _legacy_claims w !! pid ∧
  (∀ p, object_at w r = Some p → ∃ p', object_at w' r = Some p' ∧ resolved p' = resolved p).

Lemma same_claim_forget pid r w w' q :
  objects w' = objects w → _legacy_claims w' = _legacy_claims w → q ≠ pid → same_claim pid r w (forget q w').
Proof.
  intros Ho Hc Hne. split; simpl; [by rewrite lookup_delete_ne, Hc|]. unfold object_at. simpl. rewrite Ho. eauto.
Qed.

Lemma same_claim_objects pid r w w' :
  _legacy_claims w' = _legacy_claims w → (∃ l, objects w' = objects w ++ l) → same_claim pid r w w'.
Proof.
  intros Hc [l Hl]. split; [by rewrite Hc|]. unfold object_at. rewrite Hl. intros p Hp. exists p.
  split; [by apply lookup_app_l_Some|done].
Qed.

Lemma same_claim_insert pid r w w' r' q :
  _legacy_claims w' = _legacy_claims w → objects w' = <[r' := q]> (objects w) →
  (r' = r → ∃ p, object_at w r = Some p ∧ resolved q = resolved p) → same_claim pid r w w'.
Proof.
  intros Hc Ho Hq. split; [by rewrite Hc|]. unfold object_at in *. rewrite Ho. intros p Hp. rewrite list_lookup_insert.
  destruct (decide _) as [[<- _]|]; [|eauto]. destruct Hq as (p' & ? & ?); [done|]. simplify_eq. eauto.
Qed.

Lemma claimed_same pid token r w o :
  claimed pid token r w → ¬ settles pid token w o → same_claim pid r w (exec w o).
Proof.
  intros Hc Hs. pose proof (claimed_refuses _ _ _ _ Hc) as (HresN & HresT & Hrel & Hcla & _ & _).
  assert (same_claim pid r w w) as Hw by (apply same_claim_objects; [done|exists []; by rewrite app_nil_r]).
  destruct o as [p|r0|p t c|p t n|i|i|p c b n l t|p t n|p res claim n|p|p]; simpl in *.
  - by apply same_claim_objects; [|eexists].
  - unfold register. repeat case_match; try done.
  - unfold retarget. destruct (lookup_pending w p) as [[r' p']|] eqn:Hp; [|done].
    eapply same_claim_insert; [done|done|]. intros ->. apply lookup_pending_some in Hp as [_ Hp]. by exists p'.
  - apply same_claim_objects; unfold wait_start, set_default_deadline; destruct (od_get p (_pending w)); simpl;
      case_match; simpl; try done; solve [by eexists|exists []; by rewrite app_nil_r].
  - unfold wait_return. destruct (waits w !! i) as [x|]; [|done]. destruct (w_open x && w_set x); [|done].
    apply same_claim_forget; [done|done|]. intros Heq. apply Hs. by exists x.
  - unfold wait_abort. destruct (waits w !! i) as [x|]; [|done]. destruct (w_open x); [|done].
    apply same_claim_forget; [done|done|]. intros Heq. apply Hs. by exists x.
  - destruct (decide (p = pid)) as [->|Hne]; [by rewrite Hcla|].
    unfold claim_escalation. destruct (lookup_pending w p) as [[r' p']|]; [|done].
    repeat case_match; try done. split; simpl; [by rewrite lookup_insert_ne|eauto].
  - destruct (decide (p = pid)) as [->|Hne]; [rewrite Hrel; [done|]; naive_solver|].
    unfold release_escalation_claim. destruct (lookup_pending w p) as [[r' p']|]; [|done].
    repeat case_match; try done. split; simpl; [by rewrite lookup_delete_ne|eauto].
  - destruct (decide (p = pid)) as [->|Hne].
    { destruct claim as [t|]; [rewrite HresT; [done|]; naive_solver|by rewrite HresN]. }
    destruct (resolve p res claim n w).1 eqn:Hres.
    + destruct (resolve_true _ _ _ _ _ Hres) as (r' & p' & Hp & _ & ->).
      pose proof (mark_other _ _ _ _ _ _ _ Hc Hp Hne). eapply same_claim_insert; [by rewrite claims_set_event|by rewrite objects_set_event|done].
    + assert ((resolve p res claim n w).2 = w) as ->; [|done]. revert Hres. unfold resolve. by repeat case_match.
  - by apply same_claim_forget.
  - unfold discard_unwatched. destruct (_events w !! p); [done|]. by apply same_claim_forget.
Qed.

Lemma claimed_exec pid token r w o :
  claimed pid token r w → ¬ settles pid token w o → claimed pid token r (exec w o).
Proof.
  intros Hc Hs. destruct (claimed_same _ _ _ _ _ Hc Hs) as [Hcl Hob]. split.
  - apply exec_waiter_ok, Hc.
  - rewrite <- (cl_pending _ _ _ _ Hc). destruct (exec_pending w o pid (cl_ok _ _ _ _ Hc)) as [?|Hcase]; [done|].
    rewrite (cl_pending _ _ _ _ Hc). destruct o; simpl in Hs; try done.
    + destruct Hcase as (p & _ & _ & Hg & Hgot). rewrite (cl_pending _ _ _ _ Hc) in Hgot.
      rewrite Hg. symmetry. apply Hgot. by eapply claimed_is_claimed.
    + destruct Hcase as (_ & Hn & _). by rewrite (cl_pending _ _ _ _ Hc) in Hn.
    + destruct Hs. destruct Hcase as (x & ? & ? & _). by exists x.
    + destruct Hs. destruct Hcase as (x & ? & ? & _). by exists x.
    + destruct Hs. naive_solver.
    + destruct Hs. naive_solver.
  - rewrite Hcl. apply Hc.
  - destruct (cl_open _ _ _ _ Hc) as (p & Hp & Hres). destruct (Hob p Hp) as (p' & ? & ?). exists p'. split; [done|congruence].
Qed.

(** C34. Once an approval is claimed, only the holder of the claim's token settles it: until
    the owner resolves or releases it, its wait ends or it is cleared, every other
    resolution, release and claim is refused without effect, the pause cannot be replaced,
    and before the deadline the owner's resolution succeeds. *)
Theorem claimed_pause_is_exclusive w pid conversation unique now later token tr :
  waiter_ok w →
  (claim_escalation pid conversation unique now later token w).1 = Some token →
  let w1 := (claim_escalation pid conversation unique now later token w).2 in
  runs_without (settles pid token) w1 tr →
  let w2 := run exec w1 tr in
  ∃ r, od_get pid (_pending w2) = od_get pid (_pending w) ∧ od_get pid (_pending w) = Some r ∧
  (∀ res now', resolve pid res None now' w2 = (false, w2)) ∧
  (∀ res t now', t ≠ token → resolve pid res (Some t) now' w2 = (false, w2)) ∧
  (∀ t now', t ≠ token → release_escalation_claim pid t now' w2 = (false, w2)) ∧
  (∀ c u now' later' t, claim_escalation pid c u now' later' t w2 = (None, w2)) ∧
  (∀ r' p', object_at w2 r' = Some p' → pause_id p' = pid → r' ≠ r → register r' w2 = None) ∧
  (∀ res now', expired w2 pid now' = false → (resolve pid res (Some token) now' w2).1 = true).
Proof.
  intros Hok Hcl w1 Htr w2.
  assert (∃ r, od_get pid (_pending w) = Some r ∧ claimed pid token r w1) as (r & Hr & Hc1).
  { subst w1. revert Hcl. unfold claim_escalation. destruct (lookup_pending w pid) as [[r p]|] eqn:Hp; [|done].
    apply lookup_pending_some in Hp as [Hr Hat]. destruct (resolved p) eqn:Hres; [done|].
    repeat case_match; try done; intros _; exists r; (split; [done|]);
      (split; [intros k r' Hk; by apply (Hok k r')|done|by apply lookup_insert_eq|by exists p]). }
  assert (claimed pid token r w2) as Hc2.
  { eapply (run_without (claimed pid token r)); [|done|done]. intros. by apply claimed_exec. }
  exists r. rewrite (cl_pending _ _ _ _ Hc2). split; [done|]. split; [done|]. by apply claimed_refuses.
Qed.

(** ** The answer reaches the one who waits *)

(** The steps that take the pause from under a waiting call: another wait on it, the end of
    the wait itself, clearing it, and putting another pause object in its place. *)
Definition disturbs (pid : string) (w : PauseWaiter) (o : op) : Prop :=
  match o with
  | WaitStart p _ _ | Clear p => p = pid
  | WaitReturn i | WaitAbort i => ∃ x, waits w !! i = Some x ∧ w_pause x = pid
  | Register r => ∃ p, object_at w r = Some p ∧ pause_id p = pid ∧ od_get pid (_pending w) ≠ Some r
  | _ => False
  end.

Definition waits_at (i : nat) (pid : string) (set : bool) (w : PauseWaiter) : Prop :=
  ∃ x, waits w !! i = Some x ∧ w_pause x = pid ∧ w_open x = true ∧ (set = true → w_set x = true).

(** The tables of a pause that a step of others keeps. *)
Definition same_wait (pid : string) (i : nat) (w w' : PauseWaiter) : Prop :=
  _events w' !! pid = _events w !! pid ∧ ∀ b, waits_at i pid b w → waits_at i pid b w'.

Lemma same_wait_tables pid i w w' : _events w' = _events w → waits w' = waits w → same_wait pid i w w'.
Proof. intros He Hw. split; [by rewrite He|]. unfold waits_at. by rewrite Hw. Qed.

Lemma same_wait_forget pid i w j x q w0 :
  waits w !! j = Some x → w_pause x = q → q ≠ pid → _events w0 = _events w → waits w0 = waits w →
  same_wait pid i w (forget q (close_wait j x w0)).
Proof.
  intros Hj Hx Hne He Hw. split; simpl; [by rewrite lookup_delete_ne, He|]. intros b (y & Hy & Hp & Hrest).
  exists y. simpl. rewrite Hw, list_lookup_insert_ne; [done|]. intros ->. congruence.
Qed.

Lemma events_set_event pid w : _events (set_event pid w) = _events w.
Proof. unfold set_event. by case_match. Qed.

Lemma waits_at_set_event q i pid b w : waits_at i pid b w → waits_at i pid b (set_event q w).
Proof.
  unfold set_event, waits_at. destruct (_events w !! q) as [j|]; [|done]. simpl. intros (x & Hx & ? & ? & Hs).
  destruct (decide (j = i)) as [->|Hne].
  - rewrite list_lookup_alter_eq, Hx. simpl. eexists. by split_and!.
  - rewrite list_lookup_alter_ne by done. by exists x.
Qed.

Lemma same_wait_resolve pid i q res claim now w : same_wait pid i w (resolve q res claim now w).2.
Proof.
  destruct (resolve q res claim now w).1 eqn:Hres.
  - destruct (resolve_true _ _ _ _ _ Hres) as (r & p & _ & _ & ->). split; [by rewrite events_set_event|].
    intros b Hb. by apply waits_at_set_event.
  - assert ((resolve q res claim now w).2 = w) as ->; [|done]. revert Hres. unfold resolve. by repeat case_match.
Qed.

Lemma exec_same_wait pid i w o : _events w !! pid = Some i → ¬ disturbs pid w o → same_wait pid i w (exec w o).
Proof.
  intros He Hd. destruct o as [p|r0|p t c|p t n|j|j|p c b n l t|p t n|p res claim n|p|p]; simpl in *.
  - by apply same_wait_tables.
  - unfold register. by repeat case_match.
  - unfold retarget. by repeat case_match.
  - unfold wait_start, set_default_deadline. split.
    + destruct (od_get p (_pending w)); simpl; case_match; simpl; by rewrite lookup_insert_ne.
    + intros b (x & Hx & Hrest). exists x. split; [|done].
      destruct (od_get p (_pending w)); simpl; case_match; simpl; by apply lookup_app_l_Some.
  - unfold wait_return. destruct (waits w !! j) as [x|] eqn:Hx; [|done]. destruct (w_open x && w_set x); [|done].
    eapply same_wait_forget; [done|done| |done|done]. intros Heq. apply Hd. by exists x.
  - unfold wait_abort. destruct (waits w !! j) as [x|] eqn:Hx; [|done]. destruct (w_open x); [|done].
    eapply same_wait_forget; [done|done| |done|done]. intros Heq. apply Hd. by exists x.
  - unfold claim_escalation. by repeat case_match.
  - unfold release_escalation_claim. by repeat case_match.
  - apply same_wait_resolve.
  - split; simpl; [by rewrite lookup_delete_ne|done].
  - unfold discard_unwatched. destruct (_events w !! p) eqn:Hp; [done|]. split; simpl; [|done].
    rewrite lookup_delete_ne; [done|]. congruence.
Qed.

(** The answer is there: the pause is resolved, its resolution kept, the event set. *)
Record answered (pid : string) (i : nat) (res : PauseResolution) (w : PauseWaiter) : Prop := {
  an_ok : waiter_ok w;
  an_wait : waits_at i pid true w;
  an_event : _events w !! pid = Some i;
  an_kept : _resolutions w !! pid = Some res;
  an_resolved : ∃ r p, lookup_pending w pid = Some (r, p) ∧ resolved p = true;
}.

Lemma resolution_kept pid w o r p :
  lookup_pending w pid = Some (r, p) → resolved p = true → ¬ disturbs pid w o →
  (∀ q, o = Discard q → is_Some (_events w !! pid)) →
  _resolutions (exec w o) !! pid = _resolutions w !! pid.
Proof.
  intros Hp Hres Hd Hdisc. destruct o as [q|r0|q t c|q t n|j|j|q c b n l t|q t n|q res claim n|q|q]; simpl in *; try done.
  - unfold register. by repeat case_match.
  - unfold retarget. by repeat case_match.
  - unfold wait_start, set_default_deadline. by destruct (od_get q (_pending w)); simpl; case_match.
  - unfold wait_return. destruct (waits w !! j) as [x|] eqn:Hx; [|done]. destruct (w_open x && w_set x); [|done].
    simpl. rewrite lookup_delete_ne; [done|]. intros Heq. apply Hd. by exists x.
  - unfold wait_abort. by repeat case_match.
  - unfold claim_escalation. by repeat case_match.
  - unfold release_escalation_claim. by repeat case_match.
  - destruct (decide (q = pid)) as [->|Hne]; [by rewrite (proj1 (resolved_at_most_once _ _ _ _ Hp Hres))|].
    destruct (resolve q res claim n w).1 eqn:Hr.
    + destruct (resolve_true _ _ _ _ _ Hr) as (r' & p' & _ & _ & ->). unfold set_event. case_match; simpl; by rewrite lookup_insert_ne.
    + revert Hr. unfold resolve. by repeat case_match.
  - by rewrite lookup_delete_ne.
  - unfold discard_unwatched. destruct (_events w !! q) eqn:Hq; [done|]. simpl. rewrite lookup_delete_ne; [done|].
    intros ->. destruct (Hdisc pid eq_refl). congruence.
Qed.

Lemma answered_exec pid i res w o : answered pid i res w → ¬ disturbs pid w o → answered pid i res (exec w o).
Proof.
  intros [Hok Hw He Hk (r & p & Hp & Hres)] Hd. destruct (exec_same_wait pid i w o He Hd) as [He' Hw'].
  pose proof (proj1 (lookup_pending_some _ _ _ _) Hp) as [Hr Hat].
  split; [by apply exec_waiter_ok|by apply Hw'|by rewrite He'| |].
  - rewrite <- Hk. eapply resolution_kept; [done|done|done|]. intros; by rewrite He.
  - destruct (exec_grows w o r p Hat) as (p' & Hat' & _ & Hres'). exists r, p'. split; [|by apply Hres'].
    apply lookup_pending_some. split; [|done]. rewrite <- Hr.
    destruct (exec_pending w o pid Hok) as [?|Hcase]; [done|]. destruct o; simpl in Hd; try done.
    + destruct Hcase as (q & Hq & Hid & Hg & _). rewrite Hg. destruct (decide (od_get pid (_pending w) = Some r0)) as [->|Hne]; [done|].
      destruct Hd. by exists q.
    + destruct Hcase as (-> & _). done.
    + destruct Hcase as (x & ? & ? & _). destruct Hd. by exists x.
    + destruct Hcase as (x & ? & ? & _). destruct Hd. by exists x.
    + destruct Hcase as (-> & _). done.
    + destruct Hcase as (-> & _). simpl. unfold discard_unwatched. by rewrite He.
Qed.

Lemma resolve_answers pid i res claim now w :
  waiter_ok w → _events w !! pid = Some i → waits_at i pid false w →
  (resolve pid res claim now w).1 = true → answered pid i res (resolve pid res claim now w).2.
Proof.
  intros Hok He (x & Hx & Hp & Hopen & _) Hres. destruct (resolve_true _ _ _ _ _ Hres) as (r & p & Hl & _ & Heq).
  split.
  - apply (exec_waiter_ok w (Resolve pid res claim now)), Hok.
  - rewrite Heq. unfold waits_at, set_event. simpl. rewrite He. simpl. rewrite list_lookup_alter_eq, Hx. simpl.
    eexists. by split_and!.
  - by rewrite Heq, events_set_event.
  - rewrite Heq. unfold set_event. case_match; simpl; apply lookup_insert_eq.
  - apply lookup_pending_some in Hl as [Hr Hat]. rewrite Heq. unfold lookup_pending, object_at. rewrite objects_set_event.
    assert (_pending (set_event pid (set_resolutions (<[pid:=res]> (_resolutions w)) (mark_resolved r p w))) = _pending w) as ->
      by (unfold set_event; by case_match).
    rewrite Hr. simpl. rewrite list_lookup_insert_eq by (by apply lookup_lt_Some in Hat). by eexists _, _.
Qed.

(** No table mentions the pause. *)
Definition forgotten (pid : string) (w : PauseWaiter) : Prop :=
  _events w !! pid = None ∧ _resolutions w !! pid = None ∧ od_get pid (_pending w) = None ∧
  _legacy_claims w !! pid = None ∧ _pause_deadlines w !! pid = None.

(** The answer reaches the one who waits: when a call of [resolve] returned true while
    [wait] was suspended on the pause, then whatever else happens, as long as nobody takes
    the pause from under the waiting call, [wait] resumes with exactly that resolution and
    forgets everything about the pause. *)
Theorem waiter_gets_the_resolution w pid timeout now tr res claim now' tr' :
  waiter_ok w →
  let i := length (waits w) in
  let w1 := wait_start pid timeout now w in
  runs_without (disturbs pid) w1 tr →
  let w2 := run exec w1 tr in
  (resolve pid res claim now' w2).1 = true →
  let w3 := (resolve pid res claim now' w2).2 in
  runs_without (disturbs pid) w3 tr' →
  let w4 := run exec w3 tr' in
  (wait_return i w4).1 = Some res ∧ forgotten pid (wait_return i w4).2.
Proof.
  intros Hok i w1 Htr w2 Hres w3 Htr' w4.
  assert (waiter_ok w1 ∧ _events w1 !! pid = Some i ∧ waits_at i pid false w1) as H1.
  { split; [apply (exec_waiter_ok w (WaitStart pid timeout now)), Hok|]. subst w1 i. unfold wait_start, set_default_deadline, waits_at.
    destruct (od_get pid (_pending w)); simpl; case_match; simpl; rewrite lookup_insert_eq;
      (split; [done|]); rewrite lookup_app_r, Nat.sub_diag by lia; eexists; by split_and!. }
  assert (waiter_ok w2 ∧ _events w2 !! pid = Some i ∧ waits_at i pid false w2) as (Hok2 & He2 & Hw2).
  { eapply (run_without (λ w, waiter_ok w ∧ _events w !! pid = Some i ∧ waits_at i pid false w)); [|exact H1|done].
    intros w0 o (? & He & Hw) Hd. destruct (exec_same_wait pid i w0 o He Hd) as [He' Hw'].
    split_and!; [by apply exec_waiter_ok|by rewrite He'|by apply Hw']. }
  assert (answered pid i res w4) as [_ (x & Hx & Hp & Ho & Hs) _ Hk _].
  { eapply (run_without (answered pid i res)); [|by apply resolve_answers|done]. intros. by apply answered_exec. }
  unfold wait_return. rewrite Hx, Ho, (Hs eq_refl), Hp, Hk. simpl. split; [done|].
  unfold forgotten. simpl. rewrite !lookup_delete_eq, od_get_del, decide_True by done. done.
Qed.

(** *** Concrete histories *)

Definition approval (pid conversation : string) : PendingPause :=
  {| pause_id := pid; pause_type := "escalation"; task_id := None; step_name := None; step_run_id := None;
     session_id := None; conversation_id := Some conversation; details := PNone; resolved := false |}.
Definition approve : PauseResolution := {| decision := "approve"; data := PDict [] |}.

(** One approval, registered and waited for. *)
Definition asked : PauseWaiter := run exec init [New (approval "p" "c"); Register 0; WaitStart "p" 300 0].

Lemma pause_resolved_once_witness :
  let w2 := run exec (resolve "p" approve None 1 asked).2 [Retarget "p" "gate" "d"; Resolve "p" deny None 2] in
  get w2 "p" ≠ None ∧
  (∀ res' claim' now', resolve "p" res' claim' now' w2 = (false, w2)) ∧
  (∀ c unique now' later token, claim_escalation "p" c unique now' later token w2 = (None, w2)).
Proof.
  split; [by vm_compute|]. by apply (pause_resolved_once asked "p" 0 approve None 1); vm_compute.
Defined.

Lemma claimed_pause_is_exclusive_witness :
  let w1 := (claim_escalation "p" "c" true (λ _, 1) (λ _, 1) "t" asked).2 in
  let w2 := run exec w1 [Resolve "p" deny None 2; Claim "p" "c" false (λ _, 2) (λ _, 2) "u"] in
  ∃ r, od_get "p" (_pending w2) = od_get "p" (_pending asked) ∧ od_get "p" (_pending asked) = Some r ∧
  (∀ res now', resolve "p" res None now' w2 = (false, w2)) ∧
  (∀ res t now', t ≠ "t" → resolve "p" res (Some t) now' w2 = (false, w2)) ∧
  (∀ t now', t ≠ "t" → release_escalation_claim "p" t now' w2 = (false, w2)) ∧
  (∀ c u now' later' t, claim_escalation "p" c u now' later' t w2 = (None, w2)) ∧
  (∀ r' p', object_at w2 r' = Some p' → pause_id p' = "p" → r' ≠ r → register r' w2 = None) ∧
  (∀ res now', expired w2 "p" now' = false → (resolve "p" res (Some "t") now' w2).1 = true).
Proof.
  apply claimed_pause_is_exclusive.
  - apply (run_ok init), init_ok.
  - by vm_compute.
  - split; [intros []|]. split; [intros []|]. done.
Defined.

Lemma waiter_gets_the_resolution_witness :
  let w := run exec init [New (approval "p" "c"); Register 0] in
  let w2 := run exec (wait_start "p" 300 0 w) [Resolve "q" deny None 1] in
  let w3 := (resolve "p" approve None 2 w2).2 in
  let w4 := run exec w3 [Resolve "p" deny None 3; Discard "p"] in
  (wait_return 0 w4).1 = Some approve ∧ forgotten "p" (wait_return 0 w4).2.
Proof.
  intros w. apply (waiter_gets_the_resolution w "p" 300 0 _ approve None 2).
  - apply (run_ok init), init_ok.
  - split; [intros []|done].
  - by vm_compute.
  - split; [intros []|]. split; [intros []|done].
Defined.

(** A second wait on a pause takes its event: the first is no longer woken, and when it
    times out it forgets the pause, so that the second is never answered either. *)
Example second_wait_starves_both :
  let w := run exec asked [WaitStart "p" 300 1; WaitAbort 0] in
  (resolve "p" approve None 2 w).1 = false ∧ (wait_return 1 w).1 = None.
Proof. by vm_compute. Qed.

(** A resolution that comes together with the timeout is kept, and answers the next wait. *)
Example late_resolution_is_kept :
  let w := run exec asked [Resolve "p" approve None 300; WaitAbort 0; WaitStart "p" 60 301] in
  (wait_return 1 w).1 = Some approve.
Proof. by vm_compute. Qed.
