(* ===== verification/Accumulator.v ===== *)
(** Assembling a model's streamed answer ([StreamAccumulator] of [cognis/core/agent_loop.py]).

    Chunks carry pieces of text, of tool calls and of reasoning; the accumulator turns them
    into the answer's text, its tool calls and blocks of thinking, with events for those who
    watch.  A chunk is a record of the fields the accumulator reads, empty where the wire
    object lacks them.  Texts are lists of code points, arguments of tool calls the Latin-1
    texts of [JsonStream].  Clock readings and the raw provider items that are only copied
    through are left out. *)

From S2P Require Import Prelude Str JsonStream.

(** ** Thinking blocks *)

Record ThinkingBlockState := {
  block_id : ustr;
  title : ustr;
  content_parts : list ustr;
  source : string;
  provider_block_index : option Z;
  complete : bool;
}.

Record ThinkingEvent := {
  ev_block_id : ustr;
  ev_delta : ustr;
  ev_title : ustr;
  ev_source : string;
  ev_complete : bool;
  ev_content : option ustr;
  ev_index : option Z;
}.

Definition _THINKING_TITLE_MAX_CHARS : nat := 60.
Definition _THINKING_TITLE_STOP_CHARS : list N := [46; 33; 63; 10]%N.

(** The index after the first stop character. *)
Fixpoint title_stop (s : ustr) : option nat :=
  match s with
  | [] => None
  | c :: s => if bool_decide (c ∈ _THINKING_TITLE_STOP_CHARS) then Some 1%nat else S <$> title_stop s
  end.

Definition _derive_thinking_title (s : ustr) : ustr :=
  match s with
  | [] => u "Thinking"
  | _ =>
      let t := match title_stop (take _THINKING_TITLE_MAX_CHARS s) with
               | Some i => ustrip (take i s)
               | None => urstrip (take _THINKING_TITLE_MAX_CHARS s) ++
                           (if (_THINKING_TITLE_MAX_CHARS <? length s)%nat then [8230%N] else [])
               end in
      match t with [] => u "Thinking" | _ => t end
  end.

Definition get_content (b : ThinkingBlockState) : ustr := concat (content_parts b).

Definition get_title (b : ThinkingBlockState) : ustr :=
  match title b with [] => _derive_thinking_title (get_content b) | t => t end.

Definition set_parts (b : ThinkingBlockState) (parts : list ustr) : ThinkingBlockState :=
  {| block_id := block_id b; title := title b; content_parts := parts; source := source b;
     provider_block_index := provider_block_index b; complete := complete b |}.

(** The new delta, with the block it was appended to: a value that repeats the content so far
    is taken for a snapshot of it. *)
Definition append_content (b : ThinkingBlockState) (value : ustr) : ustr * ThinkingBlockState :=
  match value with
  | [] => ([], b)
  | _ =>
      let existing := get_content b in
      match existing with
      | [] => (value, set_parts b (content_parts b ++ [value]))
      | _ =>
          match strip_prefix existing value with
          | Some [] => ([], b)
          | Some delta => (delta, set_parts b (content_parts b ++ [delta]))
          | None => (value, set_parts b (content_parts b ++ [value]))
          end
      end
  end.

(** ** Tool calls *)

Definition _MAX_TOOL_CALL_ARGUMENT_CHARS : nat := Z.to_nat 256000.
Definition _MAX_FAILED_TOOL_ARGUMENT_PREVIEW_CHARS : nat := Z.to_nat 4096.

Record tool_delta := { td_index : Z; td_id : ustr; td_name : ustr; td_arguments : text }.

Record tool_entry := {
  te_id : ustr;
  te_name : ustr;
  te_arguments : text;
  te_oversized : bool;
  te_length : nat;
}.

Record tool_progress := { tp_id : ustr; tp_name : ustr; tp_phase : ustr; tp_chars : Z; tp_lines : Z; tp_complete : bool }.

(** ** Chunks and the accumulator *)

Record choice := {
  finish : ustr;
  boundary : option (bool * option Z * ustr);
  progress : option tool_progress;
  content : ustr;
  calls : list tool_delta;
  reasoning : option ustr;
  reasoning_content : option ustr;
}.

Record StreamAccumulator := {
  acc_content_parts : list ustr;
  tool_calls : gmap Z tool_entry;
  _restored_tool_calls : gmap ustr tool_entry;
  finish_reason : ustr;
  _current_thinking_block : option ThinkingBlockState;
  _completed_thinking_blocks : list ThinkingBlockState;
  _thinking_block_counter : nat;
  _last_reasoning_source : option string;
  _pending_thinking_events : list ThinkingEvent;
  _pending_tool_progress_events : list tool_progress;
  _block_id_prefix : option ustr;
}.

(** [re.sub(r"[^a-zA-Z0-9_-]+", "_", s)]; [gap] tells that the last character was replaced. *)
Definition id_char (c : N) : bool :=
  ((97 <=? c) && (c <=? 122) || (65 <=? c) && (c <=? 90) || (48 <=? c) && (c <=? 57) || (c =? 95) || (c =? 45))%N.

Fixpoint sanitize (gap : bool) (s : ustr) : ustr :=
  match s with
  | [] => []
  | c :: s => if id_char c then c :: sanitize false s
              else if gap then sanitize true s else 95%N :: sanitize true s
  end.

Definition new_accumulator (block_id_prefix : ustr) : StreamAccumulator :=
  {| acc_content_parts := []; tool_calls := ∅; _restored_tool_calls := ∅; finish_reason := u "stop"; _current_thinking_block := None;
     _completed_thinking_blocks := []; _thinking_block_counter := 0; _last_reasoning_source := None;
     _pending_thinking_events := []; _pending_tool_progress_events := [];
     _block_id_prefix := match block_id_prefix with [] => None | p => Some (sanitize false p) end |}.

Definition set_thinking (a : StreamAccumulator) (cur : option ThinkingBlockState) (completed : list ThinkingBlockState)
    (counter : nat) (last : option string) (events : list ThinkingEvent) : StreamAccumulator :=
  {| acc_content_parts := acc_content_parts a; tool_calls := tool_calls a;
     _restored_tool_calls := _restored_tool_calls a; finish_reason := finish_reason a;
     _current_thinking_block := cur; _completed_thinking_blocks := completed; _thinking_block_counter := counter;
     _last_reasoning_source := last; _pending_thinking_events := events;
     _pending_tool_progress_events := _pending_tool_progress_events a; _block_id_prefix := _block_id_prefix a |}.

Definition set_answer (a : StreamAccumulator) (parts : list ustr)
    (m : gmap Z tool_entry * gmap ustr tool_entry) (fin : ustr) (events : list tool_progress) : StreamAccumulator :=
  {| acc_content_parts := parts; tool_calls := m.1; _restored_tool_calls := m.2; finish_reason := fin;
     _current_thinking_block := _current_thinking_block a; _completed_thinking_blocks := _completed_thinking_blocks a;
     _thinking_block_counter := _thinking_block_counter a; _last_reasoning_source := _last_reasoning_source a;
     _pending_thinking_events := _pending_thinking_events a; _pending_tool_progress_events := events;
     _block_id_prefix := _block_id_prefix a |}.

Definition call_state (a : StreamAccumulator) : gmap Z tool_entry * gmap ustr tool_entry :=
  (tool_calls a, _restored_tool_calls a).

Definition with_complete (b : ThinkingBlockState) : ThinkingBlockState :=
  {| block_id := block_id b; title := title b; content_parts := content_parts b; source := source b;
     provider_block_index := provider_block_index b; complete := true |}.

Definition _close_thinking_block (a : StreamAccumulator) : StreamAccumulator :=
  match _current_thinking_block a with
  | None => a
  | Some b =>
      match content_parts b with
      | [] => set_thinking a None (_completed_thinking_blocks a) (_thinking_block_counter a)
                (_last_reasoning_source a) (_pending_thinking_events a)
      | _ =>
          let event := {| ev_block_id := block_id b; ev_delta := []; ev_title := get_title b; ev_source := source b;
                          ev_complete := true; ev_content := Some (get_content b); ev_index := provider_block_index b |} in
          set_thinking a None (_completed_thinking_blocks a ++ [with_complete b]) (_thinking_block_counter a)
            (_last_reasoning_source a) (_pending_thinking_events a ++ [event])
      end
  end.

Definition make_block_id (prefix : option ustr) (n : nat) : ustr :=
  match prefix with
  | Some p => u "thk_" ++ p ++ u "_" ++ u (pretty n)
  | None => u "thk_" ++ u (pretty n)
  end.

Definition _open_thinking_block (src : string) (index : option Z) (provider_title : ustr) (a : StreamAccumulator) :
    StreamAccumulator :=
  let a := _close_thinking_block a in
  let n := S (_thinking_block_counter a) in
  let block := {| block_id := make_block_id (_block_id_prefix a) n; title := provider_title; content_parts := [];
                  source := src; provider_block_index := index; complete := false |} in
  set_thinking a (Some block) (_completed_thinking_blocks a) n (_last_reasoning_source a) (_pending_thinking_events a).

(** A piece of reasoning: a change of source starts a block, and so does the absence of one. *)
Definition feed_reasoning (src : string) (value : ustr) (a : StreamAccumulator) : StreamAccumulator :=
  let a := match _last_reasoning_source a with
           | Some last => if bool_decide (last = src) then a else _open_thinking_block src None [] a
           | None => a
           end in
  let a := set_thinking a (_current_thinking_block a) (_completed_thinking_blocks a) (_thinking_block_counter a)
             (Some src) (_pending_thinking_events a) in
  let a := match _current_thinking_block a with Some _ => a | None => _open_thinking_block src None [] a end in
  match _current_thinking_block a with
  | None => a
  | Some b =>
      let (delta, b) := append_content b value in
      let events := match delta with
                    | [] => []
                    | _ => [{| ev_block_id := block_id b; ev_delta := delta; ev_title := get_title b; ev_source := src;
                               ev_complete := false; ev_content := None; ev_index := provider_block_index b |}]
                    end in
      set_thinking a (Some b) (_completed_thinking_blocks a) (_thinking_block_counter a) (Some src)
        (_pending_thinking_events a ++ events)
  end.

(** The source and text of a chunk's reasoning, summaries first. *)
Definition reasoning_of (c : choice) : option (string * ustr) :=
  match reasoning c, reasoning_content c with
  | Some ((_ :: _) as t), _ => Some ("summary", t)
  | _, Some ((_ :: _) as t) => Some ("content", t)
  | _, _ => None
  end.

Section Json.
Context {obj : Type} `{EqDecision obj}.
Context (loads : text → decoded (obj:=obj)) (raw_decode : text → nat → option (option obj * nat)).

Definition blank_entry (id : ustr) : tool_entry :=
  {| te_id := id; te_name := []; te_arguments := []; te_oversized := false; te_length := 0 |}.

(** One delta of a call that has an entry. *)
Definition feed_delta (e : tool_entry) (d : tool_delta) : tool_entry :=
  let id := match td_id d with [] => te_id e | i => i end in
  let name := match td_name d with [] => te_name e | n => n end in
  match td_arguments d with
  | [] => {| te_id := id; te_name := name; te_arguments := te_arguments e; te_oversized := te_oversized e;
             te_length := te_length e |}
  | incoming =>
      if te_oversized e then
        {| te_id := id; te_name := name; te_arguments := te_arguments e; te_oversized := true;
           te_length := te_length e + length incoming |}
      else
        let merged := merged (merge_incremental_json_fragment loads (te_arguments e) incoming) in
        if (_MAX_TOOL_CALL_ARGUMENT_CHARS <? length merged)%nat then
          {| te_id := id; te_name := name; te_arguments := take _MAX_FAILED_TOOL_ARGUMENT_PREVIEW_CHARS merged;
             te_oversized := true; te_length := length merged |}
        else {| te_id := id; te_name := name; te_arguments := merged; te_oversized := false; te_length := length merged |}
  end.

(** [_seed_from_restored]: the entry held aside under a call id is taken out. *)
Definition _seed_from_restored (r : gmap ustr tool_entry) (id : ustr) : option (tool_entry * gmap ustr tool_entry) :=
  match id with
  | [] => None
  | _ => e ← r !! ustrip id; Some (e, delete (ustrip id) r)
  end.

(** The entry of a delta's index: restored under its id, or blank. *)
Definition entry_for (m : gmap Z tool_entry) (r : gmap ustr tool_entry) (d : tool_delta) :
    tool_entry * gmap ustr tool_entry :=
  match m !! td_index d with
  | Some e => (e, r)
  | None =>
      match _seed_from_restored r (td_id d) with
      | Some (e, r) =>
          ({| te_id := match te_id e with [] => td_id d | i => i end; te_name := te_name e;
              te_arguments := te_arguments e; te_oversized := te_oversized e; te_length := te_length e |}, r)
      | None => (blank_entry (td_id d), r)
      end
  end.

(** An id that comes after its entry may still find a restored one. *)
Definition late_restore (e : tool_entry) (r : gmap ustr tool_entry) (d : tool_delta) : tool_entry * gmap ustr tool_entry :=
  match td_id d, te_arguments e, te_name e with
  | _ :: _, [], [] =>
      match _seed_from_restored r (td_id d) with
      | Some (e', r) =>
          ({| te_id := td_id d; te_name := te_name e'; te_arguments := te_arguments e'; te_oversized := te_oversized e;
              te_length := te_length e |}, r)
      | None => (e, r)
      end
  | _, _, _ => (e, r)
  end.

Definition feed_call (m : gmap Z tool_entry * gmap ustr tool_entry) (d : tool_delta) :
    gmap Z tool_entry * gmap ustr tool_entry :=
  let (e, r) := entry_for m.1 m.2 d in
  let (e, r) := late_restore e r d in
  (<[td_index d := feed_delta e d]> m.1, r).

(** [feed]: the returned text delta, and the accumulator.  Absent content is empty content. *)
Definition feed (a : StreamAccumulator) (c : choice) : option ustr * StreamAccumulator :=
  let a := set_answer a (acc_content_parts a) (call_state a) (match finish c with [] => finish_reason a | f => f end)
             (_pending_tool_progress_events a) in
  match boundary c with
  | Some (true, _, _) => (None, _close_thinking_block a)
  | Some (false, index, t) => (None, _open_thinking_block "summary" index t a)
  | None =>
      match progress c with
      | Some p =>
          match ustrip (tp_id p) with
          | [] => (None, a)
          | id =>
              let a := _close_thinking_block a in
              let p := {| tp_id := id; tp_name := match tp_name p with [] => u "unknown_tool" | n => n end;
                          tp_phase := match tp_phase p with [] => u "preparing_input" | n => n end;
                          tp_chars := Z.max 0 (tp_chars p); tp_lines := Z.max 0 (tp_lines p);
                          tp_complete := tp_complete p |} in
              (None, set_answer a (acc_content_parts a) (call_state a) (finish_reason a)
                       (_pending_tool_progress_events a ++ [p]))
          end
      | None =>
          let a := match content c with
                   | [] => a
                   | t => let a := _close_thinking_block a in
                          set_answer a (acc_content_parts a ++ [t]) (call_state a) (finish_reason a)
                            (_pending_tool_progress_events a)
                   end in
          let a := match calls c with
                   | [] => a
                   | ds => let a := _close_thinking_block a in
                           set_answer a (acc_content_parts a) (foldl feed_call (call_state a) ds) (finish_reason a)
                             (_pending_tool_progress_events a)
                   end in
          let a := match reasoning_of c with Some (src, t) => feed_reasoning src t a | None => a end in
          (Some (content c), a)
      end
  end.

Definition pop_thinking_events (a : StreamAccumulator) : list ThinkingEvent * StreamAccumulator :=
  (_pending_thinking_events a,
   set_thinking a (_current_thinking_block a) (_completed_thinking_blocks a) (_thinking_block_counter a)
     (_last_reasoning_source a) []).

Definition finalize_thinking (a : StreamAccumulator) : list ThinkingBlockState * StreamAccumulator :=
  let a := _close_thinking_block a in (_completed_thinking_blocks a, a).

Definition answer_text (a : StreamAccumulator) : ustr := concat (acc_content_parts a).

(** Calls of a failed attempt, by call id; those without one are dropped. *)
Definition restore_tool_call_state (state : list (Z * tool_entry)) (a : StreamAccumulator) : StreamAccumulator :=
  let keep r x := match ustrip (te_id x.2) with [] => r | id => <[id := x.2]> r end in
  set_answer a (acc_content_parts a) (∅, foldl keep (∅ : gmap ustr tool_entry) state) (finish_reason a)
    (_pending_tool_progress_events a).

Definition clone_tool_call_state (a : StreamAccumulator) : gmap Z tool_entry := tool_calls a.

Definition reset (a : StreamAccumulator) : StreamAccumulator :=
  {| acc_content_parts := []; tool_calls := ∅; _restored_tool_calls := _restored_tool_calls a;
     finish_reason := finish_reason a; _current_thinking_block := None; _completed_thinking_blocks := [];
     _thinking_block_counter := 0; _last_reasoning_source := None; _pending_thinking_events := [];
     _pending_tool_progress_events := []; _block_id_prefix := _block_id_prefix a |}.

(** ** The calls *)

Inductive tool_result :=
| ToolCall (call_id name : ustr) (arguments : obj) (provider_arguments_json : option text)
| ToolArgumentParseFailure (call_id name : ustr) (raw : text) (reason : string) (argument_length : nat).

(** What building a [ToolCall] from arguments that are no object raises. *)
Inductive CallError := ValidationError (call_id : ustr) | OutOfFuel.

Definition json_space (c : Ascii.ascii) : bool :=
  bool_decide (c ∈ [Ascii.ascii_of_nat 32; Ascii.ascii_of_nat 9; Ascii.ascii_of_nat 10; Ascii.ascii_of_nat 13]).

Fixpoint skip_space (s : text) : nat :=
  match s with
  | c :: s => if json_space c then S (skip_space s) else 0%nat
  | [] => 0%nat
  end.

(** The loop of [_try_split_concatenated_json] at a position. *)
Fixpoint split_loop (fuel : nat) (raw : text) (pos : nat) (results : list obj) : option (option (list obj)) :=
  match fuel with
  | O => None
  | S fuel =>
      let pos := (pos + skip_space (drop pos raw))%nat in
      if (length raw <=? pos)%nat then Some (Some results) else
      match raw_decode raw pos with
      | Some (Some o, e) => split_loop fuel raw e (results ++ [o])
      | _ => Some None
      end
  end.

Definition _try_split_concatenated_json (raw : text) : option (option (list obj)) :=
  let raw := strip raw in
  if negb (startswith raw (tx "{")) then Some None else
  r ← split_loop (S (length raw)) raw 0 [];
  Some (match r with Some ((_ :: _ :: _) as os) => Some os | _ => None end).

Definition _NON_EMPTY_TOOL_ARGUMENT_NAMES : list ustr := [u "apply_patch"].

(** One finished call: [empty] is the object of no arguments, [fresh] the id of a call
    that came without one. *)
Definition finish_call (empty : obj) (fresh : ustr) (e : tool_entry) : result CallError tool_result :=
  let id := match te_id e with [] => fresh | i => i end in
  if te_oversized e then
    Ok (ToolArgumentParseFailure id (te_name e) (te_arguments e) "tool_call_arguments_too_large" (te_length e))
  else match te_arguments e with
  | [] =>
      if bool_decide (te_name e ∈ _NON_EMPTY_TOOL_ARGUMENT_NAMES)
      then Ok (ToolArgumentParseFailure id (te_name e) [] "invalid_json" 0)
      else Ok (ToolCall id (te_name e) empty (Some []))
  | raw =>
      match loads raw with
      | Object o => Ok (ToolCall id (te_name e) o (Some raw))
      | OtherValue => Err (ValidationError id)
      | JSONDecodeError _ _ =>
          match _try_split_concatenated_json raw with
          | None => Err OutOfFuel
          | Some (Some os) => Ok (ToolCall id (te_name e) (List.last os empty) None)
          | Some None =>
              match recover_trailing_json_object raw_decode raw with
              | Some o => Ok (ToolCall id (te_name e) o None)
              | None => Ok (ToolArgumentParseFailure id (te_name e) raw "invalid_json" (length raw))
              end
          end
      end
  end.

Definition index_le (x y : Z * tool_entry) : Prop := x.1 ≤ y.1.

#[local] Instance index_le_dec x y : Decision (index_le x y).
Proof. unfold index_le. apply _. Defined.

Definition sorted_calls (m : gmap Z tool_entry) : list (Z * tool_entry) :=
  merge_sort index_le (map_to_list m).

Definition get_tool_calls (empty : obj) (fresh : Z → ustr) (a : StreamAccumulator) : result CallError (list tool_result) :=
  result_map (λ x, finish_call empty (fresh x.1) x.2) (sorted_calls (tool_calls a)).

(** ** Streams *)

Definition feed_all (a : StreamAccumulator) (cs : list choice) : StreamAccumulator := foldl (λ a c, (feed a c).2) a cs.

(** The deltas of calls in the order they count: chunks that mark a boundary of reasoning or
    progress of a tool carry none. *)
Definition live_deltas (c : choice) : list tool_delta :=
  match boundary c, progress c with None, None => calls c | _, _ => [] end.

Definition deltas_at (i : Z) (ds : list tool_delta) : list tool_delta := filter (λ d, td_index d = i) ds.

Definition entry_of (ds : list tool_delta) : option tool_entry :=
  match ds with [] => None | d :: _ => Some (foldl feed_delta (blank_entry (td_id d)) ds) end.

Definition fragments (ds : list tool_delta) : list text := filter (λ t, t ≠ []) (td_arguments <$> ds).

Lemma call_state_close a : call_state (_close_thinking_block a) = call_state a.
Proof. unfold _close_thinking_block. by repeat case_match. Qed.

Lemma call_state_open src i t a : call_state (_open_thinking_block src i t a) = call_state a.
Proof. unfold _open_thinking_block. rewrite <- (call_state_close a). done. Qed.

Lemma call_state_reasoning src t a : call_state (feed_reasoning src t a) = call_state a.
Proof.
  unfold feed_reasoning.
  assert (∀ a, call_state (match _current_thinking_block a with Some _ => a | None => _open_thinking_block src None [] a end)
    = call_state a) as Hopen by (intros a'; destruct (_current_thinking_block a'); [done|apply call_state_open]).
  match goal with |- context [match _current_thinking_block ?x with Some _ => ?x | None => _ end] =>
    pose proof (Hopen x) as Hx end.
  destruct (_current_thinking_block (match _current_thinking_block _ with Some _ => _ | None => _ end)) as [b|];
    [destruct (append_content b t)|]; unfold call_state in *; simpl in *; rewrite Hx;
    (destruct (_last_reasoning_source a); [|done]); case_bool_decide; try done; apply (call_state_open src None [] a).
Qed.

Lemma close_calls a :
  tool_calls (_close_thinking_block a) = tool_calls a ∧
  _restored_tool_calls (_close_thinking_block a) = _restored_tool_calls a.
Proof. by injection (call_state_close a). Qed.

Lemma feed_calls a c : call_state (feed a c).2 = foldl feed_call (call_state a) (live_deltas c).
Proof.
  unfold feed, live_deltas. destruct (boundary c) as [[[[] ?] ?]|]; [cbn [snd]; by rewrite call_state_close|cbn [snd]; by rewrite call_state_open|].
  destruct (progress c) as [p|].
  { destruct (ustrip (tp_id p)); [done|]. unfold call_state. simpl. by rewrite (proj1 (close_calls _)), (proj2 (close_calls _)). }
  cbn [snd]. set (a1 := match content c with [] => _ | _ => _ end).
  assert (call_state a1 = call_state a) as H1.
  { subst a1. destruct (content c); [done|]. unfold call_state. simpl. by rewrite (proj1 (close_calls _)), (proj2 (close_calls _)). }
  set (a2 := match calls c with [] => a1 | _ => _ end).
  assert (call_state a2 = foldl feed_call (call_state a) (calls c)) as H2.
  { subst a2. rewrite <- H1. destruct (calls c) as [|d ds]; [done|]. unfold call_state at 1. simpl.
    rewrite <- surjective_pairing. unfold call_state. by destruct (close_calls a1) as [-> ->]. }
  rewrite <- H2. destruct (reasoning_of c) as [[src t]|]; [apply call_state_reasoning|done].
Qed.

Lemma feed_all_calls a cs : call_state (feed_all a cs) = foldl feed_call (call_state a) (cs ≫= live_deltas).
Proof.
  revert a. induction cs as [|c cs IH]; intros a; simpl; [done|].
  rewrite foldl_app. unfold feed_all in *. by rewrite IH, feed_calls.
Qed.

(** ** Each call is made of its own deltas *)

Lemma entry_of_snoc ds d :
  entry_of (ds ++ [d]) = Some (feed_delta (default (blank_entry (td_id d)) (entry_of ds)) d).
Proof. destruct ds as [|d0 ds]; simpl; [done|]. by rewrite foldl_app. Qed.

Lemma feed_call_fresh m d :
  feed_call (m, ∅) d = (<[td_index d := feed_delta (default (blank_entry (td_id d)) (m !! td_index d)) d]> m, ∅).
Proof.
  assert (_seed_from_restored ∅ (td_id d) = None) as Hseed
    by (unfold _seed_from_restored; destruct (td_id d); [done|]; by rewrite lookup_empty).
  unfold feed_call, entry_for. cbn [fst snd]. rewrite Hseed.
  destruct (m !! td_index d) as [e|]; simpl; unfold late_restore; rewrite Hseed; by repeat case_match; simplify_eq.
Qed.

Lemma feed_calls_fresh ds :
  ∃ m, foldl feed_call (∅, ∅) ds = (m, ∅) ∧ ∀ i, m !! i = entry_of (deltas_at i ds).
Proof.
  induction ds as [|d ds IH] using rev_ind; [exists ∅; split; [done|]; intros i; by rewrite lookup_empty|].
  destruct IH as (m & Hm & Hi). rewrite foldl_app, Hm. simpl. rewrite feed_call_fresh. eexists. split; [done|].
  intros i. unfold deltas_at. rewrite filter_app, lookup_insert, filter_cons. rewrite Hi. unfold deltas_at.
  repeat case_decide; subst; try done; simpl; [by rewrite entry_of_snoc|by rewrite app_nil_r].
Qed.

Lemma prefix_of_snoc {A} (l : list A) x pre : pre `prefix_of` l ++ [x] ↔ pre `prefix_of` l ∨ pre = l ++ [x].
Proof.
  split; [|intros [?| ->]; [by apply prefix_app_r|done]]. intros [k Hk].
  destruct k as [|y k _] using rev_ind; [right; by rewrite app_nil_r in Hk|left].
  rewrite app_assoc in Hk. apply app_inj_tail in Hk as [-> _]. by exists k.
Qed.

(** Arguments are what all fragments accumulate to, unless some of them already exceed the
    limit; then they stay marked. *)
Lemma entry_arguments ds e :
  entry_of ds = Some e →
  (te_oversized e = true ↔
     ∃ pre, pre `prefix_of` fragments ds ∧ (_MAX_TOOL_CALL_ARGUMENT_CHARS < length (accumulate loads pre))%nat) ∧
  (te_oversized e = false → te_arguments e = accumulate loads (fragments ds)).
Proof.
  set (max := _MAX_TOOL_CALL_ARGUMENT_CHARS). assert (0 ≤ max)%nat as Hmax by lia.
  revert e. induction ds as [|d ds IH] using rev_ind; intros e; [done|]. rewrite entry_of_snoc. intros [= <-].
  set (e0 := default (blank_entry (td_id d)) (entry_of ds)).
  assert ((te_oversized e0 = true ↔ ∃ pre, pre `prefix_of` fragments ds ∧ (max < length (accumulate loads pre))%nat) ∧
    (te_oversized e0 = false → te_arguments e0 = accumulate loads (fragments ds))) as [Ho Ha].
  { subst e0. destruct (entry_of ds) as [e|] eqn:He; simpl; [by apply IH|]. destruct ds; [|done]. split; [|done].
    split; [done|]. intros (pre & ->%prefix_nil_inv & Hlt). unfold accumulate in Hlt. simpl in Hlt. lia. }
  clearbody e0. unfold fragments in *. rewrite fmap_app, filter_app. simpl. unfold feed_delta.
  destruct (td_arguments d) as [|ch rest] eqn:Hd.
  { rewrite filter_cons_False by tauto. simpl. by rewrite app_nil_r. }
  rewrite filter_cons_True by done. simpl. set (frags := filter (λ t, t ≠ []) (td_arguments <$> ds)) in *.
  assert (∀ pre, pre `prefix_of` frags ++ [ch :: rest] ↔ pre `prefix_of` frags ∨ pre = frags ++ [ch :: rest]) as Hpre
    by apply prefix_of_snoc.
  setoid_rewrite Hpre. destruct (te_oversized e0) eqn:Hov; simpl.
  { split; [|done]. split; [|done]. intros _. destruct (proj1 Ho eq_refl) as (pre & ? & ?). exists pre. by split; [left|]. }
  assert (accumulate loads (frags ++ [ch :: rest]) = merged (merge_incremental_json_fragment loads (te_arguments e0) (ch :: rest))) as Hacc
    by (rewrite (Ha eq_refl); unfold accumulate; by rewrite foldl_app).
  rewrite <- Hacc. fold max. destruct (max <? length (accumulate loads (frags ++ [ch :: rest])))%nat eqn:Hlt; simpl.
  - apply Nat.ltb_lt in Hlt. split; [|done]. split; [|done]. intros _. exists (frags ++ [ch :: rest]). by split; [right|].
  - apply Nat.ltb_ge in Hlt. split; [|done]. split; [done|]. intros (pre & [Hp| ->] & Hl); [|lia].
    by apply Ho; exists pre.
Qed.

(** The indices of a stream's calls, ascending. *)
Definition call_indices (ds : list tool_delta) : list Z := merge_sort Z.le (remove_dups (td_index <$> ds)).

Lemma elem_of_call_indices ds i : i ∈ call_indices ds ↔ deltas_at i ds ≠ [].
Proof.
  unfold call_indices. rewrite merge_sort_Permutation, elem_of_remove_dups, list_elem_of_fmap. unfold deltas_at.
  split.
  - intros (d & -> & Hd) Hnil. assert (d ∈ filter (λ d', td_index d' = td_index d) ds) as Hf
      by (by apply list_elem_of_filter). rewrite Hnil in Hf. by apply elem_of_nil in Hf.
  - intros Hne. destruct (filter _ ds) as [|d l] eqn:Hf; [done|].
    assert (d ∈ filter (λ d', td_index d' = i) ds) as [<- Hd]%list_elem_of_filter by (rewrite Hf; left). by exists d.
Qed.

#[local] Instance index_le_total : Total index_le.
Proof. intros x y. unfold index_le. lia. Qed.
#[local] Instance index_le_trans : Transitive index_le.
Proof. intros x y z. unfold index_le. lia. Qed.

Lemma sorted_calls_indices m ds :
  (∀ i, m !! i = entry_of (deltas_at i ds)) → (sorted_calls m).*1 = call_indices ds.
Proof.
  intros Hm. apply (StronglySorted_unique Z.le).
  - pose proof (StronglySorted_merge_sort index_le (map_to_list m)) as Hs. unfold sorted_calls.
    induction Hs as [|x l _ IH Hx]; simpl; constructor; [done|]. by apply Forall_fmap.
  - apply (StronglySorted_merge_sort Z.le _).
  - apply NoDup_Permutation.
    + unfold sorted_calls. rewrite merge_sort_Permutation. apply NoDup_fst_map_to_list.
    + unfold call_indices. rewrite merge_sort_Permutation. apply NoDup_remove_dups.
    + intros i. rewrite elem_of_call_indices. unfold sorted_calls. rewrite merge_sort_Permutation.
      rewrite list_elem_of_fmap. split.
      * intros ([j e] & -> & He%elem_of_map_to_list) Hnil. rewrite Hm in He. simpl in Hnil. by rewrite Hnil in He.
      * intros Hne. destruct (entry_of (deltas_at i ds)) as [e|] eqn:He; [|by destruct (deltas_at i ds)].
        exists (i, e). split; [done|]. apply elem_of_map_to_list. by rewrite Hm.
Qed.

Lemma result_map_keys {E A B C} (f : A * B → result E C) (g : A → result E C) l :
  (∀ x, x ∈ l → f x = g x.1) → result_map f l = result_map g l.*1.
Proof.
  induction l as [|x l IH]; intros Hl; simpl; [done|]. rewrite (Hl x) by left. rewrite IH; [done|].
  intros y Hy. apply Hl. by right.
Qed.

(** The calls of a streamed answer: there is one per index that a delta names, in the
    order of the indices, and each depends on the deltas of its own index alone, however
    they are interleaved with the others.  Its arguments are exactly what all of its
    fragments accumulate to; when some of them already exceed the limit the call is
    rejected, so no call is made with arguments that were cut. *)
Theorem tool_calls_are_assembled prefix cs empty fresh :
  let ds := cs ≫= live_deltas in
  get_tool_calls empty fresh (feed_all (new_accumulator prefix) cs) =
    result_map (λ i, finish_call empty (fresh i) (default (blank_entry []) (entry_of (deltas_at i ds)))) (call_indices ds) ∧
  ∀ i, i ∈ call_indices ds → ∃ e, entry_of (deltas_at i ds) = Some e ∧
    ((∃ pre, pre `prefix_of` fragments (deltas_at i ds) ∧
        (_MAX_TOOL_CALL_ARGUMENT_CHARS < length (accumulate loads pre))%nat) →
     ∃ id raw n, finish_call empty (fresh i) e =
        Ok (ToolArgumentParseFailure id (te_name e) raw "tool_call_arguments_too_large" n)) ∧
    ((¬ ∃ pre, pre `prefix_of` fragments (deltas_at i ds) ∧
        (_MAX_TOOL_CALL_ARGUMENT_CHARS < length (accumulate loads pre))%nat) →
     te_arguments e = accumulate loads (fragments (deltas_at i ds)) ∧
     ∀ o, te_arguments e ≠ [] → loads (te_arguments e) = Object o →
       ∃ id, finish_call empty (fresh i) e = Ok (ToolCall id (te_name e) o (Some (te_arguments e)))).
Proof.
  intros ds. pose proof (feed_all_calls (new_accumulator prefix) cs) as Hfeed.
  destruct (feed_calls_fresh ds) as (m & Hm & Hi). split.
  - unfold get_tool_calls. assert (tool_calls (feed_all (new_accumulator prefix) cs) = m) as ->.
    { etransitivity; [exact (f_equal fst Hfeed)|exact (f_equal fst Hm)]. }
    rewrite <- (sorted_calls_indices m ds Hi). apply result_map_keys. intros [i e] Hx. simpl. f_equal.
    unfold sorted_calls in Hx. rewrite merge_sort_Permutation in Hx. apply elem_of_map_to_list in Hx.
    by rewrite <- Hi, Hx.
  - intros i Hin. apply elem_of_call_indices in Hin.
    destruct (entry_of (deltas_at i ds)) as [e|] eqn:He; [|by destruct (deltas_at i ds)].
    exists e. split; [done|]. destruct (entry_arguments _ _ He) as [Hov Harg]. split; intros Hpre.
    + apply Hov in Hpre. unfold finish_call. rewrite Hpre. eauto.
    + destruct (te_oversized e) eqn:Ho; [by destruct Hpre; apply Hov|]. split; [by apply Harg|].
      intros o Hne Hload. unfold finish_call. rewrite Ho. destruct (te_arguments e); [done|]. rewrite Hload. eauto.
Qed.

(** Splitting concatenated objects terminates when the decoder moves on. *)
Lemma splitting_returns raw :
  (∀ s pos o e, raw_decode s pos = Some (o, e) → (pos < e)%nat) → is_Some (_try_split_concatenated_json raw).
Proof.
  intros Hadv. unfold _try_split_concatenated_json. case_match; [done|].
  assert (∀ fuel pos rs, (length (strip raw) - pos < fuel)%nat → is_Some (split_loop fuel (strip raw) pos rs)) as Hloop.
  { induction fuel as [|fuel IH]; intros pos rs Hf; [lia|]. cbn [split_loop].
    set (p := (pos + skip_space (drop pos (strip raw)))%nat). destruct (length (strip raw) <=? p)%nat eqn:Hp; [done|].
    apply Nat.leb_gt in Hp. destruct (raw_decode (strip raw) p) as [[[o|] e]|] eqn:Hd; try done.
    apply IH. apply Hadv in Hd. lia. }
  destruct (Hloop (S (length (strip raw))) 0%nat []) as [r ->]; [lia|]. done.
Qed.
End Json.

(** ** What those who watch the thinking are told *)

(** The identifiers of an accumulator's blocks are distinct. *)
#[global] Instance make_block_id_inj prefix : Inj (=) (=) (make_block_id prefix).
Proof.
  assert (∀ s t, u s = u t → s = t) as Hu.
  { intros s t Hst. unfold u in Hst. assert (Inj (=) (=) Ascii.N_of_ascii) by (intros ?? ?; by apply N_of_ascii_inj).
    apply (inj (fmap Ascii.N_of_ascii)) in Hst.
    by rewrite <- (String.string_of_list_ascii_of_string s), Hst, String.string_of_list_ascii_of_string. }
  intros n m. unfold make_block_id. destruct prefix as [p|].
  - intros H. apply (app_inv_head (u "thk_")), (app_inv_head p), (app_inv_head (u "_")), Hu in H. by apply (inj pretty).
  - intros H. apply (app_inv_head (u "thk_")), Hu in H. by apply (inj pretty).
Qed.

Definition events_of (id : ustr) (events : list ThinkingEvent) : list ThinkingEvent :=
  filter (λ e, ev_block_id e = id) events.

(** The events of an open block are deltas, the parts of its content. *)
Definition told_open (events : list ThinkingEvent) (b : ThinkingBlockState) : Prop :=
  Forall (λ e, ev_complete e = false) (events_of (block_id b) events) ∧
  ev_delta <$> events_of (block_id b) events = content_parts b.

(** Those of a closed block end with one that closes it and repeats its content. *)
Definition told_closed (events : list ThinkingEvent) (b : ThinkingBlockState) : Prop :=
  ∃ deltas last, events_of (block_id b) events = deltas ++ [last] ∧
    Forall (λ e, ev_complete e = false) deltas ∧ concat (ev_delta <$> deltas) = get_content b ∧
    ev_complete last = true ∧ ev_content last = Some (get_content b).

Record faithful (events : list ThinkingEvent) (a : StreamAccumulator) : Prop := {
  fa_ids : ∃ ks, block_id <$> (_completed_thinking_blocks a ++ option_list (_current_thinking_block a)) =
             (make_block_id (_block_id_prefix a) <$> ks) ∧ NoDup ks ∧ Forall (λ k, k ≤ _thinking_block_counter a)%nat ks;
  fa_known : Forall (λ e, ev_block_id e ∈ block_id <$>
               (_completed_thinking_blocks a ++ option_list (_current_thinking_block a))) events;
  fa_closed : Forall (told_closed events) (_completed_thinking_blocks a);
  fa_open : ∀ b, _current_thinking_block a = Some b → told_open events b;
}.

Lemma faithful_nodup events a :
  faithful events a → NoDup (block_id <$> (_completed_thinking_blocks a ++ option_list (_current_thinking_block a))).
Proof. intros [(ks & -> & Hnd & _) _ _ _]. by apply NoDup_fmap_2; [apply _|]. Qed.

Lemma events_of_app id E1 E2 : events_of id (E1 ++ E2) = events_of id E1 ++ events_of id E2.
Proof. apply filter_app. Qed.

Lemma events_of_other id e : ev_block_id e ≠ id → events_of id [e] = [].
Proof. intros Hne. unfold events_of. by rewrite filter_cons_False. Qed.

Lemma events_of_own e : events_of (ev_block_id e) [e] = [e].
Proof. unfold events_of. by rewrite filter_cons_True. Qed.

Lemma told_closed_other E e b : ev_block_id e ≠ block_id b → told_closed E b → told_closed (E ++ [e]) b.
Proof.
  intros Hne (ds & l & Heq & Hrest). exists ds, l. split; [|done]. by rewrite events_of_app, events_of_other, app_nil_r.
Qed.

(** The open block is none of the closed ones. *)
Lemma current_fresh events a b b' :
  faithful events a → _current_thinking_block a = Some b → b' ∈ _completed_thinking_blocks a → block_id b ≠ block_id b'.
Proof.
  intros Hf Hb Hin Heq. pose proof (faithful_nodup _ _ Hf) as Hnd. rewrite Hb, fmap_app in Hnd. simpl in Hnd.
  apply NoDup_app in Hnd as (_ & Hd & _). apply (Hd (block_id b')); [by apply list_elem_of_fmap_2|].
  rewrite Heq. left.
Qed.

(** An open block without content goes as if it had never been there. *)
Lemma faithful_drop events a b :
  faithful events a → _current_thinking_block a = Some b → content_parts b = [] →
  faithful events (set_thinking a None (_completed_thinking_blocks a) (_thinking_block_counter a)
                     (_last_reasoning_source a) (_pending_thinking_events a)).
Proof.
  intros [(ks & Hks & Hnd & Hle) Hk Hc Ho] Hb Hp. rewrite Hb in *. destruct (Ho b eq_refl) as [_ Hparts].
  rewrite Hp in Hparts. apply fmap_nil_inv in Hparts. rewrite fmap_app in Hks, Hk. split; simpl; rewrite ?app_nil_r; [| |done|done].
  - exists (take (length (_completed_thinking_blocks a)) ks). split_and!.
    + rewrite fmap_take, <- Hks. by rewrite take_app_length' by (by rewrite length_fmap).
    + by apply sublist_NoDup with ks; [|apply sublist_take].
    + by apply Forall_take.
  - apply Forall_forall. intros e He. rewrite Forall_forall in Hk. specialize (Hk e He).
    apply elem_of_app in Hk as [?|Hid%list_elem_of_singleton]; [done|].
    assert (e ∈ events_of (block_id b) events) as Hin by (by apply list_elem_of_filter).
    rewrite Hparts in Hin. by apply elem_of_nil in Hin.
Qed.

Lemma faithful_close events a :
  faithful events a →
  ∃ new, _pending_thinking_events (_close_thinking_block a) = _pending_thinking_events a ++ new ∧
    faithful (events ++ new) (_close_thinking_block a) ∧ _current_thinking_block (_close_thinking_block a) = None.
Proof.
  intros Hf. unfold _close_thinking_block.
  destruct (_current_thinking_block a) as [b|] eqn:Hb; [|exists []; by rewrite !app_nil_r].
  destruct (content_parts b) as [|part parts] eqn:Hp.
  { exists []. rewrite !app_nil_r. split_and!; [done|by eapply faithful_drop|done]. }
  assert (∀ b', b' ∈ _completed_thinking_blocks a → block_id b ≠ block_id b') as Hfresh by (intros; by eapply current_fresh).
  destruct Hf as [Hids Hk Hc Ho]. rewrite Hb in *. destruct (Ho b eq_refl) as [Hinc Hparts].
  eexists. split_and!; [done| |done]. simpl. split; simpl; rewrite ?app_nil_r.
  - destruct Hids as (ks & Hks & Hnd & Hle). exists ks. split_and!; [|done|done]. rewrite <- Hks. by rewrite !fmap_app.
  - apply Forall_app. split; [|constructor; [|done]].
    + eapply Forall_impl; [exact Hk|]. intros e. simpl. by rewrite !fmap_app.
    + simpl. rewrite fmap_app. apply elem_of_app. right. left.
  - apply Forall_app. split; [|constructor; [|done]].
    + apply Forall_forall. intros b' Hb'. rewrite Forall_forall in Hc. apply told_closed_other; [by apply Hfresh|by apply Hc].
    + eexists (events_of (block_id b) events), _. rewrite events_of_app. simpl. unfold events_of at 2.
      rewrite filter_cons_True, filter_nil by done. split_and!; [done|done| |done|done].
      by rewrite Hparts.
  - done.
Qed.

Lemma faithful_open src i t events a :
  faithful events a →
  ∃ new, _pending_thinking_events (_open_thinking_block src i t a) = _pending_thinking_events a ++ new ∧
    faithful (events ++ new) (_open_thinking_block src i t a).
Proof.
  intros Hf. destruct (faithful_close _ _ Hf) as (new & Hnew & Hf' & Hcur). exists new. unfold _open_thinking_block.
  split; [done|]. destruct Hf' as [(ks & Hks & Hnd & Hle) Hk Hc Ho]. rewrite Hcur in *. simpl in *. rewrite app_nil_r in *.
  set (a' := _close_thinking_block a) in *.
  assert (make_block_id (_block_id_prefix a') (S (_thinking_block_counter a')) ∉ block_id <$> _completed_thinking_blocks a') as Hfresh.
  { rewrite Hks. intros (k & Hk' & Hin)%list_elem_of_fmap. apply (inj (make_block_id _)) in Hk' as <-.
    rewrite Forall_forall in Hle. specialize (Hle _ Hin). lia. }
  assert (events_of (make_block_id (_block_id_prefix a') (S (_thinking_block_counter a'))) (events ++ new) = []) as Hnone.
  { destruct (events_of _ (events ++ new)) as [|e l] eqn:He; [done|].
    assert (e ∈ events_of (make_block_id (_block_id_prefix a') (S (_thinking_block_counter a'))) (events ++ new)) as Hin by (rewrite He; left).
    apply list_elem_of_filter in Hin as [Hid Hin]. rewrite Forall_forall in Hk. specialize (Hk e Hin). by rewrite Hid in Hk. }
  split; simpl.
  - exists (ks ++ [S (_thinking_block_counter a')]). rewrite !fmap_app, Hks. split_and!; [done| |].
    + apply NoDup_app. split_and!; [done| |apply NoDup_singleton]. intros k Hin ->%list_elem_of_singleton.
      rewrite Forall_forall in Hle. specialize (Hle _ Hin). lia.
    + apply Forall_app. split; [|by repeat constructor]. eapply Forall_impl; [exact Hle|]. simpl. lia.
  - eapply Forall_impl; [exact Hk|]. intros e He. simpl. rewrite fmap_app. apply elem_of_app. by left.
  - done.
  - intros b [= <-]. split; simpl; by rewrite Hnone.
Qed.

Lemma append_content_spec b value delta b' :
  append_content b value = (delta, b') →
  block_id b' = block_id b ∧ content_parts b' = content_parts b ++ match delta with [] => [] | _ => [delta] end.
Proof.
  unfold append_content. destruct value; [intros [= <- <-]; by rewrite app_nil_r|].
  destruct (get_content b); [by intros [= <- <-]|].
  destruct (strip_prefix _ _) as [[|]|]; intros [= <- <-]; by rewrite ?app_nil_r.
Qed.

(** Only the state of the thinking matters. *)
Lemma faithful_ext events a a' :
  _completed_thinking_blocks a' = _completed_thinking_blocks a →
  _current_thinking_block a' = _current_thinking_block a →
  _thinking_block_counter a' = _thinking_block_counter a → _block_id_prefix a' = _block_id_prefix a →
  faithful events a → faithful events a'.
Proof. intros Hc Hb Hn Hp [Hids Hk Hcl Ho]. split; by rewrite ?Hc, ?Hb, ?Hn, ?Hp. Qed.

Definition delta_events (src : string) (delta : ustr) (b : ThinkingBlockState) : list ThinkingEvent :=
  match delta with
  | [] => []
  | _ => [{| ev_block_id := block_id b; ev_delta := delta; ev_title := get_title b; ev_source := src;
             ev_complete := false; ev_content := None; ev_index := provider_block_index b |}]
  end.

Lemma faithful_append events a b value src :
  faithful events a → _current_thinking_block a = Some b →
  let (delta, b') := append_content b value in
  let new := delta_events src delta b' in
  faithful (events ++ new) (set_thinking a (Some b') (_completed_thinking_blocks a) (_thinking_block_counter a) (Some src)
    (_pending_thinking_events a ++ new)).
Proof.
  intros Hf Hb. destruct (append_content b value) as [delta b'] eqn:Happ.
  apply append_content_spec in Happ as [Hid Hparts]. intros new.
  assert (∀ b', b' ∈ _completed_thinking_blocks a → block_id b ≠ block_id b') as Hfresh by (intros; by eapply current_fresh).
  destruct Hf as [Hids Hk Hc Ho]. rewrite Hb in *. destruct (Ho b eq_refl) as [Hinc Hpb].
  assert (events_of (block_id b) new = new ∧ Forall (λ e, ev_block_id e = block_id b ∧ ev_complete e = false) new ∧
    ev_delta <$> new = match delta with [] => [] | _ => [delta] end) as (Hown & Hnew & Hdelta).
  { subst new. unfold delta_events. destruct delta; [by split_and!; constructor|]. rewrite <- Hid. split_and!; [by apply events_of_own| |done].
    by repeat constructor. }
  clearbody new. split; simpl.
  - rewrite fmap_app in *. simpl in *. by rewrite Hid.
  - rewrite fmap_app in *. simpl in *. rewrite Hid. apply Forall_app. split; [done|].
    eapply Forall_impl; [exact Hnew|]. intros e [-> _]. apply elem_of_app. right. left.
  - apply Forall_forall. intros c Hin. rewrite Forall_forall in Hc. specialize (Hc c Hin). specialize (Hfresh c Hin).
    clear -Hnew Hc Hfresh. induction new as [|e new IH] using rev_ind; [by rewrite app_nil_r|].
    pose proof (proj1 (Forall_app _ _ _) Hnew) as [Hn He]. apply Forall_singleton in He as [He Hc']. rewrite app_assoc.
    apply told_closed_other; [by rewrite He|by apply IH].
  - intros ? [= <-]. unfold told_open. rewrite Hid, events_of_app, Hown. split.
    + apply Forall_app. split; [done|]. eapply Forall_impl; [exact Hnew|]. by intros e [_ ?].
    + by rewrite fmap_app, Hpb, Hparts, Hdelta.
Qed.

Lemma faithful_reasoning src t events a :
  faithful events a →
  ∃ new, _pending_thinking_events (feed_reasoning src t a) = _pending_thinking_events a ++ new ∧
    faithful (events ++ new) (feed_reasoning src t a).
Proof.
  intros Hf. unfold feed_reasoning.
  set (a1 := match _last_reasoning_source a with Some _ => _ | None => _ end).
  assert (∃ new, _pending_thinking_events a1 = _pending_thinking_events a ++ new ∧ faithful (events ++ new) a1) as (n1 & Hp1 & Hf1).
  { subst a1. destruct (_last_reasoning_source a); [case_bool_decide|]; [exists []; by rewrite !app_nil_r| |exists []; by rewrite !app_nil_r].
    by apply faithful_open. }
  clearbody a1. set (a2 := set_thinking a1 _ _ _ _ _).
  assert (faithful (events ++ n1) a2) as Hf2 by by apply (faithful_ext _ a1).
  assert (_pending_thinking_events a2 = _pending_thinking_events a ++ n1) as Hp2 by done. clearbody a2.
  set (a3 := match _current_thinking_block a2 with Some _ => a2 | None => _ end).
  assert (∃ new, _pending_thinking_events a3 = _pending_thinking_events a ++ n1 ++ new ∧ faithful (events ++ n1 ++ new) a3)
    as (n3 & Hp3 & Hf3).
  { subst a3. destruct (_current_thinking_block a2); [exists []; by rewrite !app_nil_r|].
    destruct (faithful_open src None [] _ _ Hf2) as (n & Hn & ?). exists n. by rewrite Hn, Hp2, !app_assoc. }
  clearbody a3. destruct (_current_thinking_block a3) as [b|] eqn:Hb; [|by eexists].
  pose proof (faithful_append _ _ b t src Hf3 Hb) as Happ. destruct (append_content b t) as [delta b'].
  fold (delta_events src delta b'). exists (n1 ++ n3 ++ delta_events src delta b'). split.
  - simpl. rewrite Hp3. by rewrite !app_assoc.
  - rewrite !app_assoc in *. exact Happ.
Qed.

Section Watch.
Context {obj : Type} `{EqDecision obj}.
Context (loads : text → decoded (obj:=obj)).

Lemma faithful_feed c events a :
  faithful events a →
  ∃ new, _pending_thinking_events (feed loads a c).2 = _pending_thinking_events a ++ new ∧
    faithful (events ++ new) (feed loads a c).2.
Proof.
  intros Hf. unfold feed. set (a0 := set_answer a _ _ _ _).
  assert (faithful events a0) as Hf0 by by apply (faithful_ext _ a).
  assert (_pending_thinking_events a0 = _pending_thinking_events a) as <- by done. clearbody a0. clear Hf a.
  assert (∀ events b parts m f p, faithful events b → faithful events (set_answer b parts m f p)) as Hset
    by (intros ? b; intros; by apply (faithful_ext _ b)).
  destruct (boundary c) as [[[[] i] t]|]; cbn [snd].
  { destruct (faithful_close _ _ Hf0) as (n & ? & ? & _). by exists n. }
  { by apply faithful_open. }
  destruct (progress c) as [p|].
  { destruct (ustrip (tp_id p)) as [|ch rest]; [exists []; by rewrite !app_nil_r|].
    destruct (faithful_close _ _ Hf0) as (n & ? & ? & _). exists n. split; [done|by apply Hset]. }
  cbn [snd]. set (a1 := match content c with [] => _ | _ => _ end).
  assert (∃ new, _pending_thinking_events a1 = _pending_thinking_events a0 ++ new ∧ faithful (events ++ new) a1) as (n1 & Hp1 & Hf1).
  { subst a1. destruct (content c) as [|ch rest]; [exists []; by rewrite !app_nil_r|].
    destruct (faithful_close _ _ Hf0) as (n & ? & ? & _). exists n. split; [done|by apply Hset]. }
  clearbody a1. set (a2 := match calls c with [] => _ | _ => _ end).
  assert (∃ new, _pending_thinking_events a2 = _pending_thinking_events a0 ++ new ∧ faithful (events ++ new) a2) as (n2 & Hp2 & Hf2).
  { subst a2. destruct (calls c) as [|d ds]; [by exists n1|].
    destruct (faithful_close _ _ Hf1) as (n & Hn & ? & _). exists (n1 ++ n). rewrite !app_assoc, <- Hp1.
    split; [done|by apply Hset]. }
  clearbody a2. destruct (reasoning_of c) as [[src t]|]; [|by exists n2].
  destruct (faithful_reasoning src t _ _ Hf2) as (n & Hn & ?). exists (n2 ++ n). by rewrite !app_assoc, <- Hp2.
Qed.

(** A stream whose events are drained after every chunk. *)
Definition watch_step (st : list ThinkingEvent * StreamAccumulator) (c : choice) :
    list ThinkingEvent * StreamAccumulator :=
  let (events, a) := pop_thinking_events (feed loads st.2 c).2 in (st.1 ++ events, a).

Definition watch (prefix : ustr) (cs : list choice) : list ThinkingEvent * StreamAccumulator :=
  foldl watch_step ([], new_accumulator prefix) cs.

Lemma watch_step_faithful st c :
  faithful st.1 st.2 ∧ _pending_thinking_events st.2 = [] →
  faithful (watch_step st c).1 (watch_step st c).2 ∧ _pending_thinking_events (watch_step st c).2 = [].
Proof.
  destruct st as [events a]. cbn [fst snd]. intros [Hf Hnil]. destruct (faithful_feed c _ _ Hf) as (new & Hn & Hf').
  rewrite Hnil in Hn. unfold watch_step, pop_thinking_events. cbn [fst snd]. rewrite Hn. simpl.
  split; [|done]. by eapply faithful_ext, Hf'.
Qed.

(** What those who watch the thinking are told is what is kept: over a whole stream,
    every event belongs to one of the finished blocks, whose identifiers are distinct; the
    events of a block are deltas that add up to its content, followed by one that closes
    it with that content. *)
Theorem thinking_is_told_faithfully prefix cs :
  let '(events, a) := watch prefix cs in
  let '(blocks, a') := finalize_thinking a in
  let all := events ++ _pending_thinking_events a' in
  NoDup (block_id <$> blocks) ∧ Forall (λ e, ev_block_id e ∈ block_id <$> blocks) all ∧
  Forall (told_closed all) blocks.
Proof.
  assert (faithful (watch prefix cs).1 (watch prefix cs).2 ∧ _pending_thinking_events (watch prefix cs).2 = []) as [Hf Hp].
  { unfold watch. induction cs as [|c cs IH] using rev_ind.
    - split; [|done]. split; simpl; [|done..]. exists []. by split_and!; constructor.
    - rewrite foldl_app. by apply watch_step_faithful. }
  destruct (watch prefix cs) as [events a]. simpl in *. destruct (faithful_close _ _ Hf) as (new & Hn & Hf' & Hcur).
  rewrite Hn, Hp. simpl. pose proof (faithful_nodup _ _ Hf') as Hnd. destruct Hf' as [_ Hk Hc _].
  rewrite Hcur in *. simpl in *. rewrite app_nil_r in *. done.
Qed.

End Watch.

(** *** Concrete streams *)

Definition plain_chunk : choice :=
  {| finish := []; boundary := None; progress := None; content := []; calls := []; reasoning := None;
     reasoning_content := None |}.
Definition thought (s : string) : choice :=
  {| finish := []; boundary := None; progress := None; content := []; calls := []; reasoning := None;
     reasoning_content := Some (u s) |}.
Definition said (s : string) : choice :=
  {| finish := []; boundary := None; progress := None; content := u s; calls := []; reasoning := None;
     reasoning_content := None |}.
Definition called (i : Z) (id name : string) (args : string) : tool_delta :=
  {| td_index := i; td_id := u id; td_name := u name; td_arguments := tx args |}.
Definition calling (ds : list tool_delta) : choice :=
  {| finish := []; boundary := None; progress := None; content := []; calls := ds; reasoning := None;
     reasoning_content := None |}.

(** A decoder for the examples: the texts [{}], [{"a":1}] and [null]. *)
Definition sample_loads (t : text) : decoded (obj:=nat) :=
  if bool_decide (t = tx "{}") then Object 0%nat
  else if bool_decide (t = tx "null") then OtherValue
  else if bool_decide (t = tx "{a:1}") then Object 1%nat
  else JSONDecodeError "Expecting value" (length t).

Example two_thoughts :
  let '(events, a) := watch sample_loads [] [thought "one. "; thought "two"; said "hello"; thought "three"] in
  ((λ e, (ev_block_id e, ev_delta e, ev_complete e)) <$> events) =
    [(u "thk_1", u "one. ", false); (u "thk_1", u "two", false); (u "thk_1", [], true); (u "thk_2", u "three", false)] ∧
  (get_content <$> (finalize_thinking a).1) = [u "one. two"; u "three"].
Proof. by vm_compute. Qed.

(** A delta that repeats all of the block's content so far is taken for a snapshot of it, so
    a thought that begins with a repetition loses it. *)
Example repeated_first_delta_dropped :
  let a := (watch sample_loads [] [thought "ha"; thought "ha"]).2 in
  (get_content <$> (finalize_thinking a).1) = [u "ha"].
Proof. by vm_compute. Qed.

Example interleaved_calls :
  let a := feed_all sample_loads (new_accumulator [])
    [calling [called 1 "y" "read" "{a"]; calling [called 0 "x" "list" "{}"; called 1 "" "" ":1}"]] in
  get_tool_calls sample_loads (λ _ _, None) 0%nat (λ _, []) a =
  Ok [ToolCall (u "x") (u "list") 0%nat (Some (tx "{}")); ToolCall (u "y") (u "read") 1%nat (Some (tx "{a:1}"))].
Proof. by vm_compute. Qed.

(** Arguments that are JSON but no object raise instead of being reported. *)
Example non_object_arguments_raise :
  get_tool_calls sample_loads (λ _ _, None) 0%nat (λ _, [])
    (feed_all sample_loads (new_accumulator []) [calling [called 0 "x" "list" "null"]]) =
  Err (ValidationError (u "x")).
Proof. by vm_compute. Qed.
