(* ===== verification/Edit.v ===== *)
(** The edit tools of an executor: [edit], [multiedit] and [write]
    ([packages/executor/src/cognis/tools/executor/filesystem.py]).

    The text to replace is searched as it is given, then with its escapes decoded, then line
    by line under ever weaker notions of equality.  The closest window that an error message
    quotes is left out; the other messages are constructors. *)

From S2P Require Import Prelude Str Patch Files.
Local Open Scope N_scope.

(** ** Matches *)

Record _EditCandidate := {
  cand_text : ustr;
  start_index : nat;
  end_index : nat;
  start_line : nat;
  old_base_indent : ustr;
  content_base_indent : ustr;
  line_indent_pairs : list (ustr * ustr);
  preserve_trailing_newline : bool;
}.

Inductive edit_note := Decoded | Fallback (strategy : string) (found : nat) (decoded : bool).

Record _EditMatchResult := {
  match_count : nat;
  matched_old : ustr;
  note : option edit_note;
  candidates : list _EditCandidate;
  decode_replacement_escapes : bool;
}.

Definition no_match : _EditMatchResult :=
  {| match_count := 0; matched_old := []; note := None; candidates := []; decode_replacement_escapes := false |}.

Definition TAB : N := 9.
Definition blank (c : N) : bool := (c =? SPACE) || (c =? TAB).

(** [re.match(r"^[ \t]*", s)] *)
Fixpoint indent_of (s : ustr) : ustr :=
  match s with
  | c :: s => if blank c then c :: indent_of s else []
  | [] => []
  end.

Definition _leading_indent (line : ustr) : ustr := indent_of (_line_stripped line).

(** [re.sub(r"[ \t]+", " ", s)]; [run] tells that the last character was a blank. *)
Fixpoint collapse_blanks (run : bool) (s : ustr) : ustr :=
  match s with
  | [] => []
  | c :: s => if blank c then (if run then collapse_blanks true s else SPACE :: collapse_blanks true s)
              else c :: collapse_blanks false s
  end.

Definition _normalize_horizontal_whitespace (s : ustr) : ustr := collapse_blanks false s.

Definition _normalize_block_rstrip (lines : list ustr) : list ustr := (λ l, urstrip (_line_stripped l)) <$> lines.
Definition _normalize_block_trimmed (lines : list ustr) : list ustr := (λ l, ustrip (_line_stripped l)) <$> lines.
Definition _normalize_block_horizontal_whitespace (lines : list ustr) : list ustr :=
  (λ l, urstrip (_normalize_horizontal_whitespace (_line_stripped l))) <$> lines.
Definition _normalize_block_patch_equivalent (lines : list ustr) : list ustr := _normalize_patch_line_for_match <$> lines.

(** [while common and not prefix.startswith(common): common = common[:-1]] *)
Fixpoint common_prefix (common prefix : ustr) : ustr :=
  match common, prefix with
  | c :: common, d :: prefix => if c =? d then c :: common_prefix common prefix else []
  | _, _ => []
  end.

Definition nonblank (line : ustr) : bool := negb (bool_decide (ustrip line = [])).

Definition _common_leading_indent (lines : list ustr) : ustr :=
  match indent_of <$> filter (λ l, nonblank l = true) (_line_stripped <$> lines) with
  | [] => []
  | p :: ps => foldl common_prefix p ps
  end.

Definition _normalize_block_dedent (lines : list ustr) : list ustr * ustr :=
  let base := _common_leading_indent lines in
  let dedent l :=
    let s := _line_stripped l in
    urstrip (if nonblank s then default s (strip_prefix base s) else s) in
  (dedent <$> lines, base).

Definition _has_trailing_newline (s : ustr) : bool := ends s [LF] || ends s [CR].

Definition _should_preserve_candidate_trailing_newline (old candidate : ustr) : bool :=
  _has_trailing_newline candidate && negb (_has_trailing_newline old).

Fixpoint line_start_offsets (position : nat) (lines : list ustr) : list nat :=
  match lines with
  | [] => []
  | l :: lines => position :: line_start_offsets (position + length l) lines
  end.

Definition _line_start_offsets (lines : list ustr) : list nat := line_start_offsets 0 lines.

(** The window of lines at an index, as a candidate. *)
Definition candidate_at (old : ustr) (lines : list ustr) (index : nat) (window : list ustr)
    (old_indent content_indent : ustr) (pairs : list (ustr * ustr)) : _EditCandidate :=
  let start := nth index (_line_start_offsets lines) 0%nat in
  let t := concat window in
  {| cand_text := t; start_index := start; end_index := start + length t; start_line := S index;
     old_base_indent := old_indent; content_base_indent := content_indent; line_indent_pairs := pairs;
     preserve_trailing_newline := _should_preserve_candidate_trailing_newline old t |}.

(** The candidates among the windows as wide as the pattern. *)
Definition line_windows (content old : ustr) (accept : list ustr → list ustr → option (ustr * ustr * list (ustr * ustr))) :
    list _EditCandidate :=
  let pattern := splitlines old in
  let lines := splitlines content in
  let width := length pattern in
  if bool_decide (pattern = []) || (length lines <? width)%nat then [] else
  omap (λ index,
    let window := take width (drop index lines) in
    '(oi, ci, pairs) ← accept pattern window;
    Some (candidate_at old lines index window oi ci pairs)) (seq 0 (length lines - width + 1)).

Definition accept_normalized (normalizer : list ustr → list ustr) (pattern window : list ustr) :
    option (ustr * ustr * list (ustr * ustr)) :=
  if bool_decide (normalizer window = normalizer pattern) then Some ([], [], []) else None.

Definition _find_normalized_line_window_matches (content old : ustr) (normalizer : list ustr → list ustr) :
    list _EditCandidate := line_windows content old (accept_normalized normalizer).

Definition accept_dedent (pattern window : list ustr) : option (ustr * ustr * list (ustr * ustr)) :=
  let (p, old_indent) := _normalize_block_dedent pattern in
  let (c, content_indent) := _normalize_block_dedent window in
  if bool_decide (c = p) then Some (old_indent, content_indent, []) else None.

Definition _find_dedent_line_window_matches (content old : ustr) : list _EditCandidate :=
  line_windows content old accept_dedent.

Definition accept_trimmed (pattern window : list ustr) : option (ustr * ustr * list (ustr * ustr)) :=
  if bool_decide (_normalize_block_trimmed window = _normalize_block_trimmed pattern)
  then Some ([], [], zip (_leading_indent <$> pattern) (_leading_indent <$> window)) else None.

Definition _find_line_trimmed_window_matches (content old : ustr) : list _EditCandidate :=
  line_windows content old accept_trimmed.

Definition _decode_escaped_edit_text (s : ustr) : ustr :=
  if contains s (u "\n") || contains s (u "\r") || contains s (u "\t")
  then replace_all (u "\r") [CR] (replace_all (u "\t") [TAB] (replace_all (u "\n") [LF] (replace_all (u "\r\n") [LF] s)))
  else s.

Definition _edit_match_result_from_candidates (matches : list _EditCandidate) (strategy : string) (decoded : bool) :
    _EditMatchResult :=
  {| match_count := length matches;
     matched_old := match matches with [c] => cand_text c | _ => [] end;
     note := Some (Fallback strategy (length matches) decoded); candidates := matches;
     decode_replacement_escapes := decoded |}.

(** The line by line strategies, strictest first. *)
Definition fallbacks (content old : ustr) : list (string * list _EditCandidate) :=
  [("rstrip-normalized fallback match", _find_normalized_line_window_matches content old _normalize_block_rstrip);
   ("indentation-flexible fallback match", _find_dedent_line_window_matches content old);
   ("line-trimmed fallback match", _find_line_trimmed_window_matches content old);
   ("horizontal-whitespace fallback match",
    _find_normalized_line_window_matches content old _normalize_block_horizontal_whitespace);
   ("smart-punctuation fallback match",
    _find_normalized_line_window_matches content old _normalize_block_patch_equivalent)].

Definition fallback_match (content old : ustr) (decoded : bool) : option _EditMatchResult :=
  first_found (λ x, match x.2 with
                    | [] => None
                    | ms => Some (_edit_match_result_from_candidates ms x.1 decoded)
                    end) (fallbacks content old).

Definition exact_match (content old : ustr) (n : option edit_note) (decoded : bool) : option _EditMatchResult :=
  match count content old with
  | O => None
  | S k => Some {| match_count := S k; matched_old := old; note := n; candidates := []; decode_replacement_escapes := decoded |}
  end.

Definition _find_edit_match (content old : ustr) : _EditMatchResult :=
  match old with
  | [] => no_match
  | _ =>
      let decoded := _decode_escaped_edit_text old in
      let differs := negb (bool_decide (decoded = old)) in
      default no_match
        (first_found id
           [exact_match content old None false;
            (if differs then exact_match content decoded (Some Decoded) true else None);
            fallback_match content old false;
            (if differs then fallback_match content decoded true else None)])
  end.

(** ** Replacing *)

Definition later_candidate (x y : _EditCandidate) : Prop := (start_index y ≤ start_index x)%nat.
Definition earlier_candidate (x y : _EditCandidate) : Prop := (start_index x ≤ start_index y)%nat.
#[global] Instance later_candidate_dec x y : Decision (later_candidate x y).
Proof. unfold later_candidate. apply _. Defined.
#[global] Instance earlier_candidate_dec x y : Decision (earlier_candidate x y).
Proof. unfold earlier_candidate. apply _. Defined.

Fixpoint overlaps (previous_end : Z) (cs : list _EditCandidate) : bool :=
  match cs with
  | [] => false
  | c :: cs => (Z.of_nat (start_index c) <? previous_end)%Z || overlaps (end_index c) cs
  end.

Definition _edit_match_has_overlapping_candidates (m : _EditMatchResult) : bool :=
  if (length (candidates m) <? 2)%nat then false
  else overlaps (-1) (merge_sort earlier_candidate (candidates m)).

Definition _replacement_text_for_match (m : _EditMatchResult) (new newline : ustr) : ustr :=
  if decode_replacement_escapes m then _normalize_text_for_newline (_decode_escaped_edit_text new) newline else new.

Definition selected (m : _EditMatchResult) (replace_all : bool) : list _EditCandidate :=
  if replace_all then candidates m else take 1 (candidates m).

(** Replacing line by line needs as many lines. *)
Definition _edit_match_replacement_error (m : _EditMatchResult) (new : ustr) (replace_all : bool) (newline : ustr) : bool :=
  let n := length (splitlines (_replacement_text_for_match m new newline)) in
  existsb (λ c, match line_indent_pairs c with [] => false | ps => negb (n =? length ps)%nat end) (selected m replace_all).

Definition _preserve_candidate_trailing_newline (c : _EditCandidate) (replacement : ustr) : ustr :=
  if negb (preserve_trailing_newline c) || _has_trailing_newline replacement then replacement
  else if ends (cand_text c) CRLF then replacement ++ CRLF
  else if ends (cand_text c) [LF] then replacement ++ [LF]
  else replacement ++ [CR].

Definition reindent (line : ustr) (pair : ustr * ustr) : ustr :=
  let (old_indent, content_indent) := pair in
  if negb (nonblank (_line_stripped line)) then line
  else if bool_decide (_leading_indent line = content_indent) then line
  else content_indent ++
    match old_indent, strip_prefix old_indent line with
    | _ :: _, Some body => body
    | _, _ => lstrip_by blank line
    end.

Definition _apply_line_indent_pairs (replacement : ustr) (pairs : list (ustr * ustr)) : ustr :=
  let lines := splitlines replacement in
  if (length lines =? length pairs)%nat then concat (zip_with reindent lines pairs) else replacement.

(** [splitlines()]: a line without its end. *)
Definition chomp (line : ustr) : ustr :=
  if ends line CRLF then take (length line - 2) line
  else match last line with Some c => if line_break c then take (length line - 1) line else line | None => line end.

Definition _replacement_already_has_base_indent (replacement base : ustr) : bool :=
  match base with
  | [] => true
  | _ =>
      match filter (λ l, nonblank l = true) (chomp <$> splitlines replacement) with
      | [] => false
      | ls => forallb (λ l, starts l base) ls
      end
  end.

Definition rebase_line (c : _EditCandidate) (line : ustr) : ustr :=
  if nonblank (_line_stripped line) then
    content_base_indent c ++
      match old_base_indent c, strip_prefix (old_base_indent c) line with
      | _ :: _, Some body => body
      | _, _ => line
      end
  else line.

Definition _replacement_text_for_candidate (c : _EditCandidate) (replacement : ustr) : ustr :=
  _preserve_candidate_trailing_newline c
    (match line_indent_pairs c with
     | _ :: _ => _apply_line_indent_pairs replacement (line_indent_pairs c)
     | [] =>
         if bool_decide (old_base_indent c = content_base_indent c) then replacement
         else if _replacement_already_has_base_indent replacement (content_base_indent c) then replacement
         else concat (rebase_line c <$> splitlines replacement)
     end).

Definition replace_candidate (replacement : ustr) (content : ustr) (c : _EditCandidate) : ustr :=
  take (start_index c) content ++ _replacement_text_for_candidate c replacement ++ drop (end_index c) content.

Definition _apply_edit_match (content : ustr) (m : _EditMatchResult) (new : ustr) (all : bool) (newline : ustr) : ustr :=
  let replacement := _replacement_text_for_match m new newline in
  match candidates m with
  | [] => if all then replace_all (matched_old m) replacement content else replace_first (matched_old m) replacement content
  | _ => foldl (replace_candidate replacement) content (merge_sort later_candidate (selected m all))
  end.

Inductive EditError := NotFound | Ambiguous (n : nat) | Overlapping | WrongLineCount.

(** One edit of a text: its match and the new text. *)
Definition edit_once (newline content old_string new_string : ustr) (all : bool) :
    result EditError (_EditMatchResult * ustr) :=
  let old := _normalize_text_for_newline old_string newline in
  let new := _normalize_text_for_newline new_string newline in
  let m := _find_edit_match content old in
  if (match_count m =? 0)%nat then Err NotFound
  else if (1 <? match_count m)%nat && negb all then Err (Ambiguous (match_count m))
  else if all && _edit_match_has_overlapping_candidates m then Err Overlapping
  else if _edit_match_replacement_error m new all newline then Err WrongLineCount
  else Ok (m, _apply_edit_match content m new all newline).
