(* ===== verification/EditSpec.v ===== *)
(** What the edit tools guarantee: an edit replaces exactly the text it names, up to white
    space, typographic punctuation and escapes, and nothing else in the file. *)

From S2P Require Import Prelude Str Patch PatchSpec Files FilesSpec Edit.
Local Open Scope N_scope.

(** ** What a text says, white space aside *)

Definition ink (s : ustr) : ustr := patch_line_char <$> filter (λ c, uspace c = false) s.

Lemma ink_app s t : ink (s ++ t) = ink s ++ ink t.
Proof. unfold ink. by rewrite filter_app, fmap_app. Qed.

Lemma ink_concat ls : ink (concat ls) = concat (ink <$> ls).
Proof. induction ls as [|l ls IH]; [done|]. simpl. by rewrite ink_app, IH. Qed.

Lemma ink_space s : Forall (λ c, uspace c = true) s → ink s = [].
Proof.
  intros Hs. unfold ink. assert (filter (λ c, uspace c = false) s = []) as ->; [|done].
  induction Hs as [|c s Hc _ IH]; [done|]. rewrite filter_cons_False by congruence. done.
Qed.

Lemma ink_reverse s : ink (reverse s) = reverse (ink s).
Proof.
  induction s as [|c s IH]; [done|]. rewrite reverse_cons, ink_app, IH. change (c :: s) with ([c] ++ s).
  rewrite ink_app, reverse_app. unfold ink at 2 4. rewrite !filter_cons. by case_decide.
Qed.

Section Strip.
Context (p : N → bool) (Hp : ∀ c, p c = true → uspace c = true).

Lemma ink_lstrip s : ink (lstrip_by p s) = ink s.
Proof.
  induction s as [|c s IH]; [done|]. simpl. destruct (p c) eqn:Hc; [|done].
  rewrite IH. unfold ink. rewrite filter_cons_False; [done|]. rewrite (Hp c); done.
Qed.

Lemma ink_rstrip s : ink (rstrip_by p s) = ink s.
Proof. unfold rstrip_by. by rewrite ink_reverse, ink_lstrip, ink_reverse, reverse_involutive. Qed.
End Strip.

Lemma ink_line_stripped s : ink (_line_stripped s) = ink s.
Proof.
  apply ink_rstrip. intros c [->%N.eqb_eq| ->%N.eqb_eq]%orb_true_iff; done.
Qed.

Lemma ink_urstrip s : ink (urstrip s) = ink s.
Proof. by apply ink_rstrip. Qed.

Lemma ink_ustrip s : ink (ustrip s) = ink s.
Proof. unfold ustrip. rewrite ink_urstrip. by apply ink_lstrip. Qed.

Lemma blank_space c : blank c = true → uspace c = true.
Proof. by intros [->%N.eqb_eq| ->%N.eqb_eq]%orb_true_iff. Qed.

Lemma ink_collapse run s : ink (collapse_blanks run s) = ink s.
Proof.
  revert run. induction s as [|c s IH]; intros run; [done|]. simpl.
  change (c :: s) with ([c] ++ s). rewrite ink_app. destruct (blank c) eqn:Hc.
  - rewrite (ink_space [c]) by (constructor; [by apply blank_space|done]). simpl. destruct run; [apply IH|].
    change (SPACE :: collapse_blanks true s) with ([SPACE] ++ collapse_blanks true s). by rewrite ink_app, IH.
  - change (c :: collapse_blanks false s) with ([c] ++ collapse_blanks false s). by rewrite ink_app, IH.
Qed.

(** Typographic spaces become spaces, everything else something visible. *)
Lemma patch_line_char_cases c :
  patch_line_char c = c ∨ (uspace c = false ∧ (patch_line_char c = 45 ∨ patch_line_char c = 39 ∨ patch_line_char c = 34)) ∨
  (uspace c = true ∧ patch_line_char c = 32).
Proof.
  unfold patch_line_char, uspace.
  repeat (match goal with |- context [if ?b then _ else _] => destruct b eqn:? end);
    rewrite ?orb_true_iff, ?orb_false_iff, ?andb_true_iff, ?andb_false_iff, ?N.leb_le, ?N.leb_gt, ?N.eqb_eq, ?N.eqb_neq in *; lia.
Qed.

Lemma ink_patch_line s : ink (patch_line_char <$> s) = ink s.
Proof.
  induction s as [|c s IH]; [done|]. change (ink ([patch_line_char c] ++ (patch_line_char <$> s)) = ink ([c] ++ s)).
  rewrite !ink_app, IH. f_equal. unfold ink. rewrite !filter_cons.
  destruct (patch_line_char_cases c) as [->|[[-> Hc]|[-> Hc]]]; [done| |by rewrite Hc].
  by destruct Hc as [Hc|[Hc|Hc]]; rewrite Hc; simpl; rewrite ?Hc.
Qed.

(** ** Equal lines say the same *)

Lemma ink_lines (f : ustr → ustr) ls : (∀ l, ink (f l) = ink l) → concat (ink <$> (f <$> ls)) = ink (concat ls).
Proof. intros Hf. rewrite ink_concat. f_equal. rewrite <- list_fmap_compose. apply list_fmap_ext. intros i l _. apply Hf. Qed.

Definition keeps_ink (normalizer : list ustr → list ustr) : Prop := ∀ ls, concat (ink <$> normalizer ls) = ink (concat ls).

Lemma rstrip_keeps_ink : keeps_ink _normalize_block_rstrip.
Proof. intros ls. apply ink_lines. intros l. by rewrite ink_urstrip, ink_line_stripped. Qed.
Lemma trimmed_keeps_ink : keeps_ink _normalize_block_trimmed.
Proof. intros ls. apply ink_lines. intros l. by rewrite ink_ustrip, ink_line_stripped. Qed.
Lemma horizontal_keeps_ink : keeps_ink _normalize_block_horizontal_whitespace.
Proof. intros ls. apply ink_lines. intros l. rewrite ink_urstrip. unfold _normalize_horizontal_whitespace. by rewrite ink_collapse, ink_line_stripped. Qed.
Lemma patch_keeps_ink : keeps_ink _normalize_block_patch_equivalent.
Proof. intros ls. apply ink_lines. intros l. unfold _normalize_patch_line_for_match. by rewrite ink_patch_line, ink_ustrip, ink_line_stripped. Qed.

Definition blanks (s : ustr) : Prop := Forall (λ c, blank c = true) s.

Lemma ink_blanks s : blanks s → ink s = [].
Proof. intros Hs. apply ink_space. eapply Forall_impl; [exact Hs|]. apply blank_space. Qed.

Lemma blanks_indent s : blanks (indent_of s).
Proof. induction s as [|c s IH]; simpl; [constructor|]. destruct (blank c) eqn:Hc; by constructor. Qed.

Lemma blanks_common p q : blanks p → blanks (common_prefix p q).
Proof.
  intros Hp. revert q. induction Hp as [|c p Hc _ IH]; intros [|d q]; simpl; try by constructor.
  destruct (c =? d); [constructor; [done|apply IH]|constructor].
Qed.

Lemma blanks_common_indent ls : blanks (_common_leading_indent ls).
Proof.
  unfold _common_leading_indent. destruct (filter _ _) as [|l ls']; simpl; [constructor|].
  generalize (blanks_indent l). generalize (indent_of l). induction ls' as [|l' ls' IH]; intros p Hp; simpl; [done|].
  by apply IH, blanks_common.
Qed.

Lemma ink_unindent base s : blanks base → ink (default s (strip_prefix base s)) = ink s.
Proof.
  intros Hb. destruct (strip_prefix base s) as [r|] eqn:Hr; [|done].
  apply strip_prefix_spec in Hr as ->. by rewrite ink_app, (ink_blanks base).
Qed.

Lemma dedent_keeps_ink : keeps_ink (λ ls, (_normalize_block_dedent ls).1).
Proof.
  intros ls. unfold _normalize_block_dedent. simpl. apply ink_lines. intros l. rewrite ink_urstrip.
  destruct (nonblank _); [rewrite ink_unindent by apply blanks_common_indent|]; apply ink_line_stripped.
Qed.

Lemma same_ink normalizer ls ls' : keeps_ink normalizer → normalizer ls = normalizer ls' → ink (concat ls) = ink (concat ls').
Proof. intros Hn Heq. by rewrite <- !Hn, Heq. Qed.

(** ** Candidates *)

(** A candidate is a non-empty piece of the content that says what the text to replace says. *)
Record candidate_ok (content old : ustr) (c : _EditCandidate) : Prop := {
  co_text : cand_text c = take (end_index c - start_index c) (drop (start_index c) content);
  co_bounds : (start_index c < end_index c ≤ length content)%nat;
  co_ink : ink (cand_text c) = ink old;
  co_old : blanks (old_base_indent c);
  co_content : blanks (content_base_indent c);
  co_pairs : Forall (λ x, blanks x.1 ∧ blanks x.2) (line_indent_pairs c);
}.

Definition accept_ok (accept : list ustr → list ustr → option (ustr * ustr * list (ustr * ustr))) : Prop :=
  ∀ pattern window oi ci pairs, accept pattern window = Some (oi, ci, pairs) →
    ink (concat window) = ink (concat pattern) ∧ blanks oi ∧ blanks ci ∧ Forall (λ x, blanks x.1 ∧ blanks x.2) pairs.

Lemma accept_normalized_ok normalizer : keeps_ink normalizer → accept_ok (accept_normalized normalizer).
Proof.
  intros Hn p w oi ci pairs. unfold accept_normalized. case_bool_decide as Heq; [|done]. intros [= <- <- <-].
  split_and!; [by eapply same_ink|constructor..].
Qed.

Lemma accept_dedent_ok : accept_ok accept_dedent.
Proof.
  intros p w oi ci pairs. unfold accept_dedent, _normalize_block_dedent at 1 2. case_bool_decide as Heq; [|done].
  intros [= <- <- <-]. split_and!; [by apply (same_ink _ _ _ dedent_keeps_ink)|apply blanks_common_indent..|constructor].
Qed.

Lemma accept_trimmed_ok : accept_ok accept_trimmed.
Proof.
  intros p w oi ci pairs. unfold accept_trimmed. case_bool_decide as Heq; [|done]. intros [= <- <- <-].
  split_and!; [by apply (same_ink _ _ _ trimmed_keeps_ink)|constructor|constructor|].
  apply Forall_forall. intros [x y] Hxy. split.
  - apply elem_of_zip_l, list_elem_of_fmap in Hxy as (l & -> & _). apply blanks_indent.
  - apply elem_of_zip_r, list_elem_of_fmap in Hxy as (l & -> & _). apply blanks_indent.
Qed.

Definition offset (lines : list ustr) (i : nat) : nat := length (concat (take i lines)).

Lemma line_offset p lines i : (i < length lines)%nat → nth i (line_start_offsets p lines) 0%nat = (p + offset lines i)%nat.
Proof.
  unfold offset. revert p i. induction lines as [|l lines IH]; intros p i Hi; simpl in Hi; [lia|].
  destruct i as [|i]; simpl; [lia|]. rewrite IH by lia. rewrite length_app. lia.
Qed.

Lemma offset_lt lines i j : Forall (.≠ []) lines → (i < j ≤ length lines)%nat → (offset lines i < offset lines j)%nat.
Proof.
  intros Hne. unfold offset. revert i j. induction Hne as [|l lines Hl _ IH]; intros i j Hij; simpl in Hij; [lia|].
  destruct j as [|j]; [lia|]. simpl. rewrite length_app. destruct i as [|i]; simpl.
  - destruct l; [done|]. simpl. lia.
  - rewrite length_app. pose proof (IH i j ltac:(lia)). lia.
Qed.

Lemma take_offset lines i : take (offset lines i) (concat lines) = concat (take i lines).
Proof. unfold offset. rewrite <- (take_drop i lines) at 2. by rewrite concat_app, take_app_length. Qed.

Lemma drop_offset lines i : drop (offset lines i) (concat lines) = concat (drop i lines).
Proof. unfold offset. rewrite <- (take_drop i lines) at 2. by rewrite concat_app, drop_app_length. Qed.

Lemma offset_window lines i w : offset lines (i + w) = (offset lines i + length (concat (take w (drop i lines))))%nat.
Proof. unfold offset. by rewrite <- length_app, <- concat_app, <- take_take_drop. Qed.

Definition starts_before (x y : _EditCandidate) : Prop := (start_index x < start_index y)%nat.

Lemma line_windows_ok content old accept :
  accept_ok accept →
  Forall (candidate_ok content old) (line_windows content old accept) ∧
  StronglySorted starts_before (line_windows content old accept).
Proof.
  intros Hacc. unfold line_windows. set (pattern := splitlines old). set (lines := splitlines content).
  set (width := length pattern). destruct (bool_decide (pattern = []) || _) eqn:Hg; [by repeat constructor|].
  apply orb_false_iff in Hg as [Hp Hw]. apply bool_decide_eq_false in Hp. apply Nat.ltb_ge in Hw.
  assert (0 < width)%nat as Hpos by (subst width; destruct pattern; [done|]; simpl; lia).
  set (f := λ index : nat, _).
  assert (∀ i c, f i = Some c → (i + width ≤ length lines)%nat → start_index c = offset lines i ∧ candidate_ok content old c) as Hf.
  { intros i c Hc Hi. subst f. simpl in Hc. destruct (accept pattern _) as [[[oi ci] pairs]|] eqn:Ha; [|done].
    injection Hc as <-. destruct (Hacc _ _ _ _ _ Ha) as (Hink & ? & ? & ?).
    assert (start_index (candidate_at old lines i (take width (drop i lines)) oi ci pairs) = offset lines i) as Hs
      by (simpl; apply line_offset; lia).
    split; [done|]. pose proof (offset_window lines i width) as Hend.
    pose proof (offset_lt lines i (i + width) (splitlines_no_empty content) ltac:(lia)) as Hlt.
    assert (concat lines = content) as Hcat by apply concat_splitlines.
    unfold candidate_at in *. simpl in Hs. split; simpl; try done; rewrite ?Hs.
    - rewrite Nat.add_comm, Nat.add_sub, <- Hcat, drop_offset.
      rewrite <- (take_drop width (drop i lines)) at 3. by rewrite concat_app, take_app_length.
    - rewrite <- Hend. split; [lia|]. rewrite <- Hcat. unfold offset. rewrite <- (take_drop (i + width) lines) at 2.
      rewrite concat_app, length_app. lia.
    - rewrite Hink. subst pattern. by rewrite concat_splitlines. }
  assert (∀ n k, (k + n + width ≤ S (length lines))%nat →
    Forall (candidate_ok content old) (omap f (seq k n)) ∧ StronglySorted starts_before (omap f (seq k n)) ∧
    Forall (λ c, offset lines k ≤ start_index c)%nat (omap f (seq k n))) as Hall.
  { induction n as [|n IH]; intros k Hk; [by repeat constructor|]. simpl.
    destruct (IH (S k) ltac:(lia)) as (H1 & H2 & H3).
    pose proof (offset_lt lines k (S k) (splitlines_no_empty content) ltac:(lia)) as Hlt.
    destruct (f k) as [c|] eqn:Hc.
    - destruct (Hf k c Hc ltac:(lia)) as [Hs Hok]. split_and!; [by constructor| |].
      + constructor; [done|]. eapply Forall_impl; [exact H3|]. intros c' ?. unfold starts_before. simpl in *. lia.
      + constructor; [lia|]. eapply Forall_impl; [exact H3|]. simpl. lia.
    - split_and!; [done|done|]. eapply Forall_impl; [exact H3|]. simpl. lia. }
  destruct (Hall (length lines - width + 1)%nat 0%nat) as (? & ? & _); [lia|]. done.
Qed.

(** ** Replacements keep what the new text says *)

Lemma ink_preserve c r : ink (_preserve_candidate_trailing_newline c r) = ink r.
Proof.
  unfold _preserve_candidate_trailing_newline. repeat case_match; try done; rewrite ink_app;
    (rewrite (ink_space CRLF) || rewrite (ink_space [LF]) || rewrite (ink_space [CR])); try (by repeat constructor); apply app_nil_r.
Qed.

Lemma ink_reindent line pair : blanks pair.1 ∧ blanks pair.2 → ink (reindent line pair) = ink line.
Proof.
  destruct pair as [old new]. intros [Ho Hn]. unfold reindent. destruct (negb _); [done|]. case_bool_decide; [done|].
  rewrite ink_app, (ink_blanks new) by done. cbn [app fst snd] in *.
  destruct old as [|c old]; [apply ink_lstrip, blank_space|]. pose proof (ink_unindent (c :: old) line Ho) as Hi.
  destruct (strip_prefix (c :: old) line); [exact Hi|apply ink_lstrip, blank_space].
Qed.

Lemma ink_line_pairs r pairs : Forall (λ x, blanks x.1 ∧ blanks x.2) pairs → ink (_apply_line_indent_pairs r pairs) = ink r.
Proof.
  intros Hp. unfold _apply_line_indent_pairs. destruct (length (splitlines r) =? length pairs)%nat eqn:Hl; [|done].
  apply Nat.eqb_eq in Hl. rewrite <- (concat_splitlines r) at 2. revert Hl Hp. generalize (splitlines r) as lines.
  intros lines. revert pairs. induction lines as [|l lines IH]; intros [|x pairs] Hl Hp; try done.
  apply Forall_cons in Hp as [Hx Hp]. simpl. rewrite !ink_app, ink_reindent by done. f_equal. apply IH; [by injection Hl|done].
Qed.

Lemma ink_replacement content old c r : candidate_ok content old c → ink (_replacement_text_for_candidate c r) = ink r.
Proof.
  intros [_ _ _ Ho Hc Hp]. unfold _replacement_text_for_candidate. rewrite ink_preserve.
  destruct (line_indent_pairs c) as [|x pairs] eqn:Hpairs; [|by apply ink_line_pairs].
  case_bool_decide; [done|]. destruct (_replacement_already_has_base_indent _ _); [done|].
  transitivity (ink (concat (splitlines r))); [|by rewrite concat_splitlines].
  rewrite <- (ink_lines (rebase_line c) (splitlines r)); [by rewrite ink_concat|].
  intros l. unfold rebase_line. destruct (nonblank _); [|done]. rewrite ink_app, (ink_blanks _ Hc).
  pose proof (ink_unindent _ l Ho) as Hi. cbn [app]. destruct (old_base_indent c); [done|].
  by destruct (strip_prefix (_ :: _) l).
Qed.

(** ** Segments: what is kept, what goes and what comes instead *)

Record segment := { gap : ustr; span : ustr; put : ustr }.

Definition before (segs : list segment) (tail : ustr) : ustr := concat ((λ s, gap s ++ span s) <$> segs) ++ tail.
Definition after (segs : list segment) (tail : ustr) : ustr := concat ((λ s, gap s ++ put s) <$> segs) ++ tail.

(** Candidates in order and apart, from a position on. *)
Fixpoint apart (content : ustr) (position : nat) (cs : list _EditCandidate) : Prop :=
  match cs with
  | [] => (position ≤ length content)%nat
  | c :: cs => (position ≤ start_index c ≤ end_index c)%nat ∧ apart content (end_index c) cs
  end.

Definition piece (content : ustr) (i j : nat) : ustr := take (j - i) (drop i content).

Fixpoint segments_from (r content : ustr) (position : nat) (cs : list _EditCandidate) : list segment :=
  match cs with
  | [] => []
  | c :: cs =>
      {| gap := piece content position (start_index c); span := piece content (start_index c) (end_index c);
         put := _replacement_text_for_candidate c r |} :: segments_from r content (end_index c) cs
  end.

Fixpoint end_of (position : nat) (cs : list _EditCandidate) : nat :=
  match cs with [] => position | c :: cs => end_of (end_index c) cs end.

Lemma apart_bound content position cs : apart content position cs → (position ≤ length content)%nat.
Proof. revert position. induction cs as [|c cs IH]; intros p; simpl; [done|]. intros [? ?%IH]. lia. Qed.

Lemma piece_join content i j : (i ≤ j)%nat → piece content i j ++ drop j content = drop i content.
Proof.
  intros Hij. unfold piece. rewrite <- (take_drop (j - i) (drop i content)) at 2. rewrite drop_drop. do 2 f_equal. lia.
Qed.

Lemma before_segments r content position cs :
  apart content position cs →
  before (segments_from r content position cs) (drop (end_of position cs) content) = drop position content.
Proof.
  revert position. induction cs as [|c cs IH]; intros p; simpl; [done|]. intros [Hp Ha]. unfold before in *. simpl.
  rewrite <- !app_assoc, IH by done. rewrite !piece_join by lia. done.
Qed.

Lemma replace_segments r content position cs :
  apart content position cs →
  foldr (λ c acc, replace_candidate r acc c) content cs =
  take position content ++ after (segments_from r content position cs) (drop (end_of position cs) content).
Proof.
  revert position. induction cs as [|c cs IH]; intros p; simpl; [intros _; unfold after; simpl; by rewrite take_drop|].
  intros [Hp Ha]. rewrite (IH _ Ha). pose proof (apart_bound _ _ _ Ha) as Hb. unfold replace_candidate, after. simpl.
  set (rest := concat _ ++ _). rewrite drop_app_length' by (rewrite length_take; lia).
  rewrite take_app_le by (rewrite length_take; lia). rewrite take_take, Nat.min_l by lia.
  assert (take (start_index c) content = take p content ++ piece content p (start_index c)) as ->.
  { unfold piece. rewrite take_take_drop. f_equal. lia. }
  subst rest. by rewrite <- !app_assoc.
Qed.

(** ** Replacing every occurrence *)

Lemma replace_skip_drop old new k s : replace_skip old new k s = replace_skip old new 0 (drop k s).
Proof. revert k. induction s as [|c s IH]; intros [|k]; try done. simpl. apply IH. Qed.

Lemma count_skip_drop old k s : count_skip old k s = count_skip old 0 (drop k s).
Proof. revert k. induction s as [|c s IH]; intros [|k]; try done. simpl. apply IH. Qed.

Lemma replace_all_segments old new s :
  old ≠ [] →
  ∃ segs tail, s = before segs tail ∧ replace_all old new s = after segs tail ∧ length segs = count s old ∧
    Forall (λ x, span x = old ∧ put x = new) segs.
Proof.
  intros Hne. unfold replace_all, count. induction s as [s IH] using ustr_ind.
  destruct s as [|c s]; [by exists [], []|]. cbn [replace_skip count_skip]. destruct (starts (c :: s) old) eqn:Hs.
  - rewrite replace_skip_drop, count_skip_drop. apply starts_spec in Hs as [r Hr].
    destruct old as [|o old]; [done|]. injection Hr as -> ->. simpl. rewrite Nat.sub_0_r, drop_app_length.
    destruct (IH r) as (segs & tail & Hb & Ha & Hl & Hall); [simpl; rewrite length_app; lia|].
    exists ({| gap := []; span := o :: old; put := new |} :: segs), tail. unfold before, after in *. simpl. rewrite Ha, <- Hl.
    split_and!; [rewrite Hb at 1; by rewrite app_assoc|by rewrite app_assoc|done|by constructor].
  - destruct (IH s) as (segs & tail & Hb & Ha & Hl & Hall); [simpl; lia|]. rewrite Ha, <- Hl. destruct segs as [|[g sp p] segs].
    + exists [], (c :: tail). unfold before, after in *. simpl in *. by rewrite Hb.
    + exists ({| gap := c :: g; span := sp; put := p |} :: segs), tail. unfold before, after in *. simpl in *.
      split_and!; [by rewrite Hb|done|done|]. apply Forall_cons in Hall as [? ?]. by constructor.
Qed.

Lemma replace_all_nonempty old new s : new ≠ [] → s ≠ [] → replace_all old new s ≠ [].
Proof. intros Hn Hs. destruct s as [|c s]; [done|]. unfold replace_all. cbn [replace_skip]. destruct (starts _ _), new; done. Qed.

Lemma decoded_nonempty s : s ≠ [] → _decode_escaped_edit_text s ≠ [].
Proof. intros Hs. unfold _decode_escaped_edit_text. case_match; [|done]. by repeat apply replace_all_nonempty. Qed.

Lemma count_contains old s : old ≠ [] → (0 < count s old)%nat → contains s old = true.
Proof.
  intros Hne. unfold count. induction s as [|c s IH]; [cbn; lia|]. cbn [count_skip contains].
  destruct (starts (c :: s) old); [done|]. exact IH.
Qed.

(** ** What the search finds *)

Definition found (content old : ustr) (m : _EditMatchResult) : Prop :=
  old ≠ [] ∧
  ((candidates m = [] ∧ matched_old m = old ∧ match_count m = count content old) ∨
   (match_count m = length (candidates m) ∧ Forall (candidate_ok content old) (candidates m) ∧
    StronglySorted starts_before (candidates m))).

Lemma exact_match_found content old n d m : old ≠ [] → exact_match content old n d = Some m → found content old m.
Proof. intros Hne. unfold exact_match. destruct (count content old) eqn:Hc; [done|]. intros [= <-]. split; [done|]. left. by rewrite Hc. Qed.

Lemma fallback_match_found content old d m : old ≠ [] → fallback_match content old d = Some m → found content old m.
Proof.
  intros Hne. unfold fallback_match.
  assert (∀ l, Forall (λ x, Forall (candidate_ok content old) x.2 ∧ StronglySorted starts_before x.2) l →
    first_found (λ x, match x.2 with [] => None | ms => Some (_edit_match_result_from_candidates ms x.1 d) end) l = Some m →
    found content old m) as Hl.
  { induction 1 as [|[name ms] l [Hok Hs] _ IH]; simpl; [done|]. destruct ms as [|c ms]; [done|]. intros [= <-].
    split; [done|]. right. done. }
  apply Hl. unfold fallbacks. repeat constructor; simpl;
    apply line_windows_ok; try apply accept_normalized_ok; auto using rstrip_keeps_ink, horizontal_keeps_ink, patch_keeps_ink,
      accept_dedent_ok, accept_trimmed_ok.
Qed.

Lemma find_edit_match_found content old :
  match_count (_find_edit_match content old) = 0%nat ∨
  ∃ o, (o = old ∨ o = _decode_escaped_edit_text old) ∧ found content o (_find_edit_match content old).
Proof.
  unfold _find_edit_match. destruct old as [|c old']; [by left|]. set (old := c :: old').
  assert (old ≠ []) as Hne by done. pose proof (decoded_nonempty _ Hne) as Hde. clearbody old.
  cbn [first_found]. unfold id. destruct (exact_match content old None false) as [m|] eqn:H1.
  { right. exists old. split; [by left|by eapply exact_match_found]. }
  destruct (bool_decide (_decode_escaped_edit_text old = old)); cbn [negb].
  - destruct (fallback_match content old false) as [m|] eqn:H2; [|by left].
    right. exists old. split; [by left|by eapply fallback_match_found].
  - destruct (exact_match content (_decode_escaped_edit_text old) (Some Decoded) true) as [m|] eqn:H2.
    { right. eexists. split; [by right|by eapply exact_match_found]. }
    destruct (fallback_match content old false) as [m|] eqn:H3.
    { right. exists old. split; [by left|by eapply fallback_match_found]. }
    destruct (fallback_match content _ true) as [m|] eqn:H4; [|by left].
    right. eexists. split; [by right|by eapply fallback_match_found].
Qed.

(** ** Order of the replacements *)

#[local] Instance later_total : Total later_candidate.
Proof. intros x y. unfold later_candidate. lia. Qed.
#[local] Instance later_trans : Transitive later_candidate.
Proof. intros x y z. unfold later_candidate. lia. Qed.
#[local] Instance earlier_total : Total earlier_candidate.
Proof. intros x y. unfold earlier_candidate. lia. Qed.
#[local] Instance earlier_trans : Transitive earlier_candidate.
Proof. intros x y z. unfold earlier_candidate. lia. Qed.

Lemma starts_distinct cs x y :
  StronglySorted starts_before cs → x ∈ cs → y ∈ cs → start_index x = start_index y → x = y.
Proof.
  induction 1 as [|c cs _ IH Hc]; [by intros ?%elem_of_nil|]. rewrite Forall_forall in Hc. unfold starts_before in Hc.
  intros [->|Hx]%elem_of_cons [->|Hy]%elem_of_cons Heq; [done| | |by apply IH].
  - specialize (Hc y Hy). simpl in Hc. lia.
  - specialize (Hc x Hx). simpl in Hc. lia.
Qed.

Lemma sort_earlier cs : StronglySorted starts_before cs → merge_sort earlier_candidate cs = cs.
Proof.
  intros Hs. apply (StronglySorted_unique_strong earlier_candidate).
  - intros x y Hx Hy. rewrite merge_sort_Permutation in Hx. unfold earlier_candidate. intros. apply (starts_distinct cs); auto; lia.
  - apply (StronglySorted_merge_sort _ _).
  - clear -Hs. induction Hs as [|c cs _ IH Hc]; constructor; [done|]. eapply Forall_impl; [exact Hc|].
    unfold starts_before, earlier_candidate. intros; lia.
  - apply merge_sort_Permutation.
Qed.

Lemma sort_later cs : StronglySorted starts_before cs → merge_sort later_candidate cs = reverse cs.
Proof.
  intros Hs. apply (StronglySorted_unique_strong later_candidate).
  - intros x y Hx Hy. rewrite merge_sort_Permutation in Hx. rewrite elem_of_reverse in Hy.
    unfold later_candidate. intros. apply (starts_distinct cs); auto; lia.
  - apply (StronglySorted_merge_sort _ _).
  - clear -Hs. induction Hs as [|c cs _ IH Hc]; [constructor|]. rewrite reverse_cons.
    apply StronglySorted_app_2; [|done|by repeat constructor]. intros x y Hx ->%list_elem_of_singleton.
    rewrite elem_of_reverse in Hx. rewrite Forall_forall in Hc. specialize (Hc x Hx). unfold starts_before, later_candidate in *. lia.
  - by rewrite merge_sort_Permutation, reverse_Permutation.
Qed.

Lemma not_overlapping content old cs p :
  Forall (candidate_ok content old) cs → overlaps (Z.of_nat p) cs = false → (p ≤ length content)%nat → apart content p cs.
Proof.
  intros Hok. revert p. induction Hok as [|c cs [_ Hb _ _ _ _] _ IH]; intros p; simpl; [done|].
  intros [Hp Ho]%orb_false_iff Hlen. apply Z.ltb_ge in Hp. split; [lia|]. apply IH; [done|lia].
Qed.

Lemma selected_apart content old m all :
  Forall (candidate_ok content old) (candidates m) → StronglySorted starts_before (candidates m) →
  all && _edit_match_has_overlapping_candidates m = false → apart content 0 (selected m all).
Proof.
  intros Hok Hs Hov. assert (∀ c, candidate_ok content old c → apart content 0 [c]) as Hone.
  { intros c [_ Hb _ _ _ _]. simpl. lia. }
  unfold _edit_match_has_overlapping_candidates in Hov. rewrite sort_earlier in Hov by done. unfold selected.
  destruct all; simpl in Hov.
  - destruct (candidates m) as [|c [|c' cs]]; [simpl; lia|apply Hone; by apply Forall_cons in Hok as [? _]|].
    pose proof Hok as [Hc Hcs]%Forall_cons. pose proof Hc as [_ Hb _ _ _ _].
    change (0 ≤ start_index c ≤ end_index c ∧ apart content (end_index c) (c' :: cs))%nat. split; [lia|].
    cbn [length Nat.ltb Nat.leb] in Hov. change ((Z.of_nat (start_index c) <? -1)%Z || overlaps (end_index c) (c' :: cs) = false) in Hov.
    apply orb_false_iff in Hov as [_ Hov]. apply (not_overlapping content old); [done|done|lia].
  - destruct (candidates m) as [|c cs]; [simpl; lia|]. apply Forall_cons in Hok as [Hc _]. by apply Hone.
Qed.

(** What an edit leaves of a piece of the text. *)
Definition edited (content old replacement : ustr) (m : _EditMatchResult) (s : segment) : Prop :=
  span s ≠ [] ∧ (ink (span s) = ink old ∨ ink (span s) = ink (_decode_escaped_edit_text old)) ∧
  ink (put s) = ink replacement ∧ (candidates m = [] → span s = matched_old m ∧ put s = replacement).

Lemma segments_edited content old o r position cs m :
  (o = old ∨ o = _decode_escaped_edit_text old) → candidates m ≠ [] → Forall (candidate_ok content o) cs →
  Forall (edited content old r m) (segments_from r content position cs).
Proof.
  intros Ho Hne Hok. revert position. induction Hok as [|c cs Hc _ IH]; intros p; simpl; constructor; [|apply IH].
  pose proof Hc as [Ht Hb Hi _ _ _]. split_and!; simpl.
  - unfold piece. intros Hnil%(f_equal length). rewrite length_take, length_drop in Hnil. simpl in Hnil. lia.
  - unfold piece. rewrite <- Ht, Hi. by destruct Ho as [->| ->]; [left|right].
  - by eapply ink_replacement.
  - done.
Qed.

(** C33. An edit replaces exactly the text it names: when it succeeds, the file is some pieces
    replaced and everything around them kept; there is one piece per match, just one unless
    all are to be replaced, and then it is the only match.  Each piece says what the old
    string says, and what comes instead says what the new string says, up to white space,
    typographic punctuation and decoded escapes; an exact match is replaced verbatim. *)
Theorem edit_replaces_what_it_names newline content old_string new_string all m content' :
  edit_once newline content old_string new_string all = Ok (m, content') →
  let old := _normalize_text_for_newline old_string newline in
  let replacement := _replacement_text_for_match m (_normalize_text_for_newline new_string newline) newline in
  ∃ segs tail, content = before segs tail ∧ content' = after segs tail ∧
    length segs = (if all then match_count m else 1%nat) ∧ (all = false → match_count m = 1%nat) ∧
    Forall (edited content old replacement m) segs.
Proof.
  unfold edit_once. set (old := _normalize_text_for_newline old_string newline).
  set (new := _normalize_text_for_newline new_string newline).
  destruct (find_edit_match_found content old) as [->|(o & Ho & Hne & Hfound)]; [done|].
  set (m' := _find_edit_match content old) in *. destruct (match_count m' =? 0)%nat eqn:H0; [done|].
  destruct ((1 <? match_count m')%nat && negb all) eqn:H1; [done|].
  destruct (all && _edit_match_has_overlapping_candidates m') eqn:Hov; [done|].
  destruct (_edit_match_replacement_error _ _ _ _); [done|]. intros [= <- <-]. cbn zeta. apply Nat.eqb_neq in H0.
  assert (all = false → match_count m' = 1%nat) as Huniq.
  { intros ->. rewrite andb_true_r in H1. apply Nat.ltb_ge in H1. lia. }
  set (r := _replacement_text_for_match m' new newline). unfold _apply_edit_match. fold r.
  destruct Hfound as [(Hc & Hm & Hn)|(Hn & Hok & Hs)].
  - rewrite Hc, Hm. destruct all.
    + destruct (replace_all_segments o r content Hne) as (segs & tail & Hb & Ha & Hl & Hall). exists segs, tail.
      split_and!; [done|done|by rewrite Hl|done|]. eapply Forall_impl; [exact Hall|]. intros s [Hsp Hpt].
      unfold edited. rewrite Hsp, Hpt, Hm. split_and!; [done| |done|done]. by destruct Ho as [->| ->]; [left|right].
    + destruct (replace_first_spec o r content) as (a & b & Hb & Ha & _); [apply count_contains; [done|lia]|].
      exists [{| gap := a; span := o; put := r |}], b. unfold before, after. simpl. rewrite Ha, !app_nil_r, <- !app_assoc.
      split_and!; [done|done|done|done|]. constructor; [|done]. unfold edited. simpl. rewrite Hm.
      split_and!; [done| |done|done]. by destruct Ho as [->| ->]; [left|right].
  - assert (candidates m' ≠ []) as Hcne by (intros Hc; rewrite Hc in Hn; simpl in Hn; lia).
    pose proof (selected_apart content o m' all Hok Hs Hov) as Hap.
    assert (Forall (candidate_ok content o) (selected m' all) ∧ StronglySorted starts_before (selected m' all)) as [Hsel Hss].
    { unfold selected. destruct all; [done|]. destruct (candidates m') as [|c cs]; [done|].
      apply Forall_cons in Hok as [Hc0 _]. split; [by apply Forall_singleton|by apply SSorted_cons; [apply SSorted_nil|apply Forall_nil]]. }
    exists (segments_from r content 0 (selected m' all)), (drop (end_of 0 (selected m' all)) content).
    split_and!.
    + by rewrite before_segments.
    + destruct (candidates m') eqn:Hc; [done|]. rewrite sort_later, foldl_reverse by done. by apply (replace_segments r content 0).
    + clear -Huniq Hn Hcne H0. assert (∀ p cs, length (segments_from r content p cs) = length cs) as -> by
        (intros p cs; revert p; induction cs; intros; simpl; auto).
      unfold selected. destruct all; [by rewrite Hn|]. rewrite length_take. lia.
    + done.
    + by eapply segments_edited.
Qed.

(** An indented block, given without its indentation, is found and put back indented. *)
Definition indented : ustr := u "if a:" ++ [LF] ++ u "    f(1)" ++ [LF] ++ u "    g(2)" ++ [LF].
Definition unindented : ustr := u "f(1)" ++ [LF] ++ u "g(2)" ++ [LF].
Definition new_block : ustr := u "f(3)" ++ [LF] ++ u "g(4)" ++ [LF].

Lemma edit_replaces_what_it_names_witness :
  ∃ m content', edit_once [LF] indented unindented new_block false = Ok (m, content') ∧
    content' = u "if a:" ++ [LF] ++ u "    f(3)" ++ [LF] ++ u "    g(4)" ++ [LF] ∧
    ∃ segs tail, indented = before segs tail ∧ content' = after segs tail ∧ length segs = 1%nat.
Proof.
  eexists _, _. split; [vm_compute; reflexivity|]. split; [by vm_compute|].
  edestruct (edit_replaces_what_it_names [LF] indented unindented new_block false) as (segs & tail & Hb & Ha & Hl & _);
    [vm_compute; reflexivity|].
  exists segs, tail. by rewrite Hl.
Defined.

(** Occurrences that overlap are counted once, as [str.count] does: of the two places where
    the old string fits, the first is taken. *)
Example overlapping_occurrences_count_once :
  option_map snd (result_option (edit_once [LF] (u "aaa") (u "aa") (u "b") false)) = Some (u "ba").
Proof. by vm_compute. Qed.
