(* ===== verification/EditTools.v ===== *)
(** The handlers of the edit tools: [edit], [multiedit] and [write]
    ([packages/executor/src/cognis/tools/executor/filesystem.py]), and what they do to the
    files: one fresh file changes, and it changes by all edits or by none. *)

From S2P Require Import Prelude Str Patch Files FilesSpec FilesCommit Edit.
Local Open Scope tool_scope.

(** ** The handlers *)

(** An edit as the caller gives it. *)
Inductive edit_argument :=
| NotAnObject
| NotStrings
| EditArgument (old_string new_string : ustr) (replace_all : bool).

Inductive SequenceError := ENotAnObject (index : nat) | ENotStrings (index : nat) | EOverwrites (index previous : nat).

Inductive EditResult :=
| Identical
| NoEdits
| BadSequence (e : SequenceError)
| BadPath (e : PatchError)
| FileNotFound
| Refused (e : ToolError)
| CannotRead (e : ToolError)
| EditFailed (index : nat) (e : EditError)
| CannotWrite (e : ToolError)
| Edited (count : nat) (notes : list (nat * edit_note)) (before final : ustr)
| Wrote (bytes : Z) (before final : ustr)
| Escapes (e : ToolError).

(** The edits before the one at [index], with the text each one writes. *)
Fixpoint validate_from (index : nat) (previous : list (nat * ustr)) (edits : list edit_argument) : option SequenceError :=
  match edits with
  | [] => None
  | NotAnObject :: _ => Some (ENotAnObject index)
  | NotStrings :: _ => Some (ENotStrings index)
  | EditArgument old new _ :: edits =>
      match list_find (λ x, old ≠ [] ∧ contains x.2 old = true) previous with
      | Some (_, x) => Some (EOverwrites index x.1)
      | None => validate_from (S index) (if decide (old = new) then previous else previous ++ [(index, new)]) edits
      end
  end.

Definition _validate_multiedit_sequence (edits : list edit_argument) : option SequenceError := validate_from 1 [] edits.

(** The edits of a call one after the other, on the text in memory; the sequence has been
    validated, so that all of them are objects. *)
Fixpoint edit_all (newline : ustr) (index : nat) (edits : list edit_argument) (content : ustr) :
    result (nat * EditError) (ustr * list (nat * edit_note) * nat) :=
  match edits with
  | [] => Ok (content, [], 0%nat)
  | EditArgument old new all :: edits =>
      if decide (old = new) then edit_all newline (S index) edits content else
      match edit_once newline content old new all with
      | Err e => Err (index, e)
      | Ok (m, content) =>
          let? (content, notes, applied) := edit_all newline (S index) edits content in
          Ok (content, match note m with Some n => (index, n) :: notes | None => notes end, S applied)
      end
  | _ :: edits => edit_all newline (S index) edits content
  end.

Definition runtime_error (e : ToolError) : bool :=
  match e with EMustRead _ | EModifiedSince _ => true | _ => false end.

Definition os_error (e : ToolError) : bool := match e with EOS _ => true | _ => false end.

Definition is_file_at (w : world) (p : path) : bool :=
  match node_at w p with Some (File _ _) => true | _ => false end.

Section Handlers.
Context (format : path → ustr → option file_data) (tick : Z → Z) (resolve : ustr → result PatchError path).

(** Writing a text, formatting the file, reading it back and recording the write. *)
Definition write_back (scope : string) (p : path) (content : ustr) : M ustr :=
  write_text tick p content ;;!
  _maybe_format_file format tick p ;;!
  let! final := ask (λ w, _read_text_preserving_newlines w p) in
  record_write scope p ;;!
  ret final.

(** What a handler reports of a write; a text that cannot be encoded escapes it. *)
Definition written (report : ustr → EditResult) (r : result ToolError ustr * world) : EditResult * world :=
  match r with
  | (Ok final, w) => (report final, w)
  | (Err (EEncode _ as e), w) => (Escapes e, w)
  | (Err e, w) => (CannotWrite e, w)
  end.

Definition handle_edit (scope : string) (file_path old_string new_string : ustr) (replace_all : bool) (w : world) :
    EditResult * world :=
  if decide (old_string = new_string) then (Identical, w) else
  match resolve file_path with
  | Err e => (BadPath e, w)
  | Ok p =>
      if negb (is_file_at w p) then (FileNotFound, w) else
      match assert_can_modify_existing scope w p with
      | Err e => (if runtime_error e then Refused e else Escapes e, w)
      | Ok () =>
          match _read_text_preserving_newlines w p with
          | Err e => (if os_error e then CannotRead e else Escapes e, w)
          | Ok content =>
              match edit_once (_detect_newline content) content old_string new_string replace_all with
              | Err e => (EditFailed 1 e, w)
              | Ok (m, new_content) =>
                  written (Edited (if replace_all then match_count m else 1%nat)
                             (match note m with Some n => [(1%nat, n)] | None => [] end) content)
                    (write_back scope p new_content w)
              end
          end
      end
  end.

Definition handle_multiedit (scope : string) (file_path : ustr) (edits : list edit_argument) (w : world) :
    EditResult * world :=
  match edits, _validate_multiedit_sequence edits with
  | [], _ => (NoEdits, w)
  | _, Some e => (BadSequence e, w)
  | _, None =>
      match resolve file_path with
      | Err e => (BadPath e, w)
      | Ok p =>
          if negb (is_file_at w p) then (FileNotFound, w) else
          match (let? _ := assert_can_modify_existing scope w p in _read_text_preserving_newlines w p) with
          | Err e => (if runtime_error e then Refused e else if os_error e then CannotRead e else Escapes e, w)
          | Ok content =>
              match edit_all (_detect_newline content) 1 edits content with
              | Err (i, e) => (EditFailed i e, w)
              | Ok (new_content, notes, applied) =>
                  written (Edited applied notes content) (write_back scope p new_content w)
              end
          end
      end
  end.

(** The text before a write; it is empty for what is no file. *)
Definition text_before (scope : string) (w : world) (p : path) : result ToolError ustr :=
  match node_at w p with
  | None => Ok []
  | Some n =>
      let? _ := assert_can_modify_existing scope w p in
      match n with Dir => Ok [] | File _ _ => _read_text_preserving_newlines w p end
  end.

Definition handle_write (scope : string) (file_path content : ustr) (w : world) : EditResult * world :=
  match resolve file_path with
  | Err e => (BadPath e, w)
  | Ok p =>
      match text_before scope w p with
      | Err e => (if runtime_error e then Refused e else CannotRead e, w)
      | Ok before =>
          let content :=
            if is_file_at w p then _normalize_text_for_newline content (_detect_newline before) else content in
          written (λ final, Wrote (utf8_size content) before final)
            ((make_parents p ;;! write_back scope p content) w)
      end
  end.

(** A call of one of the tools. *)
Inductive call :=
| CallEdit (file_path old_string new_string : ustr) (replace_all : bool)
| CallMultiedit (file_path : ustr) (edits : list edit_argument)
| CallWrite (file_path content : ustr).

Definition call_path (c : call) : ustr :=
  match c with CallEdit p _ _ _ | CallMultiedit p _ | CallWrite p _ => p end.

Definition handle_call (scope : string) (c : call) : world → EditResult * world :=
  match c with
  | CallEdit p old new all => handle_edit scope p old new all
  | CallMultiedit p edits => handle_multiedit scope p edits
  | CallWrite p content => handle_write scope p content
  end.
End Handlers.

(** ** What the handlers may touch *)

Section Proofs.
Context (format : path → ustr → option file_data) (tick : Z → Z) (resolve : ustr → result PatchError path).

Lemma keeps_write_back scope p s : keeps (λ r, r = p) (write_back format tick scope p s).
Proof. unfold write_back. frame. Qed.

Lemma written_snd report r : (written report r).2 = r.2.
Proof. by destruct r as [[s|[]] w]. Qed.

Lemma is_file_at_some w p : is_file_at w p = true → ∃ d st, node_at w p = Some (File d st).
Proof. unfold is_file_at. destruct (node_at w p) as [[|d st]|]; eauto; done. Qed.

(** A call either leaves the world as it is or writes one file that was fresh. *)
Definition one_write (scope : string) (file_path : ustr) (w : world) (out : EditResult * world) : Prop :=
  out.2 = w ∨ ∃ p, resolve file_path = Ok p ∧ fresh scope w p ∧ ∀ r, r ≠ p → file_at out.2 r = file_at w r.

Lemma handle_edit_one_write scope file_path old new all w :
  one_write scope file_path w (handle_edit format tick resolve scope file_path old new all w).
Proof.
  unfold handle_edit. case_decide; [by left|]. destruct (resolve file_path) as [p|] eqn:Hp; [|by left].
  destruct (is_file_at w p) eqn:Hf; simpl; [|by left].
  destruct (assert_can_modify_existing scope w p) as [[]|e] eqn:Ha; [|by left].
  destruct (_read_text_preserving_newlines w p) as [content|e]; [|by left].
  destruct (edit_once _ _ _ _ _) as [[m s]|e]; [|by left]. right. exists p.
  split_and!; [done|by apply assert_fresh|]. intros r Hr. rewrite written_snd. by apply keeps_write_back.
Qed.

Lemma handle_multiedit_one_write scope file_path edits w :
  one_write scope file_path w (handle_multiedit format tick resolve scope file_path edits w).
Proof.
  unfold handle_multiedit. destruct edits as [|edit edits]; [by left|].
  destruct (_validate_multiedit_sequence _); [by left|]. destruct (resolve file_path) as [p|] eqn:Hp; [|by left].
  destruct (is_file_at w p) eqn:Hf; simpl negb; cbn iota; [|by left].
  destruct (assert_can_modify_existing scope w p) as [[]|e] eqn:Ha; [|by left]. cbn [result_bind].
  destruct (_read_text_preserving_newlines w p) as [content|e]; [|by left].
  destruct (edit_all _ _ _ _) as [[[s notes] n]|[i e]]; [|by left]. right. exists p.
  split_and!; [done|by apply assert_fresh|]. intros r Hr. rewrite written_snd. by apply keeps_write_back.
Qed.

Lemma text_before_fresh scope w p s : text_before scope w p = Ok s → fresh scope w p.
Proof.
  unfold text_before. destruct (node_at w p) as [n|] eqn:Hn.
  - destruct (assert_can_modify_existing scope w p) as [[]|] eqn:Ha; [|done]. intros _. by apply assert_fresh.
  - intros _ d st Hd. congruence.
Qed.

Lemma handle_write_one_write scope file_path content w :
  one_write scope file_path w (handle_write format tick resolve scope file_path content w).
Proof.
  unfold handle_write. destruct (resolve file_path) as [p|] eqn:Hp; [|by left].
  destruct (text_before scope w p) as [before|] eqn:Hb; [|by left]. right. exists p.
  split_and!; [done|by eapply text_before_fresh|]. intros r Hr. rewrite written_snd.
  apply (keeps_bind (λ r, r = p)); [apply keeps_make_parents|intros; apply keeps_write_back|done].
Qed.
End Proofs.

(** The edit tools touch one file, and only when it is fresh: whatever [edit], [multiedit]
    or [write] answers, a file that is not as before the call is the file the call names, and
    the caller's scope had read (or written) it in the very version that was replaced; a call
    never overwrites a version the caller has not seen. *)
Theorem edits_touch_one_fresh_file format tick resolve scope c w r :
  let w' := (handle_call format tick resolve scope c w).2 in
  file_at w' r ≠ file_at w r → resolve (call_path c) = Ok r ∧ fresh scope w r.
Proof.
  intros w' Hr. assert (one_write resolve scope (call_path c) w (handle_call format tick resolve scope c w)) as Hone.
  { destruct c; [apply handle_edit_one_write|apply handle_multiedit_one_write|apply handle_write_one_write]. }
  destruct Hone as [Hw|(p & Hp & Hf & Hk)]; [unfold w' in Hr; by rewrite Hw in Hr|].
  destruct (decide (r = p)) as [->|Hne]; [done|]. by destruct Hr; apply Hk.
Qed.

(** ** All edits or none *)

(** The texts between the edits of a call. *)
Inductive edits_apply (newline : ustr) : list edit_argument → ustr → ustr → Prop :=
| no_edits s : edits_apply newline [] s s
| same_edit old all edits s s' : edits_apply newline edits s s' → edits_apply newline (EditArgument old old all :: edits) s s'
| one_edit old new all edits m s s1 s' : old ≠ new → edit_once newline s old new all = Ok (m, s1) →
    edits_apply newline edits s1 s' → edits_apply newline (EditArgument old new all :: edits) s s'.

Definition is_object (e : edit_argument) : bool := match e with EditArgument _ _ _ => true | _ => false end.

Lemma validated_objects index previous edits : validate_from index previous edits = None → Forall (λ e, is_object e = true) edits.
Proof.
  revert index previous. induction edits as [|e edits IH]; intros index previous; [constructor|].
  simpl. destruct e as [| |old new all]; [done|done|]. destruct (list_find _ _) as [[i x]|]; [done|].
  intros H. constructor; [done|by eapply IH].
Qed.

Lemma edit_all_applies newline index edits s s' notes n :
  Forall (λ e, is_object e = true) edits → edit_all newline index edits s = Ok (s', notes, n) → edits_apply newline edits s s'.
Proof.
  intros Hobj. revert index s s' notes n. induction Hobj as [|e edits He _ IH]; intros index s s' notes n; simpl.
  - intros [= <- _ _]. constructor.
  - destruct e as [| |old new all]; [done|done|]. case_decide as Ho.
    + subst. intros H. constructor. by eapply IH.
    + destruct (edit_once _ _ _ _ _) as [[m s1]|e'] eqn:Hm; [|done].
      destruct (edit_all newline (S index) edits s1) as [[[s2 notes'] n']|] eqn:Hr; [|done].
      simpl. intros [= -> _ _]. by eapply one_edit; [..|eapply IH].
Qed.

Lemma texts_put w p s st w' : p ≠ [] → fs w' = <[p := File (Text s) st]> (fs w) → texts w' = <[p := s]> (texts w).
Proof. intros Hp Hfs. by eapply texts_update. Qed.

Lemma texts_fs w w' : fs w' = fs w → texts w' = texts w.
Proof. unfold texts. by intros ->. Qed.

(** Writing a file back, where no formatter changes it: it is written and fresh, or the tree
    refuses it and nothing happens, or its text cannot be encoded and it is left empty. *)
Lemma write_back_outcome tick scope w p s d st :
  node_at w p = Some (File d st) →
  (∃ w', write_back no_format tick scope p s w = (Ok s, w') ∧ texts w' = <[p := s]> (texts w) ∧
         assert_can_modify_existing scope w' p = Ok ()) ∨
  write_back no_format tick scope p s w = (Err (EOS p), w) ∨
  (encodable s = false ∧
   ∃ w', write_back no_format tick scope p s w = (Err (EEncode p), w') ∧ texts w' = <[p := []]> (texts w)).
Proof.
  intros Hn. assert (p ≠ []) as Hp by (by intros ->).
  set (st1 := {| mtime_ns := clock w; size := utf8_size s |}).
  set (w1 := {| fs := <[p := File (Text s) st1]> (fs w); reads := reads w; clock := tick (clock w) |}).
  assert (write_text tick p s w = (Err (EOS p), w) ∨ encodable s = true ∧ write_text tick p s w = (Ok (), w1) ∨
    encodable s = false ∧ ∃ w', write_text tick p s w = (Err (EEncode p), w') ∧ texts w' = <[p := []]> (texts w)) as Hwt.
  { unfold write_text. rewrite Hn. destruct (node_at w (removelast p)) as [[|d1 st2]|]; [|by left|by left].
    right. destruct (encodable s); [by left|right]. split; [done|]. eexists. split; [done|]. by eapply (texts_put w p []). }
  unfold write_back. destruct Hwt as [Hwt|[(He & Hwt)|(He & w' & Hwt & Hw)]].
  - right; left. unfold bind. by rewrite Hwt.
  - left. rewrite (bind_ok _ _ () w w1 Hwt).
    assert (node_at w1 p = Some (File (Text s) st1)) as Hn1 by (rewrite node_at_ne by done; apply lookup_insert_eq).
    destruct (record_write_ok scope w1 p _ _ Hn1) as (w2 & Hrec & Hfs & Hreads). exists w2.
    unfold bind, ask, _maybe_format_file, no_format, _read_text_preserving_newlines. rewrite !Hn1, Hrec. split; [done|]. split.
    + rewrite (texts_fs w1 w2 Hfs). by apply (texts_put w p s st1).
    + unfold assert_can_modify_existing, stat. rewrite (Hreads p), decide_True by done.
      assert (node_at w2 p = Some (File (Text s) st1)) as -> by (rewrite node_at_ne, Hfs by done; apply lookup_insert_eq).
      simpl. by rewrite decide_True.
  - right; right. split; [done|]. exists w'. split; [|done]. unfold bind. by rewrite Hwt.
Qed.

(** A sequence of edits is applied as a whole or not at all.  When [multiedit] reports
    success (no formatter rewriting files), every edit was made in order on the text before it,
    the file holds the outcome, no other text changed, and the file counts as seen, so that
    editing on needs no second read.  Any refusal or failed edit leaves the world as it was.
    The one exception is an outcome that UTF-8 cannot encode: its error escapes the handler
    and leaves the file empty. *)
Theorem multiedit_is_atomic tick resolve scope file_path edits w :
  let '(out, w') := handle_multiedit no_format tick resolve scope file_path edits w in
  match out with
  | Edited _ _ before final =>
      ∃ p, resolve file_path = Ok p ∧ texts w !! p = Some before ∧ edits_apply (_detect_newline before) edits before final ∧
        texts w' = <[p := final]> (texts w) ∧ assert_can_modify_existing scope w' p = Ok ()
  | Escapes (EEncode p) =>
      ∃ before final, texts w !! p = Some before ∧ edits_apply (_detect_newline before) edits before final ∧
        encodable final = false ∧ texts w' = <[p := []]> (texts w)
  | _ => w' = w
  end.
Proof.
  unfold handle_multiedit. destruct edits as [|edit edits]; [done|]. set (es := edit :: edits).
  destruct (_validate_multiedit_sequence es) as [|] eqn:Hv; [done|]. destruct (resolve file_path) as [p|] eqn:Hp; [|done].
  destruct (is_file_at w p) eqn:Hf; cbn [negb]; [|done]. apply is_file_at_some in Hf as (d & st & Hn).
  destruct (assert_can_modify_existing scope w p) as [[]|e] eqn:Ha; cbn [result_bind].
  2:{ unfold assert_can_modify_existing, stat in Ha. rewrite Hn in Ha.
      destruct (scope_reads w scope !! p); simpl in Ha; [case_decide|]; by simplify_eq. }
  unfold _read_text_preserving_newlines. rewrite Hn. destruct d as [before|]; [|done].
  destruct (edit_all _ _ _ _) as [[[s notes] n]|[i e]] eqn:Hall; [|done].
  assert (texts w !! p = Some before) as Ht by (eapply texts_lookup; [by intros ->|done]).
  apply edit_all_applies in Hall; [|by eapply validated_objects].
  destruct (write_back_outcome tick scope w p s _ st Hn) as [(w' & -> & Hw & Hfr)|[->|(He & w' & -> & Hw)]]; simpl.
  - exists p. done.
  - done.
  - by exists before, s.
Qed.

(** ** On a concrete world *)

Definition a_file : path := sample_path ["d"; "a"].
Definition in_d : ustr → result PatchError path := λ s, Ok [u "d"; s].
Definition two_edits : call :=
  CallMultiedit (u "a") [EditArgument (u "x") (u "one") false; EditArgument (u "  y") (u "two") false].

Lemma edits_touch_one_fresh_file_witness :
  let w' := (handle_call no_format Z.succ in_d "s" two_edits sample_world).2 in
  texts w' !! a_file = Some (u "one" ++ [LF] ++ u "two" ++ [LF]) ∧
  in_d (call_path two_edits) = Ok a_file ∧ fresh "s" sample_world a_file.
Proof.
  intros w'. split; [by vm_compute|].
  apply (edits_touch_one_fresh_file no_format Z.succ in_d "s" two_edits sample_world a_file). by vm_compute.
Defined.

(** A second edit needs no second read; another scope has to read first. *)
Example edits_follow_each_other :
  let w' := (handle_call no_format Z.succ in_d "s" two_edits sample_world).2 in
  let again := CallEdit (u "a") (u "two") (u "2") false in
  (handle_call no_format Z.succ in_d "s" again w').1
    = Edited 1 [] (u "one" ++ [LF] ++ u "two" ++ [LF]) (u "one" ++ [LF] ++ u "2" ++ [LF]) ∧
  (handle_call no_format Z.succ in_d "t" again w').1 = Refused (EMustRead a_file).
Proof. by vm_compute. Qed.

(** An edit must not replace what an earlier one wrote; but the test compares the raw texts,
    and an old string with an escape gets past it. *)
Example overwriting_is_refused :
  let call old := CallMultiedit (u "a") [EditArgument (u "x") (u "p" ++ [LF] ++ u "q") false;
                                         EditArgument old (u "r") false] in
  (handle_call no_format Z.succ in_d "s" (call (u "p" ++ [LF] ++ u "q")) sample_world).1 = BadSequence (EOverwrites 2 1) ∧
  (handle_call no_format Z.succ in_d "s" (call (u "p\nq")) sample_world).1
    = Edited 2 [(2%nat, Decoded)] (u "x" ++ [LF] ++ u "y" ++ [LF]) (u "r" ++ [LF] ++ u "y" ++ [LF]).
Proof. by vm_compute. Qed.

(** A replacement that UTF-8 cannot encode empties the file, and no answer is given. *)
Example unencodable_edit_empties_the_file :
  let r := handle_call no_format Z.succ in_d "s" (CallEdit (u "a") (u "x") [55296%N] false) sample_world in
  r.1 = Escapes (EEncode a_file) ∧ texts r.2 !! a_file = Some [].
Proof. by vm_compute. Qed.
