(* ===== verification/ToolDispatch.v ===== *)
(** The in-flight tool batches of a direct turn: [cognis/store/direct_turns.py].

    One turn's fence is shared by the sessions of its delegates.  The outcome column of the
    turn's row, a JSON object, records a group of dispatched calls per session and turn, so
    that a restart can settle them; it must not lose one that is still in flight.  Here is
    what each method writes into that column; [DirectTurns] guards it by the fence.
    [isoformat] prints a reading of the database clock. *)

From S2P Require Import Prelude PyVal.

Definition TOOL_IN_FLIGHT_PHASE : string := "tool_in_flight".
Definition TOOL_RESULT_PERSISTED_PHASE : string := "tool_result_persisted".
Definition TOOL_DISPATCH_DESCRIPTOR_LIMIT : nat := 500.

(** [{**base, **d}] *)
Definition dict_update (base d : pydict) : pydict := foldl (λ acc x, od_set x.1 x.2 acc) base d.

(** [dict(v)], which raises for most that is no dictionary. *)
Definition dict_item (v : pyval) : option (string * pyval) :=
  match v with
  | PList [PStr k; x] => Some (k, x)
  | PStr (String.String a (String.String b "")) => Some (String.String a "", PStr (String.String b ""))
  | _ => None
  end.

Definition dict_of (v : pyval) : option pydict :=
  match v with
  | PDict d => Some d
  | PList l => dict_update [] <$> mapM dict_item l
  | PStr "" => Some []
  | _ => None
  end.

(** A non-empty string. *)
Definition nonempty_str (v : pyval) : option string :=
  match v with PStr s => if bool_decide (s = "") then None else Some s | _ => None end.

Definition opt_str (s : option string) : pyval := match s with Some s => PStr s | None => PNone end.

(** ** Groups *)

Record ToolDispatchGroup := {
  group_session_id : string;
  group_turn_id : string;
  group_calls : list pyval;
}.

Definition group_key (g : ToolDispatchGroup) : string * string := (group_session_id g, group_turn_id g).

(** [None] is the error of a descriptor that is no dictionary. *)
Definition as_json (g : ToolDispatchGroup) : option pyval :=
  ds ← mapM dict_of (group_calls g);
  Some (PDict [("session_id", PStr (group_session_id g)); ("turn_id", PStr (group_turn_id g));
               ("tool_calls", PList (PDict <$> ds))]).

Definition _coerce_dispatch_group (raw : pyval) : option ToolDispatchGroup :=
  match raw with
  | PDict d =>
      s ← nonempty_str (dict_get "session_id" d);
      t ← nonempty_str (dict_get "turn_id" d);
      match dict_get "tool_calls" d with
      | PList ((_ :: _) as calls) => Some {| group_session_id := s; group_turn_id := t; group_calls := calls |}
      | _ => None
      end
  | _ => None
  end.

(** The recorded entries, when the outcome has a list of them. *)
Definition raw_groups (outcome : option pydict) : option (list pyval) :=
  d ← outcome; match dict_get "tool_dispatch_groups" d with PList raws => Some raws | _ => None end.

Definition legacy_group (d : pydict) (fallback_session_id fallback_turn_id : option string) :
    list ToolDispatchGroup :=
  match dict_get "tool_calls" d with
  | PList ((_ :: _) as calls) =>
      option_list (_coerce_dispatch_group
        (PDict [("session_id", py_or (dict_get "session_id" d) (opt_str fallback_session_id));
                ("turn_id", py_or (dict_get "turn_id" d) (opt_str fallback_turn_id));
                ("tool_calls", PList calls)]))
  | _ => []
  end.

Definition read_tool_dispatch_groups (outcome : option pydict) (fallback_session_id fallback_turn_id : option string) :
    list ToolDispatchGroup :=
  match outcome, raw_groups outcome with
  | None, _ => []
  | _, Some raws => omap _coerce_dispatch_group raws
  | Some d, None => legacy_group d fallback_session_id fallback_turn_id
  end.

Definition unreadable (raw : pyval) : bool := bool_decide (¬ is_Some (_coerce_dispatch_group raw)).

Definition unreadable_tool_dispatch_groups (outcome : option pydict) : list pyval :=
  filter (λ raw, unreadable raw = true) (default [] (raw_groups outcome)).

Definition write_tool_dispatch_groups (outcome : pydict) (groups : list ToolDispatchGroup) (preserved : list pyval) :
    option pydict :=
  let updated := od_del "tool_calls" (od_del "tool_dispatch_groups" outcome) in
  jsons ← mapM as_json groups;
  Some (match jsons ++ preserved with
        | [] => updated
        | recorded => od_set "tool_dispatch_groups" (PList recorded) updated
        end).

(** The turn that owns a group: the caller's, else that of the request. *)
Definition _resolve_dispatch_turn_id (turn_id request_turn_id : option string) : string :=
  match turn_id with
  | Some t => if bool_decide (t = "") then default "" request_turn_id else t
  | None => default "" request_turn_id
  end.

Definition without_key (k : string * string) (groups : list ToolDispatchGroup) : list ToolDispatchGroup :=
  filter (λ g, group_key g ≠ k) groups.

Definition _replace_dispatch_group (groups : list ToolDispatchGroup) (replacement : ToolDispatchGroup) :
    list ToolDispatchGroup :=
  without_key (group_key replacement) groups ++ [replacement].

(** ** What the methods write *)

Section Outcomes.
Context (isoformat : Z → string).

(** The clock of a phase that goes on, or of a new one. *)
Definition kept_clock (previous : pydict) (now : Z) : pyval :=
  match dict_get "phase" previous, dict_get "phase_started_at" previous with
  | PStr p, PStr t => if bool_decide (p = TOOL_IN_FLIGHT_PHASE) then PStr t else PStr (isoformat now)
  | _, _ => PStr (isoformat now)
  end.

(** Each takes the row's session and turn, and the outcome before. *)
Definition checkpoint_outcome (row_session row_turn : option string) (outcome : option pydict) (now : Z)
    (phase : string) (metadata : pydict) (clear_tool_dispatch : bool) : option pydict :=
  let previous := default [] outcome in
  let live_groups := if clear_tool_dispatch then [] else read_tool_dispatch_groups (Some previous) row_session row_turn in
  let preserved := if clear_tool_dispatch then [] else unreadable_tool_dispatch_groups (Some previous) in
  let new := dict_update [("phase", PStr phase); ("phase_started_at", PStr (isoformat now))] metadata in
  let new := match live_groups, preserved with
             | [], [] => new
             | _, _ => od_set "deferred_phase" (PStr phase)
                         (od_set "phase_started_at" (kept_clock previous now)
                            (od_set "phase" (PStr TOOL_IN_FLIGHT_PHASE) new))
             end in
  write_tool_dispatch_groups new live_groups preserved.

(** An entry that another session may have written. *)
Definition of_other_session (session_id : string) (raw : pyval) : bool :=
  match raw with PDict d => negb (py_eq (dict_get "session_id" d) (PStr session_id)) | _ => true end.

Definition record_outcome (row_session row_turn : option string) (outcome : option pydict) (now : Z)
    (session_id : string) (turn_id : option string) (descriptors : list pydict) (metadata : pydict) : option pydict :=
  let previous := default [] outcome in
  let groups := read_tool_dispatch_groups (Some previous) row_session row_turn in
  let merged := _replace_dispatch_group groups
    {| group_session_id := session_id; group_turn_id := _resolve_dispatch_turn_id turn_id row_turn;
       group_calls := PDict <$> descriptors |} in
  let preserved := filter (λ raw, of_other_session session_id raw = true)
                     (unreadable_tool_dispatch_groups (Some previous)) in
  write_tool_dispatch_groups
    (dict_update [("phase", PStr TOOL_IN_FLIGHT_PHASE); ("phase_started_at", PStr (isoformat now))] metadata)
    merged preserved.

Definition complete_outcome (row_session row_turn : option string) (outcome : option pydict) (now : Z)
    (session_id : string) (turn_id : option string) (call_ids : list string) (metadata : pydict) : option pydict :=
  let previous := default [] outcome in
  let groups := read_tool_dispatch_groups (Some previous) row_session row_turn in
  let remaining := without_key (session_id, _resolve_dispatch_turn_id turn_id row_turn) groups in
  let preserved := unreadable_tool_dispatch_groups (Some previous) in
  let '(phase, started) := match remaining, preserved with
                           | [], [] => (TOOL_RESULT_PERSISTED_PHASE, PStr (isoformat now))
                           | _, _ => (TOOL_IN_FLIGHT_PHASE, kept_clock previous now)
                           end in
  write_tool_dispatch_groups
    (od_set "call_ids" (PList (PStr <$> take TOOL_DISPATCH_DESCRIPTOR_LIMIT call_ids))
       (dict_update [("phase", PStr phase); ("phase_started_at", started)] metadata))
    remaining preserved.

(** A descriptor bound to the executor it is dispatched to. *)
Definition is_call (call_id : string) (d : pydict) : bool := py_eq (dict_get "call_id" d) (PStr call_id).

Definition bind_descriptor (call_id executor_id : string) (executor_instance_id : option string)
    (dispatch_state : string) (d : pydict) : pydict :=
  if is_call call_id d
  then dict_update d [("executor_id", PStr executor_id); ("executor_instance_id", opt_str executor_instance_id);
                      ("dispatch_state", PStr dispatch_state)]
  else d.

Definition as_dict (v : pyval) : option pydict := match v with PDict d => Some d | _ => None end.

(** [Err tt] is an unknown call; the inner [None] an error. *)
Definition merge_outcome (row_session row_turn : option string) (outcome : option pydict)
    (session_id : string) (turn_id : option string) (call_id executor_id : string)
    (executor_instance_id : option string) (dispatch_state : string) : result unit (option pydict) :=
  let previous := default [] outcome in
  let groups := read_tool_dispatch_groups (Some previous) row_session row_turn in
  let owner_key := (session_id, _resolve_dispatch_turn_id turn_id row_turn) in
  match filter (λ g, group_key g = owner_key) groups with
  | [] => Err tt
  | owner :: _ =>
      let descriptors := omap as_dict (group_calls owner) in
      if negb (existsb (is_call call_id) descriptors) then Err tt else
      Ok (write_tool_dispatch_groups previous
            (_replace_dispatch_group groups
               {| group_session_id := group_session_id owner; group_turn_id := group_turn_id owner;
                  group_calls := PDict <$> (bind_descriptor call_id executor_id executor_instance_id dispatch_state
                                              <$> descriptors) |})
            (unreadable_tool_dispatch_groups (Some previous)))
  end.
End Outcomes.

(** ** What is read back of what is written *)

Lemma dict_get_set k k' v d : dict_get k (od_set k' v d) = if decide (k = k') then v else dict_get k d.
Proof. unfold dict_get. rewrite od_get_set. by case_decide. Qed.

Lemma dict_get_del k k' d : dict_get k (od_del k' d) = if decide (k = k') then PNone else dict_get k d.
Proof. unfold dict_get. rewrite od_get_del. by case_decide. Qed.

Lemma dict_get_update k base d : od_get k d = None → dict_get k (dict_update base d) = dict_get k base.
Proof.
  unfold dict_update. revert base. induction d as [|[k' v] d IH]; intros base; [done|].
  simpl. case_decide as Hk; [done|]. intros Hd. rewrite IH by done. rewrite dict_get_set. by rewrite decide_False.
Qed.

Lemma nonempty_str_some v s : nonempty_str v = Some s ↔ v = PStr s ∧ s ≠ "".
Proof. destruct v; simpl; try naive_solver. case_bool_decide; naive_solver. Qed.

Lemma coerce_some raw g :
  _coerce_dispatch_group raw = Some g ↔
  ∃ d, raw = PDict d ∧ dict_get "session_id" d = PStr (group_session_id g) ∧ group_session_id g ≠ "" ∧
    dict_get "turn_id" d = PStr (group_turn_id g) ∧ group_turn_id g ≠ "" ∧
    dict_get "tool_calls" d = PList (group_calls g) ∧ group_calls g ≠ [].
Proof.
  unfold _coerce_dispatch_group. destruct raw as [| | | | | |d]; try (split; [done|naive_solver]).
  rewrite !bind_Some. setoid_rewrite bind_Some. setoid_rewrite nonempty_str_some. split.
  - intros (s & [Hs ?] & t & [Ht ?] & Hc). destruct (dict_get "tool_calls" d) as [| | | | |[|c cs]|] eqn:Hcs; try done.
    injection Hc as <-. exists d. done.
  - intros (d' & [= <-] & Hs & ? & Ht & ? & Hc & Hne). exists (group_session_id g). split; [done|].
    exists (group_turn_id g). split; [done|]. rewrite Hc. by destruct g as [s t []].
Qed.

(** A group that can be read and written: it has identities and its descriptors are dictionaries. *)
Definition group_ok (g : ToolDispatchGroup) : Prop :=
  group_session_id g ≠ "" ∧ group_turn_id g ≠ "" ∧ group_calls g ≠ [] ∧ Forall (λ c, is_dict c = true) (group_calls g).

Lemma mapM_dict_of cs : Forall (λ c, is_dict c = true) cs → ∃ ds, mapM dict_of cs = Some ds ∧ PDict <$> ds = cs.
Proof.
  induction 1 as [|c cs Hc _ (ds & Hds & <-)]; [by exists []|]. destruct c as [| | | | | |d]; try done.
  exists (d :: ds). simpl. by rewrite Hds.
Qed.

Lemma as_json_ok g : group_ok g → ∃ raw, as_json g = Some raw ∧ _coerce_dispatch_group raw = Some g.
Proof.
  intros (Hs & Ht & Hne & Hc). destruct (mapM_dict_of _ Hc) as (ds & Hds & Heq). unfold as_json. rewrite Hds.
  eexists. split; [done|]. apply coerce_some. eexists. split; [done|]. unfold dict_get. simpl. by rewrite Heq.
Qed.

Lemma write_recorded outcome groups preserved o' :
  write_tool_dispatch_groups outcome groups preserved = Some o' →
  ∃ jsons, mapM as_json groups = Some jsons ∧
    (jsons ++ preserved = [] ∧ raw_groups (Some o') = None ∧ dict_get "tool_calls" o' = PNone ∨
     raw_groups (Some o') = Some (jsons ++ preserved)) ∧
    ∀ k, k ≠ "tool_calls" → k ≠ "tool_dispatch_groups" → dict_get k o' = dict_get k outcome.
Proof.
  unfold write_tool_dispatch_groups. intros (jsons & Hj & Ho)%bind_Some. exists jsons. split; [done|].
  injection Ho as <-. destruct (jsons ++ preserved) as [|raw raws] eqn:Hr.
  - split; [left|].
    + unfold raw_groups. simpl. rewrite !dict_get_del. split_and!; [done|by rewrite decide_False, decide_True|by rewrite decide_True].
    + intros k H1 H2. by rewrite !dict_get_del, !decide_False.
  - split; [right|].
    + unfold raw_groups. simpl. by rewrite dict_get_set, decide_True.
    + intros k H1 H2. by rewrite dict_get_set, !dict_get_del, !decide_False.
Qed.

Lemma write_keeps outcome groups preserved o' g s t :
  write_tool_dispatch_groups outcome groups preserved = Some o' → g ∈ groups → group_ok g →
  g ∈ read_tool_dispatch_groups (Some o') s t.
Proof.
  intros (jsons & Hj & Hraw & _)%write_recorded Hg Hok. apply mapM_Some_1 in Hj.
  apply list_elem_of_lookup in Hg as [i Hi]. destruct (Forall2_lookup_l _ _ _ _ _ Hj Hi) as (raw & Hri & Hraw').
  destruct (as_json_ok g Hok) as (raw0 & Hj0 & Hc). assert (raw0 = raw) as -> by congruence.
  assert (raw ∈ jsons) as Hin by (by eapply list_elem_of_lookup_2).
  destruct Hraw as [(Hnil & _)|Hraw]; [by apply app_eq_nil in Hnil as [-> _]; apply elem_of_nil in Hin|].
  unfold read_tool_dispatch_groups. rewrite Hraw. apply list_elem_of_omap. exists raw. split; [set_solver|done].
Qed.

Lemma coerced_group_ok raw g :
  _coerce_dispatch_group raw = Some g → Forall (λ c, is_dict c = true) (group_calls g) → group_ok g.
Proof. by intros (d & _ & _ & ? & _ & ? & _ & ?)%coerce_some ?. Qed.

Lemma read_group_ok outcome s t g :
  g ∈ read_tool_dispatch_groups outcome s t → Forall (λ c, is_dict c = true) (group_calls g) → group_ok g.
Proof.
  unfold read_tool_dispatch_groups. intros Hg. destruct outcome as [d|]; [|by apply elem_of_nil in Hg].
  destruct (raw_groups (Some d)) as [raws|].
  - apply list_elem_of_omap in Hg as (raw & _ & Hc). by eapply coerced_group_ok.
  - unfold legacy_group in Hg. destruct (dict_get "tool_calls" d) as [| | | | |[|c cs]|]; try by apply elem_of_nil in Hg.
    destruct (_coerce_dispatch_group _) as [g'|] eqn:Hco; [|by apply elem_of_nil in Hg].
    apply list_elem_of_singleton in Hg as ->. by eapply coerced_group_ok.
Qed.

(** ** Histories *)

Inductive dispatch_op :=
| DCheckpoint (phase : string) (metadata : pydict)
| DRecord (session_id : string) (turn_id : option string) (descriptors : list pydict) (metadata : pydict)
| DComplete (session_id : string) (turn_id : option string) (call_ids : list string) (metadata : pydict)
| DMerge (session_id : string) (turn_id : option string) (call_id executor_id : string)
    (executor_instance_id : option string) (dispatch_state : string).

Section Histories.
Context (isoformat : Z → string) (row_session row_turn : option string).

(** A step at a reading of the clock; what raises is rolled back. *)
Definition dispatch_step (outcome : option pydict) (e : Z * dispatch_op) : option pydict :=
  let now := e.1 in
  match e.2 with
  | DCheckpoint phase md =>
      match checkpoint_outcome isoformat row_session row_turn outcome now phase md false with
      | Some o => Some o | None => outcome end
  | DRecord s t ds md =>
      match record_outcome isoformat row_session row_turn outcome now s t ds md with
      | Some o => Some o | None => outcome end
  | DComplete s t ids md =>
      match complete_outcome isoformat row_session row_turn outcome now s t ids md with
      | Some o => Some o | None => outcome end
  | DMerge s t c e i st =>
      match merge_outcome row_session row_turn outcome s t c e i st with
      | Ok (Some o) => Some o | _ => outcome end
  end.

(** The batch an operation is about, and whether it leaves the phase to the store. *)
Definition concerns (k : string * string) (op : dispatch_op) : Prop :=
  match op with
  | DCheckpoint _ _ => False
  | DRecord s t _ _ | DComplete s t _ _ | DMerge s t _ _ _ _ => (s, _resolve_dispatch_turn_id t row_turn) = k
  end.

Definition plain_metadata (op : dispatch_op) : Prop :=
  match op with
  | DRecord _ _ _ md | DComplete _ _ _ md => od_get "phase" md = None
  | _ => True
  end.

Definition in_flight (g : ToolDispatchGroup) (outcome : option pydict) : Prop :=
  g ∈ read_tool_dispatch_groups outcome row_session row_turn ∧
  dict_get "phase" (default [] outcome) = PStr TOOL_IN_FLIGHT_PHASE.

Lemma read_default g outcome :
  g ∈ read_tool_dispatch_groups outcome row_session row_turn →
  g ∈ read_tool_dispatch_groups (Some (default [] outcome)) row_session row_turn.
Proof. by destruct outcome. Qed.

Lemma in_flight_write g new groups preserved o' :
  write_tool_dispatch_groups new groups preserved = Some o' → g ∈ groups → group_ok g →
  dict_get "phase" new = PStr TOOL_IN_FLIGHT_PHASE → in_flight g (Some o').
Proof.
  intros Hw Hg Hok Hp. split; [by eapply write_keeps|]. simpl.
  apply write_recorded in Hw as (_ & _ & _ & Hk). by rewrite Hk.
Qed.

Lemma in_flight_checkpoint g outcome now phase md o' :
  in_flight g outcome → group_ok g →
  checkpoint_outcome isoformat row_session row_turn outcome now phase md false = Some o' → in_flight g (Some o').
Proof.
  intros [Hg Hp] Hok. unfold checkpoint_outcome. apply read_default in Hg. intros Hw.
  eapply in_flight_write; [exact Hw|done|done|].
  destruct (read_tool_dispatch_groups _ _ _) as [|g' gs]; [by apply elem_of_nil in Hg|].
  rewrite !dict_get_set. by rewrite decide_False, decide_False, decide_True.
Qed.

Lemma in_flight_step g outcome e :
  group_ok g → ¬ concerns (group_key g) e.2 → plain_metadata e.2 → in_flight g outcome → in_flight g (dispatch_step outcome e).
Proof.
  intros Hok Hc Hm Hin. pose proof Hin as [Hg Hp]. apply read_default in Hg. unfold dispatch_step.
  destruct e as [now [phase md|s t ds md|s t ids md|s t c x i st]]; simpl in *.
  - destruct (checkpoint_outcome _ _ _ _ _ _ _ _) eqn:Hw; [|done]. by eapply in_flight_checkpoint.
  - destruct (record_outcome _ _ _ _ _ _ _ _ _) eqn:Hw; [|done]. unfold record_outcome in Hw.
    eapply in_flight_write; [exact Hw| |done|by rewrite dict_get_update].
    apply elem_of_app. left. apply list_elem_of_filter. split; [|done]. by apply not_eq_sym.
  - destruct (complete_outcome _ _ _ _ _ _ _ _ _) eqn:Hw; [|done]. unfold complete_outcome in Hw.
    assert (g ∈ without_key (s, _resolve_dispatch_turn_id t row_turn)
                  (read_tool_dispatch_groups (Some (default [] outcome)) row_session row_turn)) as Hr.
    { apply list_elem_of_filter. split; [|done]. by apply not_eq_sym. }
    destruct (without_key _ _) as [|g' gs] eqn:Hwk; [by apply elem_of_nil in Hr|].
    eapply in_flight_write; [exact Hw|done|done|]. rewrite dict_get_set, decide_False by done. by rewrite dict_get_update.
  - unfold merge_outcome. destruct (filter _ _) as [|owner os] eqn:Hf; [done|].
    assert (group_key owner = (s, _resolve_dispatch_turn_id t row_turn)) as Ho.
    { assert (owner ∈ filter (λ g, group_key g = (s, _resolve_dispatch_turn_id t row_turn))
        (read_tool_dispatch_groups (Some (default [] outcome)) row_session row_turn)) as Hin' by (rewrite Hf; left).
      by apply list_elem_of_filter in Hin' as [? _]. }
    destruct (negb _); [done|]. destruct (write_tool_dispatch_groups _ _ _) eqn:Hw; [|done].
    eapply in_flight_write; [exact Hw| |done|done]. apply elem_of_app. left. apply list_elem_of_filter.
    split; [|done]. unfold group_key in *. simpl. rewrite Ho. by apply not_eq_sym.
Qed.
End Histories.

(** C25. No batch in flight is lost: while a turn's sessions record, bind and settle their own
    batches and reach checkpoints, in any order, a batch of another session that is in flight
    stays recorded, descriptor by descriptor, and the turn stays in the phase that makes a
    restart settle it. *)
Theorem in_flight_batches_are_kept isoformat row_session row_turn outcome tr g :
  in_flight row_session row_turn g outcome → Forall (λ c, is_dict c = true) (group_calls g) →
  Forall (λ e, ¬ concerns row_turn (group_key g) e.2 ∧ plain_metadata e.2) tr →
  in_flight row_session row_turn g (run (dispatch_step isoformat row_session row_turn) outcome tr).
Proof.
  intros Hin Hd Htr. assert (group_ok g) as Hok by (destruct Hin; by eapply read_group_ok).
  eapply run_invariant_when; [done|exact Htr|]. intros o e [Hc Hm] Ho. by apply in_flight_step.
Qed.

Lemma as_json_key g raw g' : as_json g = Some raw → _coerce_dispatch_group raw = Some g' → group_key g' = group_key g.
Proof.
  unfold as_json. intros (ds & _ & [= <-])%bind_Some (d & [= <-] & Hs & _ & Ht & _)%coerce_some.
  unfold dict_get in Hs, Ht. simpl in Hs, Ht. injection Hs as Hs. injection Ht as Ht. unfold group_key. by rewrite Hs, Ht.
Qed.

(** Settling a batch releases it, and the turn leaves its phase just when no entry is left. *)
Theorem settled_batch_is_released isoformat s t outcome now session_id turn_id ids md o' :
  complete_outcome isoformat s t outcome now session_id turn_id ids md = Some o' → od_get "phase" md = None →
  (∀ g, g ∈ read_tool_dispatch_groups (Some o') s t → group_key g ≠ (session_id, _resolve_dispatch_turn_id turn_id t)) ∧
  (dict_get "phase" o' = PStr TOOL_IN_FLIGHT_PHASE ∨
   dict_get "phase" o' = PStr TOOL_RESULT_PERSISTED_PHASE ∧
   read_tool_dispatch_groups (Some o') s t = [] ∧ unreadable_tool_dispatch_groups (Some o') = []).
Proof.
  unfold complete_outcome. set (groups := read_tool_dispatch_groups _ s t). set (pre := unreadable_tool_dispatch_groups _).
  set (key := (session_id, _)). intros Hw Hmd.
  destruct (match without_key key groups with [] => _ | _ => _ end) as [phase started] eqn:Hps.
  assert (dict_get "phase" o' = PStr phase) as Hphase.
  { pose proof (write_recorded _ _ _ _ Hw) as (_ & _ & _ & Hk). rewrite Hk by done.
    rewrite dict_get_set, decide_False by done. by rewrite dict_get_update. }
  apply write_recorded in Hw as (jsons & Hj & Hraw & _). apply mapM_Some_1 in Hj. split.
  - intros g Hg. assert (∃ raw, raw ∈ jsons ++ pre ∧ _coerce_dispatch_group raw = Some g) as (raw & Hin & Hc).
    { destruct Hraw as [(Hnil & Hno & Hcalls)|Hraw]; unfold read_tool_dispatch_groups in Hg.
      - rewrite Hno in Hg. unfold legacy_group in Hg. rewrite Hcalls in Hg. by apply elem_of_nil in Hg.
      - rewrite Hraw in Hg. apply list_elem_of_omap in Hg as (raw & ? & ?). by exists raw. }
    apply elem_of_app in Hin as [Hin|Hin].
    + apply list_elem_of_lookup in Hin as [i Hi]. destruct (Forall2_lookup_r _ _ _ _ _ Hj Hi) as (g0 & Hg0 & Hj0).
      rewrite (as_json_key _ _ _ Hj0 Hc). apply list_elem_of_lookup_2, list_elem_of_filter in Hg0. by destruct Hg0.
    + apply list_elem_of_filter in Hin as [Hu _]. unfold unreadable in Hu. apply bool_decide_eq_true in Hu. by destruct Hu; eauto.
  - rewrite Hphase. destruct (without_key key groups) as [|g gs] eqn:Hwk; destruct pre as [|x pre'] eqn:Hpre;
      injection Hps as <- <-; auto. right. split; [done|].
    apply Forall2_nil_inv_l in Hj as ->. destruct Hraw as [(_ & Hno & Hcalls)|Hraw].
    + unfold read_tool_dispatch_groups, unreadable_tool_dispatch_groups. rewrite Hno. unfold legacy_group. by rewrite Hcalls.
    + unfold read_tool_dispatch_groups, unreadable_tool_dispatch_groups. by rewrite Hraw.
Qed.

(** Recording a batch puts it in flight. *)
Lemma recorded_batch_is_in_flight isoformat s t outcome now session_id turn_id ds md o' :
  let g := {| group_session_id := session_id; group_turn_id := _resolve_dispatch_turn_id turn_id t;
              group_calls := PDict <$> ds |} in
  record_outcome isoformat s t outcome now session_id turn_id ds md = Some o' → od_get "phase" md = None →
  session_id ≠ "" → _resolve_dispatch_turn_id turn_id t ≠ "" → ds ≠ [] → in_flight s t g (Some o').
Proof.
  intros g Hw Hmd Hs Ht Hds. unfold record_outcome in Hw. eapply in_flight_write; [exact Hw| | |by rewrite dict_get_update].
  - apply elem_of_app. right. by apply list_elem_of_singleton.
  - split_and!; [done|done|by destruct ds|]. apply Forall_fmap, Forall_true. done.
Qed.

(** ** On concrete outcomes *)

Definition batch (s t call : string) : ToolDispatchGroup :=
  {| group_session_id := s; group_turn_id := t; group_calls := [PDict [("call_id", PStr call)]] |}.

Definition parent_in_flight : option pydict :=
  record_outcome (λ _, "T") (Some "parent") (Some "t1") None 0 "parent" (Some "t1") [[("call_id", PStr "c1")]] [].

Definition child_steps : list (Z * dispatch_op) :=
  [(1, DRecord "child" (Some "t2") [[("call_id", PStr "c2")]] []);
   (2, DMerge "child" (Some "t2") "c2" "x" None "sent"); (3, DCheckpoint "model_response" []);
   (4, DComplete "child" (Some "t2") ["c2"] [])].

Lemma in_flight_batches_are_kept_witness :
  parent_in_flight ≠ None ∧
  in_flight (Some "parent") (Some "t1") (batch "parent" "t1" "c1")
    (run (dispatch_step (λ _, "T") (Some "parent") (Some "t1")) parent_in_flight child_steps).
Proof.
  split; [by vm_compute|].
  apply (in_flight_batches_are_kept (λ _, "T") (Some "parent") (Some "t1") parent_in_flight child_steps).
  - split; [|reflexivity]. vm_compute. apply list_elem_of_here.
  - by apply Forall_singleton.
  - repeat (apply Forall_cons_2 || apply Forall_nil_2); (split; [intros H; vm_compute in H; try discriminate H; done|done]).
Defined.

(** A descriptor that is no dictionary (none is written, but one may be read) is dropped when
    a sibling call of its own batch is bound. *)
Example malformed_descriptor_is_dropped :
  let g := {| group_session_id := "s"; group_turn_id := "t"; group_calls := [PStr "c1"; PDict [("call_id", PStr "c2")]] |} in
  let o := [("tool_dispatch_groups", PList [PDict [("session_id", PStr "s"); ("turn_id", PStr "t");
              ("tool_calls", PList (group_calls g))]])] in
  read_tool_dispatch_groups (Some o) None None = [g] ∧
  match merge_outcome None None (Some o) "s" (Some "t") "c2" "x" None "sent" with
  | Ok o' => group_calls <$> read_tool_dispatch_groups o' None None
  | Err _ => []
  end = [[PDict [("call_id", PStr "c2"); ("executor_id", PStr "x"); ("executor_instance_id", PNone);
                 ("dispatch_state", PStr "sent")]]].
Proof. done. Qed.

(** An empty batch can be recorded, but is unreadable: settling it does not release it. *)
Example empty_batch_is_never_released :
  let o := record_outcome (λ _, "T") None (Some "t") None 0 "s" None [] [] in
  option_map (dict_get "phase") (complete_outcome (λ _, "T") None (Some "t") o 1 "s" None [] [])
    = Some (PStr TOOL_IN_FLIGHT_PHASE).
Proof. done. Qed.
