(* ===== verification/DirectTurns.v ===== *)
(** Direct turns: the durable queue of a conversation's messages ([DirectTurnStore] of
    [cognis/store/direct_turns.py]).

    A message is admitted once as a row of [direct_turn_requests]; a controller that holds the
    lease of its conversation claims it, runs it, and settles it; others take over when the
    lease lapses.  Every UPDATE names the rows it may change, so it is one function of the
    tables; a method that reads a row before its UPDATE takes the row it read ([seen]), which
    may have changed since.  A row read FOR UPDATE is locked until the commit, so such a method
    is one function as a whole.  [now] is the reading of the database clock that is stored,
    [at_] the one in the UPDATE's predicate, both in microseconds.

    Parameters: the validation of payloads by Pydantic, hashing, printing and parsing of
    timestamps.  Attachments are materialised elsewhere. *)

From S2P Require Import Prelude PyVal Lease ToolDispatch.

(** ** Rows *)

Inductive DirectTurnStatus :=
| QUEUED | CLAIMED | RUNNING | ABSORBING | RECOVERABLE | COMPLETED | FAILED | CANCELLED | ABSORBED | AMBIGUOUS.

#[global] Instance DirectTurnStatus_eq_dec : EqDecision DirectTurnStatus.
Proof. solve_decision. Defined.

Definition CLAIMABLE_STATUSES : list DirectTurnStatus := [QUEUED; RECOVERABLE].
Definition ACTIVE_STATUSES : list DirectTurnStatus := [CLAIMED; RUNNING; ABSORBING].
Definition TERMINAL_STATUSES : list DirectTurnStatus := [COMPLETED; FAILED; CANCELLED; ABSORBED; AMBIGUOUS].
Definition NONTERMINAL_STATUSES : list DirectTurnStatus := CLAIMABLE_STATUSES ++ ACTIVE_STATUSES.
Definition OPERATOR_RECOVERY_LEASE_SECONDS : Z := 30000000.

Definition status_in (s : DirectTurnStatus) (l : list DirectTurnStatus) : bool := bool_decide (s ∈ l).

(** [DirectTurnRequestRow]: the columns an admission fixes, then those that change. *)
Record request := MkRequest {
  admission_order : Z;
  request_id : string;
  turn_id : string;
  conversation_id : string;
  agent_id : string;
  user_id : string;
  idempotency_scope : string;
  idempotency_key : string;
  admission_hash : string;
  created_at : Z;
  session_id : option string;
  payload_hash : string;
  payload_version : Z;
  payload : pydict;
  status : DirectTurnStatus;
  owner_controller_id : option string;
  owner_incarnation_id : option string;
  request_fencing_token : option Z;
  attempt_count : Z;
  next_attempt_at : option Z;
  cancel_requested_at : option Z;
  absorbed_by_turn_id : option string;
  outcome : option pydict;
  updated_at : Z;
  claimed_at : option Z;
  started_at : option Z;
  terminal_at : option Z;
}.

(** A column of [.values(...)]. *)
Inductive assignment :=
| Session (x : option string)
| PayloadHash (x : string)
| PayloadVersion (x : Z)
| Payload (x : pydict)
| Status (x : DirectTurnStatus)
| Controller (x : option string)
| Incarnation (x : option string)
| Fence (x : option Z)
| Attempts (x : Z)
| NextAttempt (x : option Z)
| Cancel (x : option Z)
| AbsorbedBy (x : option string)
| Outcome (x : option pydict)
| Updated (x : Z)
| Claimed (x : option Z)
| Started (x : option Z)
| Terminal (x : option Z).

Definition assign (r : request) (a : assignment) : request :=
  match r with
  | MkRequest o i t c a0 u sc k h cr x0 x1 x2 x3 x4 x5 x6 x7 x8 x9 x10 x11 x12 x13 x14 x15 x16 =>
      match a with
      | Session x => MkRequest o i t c a0 u sc k h cr x x1 x2 x3 x4 x5 x6 x7 x8 x9 x10 x11 x12 x13 x14 x15 x16
      | PayloadHash x => MkRequest o i t c a0 u sc k h cr x0 x x2 x3 x4 x5 x6 x7 x8 x9 x10 x11 x12 x13 x14 x15 x16
      | PayloadVersion x => MkRequest o i t c a0 u sc k h cr x0 x1 x x3 x4 x5 x6 x7 x8 x9 x10 x11 x12 x13 x14 x15 x16
      | Payload x => MkRequest o i t c a0 u sc k h cr x0 x1 x2 x x4 x5 x6 x7 x8 x9 x10 x11 x12 x13 x14 x15 x16
      | Status x => MkRequest o i t c a0 u sc k h cr x0 x1 x2 x3 x x5 x6 x7 x8 x9 x10 x11 x12 x13 x14 x15 x16
      | Controller x => MkRequest o i t c a0 u sc k h cr x0 x1 x2 x3 x4 x x6 x7 x8 x9 x10 x11 x12 x13 x14 x15 x16
      | Incarnation x => MkRequest o i t c a0 u sc k h cr x0 x1 x2 x3 x4 x5 x x7 x8 x9 x10 x11 x12 x13 x14 x15 x16
      | Fence x => MkRequest o i t c a0 u sc k h cr x0 x1 x2 x3 x4 x5 x6 x x8 x9 x10 x11 x12 x13 x14 x15 x16
      | Attempts x => MkRequest o i t c a0 u sc k h cr x0 x1 x2 x3 x4 x5 x6 x7 x x9 x10 x11 x12 x13 x14 x15 x16
      | NextAttempt x => MkRequest o i t c a0 u sc k h cr x0 x1 x2 x3 x4 x5 x6 x7 x8 x x10 x11 x12 x13 x14 x15 x16
      | Cancel x => MkRequest o i t c a0 u sc k h cr x0 x1 x2 x3 x4 x5 x6 x7 x8 x9 x x11 x12 x13 x14 x15 x16
      | AbsorbedBy x => MkRequest o i t c a0 u sc k h cr x0 x1 x2 x3 x4 x5 x6 x7 x8 x9 x10 x x12 x13 x14 x15 x16
      | Outcome x => MkRequest o i t c a0 u sc k h cr x0 x1 x2 x3 x4 x5 x6 x7 x8 x9 x10 x11 x x13 x14 x15 x16
      | Updated x => MkRequest o i t c a0 u sc k h cr x0 x1 x2 x3 x4 x5 x6 x7 x8 x9 x10 x11 x12 x x14 x15 x16
      | Claimed x => MkRequest o i t c a0 u sc k h cr x0 x1 x2 x3 x4 x5 x6 x7 x8 x9 x10 x11 x12 x13 x x15 x16
      | Started x => MkRequest o i t c a0 u sc k h cr x0 x1 x2 x3 x4 x5 x6 x7 x8 x9 x10 x11 x12 x13 x14 x x16
      | Terminal x => MkRequest o i t c a0 u sc k h cr x0 x1 x2 x3 x4 x5 x6 x7 x8 x9 x10 x11 x12 x13 x14 x15 x
      end
  end.

Definition assigns (r : request) (l : list assignment) : request := foldl assign r l.

(** ** The tables *)

(** What a settled recovery writes into the link of a managed conversation. *)
Record managed_link := {
  target_conversation_id : string;
  active_turn_id : option string;
  turn_state : string;
  notify_on_completion : bool;
  last_error : option string;
  last_result_turn_id : option string;
  handoff_pending : bool;
  link_completed_at : option Z;
  link_updated_at : Z;
}.

Record outbox_row := {
  delivery_request : string;
  delivery_fence : option Z;
  delivery_session : option string;
  delivery_descriptor : pydict;
  delivery_text : string;
}.

(** [requests] in order of admission; [seen] holds the rows that some method has read before
    its UPDATE; [unavailable_since] is the conversations' column of a plain conversation. *)
Record world := World {
  leases : gmap string lease_row;
  requests : list request;
  next_order : Z;
  seen : list request;
  unavailable_since : gmap string (option Z);
  links : list managed_link;
  outbox : gmap string outbox_row;
  audits : gmap string string;
}.

Definition set_requests (l : list request) (w : world) : world :=
  World (leases w) l (next_order w) (seen w) (unavailable_since w) (links w) (outbox w) (audits w).
Definition set_leases (m : gmap string lease_row) (w : world) : world :=
  World m (requests w) (next_order w) (seen w) (unavailable_since w) (links w) (outbox w) (audits w).

Definition conversation_lease_key (conversation_id : string) : string := "direct-turn:conversation:" +:+ conversation_id.
Definition _owner_id (controller_id incarnation_id : string) : string := controller_id +:+ ":" +:+ incarnation_id.

#[global] Arguments conversation_lease_key : simpl never.
#[global] Arguments _owner_id : simpl never.

(** ** Reading *)

Definition find_request (w : world) (rid : string) : option (nat * request) :=
  list_find (λ r, request_id r = rid) (requests w).

Definition select_request (w : world) (rid : string) : option request := snd <$> find_request w rid.

Definition get (w : world) (rid : string) : option request := select_request w rid.

Definition get_cancel_state (w : world) (rid : string) : option (DirectTurnStatus * option Z) :=
  r ← select_request w rid; Some (status r, cancel_requested_at r).

(** An earlier request of the same conversation that is not settled. *)
Definition precedes (e r : request) : bool :=
  bool_decide (conversation_id e = conversation_id r) && (admission_order e <? admission_order r) &&
  status_in (status e) NONTERMINAL_STATUSES.

Definition has_predecessor (w : world) (r : request) : bool := existsb (λ e, precedes e r) (requests w).

Definition due (now : Z) (r : request) : bool :=
  match next_attempt_at r with None => true | Some t => t <=? now end.

(** [limit(max(1, limit))] *)
Definition limited {A} (limit : nat) (l : list A) : list A := take (Nat.max 1 limit) l.

Definition claimable_head (w : world) (now : Z) (r : request) : bool :=
  status_in (status r) CLAIMABLE_STATUSES && due now r && negb (has_predecessor w r).

Definition list_claimable_heads (w : world) (now : Z) (limit : nat) : list request :=
  limited limit (filter (λ r, claimable_head w now r = true) (requests w)).

Definition in_conversation (c : string) (l : list DirectTurnStatus) (r : request) : bool :=
  bool_decide (conversation_id r = c) && status_in (status r) l.

Definition list_conversation_pending (w : world) (c : string) : list request :=
  filter (λ r, in_conversation c NONTERMINAL_STATUSES r = true) (requests w).

Definition active_or_recoverable (include_recoverable : bool) : list DirectTurnStatus :=
  ACTIVE_STATUSES ++ (if include_recoverable then [RECOVERABLE] else []).

Definition get_conversation_active (w : world) (c : string) (include_recoverable : bool) : option request :=
  head (filter (λ r, in_conversation c (active_or_recoverable include_recoverable) r = true) (requests w)).

Definition list_conversations_active (w : world) (cs : list string) (include_recoverable : bool) : gmap string request :=
  foldl (λ rows r, match rows !! conversation_id r with None => <[conversation_id r := r]> rows | Some _ => rows end) ∅
    (filter (λ r, bool_decide (conversation_id r ∈ cs) && status_in (status r) (active_or_recoverable include_recoverable) = true)
       (requests w)).

(** Active state, or the latest generation. *)
Definition historical : list DirectTurnStatus := ACTIVE_STATUSES ++ [RECOVERABLE; COMPLETED; FAILED; CANCELLED; AMBIGUOUS].

Definition authority_rank (r : request) : Z * Z * Z * Z :=
  ((if status_in (status r) ACTIVE_STATUSES then 0 else 1),
   (if request_fencing_token r then 0 else 1), - default 0 (request_fencing_token r), - admission_order r).

Definition quad_le (x y : Z * Z * Z * Z) : Prop :=
  let '(a, b, c, d) := x in let '(e, f, g, h) := y in
  a < e ∨ a = e ∧ (b < f ∨ b = f ∧ (c < g ∨ c = g ∧ d ≤ h)).

#[global] Instance quad_le_dec x y : Decision (quad_le x y).
Proof. destruct x as [[[? ?] ?] ?], y as [[[? ?] ?] ?]. unfold quad_le. apply _. Defined.

Definition more_authority (r r' : request) : Prop := quad_le (authority_rank r) (authority_rank r').

#[global] Instance more_authority_dec r r' : Decision (more_authority r r').
Proof. unfold more_authority. apply _. Defined.

Definition get_conversation_runtime_authority_row (w : world) (c : string) : option request :=
  head (merge_sort more_authority (filter (λ r, in_conversation c historical r = true) (requests w))).

(** ** Ownership *)

Definition _lease_predicate (w : world) (lease : Lease) (at_ : Z) : bool := is_current_in_session (leases w) lease at_.

Definition owner_of (r : request) : option string :=
  c ← owner_controller_id r; i ← owner_incarnation_id r; Some (_owner_id c i).

(** The tuple of the row is that of the lease. *)
Definition owns (r : request) (lease : Lease) : bool :=
  bool_decide (owner_of r = Some (owner_id lease)) && bool_decide (request_fencing_token r = Some (fencing_token lease)) &&
  bool_decide (resource_key lease = conversation_lease_key (conversation_id r)).

Definition _owns_live_fence (r : request) (lease : Lease) : bool :=
  status_in (status r) ACTIVE_STATUSES && owns r lease.

Definition has_fence (w : world) (rid : string) (lease : Lease) (at_ : Z) : bool :=
  match select_request w rid with
  | Some r => _owns_live_fence r lease && _lease_predicate w lease at_
  | None => false
  end.

(** An active row whose own tuple holds the lease of its conversation. *)
Definition own_lease_current (w : world) (r : request) (now : Z) : bool :=
  match owner_of r, request_fencing_token r with
  | Some o, Some f => _lease_predicate w (MkLease (conversation_lease_key (conversation_id r)) o f 0) now
  | _, _ => false
  end.

Definition stale_active (w : world) (now : Z) (r : request) : bool :=
  status_in (status r) ACTIVE_STATUSES && negb (own_lease_current w r now).

Definition list_stale_active (w : world) (now : Z) (limit : nat) : list request :=
  limited limit (filter (λ r, stale_active w now r = true) (requests w)).

Definition list_stale_active_page (w : world) (now after_admission_order : Z) (limit : nat) : list request * bool :=
  let bounded := Nat.min (Nat.max 1 limit) 100 in
  let rows := take (S bounded)
                (filter (λ r, (after_admission_order <? admission_order r) && stale_active w now r = true) (requests w)) in
  (take bounded rows, (bounded <? length rows)%nat).

(** ** Updates *)

(** [UPDATE ... WHERE request_id = rid AND where_ ... RETURNING] *)
Definition update_request (rid : string) (where_ : request → bool) (values : request → list assignment) (w : world) :
    option request * world :=
  match find_request w rid with
  | Some (i, r) =>
      if where_ r then let r' := assigns r (values r) in (Some r', set_requests (<[i := r']> (requests w)) w)
      else (None, w)
  | None => (None, w)
  end.

(** [_fenced_update] *)
Definition _fenced_update (seen_ : option request) (rid : string) (lease : Lease) (statuses : list DirectTurnStatus)
    (values : request → list assignment) (enforce_fifo : bool) (at_ : Z) (w : world) : option request * world :=
  match seen_ with
  | None => (None, w)
  | Some s =>
      if negb (bool_decide (resource_key lease = conversation_lease_key (conversation_id s))) then (None, w) else
      update_request rid (λ r, status_in (status r) statuses && _lease_predicate w lease at_ &&
                               (negb enforce_fifo || negb (has_predecessor w r))) values w
  end.

(** [_owned_fenced_update] *)
Definition _owned_fenced_update (seen_ : option request) (rid : string) (lease : Lease) (statuses : list DirectTurnStatus)
    (values : request → list assignment) (extra : request → bool) (at_ : Z) (w : world) : option request * world :=
  match seen_ with
  | None => (None, w)
  | Some s =>
      if negb (bool_decide (resource_key lease = conversation_lease_key (conversation_id s))) then (None, w)
      else if negb (bool_decide (owner_of s = Some (owner_id lease))) then (None, w) else
      update_request rid (λ r, status_in (status r) statuses &&
          bool_decide (owner_controller_id r = owner_controller_id s) &&
          bool_decide (owner_incarnation_id r = owner_incarnation_id s) &&
          bool_decide (request_fencing_token r = Some (fencing_token lease)) &&
          _lease_predicate w lease at_ && extra r) values w
  end.

Definition no_extra : request → bool := λ _, true.
Definition not_cancelled (r : request) : bool := bool_decide (cancel_requested_at r = None).

(** What the store raises: [ValueError], a conflict of ids or idempotency keys, a refused
    admission or recovery, an error of a malformed descriptor, a failing database. *)
Inductive TurnError :=
| EValue (m : string)
| EConflict (m : string)
| ERejected (m : string)
| ERecovery (code : string)
| EDescriptor
| EOperational.

Definition released : list assignment := [Controller None; Incarnation None].

(** Settling: the status, the outcome and the time of it. *)
Definition settle (s : DirectTurnStatus) (o : option pydict) (now : Z) : list assignment :=
  [Status s; Outcome o; Terminal (Some now); Updated now].

Section Store.
Context (canonical_hash : pydict → string) (isoformat : Z → string) (fromisoformat : string → option Z).
Context (model_validate : pydict → option pydict).
Context (evidence_origin : pyval → option pyval) (evidence_admission : pyval → option (pyval * bool)).

(** *** Admission *)

Definition ADMISSION_KEY : string := "trusted_evidence_admission".

Definition metadata_of (payload : pydict) : pydict := match dict_get "metadata" payload with PDict d => d | _ => [] end.

Definition normalize_key (k : string) (f : pyval → option pyval) (d : pydict) : result TurnError pydict :=
  match dict_get k d with
  | PNone => Ok d
  | v => match f v with
         | Some v' => Ok (od_set k v' d)
         | None => Err (EValue ("metadata." +:+ k +:+ " is invalid"))
         end
  end.

Definition _validated_payload (payload : pydict) (payload_version : Z) : result TurnError pydict :=
  if negb (payload_version =? 1) then Err (EValue "unsupported direct-turn payload version")
  else if negb (py_eq (dict_get "schema_version" payload) (PInt payload_version))
  then Err (EValue "payload schema_version does not match payload_version")
  else match model_validate payload with
       | None => Err (EValue "invalid payload")
       | Some normalized =>
           let? md := normalize_key "evidence_origin" evidence_origin (metadata_of normalized) in
           let? md := normalize_key ADMISSION_KEY (λ v, fst <$> evidence_admission v) md in
           let normalized := od_set "metadata" (PDict md) normalized in
           Ok (match od_get "retry_reason" payload with Some _ => normalized | None => od_del "retry_reason" normalized end)
       end.

(** The payload without what the server adds to it. *)
Definition _admission_descriptor_payload (payload : pydict) (generated : bool) : pydict :=
  match dict_get "metadata" payload with
  | PDict md =>
      let md' := od_del ADMISSION_KEY md in
      let md' := if generated then
                   match dict_get "user_message_metadata" md with
                   | PDict envelope => od_set "user_message_metadata" (PDict (od_del "ts" envelope)) md'
                   | _ => md'
                   end
                 else md' in
      od_set "metadata" (PDict md') payload
  | _ => payload
  end.

(** What a client sends, with the ids drawn for a new row. *)
Record submission := {
  sub_conversation : string;
  sub_session : option string;
  sub_agent : string;
  sub_user : string;
  sub_scope : string;
  sub_key : string;
  sub_payload : pydict;
  sub_version : Z;
  sub_generated : bool;
  sub_request_id : string;
  sub_turn_id : string;
}.

Definition descriptor (s : submission) (payload : pydict) (generated : bool) : pydict :=
  [("conversation_id", PStr (sub_conversation s)); ("agent_id", PStr (sub_agent s)); ("user_id", PStr (sub_user s));
   ("payload_version", PInt (sub_version s)); ("payload", PDict (_admission_descriptor_payload payload generated))].

Definition admission_hash_of (s : submission) (payload : pydict) : string :=
  canonical_hash (descriptor s payload (sub_generated s) ++ [("generated_user_message_metadata", PBool (sub_generated s))]).

Definition legacy_admission_hash_of (s : submission) (payload : pydict) : string :=
  canonical_hash (descriptor s payload false).

Definition new_request (s : submission) (payload : pydict) (order now : Z) : request :=
  MkRequest order (sub_request_id s) (sub_turn_id s) (sub_conversation s) (sub_agent s) (sub_user s) (sub_scope s)
    (sub_key s) (admission_hash_of s payload) now (sub_session s) (canonical_hash payload) (sub_version s) payload QUEUED
    None None None 0 None None None None now None None None.

(** A row that a unique constraint keeps the new one out for. *)
Definition collides (s : submission) (r : request) : bool :=
  bool_decide (request_id r = sub_request_id s) || bool_decide (turn_id r = sub_turn_id s) ||
  (bool_decide (idempotency_scope r = sub_scope s) && bool_decide (idempotency_key r = sub_key s)).

Definition same_key (s : submission) (r : request) : bool :=
  bool_decide (idempotency_scope r = sub_scope s) && bool_decide (idempotency_key r = sub_key s).

Definition insert_request (r : request) (w : world) : world :=
  World (leases w) (requests w ++ [r]) (next_order w + 1) (seen w) (unavailable_since w) (links w) (outbox w) (audits w).

Record AdmissionResult := { admitted : request; created : bool; queued_behind_predecessor : bool }.

(** What a caller does in the transaction of an admission: it may raise, and all is undone. *)
Definition participant := request → bool → world → result TurnError world.

Definition _admit_once (s : submission) (payload : pydict) (guard : bool) (p : participant) (now : Z) (w : world) :
    result TurnError AdmissionResult * world :=
  if negb guard then (Err (ERejected "durable admission fence changed"), w) else
  let outcome_ :=
    if existsb (collides s) (requests w) then
      match snd <$> list_find (λ r, same_key s r = true) (requests w) with
      | None => Err (EConflict "request_id or turn_id already exists")
      | Some row =>
          if bool_decide (admission_hash row ∈ [admission_hash_of s payload; legacy_admission_hash_of s payload])
          then Ok (row, false, w)
          else Err (EConflict "idempotency key was reused with a different request")
      end
    else let row := new_request s payload (next_order w) now in Ok (row, true, insert_request row w) in
  match outcome_ with
  | Err e => (Err e, w)
  | Ok (row, new, w') =>
      match p row new w' with
      | Err e => (Err e, w)
      | Ok w' => (Ok {| admitted := row; created := new; queued_behind_predecessor := has_predecessor w' row |}, w')
      end
  end.

(** Up to three attempts: the reading of the clock of the first that the database accepts. *)
Definition admit_ (s : submission) (guard : bool) (p : participant) (attempts : nat → attempt) (w : world) :
    result TurnError AdmissionResult * world :=
  match _validated_payload (sub_payload s) (sub_version s) with
  | Err e => (Err e, w)
  | Ok payload =>
      match first_attempt 3 0 attempts with
      | None => (Err EOperational, w)
      | Some now => _admit_once s payload guard p now w
      end
  end.

Definition no_participant : participant := λ _ _ w, Ok w.

(** [handoff]: a successor's admission completes its predecessor. *)
Definition handoff_outcome (successor : request) : pydict :=
  [("phase", PStr "automatic_continuation_handoff"); ("successor_request_id", PStr (request_id successor));
   ("successor_turn_id", PStr (turn_id successor))].

Definition handoff (rid turn : string) (lease : Lease) (now at_ : Z) (successor : request) (w : world) :
    result TurnError bool * world :=
  match select_request w rid with
  | None => (Err (ERejected "continuation predecessor mismatch"), w)
  | Some p =>
      if negb (bool_decide (conversation_id p = conversation_id successor)) || negb (bool_decide (turn_id p = turn))
      then (Err (ERejected "continuation predecessor mismatch"), w)
      else if bool_decide (status p = COMPLETED) then
        match outcome p with
        | Some o => if py_eq (PDict o) (PDict (handoff_outcome successor)) then (Ok false, w)
                    else (Err (ERejected "continuation predecessor already settled"), w)
        | None => (Err (ERejected "continuation predecessor already settled"), w)
        end
      else
        match _owned_fenced_update (Some p) rid lease ACTIVE_STATUSES
                (λ _, settle COMPLETED (Some (handoff_outcome successor)) now) not_cancelled at_ w with
        | (Some _, w') => (Ok true, w')
        | (None, _) => (Err (ERejected "continuation predecessor fence changed"), w)
        end
  end.

Definition handoff_participant (rid turn : string) (lease : Lease) (now at_ : Z) : participant := λ successor _ w,
  match handoff rid turn lease now at_ successor w with
  | (Ok _, w') => Ok w'
  | (Err e, _) => Err e
  end.

(** *** Editing and cancelling *)

Definition admission_admitted (payload : pydict) : bool :=
  match evidence_admission (dict_get ADMISSION_KEY (metadata_of payload)) with Some (_, b) => b | None => false end.

Definition direct_turn_content_is_editable (r : request) : bool :=
  bool_decide (status r = QUEUED) && negb (admission_admitted (payload r)).

Definition fields_changed (p q : pydict) : bool :=
  existsb (λ k, negb (py_eq (dict_get k p) (dict_get k q))) ["content"; "attachments"].

(** The proposed payload, with the admission record that must not change. *)
Definition edited_payload (r : request) (new : pydict) : result TurnError pydict :=
  let current := dict_get ADMISSION_KEY (metadata_of (payload r)) in
  if negb (direct_turn_content_is_editable r) && fields_changed new (payload r)
  then Err (EValue "content and attachments are immutable after trusted evidence admission") else
  let proposed := metadata_of new in
  let given := dict_get ADMISSION_KEY proposed in
  if negb (is_none given) && negb (py_eq given current) then Err (EValue "trusted evidence admission is immutable") else
  Ok (od_set "metadata" (PDict (if is_none current then proposed else od_set ADMISSION_KEY current proposed)) new).

Definition edit (rid : string) (new : pydict) (version : Z) (expected_payload_hash : option string) (now : Z) (w : world) :
    result TurnError (option request) * world :=
  match select_request w rid with
  | None => (Ok None, w)
  | Some r =>
      if negb (bool_decide (status r = QUEUED)) then (Ok None, w)
      else if match expected_payload_hash with Some h => negb (bool_decide (payload_hash r = h)) | None => false end
      then (Ok None, w)
      else match (let? p := edited_payload r new in _validated_payload p version) with
           | Err e => (Err e, w)
           | Ok p =>
               let '(row, w') := update_request rid (λ r', bool_decide (status r' = QUEUED) &&
                                     bool_decide (payload_hash r' = payload_hash r))
                                   (λ _, [Payload p; PayloadHash (canonical_hash p); PayloadVersion version; Updated now]) w in
               (Ok row, w')
           end
  end.

(** Idle work is cancelled, active work flagged. *)
Definition cancel_values (now : Z) (r : request) : list assignment :=
  [Cancel (Some now); Updated now] ++
  (if status_in (status r) CLAIMABLE_STATUSES then [Status CANCELLED; Terminal (Some now); NextAttempt None] else []).

Definition cancel_row (rid : string) (now : Z) (w : world) : option request * world :=
  update_request rid (λ r, status_in (status r) NONTERMINAL_STATUSES) (cancel_values now) w.

(** The row as it is then, and whether an active turn has been asked to stop. *)
Definition request_cancel (rid : string) (now : Z) (w : world) : option (request * bool) * world :=
  let '(row, w') := cancel_row rid now w in
  match row with
  | Some r => (Some (r, status_in (status r) ACTIVE_STATUSES), w')
  | None =>
      ((λ r, (r, status_in (status r) ACTIVE_STATUSES && bool_decide (is_Some (cancel_requested_at r)))) <$>
         select_request w rid, w)
  end.

Definition phase_of (r : request) : pyval := dict_get "phase" (default [] (outcome r)).
Definition is_handoff (r : request) : bool := py_eq (phase_of r) (PStr "automatic_continuation_handoff").

(** Following the handoffs from a row: [fuel] is the number of rows, and no row is met twice. *)
Fixpoint follow_handoffs (fuel : nat) (w : world) (c : string) (visited : list string) (active : option request) :
    option request :=
  match fuel, active with
  | S fuel, Some r =>
      if bool_decide (conversation_id r = c) && negb (bool_decide (request_id r ∈ visited)) && is_handoff r then
        match dict_get "successor_request_id" (default [] (outcome r)) with
        | PStr s => follow_handoffs fuel w c (request_id r :: visited) (select_request w s)
        | _ => None
        end
      else active
  | _, _ => active
  end.

(** The turn a stop is about: the given one, the running one, or the last handed off. *)
Definition first_active (w : world) (c : string) (active_request_id : option string) (rows : list request) : option request :=
  match (rid ← active_request_id; if bool_decide (rid = "") then None else select_request w rid) with
  | Some r => Some r
  | None =>
      match head (filter (λ r, status_in (status r) [CLAIMED; RUNNING] = true) rows) with
      | Some r => Some r
      | None => last (filter (λ r, in_conversation c [COMPLETED] r && is_handoff r = true) (requests w))
      end
  end.

Definition cancel_targets (w : world) (c : string) (clear_queue : bool) (active_request_id : option string) : list request :=
  let rows := list_conversation_pending w c in
  if clear_queue then rows else
  let active := follow_handoffs (S (length (requests w))) w c [] (first_active w c active_request_id rows) in
  let among r := existsb (λ x, bool_decide (request_id x = request_id r)) rows in
  match active with
  | Some r =>
      if among r then [r]
      else if active_request_id then []
      else option_list (head (filter (λ r, status r = RECOVERABLE) rows))
  | None => option_list (head (filter (λ r, status r = RECOVERABLE) rows))
  end.

Definition cancel_step (now : Z) (acc : list (request * bool) * world) (r : request) : list (request * bool) * world :=
  let '(results, w) := acc in
  match cancel_row (request_id r) now w with
  | (Some r', w') => (results ++ [(r', status_in (status r') ACTIVE_STATUSES)], w')
  | (None, _) => (results, w)
  end.

(** The conversation is locked: admissions and claims wait. *)
Definition cancel_conversation (c : string) (clear_queue : bool) (active_request_id : option string) (now : Z) (w : world) :
    list (request * bool) * world :=
  foldl (cancel_step now) ([], w) (cancel_targets w c clear_queue active_request_id).

Definition expedite_provider_retry (c session : string) (previous_runtime_revision : Z) (now : Z) (w : world) :
    option request * world :=
  match head (filter (λ r, in_conversation c [RECOVERABLE] r = true) (requests w)) with
  | None => (None, w)
  | Some r =>
      let o := default [] (outcome r) in
      let retry_session := match session_id r with Some ((String.String _ _) as s) => PStr s | _ => dict_get "session_id" o end in
      if negb (py_eq retry_session (PStr session)) then (None, w) else
      match dict_get "retry_target" o with
      | PDict t =>
          if py_eq (dict_get "scope" t) (PStr "provider_model") &&
             py_eq (dict_get "runtime_revision" t) (PInt previous_runtime_revision) then
            match next_attempt_at r with
            | None => (None, w)
            | Some _ => update_request (request_id r) (λ _, true) (λ _, [NextAttempt (Some now); Updated now]) w
            end
          else (None, w)
      | _ => (None, w)
      end
  end.

(** *** Working under the fence *)

Definition opt_dict (o : option pydict) : pydict := default [] o.

(** A row locked FOR UPDATE whose fence and lease are checked before it is written. *)
Definition locked_by (w : world) (rid : string) (lease : Lease) (at_ : Z) : option request :=
  r ← select_request w rid;
  if _owns_live_fence r lease && _lease_predicate w lease at_ then Some r else None.

(** The locked row with a new outcome; [None] for the outcome is an error. *)
Definition write_outcome (rid : string) (o : option pydict) (now : Z) (w : world) : result TurnError (option request) * world :=
  match o with
  | None => (Err EDescriptor, w)
  | Some o => let '(row, w') := update_request rid (λ _, true) (λ _, [Outcome (Some o); Updated now]) w in (Ok row, w')
  end.

Definition checkpoint (rid : string) (lease : Lease) (phase : string) (metadata : pydict) (clear_tool_dispatch : bool)
    (now at_ : Z) (w : world) : result TurnError (option request) * world :=
  match locked_by w rid lease at_ with
  | None => (Ok None, w)
  | Some r => write_outcome rid (checkpoint_outcome isoformat (session_id r) (Some (turn_id r)) (outcome r) now phase metadata
                                   clear_tool_dispatch) now w
  end.

Definition record_tool_dispatch (rid : string) (lease : Lease) (session : string) (turn : option string)
    (descriptors : list pydict) (metadata : pydict) (now at_ : Z) (w : world) : result TurnError (option request) * world :=
  match locked_by w rid lease at_ with
  | None => (Ok None, w)
  | Some r => write_outcome rid (record_outcome isoformat (session_id r) (Some (turn_id r)) (outcome r) now session turn
                                   descriptors metadata) now w
  end.

Definition complete_tool_dispatch (rid : string) (lease : Lease) (session : string) (turn : option string)
    (call_ids : list string) (metadata : pydict) (now at_ : Z) (w : world) : result TurnError (option request) * world :=
  match locked_by w rid lease at_ with
  | None => (Ok None, w)
  | Some r => write_outcome rid (complete_outcome isoformat (session_id r) (Some (turn_id r)) (outcome r) now session turn
                                   call_ids metadata) now w
  end.

Inductive ToolDispatchMergeStatus := MERGED | FENCE_LOST | MERGE_CANCELLED | UNKNOWN_CALL.

Definition merge_tool_dispatch (rid : string) (lease : Lease) (session : string) (turn : option string)
    (call_id executor_id : string) (executor_instance_id : option string) (dispatch_state : string) (now at_ : Z)
    (w : world) : result TurnError (ToolDispatchMergeStatus * option request) * world :=
  match locked_by w rid lease at_ with
  | None => (Ok (FENCE_LOST, None), w)
  | Some r =>
      if negb (not_cancelled r) then (Ok (MERGE_CANCELLED, None), w) else
      match merge_outcome (session_id r) (Some (turn_id r)) (outcome r) session turn call_id executor_id
              executor_instance_id dispatch_state with
      | Err _ => (Ok (UNKNOWN_CALL, None), w)
      | Ok o => let '(row, w') := write_outcome rid o now w in ((let? row := row in Ok (MERGED, row)), w')
      end
  end.

Definition fence_held (s : ToolDispatchMergeStatus) : bool := match s with MERGED | UNKNOWN_CALL => true | _ => false end.

Definition mark_running (seen_ : option request) (rid : string) (lease : Lease) (now at_ : Z) (w : world) : option request * world :=
  _owned_fenced_update seen_ rid lease [CLAIMED] (λ _, [Status RUNNING; Started (Some now); Updated now]) no_extra at_ w.

(** The claim of a head.  The caller's lease must name it. *)
Definition claim_values (lease : Lease) (controller incarnation : string) (session : option string) (now : Z) (r : request) :
    list assignment :=
  [Status CLAIMED; Controller (Some controller); Incarnation (Some incarnation); Fence (Some (fencing_token lease));
   Attempts (attempt_count r + 1); Claimed (Some now); Started None; Terminal None; NextAttempt None; Updated now] ++
  match session with Some s => [Session (Some s)] | None => [] end.

(** The first claim gives the pinned executor a new recovery budget. *)
Definition reset_recovery_budget (r : request) (w : world) : world :=
  World (leases w) (requests w) (next_order w) (seen w)
    (if attempt_count r =? 1 then alter (λ _, None) (conversation_id r) (unavailable_since w) else unavailable_since w)
    (links w) (outbox w) (audits w).

Definition claim (seen_ : option request) (rid : string) (lease : Lease) (controller incarnation : string)
    (session : option string) (now at_ : Z) (w : world) : result TurnError (option request) * world :=
  if negb (bool_decide (owner_id lease = _owner_id controller incarnation))
  then (Err (EValue "lease owner does not match controller incarnation"), w) else
  match _fenced_update seen_ rid lease CLAIMABLE_STATUSES (claim_values lease controller incarnation session now) true at_ w with
  | (Some r, w') => (Ok (Some r), reset_recovery_budget r w')
  | (None, w') => (Ok None, w')
  end.

(** A message that joins a running turn; it need not be the head. *)
Definition absorb_values (lease : Lease) (controller incarnation absorbed_by : string) (session : option string) (now : Z)
    (r : request) : list assignment :=
  [Status ABSORBING; Controller (Some controller); Incarnation (Some incarnation); Fence (Some (fencing_token lease));
   Attempts (attempt_count r + 1); AbsorbedBy (Some absorbed_by);
   Outcome (Some [("phase", PStr "canonical_user_append"); ("phase_started_at", PStr (isoformat now));
                  ("session_id", opt_str session)]); Claimed (Some now); Updated now].

Definition begin_absorb (seen_ : option request) (rid : string) (lease : Lease) (controller incarnation absorbed_by : string)
    (session : option string) (now at_ : Z) (w : world) : result TurnError (option request) * world :=
  if negb (bool_decide (owner_id lease = _owner_id controller incarnation))
  then (Err (EValue "lease owner does not match controller incarnation"), w) else
  let '(row, w') := _fenced_update seen_ rid lease [QUEUED; RECOVERABLE]
                      (absorb_values lease controller incarnation absorbed_by session now) false at_ w in
  (Ok row, w').

(** *** Settling *)

Definition _mark_terminal (seen_ : option request) (rid : string) (lease : Lease) (from : list DirectTurnStatus)
    (s : DirectTurnStatus) (o : option pydict) (now at_ : Z) (w : world) : option request * world :=
  _owned_fenced_update seen_ rid lease from (λ _, settle s o now) no_extra at_ w.

Definition mark_absorbed (seen_ : option request) (rid : string) (lease : Lease) (now at_ : Z) (w : world) : option request * world :=
  _mark_terminal seen_ rid lease [ABSORBING] ABSORBED None now at_ w.

Definition mark_terminal (seen_ : option request) (rid : string) (lease : Lease) (s : DirectTurnStatus) (o : option pydict)
    (now at_ : Z) (w : world) : result TurnError (option request) * world :=
  if status_in s [COMPLETED; FAILED; CANCELLED; AMBIGUOUS] then
    let '(row, w') := _mark_terminal seen_ rid lease ACTIVE_STATUSES s o now at_ w in (Ok row, w')
  else (Err (EValue "unsupported terminal status"), w).

Definition mark_recoverable (seen_ : option request) (rid : string) (lease : Lease) (o : option pydict) (now at_ : Z) (w : world) :
    option request * world :=
  _owned_fenced_update seen_ rid lease ACTIVE_STATUSES
    (λ _, [Status RECOVERABLE] ++ released ++ [Outcome o; Updated now]) no_extra at_ w.

(** A transient failure is retried later, unless the turn was asked to stop: then the row is
    returned as it is. *)
Definition settle_transient_failure (seen_ : option request) (rid : string) (lease : Lease) (o : pydict)
    (retry_after : option Z) (now at_ : Z) (w : world) : option request * world :=
  match _owned_fenced_update seen_ rid lease ACTIVE_STATUSES
          (λ _, [Status RECOVERABLE] ++ released ++
                [Outcome (Some o); NextAttempt ((λ d, now + d) <$> retry_after); Terminal None; Updated now])
          not_cancelled at_ w with
  | (Some r, w') => (Some r, w')
  | (None, w') =>
      (r ← select_request w' rid;
       if status_in (status r) ACTIVE_STATUSES && bool_decide (owner_of r = Some (owner_id lease)) &&
          bool_decide (request_fencing_token r = Some (fencing_token lease)) && negb (not_cancelled r) &&
          _lease_predicate w' lease at_ then Some r else None, w')
  end.

(** *** Recovery of stale work *)

(** A row read under an older fence than the lease of its conversation. *)
Definition older_fence (s : request) (lease : Lease) : bool :=
  bool_decide (resource_key lease = conversation_lease_key (conversation_id s)) &&
  match request_fencing_token s with Some f => f <? fencing_token lease | None => false end.

(** UPDATE of such a row while its status and fence are still what was read. *)
Definition stale_update (seen_ : option request) (rid : string) (lease : Lease) (read_as now_in : list DirectTurnStatus)
    (cancelled : bool) (values : request → list assignment) (at_ : Z) (w : world) : option request * world :=
  match seen_ with
  | None => (None, w)
  | Some s =>
      if negb (older_fence s lease && status_in (status s) read_as) then (None, w) else
      update_request rid (λ r, status_in (status r) now_in &&
          bool_decide (request_fencing_token r = request_fencing_token s) &&
          eqb (negb (not_cancelled r)) cancelled && _lease_predicate w lease at_) values w
  end.

Definition all_statuses : list DirectTurnStatus := NONTERMINAL_STATUSES ++ TERMINAL_STATUSES.

Definition recover_stale_claim (seen_ : option request) (rid : string) (lease : Lease) (o : option pydict) (now at_ : Z) (w : world) :
    option request * world :=
  stale_update seen_ rid lease all_statuses [CLAIMED] false
    (λ _, [Status RECOVERABLE] ++ released ++ [Outcome o; Updated now]) at_ w.

Definition mark_stale_ambiguous (seen_ : option request) (rid : string) (lease : Lease) (o : pydict) (now at_ : Z) (w : world) :
    option request * world :=
  stale_update seen_ rid lease all_statuses [RUNNING; ABSORBING] false (λ _, settle AMBIGUOUS (Some o) now) at_ w.

Definition reconcile_stale_absorbed (seen_ : option request) (rid : string) (lease : Lease) (now at_ : Z) (w : world) :
    option request * world :=
  stale_update seen_ rid lease [ABSORBING] [ABSORBING] false
    (λ _, settle ABSORBED (Some [("phase", PStr "reconciled_absorbed")]) now) at_ w.

Definition reconcile_stale_completed (seen_ : option request) (rid : string) (lease : Lease) (o : pydict) (now at_ : Z) (w : world) :
    option request * world :=
  stale_update seen_ rid lease [RUNNING] [RUNNING] false (λ _, settle COMPLETED (Some o) now) at_ w.

Definition cancel_stale_active (seen_ : option request) (rid : string) (lease : Lease) (now at_ : Z) (w : world) :
    option request * world :=
  match seen_ with
  | Some s =>
      if not_cancelled s then (None, w) else
      stale_update seen_ rid lease ACTIVE_STATUSES ACTIVE_STATUSES true
        (λ _, released ++ settle CANCELLED (Some [("phase", PStr "cancelled");
                                                  ("reason", PStr "stale owner cancellation recovered")]) now) at_ w
  | None => (None, w)
  end.

Definition recover_stale_absorbing (seen_ : option request) (rid : string) (lease : Lease) (now at_ : Z) (w : world) :
    option request * world :=
  stale_update seen_ rid lease [ABSORBING] [ABSORBING] false
    (λ _, [Status RECOVERABLE] ++ released ++
          [AbsorbedBy None; Outcome (Some [("phase", PStr "recovered_uncommitted_absorb")]); Updated now]) at_ w.

Definition recover_stale_running (seen_ : option request) (rid : string) (lease : Lease) (o : pydict) (now at_ : Z) (w : world) :
    option request * world :=
  stale_update seen_ rid lease [RUNNING] [RUNNING] false
    (λ _, [Status RECOVERABLE] ++ released ++ [Outcome (Some o); Updated now]) at_ w.

(** *** Recovery of tool calls *)

(** A timestamp that is kept once it is there. *)
Definition keep_str (k : string) (d : pydict) (v : string) : pyval :=
  match dict_get k d with PStr s => PStr s | _ => PStr v end.

Definition SECOND : Z := 1000000.

Definition begin_tool_recovery (rid : string) (lease : Lease) (controller incarnation : string) (deadline : Z) (now at_ : Z)
    (w : world) : result TurnError (option request) * world :=
  if negb (bool_decide (owner_id lease = _owner_id controller incarnation))
  then (Err (EValue "lease owner does not match controller incarnation"), w) else
  match select_request w rid with
  | None => (Ok None, w)
  | Some r =>
      if negb (status_in (status r) ACTIVE_STATUSES && older_fence r lease && _lease_predicate w lease at_) then (Ok None, w) else
      let o := opt_dict (outcome r) in
      if negb (py_eq (dict_get "phase" o) (PStr TOOL_IN_FLIGHT_PHASE)) then (Ok None, w) else
      let o' := dict_update o
                  [("recovery_started_at", keep_str "recovery_started_at" o (isoformat now));
                   ("recovery_deadline_at", keep_str "recovery_deadline_at" o (isoformat (now + Z.max SECOND deadline)))] in
      let '(row, w') := update_request rid (λ _, true)
        (λ _, [Controller (Some controller); Incarnation (Some incarnation); Fence (Some (fencing_token lease));
               Outcome (Some o'); Updated now]) w in
      (Ok row, w')
  end.

(** [str(v or "")[:1000]] of a string. *)
Definition error_text (o : pydict) : string :=
  match py_or (dict_get "error" o) (py_or (dict_get "reason" o) (PStr "")) with
  | PStr s => untx (take 1000 (tx s))
  | _ => ""
  end.

Definition fail_link (r : request) (o : pydict) (now : Z) (l : managed_link) : managed_link :=
  if bool_decide (target_conversation_id l = conversation_id r) && bool_decide (active_turn_id l = Some (turn_id r)) then
    {| target_conversation_id := target_conversation_id l; active_turn_id := None; turn_state := "failed";
       notify_on_completion := false; last_error := Some (error_text o); last_result_turn_id := Some (turn_id r);
       handoff_pending := false; link_completed_at := Some now; link_updated_at := now |}
  else l.

Definition mark_tool_recovery_terminal (seen_ : option request) (rid : string) (lease : Lease) (s : DirectTurnStatus) (o : pydict)
    (now at_ : Z) (w : world) : result TurnError (option request) * world :=
  if negb (status_in s [FAILED; AMBIGUOUS]) then (Err (EValue "tool recovery fallback must be failed or ambiguous"), w) else
  match _owned_fenced_update seen_ rid lease ACTIVE_STATUSES (λ _, settle s (Some o) now) no_extra at_ w with
  | (Some r, w') =>
      (Ok (Some r), World (leases w') (requests w') (next_order w') (seen w') (unavailable_since w')
                      (fail_link r o now <$> links w') (outbox w') (audits w'))
  | (None, w') => (Ok None, w')
  end.

Definition finish_values (o : pydict) (now : Z) (r : request) : list assignment :=
  (if not_cancelled r then [Status RECOVERABLE; Outcome (Some o)]
   else settle CANCELLED (Some [("phase", PStr "cancelled"); ("reason", PStr "cancelled during tool recovery")]) now) ++
  released ++ [Fence None; Updated now].

Definition finish_tool_recovery (rid : string) (lease : Lease) (o : pydict) (now at_ : Z) (w : world) : option request * world :=
  match locked_by w rid lease at_ with
  | None => (None, w)
  | Some _ => update_request rid (λ _, true) (finish_values o now) w
  end.

(** *** Recovery by an operator *)

Record DirectTurnRecoverySnapshot := {
  exp_conversation : string; exp_status : DirectTurnStatus; exp_phase : string;
  exp_controller : string; exp_incarnation : string; exp_fence : Z; exp_updated_at : Z; exp_phase_started_at : option Z;
}.

Definition str_or_empty (v : pyval) : string := match v with PStr s => s | _ => "" end.

Definition snapshot_matches (r : request) (e : DirectTurnRecoverySnapshot) : bool :=
  let o := opt_dict (outcome r) in
  bool_decide (conversation_id r = exp_conversation e) && bool_decide (status r = exp_status e) &&
  bool_decide (str_or_empty (dict_get "phase" o) = exp_phase e) &&
  bool_decide (owner_controller_id r = Some (exp_controller e)) &&
  bool_decide (owner_incarnation_id r = Some (exp_incarnation e)) &&
  bool_decide (request_fencing_token r = Some (exp_fence e)) && (updated_at r =? exp_updated_at e) &&
  match exp_phase_started_at e with
  | None => true
  | Some t => match dict_get "phase_started_at" o with PStr s => bool_decide (fromisoformat s = Some t) | _ => false end
  end.

Definition operator_outcome (o : pydict) (actor reason transaction : string) (now : Z) : pydict :=
  [("phase", PStr "ambiguous"); ("operator_recovery", PBool true); ("operator_recovery_reason", PStr reason);
   ("operator_recovery_transaction_id", PStr transaction); ("operator_recovery_actor", PStr actor);
   ("call_id", dict_get "call_id" o); ("call_ids", dict_get "call_ids" o); ("resolved_at", PStr (isoformat now))].

(** [digest] is the hash that names the recovery; [true] when it changed the turn. *)
Definition resolve_stale_tool_ambiguous (digest rid actor reason transaction : string) (e : DirectTurnRecoverySnapshot)
    (now at_ : Z) (w : world) : result TurnError (request * bool) * world :=
  match select_request w rid with
  | None => (Err (ERecovery "not_found"), w)
  | Some r =>
      let o := opt_dict (outcome r) in
      if bool_decide (status r = AMBIGUOUS) then
        match dict_get "operator_recovery" o with
        | PBool true =>
            if py_eq (dict_get "operator_recovery_transaction_id" o) (PStr transaction) &&
               py_eq (dict_get "operator_recovery_actor" o) (PStr actor)
            then (Ok (r, false), w) else (Err (ERecovery "idempotency_conflict"), w)
        | _ => (Err (ERecovery "invalid_status"), w)
        end
      else if bool_decide (is_Some (audits w !! ("audit_" +:+ digest))) then (Err (ERecovery "idempotency_conflict"), w)
      else if negb (snapshot_matches r e) then (Err (ERecovery "snapshot_mismatch"), w)
      else if negb (status_in (status r) ACTIVE_STATUSES && bool_decide (str_or_empty (dict_get "phase" o) = TOOL_IN_FLIGHT_PHASE))
      then (Err (ERecovery "invalid_phase"), w)
      else
        match acquire_in_session (leases w) (conversation_lease_key (conversation_id r)) ("operator-recovery:" +:+ digest) at_
                OPERATOR_RECOVERY_LEASE_SECONDS with
        | (_, None) => (Err (ERecovery "lease_live"), w)
        | (db, Some lease) =>
            match update_request rid (λ _, true)
                    (λ _, [Controller (Some "operator-recovery"); Incarnation (Some digest); Fence (Some (fencing_token lease))] ++
                          settle AMBIGUOUS (Some (operator_outcome o actor reason transaction now)) now)
                    (set_leases (release db lease now).1 w) with
            | (Some r', w') =>
                (Ok (r', true), World (leases w') (requests w') (next_order w') (seen w') (unavailable_since w') (links w')
                                  (outbox w') (<["audit_" +:+ digest := rid]> (audits w')))
            | (None, _) => (Err (ERecovery "snapshot_mismatch"), w)
            end
        end
  end.

(** *** Visibility of failures, delivery *)

Definition visibility_pending (r : request) : bool :=
  bool_decide (status r = FAILED) && py_eq (phase_of r) (PStr "permanent_payload_visibility_pending").

Definition list_pending_failure_visibility (w : world) (limit : nat) : list request :=
  limited limit (filter (λ r, visibility_pending r = true) (requests w)).

Definition complete_failure_visibility (seen_ : option request) (rid : string) (now : Z) (w : world) : option request * world :=
  match seen_ with
  | None => (None, w)
  | Some s =>
      if negb (visibility_pending s) then (None, w) else
      update_request rid (λ r, bool_decide (status r = FAILED) && (updated_at r =? updated_at s))
        (λ _, [Outcome (Some [("phase", PStr "permanent_payload_visibility_complete")]); Updated now]) w
  end.

(** The route of the latest message a turn absorbed, else its own. *)
Definition effective_channel_delivery (w : world) (rid : string) : option (pyval * pyval) :=
  r ← select_request w rid;
  let absorbed := reverse (filter (λ x, in_conversation (conversation_id r) [ABSORBED] x &&
                                        bool_decide (absorbed_by_turn_id x = Some (turn_id r)) = true) (requests w)) in
  head (omap (λ x, match dict_get "channel_delivery" (payload x) with
                   | PDict d => Some (PDict d, dict_get "channel_assistant_delivery_mode" (metadata_of (payload x)))
                   | _ => None
                   end) (absorbed ++ [r])).

(** The outbox row of a turn is written once, under the fence of the turn. *)
Definition create_fenced_channel_delivery (rid : string) (lease : Lease) (delivery_id : string) (descriptor_ : pydict)
    (content : string) (at_ : Z) (w : world) : option outbox_row * world :=
  match select_request w rid with
  | None => (None, w)
  | Some r =>
      if negb (owns r lease && _lease_predicate w lease at_) then (None, w) else
      match outbox w !! delivery_id with
      | Some row => (if bool_decide (delivery_request row = rid) then Some row else None, w)
      | None =>
          let row := {| delivery_request := rid; delivery_fence := request_fencing_token r; delivery_session := session_id r;
                        delivery_descriptor := descriptor_; delivery_text := content |} in
          (Some row, World (leases w) (requests w) (next_order w) (seen w) (unavailable_since w) (links w)
                       (<[delivery_id := row]> (outbox w)) (audits w))
      end
  end.
End Store.
