(* ===== verification/DirectTurnsSpec.v ===== *)
(** What the queue of direct turns guarantees, over all histories of the store's methods and
    of the leases: turns of a conversation run one at a time in the order of admission, what
    is settled stays settled, a controller that lost its lease changes nothing, an admission
    is made once, and no turn is stuck. *)

From S2P Require Import Prelude PyVal Lease ToolDispatch DirectTurns.

(** ** Histories *)

(** A method call.  [i] is the row it read first, by its place in [seen]. *)
Inductive turn_op :=
| TLease (now : Z) (o : Lease.op)
| TRead (rid : string)
| TAdmit (s : submission) (guard : bool) (predecessor : option (string * string * Lease * Z * Z)) (attempts : nat → attempt)
| TEdit (rid : string) (payload : pydict) (version : Z) (expected : option string) (now : Z)
| TCancel (rid : string) (now : Z)
| TCancelConversation (c : string) (clear_queue : bool) (active : option string) (now : Z)
| TExpedite (c session : string) (revision now : Z)
| TCheckpoint (rid : string) (lease : Lease) (phase : string) (metadata : pydict) (clear : bool) (now at_ : Z)
| TRecord (rid : string) (lease : Lease) (session : string) (turn : option string) (ds : list pydict) (metadata : pydict) (now at_ : Z)
| TComplete (rid : string) (lease : Lease) (session : string) (turn : option string) (ids : list string) (metadata : pydict) (now at_ : Z)
| TMerge (rid : string) (lease : Lease) (session : string) (turn : option string) (call executor : string)
    (instance : option string) (state : string) (now at_ : Z)
| TClaim (i : nat) (rid : string) (lease : Lease) (controller incarnation : string) (session : option string) (now at_ : Z)
| TAbsorb (i : nat) (rid : string) (lease : Lease) (controller incarnation absorbed_by : string) (session : option string) (now at_ : Z)
| TRunning (i : nat) (rid : string) (lease : Lease) (now at_ : Z)
| TAbsorbed (i : nat) (rid : string) (lease : Lease) (now at_ : Z)
| TTerminal (i : nat) (rid : string) (lease : Lease) (s : DirectTurnStatus) (o : option pydict) (now at_ : Z)
| TRecoverable (i : nat) (rid : string) (lease : Lease) (o : option pydict) (now at_ : Z)
| TTransient (i : nat) (rid : string) (lease : Lease) (o : pydict) (retry_after : option Z) (now at_ : Z)
| TRecoverClaim (i : nat) (rid : string) (lease : Lease) (o : option pydict) (now at_ : Z)
| TStaleAmbiguous (i : nat) (rid : string) (lease : Lease) (o : pydict) (now at_ : Z)
| TReconcileAbsorbed (i : nat) (rid : string) (lease : Lease) (now at_ : Z)
| TReconcileCompleted (i : nat) (rid : string) (lease : Lease) (o : pydict) (now at_ : Z)
| TCancelStale (i : nat) (rid : string) (lease : Lease) (now at_ : Z)
| TRecoverAbsorbing (i : nat) (rid : string) (lease : Lease) (now at_ : Z)
| TRecoverRunning (i : nat) (rid : string) (lease : Lease) (o : pydict) (now at_ : Z)
| TBeginRecovery (rid : string) (lease : Lease) (controller incarnation : string) (deadline now at_ : Z)
| TRecoveryTerminal (i : nat) (rid : string) (lease : Lease) (s : DirectTurnStatus) (o : pydict) (now at_ : Z)
| TFinishRecovery (rid : string) (lease : Lease) (o : pydict) (now at_ : Z)
| TResolve (digest rid actor reason transaction : string) (e : DirectTurnRecoverySnapshot) (now at_ : Z)
| TVisibility (i : nat) (rid : string) (now : Z)
| TDeliver (rid : string) (lease : Lease) (delivery_id : string) (d : pydict) (content : string) (at_ : Z).

(** The row a method read, if it is the one it is about. *)
Definition seen_row (w : world) (i : nat) (rid : string) : option request :=
  s ← seen w !! i; if bool_decide (request_id s = rid) then Some s else None.

Definition read_request (rid : string) (w : world) : world :=
  World (leases w) (requests w) (next_order w) (seen w ++ option_list (select_request w rid)) (unavailable_since w)
    (links w) (outbox w) (audits w).

Section Histories.
Context (canonical_hash : pydict → string) (isoformat : Z → string) (fromisoformat : string → option Z).
Context (model_validate : pydict → option pydict).
Context (evidence_origin : pyval → option pyval) (evidence_admission : pyval → option (pyval * bool)).

Definition participant_of (p : option (string * string * Lease * Z * Z)) : participant :=
  match p with
  | Some (rid, turn, lease, now, at_) => handoff_participant rid turn lease now at_
  | None => no_participant
  end.

Definition turn_exec (w : world) (o : turn_op) : world :=
  match o with
  | TLease now o => set_leases (Lease.exec (leases w) (now, o)) w
  | TRead rid => read_request rid w
  | TAdmit s g p a => (admit_ canonical_hash model_validate evidence_origin evidence_admission s g (participant_of p) a w).2
  | TEdit rid p v h now => (edit canonical_hash model_validate evidence_origin evidence_admission rid p v h now w).2
  | TCancel rid now => (request_cancel rid now w).2
  | TCancelConversation c clear a now => (cancel_conversation c clear a now w).2
  | TExpedite c s r now => (expedite_provider_retry c s r now w).2
  | TCheckpoint rid l p md c now at_ => (checkpoint isoformat rid l p md c now at_ w).2
  | TRecord rid l s t ds md now at_ => (record_tool_dispatch isoformat rid l s t ds md now at_ w).2
  | TComplete rid l s t ids md now at_ => (complete_tool_dispatch isoformat rid l s t ids md now at_ w).2
  | TMerge rid l s t c e i st now at_ => (merge_tool_dispatch rid l s t c e i st now at_ w).2
  | TClaim i rid l c inc s now at_ => (claim (seen_row w i rid) rid l c inc s now at_ w).2
  | TAbsorb i rid l c inc by_ s now at_ => (begin_absorb isoformat (seen_row w i rid) rid l c inc by_ s now at_ w).2
  | TRunning i rid l now at_ => (mark_running (seen_row w i rid) rid l now at_ w).2
  | TAbsorbed i rid l now at_ => (mark_absorbed (seen_row w i rid) rid l now at_ w).2
  | TTerminal i rid l s o now at_ => (mark_terminal (seen_row w i rid) rid l s o now at_ w).2
  | TRecoverable i rid l o now at_ => (mark_recoverable (seen_row w i rid) rid l o now at_ w).2
  | TTransient i rid l o d now at_ => (settle_transient_failure (seen_row w i rid) rid l o d now at_ w).2
  | TRecoverClaim i rid l o now at_ => (recover_stale_claim (seen_row w i rid) rid l o now at_ w).2
  | TStaleAmbiguous i rid l o now at_ => (mark_stale_ambiguous (seen_row w i rid) rid l o now at_ w).2
  | TReconcileAbsorbed i rid l now at_ => (reconcile_stale_absorbed (seen_row w i rid) rid l now at_ w).2
  | TReconcileCompleted i rid l o now at_ => (reconcile_stale_completed (seen_row w i rid) rid l o now at_ w).2
  | TCancelStale i rid l now at_ => (cancel_stale_active (seen_row w i rid) rid l now at_ w).2
  | TRecoverAbsorbing i rid l now at_ => (recover_stale_absorbing (seen_row w i rid) rid l now at_ w).2
  | TRecoverRunning i rid l o now at_ => (recover_stale_running (seen_row w i rid) rid l o now at_ w).2
  | TBeginRecovery rid l c inc d now at_ => (begin_tool_recovery isoformat rid l c inc d now at_ w).2
  | TRecoveryTerminal i rid l s o now at_ => (mark_tool_recovery_terminal (seen_row w i rid) rid l s o now at_ w).2
  | TFinishRecovery rid l o now at_ => (finish_tool_recovery rid l o now at_ w).2
  | TResolve d rid a r t e now at_ => (resolve_stale_tool_ambiguous isoformat fromisoformat d rid a r t e now at_ w).2
  | TVisibility i rid now => (complete_failure_visibility (seen_row w i rid) rid now w).2
  | TDeliver rid l d desc c at_ => (create_fenced_channel_delivery rid l d desc c at_ w).2
  end.
End Histories.

(** ** Elementary steps *)

Definition settled (r : request) : bool := status_in (status r) TERMINAL_STATUSES.
Definition active (r : request) : bool := status_in (status r) ACTIVE_STATUSES.
Definition executing (r : request) : bool := status_in (status r) [CLAIMED; RUNNING].

(** The columns that never change. *)
Definition identity (r : request) : Z * string * string * string * (string * string * string) :=
  (admission_order r, request_id r, turn_id r, conversation_id r, (idempotency_scope r, idempotency_key r, admission_hash r)).

(** The lease of a resource was once granted to an owner under a token. *)
Definition granted (db : gmap string lease_row) (key o : string) (f : Z) : Prop :=
  f < fence db key ∨ ∃ row, db !! key = Some row ∧ row_owner_id row = o ∧ row_fencing_token row = f.

Definition tuple_granted (w : world) (r : request) : Prop :=
  ∃ o f, owner_of r = Some o ∧ request_fencing_token r = Some f ∧ granted (leases w) (conversation_lease_key (conversation_id r)) o f.

(** What an UPDATE may make of a row. *)
Record evolves (w : world) (r r' : request) : Prop := {
  ev_identity : identity r' = identity r;
  ev_settled : settled r = true → status r' = status r ∧ terminal_at r' = terminal_at r ∧ payload r' = payload r ∧
    owner_of r' = owner_of r ∧ request_fencing_token r' = request_fencing_token r;
  ev_executing : executing r' = true → executing r = true ∨ has_predecessor w r = false;
  ev_active : active r' = true →
    (active r = true ∧ owner_of r' = owner_of r ∧ request_fencing_token r' = request_fencing_token r) ∨ tuple_granted w r';
}.

Definition leases_grow (w w' : world) : Prop := ∀ key o f, granted (leases w) key o f → granted (leases w') key o f.

Inductive table_step (w w' : world) : Prop :=
| step_same :
    requests w' = requests w → next_order w' = next_order w → leases_grow w w' →
    (∀ s, s ∈ seen w' → s ∈ seen w ∨ s ∈ requests w) → table_step w w'
| step_new r :
    requests w' = requests w ++ [r] → next_order w' = next_order w + 1 → leases w' = leases w → seen w' = seen w →
    status r = QUEUED → admission_order r = next_order w →
    (∀ x, x ∈ requests w → request_id x ≠ request_id r ∧
       (idempotency_scope x, idempotency_key x) ≠ (idempotency_scope r, idempotency_key r)) → table_step w w'
| step_row i r r' :
    requests w !! i = Some r → requests w' = <[i := r']> (requests w) → next_order w' = next_order w →
    leases_grow w w' → seen w' = seen w → evolves w r r' → table_step w w'.

Lemma granted_exec db now o key ow f : granted db key ow f → granted (Lease.exec db (now, o)) key ow f.
Proof.
  intros [Hf|(row & Hrow & Ho & Hf)].
  - left. pose proof (exec_fence_le db (now, o) key). lia.
  - pose proof (exec_fence_le db (now, o) key) as Hle. unfold fence in Hle at 1. rewrite Hrow in Hle.
    destruct (decide (f < fence (Lease.exec db (now, o)) key)) as [?|Hge]; [by left|right].
    unfold fence in Hle, Hge. destruct (Lease.exec db (now, o) !! key) as [row'|] eqn:Hrow'; [|].
    + exists row'. split; [done|]. revert Hrow' Hge Hle. destruct o; cbn [Lease.exec]; lease_cases; intros; simplify_map_eq;
        try lia; try (destruct (decide (key = key0)); simplify_map_eq; lia || done);
        try (destruct (decide (key = resource_key lease)); simplify_map_eq; lia || done).
    + exfalso. revert Hrow'. destruct o; cbn [Lease.exec]; lease_cases; intros; simplify_map_eq;
        try (destruct (decide (key = key0)); simplify_map_eq; done);
        try (destruct (decide (key = resource_key lease)); simplify_map_eq; done).
Qed.

Lemma granted_acquire db key' owner now ttl db' l key o f :
  acquire_in_session db key' owner now ttl = (db', l) → granted db key o f → granted db' key o f.
Proof. intros Ha Hg. pose proof (granted_exec db now (OpAcquire key' owner ttl) key o f Hg) as H. cbn in H. by rewrite Ha in H. Qed.

Lemma granted_release db lease now key o f : granted db key o f → granted (release db lease now).1 key o f.
Proof. apply (granted_exec db now (OpRelease lease)). Qed.

Lemma granted_current db lease now :
  is_current_in_session db lease now = true → granted db (resource_key lease) (owner_id lease) (fencing_token lease).
Proof. intros (row & ? & ? & ? & ?)%current_spec. right. eauto. Qed.

Lemma leases_grow_refl w w' : leases w' = leases w → leases_grow w w'.
Proof. intros Hl key o f. by rewrite Hl. Qed.

Create HintDb turns.
#[export] Hint Resolve leases_grow_refl granted_current : turns.

(** ** Rows under assignment *)

Lemma assigns_identity r l : identity (assigns r l) = identity r.
Proof. revert r. induction l as [|a l IH]; intros r; [done|]. cbn. rewrite IH. by destruct r, a. Qed.

Lemma identity_fields r r' : identity r = identity r' →
  admission_order r = admission_order r' ∧ request_id r = request_id r' ∧ turn_id r = turn_id r' ∧
  conversation_id r = conversation_id r' ∧ idempotency_scope r = idempotency_scope r' ∧
  idempotency_key r = idempotency_key r' ∧ admission_hash r = admission_hash r'.
Proof. unfold identity. intros [=]. done. Qed.

Lemma executing_active r : executing r = true → active r = true.
Proof. unfold executing, active. by destruct (status r). Qed.

Lemma active_unsettled r : active r = true → settled r = false.
Proof. unfold settled, active. by destruct (status r). Qed.

Lemma nonterminal_unsettled s : status_in s NONTERMINAL_STATUSES = negb (status_in s TERMINAL_STATUSES).
Proof. by destruct s. Qed.

(** A row that stays what it is, that leaves a controller, or that a lease takes over. *)
Lemma evolves_kept w r r' :
  identity r' = identity r → status r' = status r → terminal_at r' = terminal_at r → payload r' = payload r →
  owner_of r' = owner_of r → request_fencing_token r' = request_fencing_token r → evolves w r r'.
Proof. intros Hi Hs Ht Hp Ho Hf. split; [done|done| |]; unfold executing, active; rewrite Hs; auto. Qed.

Lemma evolves_left w r r' :
  identity r' = identity r → settled r = false → active r' = false → evolves w r r'.
Proof.
  intros Hi Hs Ha. split; [done|congruence| |congruence]. intros He%executing_active. congruence.
Qed.

Lemma evolves_moved w r r' :
  identity r' = identity r → executing r = true → owner_of r' = owner_of r →
  request_fencing_token r' = request_fencing_token r → evolves w r r'.
Proof.
  intros Hi He Ho Hf. pose proof (executing_active r He) as Ha. pose proof (active_unsettled r Ha).
  split; [done|congruence|auto|auto].
Qed.

Lemma evolves_taken w r r' :
  identity r' = identity r → settled r = false → (executing r' = true → executing r = true ∨ has_predecessor w r = false) →
  tuple_granted w r' → evolves w r r'.
Proof. intros Hi Hs He Ht. split; [done|congruence|done|auto]. Qed.

Lemma tuple_granted_by w r lease at_ c i :
  owner_controller_id r = Some c → owner_incarnation_id r = Some i → owner_id lease = _owner_id c i →
  request_fencing_token r = Some (fencing_token lease) →
  resource_key lease = conversation_lease_key (conversation_id r) → _lease_predicate w lease at_ = true → tuple_granted w r.
Proof.
  intros Hc Hi Ho Hf Hk Hp. exists (owner_id lease), (fencing_token lease). unfold owner_of. rewrite Hc, Hi, Ho. cbn.
  split_and!; [done|done|]. rewrite <- Ho, <- Hk. by eapply granted_current.
Qed.

Lemma find_request_spec w rid i r : find_request w rid = Some (i, r) → requests w !! i = Some r ∧ request_id r = rid.
Proof. intros (? & ? & ?)%list_find_Some. done. Qed.

Lemma select_request_spec w rid r : select_request w rid = Some r → ∃ i, find_request w rid = Some (i, r).
Proof. unfold select_request. destruct (find_request w rid) as [[i r']|]; [|done]. intros [= <-]. eauto. Qed.

Lemma select_request_elem w rid r : select_request w rid = Some r → r ∈ requests w ∧ request_id r = rid.
Proof. intros (i & [? ?]%find_request_spec)%select_request_spec. split; [by eapply list_elem_of_lookup_2|done]. Qed.

(** Every method changes one row, of a table that may differ in its leases. *)
Lemma update_step w0 w rid where_ values :
  requests w0 = requests w → next_order w0 = next_order w → seen w0 = seen w → leases_grow w w0 →
  (∀ i r, find_request w rid = Some (i, r) → where_ r = true → evolves w r (assigns r (values r))) →
  table_step w (update_request rid where_ values w0).2.
Proof.
  intros Hr Hn Hs Hl He. unfold update_request, find_request. rewrite Hr. fold (find_request w rid).
  destruct (find_request w rid) as [[i r]|] eqn:Hf; [|apply step_same; cbn; [done..|rewrite Hs; auto]].
  destruct (where_ r) eqn:Hw; [|apply step_same; cbn; [done..|rewrite Hs; auto]].
  apply (step_row _ _ i r (assigns r (values r))); cbn; try done.
  - by eapply find_request_spec.
  - by eapply He.
Qed.

(** ** The invariant *)

Record turns_ok (w : world) : Prop := {
  ok_orders i j x y : (i < j)%nat → requests w !! i = Some x → requests w !! j = Some y → admission_order x < admission_order y;
  ok_next x : x ∈ requests w → admission_order x < next_order w;
  ok_ids i j x y : requests w !! i = Some x → requests w !! j = Some y →
    request_id x = request_id y ∨
    (idempotency_scope x, idempotency_key x) = (idempotency_scope y, idempotency_key y) → i = j;
  ok_fifo i j x y : (i < j)%nat → requests w !! i = Some x → requests w !! j = Some y →
    conversation_id x = conversation_id y → executing y = true → settled x = true;
  ok_active x : x ∈ requests w → active x = true → tuple_granted w x;
  ok_seen s : s ∈ seen w → ∃ r, r ∈ requests w ∧ identity r = identity s;
}.

Lemma lookup_row (l : list request) i r r' j x :
  l !! i = Some r → identity r' = identity r → <[i := r']> l !! j = Some x →
  ∃ y, l !! j = Some y ∧ identity x = identity y ∧ (j ≠ i ∧ x = y ∨ j = i ∧ x = r' ∧ y = r).
Proof.
  intros Hi Hid. destruct (decide (j = i)) as [->|Hne].
  - rewrite list_lookup_insert_eq by by eapply lookup_lt_Some. intros [= <-]. eauto 7.
  - rewrite list_lookup_insert_ne by done. eauto 7.
Qed.

Lemma tuple_granted_grows w w' r : leases_grow w w' → tuple_granted w r → tuple_granted w' r.
Proof. intros Hl (o & f & ? & ? & ?). exists o, f. eauto. Qed.

Lemma tuple_granted_same w r r' :
  identity r' = identity r → owner_of r' = owner_of r → request_fencing_token r' = request_fencing_token r →
  tuple_granted w r → tuple_granted w r'.
Proof.
  intros (_ & _ & _ & Hc & _)%identity_fields Ho Hf (o & f & ? & ? & ?). exists o, f.
  rewrite Ho, Hf, Hc. done.
Qed.

Lemma no_predecessor w r x :
  has_predecessor w r = false → x ∈ requests w → conversation_id x = conversation_id r →
  admission_order x < admission_order r → settled x = true.
Proof.
  intros Hp Hx Hc Ho. unfold has_predecessor in Hp. rewrite <- not_true_iff_false, existsb_exists in Hp.
  apply not_false_iff_true. intros Hs. apply Hp. exists x. split; [by apply list_elem_of_In|].
  unfold precedes, settled in *. rewrite nonterminal_unsettled, Hs, bool_decide_true, (proj2 (Z.ltb_lt _ _)) by done. done.
Qed.

Lemma ok_insert w w' r :
  turns_ok w → requests w' = requests w ++ [r] → next_order w' = next_order w + 1 → leases w' = leases w →
  seen w' = seen w → status r = QUEUED → admission_order r = next_order w →
  (∀ x, x ∈ requests w → request_id x ≠ request_id r ∧
     (idempotency_scope x, idempotency_key x) ≠ (idempotency_scope r, idempotency_key r)) → turns_ok w'.
Proof.
  intros [Ho Hn Hi Hf Ha Hs] Hr Hn' Hl Hs' Hq Hor Hfresh.
  assert (∀ j y, requests w' !! j = Some y →
    requests w !! j = Some y ∨ j = length (requests w) ∧ y = r) as Hlook.
  { intros j y. rewrite Hr, lookup_snoc_Some. naive_solver. }
  assert (∀ j y, requests w !! j = Some y → (j < length (requests w))%nat ∧ y ∈ requests w) as Hin.
  { intros j y Hj. split; [by eapply lookup_lt_Some|by eapply list_elem_of_lookup_2]. }
  split.
  - intros i j x y Hij [Hx|[-> ->]]%Hlook [Hy|[-> ->]]%Hlook; [eauto| | |lia].
    + rewrite Hor. by eapply Hn, Hin.
    + apply Hin in Hy as [? _]. lia.
  - intros x. rewrite Hr, elem_of_app, list_elem_of_singleton, Hn'. intros [Hx| ->]; [apply Hn in Hx|]; lia.
  - intros i j x y [Hx|[-> ->]]%Hlook [Hy|[-> ->]]%Hlook Heq; [eauto| | |done]; exfalso.
    + apply Hin in Hx as [_ [? ?]%Hfresh]. by destruct Heq.
    + apply Hin in Hy as [_ [? ?]%Hfresh]. by destruct Heq as [?|Heq]; [auto|symmetry in Heq].
  - intros i j x y Hij [Hx|[-> ->]]%Hlook [Hy|[-> ->]]%Hlook Hc He; [eauto| | |lia].
    + unfold executing in He. by rewrite Hq in He.
    + apply Hin in Hy as [? _]. lia.
  - intros x. rewrite Hr, elem_of_app, list_elem_of_singleton. intros [Hx| ->] Hact.
    + eapply tuple_granted_grows, Ha; [by apply leases_grow_refl|done|done].
    + unfold active in Hact. by rewrite Hq in Hact.
  - intros s. rewrite Hs'. intros (x & ? & ?)%Hs. exists x. rewrite Hr, elem_of_app. auto.
Qed.

Lemma ok_evolve w w' i r r' :
  turns_ok w → requests w !! i = Some r → requests w' = <[i := r']> (requests w) → next_order w' = next_order w →
  leases_grow w w' → seen w' = seen w → evolves w r r' → turns_ok w'.
Proof.
  intros [Ho Hn Hi Hf Ha Hs] Hir Hr Hn' Hl Hs' [Hid Hset Hexe Hact].
  assert (∀ j x, requests w' !! j = Some x → ∃ y, requests w !! j = Some y ∧ identity x = identity y ∧
    (j ≠ i ∧ x = y ∨ j = i ∧ x = r' ∧ y = r)) as Hlook.
  { intros j x. rewrite Hr. by apply lookup_row. }
  split.
  - intros a b x y Hab (x0 & Hx & Hxi & _)%Hlook (y0 & Hy & Hyi & _)%Hlook.
    apply identity_fields in Hxi as [-> _], Hyi as [-> _]. eauto.
  - intros x (a & Hx)%list_elem_of_lookup. apply Hlook in Hx as (x0 & Hx & [-> _]%identity_fields & _).
    rewrite Hn'. by eapply Hn, list_elem_of_lookup_2.
  - intros a b x y (x0 & Hx & Hxi & _)%Hlook (y0 & Hy & Hyi & _)%Hlook.
    apply identity_fields in Hxi as (_ & -> & _ & _ & -> & -> & _), Hyi as (_ & -> & _ & _ & -> & -> & _). eauto.
  - intros a b x y Hab (x0 & Hx & Hxi & Hxc)%Hlook (y0 & Hy & Hyi & Hyc)%Hlook Hc Hey.
    assert (conversation_id x0 = conversation_id y0) as Hc0.
    { apply identity_fields in Hxi as (_ & _ & _ & <- & _), Hyi as (_ & _ & _ & <- & _). done. }
    assert (settled x0 = true) as Hsx.
    { destruct Hyc as [[_ ->]|(-> & -> & ->)]; [by eapply Hf|]. destruct (Hexe Hey) as [He|Hp]; [by eapply Hf|].
      eapply no_predecessor; eauto using list_elem_of_lookup_2. }
    destruct Hxc as [[_ ->]|(-> & -> & ->)]; [done|]. unfold settled in *. by destruct (Hset Hsx) as [-> _].
  - intros x (a & Hx)%list_elem_of_lookup Hax. apply Hlook in Hx as (x0 & Hx & Hxi & Hxc).
    assert (x0 ∈ requests w) as Hin by by eapply list_elem_of_lookup_2.
    apply (tuple_granted_grows w); [done|]. destruct Hxc as [[_ ->]|(-> & -> & ->)]; [by apply Ha|].
    destruct (Hact Hax) as [(? & ? & ?)|?]; [|done]. eapply tuple_granted_same; eauto.
  - intros s. rewrite Hs'. intros (x & (a & Hx)%list_elem_of_lookup & Hxs)%Hs.
    destruct (requests w' !! a) as [x'|] eqn:Hx'.
    + exists x'. split; [by eapply list_elem_of_lookup_2|]. apply Hlook in Hx' as (x0 & Hx0 & -> & _). congruence.
    + apply lookup_ge_None in Hx'. rewrite Hr, length_insert in Hx'. apply lookup_lt_Some in Hx. lia.
Qed.

Lemma ok_step w w' : turns_ok w → table_step w w' → turns_ok w'.
Proof.
  intros Hok [Hr Hn Hl Hs|r|i r r']; [|eauto using ok_insert|eauto using ok_evolve].
  destruct Hok as [Ho Hn0 Hi Hf Ha Hs0]. split; rewrite ?Hr, ?Hn; eauto.
  - intros x Hx Hax. eapply tuple_granted_grows; eauto.
  - intros s [?|?]%Hs; eauto.
Qed.

Lemma ok_steps w w' : turns_ok w → rtc table_step w w' → turns_ok w'.
Proof. intros Hok Hs. induction Hs; eauto using ok_step. Qed.

(** ** Every method is a sequence of elementary steps *)

(** A row of a status that is not settled takes another one that is not active. *)
Ltac leaving :=
  intros; apply evolves_left; [apply assigns_identity|..]; unfold settled, active in *;
  repeat match goal with
  | H : status_in (status _) _ = true |- _ => revert H
  | H : status _ = _ |- _ => revert H
  end;
  match goal with
  | r : request |- context [assigns _ _] => by destruct r as [? ? ? ? ? ? ? ? ? ? ? ? ? ? []]
  | r : request |- _ => by destruct (status r)
  end.

(** Only columns change that no invariant speaks of. *)
Ltac keeping :=
  intros; apply evolves_kept; [apply assigns_identity|..]; match goal with r : request |- _ => by destruct r end.

Lemma frame_step w w' :
  requests w' = requests w → next_order w' = next_order w → leases w' = leases w → seen w' = seen w → table_step w w'.
Proof. intros Hr Hn Hl Hs. apply step_same; [done|done|by apply leases_grow_refl|]. rewrite Hs. auto. Qed.

Lemma table_step_frame w w1 w2 :
  requests w2 = requests w1 → next_order w2 = next_order w1 → leases w2 = leases w1 → seen w2 = seen w1 →
  table_step w w1 → table_step w w2.
Proof.
  intros Hr Hn Hl Hs Hstep. destruct Hstep as [? ? Hg ?|r|i r r' ? ? ? Hg].
  - apply step_same; rewrite ?Hr, ?Hn, ?Hs; try done. intros ? ? ? ?. rewrite Hl. by apply Hg.
  - apply (step_new _ _ r); rewrite ?Hr, ?Hn, ?Hl, ?Hs; done.
  - apply (step_row _ _ i r r'); rewrite ?Hr, ?Hn, ?Hs; try done. intros ? ? ? ?. rewrite Hl. by apply Hg.
Qed.

Lemma update_table_step w rid where_ values :
  (∀ i r, find_request w rid = Some (i, r) → where_ r = true → evolves w r (assigns r (values r))) →
  table_step w (update_request rid where_ values w).2.
Proof. apply update_step; [done..|by apply leases_grow_refl]. Qed.

Lemma owned_step w s rid lease statuses values extra at_ :
  (∀ r, status_in (status r) statuses = true → evolves w r (assigns r (values r))) →
  table_step w (_owned_fenced_update s rid lease statuses values extra at_ w).2.
Proof.
  intros He. unfold _owned_fenced_update. destruct s as [s|]; [|by apply frame_step].
  repeat (case_match; [by apply frame_step|]). apply update_table_step. intros i r _ Hw. bool_facts. auto.
Qed.

Lemma stale_step w s rid lease read_as now_in cancelled values at_ :
  (∀ r, status_in (status r) now_in = true → evolves w r (assigns r (values r))) →
  table_step w (stale_update s rid lease read_as now_in cancelled values at_ w).2.
Proof.
  intros He. unfold stale_update. destruct s as [s|]; [|by apply frame_step].
  repeat (case_match; [by apply frame_step|]). apply update_table_step. intros i r _ Hw. bool_facts. auto.
Qed.

Lemma seen_row_spec w i rid s r j :
  turns_ok w → seen_row w i rid = Some s → find_request w rid = Some (j, r) → identity r = identity s.
Proof.
  intros Hok Hs Hf. unfold seen_row in Hs. destruct (seen w !! i) as [s'|] eqn:Hi; [|done]. cbn in Hs.
  case_bool_decide as Hid; [|done]. injection Hs as ->.
  destruct (ok_seen w Hok s) as (x & Hx & Hxs); [by eapply list_elem_of_lookup_2|].
  apply find_request_spec in Hf as [Hj Hrid]. apply list_elem_of_lookup in Hx as [k Hk].
  assert (k = j) as ->; [|congruence]. eapply ok_ids; [done|done|done|left].
  apply identity_fields in Hxs as (_ & -> & _). congruence.
Qed.

(** The row a lease takes over is the one of the conversation it is for. *)
Lemma taken_step w i rid lease statuses values fifo at_ :
  turns_ok w →
  (∀ r, status_in (status r) statuses = true → (fifo = true → has_predecessor w r = false) →
     resource_key lease = conversation_lease_key (conversation_id r) → _lease_predicate w lease at_ = true →
     evolves w r (assigns r (values r))) →
  table_step w (_fenced_update (seen_row w i rid) rid lease statuses values fifo at_ w).2.
Proof.
  intros Hok He. unfold _fenced_update. destruct (seen_row w i rid) as [s|] eqn:Hs; [|by apply frame_step].
  case_match; [by apply frame_step|]. apply update_table_step. intros j r Hf Hw. bool_facts.
  assert (conversation_id r = conversation_id s) as Hc.
  { by eapply identity_fields, seen_row_spec. }
  apply He; [done| |by rewrite Hc|done]. intros ->. cbn in *. by bool_facts.
Qed.

Lemma locked_by_spec w rid lease at_ r :
  locked_by w rid lease at_ = Some r →
  select_request w rid = Some r ∧ active r = true ∧ owns r lease = true ∧ _lease_predicate w lease at_ = true.
Proof.
  unfold locked_by. destruct (select_request w rid) as [x|]; [|done]. cbn. case_match eqn:Hc; [|done].
  intros [= <-]. unfold _owns_live_fence in Hc. by bool_facts.
Qed.

Lemma write_outcome_step w rid o now : table_step w (write_outcome rid o now w).2.
Proof.
  unfold write_outcome. destruct o as [o|]; [|by apply frame_step].
  destruct (update_request _ _ _ w) as [row w'] eqn:Hu. cbn. replace w' with (update_request rid (λ _, true)
    (λ _, [Outcome (Some o); Updated now]) w).2 by by rewrite Hu. apply update_table_step. keeping.
Qed.

Lemma cancel_row_step w rid now : table_step w (cancel_row rid now w).2.
Proof.
  apply update_table_step. intros i r _ Hr. unfold cancel_values. destruct (status_in (status r) CLAIMABLE_STATUSES) eqn:Hc.
  - leaving.
  - keeping.
Qed.

Lemma claimed_evolves w r lease c inc session now at_ :
  owner_id lease = _owner_id c inc → status_in (status r) CLAIMABLE_STATUSES = true → has_predecessor w r = false →
  resource_key lease = conversation_lease_key (conversation_id r) → _lease_predicate w lease at_ = true →
  evolves w r (assigns r (claim_values lease c inc session now r)).
Proof.
  intros Ho Hs Hp Hk Hl. apply evolves_taken; [apply assigns_identity| |auto|].
  - unfold settled. by destruct (status r).
  - eapply (tuple_granted_by _ _ lease at_ c inc); destruct r, session; try done.
Qed.

(** The table after a method that repacks the result of another. *)
Lemma table_step_pair {A} (x : A * world) a w w' : x = (a, w') → table_step w x.2 → table_step w w'.
Proof. by intros ->. Qed.

Ltac repacked step :=
  match goal with
  | |- context [let '(_, _) := ?x in _] => let E := fresh "E" in destruct x as [? ?] eqn:E; cbn; eapply (table_step_pair _ _ _ _ E); step
  end.

Section Steps.
Context (canonical_hash : pydict → string) (isoformat : Z → string) (fromisoformat : string → option Z).
Context (model_validate : pydict → option pydict).
Context (evidence_origin : pyval → option pyval) (evidence_admission : pyval → option (pyval * bool)).

Lemma edit_step rid p v h now w :
  table_step w (edit canonical_hash model_validate evidence_origin evidence_admission rid p v h now w).2.
Proof.
  unfold edit. destruct (select_request w rid) as [r|] eqn:Hr; [|by apply frame_step].
  case_match; [by apply frame_step|]. match goal with |- context [if ?b then (Ok None, w) else _] => destruct b end;
    [by apply frame_step|].
  match goal with |- context [match ?x with Ok _ => _ | Err _ => _ end] => destruct x end; [|by apply frame_step].
  repacked ltac:(apply update_table_step). intros j x _ Hx. bool_facts. leaving.
Qed.

Lemma expedite_step c s v now w : table_step w (expedite_provider_retry c s v now w).2.
Proof.
  unfold expedite_provider_retry. repeat (case_match; try by apply frame_step).
  all: apply update_table_step; keeping.
Qed.

Lemma merge_step rid l s t c e i st now at_ w : table_step w (merge_tool_dispatch rid l s t c e i st now at_ w).2.
Proof.
  unfold merge_tool_dispatch. destruct (locked_by _ _ _ _); [|by apply frame_step].
  case_match; [by apply frame_step|]. destruct (merge_outcome _ _ _ _ _ _ _ _ _); [|by apply frame_step].
  repacked ltac:(apply write_outcome_step).
Qed.

Lemma claim_step i rid lease c inc session now at_ w :
  turns_ok w → table_step w (claim (seen_row w i rid) rid lease c inc session now at_ w).2.
Proof.
  intros Hok. unfold claim. case_match; [by apply frame_step|]. bool_facts.
  assert (table_step w (_fenced_update (seen_row w i rid) rid lease CLAIMABLE_STATUSES
    (claim_values lease c inc session now) true at_ w).2) as Hs.
  { apply taken_step; [done|]. intros. eapply claimed_evolves; eauto. }
  destruct (_fenced_update _ _ _ _ _ _ _ _) as [[r|] w']; [|done].
  by apply (table_step_frame _ w').
Qed.

Lemma absorb_step i rid lease c inc by_ session now at_ w :
  turns_ok w → table_step w (begin_absorb isoformat (seen_row w i rid) rid lease c inc by_ session now at_ w).2.
Proof.
  intros Hok. unfold begin_absorb. case_match; [by apply frame_step|]. bool_facts.
  repacked ltac:(apply taken_step); [done|]. intros r Hr _ Hk Hl. apply evolves_taken; [apply assigns_identity|..].
  - unfold settled. by destruct (status r).
  - by destruct r.
  - eapply (tuple_granted_by _ _ lease at_ c inc); destruct r; try done.
Qed.

Lemma terminal_step s rid lease st o now at_ w : table_step w (mark_terminal s rid lease st o now at_ w).2.
Proof.
  unfold mark_terminal. destruct (status_in st _) eqn:Hst; [|by apply frame_step].
  repacked ltac:(unfold _mark_terminal; apply owned_step). destruct st; try done; leaving.
Qed.

Lemma transient_step s rid lease o d now at_ w : table_step w (settle_transient_failure s rid lease o d now at_ w).2.
Proof.
  unfold settle_transient_failure. destruct (_owned_fenced_update _ _ _ _ _ _ _ _) as [[r|] w'] eqn:E; cbn;
    eapply (table_step_pair _ _ _ _ E); apply owned_step; leaving.
Qed.

Lemma recovery_terminal_step s rid lease st o now at_ w :
  table_step w (mark_tool_recovery_terminal s rid lease st o now at_ w).2.
Proof.
  unfold mark_tool_recovery_terminal. case_match eqn:Hst; [by apply frame_step|]. bool_facts.
  assert (table_step w (_owned_fenced_update s rid lease ACTIVE_STATUSES (λ _, settle st (Some o) now) no_extra at_ w).2) as Hs.
  { apply owned_step. destruct st; try done; leaving. }
  destruct (_owned_fenced_update _ _ _ _ _ _ _ _) as [[r|] w']; [|done]. by apply (table_step_frame _ w').
Qed.

Lemma begin_recovery_step rid lease c inc d now at_ w :
  table_step w (begin_tool_recovery isoformat rid lease c inc d now at_ w).2.
Proof.
  unfold begin_tool_recovery. case_match; [by apply frame_step|]. bool_facts.
  destruct (select_request w rid) as [r|] eqn:Hr; [|by apply frame_step].
  case_match eqn:Hg; [by apply frame_step|]. case_match; [by apply frame_step|]. unfold older_fence in Hg. bool_facts.
  repacked ltac:(apply update_table_step). intros j r' Hf _.
  assert (r' = r) as -> by (unfold select_request in Hr; rewrite Hf in Hr; by injection Hr).
  apply evolves_taken; [apply assigns_identity|..].
  - apply active_unsettled. done.
  - intros He. left. by destruct r.
  - eapply (tuple_granted_by _ _ lease at_ c inc); destruct r; done.
Qed.

Lemma finish_step rid lease o now at_ w : table_step w (finish_tool_recovery rid lease o now at_ w).2.
Proof.
  unfold finish_tool_recovery. destruct (locked_by _ _ _ _) as [r|] eqn:Hl; [|by apply frame_step].
  apply locked_by_spec in Hl as (Hs & Ha & _). apply update_table_step. intros j r' Hf _.
  assert (r' = r) as -> by (unfold select_request in Hs; rewrite Hf in Hs; by injection Hs).
  unfold finish_values. destruct (not_cancelled r); leaving.
Qed.

Lemma resolve_step digest rid actor reason tx e now at_ w :
  table_step w (resolve_stale_tool_ambiguous isoformat fromisoformat digest rid actor reason tx e now at_ w).2.
Proof.
  unfold resolve_stale_tool_ambiguous. destruct (select_request w rid) as [r|] eqn:Hr; [|by apply frame_step].
  case_match; [repeat (case_match; try by apply frame_step)|].
  do 2 (case_match; [by apply frame_step|]). case_match eqn:Ha; [by apply frame_step|].
  destruct (acquire_in_session _ _ _ _ _) as [db [lease|]] eqn:Hl; [|by apply frame_step].
  match goal with |- context [update_request ?i ?p ?v ?w0] =>
    assert (table_step w (update_request i p v w0).2) as Hs end.
  { apply update_step; [done..| |].
    - intros key o f Hg. cbn. eapply granted_release, granted_acquire; done.
    - intros j r' Hf _. bool_facts.
      assert (r' = r) as -> by (unfold select_request in Hr; rewrite Hf in Hr; by injection Hr). leaving. }
  destruct (update_request _ _ _ _) as [[r'|] w']; [|by apply frame_step]. by apply (table_step_frame _ w').
Qed.

Lemma handoff_step rid turn lease now at_ successor w : table_step w (handoff rid turn lease now at_ successor w).2.
Proof.
  unfold handoff. destruct (select_request w rid) as [p|]; [|by apply frame_step].
  case_match; [by apply frame_step|]. case_match; [repeat (case_match; try by apply frame_step)|].
  destruct (_owned_fenced_update _ _ _ _ _ _ _ _) as [[r|] w'] eqn:E; [|by apply frame_step].
  eapply (table_step_pair _ _ _ _ E). apply owned_step. leaving.
Qed.

Lemma participant_step p row new w w' : participant_of p row new w = Ok w' → table_step w w'.
Proof.
  destruct p as [[[[[rid turn] lease] now] at_]|]; cbn; [|intros [= <-]; by apply frame_step].
  unfold handoff_participant. destruct (handoff _ _ _ _ _ _ _) as [[b|e] w0] eqn:E; [|done]. intros [= <-].
  eapply (table_step_pair _ _ _ _ E). apply handoff_step.
Qed.

Lemma collides_none s w :
  existsb (collides s) (requests w) = false → ∀ x, x ∈ requests w → request_id x ≠ sub_request_id s ∧
    (idempotency_scope x, idempotency_key x) ≠ (sub_scope s, sub_key s).
Proof.
  intros Hn x Hx. assert (collides s x = false) as Hc.
  { apply not_true_iff_false. intros Hc. rewrite <- not_true_iff_false in Hn. apply Hn, existsb_exists.
    exists x. split; [by apply list_elem_of_In|done]. }
  unfold collides in Hc. bool_facts. split; [done|]. intros [= Hs Hk].
  match goal with H : (_ && _)%bool = false |- _ => by rewrite Hs, Hk, !bool_decide_true in H end.
Qed.

Lemma insert_step s p now w :
  existsb (collides s) (requests w) = false →
  table_step w (insert_request (new_request canonical_hash s p (next_order w) now) w).
Proof. intros Hn. eapply step_new; [done..|]. by apply collides_none. Qed.

Lemma admit_steps s g p a w :
  rtc table_step w (admit_ canonical_hash model_validate evidence_origin evidence_admission s g (participant_of p) a w).2.
Proof.
  unfold admit_. destruct (_validated_payload _ _ _ _ _) as [pl|e]; [|done].
  destruct (first_attempt 3 0 a) as [now|]; [|done]. unfold _admit_once. destruct g; [|done]. cbn [negb].
  destruct (existsb (collides s) (requests w)) eqn:Hc.
  - destruct (snd <$> list_find _ (requests w)) as [row|]; [|done]. case_bool_decide; [|done].
    destruct (participant_of p row false w) as [w'|] eqn:Hp; [|done]. cbn. apply rtc_once. by eapply participant_step.
  - destruct (participant_of p _ true _) as [w'|] eqn:Hp; [|done]. cbn. eapply rtc_l; [by eapply insert_step|].
    apply rtc_once. by eapply participant_step.
Qed.

Lemma cancel_steps now l acc w :
  rtc table_step w (foldl (cancel_step now) (acc, w) l).2.
Proof.
  revert acc w. induction l as [|r l IH]; intros acc w; [done|]. cbn [foldl]. unfold cancel_step at 2.
  pose proof (cancel_row_step w (request_id r) now) as Hs.
  destruct (cancel_row (request_id r) now w) as [[r'|] w'] eqn:E; [|apply IH]. eapply rtc_l; [done|apply IH].
Qed.

Notation exec := (turn_exec canonical_hash isoformat fromisoformat model_validate evidence_origin evidence_admission).

Lemma exec_steps w o : turns_ok w → rtc table_step w (exec w o).
Proof.
  intros Hok. destruct o; cbn [turn_exec]; try apply admit_steps; try apply cancel_steps; apply rtc_once.
  - apply step_same; try done; [|auto]. intros key o' f. apply granted_exec.
  - apply step_same; [done|done|by apply leases_grow_refl|]. intros s [?|Hs]%elem_of_app; [auto|right].
    destruct (select_request w rid) as [r|] eqn:Hr; cbn in Hs; [|by apply not_elem_of_nil in Hs].
    apply list_elem_of_singleton in Hs as ->. by eapply select_request_elem.
  - apply edit_step.
  - unfold request_cancel. pose proof (cancel_row_step w rid now) as Hs.
    destruct (cancel_row rid now w) as [[r|] w']; [done|by apply frame_step].
  - apply expedite_step.
  - unfold checkpoint. case_match; [apply write_outcome_step|by apply frame_step].
  - unfold record_tool_dispatch. case_match; [apply write_outcome_step|by apply frame_step].
  - unfold complete_tool_dispatch. case_match; [apply write_outcome_step|by apply frame_step].
  - apply merge_step.
  - by apply claim_step.
  - by apply absorb_step.
  - apply owned_step. intros r Hr. apply evolves_moved; [apply assigns_identity|..]; try by destruct r.
    unfold executing. by destruct (status r).
  - apply owned_step. leaving.
  - apply terminal_step.
  - apply owned_step. leaving.
  - apply transient_step.
  - apply stale_step. leaving.
  - apply stale_step. leaving.
  - apply stale_step. leaving.
  - apply stale_step. leaving.
  - unfold cancel_stale_active. destruct (seen_row w i rid) as [s|]; [|by apply frame_step].
    case_match; [by apply frame_step|]. apply stale_step. leaving.
  - apply stale_step. leaving.
  - apply stale_step. leaving.
  - apply begin_recovery_step.
  - apply recovery_terminal_step.
  - apply finish_step.
  - apply resolve_step.
  - unfold complete_failure_visibility. destruct (seen_row w i rid) as [s|]; [|by apply frame_step].
    case_match; [by apply frame_step|]. apply update_table_step. keeping.
  - unfold create_fenced_channel_delivery. repeat (case_match; try by apply frame_step).
Qed.

Lemma turns_run_ok w ops : turns_ok w → turns_ok (run exec w ops).
Proof. intros Hok. apply run_invariant; [done|]. intros x o Hx. by eapply ok_steps, exec_steps. Qed.

Lemma exec_ok_steps w o : turns_ok w → turns_ok (exec w o).
Proof. intros Hok. by eapply ok_steps, exec_steps. Qed.

(** *** What a history keeps of a row and of a fence *)

Definition frozen (r r' : request) : Prop :=
  status r' = status r ∧ terminal_at r' = terminal_at r ∧ payload r' = payload r ∧
  owner_of r' = owner_of r ∧ request_fencing_token r' = request_fencing_token r.

Definition tracks (w w' : world) : Prop :=
  (∀ r, r ∈ requests w → ∃ r', r' ∈ requests w' ∧ identity r' = identity r ∧ (settled r = true → frozen r r')) ∧
  (∀ key, fence (leases w) key ≤ fence (leases w') key).

Lemma grow_fence w w' key : leases_grow w w' → fence (leases w) key ≤ fence (leases w') key.
Proof.
  intros Hg. apply Z.le_ngt. intros Hlt.
  assert (∀ o, granted (leases w) key o (fence (leases w') key)) as Hw by (intros o; by left).
  destruct (Hg _ _ _ (Hw "")) as [?|(x & Hx & Ho & _)], (Hg _ _ _ (Hw "x")) as [?|(y & Hy & Ho' & _)]; try lia.
  congruence.
Qed.

Lemma tracks_refl w : tracks w w.
Proof. split; [|done]. intros r Hr. exists r. split_and!; [done..|]. by intros _. Qed.

Lemma tracks_trans w1 w2 w3 : tracks w1 w2 → tracks w2 w3 → tracks w1 w3.
Proof.
  intros [H1 F1] [H2 F2]. split; [|intros key; etrans; [apply F1|apply F2]]. intros r Hr. destruct (H1 r Hr) as (r' & Hr' & Hi & Hf).
  destruct (H2 r' Hr') as (r'' & Hr'' & Hi' & Hf'). exists r''. split_and!; [done|congruence|]. intros Hs.
  destruct (Hf Hs) as (Hs' & ? & ? & ? & ?). assert (settled r' = true) as Hset by (unfold settled in *; congruence).
  destruct (Hf' Hset) as (? & ? & ? & ? & ?). unfold frozen. split_and!; congruence.
Qed.

Lemma step_tracks w w' : table_step w w' → tracks w w'.
Proof.
  intros [Hr Hn Hl _|x Hr Hn Hl|i x x' Hx Hr Hn Hl _ He]; split.
  - rewrite Hr. apply tracks_refl.
  - intros key. by apply grow_fence.
  - intros r Hin. exists r. rewrite Hr, elem_of_app. split_and!; [by left|done|]. by intros _.
  - by rewrite Hl.
  - intros r (j & Hj)%list_elem_of_lookup. destruct (decide (j = i)) as [->|Hne].
    + exists x'. assert (r = x) as -> by congruence. split_and!; [|apply He|apply He].
      rewrite Hr. eapply list_elem_of_lookup_2, list_lookup_insert_eq, lookup_lt_Some, Hx.
    + exists r. split_and!; [|done|by intros _]. rewrite Hr. apply list_elem_of_lookup_2 with j.
      by rewrite list_lookup_insert_ne.
  - intros key. by apply grow_fence.
Qed.

Lemma steps_track w w' : rtc table_step w w' → tracks w w'.
Proof. intros Hs. induction Hs; eauto using tracks_refl, tracks_trans, step_tracks. Qed.

Lemma run_tracks w ops : turns_ok w → tracks w (run exec w ops).
Proof.
  intros Hok. cut (turns_ok (run exec w ops) ∧ tracks w (run exec w ops)); [tauto|].
  apply (run_invariant exec (λ x, turns_ok x ∧ tracks w x)); [auto using tracks_refl|].
  intros x o [Hx Ht]. split; [by apply exec_ok_steps|]. eapply tracks_trans; [done|]. by apply steps_track, exec_steps.
Qed.

(** The store when it is created, with the conversations and links of other components. *)
Definition opened (u : gmap string (option Z)) (l : list managed_link) : world := World ∅ [] 1 [] u l ∅ ∅.

Lemma opened_ok u l : turns_ok (opened u l).
Proof. split; cbn; intros; solve [set_solver|done]. Qed.

Lemma row_lookup w r : r ∈ requests w → turns_ok w → ∃ i, find_request w (request_id r) = Some (i, r).
Proof.
  intros (i & Hi)%list_elem_of_lookup Hok. exists i. apply list_find_Some. split_and!; [done|done|].
  intros j y Hj Hlt Hid. assert (j = i) by (eapply ok_ids; eauto). lia.
Qed.

(** ** Claims *)

(** C1. In every history of the store, of the leases and of the controllers, a conversation has
    at most one claimed or running turn, and every message admitted before it is settled: the
    turns of a conversation run one at a time, in the order of their admission. *)
Theorem turns_run_one_at_a_time u l ops x y :
  let w := run exec (opened u l) ops in
  x ∈ requests w → y ∈ requests w → conversation_id x = conversation_id y → executing y = true →
  (executing x = true → x = y) ∧ (admission_order x < admission_order y → settled x = true).
Proof.
  intros w (i & Hi)%list_elem_of_lookup (j & Hj)%list_elem_of_lookup Hc Hy.
  assert (turns_ok w) as Hok by apply turns_run_ok, opened_ok.
  destruct (decide (i < j)%nat) as [Hij|Hij]; [|destruct (decide (j < i)%nat) as [Hji|Hji]].
  - assert (settled x = true) as Hs by (eapply (ok_fifo w Hok i j); done). split; [|done].
    intros Hx%executing_active%active_unsettled. congruence.
  - split.
    + intros Hx. assert (settled y = true) as Hs by by eapply (ok_fifo w Hok j i).
      apply executing_active, active_unsettled in Hy. congruence.
    + assert (admission_order y < admission_order x) by (eapply (ok_orders w Hok j i); done). lia.
  - assert (i = j) as -> by lia. assert (x = y) as -> by congruence. split; [done|lia].
Qed.

(** A settled turn keeps its status, the time it settled, its message and the controller that
    settled it, whatever happens later: late results, recoveries and cancellations change nothing. *)
Theorem settled_turns_stay_settled u l ops later r :
  let w := run exec (opened u l) ops in
  r ∈ requests w → settled r = true →
  ∃ r', r' ∈ requests (run exec w later) ∧ identity r' = identity r ∧ frozen r r'.
Proof.
  intros w Hr Hs. destruct (run_tracks w later) as [Ht _]; [apply turns_run_ok, opened_ok|].
  destruct (Ht r Hr) as (r' & ? & ? & ?). eauto.
Qed.

(** *** The lease a method works under *)

Definition op_lease (o : turn_op) : option Lease :=
  match o with
  | TCheckpoint _ l _ _ _ _ _ | TRecord _ l _ _ _ _ _ _ | TComplete _ l _ _ _ _ _ _ | TMerge _ l _ _ _ _ _ _ _ _
  | TClaim _ _ l _ _ _ _ _ | TAbsorb _ _ l _ _ _ _ _ _ | TRunning _ _ l _ _ | TAbsorbed _ _ l _ _
  | TTerminal _ _ l _ _ _ _ | TRecoverable _ _ l _ _ _ | TTransient _ _ l _ _ _ _ | TRecoverClaim _ _ l _ _ _
  | TStaleAmbiguous _ _ l _ _ _ | TReconcileAbsorbed _ _ l _ _ | TReconcileCompleted _ _ l _ _ _
  | TCancelStale _ _ l _ _ | TRecoverAbsorbing _ _ l _ _ | TRecoverRunning _ _ l _ _ _
  | TBeginRecovery _ l _ _ _ _ _ | TRecoveryTerminal _ _ l _ _ _ _ | TFinishRecovery _ l _ _ _ | TDeliver _ l _ _ _ _ => Some l
  | _ => None
  end.

Lemma update_refused rid where_ values w : (∀ r, where_ r = false) → update_request rid where_ values w = (None, w).
Proof. intros Hw. unfold update_request. destruct (find_request w rid) as [[i r]|]; [|done]. by rewrite Hw. Qed.

Lemma owned_refused s rid lease st v ex at_ w :
  _lease_predicate w lease at_ = false → _owned_fenced_update s rid lease st v ex at_ w = (None, w).
Proof.
  intros Hl. unfold _owned_fenced_update. destruct s as [s|]; [|done]. repeat (case_match; [done|]). apply update_refused.
  intros r. by rewrite Hl, !andb_false_r.
Qed.

Lemma fenced_refused s rid lease st v b at_ w :
  _lease_predicate w lease at_ = false → _fenced_update s rid lease st v b at_ w = (None, w).
Proof.
  intros Hl. unfold _fenced_update. destruct s as [s|]; [|done]. case_match; [done|]. apply update_refused.
  intros r. by rewrite Hl, !andb_false_r.
Qed.

Lemma stale_refused s rid lease st st' b v at_ w :
  _lease_predicate w lease at_ = false → stale_update s rid lease st st' b v at_ w = (None, w).
Proof.
  intros Hl. unfold stale_update. destruct s as [s|]; [|done]. case_match; [done|]. apply update_refused.
  intros r. by rewrite Hl, !andb_false_r.
Qed.

Lemma locked_refused w rid lease at_ : _lease_predicate w lease at_ = false → locked_by w rid lease at_ = None.
Proof. intros Hl. unfold locked_by. destruct (select_request w rid); [|done]. cbn. by rewrite Hl, andb_false_r. Qed.

(** C21. Once a newer fence exists for a conversation, no later call by a controller that holds an
    older lease changes anything: not the requests, nor the outbox, nor the links. *)
Theorem superseded_controller_is_powerless u l ops later lease o :
  let w := run exec (opened u l) ops in
  fencing_token lease < fence (leases w) (resource_key lease) → op_lease o = Some lease →
  exec (run exec w later) o = run exec w later.
Proof.
  intros w Hf Ho. destruct (run_tracks w later) as [_ Ht]; [apply turns_run_ok, opened_ok|].
  specialize (Ht (resource_key lease)). set (w' := run exec w later) in *.
  assert (∀ t, _lease_predicate w' lease t = false) as Hl by (intros t; apply stale_not_current; lia).
  destruct o; try done; injection Ho as ->; cbn [turn_exec];
    unfold checkpoint, record_tool_dispatch, complete_tool_dispatch, merge_tool_dispatch, claim, begin_absorb, mark_running,
      mark_absorbed, mark_terminal, _mark_terminal, mark_recoverable, settle_transient_failure, recover_stale_claim,
      mark_stale_ambiguous, reconcile_stale_absorbed, reconcile_stale_completed, cancel_stale_active,
      recover_stale_absorbing, recover_stale_running, mark_tool_recovery_terminal, finish_tool_recovery;
    rewrite ?locked_refused, ?owned_refused, ?fenced_refused, ?stale_refused by done; try done; try (by repeat case_match).
  - unfold begin_tool_recovery. case_match; [done|]. destruct (select_request w' rid); [|done].
    by rewrite Hl, andb_false_r.
  - unfold create_fenced_channel_delivery. destruct (select_request w' rid); [|done]. by rewrite Hl, andb_false_r.
Qed.

(** *** Admission *)

Lemma created_row s p a w res w' :
  admit_ canonical_hash model_validate evidence_origin evidence_admission s true (participant_of p) a w = (Ok res, w') →
  created res = true → ∃ row, row ∈ requests w' ∧ identity row = identity (admitted res) ∧
    idempotency_scope (admitted res) = sub_scope s ∧ idempotency_key (admitted res) = sub_key s.
Proof.
  unfold admit_. destruct (_validated_payload _ _ _ _ _) as [pl|e]; [|done].
  destruct (first_attempt 3 0 a) as [now|]; [|done]. unfold _admit_once. cbn [negb].
  destruct (existsb (collides s) (requests w)) eqn:Hc.
  - destruct (snd <$> list_find _ (requests w)) as [row|]; [|done]. case_bool_decide; [|done].
    destruct (participant_of p row false w) as [w0|] eqn:Hp; [|done]. by intros [= <- <-].
  - destruct (participant_of p _ true _) as [w0|] eqn:Hp; [|done]. intros [= <- <-] _. cbn.
    apply participant_step, step_tracks in Hp as [Hp _].
    destruct (Hp (new_request canonical_hash s pl (next_order w) now)) as (row & ? & ? & _).
    + cbn. apply elem_of_app. right. by apply list_elem_of_singleton.
    + exists row. by split_and!.
Qed.

Lemma admit_again s a p w row now :
  turns_ok w → row ∈ requests w → idempotency_scope row = sub_scope s → idempotency_key row = sub_key s →
  _validated_payload model_validate evidence_origin evidence_admission (sub_payload s) (sub_version s) = Ok p →
  first_attempt 3 0 a = Some now →
  admit_ canonical_hash model_validate evidence_origin evidence_admission s true no_participant a w =
    if bool_decide (admission_hash row ∈ [admission_hash_of canonical_hash s p; legacy_admission_hash_of canonical_hash s p])
    then (Ok {| admitted := row; created := false; queued_behind_predecessor := has_predecessor w row |}, w)
    else (Err (EConflict "idempotency key was reused with a different request"), w).
Proof.
  intros Hok Hrow Hs Hk Hp Ha. unfold admit_. rewrite Hp, Ha. unfold _admit_once. cbn [negb].
  assert (same_key s row = true) as Hsame by (unfold same_key; by rewrite Hs, Hk, !bool_decide_true).
  replace (existsb (collides s) (requests w)) with true.
  2: { symmetry. apply existsb_exists. exists row. split; [by apply list_elem_of_In|]. unfold collides.
       unfold same_key in Hsame. by rewrite Hsame, orb_true_r. }
  apply list_elem_of_lookup in Hrow as [i Hi].
  destruct (list_find (λ r, same_key s r = true) (requests w)) as [[j x]|] eqn:Hf.
  - cbn. apply list_find_Some in Hf as (Hj & Hx & _). unfold same_key in Hx. bool_facts.
    assert (j = i) as -> by (eapply ok_ids; [done..|right; congruence]). assert (x = row) as -> by congruence.
    by case_bool_decide.
  - exfalso. apply list_find_None in Hf. rewrite Forall_forall in Hf. eapply Hf; [by eapply list_elem_of_lookup_2|done].
Qed.

(** An admission is made once.  After any history, submitting a key of the same scope again
    returns the row that the first submission created and changes nothing if the request is the
    same one, and is a conflict if it is another. *)
Theorem admission_is_idempotent u l ops later s a part res w s' a' p' now :
  admit_ canonical_hash model_validate evidence_origin evidence_admission s true (participant_of part) a (run exec (opened u l) ops)
    = (Ok res, w) →
  created res = true → sub_scope s' = sub_scope s → sub_key s' = sub_key s →
  _validated_payload model_validate evidence_origin evidence_admission (sub_payload s') (sub_version s') = Ok p' →
  first_attempt 3 0 a' = Some now →
  let again := admit_ canonical_hash model_validate evidence_origin evidence_admission s' true no_participant a' (run exec w later) in
  again.2 = run exec w later ∧
  if bool_decide (admission_hash (admitted res) ∈ [admission_hash_of canonical_hash s' p'; legacy_admission_hash_of canonical_hash s' p'])
  then ∃ row b, again.1 = Ok {| admitted := row; created := false; queued_behind_predecessor := b |} ∧
         identity row = identity (admitted res)
  else again.1 = Err (EConflict "idempotency key was reused with a different request").
Proof.
  intros Hadm Hnew Hs Hk Hp Ha. destruct (created_row _ _ _ _ _ _ Hadm Hnew) as (row & Hrow & Hid & Hsc & Hke).
  assert (turns_ok w) as Hok.
  { replace w with (exec (run exec (opened u l) ops) (TAdmit s true part a)) by (cbn; by rewrite Hadm).
    apply exec_ok_steps, turns_run_ok, opened_ok. }
  destruct (run_tracks w later Hok) as [Ht _]. destruct (Ht row Hrow) as (row' & Hrow' & Hid' & _).
  rewrite Hid in Hid'. destruct (identity_fields _ _ Hid') as (_ & _ & _ & _ & Hsc' & Hke' & Hh').
  cbn zeta. rewrite (admit_again s' a' p' _ row' now) by (try done; try congruence; by apply turns_run_ok).
  rewrite Hh'. case_bool_decide; cbn; eauto.
Qed.

(** *** Progress *)

Lemma update_accepted w rid i r where_ values :
  find_request w rid = Some (i, r) → where_ r = true →
  let w' := set_requests (<[i := assigns r (values r)]> (requests w)) w in
  update_request rid where_ values w = (Some (assigns r (values r)), w') ∧
  find_request w' rid = Some (i, assigns r (values r)).
Proof.
  intros Hf Hw. split; [unfold update_request; by rewrite Hf, Hw|].
  apply list_find_Some in Hf as (Hi & Hr & Hmin). apply list_find_Some. cbn. split_and!.
  - eapply list_lookup_insert_eq, lookup_lt_Some, Hi.
  - pose proof (assigns_identity r (values r)) as (_ & -> & _)%identity_fields. done.
  - intros j y. destruct (decide (j = i)) as [->|]; [lia|]. rewrite list_lookup_insert_ne by done. apply Hmin.
Qed.

Lemma read_then w rid i r :
  find_request w rid = Some (i, r) →
  seen_row (read_request rid w) (length (seen w)) rid = Some r.
Proof.
  intros Hf. unfold seen_row, read_request, select_request. rewrite Hf. cbn.
  rewrite lookup_app_r, Nat.sub_diag by lia. cbn. apply find_request_spec in Hf as [_ Hr]. by rewrite bool_decide_true.
Qed.

Lemma has_predecessor_kept w w' i r r' :
  requests w !! i = Some r → requests w' = <[i := r']> (requests w) → identity r' = identity r →
  has_predecessor w r = false → has_predecessor w' r' = false.
Proof.
  intros Hi Hr Hid Hp. apply not_true_iff_false. unfold has_predecessor. rewrite Hr, existsb_exists.
  intros (e & (j & He)%list_elem_of_In%list_elem_of_lookup & Hpre).
  destruct (lookup_row _ _ _ _ _ _ Hi Hid He) as (y & Hy & Hyi & Hc).
  apply identity_fields in Hid as (Ho & _ & _ & Hconv & _). unfold precedes in Hpre. bool_facts.
  destruct Hc as [[_ ->]|(-> & -> & ->)]; [|lia].
  assert (settled y = true) as Hs by (eapply no_predecessor; [done|by eapply list_elem_of_lookup_2|congruence|lia]).
  match goal with H : status_in _ NONTERMINAL_STATUSES = true |- _ => rewrite nonterminal_unsettled in H end.
  unfold settled in Hs. by rewrite Hs in *.
Qed.

(** The holder of the conversation's lease claims the head. *)
Lemma claim_head w rid i r lease c inc now :
  find_request w rid = Some (i, r) → status_in (status r) CLAIMABLE_STATUSES = true → has_predecessor w r = false →
  resource_key lease = conversation_lease_key (conversation_id r) → owner_id lease = _owner_id c inc →
  _lease_predicate w lease now = true →
  ∃ r', select_request (run exec w [TRead rid; TClaim (length (seen w)) rid lease c inc None now now]) rid = Some r' ∧
    _owns_live_fence r' lease = true.
Proof.
  intros Hf Hs Hp Hk Ho Hl. cbn. set (w1 := read_request rid w).
  assert (find_request w1 rid = Some (i, r)) as Hf1 by done.
  unfold claim. rewrite bool_decide_true by done. cbn [negb]. unfold w1 at 1. rewrite (read_then w rid i r) by done.
  unfold _fenced_update. rewrite bool_decide_true by done. cbn [negb].
  edestruct (update_accepted w1 rid i r) as [-> Hf2]; [done| |].
  { assert (has_predecessor w1 r = false) as Hp1 by done. assert (_lease_predicate w1 lease now = true) as Hl1 by done.
    cbv beta. by rewrite Hs, Hl1, Hp1. }
  cbn. eexists. split; [exact (f_equal (λ x, snd <$> x) Hf2)|].
  unfold _owns_live_fence, owns. destruct r; cbn in *. by rewrite Ho, Hk, !bool_decide_true.
Qed.

(** Whoever holds a newer fence brings stale work to an end or back into the queue. *)
Lemma recover_stale w rid i r lease now :
  find_request w rid = Some (i, r) → active r = true → older_fence r lease = true → _lease_predicate w lease now = true →
  ∃ o r', op_lease o = Some lease ∧
    (let w' := run exec w [TRead rid; o] in
     requests w' = <[i := r']> (requests w) ∧ find_request w' rid = Some (i, r') ∧ leases w' = leases w) ∧
    identity r' = identity r ∧ (settled r' = true ∨ status r' = RECOVERABLE).
Proof.
  intros Hf Ha Hold Hl. set (n := length (seen w)).
  pose proof (read_then w rid i r Hf) as Hsn. fold n in Hsn.
  assert (∀ read_as now_in cancelled values, status_in (status r) read_as = true → status_in (status r) now_in = true →
    negb (not_cancelled r) = cancelled →
    let x := stale_update (Some r) rid lease read_as now_in cancelled values now (read_request rid w) in
    let r' := assigns r (values r) in
    requests x.2 = <[i := r']> (requests w) ∧ find_request x.2 rid = Some (i, r') ∧ leases x.2 = leases w) as Hup.
  { intros ra ni cc v Hra Hni Hc. cbn zeta. unfold stale_update.
    rewrite Hold, Hra. cbn [negb andb].
    edestruct (update_accepted (read_request rid w) rid i r) as [-> Hf2]; [done| |done].
    assert (_lease_predicate (read_request rid w) lease now = true) as Hl1 by done.
    cbv beta. by rewrite Hni, Hl1, Hc, bool_decide_true, eqb_reflx. }
  unfold active in Ha. destruct (not_cancelled r) eqn:Hc; [destruct (status r) eqn:Hs; try done|].
  - exists (TRecoverClaim n rid lease None now now). eexists. split; [done|]. split; [cbn; rewrite Hsn; by apply Hup|].
    split; [apply assigns_identity|]. right. by destruct r.
  - exists (TStaleAmbiguous n rid lease [] now now). eexists. split; [done|]. split; [cbn; rewrite Hsn; by apply Hup|].
    split; [apply assigns_identity|]. left. by destruct r.
  - exists (TRecoverAbsorbing n rid lease now now). eexists. split; [done|]. split; [cbn; rewrite Hsn; by apply Hup|].
    split; [apply assigns_identity|]. right. by destruct r.
  - exists (TCancelStale n rid lease now now). eexists. split; [done|]. split.
    { cbn [run foldl turn_exec]. unfold cancel_stale_active. rewrite Hsn, Hc. by apply Hup. }
    split; [apply assigns_identity|]. left. by destruct r.
Qed.

End Steps.

(** ** A concrete history *)

Section Demo.
Definition demo_submission (key : string) : submission :=
  {| sub_conversation := "c"; sub_session := None; sub_agent := "agent"; sub_user := "user"; sub_scope := "web"; sub_key := key;
     sub_payload := [("schema_version", PInt 1); ("content", PStr key)]; sub_version := 1; sub_generated := false;
     sub_request_id := "request_" +:+ key; sub_turn_id := "turn_" +:+ key |}.

(** A hash that tells the content of payloads apart. *)
Definition demo_hash (d : pydict) : string :=
  match dict_get "payload" d with PDict p => str_or_empty (dict_get "content" p) | _ => "" end.

Definition demo_exec : world → turn_op → world :=
  turn_exec demo_hash (λ _, "") (λ _, None) Some (λ _, None) (λ _, None).
Definition demo_run : list turn_op → world := run demo_exec (opened ∅ []).
Definition demo_clock : nat → attempt := λ _, Attempt false 10.
Definition demo_lease : Lease := MkLease (conversation_lease_key "c") (_owner_id "k1" "i1") 1 120.
Definition demo_lease2 : Lease := MkLease (conversation_lease_key "c") (_owner_id "k2" "i2") 2 1130.

Definition demo_admit (key : string) : turn_op := TAdmit (demo_submission key) true None demo_clock.

(** Two messages; the first is claimed and runs. *)
Definition demo_first : list turn_op :=
  [demo_admit "a"; demo_admit "b"; TLease 20 (OpAcquire (conversation_lease_key "c") (_owner_id "k1" "i1") 100);
   TRead "request_a"; TClaim 0 "request_a" demo_lease "k1" "i1" (Some "s") 21 21; TRead "request_a";
   TRunning 1 "request_a" demo_lease 22 22].

(** It completes, and the second is claimed. *)
Definition demo_second : list turn_op :=
  demo_first ++ [TRead "request_a"; TTerminal 2 "request_a" demo_lease COMPLETED (Some []) 23 23; TRead "request_b";
                 TClaim 3 "request_b" demo_lease "k1" "i1" None 24 24].

(** The lease lapses and another controller takes it. *)
Definition demo_taken : list turn_op :=
  demo_second ++ [TLease 130 (OpAcquire (conversation_lease_key "c") (_owner_id "k2" "i2") 1000)].

Definition demo_row (ops : list turn_op) (n : nat) : request :=
  default (new_request demo_hash (demo_submission "") [] 0 0) (requests (demo_run ops) !! n).

Definition demo_result (key : string) : AdmissionResult :=
  {| admitted := demo_row [demo_admit key] 0; created := true; queued_behind_predecessor := false |}.
End Demo.

Lemma turns_run_one_at_a_time_witness :
  let x := demo_row demo_second 0 in let y := demo_row demo_second 1 in
  executing y = true ∧ ((executing x = true → x = y) ∧ (admission_order x < admission_order y → settled x = true)).
Proof.
  split; [vm_compute; reflexivity|].
  apply (turns_run_one_at_a_time demo_hash (λ _, "") (λ _, None) Some (λ _, None) (λ _, None) ∅ [] demo_second);
    [apply (list_elem_of_lookup_2 _ 0)|apply (list_elem_of_lookup_2 _ 1)|..]; vm_compute; reflexivity.
Defined.

Lemma settled_turns_stay_settled_witness :
  ∃ r', r' ∈ requests (run demo_exec (demo_run demo_second)
               [TCancel "request_a" 30; TRecoverClaim 2 "request_a" demo_lease2 None 31 31]) ∧
    identity r' = identity (demo_row demo_second 0) ∧ frozen (demo_row demo_second 0) r'.
Proof.
  apply (settled_turns_stay_settled demo_hash (λ _, "") (λ _, None) Some (λ _, None) (λ _, None) ∅ [] demo_second);
    [apply (list_elem_of_lookup_2 _ 0)|]; vm_compute; reflexivity.
Defined.

Lemma superseded_controller_is_powerless_witness :
  let w := run demo_exec (demo_run demo_taken) [TRead "request_b"] in
  demo_exec w (TTerminal 4 "request_b" demo_lease COMPLETED None 140 140) = w.
Proof.
  apply (superseded_controller_is_powerless demo_hash (λ _, "") (λ _, None) Some (λ _, None) (λ _, None) ∅ [] demo_taken
           [TRead "request_b"] demo_lease); vm_compute; reflexivity.
Defined.

Lemma admission_is_idempotent_witness :
  let w := run demo_exec (demo_run [demo_admit "a"]) [demo_admit "b"] in
  let again := admit_ demo_hash Some (λ _, None) (λ _, None) (demo_submission "a") true no_participant demo_clock w in
  again.2 = w.
Proof.
  refine (proj1 (admission_is_idempotent demo_hash (λ _, "") (λ _, None) Some (λ _, None) (λ _, None) ∅ [] [] [demo_admit "b"]
           (demo_submission "a") demo_clock None (demo_result "a") (demo_run [demo_admit "a"]) (demo_submission "a") demo_clock
           [("schema_version", PInt 1); ("content", PStr "a"); ("metadata", PDict [])] 10 _ _ _ _ _ _));
    vm_compute; reflexivity.
Defined.

