(* ===== verification/Coroutine.v ===== *)
(** Coroutines of a controller: programs of store calls, and the moments between the calls in
    which other tasks of the process and other controllers act.

    A coroutine is a program ([prog]).  [play] runs it against a schedule of what everybody else
    does; a schedule that ends early is a process that dies there.  The rules that follow reason
    about every schedule at once. *)

From S2P Require Import Prelude.

(** ** Programs *)

(** [Look], [Update] and [Spawn] (a new task of the process) let no other task run; [Query] reads
    the tables at a database time; [Call] is a method of a store, given the database clock that
    it stores and the one that its predicate reads. *)
Inductive prog (Op Reply World Local Job A : Type) :=
| Ret (a : A)
| Look (k : Z → Z → Local → prog Op Reply World Local Job A)
| Update (f : Z → Local → Local) (p : prog Op Reply World Local Job A)
| Spawn (j : Job) (p : prog Op Reply World Local Job A)
| Query (k : Z → World → prog Op Reply World Local Job A)
| Call (o : Z → Z → Op) (k : Reply → prog Op Reply World Local Job A).
Arguments Ret {Op Reply World Local Job A} a.
Arguments Look {Op Reply World Local Job A} k.
Arguments Update {Op Reply World Local Job A} f p.
Arguments Spawn {Op Reply World Local Job A} j p.
Arguments Query {Op Reply World Local Job A} k.
Arguments Call {Op Reply World Local Job A} o k.

(** A moment of the process: its wall and monotonic clocks, its attributes, and the tables. *)
Record moment (World Local : Type) := Moment { m_wall : Z; m_mono : Z; m_local : Local; m_world : World }.
Arguments Moment {World Local}.
Arguments m_wall {World Local}.
Arguments m_mono {World Local}.
Arguments m_local {World Local}.
Arguments m_world {World Local}.

(** An await: what the other users of the store do before the statement runs, its readings of
    the database clock, what the other tasks do to the attributes until the coroutine resumes. *)
Record slot (Op Local : Type) := Slot { others : list Op; s_now : Z; s_at : Z; s_tasks : Local → Local; s_wall : Z; s_mono : Z }.
Arguments Slot {Op Local}.
Arguments others {Op Local}.
Arguments s_now {Op Local}.
Arguments s_at {Op Local}.
Arguments s_tasks {Op Local}.
Arguments s_wall {Op Local}.
Arguments s_mono {Op Local}.

(** A method that was called on the tables, tables that were read, a task that was created. *)
Inductive event (Op World Job : Type) :=
| ECall (w : World) (o : Op)
| ERead (w : World)
| ESpawn (j : Job).
Arguments ECall {Op World Job}.
Arguments ERead {Op World Job}.
Arguments ESpawn {Op World Job}.

Section Coroutine.
Context {Op Reply World Local Job : Type}.

Notation prog := (prog Op Reply World Local Job).
Notation event := (event Op World Job).

Fixpoint pbind {A B} (p : prog A) (f : A → prog B) : prog B :=
  match p with
  | Ret a => f a
  | Look k => Look (λ wall mono l, pbind (k wall mono l) f)
  | Update g p => Update g (pbind p f)
  | Spawn j p => Spawn j (pbind p f)
  | Query k => Query (λ now w, pbind (k now w) f)
  | Call o k => Call o (λ r, pbind (k r) f)
  end.

(** [for x in l: f(x)]; [false] when an exception ends the loop. *)
Fixpoint each {A} (f : A → prog bool) (l : list A) : prog bool :=
  match l with
  | [] => Ret true
  | x :: l => pbind (f x) (λ ok, if (ok : bool) then each f l else Ret false)
  end.

Context (exec : World → Op → World) (reply_of : World → Op → Reply).

Definition resume (s : slot Op Local) (w : World) (m : moment World Local) : moment World Local :=
  Moment (s_wall s) (s_mono s) (s_tasks s (m_local m)) w.

(** The result ([None] when the process died), the last moment and what was done. *)
Fixpoint play {A} (p : prog A) (sched : list (slot Op Local)) (m : moment World Local) : option A * moment World Local * list event :=
  match p with
  | Ret a => (Some a, m, [])
  | Look k => play (k (m_wall m) (m_mono m) (m_local m)) sched m
  | Update f p => play p sched (Moment (m_wall m) (m_mono m) (f (m_mono m) (m_local m)) (m_world m))
  | Spawn j p => let '(r, m', evs) := play p sched m in (r, m', ESpawn j :: evs)
  | Query k =>
      match sched with
      | [] => (None, m, [])
      | s :: sched =>
          let w := run exec (m_world m) (others s) in
          let '(r, m', evs) := play (k (s_at s) w) sched (resume s w m) in
          (r, m', ERead w :: evs)
      end
  | Call o k =>
      match sched with
      | [] => (None, m, [])
      | s :: sched =>
          let w := run exec (m_world m) (others s) in
          let o := o (s_now s) (s_at s) in
          let '(r, m', evs) := play (k (reply_of w o)) sched (resume s (exec w o) m) in
          (r, m', ECall w o :: evs)
      end
  end.

(** ** The calls a program can make *)

Fixpoint calls_only {A} (P : Op → Prop) (p : prog A) : Prop :=
  match p with
  | Ret _ => True
  | Look k => ∀ wall mono l, calls_only P (k wall mono l)
  | Update _ p | Spawn _ p => calls_only P p
  | Query k => ∀ now w, calls_only P (k now w)
  | Call o k => (∀ now at_, P (o now at_)) ∧ ∀ r, calls_only P (k r)
  end.

Lemma calls_only_weaken {A} (P Q : Op → Prop) (p : prog A) : (∀ o, P o → Q o) → calls_only P p → calls_only Q p.
Proof. intros H. induction p as [a|k IH|g p IH|j p IH|k IH|c k IH]; cbn; auto. intros [Hc Hk]. split; auto. Qed.

Lemma calls_only_bind {A B} P (p : prog A) (f : A → prog B) :
  calls_only P p → (∀ a, calls_only P (f a)) → calls_only P (pbind p f).
Proof.
  intros Hp Hf. induction p as [a|k IH|g p IH|j p IH|k IH|c k IH]; cbn in *; auto. destruct Hp as [Hc Hk]. split; auto.
Qed.

Lemma calls_only_each {A} P (f : A → prog bool) l : (∀ x, calls_only P (f x)) → calls_only P (each f l).
Proof. intros Hf. induction l as [|x l IH]; [done|]. apply calls_only_bind; [done|]. by intros []. Qed.

Lemma calls_only_sound {A} P (p : prog A) sched m r m' evs w o :
  calls_only P p → play p sched m = (r, m', evs) → ECall w o ∈ evs → P o.
Proof.
  revert sched m r m' evs. induction p as [a|k IH|f p IH|j p IH|k IH|c k IH]; intros sched m r m' evs Hp Hplay Ho; cbn in *.
  - injection Hplay as <- <- <-. by apply not_elem_of_nil in Ho.
  - by eapply IH.
  - by eapply IH.
  - destruct (play p sched m) as [[r0 m0] evs0] eqn:E. injection Hplay as <- <- <-.
    apply elem_of_cons in Ho as [Ho|Ho]; [done|]. by eapply IH.
  - destruct sched as [|s sched]; [injection Hplay as <- <- <-; by apply not_elem_of_nil in Ho|].
    destruct (play _ sched _) as [[r0 m0] evs0] eqn:E. injection Hplay as <- <- <-.
    apply elem_of_cons in Ho as [Ho|Ho]; [done|]. by eapply IH.
  - destruct sched as [|s sched]; [injection Hplay as <- <- <-; by apply not_elem_of_nil in Ho|].
    destruct (play _ sched _) as [[r0 m0] evs0] eqn:E. injection Hplay as <- <- <-. destruct Hp as [Hc Hk].
    apply elem_of_cons in Ho as [[= -> ->]|Ho]; [apply Hc|]. by eapply IH.
Qed.

(** The same, seen from the calls. *)
Fixpoint may_call {A} (p : prog A) (o : Op) : Prop :=
  match p with
  | Ret _ => False
  | Look k => ∃ wall mono l, may_call (k wall mono l) o
  | Update _ p | Spawn _ p => may_call p o
  | Query k => ∃ now w, may_call (k now w) o
  | Call c k => (∃ now at_, o = c now at_) ∨ ∃ r, may_call (k r) o
  end.

Lemma may_call_only {A} P (p : prog A) o : calls_only P p → may_call p o → P o.
Proof.
  induction p as [a|k IH|f p IH|j p IH|k IH|c k IH]; cbn; intros Hp Ho; eauto; [done| | |].
  - destruct Ho as (wall & mono & l & Ho). by eapply IH.
  - destruct Ho as (now & w & Ho). by eapply IH.
  - destruct Hp as [Hc Hk]. destruct Ho as [(now & at_ & ->)|(r & Ho)]; [apply Hc|by eapply IH].
Qed.

(** What a program has read when it creates a task: [P] relates the task to the tables read so
    far, the last first. *)
Fixpoint spawns {A} (P : list World → Job → Prop) (reads : list World) (p : prog A) : Prop :=
  match p with
  | Ret _ => True
  | Look k => ∀ wall mono l, spawns P reads (k wall mono l)
  | Update _ p => spawns P reads p
  | Spawn j p => P reads j ∧ spawns P reads p
  | Query k => ∀ now w, spawns P (w :: reads) (k now w)
  | Call _ k => ∀ r, spawns P reads (k r)
  end.

Lemma spawns_bind {A B} P reads (p : prog A) (f : A → prog B) :
  spawns P reads p → (∀ reads' a, spawns P reads' (f a)) → spawns P reads (pbind p f).
Proof.
  revert reads. induction p as [a|k IH|g p IH|j p IH|k IH|c k IH]; cbn; intros reads Hp Hf; eauto. destruct Hp. eauto.
Qed.

Lemma spawns_each {A} P reads (f : A → prog bool) l : (∀ reads x, spawns P reads (f x)) → spawns P reads (each f l).
Proof. intros Hf. revert reads. induction l as [|x l IH]; intros reads; cbn; [done|]. apply spawns_bind; [done|]. by intros reads' []. Qed.

Lemma spawns_sound {A} P reads (p : prog A) sched m r m' evs j :
  spawns P reads p → play p sched m = (r, m', evs) → ESpawn j ∈ evs → ∃ later, P (later ++ reads) j ∧ ∀ w, w ∈ later → ERead w ∈ evs.
Proof.
  revert reads sched m r m' evs. induction p as [a|k IH|f p IH|i p IH|k IH|c k IH]; intros reads sched m r m' evs Hp Hplay Hj; cbn in *.
  - injection Hplay as <- <- <-. by apply not_elem_of_nil in Hj.
  - by eapply IH.
  - by eapply IH.
  - destruct (play p sched m) as [[r0 m0] evs0] eqn:E. injection Hplay as <- <- <-. destruct Hp as [Hi Hp].
    apply elem_of_cons in Hj as [[= ->]|Hj]; [exists []; split; [done|by intros ? ?%elem_of_nil]|].
    destruct (IH _ _ _ _ _ _ Hp E Hj) as (later & HP & Hl). exists later. split; [done|]. intros w Hw. right. by apply Hl.
  - destruct sched as [|s sched]; [injection Hplay as <- <- <-; by apply not_elem_of_nil in Hj|].
    destruct (play _ sched _) as [[r0 m0] evs0] eqn:E. injection Hplay as <- <- <-. apply elem_of_cons in Hj as [Hj|Hj]; [done|].
    destruct (IH _ _ _ _ _ _ _ _ (Hp _ _) E Hj) as (later & HP & Hl). eexists (later ++ [_]). rewrite <- app_assoc. split; [exact HP|].
    intros w [Hw| ->%list_elem_of_singleton]%elem_of_app; [right; by apply Hl|by left].
  - destruct sched as [|s sched]; [injection Hplay as <- <- <-; by apply not_elem_of_nil in Hj|].
    destruct (play _ sched _) as [[r0 m0] evs0] eqn:E. injection Hplay as <- <- <-. apply elem_of_cons in Hj as [Hj|Hj]; [done|].
    destruct (IH _ _ _ _ _ _ _ (Hp _) E Hj) as (later & HP & Hl). exists later. split; [done|]. intros w Hw. right. by apply Hl.
Qed.

(** Every state that a program passes through is one of a history. *)
Lemma play_run {A} (p : prog A) sched m r m' evs :
  play p sched m = (r, m', evs) → ∃ ops, m_world m' = run exec (m_world m) ops.
Proof.
  revert sched m r m' evs. induction p as [a|k IH|f p IH|j p IH|k IH|c k IH]; intros sched m r m' evs Hplay; cbn in *.
  - injection Hplay as <- <- <-. by exists [].
  - by eapply IH.
  - by eapply IH in Hplay.
  - destruct (play p sched m) as [[r0 m0] evs0] eqn:E. injection Hplay as <- <- <-. by eapply IH.
  - destruct sched as [|s sched]; [injection Hplay as <- <- <-; by exists []|].
    destruct (play _ sched _) as [[r0 m0] evs0] eqn:E. injection Hplay as <- <- <-.
    apply IH in E as [ops Hops]. exists (others s ++ ops). by rewrite run_app.
  - destruct sched as [|s sched]; [injection Hplay as <- <- <-; by exists []|].
    destruct (play _ sched _) as [[r0 m0] evs0] eqn:E. injection Hplay as <- <- <-.
    apply IH in E as [ops Hops]. exists (others s ++ c (s_now s) (s_at s) :: ops). by rewrite run_app, run_cons.
Qed.

(** ** Running alone *)

Section Alone.
Context (t wall mono : Z).

(** What a program does when nobody else acts and the clocks stand still. *)
Fixpoint alone {A} (p : prog A) (l : Local) (w : World) : A * Local * World :=
  match p with
  | Ret a => (a, l, w)
  | Look k => alone (k wall mono l) l w
  | Update f p => alone p (f mono l) w
  | Spawn _ p => alone p l w
  | Query k => alone (k t w) l w
  | Call o k => alone (k (reply_of w (o t t))) l (exec w (o t t))
  end.

Lemma alone_bind {A B} (p : prog A) (f : A → prog B) l w :
  alone (pbind p f) l w = let '(a, l', w') := alone p l w in alone (f a) l' w'.
Proof. revert l w. induction p as [a|k IH|g p IH|j p IH|k IH|c k IH]; intros l w; cbn; auto. Qed.

Lemma alone_kept {A} (R : World → World → Prop) `{!Reflexive R} `{!Transitive R} (p : prog A) l w :
  calls_only (λ o, ∀ w, R w (exec w o)) p → R w (alone p l w).2.
Proof.
  revert l w. induction p as [a|k IH|g p IH|j p IH|k IH|c k IH]; intros l w Hp; cbn in *; [done|by apply IH..|].
  destruct Hp as [Hc Hk]. etrans; [apply Hc|by apply IH].
Qed.

(** Enough moments, and the program has run. *)
Lemma alone_plays {A} (p : prog A) l w :
  ∃ n, ∀ k, (n ≤ k)%nat → ∃ evs,
    play p (replicate k (Slot [] t t (λ l, l) wall mono)) (Moment wall mono l w) =
      (Some (alone p l w).1.1, Moment wall mono (alone p l w).1.2 (alone p l w).2, evs).
Proof.
  revert l w. induction p as [a|k IH|g p IH|j p IH|k IH|c k IH]; intros l w; cbn.
  - exists 0%nat. intros n _. by exists [].
  - apply IH.
  - apply IH.
  - destruct (IH l w) as [n Hn]. exists n. intros m Hm. destruct (Hn m Hm) as [evs ->]. by eexists.
  - destruct (IH t w l w) as [n Hn]. exists (S n). intros [|m] Hm; [lia|]. destruct (Hn m) as [evs He]; [lia|]. cbn.
    unfold resume. cbn. rewrite He. by eexists.
  - destruct (IH (reply_of w (c t t)) l (exec w (c t t))) as [n Hn]. exists (S n). intros [|m] Hm; [lia|].
    destruct (Hn m) as [evs He]; [lia|]. cbn. unfold resume. cbn. rewrite He. by eexists.
Qed.
End Alone.

(** ** What a program holds *)

(** [Held] is an account of resources that calls and new tasks change. *)
Context {Held : Type} (after_call : World → Op → Held → Held) (after_spawn : Job → Held → Held).

Fixpoint outstanding (evs : list event) (held : Held) : Held :=
  match evs with
  | [] => held
  | ECall w o :: evs => outstanding evs (after_call w o held)
  | ERead _ :: evs => outstanding evs held
  | ESpawn j :: evs => outstanding evs (after_spawn j held)
  end.

(** What holds of the result and of the account then, however the program runs. *)
Fixpoint accounts {A} (p : prog A) (held : Held) (Q : A → Held → Prop) : Prop :=
  match p with
  | Ret a => Q a held
  | Look k => ∀ wall mono l, accounts (k wall mono l) held Q
  | Update _ p => accounts p held Q
  | Spawn j p => accounts p (after_spawn j held) Q
  | Query k => ∀ now w, accounts (k now w) held Q
  | Call o k => ∀ now at_ w, accounts (k (reply_of w (o now at_))) (after_call w (o now at_) held) Q
  end.

Lemma accounts_bind {A B} (p : prog A) (f : A → prog B) held Q :
  accounts p held (λ a h, accounts (f a) h Q) → accounts (pbind p f) held Q.
Proof. revert held. induction p; cbn; eauto. Qed.

Lemma accounts_weaken {A} (p : prog A) held (Q Q' : A → Held → Prop) :
  accounts p held Q → (∀ a h, Q a h → Q' a h) → accounts p held Q'.
Proof. revert held. induction p; cbn; eauto. Qed.

Lemma accounts_sound {A} (p : prog A) held Q sched m a m' evs :
  accounts p held Q → play p sched m = (Some a, m', evs) → Q a (outstanding evs held).
Proof.
  revert held sched m m' evs. induction p as [a0|k IH|f p IH|j p IH|k IH|c k IH];
    intros held sched m m' evs Hp Hplay; cbn in *.
  - by injection Hplay as <- <- <-.
  - by eapply IH.
  - by eapply IH.
  - destruct (play p sched m) as [[r0 m0] evs0] eqn:E. injection Hplay as -> <- <-. cbn. by eapply IH.
  - destruct sched as [|s sched]; [done|]. destruct (play _ sched _) as [[r0 m0] evs0] eqn:E.
    injection Hplay as -> <- <-. cbn. eapply IH; [apply Hp|exact E].
  - destruct sched as [|s sched]; [done|]. destruct (play _ sched _) as [[r0 m0] evs0] eqn:E.
    injection Hplay as -> <- <-. cbn. eapply IH; [apply Hp|exact E].
Qed.

(** A loop whose rounds leave nothing held, unless an exception ends it. *)
Lemma accounts_each {A} (f : A → prog bool) l nothing :
  (∀ x, accounts (f x) nothing (λ ok held, ok = true → held = nothing)) →
  accounts (each f l) nothing (λ ok held, ok = true → held = nothing).
Proof.
  intros Hf. induction l as [|x l IH]; cbn; [done|]. apply accounts_bind. eapply accounts_weaken; [apply Hf|].
  intros [|] held Hh; [|done]. by rewrite Hh.
Qed.

(** Programs whose calls leave the account alone. *)
Fixpoint neutral {A} (free : Op → Prop) (p : prog A) : Prop :=
  match p with
  | Ret _ => True
  | Look k => ∀ wall mono l, neutral free (k wall mono l)
  | Update _ p => neutral free p
  | Spawn _ _ => False
  | Query k => ∀ now w, neutral free (k now w)
  | Call o k => (∀ now at_, free (o now at_)) ∧ ∀ r, neutral free (k r)
  end.

Lemma neutral_bind {A B} free (p : prog A) (f : A → prog B) :
  neutral free p → (∀ a, neutral free (f a)) → neutral free (pbind p f).
Proof.
  intros Hp Hf. induction p as [a|k IH|g p IH|j p IH|k IH|c k IH]; cbn in *; auto. destruct Hp as [Hc Hk]. split; auto.
Qed.

Lemma neutral_each {A} free (f : A → prog bool) l : (∀ x, neutral free (f x)) → neutral free (each f l).
Proof. intros Hf. induction l as [|x l IH]; cbn; [done|]. apply neutral_bind; [done|]. by intros []. Qed.

Lemma accounts_neutral {A} free (p : prog A) held (Q : A → Held → Prop) :
  (∀ o, free o → ∀ w h, after_call w o h = h) → neutral free p → (∀ a, Q a held) → accounts p held Q.
Proof.
  intros Hfree Hp HQ. induction p as [a|k IH|f p IH|j p IH|k IH|c k IH]; cbn in *; eauto; [done|].
  destruct Hp as [Hc Hk]. intros now at_ w. rewrite Hfree by done. eauto.
Qed.
End Coroutine.

Declare Scope prog_scope.
Bind Scope prog_scope with prog.
Delimit Scope prog_scope with prog.
Notation "'do' x <- p ; q" := (pbind p (λ x, q)) (at level 200, x name, p at level 100, q at level 200) : prog_scope.
Notation "'seq' p ; q" := (pbind p (λ _, q)) (at level 200, p at level 100, q at level 200) : prog_scope.
Open Scope prog_scope.

(** Nobody else acts, and the clocks stand still. *)
Definition quiet {Op Local} (t wall mono : Z) : slot Op Local := Slot [] t t (λ l, l) wall mono.

(** A run as the triple it is. *)
Lemma run_is {A B C} (x : A * B * C) a : x.1.1 = a → x = (a, x.1.2, x.2).
Proof. by destruct x as [[? ?] ?]; intros <-. Qed.
