(* ===== verification/TurnRuntime.v ===== *)
(** The controller's side of direct turns ([DurableDirectTurnRuntime] of
    [cognis/core/direct_turn_runtime.py]): claiming heads, executing them under a fence and
    recovering what other controllers left behind.

    A coroutine is a program of calls to the store ([prog]).  Between two calls other tasks of
    the process and other controllers act: [play] runs a program against a schedule of what
    they do, and a schedule that ends early is a controller that dies there.  Callbacks (the
    agent loop, the recovery of tool calls, the look into the canonical history, notifications)
    are parameters: each answers what the schedule's run of it would. *)

From S2P Require Import Prelude PyVal Lease Coroutine ToolDispatch DirectTurns DirectTurnsSpec.

(** ** Programs *)

(** What a call answers: a row that was read and its place in [seen], the row an UPDATE
    returned, a lease, or an exception. *)
Inductive reply :=
| RSeen (i : nat) (r : option request)
| RRow (r : option request)
| RLease (l : option Lease)
| RMerged (s : ToolDispatchMergeStatus) (r : option request)
| RUnit
| RFail.

(** The attributes of the runtime object. *)
Record local := Local {
  active_turns : gset string;
  retry_after : gmap string Z;
  accepting_claims : bool;
  wake_generation : Z;
}.

(** The task that is created executes a claimed turn. *)
Notation prog := (prog turn_op reply world local (request * Lease)).

(** ** The store's answers *)

Section Runtime.
Context (canonical_hash : pydict → string) (isoformat : Z → string) (fromisoformat : string → option Z).
Context (model_validate : pydict → option pydict).
Context (evidence_origin : pyval → option pyval) (evidence_admission : pyval → option (pyval * bool)).

Notation exec := (turn_exec canonical_hash isoformat fromisoformat model_validate evidence_origin evidence_admission).

Definition of_result (x : result TurnError (option request)) : reply :=
  match x with Ok r => RRow r | Err _ => RFail end.

Definition reply_of (w : world) (o : turn_op) : reply :=
  match o with
  | TLease now (OpAcquire key owner ttl) => RLease (acquire_in_session (leases w) key owner now ttl).2
  | TLease now (OpRenew lease ttl) => RLease (renew (leases w) lease now ttl).2
  | TRead rid => RSeen (length (seen w)) (select_request w rid)
  | TCheckpoint rid l p md c now at_ => of_result (checkpoint isoformat rid l p md c now at_ w).1
  | TRecord rid l s t ds md now at_ => of_result (record_tool_dispatch isoformat rid l s t ds md now at_ w).1
  | TComplete rid l s t ids md now at_ => of_result (complete_tool_dispatch isoformat rid l s t ids md now at_ w).1
  | TMerge rid l s t c e i st now at_ =>
      match (merge_tool_dispatch rid l s t c e i st now at_ w).1 with Ok (s, r) => RMerged s r | Err _ => RFail end
  | TClaim i rid l c inc s now at_ => of_result (claim (seen_row w i rid) rid l c inc s now at_ w).1
  | TTerminal i rid l s o now at_ => of_result (mark_terminal (seen_row w i rid) rid l s o now at_ w).1
  | TRecoverable i rid l o now at_ => RRow (mark_recoverable (seen_row w i rid) rid l o now at_ w).1
  | TRecoverClaim i rid l o now at_ => RRow (recover_stale_claim (seen_row w i rid) rid l o now at_ w).1
  | TStaleAmbiguous i rid l o now at_ => RRow (mark_stale_ambiguous (seen_row w i rid) rid l o now at_ w).1
  | TReconcileAbsorbed i rid l now at_ => RRow (reconcile_stale_absorbed (seen_row w i rid) rid l now at_ w).1
  | TReconcileCompleted i rid l o now at_ => RRow (reconcile_stale_completed (seen_row w i rid) rid l o now at_ w).1
  | TCancelStale i rid l now at_ => RRow (cancel_stale_active (seen_row w i rid) rid l now at_ w).1
  | TRecoverAbsorbing i rid l now at_ => RRow (recover_stale_absorbing (seen_row w i rid) rid l now at_ w).1
  | TRecoverRunning i rid l o now at_ => RRow (recover_stale_running (seen_row w i rid) rid l o now at_ w).1
  | TBeginRecovery rid l c inc d now at_ => of_result (begin_tool_recovery isoformat rid l c inc d now at_ w).1
  | TRecoveryTerminal i rid l s o now at_ => of_result (mark_tool_recovery_terminal (seen_row w i rid) rid l s o now at_ w).1
  | TFinishRecovery rid l o now at_ => RRow (finish_tool_recovery rid l o now at_ w).1
  | TVisibility i rid now => RRow (complete_failure_visibility (seen_row w i rid) rid now w).1
  | _ => RUnit
  end.

Definition played {A} (p : prog A) := play exec reply_of p.

(** ** Calls *)

Definition row_of (r : reply) : option request := match r with RRow r | RSeen _ r | RMerged _ r => r | _ => None end.

Definition failed (r : reply) : bool := match r with RFail => true | _ => false end.

Definition store_get (rid : string) : prog (option request) := Call (λ _ _, TRead rid) (λ r, Ret (row_of r)).

(** A method that reads its row before the UPDATE. *)
Definition read_then_update (rid : string) (o : nat → Z → Z → turn_op) : prog reply :=
  Call (λ _ _, TRead rid) (λ r, match r with RSeen i _ => Call (o i) Ret | _ => Ret RFail end).

(** [int(seconds * 10**6)] of the constants. *)
Definition DIRECT_TURN_LEASE_SECONDS : Z := 30 * SECOND.
Definition DIRECT_TURN_ACTIVE_POLL_SECONDS : Z := SECOND / 2.
Definition INTARIS_TAKEOVER_QUARANTINE_SECONDS : Z := 35 * SECOND.
Definition TOOL_RECOVERY_DEADLINE_SECONDS : Z := 60 * SECOND.
Definition DIRECT_TURN_CONTROLLER_MAX_ATTEMPTS : Z := 3.

Context (controller incarnation : string).

Definition self_owner : string := _owner_id controller incarnation.

Definition acquire_turn (conversation : string) : prog (option Lease) :=
  Call (λ now _, TLease now (OpAcquire (conversation_lease_key conversation) self_owner DIRECT_TURN_LEASE_SECONDS))
    (λ r, Ret (match r with RLease l => l | _ => None end)).

Definition release_lease (lease : Lease) : prog unit := Call (λ now _, TLease now (OpRelease lease)) (λ _, Ret tt).

Definition signal_wake (l : local) : local :=
  Local (active_turns l) (retry_after l) (accepting_claims l) (wake_generation l + 1).

Definition retry_at (rid : string) (t : option Z) (l : local) : local :=
  Local (active_turns l) (match t with Some t => <[rid := t]> (retry_after l) | None => delete rid (retry_after l) end)
    (accepting_claims l) (wake_generation l).

Definition _signal_wake : prog unit := Update (λ _, signal_wake) (Ret tt).

(** ** Recovery *)

(** The rest of the class: printing, parsing of timestamps, and the callbacks.  The canonical
    history is asked whether it has the turn's append ([None] when asking raises); the recovery
    of tool calls ends in one of the ways below. *)
Inductive tool_recovery :=
| Recovered
| OwnershipLost
| DeadlineElapsed
| PersistenceFailed (ambiguous : bool) (message : string)
| RecoveryBroken (message : string)
| Drained.

Context (repr_str : string → string) (repr_float : Z → Z → string) (parse_ts : string → option Z).
Context (reconcile : option (request → option bool)) (recover_tool_calls : option (request → Lease → tool_recovery)).

(** [str(d.get("phase") or default)] *)
Definition text_or (k : string) (default_ : string) (o : pydict) : string :=
  py_str repr_str repr_float (py_or (dict_get k o) (PStr default_)).

Definition APPEND_KEYS : list string := ["user_append_phase"; "user_append_session_id"; "session_id"].

(** The entries of [o] under some keys. *)
Definition only_keys (ks : list string) (o : pydict) : pydict :=
  omap (λ k, (λ v, (k, v)) <$> od_get k o) ks.

Definition without_keys (ks : list string) (o : pydict) : pydict := filter (λ x, x.1 ∉ ks) o.

Definition session_entry (o : pydict) : pydict :=
  match dict_get "session_id" o with PStr s => [("session_id", PStr s)] | _ => [] end.

Definition _quarantine_elapsed (o : pydict) (phase : string) (wall : Z) : bool :=
  match dict_get "phase_started_at" o with
  | PStr raw =>
      match parse_ts raw with
      | None => true
      | Some started =>
          (if bool_decide (phase ∈ ["intaris_append"; "canonical_user_append"]) then INTARIS_TAKEOVER_QUARANTINE_SECONDS else 0)
            <=? wall - started
      end
  | _ => true
  end.

Definition _reconcile_append_safely (row : request) : option bool :=
  match reconcile with None => Some false | Some f => f row end.

(** [kind in (outcome.get("event_types") or [])]; [None] raises. *)
Definition has_event (kind : string) (o : pydict) : option bool := py_in (PStr kind) (py_or (dict_get "event_types" o) (PList [])).

Definition ambiguous_because (reason : string) : pydict := [("phase", PStr "ambiguous"); ("reason", PStr reason)].

Definition with_call_ids (o : pydict) (reason : string) : pydict :=
  ambiguous_because reason ++ [("call_ids", py_or (dict_get "call_ids" o) (PList []))].

Definition status_text (s : DirectTurnStatus) : string :=
  match s with
  | QUEUED => "queued" | CLAIMED => "claimed" | RUNNING => "running" | ABSORBING => "absorbing" | RECOVERABLE => "recoverable"
  | COMPLETED => "completed" | FAILED => "failed" | CANCELLED => "cancelled" | ABSORBED => "absorbed" | AMBIGUOUS => "ambiguous"
  end.

(** The method a stale turn is settled or requeued by, once its user append is known. *)
Definition requeue_appended (row : request) (lease : Lease) (phase : string) (o : pydict) : nat → Z → Z → turn_op := λ i now at_,
  let rid := request_id row in
  match status row with
  | CLAIMED => TRecoverClaim i rid lease (Some o) now at_
  | RUNNING => TRecoverRunning i rid lease o now at_
  | s => TStaleAmbiguous i rid lease (ambiguous_because ("stale " +:+ phase +:+ " in " +:+ status_text s)) now at_
  end.

Definition appended_outcome (known : string) (o : pydict) : pydict :=
  dict_update [("phase", PStr known); ("user_append_phase", PStr known)] (session_entry o).

(** A turn that stopped in its user append; [reconciled] says whether the history has it. *)
Definition settle_user_append (row : request) (lease : Lease) (phase : string) (o : pydict) (reconciled : bool) :
    nat → Z → Z → turn_op := λ i now at_,
  let known := if reconciled then "user_appended" else "user_append_pending" in
  match status row with
  | ABSORBING => if reconciled then TReconcileAbsorbed i (request_id row) lease now at_
                 else TRecoverAbsorbing i (request_id row) lease now at_
  | _ => requeue_appended row lease phase (appended_outcome known o) i now at_
  end.

(** A turn that stopped between two calls of the model. *)
Definition requeue_at_boundary (row : request) (lease : Lease) (phase : string) (o : pydict) : nat → Z → Z → turn_op := λ i now at_,
  let rid := request_id row in
  match status row with
  | ABSORBING => TRecoverAbsorbing i rid lease now at_
  | RUNNING => TRecoverRunning i rid lease
      (dict_update [("phase", PStr "recovered_model_boundary"); ("source_phase", PStr phase)] (only_keys APPEND_KEYS o)) now at_
  | _ => TStaleAmbiguous i rid lease (ambiguous_because ("stale " +:+ phase)) now at_
  end.

(** A turn that stopped anywhere else; [append] is what the history says.  [None] raises. *)
Definition settle_other (row : request) (lease : Lease) (phase : string) (o : pydict) (append : option bool) :
    option (nat → Z → Z → turn_op) :=
  let rid := request_id row in
  let ambiguous out := Some (λ i now at_, TStaleAmbiguous i rid lease out now at_) in
  let completed := Some (λ i now at_, TReconcileCompleted i rid lease [("phase", PStr "reconciled_terminal_assistant")] now at_) in
  if bool_decide (status row = CLAIMED) then
    Some (λ i now at_, TRecoverClaim i rid lease
            (Some (dict_update [("phase", PStr "recovered_pre_model")] (only_keys APPEND_KEYS o))) now at_)
  else if bool_decide (phase = "intaris_append") then
    match has_event "tool_call" o, has_event "tool_result" o, has_event "assistant_message" o with
    | Some called, Some answered, Some final =>
        if called then ambiguous (with_call_ids o "tool call persistence crossed an uncertain dispatch boundary")
        else if answered then ambiguous (with_call_ids o "tool result append outcome is uncertain")
        else match append with
             | Some true =>
                 if bool_decide (status row = ABSORBING) then Some (λ i now at_, TReconcileAbsorbed i rid lease now at_)
                 else if final then completed
                 else Some (λ i now at_, TRecoverRunning i rid lease [("phase", PStr "user_appended")] now at_)
             | None => ambiguous (ambiguous_because "event append could not be reconciled")
             | Some false => Some (requeue_at_boundary row lease phase o)
             end
    | _, _, _ => None
    end
  else if bool_decide (phase = "model_response") then
    match append with
    | Some true => completed
    | _ => ambiguous (ambiguous_because "model response completion could not be reconciled")
    end
  else
    Some (requeue_at_boundary row lease phase o).

(** The end of a recovery: the lease is given back, the row read and announced. *)
Definition announce (rid : string) (lease : Lease) : prog unit :=
  seq release_lease lease; seq store_get rid; Ret tt.

(** The result of a row: [false] when an exception ends the pass. *)
Definition settle_stale (row : request) (lease : Lease) (o : pydict) (phase : string) : prog bool :=
  Look (λ wall _ _,
    if negb (_quarantine_elapsed o phase wall) then seq release_lease lease; Ret true else
    let finish (op : nat → Z → Z → turn_op) :=
      seq read_then_update (request_id row) op; seq announce (request_id row) lease; seq _signal_wake; Ret true in
    if bool_decide (phase = "user_appended") then
      finish (requeue_appended row lease phase (appended_outcome "user_appended" o))
    else if bool_decide (phase ∈ ["canonical_user_append"; "user_append_uncertain"]) then
      match _reconcile_append_safely row with
      | None =>
          seq read_then_update (request_id row)
                (λ i now at_, TStaleAmbiguous i (request_id row) lease
                                (ambiguous_because "canonical user append could not be reconciled") now at_);
          seq announce (request_id row) lease; Ret true
      | Some reconciled => finish (settle_user_append row lease phase o reconciled)
      end
    else
      let append := if bool_decide (phase ∈ ["intaris_append"; "model_response"]) then _reconcile_append_safely row else None in
      match settle_other row lease phase o append with
      | Some op => finish op
      | None => Ret false
      end).

(** What the attempt to recover tool calls comes to. *)
Inductive tool_attempt :=
| AttemptDone
| AttemptCancelled
| AttemptStale
| AttemptFailed (status : DirectTurnStatus) (o : pydict)
| AttemptDrained.

Definition persistence_failure (ambiguous : bool) (message : string) : tool_attempt :=
  let error := untx (take 1000 (tx message)) in
  AttemptFailed (if ambiguous then AMBIGUOUS else FAILED)
    [("phase", PStr (if ambiguous then "ambiguous" else "failed"));
     ("code", PStr (if ambiguous then "tool_outcome_ambiguous" else "tool_recovery_persistence_failed"));
     ("reason", PStr error); ("error", PStr error)].

Definition broken_recovery (message : string) : tool_attempt :=
  AttemptFailed FAILED
    [("phase", PStr "failed"); ("code", PStr "tool_recovery_persistence_failed"); ("error", PStr (untx (take 1000 (tx message))))].

Definition SETTLED_KEYS : list string := ["phase"; "phase_started_at"; "deferred_phase"; "tool_dispatch_groups"; "tool_calls"].

(** Every batch is settled in the canonical history: the turn may leave the phase. *)
Definition finish_recovered (row recovery_row : request) (lease : Lease) : prog tool_attempt :=
  let rid := request_id row in
  do checkpointed <- Call (λ now at_, TCheckpoint rid lease "tool_recovery_result_persisted"
                             (without_keys SETTLED_KEYS (opt_dict (outcome recovery_row))) true now at_) Ret;
  if failed checkpointed then Ret (broken_recovery "") else
  match row_of checkpointed with
  | None => Ret AttemptStale
  | Some c =>
      do recovered <- Call (λ now at_, TFinishRecovery rid lease
          (dict_update (opt_dict (outcome c))
             [("phase", PStr "user_appended"); ("user_append_phase", PStr "user_appended");
              ("interruption_reason", PStr "tool execution was interrupted after restart");
              ("tool_recovery_result_persisted", PBool true)]) now at_) Ret;
      Ret (match row_of recovered with
           | None => AttemptStale
           | Some r => if bool_decide (status r = CANCELLED) then AttemptCancelled else AttemptDone
           end)
  end.

Definition attempt_tool_recovery (row recovery_row : request) (lease : Lease) : prog tool_attempt :=
  match recover_tool_calls with
  | None => Ret (persistence_failure true "Tool recovery handler is unavailable.")
  | Some recover =>
      match parse_ts (py_str repr_str repr_float (dict_get "recovery_deadline_at" (opt_dict (outcome recovery_row)))) with
      | None => Ret (persistence_failure true "The durable tool recovery deadline is malformed.")
      | Some _ =>
          match recover recovery_row lease with
          | Recovered => finish_recovered row recovery_row lease
          | OwnershipLost => Ret AttemptStale
          | DeadlineElapsed => Ret (persistence_failure true "The durable tool recovery deadline elapsed.")
          | PersistenceFailed ambiguous message => Ret (persistence_failure ambiguous message)
          | RecoveryBroken message => Ret (broken_recovery message)
          | Drained => Ret AttemptDrained
          end
      end
  end.

Definition recover_in_flight (row : request) (lease : Lease) : prog bool :=
  let rid := request_id row in
  do begun <- Call (λ now at_, TBeginRecovery rid lease controller incarnation TOOL_RECOVERY_DEADLINE_SECONDS now at_) Ret;
  if failed begun then Ret false else
  match row_of begun with
  | None => seq release_lease lease; Ret true
  | Some recovery_row =>
      do attempt <- attempt_tool_recovery row recovery_row lease;
      match attempt with
      | AttemptDone => seq announce rid lease; seq _signal_wake; Ret true
      | AttemptCancelled | AttemptStale => seq release_lease lease; Ret true
      | AttemptDrained => Ret false
      | AttemptFailed s o =>
          do terminal <- read_then_update rid (λ i now at_, TRecoveryTerminal i rid lease s o now at_);
          match row_of terminal with
          | None => seq release_lease lease; Ret true
          | Some _ => seq announce rid lease; seq _signal_wake; Ret true
          end
      end
  end.

(** One row of [_recover_stale]. *)
Definition recover_row (row : request) : prog bool :=
  Look (λ _ _ l,
    if bool_decide (conversation_id row ∈ active_turns l) then Ret true else
    do acquired <- acquire_turn (conversation_id row);
    match acquired with
    | None => Ret true
    | Some lease =>
        let o := opt_dict (outcome row) in
        let phase := text_or "phase" "claimed" o in
        if negb (not_cancelled row) then
          seq read_then_update (request_id row) (λ i now at_, TCancelStale i (request_id row) lease now at_);
          seq release_lease lease; seq _signal_wake; Ret true
        else if bool_decide (phase = TOOL_IN_FLIGHT_PHASE) then recover_in_flight row lease
        else settle_stale row lease o phase
    end).

Definition _recover_stale : prog bool := Query (λ now w, each recover_row (list_stale_active w now 100)).

(** ** Failures that the user still has to see *)

Context (on_permanent on_fenced : option (request → bool)).

(** A callback that raises leaves the row as it is; a fenced one ends the task. *)
Definition _publish_failure_visibility (row : request) (lease : option Lease) : prog unit :=
  let complete := seq read_then_update (request_id row) (λ i now _, TVisibility i (request_id row) now); Ret tt in
  match on_fenced, lease, on_permanent with
  | Some f, Some _, _ => if f row then complete else Ret tt
  | _, _, Some f => if f row then complete else Ret tt
  | _, _, None => Ret tt
  end.

Definition _recover_failure_visibility : prog bool :=
  match on_permanent with
  | None => Ret true
  | Some _ =>
      Query (λ _ w, each (λ candidate,
        do found <- store_get (request_id candidate);
        match found with
        | Some row => if visibility_pending row then seq _publish_failure_visibility row None; Ret true else Ret true
        | None => Ret true
        end) (list_pending_failure_visibility w 100))
  end.

(** ** Claiming *)

(** Whether the process can take the turn now; it may look at the tables. *)
Context (can_claim_turn : option (request → world → option bool)).

Definition set_active (c : string) (l : local) : local :=
  Local ({[c]} ∪ active_turns l) (retry_after l) (accepting_claims l) (wake_generation l).

Definition throttled (row : request) (mono : Z) (l : local) : bool :=
  match retry_after l !! request_id row with Some t => mono <? t | None => false end.

Definition claim_head_row (row : request) : prog bool :=
  Look (λ _ _ l,
    if negb (accepting_claims l) || bool_decide (conversation_id row ∈ active_turns l) then Ret true else
    do acquired <- acquire_turn (conversation_id row);
    match acquired with
    | None => Ret true
    | Some lease =>
        do answer <- read_then_update (request_id row) (λ i now at_, TClaim i (request_id row) lease controller incarnation None now at_);
        if failed answer then Ret false else
        match row_of answer with
        | None => seq release_lease lease; Ret true
        | Some claimed => Spawn (claimed, lease) (Update (λ _, set_active (conversation_id claimed)) (Ret true))
        end
    end).

Definition consider_head (row : request) : prog bool :=
  Look (λ _ mono l,
    if throttled row mono l || bool_decide (conversation_id row ∈ active_turns l) then Ret true else
    match can_claim_turn with
    | None => claim_head_row row
    | Some f => Query (λ _ w, match f row w with
                              | None => Ret false
                              | Some eligible => if eligible then claim_head_row row else Ret true
                              end)
    end).

(** Only heads that wait are throttled. *)
Definition prune_retries (ids : list string) (l : local) : local :=
  Local (active_turns l) (filter (λ x, x.1 ∈ ids) (retry_after l)) (accepting_claims l) (wake_generation l).

(** A pass; the lock of the runtime keeps passes apart. *)
Definition run_once : prog bool :=
  Look (λ _ _ l,
    if negb (accepting_claims l) then Ret true else
    do ok <- _recover_failure_visibility;
    if negb ok then Ret false else
    do ok <- _recover_stale;
    if negb ok then Ret false else
    Query (λ now w,
      let heads := list_claimable_heads w now 100 in
      Update (λ _, prune_retries (request_id <$> heads)) (each consider_head heads))).

(** ** The fence of an execution *)

(** [DirectTurnExecutionFence] with what it keeps of the user's append. *)
Record fence_state := Fence_ {
  fence_request : string;
  fence_lease : Lease;
  user_append_phase : option string;
  user_append_session_id : option string;
  last_phase : string;
  last_metadata : option pydict;
}.

Inductive fence_answer := FenceOk | StaleDirectTurnOwner | FenceCancelled | UnboundToolDispatch | InvalidDispatchState | FenceBroken.

Definition opt_entry (k : string) (v : option string) : pydict := match v with Some s => [(k, PStr s)] | None => [] end.

(** [metadata.setdefault] *)
Definition set_default (k : string) (v : option string) (d : pydict) : pydict :=
  match v with
  | Some s => match od_get k d with Some _ => d | None => d ++ [(k, PStr s)] end
  | None => d
  end.

Definition judge (r : reply) : fence_answer :=
  if failed r then FenceBroken else
  match row_of r with
  | None => StaleDirectTurnOwner
  | Some row => if not_cancelled row then FenceOk else FenceCancelled
  end.

Definition set_last (phase : string) (md : option pydict) (f : fence_state) : fence_state :=
  Fence_ (fence_request f) (fence_lease f) (user_append_phase f) (user_append_session_id f) phase md.

Definition set_user_append_state (phase : string) (session : option string) (f : fence_state) : fence_state :=
  Fence_ (fence_request f) (fence_lease f) (Some phase) session (last_phase f) (last_metadata f).

Definition assert_current (f : fence_state) : prog fence_answer :=
  Query (λ now w, Ret (if has_fence w (fence_request f) (fence_lease f) now then FenceOk else StaleDirectTurnOwner)).

Definition fence_checkpoint (phase : string) (metadata : pydict) (f : fence_state) : prog (fence_answer * fence_state) :=
  let md := set_default "user_append_session_id" (user_append_session_id f)
              (set_default "user_append_phase" (user_append_phase f) metadata) in
  Call (λ now at_, TCheckpoint (fence_request f) (fence_lease f) phase md false now at_)
    (λ r, Ret (judge r, set_last phase (Some metadata) f)).

Definition _tool_dispatch_metadata (f : fence_state) : pydict :=
  opt_entry "user_append_phase" (user_append_phase f) ++ opt_entry "user_append_session_id" (user_append_session_id f).

Definition fence_record (session : string) (turn : option string) (ds : list pydict) (f : fence_state) :
    prog (fence_answer * fence_state) :=
  let md := dict_update (_tool_dispatch_metadata f) [("session_id", PStr session); ("turn_id", opt_str turn)] in
  Call (λ now at_, TRecord (fence_request f) (fence_lease f) session turn ds md now at_)
    (λ r, Ret (judge r, set_last TOOL_IN_FLIGHT_PHASE (Some md) f)).

Definition fence_complete (session : string) (turn : option string) (ids : list string) (f : fence_state) :
    prog (fence_answer * fence_state) :=
  let md := _tool_dispatch_metadata f in
  Call (λ now at_, TComplete (fence_request f) (fence_lease f) session turn ids md now at_)
    (λ r, Ret (judge r,
               match row_of r with
               | Some row => set_last (text_or "phase" TOOL_RESULT_PERSISTED_PHASE (opt_dict (outcome row)))
                               (Some (od_set "call_ids" (PList (PStr <$> ids)) md)) f
               | None => f
               end)).

(** Before the send, a call without a descriptor must not run; after it, it already did. *)
Definition fence_bind (session : string) (turn : option string) (call executor : string) (instance : option string) (state : string)
    (f : fence_state) : prog fence_answer :=
  if negb (bool_decide (state ∈ ["dispatching"; "sent"])) then Ret InvalidDispatchState else
  Call (λ now at_, TMerge (fence_request f) (fence_lease f) session turn call executor instance state now at_)
    (λ r, Ret (match r with
               | RMerged s _ =>
                   if fence_held s
                   then match s with
                        | UNKNOWN_CALL => if bool_decide (state = "dispatching") then UnboundToolDispatch else FenceOk
                        | _ => FenceOk
                        end
                   else StaleDirectTurnOwner
               | _ => FenceBroken
               end)).

(** [BackgroundDirectTurnFence]: a child goes on after its parent completed, not after it lost
    the turn. *)
Definition background_assert_current (f : fence_state) : prog fence_answer :=
  do current <- assert_current f;
  match current with
  | FenceOk => Ret FenceOk
  | _ =>
      do found <- store_get (fence_request f);
      Ret (match found with
           | Some row => if bool_decide (status row = COMPLETED) && not_cancelled row && owns row (fence_lease f)
                         then FenceOk else FenceCancelled
           | None => FenceCancelled
           end)
  end.

(** ** Executing a claimed turn *)

(** How the payload or the agent loop ends the coroutine. *)
Inductive execution :=
| Returned
| OwnerStale
| LocalDirectTurnBusy (reason : string)
| PermanentPayloadError (message : string)
| CancelledError (ownership_lost : bool)
| ControllerFailed.

Context (materialize : request → option execution) (execute_claimed_turn : request → execution).

Definition APPEND_PHASES : list string := ["user_append_pending"; "user_append_uncertain"; "user_appended"].

(** The fence starts from what an earlier attempt left. *)
Definition prior_append (prior : pydict) : option string :=
  match dict_get "user_append_phase" prior with
  | PStr s => Some s
  | _ => let phase := text_or "phase" "claimed" prior in
         if bool_decide (phase ∈ APPEND_PHASES) then Some phase else None
  end.

Definition prior_session (prior : pydict) : option string :=
  match dict_get "user_append_session_id" prior with
  | PStr s => Some s
  | _ => match dict_get "session_id" prior with PStr s => Some s | _ => None end
  end.

Definition run_claimed (row : request) (lease : Lease) : prog execution :=
  match materialize row with
  | Some e => Ret e
  | None =>
      let prior := opt_dict (outcome row) in
      let fence := Fence_ (request_id row) lease None None "claimed" None in
      let fence := match prior_append prior with
                   | Some p => set_user_append_state p (prior_session prior) fence
                   | None => fence
                   end in
      do answered <- match prior_append prior with
                     | Some _ => fence_checkpoint (text_or "phase" "claimed" prior) (without_keys ["phase"; "phase_started_at"] prior) fence
                     | None => fence_checkpoint "claimed" [] fence
                     end;
      Ret (match answered.1 with
           | FenceOk => execute_claimed_turn row
           | StaleDirectTurnOwner => OwnerStale
           | FenceCancelled => CancelledError false
           | _ => ControllerFailed
           end)
  end.

(** What an earlier append established survives a failure of the controller. *)
Definition kept_append (o : pydict) : pydict :=
  let phase := text_or "phase" "controller_error" o in
  if is_str (dict_get "user_append_phase" o) || bool_decide (phase ∈ APPEND_PHASES) then o else [].

Definition fail_turn (row : request) (lease : Lease) (o : pydict) : prog unit :=
  do failed_row <- read_then_update (request_id row) (λ i now at_, TTerminal i (request_id row) lease FAILED (Some o) now at_);
  match row_of failed_row with
  | Some r => _publish_failure_visibility r (Some lease)
  | None => Ret tt
  end.

Definition requeue_turn (row : request) (lease : Lease) (o : pydict) : prog unit :=
  seq read_then_update (request_id row) (λ i now at_, TRecoverable i (request_id row) lease (Some o) now at_);
  Update (λ mono, retry_at (request_id row) (Some (mono + DIRECT_TURN_ACTIVE_POLL_SECONDS))) (Ret tt).

(** The handlers; [true] when a retry has been scheduled. *)
Definition settle_execution (row : request) (lease : Lease) (e : execution) : prog bool :=
  let rid := request_id row in
  match e with
  | Returned | OwnerStale => Ret false
  | LocalDirectTurnBusy reason =>
      do current <- store_get rid;
      let o := opt_dict (r ← current; outcome r) in
      seq requeue_turn row lease (dict_update o [("phase", PStr "local_turn_busy"); ("local_busy_reason", PStr reason)]);
      Ret true
  | PermanentPayloadError message =>
      seq fail_turn row lease [("phase", PStr "permanent_payload_visibility_pending"); ("error", PStr (untx (take 1000 (tx message))))];
      Ret false
  | CancelledError ownership_lost =>
      if ownership_lost then Ret false else
      seq read_then_update rid (λ i now at_, TTerminal i rid lease CANCELLED
                                  (Some [("phase", PStr "cancelled_during_controller_drain")]) now at_);
      Ret false
  | ControllerFailed =>
      do current <- store_get rid;
      let o := opt_dict (r ← current; outcome r) in
      if match current with Some r => DIRECT_TURN_CONTROLLER_MAX_ATTEMPTS <=? attempt_count r | None => false end then
        seq fail_turn row lease
              (dict_update (kept_append o)
                 [("phase", PStr "permanent_payload_visibility_pending"); ("failure_kind", PStr "controller");
                  ("error", PStr "Direct turn controller execution failed.")]);
        Ret false
      else
        seq requeue_turn row lease (dict_update (kept_append o) [("phase", PStr "controller_error")]);
        Ret true
  end.

(** Microseconds of a number of seconds that is positive. *)
Definition retry_delay (o : pydict) : Z :=
  match number (dict_get "retry_after_seconds" o) with
  | Some (m, e) => let d := if 0 <=? e then m * 2 ^ e * SECOND else m * SECOND / 2 ^ (- e) in
                   if 0 <? m then d else DIRECT_TURN_ACTIVE_POLL_SECONDS
  | None => DIRECT_TURN_ACTIVE_POLL_SECONDS
  end.

(** The [finally] clause: the lease is given back. *)
Definition leave_execution (row : request) (lease : Lease) (scheduled : bool) : prog unit :=
  let rid := request_id row in
  seq release_lease lease;
  do updated <- store_get rid;
  match updated with
  | None => if scheduled then Ret tt else _signal_wake
  | Some u =>
      let again := bool_decide (status u = RECOVERABLE) && negb scheduled in
      let delay := retry_delay (opt_dict (outcome u)) in
      Update (λ mono l,
        let l := if again then retry_at rid (Some (mono + delay)) l else l in
        let l := if status_in (status u) [COMPLETED; FAILED; CANCELLED; AMBIGUOUS] then retry_at rid None l else l in
        if scheduled || again then l else signal_wake l) (Ret tt)
  end.

Definition _execute (row : request) (lease : Lease) : prog unit :=
  do e <- run_claimed row lease;
  do scheduled <- settle_execution row lease e;
  leave_execution row lease scheduled.

(** One round of the tasks beside it: the lease is renewed or the ownership lost, a
    cancellation that no signal brought is found. *)
Definition _renew (lease : Lease) : prog (option Lease) :=
  Call (λ now _, TLease now (OpRenew lease DIRECT_TURN_LEASE_SECONDS)) (λ r, Ret (match r with RLease l => l | _ => None end)).

Definition _watch_cancellation (rid : string) : prog bool :=
  Query (λ _ w, Ret (match get_cancel_state w rid with Some (_, Some _) => true | _ => false end)).
End Runtime.
