(* ===== verification/TurnRuntimeSpec.v ===== *)
(** What the controller's side of direct turns guarantees: whatever other tasks and controllers
    do between its calls, every lease it takes is given back or handed to an execution, and
    stale work is repeated only when nothing of it can have taken effect; left alone, a pass
    moves every stale turn but those it cannot decide. *)

From S2P Require Import Prelude PyVal Lease Coroutine ToolDispatch DirectTurns DirectTurnsSpec TurnRuntime.

(** ** The leases of a program *)

(** The leases that were granted and neither given back nor handed on. *)
Definition without_lease (l : Lease) (held : list Lease) : list Lease := filter (λ x, x ≠ l) held.

#[global] Arguments without_lease : simpl never.

Definition after_call (reply_of : world → turn_op → reply) (w : world) (o : turn_op) (held : list Lease) : list Lease :=
  match o with
  | TLease _ (OpAcquire _ _ _) => match reply_of w o with RLease (Some l) => l :: held | _ => held end
  | TLease _ (OpRelease l) => without_lease l held
  | _ => held
  end.

Definition handed_on (j : request * Lease) (held : list Lease) : list Lease := without_lease j.2 held.

#[global] Arguments handed_on _ _ /.

(** A method that is not one of the lease store. *)
Definition of_store (o : turn_op) : Prop := match o with TLease _ _ => False | _ => True end.

Section Passes.
Context (canonical_hash : pydict → string) (isoformat : Z → string) (fromisoformat : string → option Z).
Context (model_validate : pydict → option pydict).
Context (evidence_origin : pyval → option pyval) (evidence_admission : pyval → option (pyval * bool)).
Context (controller incarnation : string).
Context (repr_str : string → string) (repr_float : Z → Z → string) (parse_ts : string → option Z).
Context (reconcile : option (request → option bool)) (recover_tool_calls : option (request → Lease → tool_recovery)).
Context (on_permanent on_fenced : option (request → bool)).
Context (can_claim_turn : option (request → world → option bool)).
Context (materialize : request → option execution) (execute_claimed_turn : request → execution).

Notation exec := (turn_exec canonical_hash isoformat fromisoformat model_validate evidence_origin evidence_admission).
Notation reply_of := (reply_of isoformat).
Notation accounts := (accounts reply_of (after_call reply_of) handed_on).
Notation outstanding := (outstanding (after_call reply_of) handed_on).
Notation store_only := (neutral of_store).
Notation recover_row := (recover_row controller incarnation repr_str repr_float parse_ts reconcile recover_tool_calls).
Notation settle_stale := (settle_stale parse_ts reconcile).
Notation run_once := (run_once controller incarnation repr_str repr_float parse_ts reconcile recover_tool_calls on_permanent on_fenced
                        can_claim_turn).
Notation _execute := (_execute repr_str repr_float on_permanent on_fenced materialize execute_claimed_turn).

(** *** The leases of a pass *)

Lemma after_store w o held : of_store o → after_call reply_of w o held = held.
Proof. by destruct o. Qed.

Lemma without_lease_self l held : without_lease l held = held → without_lease l (l :: held) = held.
Proof. intros Hl. unfold without_lease in *. rewrite filter_cons_False by (intros Hn; by apply Hn). done. Qed.

Lemma acc_call {A} o (k : reply → prog A) held Q :
  (∀ now at_, of_store (o now at_)) → (∀ r, accounts (k r) held Q) → accounts (Call o k) held Q.
Proof. intros Ho Hk. cbn. intros now at_ w. rewrite after_store by done. apply Hk. Qed.

Lemma acc_look {A} (k : Z → Z → local → prog A) held Q :
  (∀ wall mono l, accounts (k wall mono l) held Q) → accounts (Look k) held Q.
Proof. done. Qed.

Lemma acc_query {A} (k : Z → world → prog A) held Q :
  (∀ now w, accounts (k now w) held Q) → accounts (Query k) held Q.
Proof. done. Qed.

Lemma acc_read rid o held (Q : reply → list Lease → Prop) :
  (∀ i now at_, of_store (o i now at_)) → (∀ r, Q r held) → accounts (read_then_update rid o) held Q.
Proof.
  intros Ho HQ. apply acc_call; [done|]. intros r. destruct r; cbn; intros; rewrite ?after_store by done; apply HQ.
Qed.

Lemma acc_get rid held (Q : option request → list Lease → Prop) : (∀ r, Q r held) → accounts (store_get rid) held Q.
Proof. intros HQ. apply acc_call; [done|]. intros r. apply HQ. Qed.

Lemma acc_release l held (Q : unit → list Lease → Prop) : Q tt (without_lease l held) → accounts (release_lease l) held Q.
Proof. intros HQ. by cbn. Qed.

Lemma acc_acquire c held (Q : option Lease → list Lease → Prop) :
  Q None held → (∀ l, Q (Some l) (l :: held)) → accounts (acquire_turn controller incarnation c) held Q.
Proof.
  intros HN HS. cbn. intros now at_ w. destruct (acquire_in_session _ _ _ _ _).2 as [l|]; cbn; auto.
Qed.

Lemma acc_announce rid l (Q : unit → list Lease → Prop) : Q tt [] → accounts (announce rid l) [l] Q.
Proof.
  intros HQ. unfold announce. apply accounts_bind, acc_release, accounts_bind, acc_get. intros _.
  by rewrite without_lease_self.
Qed.

Lemma acc_store {A} (p : prog A) held (Q : A → list Lease → Prop) :
  store_only p → (∀ a, Q a held) → accounts p held Q.
Proof. apply accounts_neutral. intros o Ho w h. by apply after_store. Qed.

Lemma store_read rid o : (∀ i now at_, of_store (o i now at_)) → store_only (read_then_update rid o).
Proof. intros Ho. split; [done|]. by intros []. Qed.

Lemma store_publish perm fen row lease : store_only (_publish_failure_visibility perm fen row lease).
Proof.
  unfold _publish_failure_visibility. repeat case_match; try done; apply neutral_bind; try done; by apply store_read.
Qed.

Lemma store_visibility : store_only (_recover_failure_visibility on_permanent on_fenced).
Proof.
  unfold _recover_failure_visibility. destruct on_permanent; [|done]. intros now w. apply neutral_each. intros c.
  apply neutral_bind; [done|]. intros [r|]; [|done]. case_match; [|done]. apply neutral_bind; [|done]. apply store_publish.
Qed.

Lemma store_attempt row r lease : store_only (attempt_tool_recovery repr_str repr_float parse_ts recover_tool_calls row r lease).
Proof.
  unfold attempt_tool_recovery, finish_recovered. repeat case_match; try done. split; [done|]. intros []; cbn; try done;
    repeat case_match; done.
Qed.

Notation keeps_none := (λ (ok : bool) (held : list Lease), ok = true → held = []).

(** Every way of ending one row gives its lease back, unless an exception ends the pass. *)
Ltac give_back :=
  repeat first [apply accounts_bind | apply acc_release | apply acc_get; intros | apply acc_announce
               | apply acc_read; [done|intros] | progress cbn [pbind _signal_wake]];
  cbn; intros; rewrite ?(without_lease_self _ []) by done; try done.

Lemma acc_in_flight row l :
  accounts (recover_in_flight controller incarnation repr_str repr_float parse_ts recover_tool_calls row l) [l] keeps_none.
Proof.
  unfold recover_in_flight. apply acc_call; [done|]. intros r. cbn [pbind]. case_match; [done|].
  destruct (row_of r) as [r'|]; [|give_back].
  apply accounts_bind, acc_store; [apply store_attempt|]. intros []; try done; [give_back..|].
  apply accounts_bind, acc_read; [done|]. intros r0. destruct (row_of r0); give_back.
Qed.

Lemma acc_settle row l o phase : accounts (settle_stale row l o phase) [l] keeps_none.
Proof.
  unfold settle_stale. apply acc_look. intros wall mono loc. case_match; [give_back|].
  assert (∀ op, (∀ i now at_, of_store (op i now at_)) →
    accounts (pbind (read_then_update (request_id row) op)
                (λ _, pbind (announce (request_id row) l) (λ _, pbind _signal_wake (λ _, Ret true)))) [l] keeps_none) as Hfin
    by (intros op Hop; apply accounts_bind, acc_read; [done|]; intros _; give_back).
  case_match; [apply Hfin; intros; unfold requeue_appended; by case_match|].
  case_match.
  { destruct (_reconcile_append_safely reconcile row); [|give_back].
    apply Hfin. intros. unfold settle_user_append, requeue_appended. by repeat case_match. }
  destruct (settle_other _ _ _ _ _) as [op|] eqn:Hop; [|done]. apply Hfin. intros i now at_. revert Hop.
  unfold settle_other, requeue_at_boundary. repeat case_match; try done; intros [= <-]; done.
Qed.

Lemma acc_recover_row row : accounts (recover_row row) [] keeps_none.
Proof.
  apply acc_look. intros wall mono loc. case_match; [done|]. apply accounts_bind, acc_acquire; [done|]. intros l.
  case_match; [give_back|]. cbn zeta. case_match; [apply acc_in_flight|apply acc_settle].
Qed.

Lemma acc_claim_head row : accounts (claim_head_row controller incarnation row) [] keeps_none.
Proof.
  apply acc_look. intros wall mono loc. case_match; [done|]. apply accounts_bind, acc_acquire; [done|]. intros l.
  apply accounts_bind, acc_read; [done|]. intros r. case_match; [done|]. destruct (row_of r); [|give_back].
  cbn. intros _. by rewrite without_lease_self.
Qed.

Lemma acc_run_once : accounts run_once [] keeps_none.
Proof.
  apply acc_look. intros wall mono loc. case_match; [done|]. apply accounts_bind, acc_store; [apply store_visibility|].
  intros [|]; [|done]. cbn [negb]. apply accounts_bind. eapply accounts_weaken.
  { apply acc_query. intros now w. apply accounts_each, acc_recover_row. }
  intros [|] held Hh; [|done]. rewrite Hh by done. cbn [negb]. apply acc_query. intros now w. cbn. apply accounts_each. intros row.
  apply acc_look. intros wall' mono' loc'. case_match; [done|]. destruct can_claim_turn as [f|]; [|apply acc_claim_head].
  apply acc_query. intros now' w'. destruct (f row w') as [[|]|]; [apply acc_claim_head|done|done].
Qed.

Lemma store_fail row l o : store_only (fail_turn on_permanent on_fenced row l o).
Proof.
  unfold fail_turn. apply neutral_bind; [by apply store_read|]. intros r. destruct (row_of r); [apply store_publish|done].
Qed.

Lemma store_requeue row l o : store_only (requeue_turn row l o).
Proof. apply neutral_bind; [by apply store_read|done]. Qed.

Lemma store_settle row l e : store_only (settle_execution repr_str repr_float on_permanent on_fenced row l e).
Proof.
  destruct e; try done; unfold settle_execution.
  - apply neutral_bind; [done|]. intros c. apply neutral_bind; [apply store_requeue|done].
  - apply neutral_bind; [apply store_fail|done].
  - case_match; [done|]. apply neutral_bind; [by apply store_read|done].
  - apply neutral_bind; [done|]. intros c. cbn zeta.
    case_match; (apply neutral_bind; [apply store_fail || apply store_requeue|done]).
Qed.

Lemma acc_execute row l : accounts (_execute row l) [l] (λ _ held, held = []).
Proof.
  unfold _execute. apply accounts_bind, acc_store.
  { unfold run_claimed, fence_checkpoint. case_match; [done|]. case_match; by split. }
  intros e. apply accounts_bind, acc_store; [apply store_settle|].
  intros sch. unfold leave_execution. apply accounts_bind, acc_release, accounts_bind, acc_get. intros [u|].
  - cbn. by apply without_lease_self.
  - case_match; cbn; by apply without_lease_self.
Qed.

(** C6. No lease leaks: whatever other tasks and controllers do between its calls, a pass that
    ends without an exception has given back every lease it took, or handed it to the execution
    of the turn it claimed; and an execution gives its lease back however it ends. *)
Theorem leases_are_given_back sched m m' evs row lease m2 evs2 :
  (played canonical_hash isoformat fromisoformat model_validate evidence_origin evidence_admission run_once sched m
     = (Some true, m', evs) → outstanding evs [] = []) ∧
  (played canonical_hash isoformat fromisoformat model_validate evidence_origin evidence_admission (_execute row lease) sched m
     = (Some tt, m2, evs2) → outstanding evs2 [lease] = []).
Proof.
  split; intros Hplay.
  - by apply (accounts_sound exec reply_of (after_call reply_of) handed_on run_once [] keeps_none sched m true m' evs acc_run_once Hplay).
  - exact (accounts_sound exec reply_of (after_call reply_of) handed_on (_execute row lease) [lease] _ sched m tt m2 evs2 (acc_execute row lease) Hplay).
Qed.

(** *** What a recovery may do *)

Definition row_outcome (row : request) : pydict := opt_dict (outcome row).
Definition row_phase (row : request) : string := text_or repr_str repr_float "phase" "claimed" (row_outcome row).

(** The canonical history has the turn's append. *)
Definition in_history (row : request) : Prop := ∃ f, reconcile = Some f ∧ f row = Some true.

(** Nothing of a running turn can be repeated that took effect: no tool call may be in flight,
    no answer of the model half-written; an append of events had no tool call nor tool result,
    and the history was asked. *)
Definition repeatable (row : request) : Prop :=
  row_phase row ≠ TOOL_IN_FLIGHT_PHASE ∧ row_phase row ≠ "model_response" ∧
  (row_phase row = "intaris_append" →
     has_event "tool_call" (row_outcome row) = Some false ∧ has_event "tool_result" (row_outcome row) = Some false ∧
     _reconcile_append_safely reconcile row ≠ None ∧
     (in_history row → has_event "assistant_message" (row_outcome row) = Some false)).

Definition justified (row : request) (o : turn_op) : Prop :=
  match o with
  | TLease _ (OpAcquire key owner _) => key = conversation_lease_key (conversation_id row) ∧ owner = self_owner controller incarnation
  | TLease _ (OpRelease _) => True
  | TRead rid => rid = request_id row
  | TCancelStale _ rid _ _ _ => rid = request_id row ∧ not_cancelled row = false
  | TRecoverClaim _ rid _ _ _ _ => rid = request_id row ∧ status row = CLAIMED ∧ row_phase row ≠ TOOL_IN_FLIGHT_PHASE
  | TRecoverRunning _ rid _ _ _ _ => rid = request_id row ∧ status row = RUNNING ∧ repeatable row
  | TRecoverAbsorbing _ rid _ _ _ => rid = request_id row ∧ status row = ABSORBING ∧ repeatable row ∧
      (row_phase row ∈ ["canonical_user_append"; "user_append_uncertain"; "intaris_append"] → ¬ in_history row)
  | TReconcileAbsorbed _ rid _ _ _ => rid = request_id row ∧ status row = ABSORBING ∧ in_history row
  | TReconcileCompleted _ rid _ _ _ _ =>
      rid = request_id row ∧ in_history row ∧
      (row_phase row = "model_response" ∨
       row_phase row = "intaris_append" ∧ has_event "assistant_message" (row_outcome row) = Some true)
  | TStaleAmbiguous _ rid _ o _ _ => rid = request_id row ∧ dict_get "phase" o = PStr "ambiguous"
  | TBeginRecovery rid _ _ _ _ _ _ | TRecoveryTerminal _ rid _ _ _ _ _ =>
      rid = request_id row ∧ row_phase row = TOOL_IN_FLIGHT_PHASE
  | TCheckpoint rid _ _ _ _ _ _ | TFinishRecovery rid _ _ _ _ =>
      rid = request_id row ∧ row_phase row = TOOL_IN_FLIGHT_PHASE ∧
      ∃ f r l, recover_tool_calls = Some f ∧ f r l = Recovered
  | _ => False
  end.

Notation justified_calls row := (calls_only (justified row)).

Lemma just_read row o :
  (∀ i now at_, justified row (o i now at_)) → justified_calls row (read_then_update (request_id row) o).
Proof. intros Ho. split; [done|]. by intros []. Qed.

Lemma just_finish row lease o :
  (∀ i now at_, justified row (o i now at_)) →
  justified_calls row (pbind (read_then_update (request_id row) o)
    (λ _, pbind (announce (request_id row) lease) (λ _, pbind _signal_wake (λ _, Ret true)))).
Proof. intros Ho. by apply calls_only_bind; [apply just_read|]. Qed.

Lemma just_tools row lease :
  row_phase row = TOOL_IN_FLIGHT_PHASE →
  justified_calls row (recover_in_flight controller incarnation repr_str repr_float parse_ts recover_tool_calls row lease).
Proof.
  intros Hp. unfold recover_in_flight. split; [done|]. intros r. cbn [pbind]. case_match; [done|].
  destruct (row_of r) as [r'|]; [|done]. apply calls_only_bind.
  - unfold attempt_tool_recovery, finish_recovered. destruct recover_tool_calls as [f|] eqn:Hf; [|done].
    case_match; [|done]. destruct (f r' lease) eqn:Hr; try done.
    assert (∃ f0 r0 l0, recover_tool_calls = Some f0 ∧ f0 r0 l0 = Recovered) as Hj by eauto.
    split; [by intros|]. intros r0. cbn [pbind]. case_match; [done|]. destruct (row_of r0); [|done]. by split.
  - intros []; try done. apply calls_only_bind; [by apply just_read|]. intros r0. by destruct (row_of r0).
Qed.

Lemma in_history_safely row : in_history row ↔ _reconcile_append_safely reconcile row = Some true.
Proof.
  unfold in_history, _reconcile_append_safely. destruct reconcile as [f|]; split; try done.
  - by intros (f' & [= <-] & H).
  - intros H. by exists f.
  - by intros (f & ? & _).
Qed.

Lemma repeatable_plain row :
  row_phase row ≠ TOOL_IN_FLIGHT_PHASE → row_phase row ≠ "model_response" → row_phase row ≠ "intaris_append" → repeatable row.
Proof. intros H1 H2 H3. split_and!; [done|done|]. intros. by exfalso. Qed.

Lemma just_boundary row lease i now at_ :
  repeatable row → (row_phase row ∈ ["canonical_user_append"; "user_append_uncertain"; "intaris_append"] → ¬ in_history row) →
  justified row (requeue_at_boundary row lease (row_phase row) (row_outcome row) i now at_).
Proof. intros Hr Hh. unfold requeue_at_boundary. destruct (status row) eqn:Hs; cbn; auto. Qed.

Lemma just_other row lease op i now at_ :
  active row = true → row_phase row ≠ TOOL_IN_FLIGHT_PHASE → row_phase row ∉ ["canonical_user_append"; "user_append_uncertain"] →
  settle_other row lease (row_phase row) (row_outcome row)
    (if bool_decide (row_phase row ∈ ["intaris_append"; "model_response"]) then _reconcile_append_safely reconcile row else None)
    = Some op → justified row (op i now at_).
Proof.
  intros Hact Ht Hu. unfold settle_other. case_bool_decide as Hc; [intros [= <-]; by cbn|].
  case_bool_decide as Ha.
  { rewrite bool_decide_true by (rewrite Ha; by apply (bool_decide_unpack _)).
    destruct (has_event "tool_call" (row_outcome row)) as [[]|] eqn:H1, (has_event "tool_result" (row_outcome row)) as [[]|] eqn:H2,
      (has_event "assistant_message" (row_outcome row)) as [final|] eqn:H3; try done; try (intros [= <-]; by cbn).
    assert (_reconcile_append_safely reconcile row ≠ None → (in_history row → final = false) → repeatable row) as Hrep.
    { intros Hn Hf. split_and!; [done|by rewrite Ha|]. intros _. split_and!; [done..|]. intros Hi. by rewrite H3, Hf. }
    destruct (_reconcile_append_safely reconcile row) as [[]|] eqn:Hre.
    - apply in_history_safely in Hre as Hin. case_bool_decide; [intros [= <-]; by cbn|]. destruct final; intros [= <-]; cbn; [by auto|].
      split_and!; [done|unfold active in Hact; by destruct (status row)|]. by apply Hrep.
    - intros [= <-]. apply just_boundary.
      + apply Hrep; [done|]. intros Hi%in_history_safely. congruence.
      + intros _ Hi%in_history_safely. congruence.
    - intros [= <-]. by cbn. }
  case_bool_decide as Hm.
  { rewrite bool_decide_true by (rewrite Hm; by apply (bool_decide_unpack _)). destruct (_reconcile_append_safely reconcile row) as [[]|] eqn:Hre;
      intros [= <-]; cbn; [|done..]. split_and!; [done|by apply in_history_safely|by left]. }
  intros [= <-]. apply just_boundary; [by apply repeatable_plain|]. intros Hp _. exfalso.
  apply elem_of_cons in Hp as [Hp|[Hp|[Hp|[]%elem_of_nil]%elem_of_cons]%elem_of_cons]; [..|done]; apply Hu; rewrite Hp;
    by apply (bool_decide_unpack _).
Qed.

Lemma just_appended row lease o i now at_ :
  active row = true → repeatable row → justified row (requeue_appended row lease (row_phase row) o i now at_).
Proof.
  intros Ha Hr. unfold requeue_appended. destruct (status row) eqn:Hs; cbn; auto. split_and!; [done..|]. by destruct Hr.
Qed.

Lemma just_user_append row lease reconciled i now at_ :
  active row = true → repeatable row → _reconcile_append_safely reconcile row = Some reconciled →
  justified row (settle_user_append row lease (row_phase row) (row_outcome row) reconciled i now at_).
Proof.
  intros Ha Hr Hre. unfold settle_user_append. destruct (status row) eqn:Hs; try by apply just_appended.
  destruct reconciled; cbn; (split_and!; [done..|]).
  - by apply in_history_safely.
  - intros _ Hi%in_history_safely. congruence.
Qed.

Lemma just_settle row lease :
  active row = true → row_phase row ≠ TOOL_IN_FLIGHT_PHASE →
  justified_calls row (settle_stale row lease (row_outcome row) (row_phase row)).
Proof.
  intros Ha Ht wall mono loc. case_match; [done|].
  assert (row_phase row ≠ "model_response" → row_phase row ≠ "intaris_append" → repeatable row) as Hrep
    by (intros; by apply repeatable_plain).
  case_bool_decide as Hu.
  { apply just_finish. intros. apply just_appended; [done|]. apply Hrep; by rewrite Hu. }
  case_bool_decide as Hc.
  { assert (repeatable row) by (apply Hrep; intros Hp; rewrite Hp in Hc; by apply (bool_decide_eq_true_2 _) in Hc).
    destruct (_reconcile_append_safely reconcile row) eqn:Hre; [|by apply calls_only_bind; [apply just_read|]].
    apply just_finish. intros. by apply just_user_append. }
  cbn zeta. destruct (settle_other _ _ _ _ _) as [op|] eqn:Hop; [|done]. apply just_finish. intros. by eapply just_other.
Qed.


(** *** Recovery left alone *)

Definition is_none_answer (b : option bool) : bool := match b with None => true | Some _ => false end.

Notation played := (played canonical_hash isoformat fromisoformat model_validate evidence_origin evidence_admission).

(** The methods of recovery, called at a time on a row that was read into place [i]. *)
Definition stale_op (row : request) (lease : Lease) (t : Z) (i : nat) (o : turn_op) : Prop :=
  match o with
  | TRecoverClaim i' rid l _ now at_ | TRecoverRunning i' rid l _ now at_ | TRecoverAbsorbing i' rid l now at_
  | TReconcileAbsorbed i' rid l now at_ | TReconcileCompleted i' rid l _ now at_ | TStaleAmbiguous i' rid l _ now at_ =>
      i' = i ∧ rid = request_id row ∧ l = lease ∧ now = t ∧ at_ = t ∧ not_cancelled row = true
  | TCancelStale i' rid l now at_ => i' = i ∧ rid = request_id row ∧ l = lease ∧ now = t ∧ at_ = t ∧ not_cancelled row = false
  | _ => False
  end.

Definition moves (o : turn_op) (s : DirectTurnStatus) : bool :=
  match o, s with
  | TRecoverClaim _ _ _ _ _ _, CLAIMED | TRecoverRunning _ _ _ _ _ _, RUNNING | TRecoverAbsorbing _ _ _ _ _, ABSORBING
  | TReconcileAbsorbed _ _ _ _ _, ABSORBING | TReconcileCompleted _ _ _ _ _ _, RUNNING
  | TStaleAmbiguous _ _ _ _ _ _, RUNNING | TStaleAmbiguous _ _ _ _ _ _, ABSORBING
  | TCancelStale _ _ _ _ _, (CLAIMED | RUNNING | ABSORBING) => true
  | _, _ => false
  end.

Lemma stale_update_effect w rid j row lease ra ni c v t :
  find_request w rid = Some (j, row) → older_fence row lease = true → _lease_predicate w lease t = true →
  negb (not_cancelled row) = c →
  find_request (stale_update (Some row) rid lease ra ni c v t w).2 rid =
    Some (j, if status_in (status row) ra && status_in (status row) ni then assigns row (v row) else row).
Proof.
  intros Hf Ho Hl Hc. unfold stale_update. rewrite Ho. cbn [andb].
  destruct (status_in (status row) ra); [|done]. cbn [negb andb].
  destruct (status_in (status row) ni) eqn:Hn.
  - edestruct (update_accepted w rid j row) as [-> Hf2]; [done| |exact Hf2].
    cbv beta. by rewrite Hn, Hl, Hc, bool_decide_true, eqb_reflx.
  - unfold update_request. rewrite Hf. cbv beta. by rewrite Hn.
Qed.

Lemma stale_op_effect w j row lease t o :
  find_request w (request_id row) = Some (j, row) → active row = true → older_fence row lease = true →
  _lease_predicate w lease t = true → stale_op row lease t (length (seen w)) o →
  ∃ r', find_request (exec (read_request (request_id row) w) o) (request_id row) = Some (j, r') ∧
    identity r' = identity row ∧ active r' = negb (moves o (status row)).
Proof.
  intros Hf Ha Ho Hl Hop. pose proof (read_then w (request_id row) j row Hf) as Hseen.
  set (w1 := read_request (request_id row) w) in *.
  assert (find_request w1 (request_id row) = Some (j, row)) as Hf1 by done.
  assert (_lease_predicate w1 lease t = true) as Hl1 by done.
  destruct o; try done; destruct Hop as (-> & -> & -> & -> & -> & Hc); cbn [turn_exec];
    unfold recover_stale_claim, mark_stale_ambiguous, reconcile_stale_absorbed, reconcile_stale_completed, cancel_stale_active,
      recover_stale_absorbing, recover_stale_running; rewrite Hseen, ?Hc;
    (eexists; split; [apply stale_update_effect; rewrite ?Hc; done|]); unfold active in *; clear Hf Hf1 Ho Hseen Hc Hl Hl1;
    destruct row as [? ? ? ? ? ? ? ? ? ? ? ? ? ? []]; done.
Qed.

Lemma acquired_is_newer w row t ttl db lease :
  turns_ok w → row ∈ requests w → active row = true → 0 < ttl →
  acquire_in_session (leases w) (conversation_lease_key (conversation_id row)) (self_owner controller incarnation) t ttl = (db, Some lease) →
  older_fence row lease = true ∧ _lease_predicate (set_leases db w) lease t = true.
Proof.
  intros Hok Hr Ha Httl Hacq.
  destruct (acquire_in_session_spec (leases w) (conversation_lease_key (conversation_id row)) (self_owner controller incarnation) t ttl)
    as [[Hn _]|Ht]; [congruence|].
  pose proof (takeover_in_session_lease (leases w) (conversation_lease_key (conversation_id row)) (self_owner controller incarnation) t ttl) as Hl.
  pose proof (takeover_in_session_current (leases w) (conversation_lease_key (conversation_id row)) (self_owner controller incarnation) t ttl t) as Hc.
  destruct (takeover_in_session _ _ _ _ _) as [db' l]. destruct Ht as [Ht _]. rewrite Hacq in Ht. injection Ht as -> ->.
  cbn in Hl. split; [|apply Hc; lia].
  destruct (ok_active w Hok row Hr Ha) as (o & f & _ & Hf & Hg). unfold older_fence. rewrite Hl, Hf, bool_decide_true by done.
  apply Z.ltb_lt. cbn. destruct Hg as [?|(r & Hr' & _ & <-)]; [lia|]. unfold fence. rewrite Hr'. lia.
Qed.

(** The stale turns a pass does not decide: those in quarantine; an append whose events are not a
    list; and two that the UPDATE for their phase does not reach. *)
Definition left_alone (row : request) (wall : Z) : bool :=
  let o := row_outcome row in
  let phase := row_phase row in
  not_cancelled row &&
  (negb (_quarantine_elapsed parse_ts o phase wall) ||
   bool_decide (status row = CLAIMED) && bool_decide (phase ∈ ["canonical_user_append"; "user_append_uncertain"]) &&
     is_none_answer (_reconcile_append_safely reconcile row) ||
   negb (bool_decide (status row = CLAIMED)) && bool_decide (phase = "intaris_append") &&
     existsb (λ k, is_none_answer (has_event k o)) ["tool_call"; "tool_result"; "assistant_message"] ||
   bool_decide (status row = ABSORBING) && bool_decide (phase = "model_response") &&
     bool_decide (_reconcile_append_safely reconcile row = Some true)).

(** One method, then the lease is given back. *)
Lemma play_finish row lease op w t wall mono loc q n (k : prog bool) :
  q = quiet t wall mono →
  (k = pbind _signal_wake (λ _, Ret true) ∨ k = Ret true) →
  ∃ m' evs, played (pbind (read_then_update (request_id row) op) (λ _, pbind (announce (request_id row) lease) (λ _, k)))
      (q :: q :: q :: q :: replicate n q) (Moment wall mono loc w) = (Some true, m', evs) ∧
    find_request (m_world m') (request_id row) =
      find_request (exec (read_request (request_id row) w) (op (length (seen w)) t t)) (request_id row).
Proof.
  intros -> Hk. cbn. destruct Hk as [-> | ->]; cbn; do 2 eexists; (split; [reflexivity|]); reflexivity.
Qed.

(** A stale row, the lease taken for it, the tables. *)
Definition taken_over (w : world) (j : nat) (row : request) (lease : Lease) (t : Z) : Prop :=
  find_request w (request_id row) = Some (j, row) ∧ active row = true ∧ older_fence row lease = true ∧
  _lease_predicate w lease t = true.

Definition ends_with {A} (p : prog A) (sched : list (slot turn_op local)) (m : moment world local) (j : nat) (row : request) (still : bool) : Prop :=
  ∃ a m' evs r', played p sched m = (Some a, m', evs) ∧ find_request (m_world m') (request_id row) = Some (j, r') ∧
    identity r' = identity row ∧ active r' = still.

Lemma finish_effect row lease op w t wall mono loc j (k : prog bool) still :
  taken_over w j row lease t → (k = pbind _signal_wake (λ _, Ret true) ∨ k = Ret true) →
  stale_op row lease t (length (seen w)) (op (length (seen w)) t t) →
  negb (moves (op (length (seen w)) t t) (status row)) = still →
  ends_with (pbind (read_then_update (request_id row) op) (λ _, pbind (announce (request_id row) lease) (λ _, k)))
    (replicate 7 (quiet t wall mono)) (Moment wall mono loc w) j row still.
Proof.
  intros (Hf & Ha & Ho & Hl) Hk Hop <-.
  destruct (play_finish row lease op w t wall mono loc _ 3 k eq_refl Hk) as (m' & evs & Hplay & Hw).
  destruct (stale_op_effect w j row lease t _ Hf Ha Ho Hl Hop) as (r' & Hr & Hi & Hm).
  exists true, m', evs, r'. split_and!; [exact Hplay|by rewrite Hw|done|done].
Qed.

Lemma stale_active_status row : active row = true → status row = CLAIMED ∨ status row = RUNNING ∨ status row = ABSORBING.
Proof. unfold active. destruct (status row); auto; done. Qed.

Lemma appended_moves row lease phase o t i :
  active row = true → not_cancelled row = true →
  stale_op row lease t i (requeue_appended row lease phase o i t t) ∧
  moves (requeue_appended row lease phase o i t t) (status row) = true.
Proof. intros Ha Hc. unfold requeue_appended. destruct (stale_active_status row Ha) as [->|[->| ->]]; by split. Qed.

Lemma user_append_moves row lease phase o b t i :
  active row = true → not_cancelled row = true →
  stale_op row lease t i (settle_user_append row lease phase o b i t t) ∧
  moves (settle_user_append row lease phase o b i t t) (status row) = true.
Proof.
  intros Ha Hc. pose proof (appended_moves row lease phase) as Happ. unfold settle_user_append.
  destruct (stale_active_status row Ha) as [Hs|[Hs|Hs]]; rewrite Hs; [rewrite <- Hs; by apply Happ..|].
  by destruct b.
Qed.

Lemma other_moves row lease phase o append op t i :
  active row = true → not_cancelled row = true → settle_other row lease phase o append = Some op →
  stale_op row lease t i (op i t t) ∧
  negb (moves (op i t t) (status row)) =
    bool_decide (status row = ABSORBING) && bool_decide (phase = "model_response") && bool_decide (append = Some true).
Proof.
  intros Ha Hc. unfold settle_other, requeue_at_boundary.
  destruct (bool_decide (phase = "intaris_append")) eqn:Hp.
  { apply bool_decide_eq_true_1 in Hp as ->.
    destruct (stale_active_status row Ha) as [->|[->| ->]]; cbn; [by intros [= <-]|..];
      destruct (has_event "tool_call" o) as [[]|], (has_event "tool_result" o) as [[]|], (has_event "assistant_message" o) as [[]|],
        append as [[]|]; intros [= <-]; by split. }
  destruct (bool_decide (phase = "model_response")); destruct (stale_active_status row Ha) as [->|[->| ->]];
    destruct append as [[]|]; cbn; intros [= <-]; by split.
Qed.

Lemma other_raises row lease phase o append :
  settle_other row lease phase o append = None →
  negb (bool_decide (status row = CLAIMED)) && bool_decide (phase = "intaris_append") &&
    existsb (λ k, is_none_answer (has_event k o)) ["tool_call"; "tool_result"; "assistant_message"] = true.
Proof.
  unfold settle_other. case_bool_decide; [done|]. case_bool_decide; [|by repeat case_match].
  cbn. destruct (has_event "tool_call" o) as [[]|], (has_event "tool_result" o) as [[]|], (has_event "assistant_message" o) as [[]|];
    try done; repeat case_match; done.
Qed.

Lemma other_answers row lease phase o append op :
  settle_other row lease phase o append = Some op →
  negb (bool_decide (status row = CLAIMED)) && bool_decide (phase = "intaris_append") &&
    existsb (λ k, is_none_answer (has_event k o)) ["tool_call"; "tool_result"; "assistant_message"] = false.
Proof.
  unfold settle_other. case_bool_decide; [done|]. case_bool_decide; [|done].
  cbn. by destruct (has_event "tool_call" o) as [[]|], (has_event "tool_result" o) as [[]|], (has_event "assistant_message" o) as [[]|].
Qed.

Lemma settle_quiet w j row lease t wall mono loc :
  taken_over w j row lease t → not_cancelled row = true →
  ends_with (settle_stale row lease (row_outcome row) (row_phase row)) (replicate 7 (quiet t wall mono)) (Moment wall mono loc w)
    j row (left_alone row wall).
Proof.
  intros Ht Hc. pose proof Ht as (Hf & Ha & _ & _). unfold ends_with, settle_stale. cbn [TurnRuntime.played play m_wall m_mono m_local].
  destruct (_quarantine_elapsed parse_ts (row_outcome row) (row_phase row) wall) eqn:Hq; cbn [negb].
  2: { cbn. do 4 eexists. split; [reflexivity|]. cbn. split_and!; [exact Hf|done|].
       unfold left_alone. by rewrite Hc, Hq, Ha. }
  assert (∀ op (k : prog bool), (k = pbind _signal_wake (λ _, Ret true) ∨ k = Ret true) →
    stale_op row lease t (length (seen w)) (op (length (seen w)) t t) →
    negb (moves (op (length (seen w)) t t) (status row)) = left_alone row wall →
    ends_with (pbind (read_then_update (request_id row) op) (λ _, pbind (announce (request_id row) lease) (λ _, k)))
      (replicate 7 (quiet t wall mono)) (Moment wall mono loc w) j row (left_alone row wall)) as Hfin
    by (intros op k Hk Hop Hm; by apply (finish_effect row lease op w t)).
  assert (left_alone row wall = _) as Hstill by (unfold left_alone; rewrite Hc, Hq; cbn [negb andb orb]; reflexivity).
  destruct (bool_decide (row_phase row = "user_appended")) eqn:Hu; bool_facts.
  { destruct (appended_moves row lease (row_phase row) (appended_outcome "user_appended" (row_outcome row)) t (length (seen w)) Ha Hc)
      as [Hop Hm]. apply Hfin; [by left|done|]. rewrite Hm, Hstill, Hu. cbn. by rewrite !andb_false_r. }
  destruct (bool_decide (row_phase row ∈ ["canonical_user_append"; "user_append_uncertain"])) eqn:Hp; bool_facts.
  { assert (row_phase row ≠ "intaris_append") as H1 by (intros He; rewrite He in Hp; by apply (bool_decide_eq_true_2 _) in Hp).
    assert (row_phase row ≠ "model_response") as H2 by (intros He; rewrite He in Hp; by apply (bool_decide_eq_true_2 _) in Hp).
    rewrite (bool_decide_false (_ = "intaris_append")), (bool_decide_false (_ = "model_response")), !andb_false_r, !andb_false_l,
      !orb_false_r, andb_true_r in Hstill by done.
    destruct (_reconcile_append_safely reconcile row) as [b|] eqn:Hr.
    - destruct (user_append_moves row lease (row_phase row) (row_outcome row) b t (length (seen w)) Ha Hc) as [Hop Hm].
      apply Hfin; [by left|done|]. rewrite Hm, Hstill. cbn. by rewrite !andb_false_r.
    - apply Hfin; [by right|done|]. rewrite Hstill. destruct (stale_active_status row Ha) as [->|[->| ->]]; done. }
  rewrite andb_false_r in Hstill. cbn [orb andb] in Hstill. cbn zeta.
  destruct (settle_other _ _ _ _ _) as [op|] eqn:Hop.
  - destruct (other_moves _ _ _ _ _ _ t (length (seen w)) Ha Hc Hop) as [Hst Hm]. apply Hfin; [by left|done|]. rewrite Hm, Hstill.
    apply other_answers in Hop as ->. cbn [orb].
    destruct (decide (row_phase row = "model_response")) as [Hmr|Hmr].
    + by rewrite Hmr, (bool_decide_true ("model_response" ∈ _)) by by apply (bool_decide_unpack _).
    + by rewrite (bool_decide_false (_ = "model_response")), !andb_false_r by done.
  - apply other_raises in Hop. rewrite Hop in Hstill. cbn. do 4 eexists. split; [reflexivity|]. by rewrite Hstill.
Qed.

Lemma recover_quiet w row t wall mono loc lease db :
  turns_ok w → row ∈ requests w → active row = true → (not_cancelled row = true → row_phase row ≠ TOOL_IN_FLIGHT_PHASE) →
  conversation_id row ∉ active_turns loc →
  acquire_in_session (leases w) (conversation_lease_key (conversation_id row)) (self_owner controller incarnation) t
    DIRECT_TURN_LEASE_SECONDS = (db, Some lease) →
  ∃ j, ends_with (recover_row row) (replicate 8 (quiet t wall mono)) (Moment wall mono loc w) j row (left_alone row wall).
Proof.
  intros Hok Hr Ha Hph Hloc Hacq. destruct (row_lookup w row Hr Hok) as [j Hf]. exists j.
  destruct (acquired_is_newer w row t DIRECT_TURN_LEASE_SECONDS db lease Hok Hr Ha eq_refl Hacq) as [Hold Hl].
  assert (taken_over (set_leases db w) j row lease t) as Ht by done.
  unfold ends_with, recover_row, acquire_turn. cbn [TurnRuntime.played play m_wall m_mono m_local m_world pbind].
  rewrite bool_decide_false by done. cbn. rewrite Hacq. cbn. fold (row_outcome row) in *.
  change (text_or repr_str repr_float "phase" "claimed" (row_outcome row)) with (row_phase row).
  destruct (not_cancelled row) eqn:Hc; cbn [negb].
  - rewrite bool_decide_false by auto.
    destruct (settle_quiet (set_leases db w) j row lease t wall mono loc Ht Hc) as (a & m' & evs & r' & Hplay & Hrest).
    exists a, m'. eexists. exists r'. split; [|exact Hrest].
    exact (f_equal (λ x, let '(r, m2, e) := x in (r, m2, ECall _ _ :: e)) Hplay).
  - destruct (stale_op_effect (set_leases db w) j row lease t
      (TCancelStale (length (seen (set_leases db w))) (request_id row) lease t t)) as (r' & Hfr & Hi & Hm); try done.
    cbn. do 3 eexists. exists r'. split; [reflexivity|]. split_and!; [exact Hfr|done|]. rewrite Hm. unfold left_alone. rewrite Hc.
    destruct (stale_active_status row Ha) as [->|[->| ->]]; done.
Qed.

End Passes.

(** ** Concrete runs *)

Section DemoRun.
(** A second controller looks at the queue after the first one's lease has lapsed; the history has
    the append of every turn. *)
Definition demo_local : local := Local ∅ ∅ true 0.
Definition demo_slots : list (slot turn_op local) := replicate 40 (quiet 200 0 0).
Definition demo_reconcile : option (request → option bool) := Some (λ _, Some true).
Definition demo_played {A} : prog A → list (slot turn_op local) → moment world local → option A * moment world local * list (event turn_op world (request * Lease)) :=
  played demo_hash (λ _, "") (λ _, None) Some (λ _, None) (λ _, None).

Definition demo_recovery (reconcile : option (request → option bool)) : request → prog bool :=
  recover_row "k2" "i2" (λ s, s) (λ _ _, "") (λ _, None) reconcile None.
Definition demo_pass : prog bool :=
  run_once "k2" "i2" (λ s, s) (λ _ _, "") (λ _, None) demo_reconcile None None None None.

Definition demo_moment (ops : list turn_op) : moment world local := Moment 0 0 demo_local (demo_run ops).

Definition demo_pass_run := demo_played demo_pass demo_slots (demo_moment demo_first).
Definition demo_recovery_run := demo_played (demo_recovery demo_reconcile (demo_row demo_first 0)) demo_slots (demo_moment demo_first).

(** The first controller died while the user's message was being appended. *)
Definition demo_uncertain : list turn_op :=
  [demo_admit "a"; TLease 20 (OpAcquire (conversation_lease_key "c") (_owner_id "k1" "i1") 100);
   TRead "request_a"; TClaim 0 "request_a" demo_lease "k1" "i1" (Some "s") 21 21;
   TCheckpoint "request_a" demo_lease "user_append_uncertain" [] false 22 22].

Definition demo_raising : option (request → option bool) := Some (λ _, None).
Definition demo_uncertain_run :=
  demo_played (demo_recovery demo_raising (demo_row demo_uncertain 0)) demo_slots (demo_moment demo_uncertain).
End DemoRun.

Lemma leases_are_given_back_witness :
  demo_pass_run.1.1 = Some true ∧ outstanding (after_call (TurnRuntime.reply_of (λ _, ""))) handed_on demo_pass_run.2 [] = [].
Proof.
  split; [vm_compute; reflexivity|].
  apply (proj1 (leases_are_given_back demo_hash (λ _, "") (λ _, None) Some (λ _, None) (λ _, None) "k2" "i2" (λ s, s) (λ _ _, "")
           (λ _, None) demo_reconcile None None None None (λ _, None) (λ _, Returned) demo_slots (demo_moment demo_first)
           demo_pass_run.1.2 demo_pass_run.2 (demo_row demo_first 0) demo_lease (demo_moment demo_first) [])).
  vm_compute. reflexivity.
Defined.



(** A claimed turn whose user append cannot be checked is to be set aside as ambiguous, but the
    UPDATE only takes running and absorbing turns: the row stays claimed by its dead owner, and
    every pass finds it again. *)
Example uncertain_claim_is_not_set_aside :
  status <$> select_request (m_world demo_uncertain_run.1.2) "request_a" = Some CLAIMED ∧
  active <$> select_request (m_world demo_uncertain_run.1.2) "request_a" = Some true.
Proof. vm_compute. by split. Qed.
