(* ===== verification/Tables.v ===== *)
(** The tables of tasks and schedules ([Task], [TaskDependency], [StepRun], [Schedule],
    [ScheduleFireRow], [ScheduleCatchupStateRow] of [cognis/store/models.py]) next to the leases
    that fence them.  Columns that no modelled statement reads or writes are left out; a
    letter and an underscore distinguish columns shared by two tables. *)

From S2P Require Import Prelude PyVal Lease.

(** ** Tasks *)

Inductive TaskStatus := DRAFT | QUEUED | READY | RUNNING | PAUSED | COMPLETED | FAILED | CANCELLED.

#[global] Instance TaskStatus_eq_dec : EqDecision TaskStatus.
Proof. solve_decision. Defined.

Record task := Task {
  task_id : string;
  t_status : TaskStatus;
  priority : Z;
  t_agent_id : string;
  source_type : string;
  source_ref : option string;
  queue_name : string;
  scheduled_for : option Z;
  t_attempt_number : Z;
  workflow_state : option pydict;
  result_summary : option string;
  result_data : option pydict;
  t_created_at : Z;
  t_started_at : option Z;
  t_completed_at : option Z;
  t_updated_at : Z;
}.

(** A column of an UPDATE or of a flushed row. *)
Inductive task_value :=
| TStatus (x : TaskStatus)
| TScheduledFor (x : option Z)
| TAttempt (x : Z)
| TWorkflowState (x : option pydict)
| TResultSummary (x : option string)
| TResultData (x : option pydict)
| TStarted (x : option Z)
| TCompleted (x : option Z)
| TUpdated (x : Z)
| TPriority (x : Z).

Definition set_task (t : task) (v : task_value) : task :=
  let '(Task i s p a st sr q sf n ws rs rd c b e u) := t in
  match v with
  | TStatus x => Task i x p a st sr q sf n ws rs rd c b e u
  | TScheduledFor x => Task i s p a st sr q x n ws rs rd c b e u
  | TAttempt x => Task i s p a st sr q sf x ws rs rd c b e u
  | TWorkflowState x => Task i s p a st sr q sf n x rs rd c b e u
  | TResultSummary x => Task i s p a st sr q sf n ws x rd c b e u
  | TResultData x => Task i s p a st sr q sf n ws rs x c b e u
  | TStarted x => Task i s p a st sr q sf n ws rs rd c x e u
  | TCompleted x => Task i s p a st sr q sf n ws rs rd c b x u
  | TUpdated x => Task i s p a st sr q sf n ws rs rd c b e x
  | TPriority x => Task i s x a st sr q sf n ws rs rd c b e u
  end.

Definition set_task_values (vs : list task_value) (t : task) : task := foldl set_task t vs.

(** An edge of the dependency graph. *)
Record dependency := Dependency { d_task : string; depends_on : string; required : bool }.

(** The states of a step run are text; only those below are named. *)
Record step_run := StepRun {
  step_run_id : string;
  sr_task_id : string;
  sr_step_name : string;
  sr_step_type : string;
  sr_status : string;
  sr_attempt_number : Z;
  sr_intaris_session_id : option string;
  sr_output : option pydict;
  sr_runtime_info : option pydict;
  sr_started_at : option Z;
  sr_completed_at : option Z;
  sr_updated_at : Z;
}.

Definition ACTIVE_STEP_STATUSES : list string := ["pending"; "running"; "evaluating"; "paused"].

(** ** Schedules *)

Record schedule := Schedule {
  schedule_id : string;
  s_name : string;
  schedule_type : string;
  cron_expr : option string;
  interval_seconds : option Z;
  one_shot_at : option Z;
  s_timezone : string;
  s_agent_id : string;
  enabled : bool;
  max_concurrent_runs : Z;
  delete_after_run : bool;
  retry_failed_tasks : bool;
  fail_paused_task_on_next_fire : bool;
  last_fired_at : option Z;
  next_fire_at : option Z;
  last_run_status : option string;
  last_terminal_task_id : option string;
  consecutive_errors : Z;
  disabled_reason : option string;
  s_created_by : string;
  s_updated_at : Z;
}.

Inductive schedule_value :=
| SEnabled (x : bool)
| SLastFired (x : option Z)
| SNextFire (x : option Z)
| SRunStatus (x : option string)
| STerminalTask (x : option string)
| SErrors (x : Z)
| SDisabled (x : option string)
| SUpdated (x : Z).

Definition set_schedule (s : schedule) (v : schedule_value) : schedule :=
  let '(Schedule i n ty ce iv os tz ag e m d r p lf nf rs lt er dr cb u) := s in
  match v with
  | SEnabled x => Schedule i n ty ce iv os tz ag x m d r p lf nf rs lt er dr cb u
  | SLastFired x => Schedule i n ty ce iv os tz ag e m d r p x nf rs lt er dr cb u
  | SNextFire x => Schedule i n ty ce iv os tz ag e m d r p lf x rs lt er dr cb u
  | SRunStatus x => Schedule i n ty ce iv os tz ag e m d r p lf nf x lt er dr cb u
  | STerminalTask x => Schedule i n ty ce iv os tz ag e m d r p lf nf rs x er dr cb u
  | SErrors x => Schedule i n ty ce iv os tz ag e m d r p lf nf rs lt x dr cb u
  | SDisabled x => Schedule i n ty ce iv os tz ag e m d r p lf nf rs lt er x cb u
  | SUpdated x => Schedule i n ty ce iv os tz ag e m d r p lf nf rs lt er dr cb x
  end.

Definition set_schedule_values (vs : list schedule_value) (s : schedule) : schedule := foldl set_schedule s vs.

Inductive fire_kind := Recurring | Manual.
Inductive fire_status := FireClaimed | FireDispatched | FireSkipped | FireFailed.

#[global] Instance fire_kind_eq_dec : EqDecision fire_kind.
Proof. solve_decision. Defined.
#[global] Instance fire_status_eq_dec : EqDecision fire_status.
Proof. solve_decision. Defined.

Record fire := Fire {
  fire_id : string;
  f_schedule_id : string;
  f_kind : fire_kind;
  scheduled_fire_at : Z;
  schedule_timezone : option string;
  f_task_id : option string;
  f_status : fire_status;
  f_attempt_count : Z;
  last_error : option string;
  f_created_at : Z;
  f_updated_at : Z;
  dispatched_at : option Z;
}.

#[global] Instance fire_eq_dec : EqDecision fire.
Proof. solve_decision. Defined.

Inductive fire_value :=
| FTask (x : option string)
| FStatus (x : fire_status)
| FAttempts (x : Z)
| FError (x : option string)
| FUpdated (x : Z)
| FDispatched (x : option Z).

Definition set_fire (f : fire) (v : fire_value) : fire :=
  let '(Fire i s k a tz t st n e c u d) := f in
  match v with
  | FTask x => Fire i s k a tz x st n e c u d
  | FStatus x => Fire i s k a tz t x n e c u d
  | FAttempts x => Fire i s k a tz t st x e c u d
  | FError x => Fire i s k a tz t st n x c u d
  | FUpdated x => Fire i s k a tz t st n e c x d
  | FDispatched x => Fire i s k a tz t st n e c u x
  end.

Definition set_fire_values (vs : list fire_value) (f : fire) : fire := foldl set_fire f vs.

(** The one row of the startup catch-up. *)
Record catchup_state := CatchupState { cutoff_at : Z; remaining_budget : Z; catchup_is_active : bool; c_updated_at : Z }.

(** ** The tables *)

Record tables := Tables {
  lease_table : gmap string lease_row;
  tasks : gmap string task;
  dependencies : list dependency;
  step_runs : list step_run;
  schedules : gmap string schedule;
  fires : gmap string fire;
  catchup : option catchup_state;
}.

Definition set_lease_table (x : gmap string lease_row) (w : tables) : tables :=
  Tables x (tasks w) (dependencies w) (step_runs w) (schedules w) (fires w) (catchup w).
Definition set_tasks (x : gmap string task) (w : tables) : tables :=
  Tables (lease_table w) x (dependencies w) (step_runs w) (schedules w) (fires w) (catchup w).
Definition set_dependencies (x : list dependency) (w : tables) : tables :=
  Tables (lease_table w) (tasks w) x (step_runs w) (schedules w) (fires w) (catchup w).
Definition set_step_runs (x : list step_run) (w : tables) : tables :=
  Tables (lease_table w) (tasks w) (dependencies w) x (schedules w) (fires w) (catchup w).
Definition set_schedules (x : gmap string schedule) (w : tables) : tables :=
  Tables (lease_table w) (tasks w) (dependencies w) (step_runs w) x (fires w) (catchup w).
Definition set_fires (x : gmap string fire) (w : tables) : tables :=
  Tables (lease_table w) (tasks w) (dependencies w) (step_runs w) (schedules w) x (catchup w).
Definition set_catchup (x : option catchup_state) (w : tables) : tables :=
  Tables (lease_table w) (tasks w) (dependencies w) (step_runs w) (schedules w) (fires w) x.

(** [UPDATE ... WHERE task_id = ? AND p]; the row count is 0 or 1. *)
Definition update_task (tid : string) (p : task → bool) (f : task → task) (w : tables) : tables * bool :=
  match tasks w !! tid with
  | Some t => if p t then (set_tasks (<[tid := f t]> (tasks w)) w, true) else (w, false)
  | None => (w, false)
  end.

Definition update_fire (fid : string) (p : fire → bool) (f : fire → fire) (w : tables) : tables * bool :=
  match fires w !! fid with
  | Some x => if p x then (set_fires (<[fid := f x]> (fires w)) w, true) else (w, false)
  | None => (w, false)
  end.

Definition update_schedule_row (sid : string) (p : schedule → bool) (f : schedule → schedule) (w : tables) : tables * bool :=
  match schedules w !! sid with
  | Some s => if p s then (set_schedules (<[sid := f s]> (schedules w)) w, true) else (w, false)
  | None => (w, false)
  end.

(** Deleting a schedule deletes its fires. *)
Definition delete_schedule_row (sid : string) (w : tables) : tables :=
  set_fires (filter (λ x, f_schedule_id x.2 ≠ sid) (fires w)) (set_schedules (delete sid (schedules w)) w).

Definition task_in (s : TaskStatus) (l : list TaskStatus) : bool := bool_decide (s ∈ l).

(** [ORDER BY ... LIMIT 1]: the first of the rows that come before all others. *)
Definition first_by {A} (le : A → A → bool) (l : list A) : option A :=
  foldr (λ x acc, match acc with Some y => if le x y then Some x else Some y | None => Some x end) None l.

Fixpoint insert_by {A} (le : A → A → bool) (x : A) (l : list A) : list A :=
  match l with [] => [x] | y :: l => if le x y then x :: y :: l else y :: insert_by le x l end.

(** [ORDER BY] *)
Definition sort_by {A} (le : A → A → bool) (l : list A) : list A := foldr (insert_by le) [] l.

Lemma first_by_elem {A} (le : A → A → bool) l x : first_by le l = Some x → x ∈ l.
Proof.
  revert x. induction l as [|y l IH]; [done|]. cbn. fold (first_by le l). destruct (first_by le l) as [z|].
  - case_match; intros x [= <-]; [by left|right; by apply IH].
  - intros x [= <-]. by left.
Qed.

Lemma first_by_none {A} (le : A → A → bool) l : first_by le l = None → l = [].
Proof. destruct l; [done|]. cbn. by repeat case_match. Qed.

Lemma first_by_first {A} (le : A → A → bool) l x y :
  (∀ a, le a a = true) → (∀ a b, le a b = false → le b a = true) →
  (∀ a b c, le a b = true → le b c = true → le a c = true) →
  first_by le l = Some x → y ∈ l → le x y = true.
Proof.
  intros Hr Ht Htr. revert x. induction l as [|z l IH]; [done|]. cbn. fold (first_by le l). intros x Hx Hin.
  destruct (first_by le l) as [u|] eqn:Hu.
  - destruct (le z u) eqn:Hb; injection Hx as <-; apply elem_of_cons in Hin as [->|Hin].
    + apply Hr.
    + apply (Htr _ u); [done|by apply IH].
    + by apply Ht.
    + by apply IH.
  - injection Hx as <-. apply first_by_none in Hu as ->. apply elem_of_cons in Hin as [->|Hin]; [apply Hr|by apply elem_of_nil in Hin].
Qed.
