(* ===== verification/Tasks.v ===== *)
(** Tasks and their dependencies: the statements of [cognis/store/queries.py] that create
    tasks, move them between states, and build the graph of dependencies.  [now] is a reading of
    the controller's clock.  The statements of one function are taken together: they run in one
    transaction of their caller. *)

From S2P Require Import Prelude PyVal Lease Tables.

(** ** Rows *)

Inductive query_error := ValueError (message : string) | IntegrityError.

(** What the columns of a new task are made from, and the clock of the defaults. *)
Definition create_task (tid : string) (status : TaskStatus) (priority : Z) (agent source_type : string) (source_ref : option string)
    (scheduled_for : option Z) (now : Z) (w : tables) : result query_error task * tables :=
  match tasks w !! tid with
  | Some _ => (Err IntegrityError, w)
  | None =>
      let t := Task tid status priority agent source_type source_ref "default" scheduled_for 1 None None None now None None now in
      (Ok t, set_tasks (<[tid := t]> (tasks w)) w)
  end.

Definition get_task (tid : string) (w : tables) : option task := tasks w !! tid.

Definition assert_task_attempt_current (tid : string) (expected : Z) (w : tables) : bool :=
  match tasks w !! tid with Some t => t_attempt_number t =? expected | None => false end.

(** ** Moving between states *)

Definition valid_transitions : list (TaskStatus * list TaskStatus) :=
  [(DRAFT, [QUEUED; CANCELLED]); (QUEUED, [READY; CANCELLED]); (READY, [RUNNING; CANCELLED]);
   (RUNNING, [QUEUED; PAUSED; COMPLETED; FAILED; CANCELLED]); (PAUSED, [QUEUED; RUNNING; CANCELLED]); (FAILED, [RUNNING])].

Definition allowed_from (s : TaskStatus) : list TaskStatus := (filter (λ x, s ∈ x.2) valid_transitions).*1.

(** The optional columns: [None] leaves the column as it is. *)
Definition given {A} (f : A → task_value) (x : option A) : list task_value := match x with Some a => [f a] | None => [] end.

Definition pause_id_of (t : task) : option string :=
  match workflow_state t with
  | Some ws => match dict_get "pending_pause_payload" ws with
               | PDict p => match dict_get "pause_id" p with PStr s => Some s | _ => None end
               | _ => None
               end
  | None => None
  end.

Definition update_task_status (tid : string) (s : TaskStatus) (started completed : option Z) (summary : option string)
    (data : option pydict) (expected_attempt : option Z) (expected_status : option TaskStatus) (expected_pause : option string)
    (now : Z) (w : tables) : tables * bool :=
  let values := [TStatus s] ++ given (λ x, TStarted (Some x)) started ++ given (λ x, TCompleted (Some x)) completed ++
                given (λ x, TResultSummary (Some x)) summary ++ given (λ x, TResultData (Some x)) data ++ [TUpdated now] in
  update_task tid (λ t,
    task_in (t_status t) (allowed_from s) &&
    match expected_status with Some e => bool_decide (t_status t = e) | None => true end &&
    match expected_pause with Some p => bool_decide (pause_id_of t = Some p) | None => true end &&
    match expected_attempt with Some n => t_attempt_number t =? n | None => true end)
    (set_task_values values) w.

(** The plain form most callers use. *)
Definition move_task (tid : string) (s : TaskStatus) (now : Z) (w : tables) : tables * bool :=
  update_task_status tid s None None None None None None None now w.

Definition defer_running_task (tid : string) (at_ : Z) (ws : option pydict) (summary : option string) (now : Z) (w : tables) : tables * bool :=
  update_task tid (λ t, bool_decide (t_status t = RUNNING))
    (set_task_values ([TStatus READY; TScheduledFor (Some at_)] ++ given (λ x, TWorkflowState (Some x)) ws ++
                      given (λ x, TResultSummary (Some x)) summary ++ [TUpdated now])) w.

Definition set_step (s : string) (completed : option Z) (now : Z) (r : step_run) : step_run :=
  StepRun (step_run_id r) (sr_task_id r) (sr_step_name r) (sr_step_type r) s (sr_attempt_number r) (sr_intaris_session_id r) (sr_output r)
    (sr_runtime_info r) (sr_started_at r) (match completed with Some c => Some c | None => sr_completed_at r end) now.

(** [UPDATE step_runs SET ... WHERE task_id IN ? AND status IN ?] *)
Definition update_step_runs (p : string → bool) (from : list string) (s : string) (completed : option Z) (now : Z) (w : tables) : tables :=
  set_step_runs ((λ r, if p (sr_task_id r) && bool_decide (sr_status r ∈ from) then set_step s completed now r else r) <$> step_runs w) w.

Definition pause_running_task_for_infrastructure (tid : string) (ws : pydict) (summary : string) (now : Z) (w : tables) : tables * bool :=
  let '(w1, ok) := update_task tid (λ t, bool_decide (t_status t = RUNNING))
                     (set_task_values [TStatus PAUSED; TWorkflowState (Some ws); TResultSummary (Some summary); TUpdated now]) w in
  if ok then (update_step_runs (λ x, bool_decide (x = tid)) ["pending"; "running"; "evaluating"] "paused" None now w1, true)
  else (w, false).

Definition fail_running_step_runs_for_task (tid : string) (completed : Z) (final : string) (now : Z) (w : tables) : tables :=
  update_step_runs (λ x, bool_decide (x = tid)) ACTIVE_STEP_STATUSES final (Some completed) now w.

(** Step runs of earlier attempts that a revision replaces; the number of rows. *)
Definition supersede_step_runs_for_revision (tid : string) (steps : list string) (before_attempt : Z) (now : Z) (w : tables) : tables * nat :=
  let hit r := bool_decide (sr_task_id r = tid) && bool_decide (sr_step_name r ∈ steps) && (sr_attempt_number r <? before_attempt) &&
               bool_decide (sr_status r ∈ ["pending"; "running"; "evaluating"; "approved"; "rejected"; "paused"; "failed"]) in
  (set_step_runs ((λ r, if hit r then set_step "superseded" None now r else r) <$> step_runs w) w, length (filter (λ r, hit r) (step_runs w))).

(** Step runs left active under a task that has ended. *)
Definition fail_orphaned_running_step_runs (completed : Z) (final : string) (now : Z) (w : tables) : tables * nat :=
  let orphan r := bool_decide (sr_status r ∈ ACTIVE_STEP_STATUSES) &&
                  match tasks w !! sr_task_id r with Some t => task_in (t_status t) [FAILED; COMPLETED; CANCELLED] | None => false end in
  let last r := match tasks w !! sr_task_id r with
                | Some t => if bool_decide (t_status t = CANCELLED) then "cancelled" else final
                | None => final
                end in
  (set_step_runs ((λ r, if orphan r then set_step (last r) (Some completed) now r else r) <$> step_runs w) w,
   length (filter (λ r, orphan r) (step_runs w))).

(** [ORDER BY x ASC]; where NULL is sorted depends on the database. *)
Definition earlier (nulls_last : bool) (x y : option Z) : bool :=
  match x, y with
  | Some a, Some b => a <? b
  | Some _, None => nulls_last
  | None, Some _ => negb nulls_last
  | None, None => false
  end.

Definition step_before (nulls_last : bool) (x y : step_run) : bool :=
  earlier nulls_last (sr_started_at x) (sr_started_at y) ||
  (bool_decide (sr_started_at x = sr_started_at y) && String.leb (step_run_id x) (step_run_id y)).

Definition list_step_runs_for_task (nulls_last : bool) (tid : string) (w : tables) : list step_run :=
  sort_by (step_before nulls_last) (filter (λ r, sr_task_id r = tid) (step_runs w)).

(** [workflow_state["version"]], 0 when absent. *)
Definition workflow_version (t : task) : option Z :=
  match workflow_state t with
  | Some ws => match dict_get "version" ws with PInt n => Some n | PNone => Some 0 | _ => None end
  | None => Some 0
  end.

Definition update_task_workflow_state (tid : string) (ws : pydict) (expected_version : option Z) (now : Z) (w : tables) : tables * bool :=
  update_task tid (λ t, match expected_version with
                        | Some v => bool_decide (workflow_version t = Some (v - 1))
                        | None => true
                        end)
    (set_task_values [TWorkflowState (Some ws); TUpdated now]) w.

Definition update_task_priority (tid : string) (p : Z) (now : Z) (w : tables) : tables * bool :=
  update_task tid (λ t, task_in (t_status t) [DRAFT; QUEUED]) (set_task_values [TPriority p; TUpdated now]) w.

(** ** The queue *)

Definition due_ready (queue : string) (now : Z) (t : task) : bool :=
  bool_decide (t_status t = READY) && bool_decide (queue_name t = queue) &&
  match scheduled_for t with None => true | Some at_ => at_ <=? now end.

(** [ORDER BY priority DESC, created_at ASC] *)
Definition before (x y : task) : bool :=
  (priority y <? priority x) || ((priority x =? priority y) && (t_created_at x <=? t_created_at y)).

Definition list_tasks_by_status (ss : list TaskStatus) (limit : nat) (w : tables) : list task :=
  take limit (sort_by before (filter (λ t, task_in (t_status t) ss) (map_to_list (tasks w)).*2)).

Definition pick_ready_task (queue : string) (now : Z) (w : tables) : option task * tables :=
  match first_by before (filter (λ t, due_ready queue now t) (map_to_list (tasks w)).*2) with
  | None => (None, w)
  | Some c =>
      let '(w1, ok) := update_task (task_id c) (λ t, bool_decide (t_status t = READY))
                         (set_task_values [TStatus RUNNING; TStarted (Some now); TUpdated now]) w in
      if ok then (tasks w1 !! task_id c, w1) else (None, w)
  end.

Definition list_stale_running_tasks (updated_before : Z) (w : tables) : list task :=
  filter (λ t, bool_decide (t_status t = RUNNING) && (t_updated_at t <? updated_before)) (map_to_list (tasks w)).*2.

(** ** The graph of dependencies *)

Definition successors (g : list dependency) (x : string) : list string :=
  depends_on <$> filter (λ d, d_task d = x) g.

(** The depth-first search with its explicit stack, the top first. *)
Fixpoint search (g : list dependency) (target : string) (fuel : nat) (visited : gset string) (stack : list string) : option bool :=
  match fuel with
  | O => None
  | S fuel =>
      match stack with
      | [] => Some false
      | current :: stack =>
          if bool_decide (current = target) then Some true
          else if bool_decide (current ∈ visited) then search g target fuel visited stack
          else search g target fuel ({[current]} ∪ visited) (reverse (successors g current) ++ stack)
      end
  end.

(** Every edge is pushed at most once. *)
Definition _would_create_cycle (g : list dependency) (tid target : string) : option bool :=
  search g target (2 + length g) ∅ [tid].

Definition add_task_dependency (tid dep : string) (req : bool) (w : tables) : result query_error dependency * tables :=
  if bool_decide (tid = dep) then (Err (ValueError "Task cannot depend on itself"), w) else
  match _would_create_cycle (dependencies w) dep tid with
  | Some false =>
      match tasks w !! tid, tasks w !! dep with
      | Some _, Some _ =>
          if existsb (λ d, bool_decide (d_task d = tid) && bool_decide (depends_on d = dep)) (dependencies w) then (Err IntegrityError, w)
          else let d := Dependency tid dep req in (Ok d, set_dependencies (dependencies w ++ [d]) w)
      | _, _ => (Err IntegrityError, w)
      end
  | _ => (Err (ValueError ("Adding dependency " +:+ tid +:+ " -> " +:+ dep +:+ " would create a cycle")), w)
  end.

Definition remove_task_dependency (tid dep : string) (w : tables) : tables * bool :=
  let rest := filter (λ d, ¬ (d_task d = tid ∧ depends_on d = dep)) (dependencies w) in
  (set_dependencies rest w, negb (length rest =? length (dependencies w))).

Definition get_task_dependencies (tid : string) (w : tables) : list dependency := filter (λ d, d_task d = tid) (dependencies w).

(** Joined with the task depended on. *)
Definition get_unmet_dependencies (tid : string) (required_only : bool) (w : tables) : list dependency :=
  filter (λ d, bool_decide (d_task d = tid) && (negb required_only || required d) &&
               match tasks w !! depends_on d with Some t => negb (bool_decide (t_status t = COMPLETED)) | None => false end)
    (dependencies w).

Definition get_dependent_tasks (completed : string) (w : tables) : list string :=
  d_task <$> filter (λ d, depends_on d = completed) (dependencies w).

(** ** The search is exact *)

Definition edge (g : list dependency) (x y : string) : Prop := ∃ d, d ∈ g ∧ d_task d = x ∧ depends_on d = y.

Definition acyclic (g : list dependency) : Prop := ∀ x, ¬ tc (edge g) x x.

Lemma successors_edge g x y : y ∈ successors g x ↔ edge g x y.
Proof.
  unfold successors, edge. rewrite list_elem_of_fmap. split.
  - intros (d & -> & Hd). apply list_elem_of_filter in Hd as [Hx Hd]. eauto.
  - intros (d & Hd & Hx & <-). exists d. by rewrite list_elem_of_filter.
Qed.

(** The edges whose source was not expanded yet. *)
Definition unexplored (g : list dependency) (visited : gset string) : nat := length (filter (λ d, d_task d ∉ visited) g).

Lemma unexplored_expand g visited x :
  x ∉ visited → unexplored g visited = (length (successors g x) + unexplored g ({[x]} ∪ visited))%nat.
Proof.
  intros Hx. unfold unexplored, successors. rewrite length_fmap. induction g as [|d g IH]; [done|]. rewrite !filter_cons.
  destruct (decide (d_task d = x)) as [Hd|Hd].
  - rewrite (decide_True (P := d_task d ∉ visited)) by by rewrite Hd. rewrite (decide_False (P := d_task d ∉ {[x]} ∪ visited)).
    + cbn. by rewrite IH.
    + rewrite Hd, not_elem_of_union. intros [Hn _]. by apply Hn, elem_of_singleton.
  - destruct (decide (d_task d ∈ visited)) as [Hv|Hv].
    + rewrite (decide_False (P := d_task d ∉ visited)) by auto.
      rewrite (decide_False (P := d_task d ∉ {[x]} ∪ visited)); [done|]. rewrite not_elem_of_union. tauto.
    + rewrite (decide_True (P := d_task d ∉ visited)) by done.
      rewrite (decide_True (P := d_task d ∉ {[x]} ∪ visited)); [cbn; lia|]. by rewrite not_elem_of_union, elem_of_singleton.
Qed.

Lemma search_returns g target fuel visited stack :
  (length stack + unexplored g visited < fuel)%nat → is_Some (search g target fuel visited stack).
Proof.
  revert visited stack. induction fuel as [|fuel IH]; [lia|]. intros visited [|x stack] Hf; [by eexists|]. cbn in *.
  case_bool_decide; [by eexists|]. case_bool_decide as Hv; [apply IH; lia|].
  apply IH. rewrite length_app, length_reverse. rewrite (unexplored_expand g visited x Hv) in Hf. lia.
Qed.

Lemma search_finds g target fuel visited stack :
  search g target fuel visited stack = Some true → ∃ x, x ∈ stack ∧ rtc (edge g) x target.
Proof.
  revert visited stack. induction fuel as [|fuel IH]; [done|]. intros visited [|x stack]; [done|]. cbn.
  case_bool_decide as Hx; [intros _; exists x; rewrite Hx; split; [by left|done]|].
  case_bool_decide as Hv; intros (y & Hy & Hr)%IH; [exists y; split; [by right|done]|].
  apply elem_of_app in Hy as [Hy|Hy]; [|exists y; split; [by right|done]].
  apply elem_of_reverse, successors_edge in Hy. exists x. split; [by left|]. by eapply rtc_l.
Qed.

Lemma search_explores g target fuel visited stack :
  search g target fuel visited stack = Some false → target ∉ visited →
  (∀ x y, x ∈ visited → edge g x y → y ∈ visited ∨ y ∈ stack) →
  ∃ closed : gset string, target ∉ closed ∧ (∀ x, x ∈ visited ∨ x ∈ stack → x ∈ closed) ∧
    ∀ x y, x ∈ closed → edge g x y → y ∈ closed.
Proof.
  revert visited stack. induction fuel as [|fuel IH]; [done|]. intros visited [|x stack]; cbn.
  { intros _ Ht Hc. exists visited. split_and!; [done|by intros ? [?|?%elem_of_nil]|].
    intros x y Hx Hy. by destruct (Hc x y Hx Hy) as [?|?%elem_of_nil]. }
  case_bool_decide as Hx; [done|]. case_bool_decide as Hv; intros Hs Ht Hc.
  - destruct (IH visited stack Hs Ht) as (c & H1 & H2 & H3).
    { intros y z Hy Hz. destruct (Hc y z Hy Hz) as [?|[->|?]%elem_of_cons]; auto. }
    exists c. split_and!; [done| |done]. intros y [Hy|[->|Hy]%elem_of_cons]; auto.
  - destruct (IH _ _ Hs) as (c & H1 & H2 & H3).
    { rewrite elem_of_union, elem_of_singleton. naive_solver. }
    { intros y z [->%elem_of_singleton|Hy]%elem_of_union Hz.
      - right. apply elem_of_app. left. by apply elem_of_reverse, successors_edge.
      - destruct (Hc y z Hy Hz) as [?|[->|?]%elem_of_cons].
        + left. by apply elem_of_union_r.
        + left. by apply elem_of_union_l, elem_of_singleton.
        + right. apply elem_of_app. by right. }
    exists c. split_and!; [done| |done]. intros y [Hy|[->|Hy]%elem_of_cons]; apply H2.
    + left. by apply elem_of_union_r.
    + left. by apply elem_of_union_l, elem_of_singleton.
    + right. apply elem_of_app. by right.
Qed.

(** The search for a cycle always answers, and says yes exactly when the target can be
    reached along the dependencies. *)
Lemma cycle_check_is_exact g tid target :
  (∃ b, _would_create_cycle g tid target = Some b) ∧
  (_would_create_cycle g tid target = Some true ↔ rtc (edge g) tid target).
Proof.
  assert (is_Some (_would_create_cycle g tid target)) as [b Hb].
  { apply search_returns. unfold unexplored. cbn [length]. apply le_n_S, le_n_S, length_filter. }
  split; [by exists b|]. split.
  - intros (x & ->%list_elem_of_singleton & Hr)%search_finds. done.
  - intros Hr. destruct b; [done|]. apply search_explores in Hb as (c & Ht & Hin & Hc); [|apply not_elem_of_empty|by intros ? ? ?%elem_of_empty].
    destruct Ht. assert (tid ∈ c) as Htid by (apply Hin; right; by left). clear Hin. induction Hr as [|x y z Hxy _ IH]; [done|].
    by apply IH, (Hc x).
Qed.

(** ** The graph along histories *)

Inductive dependency_op :=
| AddDependency (tid dep : string) (req : bool)
| RemoveDependency (tid dep : string)
| OtherWork (f : gmap string task → gmap string task).

Definition dependency_exec (w : tables) (o : dependency_op) : tables :=
  match o with
  | AddDependency tid dep req => (add_task_dependency tid dep req w).2
  | RemoveDependency tid dep => (remove_task_dependency tid dep w).1
  | OtherWork f => set_tasks (f (tasks w)) w
  end.

Lemma edge_app g d x y : edge (g ++ [d]) x y ↔ edge g x y ∨ (d_task d = x ∧ depends_on d = y).
Proof.
  unfold edge. split.
  - intros (e & [He| ->%list_elem_of_singleton]%elem_of_app & ?); eauto.
  - intros [(e & He & ?)|?]; [exists e|exists d]; rewrite elem_of_app, list_elem_of_singleton; auto.
Qed.

Lemma tc_app_edge g a b req x y :
  tc (edge (g ++ [Dependency a b req])) x y → tc (edge g) x y ∨ (rtc (edge g) x a ∧ rtc (edge g) b y).
Proof.
  induction 1 as [x y Hxy|x y z Hxy _ IH]; apply edge_app in Hxy as [Hxy|[Ha Hb]]; cbn in *; subst.
  - left. by apply tc_once.
  - right. split; done.
  - destruct IH as [IH|[H1 H2]]; [left; by eapply tc_l|right]. split; [by eapply rtc_l|done].
  - right. split; [done|]. destruct IH as [IH|[H1 H2]]; [by apply tc_rtc|done].
Qed.

Lemma add_acyclic g a b req : acyclic g → a ≠ b → ¬ rtc (edge g) b a → acyclic (g ++ [Dependency a b req]).
Proof.
  intros Hg Hab Hr x [Hx|[Hxa Hbx]]%tc_app_edge; [by apply (Hg x)|]. apply Hr. by etrans.
Qed.

Lemma fewer_acyclic g g' : (∀ d, d ∈ g' → d ∈ g) → acyclic g → acyclic g'.
Proof.
  intros Hs Hg x Hx. apply (Hg x). assert (∀ y z, edge g' y z → edge g y z) as He.
  { intros y z (d & Hd & ?). exists d. auto. }
  clear Hg. generalize Hx. generalize x at 2 4. intros y Hy. clear Hx.
  induction Hy as [y z Hyz|y z u Hyz _ IH]; [by apply tc_once, He|eapply tc_l; [by apply He|exact IH]].
Qed.

Definition has_dependency (g : list dependency) (a b : string) : bool :=
  existsb (λ d, bool_decide (d_task d = a) && bool_decide (depends_on d = b)) g.

Lemma add_accepted a b req w :
  is_ok (add_task_dependency a b req w).1 = true ↔
  a ≠ b ∧ is_Some (tasks w !! a) ∧ is_Some (tasks w !! b) ∧ has_dependency (dependencies w) a b = false ∧
  ¬ rtc (edge (dependencies w)) b a.
Proof.
  unfold add_task_dependency, has_dependency. destruct (cycle_check_is_exact (dependencies w) b a) as [[c Hc] He]. rewrite <- He, Hc.
  case_bool_decide; [split; [done|by intros (? & _)]|]. destruct c; [split; [done|by intros (_ & _ & _ & _ & [])]|].
  destruct (tasks w !! a), (tasks w !! b); cbn; try (split; [done|intros (_ & [? ?] & [? ?] & _); done]).
  destruct (existsb _ _); cbn.
  - split; [done|]. by intros (_ & _ & _ & ? & _).
  - split; [|done]. intros _. by split_and!; eauto.
Qed.

Lemma add_appends a b req w :
  (add_task_dependency a b req w).2 = if is_ok (add_task_dependency a b req w).1
                                      then set_dependencies (dependencies w ++ [Dependency a b req]) w else w.
Proof. unfold add_task_dependency. repeat case_match; try done; cbn in *; congruence. Qed.


Definition demo_edges : tables :=
  let row tid := Task tid DRAFT 0 "a" "api" None "default" None 1 None None None 0 None None 0 in
  Tables ∅ (list_to_map ((λ t, (t, row t)) <$> ["a"; "b"; "c"])) [] [] ∅ ∅ None.

