(* ===== verification/TaskExecution.v ===== *)
(** Who runs a workflow task, and how many run at once ([cognis/core/task_execution.py]).

    A claim holds the lease of its task together with one of the slots every controller shares
    and one of the slots of its agent; each slot is a lease of its own.  A method runs in one
    transaction: it either does everything or is rolled back, and here reads the database clock
    once ([now]).  [locked] are the rows other transactions hold when a statement skips locked
    rows; [uuid] is the random part of the owner's name. *)

From S2P Require Import Prelude PyVal Lease Tables Tasks.

Definition TASK_LEASE_TTL_SECONDS : Z := 60000000.

Record TaskExecutionClaim := Claim {
  c_task_id : string;
  c_agent_id : string;
  c_attempt_number : Z;
  task_lease : Lease;
  global_capacity_lease : option Lease;
  agent_capacity_lease : option Lease;
}.

Definition claim_leases (c : TaskExecutionClaim) : list Lease :=
  task_lease c :: option_list (global_capacity_lease c) ++ option_list (agent_capacity_lease c).

Definition has_capacity (c : TaskExecutionClaim) : bool :=
  match global_capacity_lease c, agent_capacity_lease c with Some _, Some _ => true | _, _ => false end.

Definition task_lease_key (tid : string) : string := "workflow-task:" +:+ tid.
Definition global_capacity_key (slot : nat) : string := "workflow-capacity:global:" +:+ str_int slot.
Definition agent_capacity_key (agent : string) (slot : nat) : string :=
  "workflow-capacity:agent:" +:+ agent +:+ ":" +:+ str_int slot.

(** The attributes of a store that its methods read. *)
Record execution_store := ExecutionStore {
  store_owner : string;
  max_active_global : nat;
  max_active_per_agent : nat;
  ttl_seconds : Z;
}.

Section Store.
Context (st : execution_store).

(** The first slot that can be had. *)
Fixpoint _acquire_capacity (keys : list string) (owner : string) (now : Z) (db : gmap string lease_row) :
    gmap string lease_row * option Lease :=
  match keys with
  | [] => (db, None)
  | key :: keys =>
      match acquire_in_session db key owner now (ttl_seconds st) with
      | (db, Some l) => (db, Some l)
      | (db, None) => _acquire_capacity keys owner now db
      end
  end.

Definition global_keys : list string := global_capacity_key <$> seq 0 (max_active_global st).
Definition agent_keys (agent : string) : list string := agent_capacity_key agent <$> seq 0 (max_active_per_agent st).

(** Both slots or none. *)
Definition acquire_slots (agent owner : string) (now : Z) (db : gmap string lease_row) :
    option (gmap string lease_row * Lease * Lease) :=
  match _acquire_capacity global_keys owner now db with
  | (db, Some g) =>
      match _acquire_capacity (agent_keys agent) owner now db with
      | (db, Some a) => Some (db, g, a)
      | _ => None
      end
  | _ => None
  end.

Definition claim_owner (tid uuid : string) : string := store_owner st +:+ ":task:" +:+ tid +:+ ":" +:+ uuid.

(** The task's lease and both slots, for a row that is locked. *)
Definition take (t : task) (uuid : string) (now : Z) (w : tables) : option (tables * TaskExecutionClaim) :=
  let owner := claim_owner (task_id t) uuid in
  match acquire_in_session (lease_table w) (task_lease_key (task_id t)) owner now (ttl_seconds st) with
  | (db, Some l) =>
      match acquire_slots (t_agent_id t) owner now db with
      | Some (db, g, a) =>
          let attempt := if t_attempt_number t =? 0 then 1 else t_attempt_number t in
          Some (set_lease_table db w, Claim (task_id t) (t_agent_id t) attempt l (Some g) (Some a))
      | None => None
      end
  | _ => None
  end.

Definition next_scheduled_delay (queue : string) (now : Z) (w : tables) : option Z :=
  let later := omap (λ t, if bool_decide (t_status t = READY) && bool_decide (queue_name t = queue)
                          then at_ ← scheduled_for t; if now <? at_ then Some at_ else None else None) (map_to_list (tasks w)).*2 in
  match later with [] => None | t :: ts => Some (foldr Z.min t ts - now) end.

Definition claim_ready (queue : string) (locked : gset string) (uuid : string) (now : Z) (w : tables) :
    option TaskExecutionClaim * tables :=
  match first_by before (filter (λ t, due_ready queue now t && negb (bool_decide (task_id t ∈ locked))) (map_to_list (tasks w)).*2) with
  | None => (None, w)
  | Some t =>
      match take t uuid now w with
      | None => (None, w)
      | Some (w', c) =>
          let '(w', ok) := update_task (task_id t) (λ t, bool_decide (t_status t = READY))
                             (set_task_values [TStatus RUNNING; TStarted (Some now); TUpdated now]) w' in
          if ok then (Some c, w') else (None, w)
      end
  end.

Definition claim_existing (tid : string) (statuses : list TaskStatus) (locked : gset string) (uuid : string) (now : Z) (w : tables) :
    option TaskExecutionClaim * tables :=
  match tasks w !! tid with
  | Some t =>
      if task_in (t_status t) statuses && negb (bool_decide (tid ∈ locked))
      then match take t uuid now w with Some (w', c) => (Some c, w') | None => (None, w) end
      else (None, w)
  | None => (None, w)
  end.

Definition claim_paused (tid : string) := claim_existing tid [PAUSED].

(** The task is still in the claim's hands. *)
Definition task_is_current (c : TaskExecutionClaim) (terminal : option TaskStatus) (w : tables) : bool :=
  match tasks w !! c_task_id c with
  | Some t => (t_attempt_number t =? c_attempt_number c) && task_in (t_status t) ([RUNNING; PAUSED] ++ option_list terminal)
  | None => false
  end.

Fixpoint renew_all (ls : list Lease) (now : Z) (db : gmap string lease_row) : option (gmap string lease_row * list Lease) :=
  match ls with
  | [] => Some (db, [])
  | l :: ls =>
      match Lease.renew db l now (ttl_seconds st) with
      | (db, Some l') => match renew_all ls now db with Some (db, ls') => Some (db, l' :: ls') | None => None end
      | _ => None
      end
  end.

(** [renewed[1]] is the global slot whenever the claim has one. *)
Definition renew (c : TaskExecutionClaim) (terminal : option TaskStatus) (now : Z) (w : tables) : option TaskExecutionClaim * tables :=
  if negb (task_is_current c terminal w) then (None, w) else
  match renew_all (claim_leases c) now (lease_table w) with
  | Some (db, l :: ls) =>
      (Some (Claim (c_task_id c) (c_agent_id c) (c_attempt_number c) l
               (g ← global_capacity_lease c; ls !! 0%nat) (a ← agent_capacity_lease c; ls !! 1%nat)),
       set_lease_table db w)
  | _ => (None, w)
  end.

(** Expire a lease that is still current. *)
Definition expire (l : Lease) (now : Z) (db : gmap string lease_row) : option (gmap string lease_row) :=
  if is_current_in_session db l now then Some (Lease.release db l now).1 else None.

Definition release_capacity (c : TaskExecutionClaim) (now : Z) (w : tables) : option TaskExecutionClaim * tables :=
  match global_capacity_lease c, agent_capacity_lease c with
  | Some g, Some a =>
      if negb (is_current_in_session (lease_table w) (task_lease c) now) then (None, w) else
      match db ← expire g now (lease_table w); expire a now db with
      | Some db => (Some (Claim (c_task_id c) (c_agent_id c) (c_attempt_number c) (task_lease c) None None), set_lease_table db w)
      | None => (None, w)
      end
  | _, _ => (Some c, w)
  end.

Definition reacquire_capacity (c : TaskExecutionClaim) (now : Z) (w : tables) : option TaskExecutionClaim * tables :=
  if has_capacity c then (Some c, w) else
  if negb (is_current_in_session (lease_table w) (task_lease c) now) then (None, w) else
  match acquire_slots (c_agent_id c) (owner_id (task_lease c)) now (lease_table w) with
  | Some (db, g, a) =>
      (Some (Claim (c_task_id c) (c_agent_id c) (c_attempt_number c) (task_lease c) (Some g) (Some a)), set_lease_table db w)
  | None => (None, w)
  end.

Definition release (c : TaskExecutionClaim) (now : Z) (w : tables) : tables :=
  set_lease_table (foldl (λ db l, (Lease.release db l now).1) (lease_table w) (claim_leases c)) w.

(** Whoever holds the lease of the task loses it. *)
Definition invalidate_task_lease (tid : string) (now : Z) (w : tables) : tables :=
  match lease_table w !! task_lease_key tid with
  | Some r => set_lease_table (<[task_lease_key tid :=
                LeaseRow (row_owner_id r) (row_fencing_token r) now (row_created_at r) now]> (lease_table w)) w
  | None => w
  end.
End Store.

(** ** The fence an execution carries *)

Record TaskExecutionFence := ExecutionFence {
  fenced_claim : TaskExecutionClaim;
  fence_lost : bool;
  fence_terminal : option TaskStatus;
  cancel_event : bool;
}.

Definition with_claim (c : TaskExecutionClaim) (f : TaskExecutionFence) : TaskExecutionFence :=
  ExecutionFence c (fence_lost f) (fence_terminal f) (cancel_event f).

Definition lose (f : TaskExecutionFence) : TaskExecutionFence := ExecutionFence (fenced_claim f) true (fence_terminal f) true.

Definition new_fence (c : TaskExecutionClaim) : TaskExecutionFence := ExecutionFence c false None false.

(** One round of the renewal loop; [raised] when the store fails. *)
Definition renew_round (st : execution_store) (raised : bool) (now : Z) (f : TaskExecutionFence) (w : tables) : TaskExecutionFence * tables :=
  if raised then (lose f, w) else
  match renew st (fenced_claim f) (fence_terminal f) now w with
  | (Some c, w) => (with_claim c f, w)
  | (None, w) => (lose f, w)
  end.

(** [false] raises [StaleTaskExecutionOwner]. *)
Definition assert_current (now : Z) (f : TaskExecutionFence) (w : tables) : bool * TaskExecutionFence :=
  if fence_lost f then (false, f) else
  if negb (task_is_current (fenced_claim f) (fence_terminal f) w) then (false, lose f) else
  if forallb (λ l, is_current_in_session (lease_table w) l now) (claim_leases (fenced_claim f)) then (true, f)
  else (false, lose f).

Definition mark_terminal (s : TaskStatus) (f : TaskExecutionFence) : TaskExecutionFence :=
  ExecutionFence (fenced_claim f) (fence_lost f) (Some s) (cancel_event f).

Definition suspend_capacity (now : Z) (f : TaskExecutionFence) (w : tables) : bool * TaskExecutionFence * tables :=
  match release_capacity (fenced_claim f) now w with
  | (Some c, w) => (true, with_claim c f, w)
  | (None, w) => (false, lose f, w)
  end.

(** [None] raises. *)
Definition ensure_capacity (st : execution_store) (now : Z) (f : TaskExecutionFence) (w : tables) : option bool * TaskExecutionFence * tables :=
  if has_capacity (fenced_claim f) then (Some true, f, w) else
  match reacquire_capacity st (fenced_claim f) now w with
  | (Some c, w) => (Some true, with_claim c f, w)
  | (None, w) => let '(ok, f) := assert_current now f w in ((if ok then Some false else None), f, w)
  end.

Definition close (now : Z) (f : TaskExecutionFence) (w : tables) : tables := release (fenced_claim f) now w.
