(* ===== verification/TaskExecutionSpec.v ===== *)
(** What claims guarantee in every history of every controller: never more tasks run than there
    are slots, a task has one owner, and a claim is all or nothing. *)

From S2P Require Import Prelude PyVal Lease Tables Tasks TaskExecution.

(** ** Histories *)

(** The tables, and every claim a method has returned. *)
Record cluster := Cluster { cluster_tables : tables; granted : list TaskExecutionClaim }.

(** A method names the claim it is called with by its place in [granted]; the lease table has
    other users; anything may happen to the other tables. *)
Inductive execution_op :=
| XLease (now : Z) (o : Lease.op)
| XReady (st : execution_store) (queue : string) (locked : gset string) (uuid : string) (now : Z)
| XExisting (st : execution_store) (tid : string) (statuses : list TaskStatus) (locked : gset string) (uuid : string) (now : Z)
| XRenew (st : execution_store) (i : nat) (terminal : option TaskStatus) (now : Z)
| XSuspend (i : nat) (now : Z)
| XResume (st : execution_store) (i : nat) (now : Z)
| XRelease (i : nat) (now : Z)
| XInvalidate (tid : string) (now : Z)
| XOther (f : tables → tables).

Definition grant (r : option TaskExecutionClaim * tables) (s : cluster) : cluster :=
  Cluster r.2 (granted s ++ option_list r.1).

Definition cluster_step (s : cluster) (o : execution_op) : cluster :=
  let w := cluster_tables s in
  let on i (f : TaskExecutionClaim → cluster) := match granted s !! i with Some c => f c | None => s end in
  match o with
  | XLease now o => Cluster (set_lease_table (Lease.exec (lease_table w) (now, o)) w) (granted s)
  | XReady st queue locked uuid now => grant (claim_ready st queue locked uuid now w) s
  | XExisting st tid statuses locked uuid now => grant (claim_existing st tid statuses locked uuid now w) s
  | XRenew st i terminal now => on i (λ c, grant (renew st c terminal now w) s)
  | XSuspend i now => on i (λ c, grant (release_capacity c now w) s)
  | XResume st i now => on i (λ c, grant (reacquire_capacity st c now w) s)
  | XRelease i now => on i (λ c, Cluster (release c now w) (granted s))
  | XInvalidate tid now => Cluster (invalidate_task_lease tid now w) (granted s)
  | XOther f => Cluster (set_lease_table (lease_table w) (f w)) (granted s)
  end.

(** ** What happens to the leases *)

(** [db'] comes from [db] by statements of the lease store at one time. *)
Definition lease_steps (now : Z) (db db' : gmap string lease_row) : Prop :=
  ∃ evs, Forall (λ e, e.1 = now) evs ∧ db' = run Lease.exec db evs.

Lemma steps_refl now db : lease_steps now db db.
Proof. by exists []. Qed.

Lemma steps_trans now db1 db2 db3 : lease_steps now db1 db2 → lease_steps now db2 db3 → lease_steps now db1 db3.
Proof.
  intros (e1 & H1 & ->) (e2 & H2 & ->). exists (e1 ++ e2). split; [by apply Forall_app|]. by rewrite run_app.
Qed.

Lemma steps_one now db o : lease_steps now db (Lease.exec db (now, o)).
Proof. exists [(now, o)]. split; [by constructor|done]. Qed.

Lemma steps_fence_le now db db' k : lease_steps now db db' → fence db k ≤ fence db' k.
Proof. intros (evs & _ & ->). apply run_fence_le. Qed.

#[local] Hint Resolve steps_refl : lease.

(** A lease that was just taken. *)
Definition taken (db db' : gmap string lease_row) (l : Lease) : Prop :=
  fence db (resource_key l) < fencing_token l ≤ fence db' (resource_key l).

Lemma acquired db key owner now ttl db' l :
  acquire_in_session db key owner now ttl = (db', Some l) →
  resource_key l = key ∧ owner_id l = owner ∧ taken db db' l ∧ lease_steps now db db' ∧
  (0 < ttl → is_current_in_session db' l now = true) ∧ ∀ k, k ≠ key → db' !! k = db !! k.
Proof.
  intros Ha. pose proof (minted_fence db (now, OpAcquire key owner ttl) l) as Hm. cbn in Hm. rewrite Ha in Hm.
  destruct (Hm eq_refl) as [H1 H2]. pose proof (steps_one now db (OpAcquire key owner ttl)) as Hs. cbn in Hs. rewrite Ha in Hs.
  pose proof (exec_other_key db now (OpAcquire key owner ttl)) as Ho. cbn in Ho. rewrite Ha in Ho.
  pose proof (takeover_in_session_lease db key owner now ttl) as Hl.
  pose proof (takeover_in_session_current db key owner now ttl now) as Hc.
  destruct (acquire_in_session_spec db key owner now ttl) as [[Hn _]|Ht]; [congruence|].
  destruct (takeover_in_session _ _ _ _ _) as [db2 l2]. destruct Ht as [Ht _]. rewrite Ha in Ht. injection Ht as -> ->.
  cbn in *. subst l2. split_and!; [done|done| |done| |].
  - split; [done|]. cbn in *. lia.
  - intros. apply Hc. lia.
  - intros k Hk. by apply Ho.
Qed.

Lemma capacity_acquired st keys owner now db db' l :
  _acquire_capacity st keys owner now db = (db', Some l) →
  resource_key l ∈ keys ∧ owner_id l = owner ∧ taken db db' l ∧ lease_steps now db db' ∧
  (0 < ttl_seconds st → is_current_in_session db' l now = true) ∧ ∀ k, k ∉ keys → db' !! k = db !! k.
Proof.
  induction keys as [|key keys IH]; [done|]. cbn. destruct (acquire_in_session db key owner now _) as [db1 [l1|]] eqn:Ha.
  - intros [= -> ->]. apply acquired in Ha as (Hk & Ho & Ht & Hs & Hc & Hf). split_and!; [rewrite Hk; by left|done..|].
    intros k Hk'. apply Hf. intros ->. apply Hk'. by left.
  - assert (db1 = db) as ->.
    { destruct (acquire_in_session_spec db key owner now (ttl_seconds st)) as [[Hn _]|Hn]; [congruence|].
      destruct (takeover_in_session _ _ _ _ _). destruct Hn as [Hn _]. congruence. }
    intros (Hk & Ho & Ht & Hs & Hc & Hf)%IH. split_and!; [by right|done..|].
    intros k [_ Hk']%not_elem_of_cons. by apply Hf.
Qed.

Lemma global_keys_spec st k : k ∈ global_keys st → ∃ i, k = global_capacity_key i ∧ (i < max_active_global st)%nat.
Proof. intros (i & -> & Hi%elem_of_seq)%list_elem_of_fmap. exists i. split; [done|lia]. Qed.

Lemma agent_keys_spec st agent k : k ∈ agent_keys st agent → ∃ i, k = agent_capacity_key agent i ∧ (i < max_active_per_agent st)%nat.
Proof. intros (i & -> & Hi%elem_of_seq)%list_elem_of_fmap. exists i. split; [done|lia]. Qed.

Lemma global_not_agent st agent k : k ∈ global_keys st → k ∉ agent_keys st agent.
Proof. intros (i & -> & _)%global_keys_spec (j & Hj & _)%agent_keys_spec. done. Qed.

Lemma task_not_slot st agent tid : task_lease_key tid ∉ global_keys st ∧ task_lease_key tid ∉ agent_keys st agent.
Proof. split; [intros (i & Hi & _)%global_keys_spec|intros (i & Hi & _)%agent_keys_spec]; done. Qed.

Lemma current_elsewhere db db' l now :
  db' !! resource_key l = db !! resource_key l → is_current_in_session db' l now = is_current_in_session db l now.
Proof. intros H. unfold is_current_in_session. by rewrite H. Qed.

Lemma taken_more now db1 db2 db3 db4 l :
  lease_steps now db1 db2 → taken db2 db3 l → lease_steps now db3 db4 → taken db1 db4 l.
Proof.
  intros H1 [H2 H3] H4. pose proof (steps_fence_le _ _ _ (resource_key l) H1). pose proof (steps_fence_le _ _ _ (resource_key l) H4).
  split; lia.
Qed.

Lemma slots_acquired st agent owner now db db' g a :
  acquire_slots st agent owner now db = Some (db', g, a) →
  (resource_key g ∈ global_keys st ∧ resource_key a ∈ agent_keys st agent) ∧ (owner_id g = owner ∧ owner_id a = owner) ∧
  (taken db db' g ∧ taken db db' a) ∧ lease_steps now db db' ∧
  (0 < ttl_seconds st → is_current_in_session db' g now = true ∧ is_current_in_session db' a now = true) ∧
  ∀ k, k ∉ global_keys st → k ∉ agent_keys st agent → db' !! k = db !! k.
Proof.
  unfold acquire_slots. destruct (_acquire_capacity st (global_keys st) owner now db) as [db1 [g1|]] eqn:Hg; [|done].
  destruct (_acquire_capacity st (agent_keys st agent) owner now db1) as [db2 [a1|]] eqn:Ha; [|done]. intros [= -> -> ->].
  apply capacity_acquired in Hg as (Hgk & Hgo & Hgt & Hgs & Hgc & Hgf), Ha as (Hak & Hao & Hat & Has & Hac & Haf).
  split_and!; [done..| | |by eapply steps_trans| |].
  - by apply (taken_more now db db db1 db' g); [apply steps_refl| |].
  - by apply (taken_more now db db1 db' db' a); [| |apply steps_refl].
  - intros Httl. split; [|by apply Hac]. rewrite (current_elsewhere db1 db'); [by apply Hgc|]. apply Haf, (global_not_agent st agent _ Hgk).
  - intros k H1 H2. by rewrite Haf, Hgf.
Qed.

(** What a new claim is. *)
Lemma take_spec st t uuid now w w' c :
  take st t uuid now w = Some (w', c) →
  w' = set_lease_table (lease_table w') w ∧ lease_steps now (lease_table w) (lease_table w') ∧
  c_task_id c = task_id t ∧ c_agent_id c = t_agent_id t ∧
  c_attempt_number c = (if t_attempt_number t =? 0 then 1 else t_attempt_number t) ∧
  (resource_key (task_lease c) = task_lease_key (task_id t) ∧ taken (lease_table w) (lease_table w') (task_lease c)) ∧
  (∃ g a, global_capacity_lease c = Some g ∧ agent_capacity_lease c = Some a ∧
     resource_key g ∈ global_keys st ∧ resource_key a ∈ agent_keys st (t_agent_id t) ∧
     taken (lease_table w) (lease_table w') g ∧ taken (lease_table w) (lease_table w') a) ∧
  (0 < ttl_seconds st → forallb (λ l, is_current_in_session (lease_table w') l now) (claim_leases c) = true).
Proof.
  unfold take. destruct (acquire_in_session (lease_table w) _ _ _ _) as [db [l|]] eqn:Ht; [|done].
  destruct (acquire_slots st _ _ now db) as [[[db' g] a]|] eqn:Hs; [|done]. intros [= <- <-].
  apply acquired in Ht as (Htk & _ & Htt & Hts & Htc & _).
  apply slots_acquired in Hs as ((Hgk & Hak) & _ & (Hgt & Hat) & Hss & Hsc & Hf). cbn.
  split_and!; [done|by eapply steps_trans|done..|eapply taken_more; [apply steps_refl|exact Htt|exact Hss]| |].
  - exists g, a. split_and!; try done; by (eapply taken_more; [exact Hts|done|apply steps_refl]).
  - intros Httl. destruct (Hsc Httl) as [-> ->]. destruct (task_not_slot st (t_agent_id t) (task_id t)) as [H1 H2].
    rewrite (current_elsewhere db db' l), Htc by (try done; rewrite Htk; by apply Hf). done.
Qed.

(** ** Slots *)

(** A slot was given out for one task per fence. *)
Definition slots_ok (slot : TaskExecutionClaim → option Lease) (s : cluster) : Prop :=
  (∀ c g, c ∈ granted s → slot c = Some g → fencing_token g ≤ fence (lease_table (cluster_tables s)) (resource_key g)) ∧
  (∀ c1 c2 g1 g2, c1 ∈ granted s → c2 ∈ granted s → slot c1 = Some g1 → slot c2 = Some g2 →
     resource_key g1 = resource_key g2 → fencing_token g1 = fencing_token g2 → c_task_id c1 = c_task_id c2).

Lemma slots_grow slot s w' :
  slots_ok slot s → (∀ k, fence (lease_table (cluster_tables s)) k ≤ fence (lease_table w') k) →
  slots_ok slot (Cluster w' (granted s)).
Proof.
  intros [H1 H2] Hle. split; [|done]. cbn. intros c g Hc Hg. etrans; [by eapply H1|apply Hle].
Qed.

Lemma slots_fresh slot s w' c :
  slots_ok slot s → (∀ k, fence (lease_table (cluster_tables s)) k ≤ fence (lease_table w') k) →
  (∀ g, slot c = Some g → taken (lease_table (cluster_tables s)) (lease_table w') g) →
  slots_ok slot (Cluster w' (granted s ++ [c])).
Proof.
  intros [H1 H2] Hle Hc. split; cbn.
  - intros c' g [Hin| ->%list_elem_of_singleton]%elem_of_app Hg; [|by apply Hc]. etrans; [by eapply H1|apply Hle].
  - intros c1 c2 g1 g2 [Hi1| ->%list_elem_of_singleton]%elem_of_app [Hi2| ->%list_elem_of_singleton]%elem_of_app Hs1 Hs2 Hk Hf; [eauto| | |done].
    + pose proof (H1 c1 g1 Hi1 Hs1). destruct (Hc g2 Hs2). rewrite Hk in *. lia.
    + pose proof (H1 c2 g2 Hi2 Hs2). destruct (Hc g1 Hs1). rewrite Hk in *. lia.
Qed.

(** A claim that keeps the slots of an earlier one. *)
Lemma slots_kept slot s w' c0 c :
  slots_ok slot s → (∀ k, fence (lease_table (cluster_tables s)) k ≤ fence (lease_table w') k) →
  c0 ∈ granted s → c_task_id c = c_task_id c0 →
  (∀ g, slot c = Some g → ∃ g0, slot c0 = Some g0 ∧ resource_key g = resource_key g0 ∧ fencing_token g = fencing_token g0) →
  slots_ok slot (Cluster w' (granted s ++ [c])).
Proof.
  intros [H1 H2] Hle Hin Htid Hc. split; cbn.
  - intros c' g [Hi| ->%list_elem_of_singleton]%elem_of_app Hg; [etrans; [by eapply H1|apply Hle]|].
    destruct (Hc g Hg) as (g0 & Hg0 & -> & ->). etrans; [by eapply H1|apply Hle].
  - intros c1 c2 g1 g2 [Hi1| ->%list_elem_of_singleton]%elem_of_app [Hi2| ->%list_elem_of_singleton]%elem_of_app Hs1 Hs2 Hk Hf; [eauto| | |done].
    + destruct (Hc g2 Hs2) as (g0 & Hg0 & ? & ?). rewrite Htid. apply (H2 c1 c0 g1 g0); congruence.
    + destruct (Hc g1 Hs1) as (g0 & Hg0 & ? & ?). rewrite Htid. symmetry. apply (H2 c2 c0 g2 g0); congruence.
Qed.

(** ** The methods *)

Lemma update_task_leases tid p f w : lease_table (update_task tid p f w).1 = lease_table w.
Proof. unfold update_task. by repeat case_match. Qed.

Lemma elem_of_tasks w t : t ∈ (map_to_list (tasks w)).*2 → ∃ tid, tasks w !! tid = Some t.
Proof. intros ([tid t'] & -> & H%elem_of_map_to_list)%list_elem_of_fmap. by exists tid. Qed.

Lemma claim_ready_cases st queue locked uuid now w r w' :
  claim_ready st queue locked uuid now w = (r, w') →
  r = None ∧ w' = w ∨
  ∃ c t w1, r = Some c ∧ take st t uuid now w = Some (w1, c) ∧ lease_table w' = lease_table w1 ∧
    t ∈ (map_to_list (tasks w)).*2 ∧ due_ready queue now t = true ∧ task_id t ∉ locked ∧
    update_task (task_id t) (λ t, bool_decide (t_status t = READY))
      (set_task_values [TStatus RUNNING; TStarted (Some now); TUpdated now]) w1 = (w', true).
Proof.
  unfold claim_ready. destruct (first_by _ _) as [t|] eqn:Hf; [|intros [= <- <-]; by left].
  destruct (take st t uuid now w) as [[w1 c]|] eqn:Ht; [|intros [= <- <-]; by left].
  destruct (update_task _ _ _ w1) as [w2 ok] eqn:Hu. destruct ok; intros [= <- <-]; [|by left]. right.
  pose proof (update_task_leases (task_id t) (λ t, bool_decide (t_status t = READY))
    (set_task_values [TStatus RUNNING; TStarted (Some now); TUpdated now]) w1) as Hl. rewrite Hu in Hl. cbn in Hl.
  apply first_by_elem, list_elem_of_filter in Hf as [Hd Hin]. apply Is_true_true_1 in Hd. bool_facts.
  exists c, t, w1. by split_and!.
Qed.

Lemma claim_existing_cases st tid statuses locked uuid now w r w' :
  claim_existing st tid statuses locked uuid now w = (r, w') →
  r = None ∧ w' = w ∨
  ∃ c t, r = Some c ∧ take st t uuid now w = Some (w', c) ∧ tasks w !! tid = Some t ∧ t_status t ∈ statuses ∧ tid ∉ locked.
Proof.
  unfold claim_existing. destruct (tasks w !! tid) as [t|] eqn:Ht; [|intros [= <- <-]; by left].
  destruct (task_in (t_status t) statuses && negb (bool_decide (tid ∈ locked))) eqn:Hg; [|intros [= <- <-]; by left].
  destruct (take st t uuid now w) as [[w1 c]|] eqn:Hk; intros [= <- <-]; [right|by left].
  unfold task_in in Hg. bool_facts. exists c, t. by split_and!.
Qed.

Definition same_slot (l l' : Lease) : Prop :=
  resource_key l' = resource_key l ∧ owner_id l' = owner_id l ∧ fencing_token l' = fencing_token l.

Lemma renew_all_spec st ls now db db' ls' :
  renew_all st ls now db = Some (db', ls') → lease_steps now db db' ∧ Forall2 same_slot ls ls'.
Proof.
  revert db db' ls'. induction ls as [|l ls IH]; intros db db' ls'; cbn; [intros [= <- <-]; split; [apply steps_refl|done]|].
  destruct (Lease.renew db l now (ttl_seconds st)) as [db1 [l1|]] eqn:Hr; [|done].
  destruct (renew_all st ls now db1) as [[db2 ls2]|] eqn:Hrs; [|done]. intros [= <- <-].
  apply IH in Hrs as [Hs Hf]. pose proof (steps_one now db (OpRenew l (ttl_seconds st))) as H1. cbn in H1. rewrite Hr in H1.
  destruct (renewed db l l1 now (ttl_seconds st)) as [-> _]; [by rewrite Hr|]. split; [by eapply steps_trans|]. by constructor.
Qed.

(** Only [invalidate_task_lease] touches the table behind the back of the lease store. *)
Lemma renew_cases st c terminal now w r w' :
  renew st c terminal now w = (r, w') →
  r = None ∧ w' = w ∨
  ∃ c', r = Some c' ∧ lease_steps now (lease_table w) (lease_table w') ∧ tasks w' = tasks w ∧
    c_task_id c' = c_task_id c ∧ c_agent_id c' = c_agent_id c ∧ same_slot (task_lease c) (task_lease c') ∧
    (∀ g, global_capacity_lease c' = Some g → ∃ g0, global_capacity_lease c = Some g0 ∧ same_slot g0 g) ∧
    (∀ a, agent_capacity_lease c' = Some a → ∃ a0, agent_capacity_lease c = Some a0 ∧ same_slot a0 a).
Proof.
  unfold renew. destruct (negb _); [intros [= <- <-]; by left|].
  destruct (renew_all st (claim_leases c) now (lease_table w)) as [[db [|l ls]]|] eqn:Hr; [intros [= <- <-]; by left| |intros [= <- <-]; by left].
  intros [= <- <-]. right. apply renew_all_spec in Hr as [Hs Hf]. eexists. split_and!; [done..| | |]; cbn.
  - by inversion Hf.
  - destruct c as [? ? ? t [g|] [a|]]; cbn in *; inversion Hf as [|? ? ? ? _ Hf']; subst; [inversion Hf'; subst; cbn; intros ? [= <-]; eauto..|done|done].
  - destruct c as [? ? ? t [g|] [a|]]; cbn in *; inversion Hf as [|? ? ? ? _ Hf']; subst; [|done| |done].
    + inversion Hf' as [|? ? ? ? _ Hf'']; subst. inversion Hf''; subst. cbn. intros ? [= <-]. eauto.
    + inversion Hf' as [|? ? ? ? _ Hf'']; subst. inversion Hf''; subst. done.
Qed.

Lemma expire_steps l now db db' : expire l now db = Some db' → lease_steps now db db'.
Proof. unfold expire. case_match; [|done]. intros [= <-]. apply (steps_one now db (OpRelease l)). Qed.

Lemma release_capacity_cases c now w r w' :
  release_capacity c now w = (r, w') →
  r = None ∧ w' = w ∨
  ∃ c', r = Some c' ∧ lease_steps now (lease_table w) (lease_table w') ∧ tasks w' = tasks w ∧
    c_task_id c' = c_task_id c ∧ c_agent_id c' = c_agent_id c ∧ task_lease c' = task_lease c ∧
    (c' = c ∨ global_capacity_lease c' = None ∧ agent_capacity_lease c' = None).
Proof.
  unfold release_capacity. destruct (global_capacity_lease c) as [g|] eqn:Hg, (agent_capacity_lease c) as [a|] eqn:Ha;
    try (intros [= <- <-]; right; exists c; split_and!; auto using steps_refl).
  destruct (negb _); [intros [= <- <-]; by left|].
  destruct (expire g now (lease_table w)) as [db1|] eqn:H1; cbn; [|intros [= <- <-]; by left].
  destruct (expire a now db1) as [db2|] eqn:H2; cbn; intros [= <- <-]; [right|by left]. eexists.
  split_and!; [done|cbn; by eapply steps_trans; eapply expire_steps|by auto..].
Qed.

Lemma reacquire_capacity_cases st c now w r w' :
  reacquire_capacity st c now w = (r, w') →
  r = None ∧ w' = w ∨ r = Some c ∧ w' = w ∨
  ∃ c' g a, r = Some c' ∧ lease_steps now (lease_table w) (lease_table w') ∧ tasks w' = tasks w ∧
    c_task_id c' = c_task_id c ∧ c_agent_id c' = c_agent_id c ∧ task_lease c' = task_lease c ∧
    global_capacity_lease c' = Some g ∧ agent_capacity_lease c' = Some a ∧
    resource_key g ∈ global_keys st ∧ resource_key a ∈ agent_keys st (c_agent_id c) ∧
    taken (lease_table w) (lease_table w') g ∧ taken (lease_table w) (lease_table w') a.
Proof.
  unfold reacquire_capacity. destruct (has_capacity c); [intros [= <- <-]; by right; left|].
  destruct (negb _); [intros [= <- <-]; by left|].
  destruct (acquire_slots st _ _ now (lease_table w)) as [[[db g] a]|] eqn:Hs; intros [= <- <-]; [right; right|by left].
  apply slots_acquired in Hs as ((Hgk & Hak) & _ & (Hgt & Hat) & Hss & _). eexists _, g, a. by split_and!.
Qed.

Lemma releases_steps ls now db : lease_steps now db (foldl (λ db l, (Lease.release db l now).1) db ls).
Proof.
  revert db. induction ls as [|l ls IH]; intros db; [apply steps_refl|].
  cbn. eapply steps_trans; [apply (steps_one now db (OpRelease l))|apply IH].
Qed.

Lemma release_steps c now w : lease_steps now (lease_table w) (lease_table (release c now w)).
Proof. apply releases_steps. Qed.

Lemma invalidate_fence tid now w k : fence (lease_table (invalidate_task_lease tid now w)) k = fence (lease_table w) k.
Proof.
  unfold invalidate_task_lease. destruct (lease_table w !! task_lease_key tid) as [r|] eqn:Hr; [|done]. unfold fence. cbn.
  destruct (decide (k = task_lease_key tid)) as [->|]; by simplify_map_eq.
Qed.

(** ** The invariant *)

(** What the names of a claim's leases say, where no store has more slots than these. *)
Definition names_ok (most per_agent : nat) (c : TaskExecutionClaim) : Prop :=
  resource_key (task_lease c) = task_lease_key (c_task_id c) ∧
  (∀ g, global_capacity_lease c = Some g → ∃ i, resource_key g = global_capacity_key i ∧ (i < most)%nat) ∧
  (∀ a, agent_capacity_lease c = Some a → ∃ i, resource_key a = agent_capacity_key (c_agent_id c) i ∧ (i < per_agent)%nat).

Definition execution_ok (most per_agent : nat) (s : cluster) : Prop :=
  slots_ok global_capacity_lease s ∧ slots_ok agent_capacity_lease s ∧ ∀ c, c ∈ granted s → names_ok most per_agent c.

Definition within (most per_agent : nat) (st : execution_store) : Prop :=
  (max_active_global st ≤ most)%nat ∧ (max_active_per_agent st ≤ per_agent)%nat.

Definition op_within (most per_agent : nat) (o : execution_op) : Prop :=
  match o with
  | XReady st _ _ _ _ | XExisting st _ _ _ _ _ | XRenew st _ _ _ | XResume st _ _ => within most per_agent st
  | _ => True
  end.

Lemma ok_grow most per_agent s w' :
  execution_ok most per_agent s → (∀ k, fence (lease_table (cluster_tables s)) k ≤ fence (lease_table w') k) →
  execution_ok most per_agent (Cluster w' (granted s)).
Proof. intros (H1 & H2 & H3) Hle. split_and!; [by apply slots_grow..|done]. Qed.

(** New slots, or those of an earlier claim on the same task. *)
Lemma ok_fresh most per_agent s w' c :
  execution_ok most per_agent s → (∀ k, fence (lease_table (cluster_tables s)) k ≤ fence (lease_table w') k) →
  names_ok most per_agent c →
  (∀ g, global_capacity_lease c = Some g → taken (lease_table (cluster_tables s)) (lease_table w') g) →
  (∀ a, agent_capacity_lease c = Some a → taken (lease_table (cluster_tables s)) (lease_table w') a) →
  execution_ok most per_agent (Cluster w' (granted s ++ [c])).
Proof.
  intros (H1 & H2 & H3) Hle Hn Hg Ha. split_and!; [by apply slots_fresh..|].
  intros c' [Hc| ->%list_elem_of_singleton]%elem_of_app; auto.
Qed.

Lemma ok_kept most per_agent s w' c0 c :
  execution_ok most per_agent s → (∀ k, fence (lease_table (cluster_tables s)) k ≤ fence (lease_table w') k) →
  c0 ∈ granted s → c_task_id c = c_task_id c0 → c_agent_id c = c_agent_id c0 → same_slot (task_lease c0) (task_lease c) →
  (∀ g, global_capacity_lease c = Some g → ∃ g0, global_capacity_lease c0 = Some g0 ∧ same_slot g0 g) →
  (∀ a, agent_capacity_lease c = Some a → ∃ a0, agent_capacity_lease c0 = Some a0 ∧ same_slot a0 a) →
  execution_ok most per_agent (Cluster w' (granted s ++ [c])).
Proof.
  intros (H1 & H2 & H3) Hle Hc0 Ht Ha (Hk & _ & _) Hgs Has. split_and!.
  - apply (slots_kept _ s w' c0); try done. intros g (g0 & ? & ? & _ & ?)%Hgs. eauto.
  - apply (slots_kept _ s w' c0); try done. intros a (a0 & ? & ? & _ & ?)%Has. eauto.
  - intros c' [Hc| ->%list_elem_of_singleton]%elem_of_app; [auto|]. destruct (H3 c0 Hc0) as (N1 & N2 & N3).
    split_and!; [by rewrite Hk, Ht| |].
    + intros g (g0 & Hg0 & -> & _)%Hgs. by apply N2.
    + intros a (a0 & Ha0 & -> & _)%Has. rewrite Ha. by apply N3.
Qed.

Lemma within_global most per_agent st k :
  within most per_agent st → k ∈ global_keys st → ∃ i, k = global_capacity_key i ∧ (i < most)%nat.
Proof. intros [H1 _] (i & -> & Hi)%global_keys_spec. exists i. split; [done|lia]. Qed.

Lemma within_agent most per_agent st agent k :
  within most per_agent st → k ∈ agent_keys st agent → ∃ i, k = agent_capacity_key agent i ∧ (i < per_agent)%nat.
Proof. intros [_ H2] (i & -> & Hi)%agent_keys_spec. exists i. split; [done|lia]. Qed.

Lemma ok_taken most per_agent s st t uuid now w1 w' c :
  execution_ok most per_agent s → within most per_agent st → take st t uuid now (cluster_tables s) = Some (w1, c) →
  lease_table w' = lease_table w1 → execution_ok most per_agent (Cluster w' (granted s ++ [c])).
Proof.
  intros Hok Hst (_ & Hs & Ht & Ha & _ & [Hk _] & (g & a & Hg & Hca & Hgk & Hak & Hgt & Hat) & _)%take_spec Hw.
  apply ok_fresh; rewrite ?Hw; [done|intros; by eapply steps_fence_le| | |]; rewrite ?Hg, ?Hca.
  - split_and!; [by rewrite Hk, Ht| |]; rewrite ?Hg, ?Hca; intros ? [= <-]; [by eapply within_global|rewrite Ha; by eapply within_agent].
  - by intros ? [= <-].
  - by intros ? [= <-].
Qed.

Lemma ok_nothing most per_agent s : execution_ok most per_agent s → execution_ok most per_agent (Cluster (cluster_tables s) (granted s ++ [])).
Proof. rewrite app_nil_r. by destruct s. Qed.

Lemma execution_step most per_agent s o :
  op_within most per_agent o → execution_ok most per_agent s → execution_ok most per_agent (cluster_step s o).
Proof.
  intros Ho Hok. destruct o as [now o|st queue locked uuid now|st tid ss locked uuid now|st i terminal now|i now|st i now|i now|tid now|f];
    cbn [cluster_step].
  - apply ok_grow; [done|]. intros k. apply exec_fence_le.
  - unfold grant. destruct (claim_ready _ _ _ _ _ _) as [r w'] eqn:Hc. cbn.
    apply claim_ready_cases in Hc as [[-> ->]|(c & t & w1 & -> & Ht & Hl & _)]; [by apply ok_nothing|]. by eapply ok_taken.
  - unfold grant. destruct (claim_existing _ _ _ _ _ _ _) as [r w'] eqn:Hc. cbn.
    apply claim_existing_cases in Hc as [[-> ->]|(c & t & -> & Ht & _)]; [by apply ok_nothing|]. by eapply ok_taken.
  - destruct (granted s !! i) as [c|] eqn:Hi; [|done]. apply list_elem_of_lookup_2 in Hi. unfold grant.
    destruct (renew _ _ _ _ _) as [r w'] eqn:Hr. cbn.
    apply renew_cases in Hr as [[-> ->]|(c' & -> & Hs & _ & Ht & Ha & Hk & Hg & Hca)]; [by apply ok_nothing|].
    eapply ok_kept; try done. intros k. by eapply steps_fence_le.
  - destruct (granted s !! i) as [c|] eqn:Hi; [|done]. apply list_elem_of_lookup_2 in Hi. unfold grant.
    destruct (release_capacity _ _ _) as [r w'] eqn:Hr. cbn.
    apply release_capacity_cases in Hr as [[-> ->]|(c' & -> & Hs & _ & Ht & Ha & Hk & Hn)]; [by apply ok_nothing|].
    eapply ok_kept; [done|intros; by eapply steps_fence_le|exact Hi|done|done|by rewrite Hk|..];
      (destruct Hn as [->|[Hn1 Hn2]]; [intros l Hl; by exists l|by rewrite ?Hn1, ?Hn2]).
  - destruct (granted s !! i) as [c|] eqn:Hi; [|done]. apply list_elem_of_lookup_2 in Hi. unfold grant.
    destruct (reacquire_capacity _ _ _ _) as [r w'] eqn:Hr. cbn.
    apply reacquire_capacity_cases in Hr as [[-> ->]|[[-> ->]|(c' & g & a & -> & Hs & _ & Ht & Ha & Hk & Hg & Hca & Hgk & Hak & Hgt & Hat)]];
      [by apply ok_nothing| |].
    + eapply ok_kept; try done; intros l Hl; by exists l.
    + destruct Hok as (H1 & H2 & H3). destruct (H3 c Hi) as (N1 & _).
      apply ok_fresh; [done|intros; by eapply steps_fence_le| |rewrite Hg; by intros ? [= <-]|rewrite Hca; by intros ? [= <-]].
      split_and!; rewrite ?Hk, ?Ht, ?Ha, ?Hg, ?Hca; [done|intros ? [= <-]; by eapply within_global|intros ? [= <-]; by eapply within_agent].
  - destruct (granted s !! i) as [c|]; [|done]. apply ok_grow; [done|]. intros k. eapply steps_fence_le, release_steps.
  - apply ok_grow; [done|]. intros k. by rewrite invalidate_fence.
  - by apply ok_grow.
Qed.

(** ** Counting *)

(** The fence of the claim would let it act now. *)
Definition acts (w : tables) (now : Z) (c : TaskExecutionClaim) : Prop :=
  has_capacity c = true ∧ (assert_current now (new_fence c) w).1 = true.

Lemma acts_current w now c : acts w now c → ∀ l, l ∈ claim_leases c → is_current_in_session (lease_table w) l now = true.
Proof.
  unfold acts, assert_current. cbn -[claim_leases]. intros [_ H] l Hl. destruct (task_is_current _ _ _); cbn -[claim_leases] in H; [|done].
  destruct (forallb _ _) eqn:Hf; [|done]. rewrite forallb_forall in Hf. apply Hf. by apply list_elem_of_In.
Qed.

Lemma acts_global w now c :
  acts w now c → ∃ g, global_capacity_lease c = Some g ∧ is_current_in_session (lease_table w) g now = true.
Proof.
  intros Ha. pose proof (acts_current w now c Ha) as Hc. destruct Ha as [Hcap _]. unfold has_capacity, claim_leases in *.
  destruct (global_capacity_lease c) as [g|]; [|done]. exists g. split; [done|]. apply Hc. right. by left.
Qed.

Lemma acts_agent w now c :
  acts w now c → ∃ a, agent_capacity_lease c = Some a ∧ is_current_in_session (lease_table w) a now = true.
Proof.
  intros Ha. pose proof (acts_current w now c Ha) as Hc. destruct Ha as [Hcap _]. unfold has_capacity, claim_leases in *.
  destruct (global_capacity_lease c) as [g|], (agent_capacity_lease c) as [a|]; try done. exists a. split; [done|]. apply Hc. right. right. by left.
Qed.

(** Claims on different tasks that hold current slots hold different ones. *)
Lemma slots_differ slot s now c1 c2 g1 g2 :
  slots_ok slot s → c1 ∈ granted s → c2 ∈ granted s → slot c1 = Some g1 → slot c2 = Some g2 →
  is_current_in_session (lease_table (cluster_tables s)) g1 now = true →
  is_current_in_session (lease_table (cluster_tables s)) g2 now = true →
  resource_key g1 = resource_key g2 → c_task_id c1 = c_task_id c2.
Proof.
  intros [_ H] Hc1 Hc2 Hs1 Hs2 H1%current_fence H2%current_fence Hk. apply (H c1 c2 g1 g2); try done. by rewrite H1, H2, Hk.
Qed.

(** As many names as claims, among as many as there are slots. *)
Lemma count_slots (key : nat → string) (name : TaskExecutionClaim → option string) (cs : list TaskExecutionClaim) n :
  NoDup (c_task_id <$> cs) →
  (∀ c, c ∈ cs → ∃ i, name c = Some (key i) ∧ (i < n)%nat) →
  (∀ c1 c2, c1 ∈ cs → c2 ∈ cs → name c1 = name c2 → c_task_id c1 = c_task_id c2) →
  (length cs ≤ n)%nat.
Proof.
  intros Hnd Hname Hinj. cut (length (name <$> cs) ≤ length ((λ i, Some (key i)) <$> seq 0 n))%nat; [by rewrite !length_fmap, length_seq|].
  apply submseteq_length, NoDup_submseteq.
  - apply NoDup_fmap_2_strong; [|by eapply NoDup_fmap_1]. intros c1 c2 H1 H2 Hn. pose proof (Hinj c1 c2 H1 H2 Hn) as Ht.
    apply list_elem_of_lookup in H1 as [i Hi]. apply list_elem_of_lookup in H2 as [j Hj].
    assert (i = j) as <-; [|congruence]. eapply (NoDup_lookup _ _ _ (c_task_id c1) Hnd); rewrite list_lookup_fmap; [by rewrite Hi|by rewrite Hj, Ht].
  - intros x (c & -> & Hc)%list_elem_of_fmap. destruct (Hname c Hc) as (i & -> & Hi).
    apply list_elem_of_fmap. exists i. split; [done|]. apply elem_of_seq. lia.
Qed.


(** ** Claims that were ended *)

Definition op_time (o : execution_op) : option Z :=
  match o with
  | XLease now _ | XReady _ _ _ _ now | XExisting _ _ _ _ _ now | XRenew _ _ _ now | XSuspend _ now | XResume _ _ now
  | XRelease _ now | XInvalidate _ now => Some now
  | XOther _ => None
  end.

(** The readings of the database clock never go back; the last is not after [e]. *)
Fixpoint clock_runs (t : Z) (ops : list execution_op) (e : Z) : Prop :=
  match ops with
  | [] => t ≤ e
  | o :: ops => match op_time o with Some now => t ≤ now ∧ clock_runs now ops e | None => clock_runs t ops e end
  end.

Definition ended (l : Lease) (t : Z) (db : gmap string lease_row) : Prop :=
  fencing_token l ≤ fence db (resource_key l) ∧ is_current_in_session db l t = false.

Lemma ended_later l t t' db : t ≤ t' → ended l t db → ended l t' db.
Proof.
  intros Ht [H1 H2]. split; [done|]. apply not_true_iff_false. intros H. apply (current_antitone db l t' t Ht) in H. congruence.
Qed.

Lemma ended_exec l t db o : ended l t db → ended l t (Lease.exec db (t, o)).
Proof.
  intros [Hle Hc]. pose proof (exec_fence_le db (t, o) (resource_key l)). split; [lia|].
  apply not_true_iff_false. intros Hcur. pose proof (current_fence _ _ _ Hcur) as Hf.
  apply current_spec in Hcur as (r & Hr & Ho & Hfr & He).
  destruct (decide (match o with OpAcquire k _ _ | OpTakeover k _ _ | OpRevoke k => k
                    | OpRenew l _ | OpRelease l => resource_key l end = resource_key l)) as [Hk|Hk].
  2: { rewrite exec_other_key in Hr by done. apply not_true_iff_false in Hc. apply Hc, current_spec. eauto. }
  destruct o as [key owner ttl|key owner ttl|l2 ttl|l2|key]; cbn [Lease.exec] in *; subst.
  - destruct (acquire_in_session_spec db (resource_key l) owner t ttl) as [[Hn _]|Hn].
    + rewrite Hn in Hr. apply not_true_iff_false in Hc. apply Hc, current_spec. eauto.
    + pose proof (takeover_in_session_fence db (resource_key l) owner t ttl (resource_key l)) as Hf2.
      destruct (takeover_in_session _ _ _ _ _) as [db' l']. destruct Hn as [Hn _]. rewrite Hn in *. cbn in *.
      rewrite decide_True in Hf2 by done. lia.
  - rewrite takeover_in_session_fence, decide_True in Hf by done. lia.
  - unfold Lease.renew in Hr. destruct (db !! resource_key l2) as [r0|] eqn:H0; [|cbn in Hr; congruence].
    destruct (row_matches r0 l2 && (t <? row_lease_expires_at r0)) eqn:Hm; cbn in Hr.
    + rewrite <- Hk, lookup_insert_eq in Hr. injection Hr as <-. cbn in *. bool_facts. apply not_true_iff_false in Hc. apply Hc, current_spec.
      exists r0. rewrite <- Hk. split_and!; try done.
    + apply not_true_iff_false in Hc. apply Hc, current_spec. eauto.
  - unfold Lease.release in Hr. destruct (db !! resource_key l2) as [r0|] eqn:H0; [|cbn in Hr; congruence].
    destruct (row_matches r0 l2) eqn:Hm; cbn in Hr.
    + rewrite <- Hk, lookup_insert_eq in Hr. injection Hr as <-. cbn in *. lia.
    + apply not_true_iff_false in Hc. apply Hc, current_spec. eauto.
  - unfold Lease.revoke in Hr, Hf. destruct (db !! resource_key l) as [r0|] eqn:H0; cbn in Hr; [|congruence].
    rewrite lookup_insert_eq in Hr. injection Hr as <-. unfold fence in Hle. rewrite H0 in Hle. cbn in *. lia.
Qed.

Lemma ended_steps l t db db' : lease_steps t db db' → ended l t db → ended l t db'.
Proof.
  intros (evs & Hevs & ->) He. apply (run_invariant_when Lease.exec (ended l t) (λ e, e.1 = t)); [done|done|].
  intros db0 [now o] H. cbn in H. subst now. apply ended_exec.
Qed.

Notation cluster_leases s := (lease_table (cluster_tables s)).

Lemma step_leases s o now :
  op_time o = Some now → (∀ tid, o ≠ XInvalidate tid now) → lease_steps now (cluster_leases s) (cluster_leases (cluster_step s o)).
Proof.
  intros Ht Hi. destruct o as [n o|st queue locked uuid n|st tid ss locked uuid n|st i terminal n|i n|st i n|i n|tid n|f];
    cbn in Ht; try injection Ht as ->; cbn [cluster_step]; unfold grant; try done.
  - apply steps_one.
  - destruct (claim_ready _ _ _ _ _ _) as [r w'] eqn:Hc. cbn.
    apply claim_ready_cases in Hc as [[_ ->]|(c & t & w1 & _ & (_ & Hs & _)%take_spec & -> & _)]; [apply steps_refl|done].
  - destruct (claim_existing _ _ _ _ _ _ _) as [r w'] eqn:Hc. cbn.
    apply claim_existing_cases in Hc as [[_ ->]|(c & t & _ & (_ & Hs & _)%take_spec & _)]; [apply steps_refl|done].
  - destruct (granted s !! i) as [c|]; [|apply steps_refl]. destruct (renew _ _ _ _ _) as [r w'] eqn:Hr. cbn.
    apply renew_cases in Hr as [[_ ->]|(c' & _ & Hs & _)]; [apply steps_refl|done].
  - destruct (granted s !! i) as [c|]; [|apply steps_refl]. destruct (release_capacity _ _ _) as [r w'] eqn:Hr. cbn.
    apply release_capacity_cases in Hr as [[_ ->]|(c' & _ & Hs & _)]; [apply steps_refl|done].
  - destruct (granted s !! i) as [c|]; [|apply steps_refl]. destruct (reacquire_capacity _ _ _ _) as [r w'] eqn:Hr. cbn.
    apply reacquire_capacity_cases in Hr as [[_ ->]|[[_ ->]|(c' & g & a & _ & Hs & _)]]; [apply steps_refl..|done].
  - destruct (granted s !! i) as [c|]; [|apply steps_refl]. apply release_steps.
  - by destruct (Hi tid).
Qed.

Lemma ended_invalidate l tid t w :
  ended l t (lease_table w) ∨ fencing_token l ≤ fence (lease_table w) (resource_key l) ∧ resource_key l = task_lease_key tid →
  ended l t (lease_table (invalidate_task_lease tid t w)).
Proof.
  intros Hl. assert (fencing_token l ≤ fence (lease_table w) (resource_key l)) as Hle by (destruct Hl as [[? _]|[? _]]; done).
  split; [by rewrite invalidate_fence|]. unfold invalidate_task_lease, is_current_in_session in *.
  destruct (decide (resource_key l = task_lease_key tid)) as [Hk|Hk].
  - rewrite Hk. destruct (lease_table w !! task_lease_key tid) as [r|] eqn:Hr; cbn; rewrite ?Hr, ?lookup_insert_eq; [|done].
    cbn. rewrite Z.ltb_irrefl. apply andb_false_r.
  - destruct Hl as [[_ Hc]|[_ Hk']]; [|done]. destruct (lease_table w !! task_lease_key tid); cbn; [|done].
    by rewrite lookup_insert_ne by done.
Qed.

Lemma step_ended l t s o :
  ended l t (cluster_leases s) → (∀ n, op_time o = Some n → t ≤ n) →
  ended l (default t (op_time o)) (cluster_leases (cluster_step s o)).
Proof.
  intros He Ht. destruct (op_time o) as [n|] eqn:Ho; [|by destruct o]. cbn. pose proof (ended_later l t n _ (Ht n eq_refl) He) as Hn.
  destruct o as [| | | | | | |tid n'|]; try (eapply ended_steps; [by eapply step_leases|done]).
  injection Ho as ->. apply ended_invalidate. by left.
Qed.

Lemma run_ended l t s ops e :
  ended l t (cluster_leases s) → clock_runs t ops e → ended l e (cluster_leases (run cluster_step s ops)).
Proof.
  revert t s. induction ops as [|o ops IH]; intros t s He Hc; [by eapply ended_later|]. rewrite run_cons. cbn in Hc.
  eapply (IH (default t (op_time o))).
  - apply step_ended; [done|]. intros n Hn. rewrite Hn in Hc. by destruct Hc.
  - destruct (op_time o); [by destruct Hc|done].
Qed.

(** The lease of a granted claim is that of its task, and was given out. *)
Definition task_leases_ok (s : cluster) : Prop :=
  ∀ c, c ∈ granted s → resource_key (task_lease c) = task_lease_key (c_task_id c) ∧
    fencing_token (task_lease c) ≤ fence (cluster_leases s) (resource_key (task_lease c)).

Lemma step_fence_le s o k : fence (cluster_leases s) k ≤ fence (cluster_leases (cluster_step s o)) k.
Proof.
  destruct (op_time o) as [n|] eqn:Ho; [|by destruct o].
  destruct o as [| | | | | | |tid n'|]; try (eapply steps_fence_le; by eapply step_leases). cbn. by rewrite invalidate_fence.
Qed.

(** A claim a method returns is taken anew or goes on from an earlier one. *)
Lemma step_grants s o c :
  c ∈ granted (cluster_step s o) →
  c ∈ granted s ∨
  resource_key (task_lease c) = task_lease_key (c_task_id c) ∧ taken (cluster_leases s) (cluster_leases (cluster_step s o)) (task_lease c) ∨
  ∃ c0, c0 ∈ granted s ∧ c_task_id c = c_task_id c0 ∧ same_slot (task_lease c0) (task_lease c).
Proof.
  destruct o as [n o|st queue locked uuid n|st tid ss locked uuid n|st i terminal n|i n|st i n|i n|tid n|f];
    cbn [cluster_step]; unfold grant; cbn; auto.
  - destruct (claim_ready _ _ _ _ _ _) as [r w'] eqn:Hc. cbn. intros [?|Hin]%elem_of_app; [by left|]. right; left.
    apply claim_ready_cases in Hc as [[-> _]|(c' & t & w1 & -> & Ht & Hl & _)]; [by apply elem_of_nil in Hin|].
    apply list_elem_of_singleton in Hin as ->. apply take_spec in Ht as (_ & _ & Hid & _ & _ & [Hk Ht] & _). by rewrite Hid, Hl.
  - destruct (claim_existing _ _ _ _ _ _ _) as [r w'] eqn:Hc. cbn. intros [?|Hin]%elem_of_app; [by left|]. right; left.
    apply claim_existing_cases in Hc as [[-> _]|(c' & t & -> & Ht & _)]; [by apply elem_of_nil in Hin|].
    apply list_elem_of_singleton in Hin as ->. apply take_spec in Ht as (_ & _ & Hid & _ & _ & [Hk Ht] & _). by rewrite Hid.
  - destruct (granted s !! i) as [c0|] eqn:Hi; [|by left]. apply list_elem_of_lookup_2 in Hi.
    destruct (renew _ _ _ _ _) as [r w'] eqn:Hr. cbn. intros [?|Hin]%elem_of_app; [by left|]. right; right.
    apply renew_cases in Hr as [[-> _]|(c' & -> & _ & _ & Hid & _ & Hs & _)]; [by apply elem_of_nil in Hin|].
    apply list_elem_of_singleton in Hin as ->. by exists c0.
  - destruct (granted s !! i) as [c0|] eqn:Hi; [|by left]. apply list_elem_of_lookup_2 in Hi.
    destruct (release_capacity _ _ _) as [r w'] eqn:Hr. cbn. intros [?|Hin]%elem_of_app; [by left|]. right; right.
    apply release_capacity_cases in Hr as [[-> _]|(c' & -> & _ & _ & Hid & _ & Hs & _)]; [by apply elem_of_nil in Hin|].
    apply list_elem_of_singleton in Hin as ->. exists c0. by rewrite Hs.
  - destruct (granted s !! i) as [c0|] eqn:Hi; [|by left]. apply list_elem_of_lookup_2 in Hi.
    destruct (reacquire_capacity _ _ _ _) as [r w'] eqn:Hr. cbn. intros [?|Hin]%elem_of_app; [by left|]. right; right.
    apply reacquire_capacity_cases in Hr as [[-> _]|[[-> _]|(c' & g & a & -> & _ & _ & Hid & _ & Hs & _)]]; [by apply elem_of_nil in Hin|..];
      apply list_elem_of_singleton in Hin as ->; exists c0; rewrite ?Hs; done.
  - destruct (granted s !! i); by left.
Qed.

Lemma task_leases_step s o : task_leases_ok s → task_leases_ok (cluster_step s o).
Proof.
  intros Hok c [Hc|[[Hk Ht]|(c0 & Hc & Hid & Hk & _ & Hf)]]%step_grants.
  - destruct (Hok c Hc) as [H1 H2]. split; [done|]. etrans; [exact H2|apply step_fence_le].
  - split; [done|]. by destruct Ht.
  - destruct (Hok c0 Hc) as [H1 H2]. rewrite Hk, Hf, Hid. split; [done|]. etrans; [exact H2|apply step_fence_le].
Qed.

(** C23. Ending a claim is final.  Once the lease of a task was invalidated (a cancellation or a
    revision does), no fence around an earlier claim on the task lets it act again, whatever any
    controller does afterwards, renewals included. *)
Theorem ended_claims_never_act_again w ops c t later now f :
  let s := run cluster_step (Cluster w []) ops in
  c ∈ granted s → fenced_claim f = c →
  clock_runs t later now →
  let s' := run cluster_step (cluster_step s (XInvalidate (c_task_id c) t)) later in
  (assert_current now f (cluster_tables s')).1 = false.
Proof.
  intros s Hc Hf Hclock s'. assert (task_leases_ok s) as Hok.
  { apply (run_invariant cluster_step task_leases_ok); [|intros; by apply task_leases_step]. by intros ? ?%elem_of_nil. }
  destruct (Hok c Hc) as [Hk Hle]. assert (ended (task_lease c) now (cluster_leases s')) as [_ He].
  { apply (run_ended _ t); [|done]. cbn. apply ended_invalidate. by right. }
  unfold assert_current. rewrite Hf. cbn -[claim_leases]. destruct (fence_lost f); [done|]. destruct (task_is_current _ _ _); [|done].
  cbn -[claim_leases]. unfold claim_leases. cbn [forallb]. by rewrite He.
Qed.

(** ** What claiming does *)

(** Nobody holds the lease. *)
Definition free (db : gmap string lease_row) (now : Z) (key : string) : Prop :=
  ∀ r, db !! key = Some r → row_lease_expires_at r ≤ now.

Lemma free_acquired db key owner now ttl :
  free db now key → ∃ db' l, acquire_in_session db key owner now ttl = (db', Some l).
Proof.
  intros Hf. destruct (acquire_in_session_spec db key owner now ttl) as [[_ (r & Hr & _ & He)]|H].
  - specialize (Hf r Hr). lia.
  - destruct (takeover_in_session _ _ _ _ _) as [db' l]. destruct H as [-> _]. eauto.
Qed.

Lemma free_capacity st keys owner now db k :
  k ∈ keys → free db now k → ∃ db' l, _acquire_capacity st keys owner now db = (db', Some l).
Proof.
  intros Hk Hf. induction keys as [|key keys IH]; [by apply elem_of_nil in Hk|]. cbn.
  destruct (acquire_in_session db key owner now _) as [db1 [l|]] eqn:Ha; [eauto|].
  assert (db1 = db) as ->.
  { destruct (acquire_in_session_spec db key owner now (ttl_seconds st)) as [[Hn _]|Hn]; [congruence|].
    destruct (takeover_in_session _ _ _ _ _). destruct Hn as [Hn _]. congruence. }
  apply elem_of_cons in Hk as [->|Hk]; [|by apply IH]. destruct (free_acquired db key owner now (ttl_seconds st) Hf) as (? & ? & ?). congruence.
Qed.

Definition available (st : execution_store) (t : task) (now : Z) (w : tables) : Prop :=
  free (lease_table w) now (task_lease_key (task_id t)) ∧
  (∃ k, k ∈ global_keys st ∧ free (lease_table w) now k) ∧ ∃ k, k ∈ agent_keys st (t_agent_id t) ∧ free (lease_table w) now k.

Lemma take_available st t uuid now w : available st t now w → ∃ w' c, take st t uuid now w = Some (w', c).
Proof.
  intros (Ht & (g & Hg & Hgf) & (a & Ha & Haf)). unfold take.
  destruct (free_acquired _ _ (claim_owner st (task_id t) uuid) now (ttl_seconds st) Ht) as (db1 & l & Hl). rewrite Hl.
  apply acquired in Hl as (_ & _ & _ & _ & _ & Hfr1). destruct (task_not_slot st (t_agent_id t) (task_id t)) as [Htg Hta].
  unfold acquire_slots.
  destruct (free_capacity st (global_keys st) (claim_owner st (task_id t) uuid) now db1 g Hg) as (db2 & l2 & H2).
  { intros r. rewrite Hfr1 by (intros ->; done). apply Hgf. }
  rewrite H2. apply capacity_acquired in H2 as (_ & _ & _ & _ & _ & Hfr2).
  destruct (free_capacity st (agent_keys st (t_agent_id t)) (claim_owner st (task_id t) uuid) now db2 a Ha) as (db3 & l3 & H3).
  { intros r. rewrite Hfr2, Hfr1; [apply Haf|intros ->; done|]. intros Hk. by apply (global_not_agent st (t_agent_id t) a Hk). }
  rewrite H3. eauto.
Qed.

Lemma before_total x y : before x y = false → before y x = true.
Proof.
  unfold before. destruct (Z.ltb_spec (priority y) (priority x)), (Z.ltb_spec (priority x) (priority y)); try done; cbn.
  destruct (Z.eqb_spec (priority x) (priority y)), (Z.eqb_spec (priority y) (priority x)); try done; cbn; lia.
Qed.

Lemma before_trans x y z : before x y = true → before y z = true → before x z = true.
Proof.
  unfold before. rewrite !orb_true_iff, !andb_true_iff, !Z.ltb_lt, !Z.eqb_eq, !Z.leb_le. lia.
Qed.

Lemma before_refl x : before x x = true.
Proof. unfold before. rewrite Z.eqb_refl, Z.leb_refl. apply orb_true_r. Qed.

Lemma first_before l t t' : first_by before l = Some t → t' ∈ l → before t t' = true.
Proof. apply first_by_first; [apply before_refl|apply before_total|apply before_trans]. Qed.

Definition candidate (queue : string) (locked : gset string) (now : Z) (w : tables) (t : task) : Prop :=
  tasks w !! task_id t = Some t ∧ due_ready queue now t = true ∧ task_id t ∉ locked.

Definition started (now : Z) : task → task := set_task_values [TStatus RUNNING; TStarted (Some now); TUpdated now].

Definition keyed (w : tables) : Prop := ∀ tid t, tasks w !! tid = Some t → task_id t = tid.

Lemma candidates_elem queue locked now w t :
  keyed w →
  t ∈ filter (λ t, due_ready queue now t && negb (bool_decide (task_id t ∈ locked))) (map_to_list (tasks w)).*2 ↔
  candidate queue locked now w t.
Proof.
  intros Hk. rewrite list_elem_of_filter. unfold candidate. rewrite Is_true_true, andb_true_iff, negb_true_iff, bool_decide_eq_false. split.
  - intros [[Hd Hl] (tid & Ht)%elem_of_tasks]. rewrite (Hk tid t Ht). by rewrite (Hk tid t Ht) in Hl.
  - intros (Ht & Hd & Hl). split; [done|]. apply list_elem_of_fmap. exists (task_id t, t). split; [done|]. by apply elem_of_map_to_list.
Qed.

Lemma started_current now t c :
  t_attempt_number t ≠ 0 → c_attempt_number c = (if t_attempt_number t =? 0 then 1 else t_attempt_number t) →
  (t_attempt_number (started now t) =? c_attempt_number c) && task_in (t_status (started now t)) [RUNNING; PAUSED] = true.
Proof. intros Hn ->. rewrite (proj2 (Z.eqb_neq _ 0)) by done. destruct t. cbn. by rewrite Z.eqb_refl. Qed.

Lemma take_acts st t uuid now w w1 w' c :
  0 < ttl_seconds st → t_attempt_number t ≠ 0 → take st t uuid now w = Some (w1, c) →
  lease_table w' = lease_table w1 → tasks w' !! task_id t = Some (started now t) → acts w' now c.
Proof.
  intros Httl Hn (_ & _ & Hid & _ & Hat & _ & (g & a & Hg & Ha & _) & Hcur)%take_spec Hl Ht. split; [by unfold has_capacity; rewrite Hg, Ha|].
  unfold assert_current, task_is_current. cbn -[claim_leases]. rewrite Hid, Ht, Hl, (started_current now t c Hn Hat), (Hcur Httl). done.
Qed.

(** Ready tasks are claimed.  A claim is all or nothing: it either takes the first task in
    the order of priority and age, with its lease and both slots, moves just that task to running
    and may act at once; or it changes nothing, and then the first ready task lacks its lease or a
    slot. *)
Theorem ready_tasks_are_claimed st queue locked uuid now w :
  0 < ttl_seconds st → keyed w → (∀ tid t, tasks w !! tid = Some t → t_attempt_number t ≠ 0) →
  match claim_ready st queue locked uuid now w with
  | (Some c, w') =>
      ∃ t, candidate queue locked now w t ∧ (∀ t', candidate queue locked now w t' → before t t' = true) ∧
        c_task_id c = task_id t ∧ tasks w' = <[task_id t := started now t]> (tasks w) ∧ acts w' now c
  | (None, w') =>
      w' = w ∧ ∀ t, candidate queue locked now w t →
        ∃ t1, candidate queue locked now w t1 ∧ (∀ t', candidate queue locked now w t' → before t1 t' = true) ∧ ¬ available st t1 now w
  end.
Proof.
  intros Httl Hk Hn. unfold claim_ready. destruct (first_by _ _) as [t|] eqn:Hf.
  2: { split; [done|]. intros t Ht%candidates_elem; [|done]. apply first_by_none in Hf. rewrite Hf in Ht. by apply elem_of_nil in Ht. }
  assert (∀ t', candidate queue locked now w t' → before t t' = true) as Hfirst.
  { intros t' Ht'%candidates_elem; [|done]. by eapply first_before. }
  pose proof (first_by_elem _ _ _ Hf) as Hc. apply candidates_elem in Hc; [|done]. pose proof Hc as (Ht & Hd & Hl).
  destruct (take st t uuid now w) as [[w1 c]|] eqn:Htake.
  2: { split; [done|]. intros t' _. exists t. split_and!; [done..|]. intros (w1 & c & Hs)%(take_available st t uuid). congruence. }
  pose proof Htake as (Hw1 & _ & Hid & _)%take_spec. unfold update_task. assert (tasks w1 = tasks w) as Htw by by rewrite Hw1.
  rewrite Htw, Ht. unfold due_ready in Hd. bool_facts. rewrite bool_decide_true by done. exists t. split_and!; [done..| |].
  - done.
  - apply (take_acts st t uuid now w w1); [done|by eapply Hn|done|done|]. cbn. by rewrite lookup_insert_eq.
Qed.

(** ** Concrete runs *)

Section DemoExecution.
Definition demo_store : execution_store := ExecutionStore "k1" 2 1 100.
Definition demo_task (tid agent : string) (p : Z) : task :=
  Task tid READY p agent "api" None "default" None 1 None None None 0 None None 0.
Definition demo_tables : tables :=
  Tables ∅ (list_to_map ((λ t, (task_id t, t)) <$> [demo_task "t1" "a" 5; demo_task "t2" "a" 4; demo_task "t3" "b" 1])) [] [] ∅ ∅ None.

(** Two claims; the second is refused, as the agent's one slot is taken; the first task is then
    revised. *)
Definition demo_claims : list execution_op :=
  [XReady demo_store "default" ∅ "u1" 10; XReady demo_store "default" ∅ "u2" 11;
   XExisting demo_store "t3" [READY] ∅ "u3" 12; XOther (λ w, (move_task "t3" RUNNING 12 w).1)].
Definition demo_cluster : cluster := run cluster_step (Cluster demo_tables []) demo_claims.
Definition demo_claim (i : nat) : TaskExecutionClaim :=
  match granted demo_cluster !! i with
  | Some c => c
  | None => Claim "" "" 0 (MkLease "" "" 0 0) None None
  end.
End DemoExecution.


Lemma ended_claims_never_act_again_witness :
  (assert_current 20 (new_fence (demo_claim 0)) (cluster_tables demo_cluster)).1 = true ∧
  (assert_current 40 (new_fence (demo_claim 0))
     (cluster_tables (run cluster_step (cluster_step demo_cluster (XInvalidate "t1" 30)) [XRenew demo_store 0 None 35]))).1 = false.
Proof.
  split; [vm_compute; reflexivity|].
  apply (ended_claims_never_act_again demo_tables demo_claims (demo_claim 0) 30 [XRenew demo_store 0 None 35] 40).
  - apply (list_elem_of_lookup_2 _ 0%nat). vm_compute. reflexivity.
  - reflexivity.
  - cbn. lia.
Defined.

Lemma ready_tasks_are_claimed_witness :
  match claim_ready demo_store "default" ∅ "u1" 10 demo_tables with
  | (Some c, w') => ∃ t, candidate "default" ∅ 10 demo_tables t ∧ (∀ t', candidate "default" ∅ 10 demo_tables t' → before t t' = true) ∧
        c_task_id c = task_id t ∧ tasks w' = <[task_id t := started 10 t]> (tasks demo_tables) ∧ acts w' 10 c
  | _ => False
  end.
Proof.
  assert (∀ tid t, tasks demo_tables !! tid = Some t → task_id t = tid ∧ t_attempt_number t = 1) as Hrows.
  { intros tid t Ht. apply elem_of_list_to_map_2, list_elem_of_fmap in Ht as (t' & [= -> ->] & Ht).
    repeat (apply elem_of_cons in Ht as [->|Ht]; [done|]). by apply elem_of_nil in Ht. }
  pose proof (ready_tasks_are_claimed demo_store "default" ∅ "u1" 10 demo_tables) as H.
  destruct (claim_ready demo_store "default" ∅ "u1" 10 demo_tables) as [[c|] w'] eqn:Hc; [|vm_compute in Hc; discriminate].
  apply H; [done|by intros tid t [? _]%Hrows|]. intros tid t [_ ->]%Hrows. done.
Defined.

(** Only the first ready task is looked at: while its agent has no free slot, nothing is claimed,
    although the task of another agent could run. *)
Example full_agent_blocks_the_queue :
  let s := run cluster_step (Cluster demo_tables []) [XReady demo_store "default" ∅ "u1" 10] in
  (claim_ready demo_store "default" ∅ "u2" 11 (cluster_tables s)).1 = None ∧
  is_Some (claim_existing demo_store "t3" [READY] ∅ "u3" 11 (cluster_tables s)).1.
Proof. vm_compute. split; [done|by eexists]. Qed.
