(* ===== verification/ScheduleFires.v ===== *)
(** Schedule fires: the durable identity of each run of a schedule ([ScheduleFireStore] of
    [cognis/store/schedule_fires.py]) and the queries on schedules ([cognis/store/queries.py]).

    A method changes a schedule's fires only while it holds the schedule's lease, which it locks
    first; rows read FOR UPDATE are locked as well, so a method is one function of the tables.
    [project_recurring_terminal_result] alone reads its fire before it locks anything, and keeps
    what it read.  [now] is the database clock, [wall] the controller's.

    Parameters: the digest of the identifiers, the printing of timestamps, and where the database
    sorts NULL in descending order. *)

From S2P Require Import Prelude PyVal Lease Tables Tasks.

Section Fires.
Context (digest : string → string) (isoformat : Z → string) (nulls_first : bool).

Definition nul : string := String (Ascii.ascii_of_nat 0) EmptyString.

Definition schedule_fire_id (sid : string) (at_ : Z) : string := "sfire_" +:+ digest (sid +:+ nul +:+ isoformat at_).
Definition schedule_task_id (sid : string) (at_ : Z) : string :=
  "task_sched_" +:+ digest ("task" +:+ nul +:+ sid +:+ nul +:+ isoformat at_).
Definition manual_schedule_fire_id (sid : string) (at_ : Z) : string :=
  "sfire_manual_" +:+ digest ("manual" +:+ nul +:+ sid +:+ nul +:+ isoformat at_).
Definition manual_schedule_task_id (sid : string) (at_ : Z) : string :=
  "task_sched_" +:+ digest ("manual-task" +:+ nul +:+ sid +:+ nul +:+ isoformat at_).

Record ScheduleFireClaim := FireClaim {
  fc_fire_id : string;
  fc_schedule_id : string;
  fc_fire_at : Z;
  fc_task_id : string;
  fc_status : fire_status;
  should_dispatch : bool;
  fc_schedule : schedule;
  replaced_paused_task_ids : list string;
}.

(** ** Rows *)

Definition fire_list (w : tables) : list fire := (map_to_list (fires w)).*2.
Definition task_list (w : tables) : list task := (map_to_list (tasks w)).*2.

Definition starts_with (p : string) (s : option string) : bool :=
  match s with Some s => String.prefix p s | None => false end.

Definition is_terminal_fire (f : fire) : bool := starts_with "terminal:" (last_error f).
Definition auto_disabled (s : schedule) : bool := starts_with "auto_consecutive_failures:" (disabled_reason s).
Definition auto_reason (errors : Z) : string := "auto_consecutive_failures:" +:+ str_int errors.

Definition same_fire (sid : string) (k : fire_kind) (at_ : Z) (f : fire) : bool :=
  bool_decide (f_schedule_id f = sid) && bool_decide (f_kind f = k) && (scheduled_fire_at f =? at_).

(** A row that violates the primary or the unique key raises; [ON CONFLICT DO NOTHING] names the
    unique one. *)
Definition insert_fire (x : fire) (ignore : bool) (w : tables) : option tables :=
  if existsb (same_fire (f_schedule_id x) (f_kind x) (scheduled_fire_at x)) (fire_list w) then (if ignore then Some w else None)
  else match fires w !! fire_id x with
       | Some _ => None
       | None => Some (set_fires (<[fire_id x := x]> (fires w)) w)
       end.

Definition _lock_lease (w : tables) (lease : Lease) (now : Z) : bool := is_current_in_session (lease_table w) lease now.

Definition of_schedule (sid : string) (t : task) : bool :=
  bool_decide (source_type t = "scheduler") && bool_decide (source_ref t = Some sid).

Definition active_count (sid : string) (w : tables) : Z :=
  Z.of_nat (length (filter (λ t, of_schedule sid t && task_in (t_status t) [QUEUED; READY; RUNNING; PAUSED]) (task_list w))).

(** ** Claiming a recurring fire *)

Definition older_task (x y : task) : bool :=
  (t_created_at x <? t_created_at y) || ((t_created_at x =? t_created_at y) && String.leb (task_id x) (task_id y)).

Definition paused_tasks (sid : string) (w : tables) : list task :=
  sort_by older_task (filter (λ t, of_schedule sid t && bool_decide (t_status t = PAUSED)) (task_list w)).

Definition failed_state (ws : option pydict) : pydict :=
  od_set "current_step_status" PNone (od_set "status" (PStr "failed") (match ws with Some d => d | None => [] end)).

Definition replaced_reason : string := "Replaced at the next scheduled firing while still paused.".

Definition replace_task (wall : Z) (t : task) : task :=
  set_task_values [TStatus FAILED; TCompleted (Some wall); TResultSummary (Some replaced_reason);
                   TWorkflowState (Some (failed_state (workflow_state t))); TUpdated wall] t.

(** Consecutive failures; past the limit the schedule is switched off. *)
Definition count_failures (n limit : Z) (last : option string) (wall : Z) (s : schedule) : schedule :=
  let errors := consecutive_errors s + n in
  set_schedule_values
    ([SErrors errors; SRunStatus (Some "failed"); STerminalTask last] ++
     (if limit <=? errors then [SEnabled false; SNextFire None; SDisabled (Some (auto_reason errors))] else []) ++ [SUpdated wall]) s.

Definition replace_paused (sid : string) (limit wall : Z) (s : schedule) (w : tables) : list string * schedule * tables :=
  match paused_tasks sid w with
  | [] => ([], s, w)
  | paused =>
      let ids := task_id <$> paused in
      let w := set_tasks (foldr (λ t ts, <[task_id t := replace_task wall t]> ts) (tasks w) paused) w in
      let w := update_step_runs (λ x, bool_decide (x ∈ ids)) ACTIVE_STEP_STATUSES "failed" (Some wall) wall w in
      let settle f := if match f_task_id f with Some t => bool_decide (t ∈ ids) | None => false end && negb (is_terminal_fire f)
                      then set_fire_values [FStatus FireFailed; FError (Some "terminal:failed"); FUpdated wall] f else f in
      let w := set_fires (settle <$> fires w) w in
      let s := count_failures (length ids) limit (last ids) wall s in
      (ids, s, set_schedules (<[sid := s]> (schedules w)) w)
  end.

Definition new_fire (fid sid : string) (k : fire_kind) (at_ : Z) (tz : string) (attempts now : Z) : fire :=
  Fire fid sid k at_ (Some tz) None FireClaimed attempts None now now None.

(** Start another attempt. *)
Definition reclaim (task : option string) (at_ : Z) (f : fire) : fire :=
  set_fire_values ([FStatus FireClaimed] ++ match task with Some t => [FTask (Some t)] | None => [] end ++
                   [FAttempts (f_attempt_count f + 1); FError None; FUpdated at_]) f.

Definition claim (sid : string) (at_ : Z) (lease : Lease) (limit now wall : Z) (w : tables) :
    result query_error (option ScheduleFireClaim) * tables :=
  if negb (_lock_lease w lease now) then (Ok None, w) else
  match schedules w !! sid with
  | None => (Ok None, w)
  | Some s =>
      if negb (enabled s) || negb (bool_decide (next_fire_at s = Some at_)) then (Ok None, w) else
      let fid := schedule_fire_id sid at_ in
      let tid := schedule_task_id sid at_ in
      match insert_fire (new_fire fid sid Recurring at_ (s_timezone s) 0 now) true w with
      | None => (Err IntegrityError, w)
      | Some w1 =>
          match fires w1 !! fid with
          | None => (Ok None, w)
          | Some f =>
              if negb (bool_decide (f_kind f = Recurring)) then (Ok None, w) else
              if bool_decide (f_status f = FireDispatched) || bool_decide (f_status f = FireSkipped) then
                (Ok (Some (FireClaim fid sid at_ (default tid (f_task_id f)) (f_status f) false s [])), w1)
              else
              match tasks w1 !! tid with
              | Some _ => (Ok (Some (FireClaim fid sid at_ tid FireClaimed true s [])), (update_fire fid (λ _, true) (reclaim (Some tid) wall) w1).1)
              | None =>
                  let '(replaced, s, w2) := if fail_paused_task_on_next_fire s then replace_paused sid limit wall s w1 else ([], s, w1) in
                  if max_concurrent_runs s <=? active_count sid w2 then
                    (Ok (Some (FireClaim fid sid at_ tid FireSkipped false s replaced)),
                     (update_fire fid (λ _, true) (set_fire_values [FStatus FireSkipped; FUpdated wall]) w2).1)
                  else
                    (Ok (Some (FireClaim fid sid at_ tid FireClaimed true s replaced)), (update_fire fid (λ _, true) (reclaim None wall) w2).1)
              end
          end
      end
  end.

(** ** Claiming an immediate fire *)

(** The first free microsecond that no recurring occurrence can name. *)
Fixpoint free_time (taken : gset Z) (fuel : nat) (t : Z) : option Z :=
  match fuel with
  | O => None
  | S fuel => if bool_decide (t ∈ taken) then free_time taken fuel (t + 1) else Some t
  end.

Definition taken_times (sid : string) (recurring : option Z) (w : tables) : gset Z :=
  list_to_set (scheduled_fire_at <$> filter (λ f, f_schedule_id f = sid) (fire_list w)) ∪
  match recurring with Some t => {[t]} | None => ∅ end.

Definition _manual_fire_at (sid : string) (recurring : option Z) (now : Z) (w : tables) : option Z :=
  let candidate := if now mod 1000000 =? 0 then now + 1 else now in
  let taken := taken_times sid recurring w in
  free_time taken (S (size taken)) candidate.

(** [ORDER BY x DESC] *)
Definition later_first (x y : option Z) : bool :=
  match x, y with
  | Some a, Some b => b <=? a
  | None, None => true
  | None, Some _ => nulls_first
  | Some _, None => negb nulls_first
  end.

Definition manual_fires (sid : string) (p : fire → bool) (w : tables) : list fire :=
  filter (λ f, bool_decide (f_schedule_id f = sid) && bool_decide (f_kind f = Manual) && p f) (fire_list w).

Definition claim_manual (sid : string) (lease : Lease) (now : Z) (w : tables) :
    result query_error (option ScheduleFireClaim) * tables :=
  if negb (_lock_lease w lease now) then (Ok None, w) else
  match schedules w !! sid with
  | None => (Ok None, w)
  | Some s =>
      let one_shot := bool_decide (schedule_type s = "one_shot") in
      if negb (enabled s) && negb (negb one_shot && auto_disabled s) then (Ok None, w) else
      if one_shot && bool_decide (next_fire_at s = None) then
        let dispatched f := bool_decide (f_status f = FireDispatched) && bool_decide (f_task_id f ≠ None) in
        match first_by (λ x y, later_first (dispatched_at x) (dispatched_at y)) (manual_fires sid dispatched w) with
        | None => (Ok None, w)
        | Some d => (Ok (Some (FireClaim (fire_id d) sid (scheduled_fire_at d) (default "None" (f_task_id d)) FireDispatched false s [])), w)
        end
      else
      match first_by (λ x y, f_created_at y <=? f_created_at x) (manual_fires sid (λ f, bool_decide (f_status f = FireClaimed)) w) with
      | Some p =>
          let tid := default (manual_schedule_task_id sid (scheduled_fire_at p)) (f_task_id p) in
          (Ok (Some (FireClaim (fire_id p) sid (scheduled_fire_at p) tid FireClaimed true s [])),
           (update_fire (fire_id p) (λ _, true)
              (λ f, set_fire_values [FAttempts (f_attempt_count f + 1); FError None; FUpdated now] f) w).1)
      | None =>
          match _manual_fire_at sid (next_fire_at s) now w with
          | None => (Ok None, w)
          | Some at_ =>
              let fid := manual_schedule_fire_id sid at_ in
              let tid := manual_schedule_task_id sid at_ in
              match insert_fire (new_fire fid sid Manual at_ (s_timezone s) 0 now) false w with
              | None => (Err IntegrityError, w)
              | Some w1 =>
                  if max_concurrent_runs s <=? active_count sid w1 then
                    let w2 := (update_fire fid (λ _, true) (set_fire_values [FStatus FireSkipped; FUpdated now]) w1).1 in
                    let w3 := if negb one_shot then w2 else
                              if delete_after_run s then delete_schedule_row sid w2 else
                              (update_schedule_row sid (λ _, true)
                                 (set_schedule_values [SLastFired (Some at_); SNextFire None; SRunStatus (Some "skipped"); SUpdated now]) w2).1 in
                    (Ok (Some (FireClaim fid sid at_ tid FireSkipped false s [])), w3)
                  else
                    (Ok (Some (FireClaim fid sid at_ tid FireClaimed true s [])),
                     (update_fire fid (λ _, true) (set_fire_values [FAttempts 1; FUpdated now]) w1).1)
              end
          end
      end
  end.

Definition is_manual_task (tid : string) (w : tables) : bool :=
  existsb (λ f, bool_decide (f_task_id f = Some tid) && bool_decide (f_kind f = Manual)) (fire_list w).

(** ** Terminal results *)

(** What the caller learns. *)
Record projection := Projection {
  p_schedule_id : string;
  p_errors : Z;
  p_disabled : bool;
  p_auto_disabled_state : bool;
  p_enabled : bool;
  p_disabled_reason : option string;
}.

Definition terminal_text (s : TaskStatus) : option string :=
  match s with COMPLETED => Some "completed" | FAILED => Some "failed" | CANCELLED => Some "cancelled" | _ => None end.

(** One more failure: whether it switches the schedule off, which one that is off by hand does not. *)
Definition fail_schedule (limit : Z) (next : option (option Z)) (s : schedule) : schedule * bool * bool :=
  let errors := consecutive_errors s + 1 in
  let disabled := (limit <=? errors) && (enabled s || auto_disabled s) in
  let s' := set_schedule_values [SRunStatus (Some "failed"); SErrors errors] s in
  if disabled then
    (set_schedule_values [SEnabled false; SNextFire None; SDisabled (Some (auto_reason errors))] s', enabled s, true)
  else
    (match next with Some n => if enabled s then set_schedule s' (SNextFire n) else s' | None => s' end, false, auto_disabled s).

Definition project_manual_terminal_result (tid : string) (status : TaskStatus) (completed limit now : Z) (w : tables) :
    result query_error (option projection) * tables :=
  match terminal_text status with
  | None => (Ok None, w)
  | Some text =>
      match filter (λ f, bool_decide (f_task_id f = Some tid) && bool_decide (f_kind f = Manual)) (fire_list w) with
      | [] => (Ok None, w)
      | [f] =>
          if is_terminal_fire f then (Ok None, w) else
          match schedules w !! f_schedule_id f with
          | None => (Ok None, w)
          | Some s =>
              let w1 := (update_fire (fire_id f) (λ _, true)
                           (set_fire_values [FStatus (match status with COMPLETED => FireDispatched | _ => FireFailed end);
                                             FError (Some ("terminal:" +:+ text)); FUpdated now]) w).1 in
              let s1 := set_schedule_values [SLastFired (Some completed); STerminalTask (Some tid)] s in
              let '(s2, off, auto) :=
                match status with
                | COMPLETED => (set_schedule_values [SRunStatus (Some "success"); SErrors 0] s1, false, auto_disabled s)
                | CANCELLED => (set_schedule_values [SRunStatus (Some "cancelled"); SErrors 0] s1, false, auto_disabled s)
                | _ => fail_schedule limit None s1
                end in
              let s3 := set_schedule s2 (SUpdated now) in
              (Ok (Some (Projection (schedule_id s3) (consecutive_errors s3) off auto (enabled s3) (disabled_reason s3))),
               set_schedules (<[f_schedule_id f := s3]> (schedules w1)) w1)
          end
      | _ => (Err (ValueError "Multiple rows were found when one or none was required"), w)
      end
  end.

(** The first statement of the recurring projection. *)
Definition find_recurring (tid : string) (w : tables) : option fire :=
  match filter (λ f, bool_decide (f_task_id f = Some tid) && bool_decide (f_kind f = Recurring)) (fire_list w) with
  | [f] => Some f
  | _ => None
  end.

(** A column of an object is written when it differs from what was read. *)
Definition changed {A} `{EqDecision A} (old new : A) (v : A → fire_value) : list fire_value :=
  if bool_decide (old = new) then [] else [v new].

(** The rest: [seen] is what the first statement read; the row is locked again, but the object in
    the session keeps its columns. *)
Definition project_recurring_terminal_result (seen : option fire) (tid : string) (status : TaskStatus) (next : option Z) (limit now : Z)
    (w : tables) : result query_error (option projection) * tables :=
  match terminal_text status, seen with
  | Some text, Some f =>
      match schedules w !! f_schedule_id f with
      | None => (Ok None, w)
      | Some s =>
          match fires w !! fire_id f with
          | None => (Err (ValueError "No row was found when one was required"), w)
          | Some _ =>
              if is_terminal_fire f then (Ok None, w) else
              let st := match status with FAILED => FireFailed | _ => FireDispatched end in
              let w1 := (update_fire (fire_id f) (λ _, true)
                           (set_fire_values (changed (last_error f) (Some ("terminal:" +:+ text)) FError ++
                                             changed (f_status f) st FStatus ++ [FUpdated now])) w).1 in
              let s1 := set_schedule s (STerminalTask (Some tid)) in
              let '(s2, off, auto) :=
                match status with
                | FAILED => fail_schedule limit (Some next) s1
                | _ =>
                    let s2 := set_schedule_values [SRunStatus (Some (match status with COMPLETED => "success" | _ => "cancelled" end)); SErrors 0] s1 in
                    (if enabled s then set_schedule s2 (SDisabled None) else s2, false, auto_disabled s)
                end in
              let s3 := set_schedule s2 (SUpdated now) in
              (Ok (Some (Projection (schedule_id s3) (consecutive_errors s3) off auto (enabled s3) (disabled_reason s3))),
               set_schedules (<[f_schedule_id f := s3]> (schedules w1)) w1)
          end
      end
  | _, _ => (Ok None, w)
  end.

(** ** Settling a claim *)

Definition link_manual_task (c : ScheduleFireClaim) (lease : Lease) (now : Z) (w : tables) : bool * tables :=
  if negb (_lock_lease w lease now) then (false, w) else
  let claimed f := bool_decide (f_kind f = Manual) && bool_decide (f_status f = FireClaimed) in
  let '(w1, ok) := update_fire (fc_fire_id c) (λ f, claimed f && bool_decide (f_task_id f = None))
                     (set_fire_values [FTask (Some (fc_task_id c)); FUpdated now]) w in
  if ok then (true, w1) else
  match fires w !! fc_fire_id c with
  | Some f => (claimed f && bool_decide (f_task_id f = Some (fc_task_id c)), w)
  | None => (false, w)
  end.

Definition dispatch_fire (c : ScheduleFireClaim) (now : Z) (w : tables) : tables * bool :=
  update_fire (fc_fire_id c) (λ f, bool_decide (f_status f = FireClaimed))
    (set_fire_values [FStatus FireDispatched; FTask (Some (fc_task_id c)); FDispatched (Some now); FUpdated now]) w.

Definition mark_dispatched (c : ScheduleFireClaim) (lease : Lease) (now : Z) (w : tables) : bool * tables :=
  if negb (_lock_lease w lease now) then (false, w) else let '(w, ok) := dispatch_fire c now w in (ok, w).

Definition settle_manual_dispatched (c : ScheduleFireClaim) (lease : Lease) (status : string) (now : Z) (w : tables) : bool * tables :=
  if negb (_lock_lease w lease now) then (false, w) else
  let '(w1, ok) := dispatch_fire c now w in
  let ended := match fires w !! fc_fire_id c with
               | Some f => bool_decide (f_task_id f = Some (fc_task_id c)) && is_terminal_fire f
               | None => false
               end in
  if negb ok && negb ended then (false, w) else
  match schedules w1 !! fc_schedule_id c with
  | Some s =>
      if negb (bool_decide (schedule_type s = "one_shot")) then (true, w1) else
      if delete_after_run s then (true, delete_schedule_row (fc_schedule_id c) w1) else
      (true, (update_schedule_row (fc_schedule_id c) (λ _, true)
                (set_schedule_values ([SLastFired (Some (fc_fire_at c)); SNextFire None] ++
                   (if ok then [SRunStatus (Some status)] else []) ++ [SUpdated now])) w1).1)
  | None => (true, w1)
  end.

Definition fail_fire (c : ScheduleFireClaim) (error : string) (now : Z) (w : tables) : tables * bool :=
  update_fire (fc_fire_id c) (λ f, bool_decide (f_status f = FireClaimed))
    (set_fire_values [FStatus FireFailed; FError (Some error); FUpdated now]) w.

Definition mark_failed (c : ScheduleFireClaim) (lease : Lease) (error : string) (next : option Z) (errors : Z) (reason : option string)
    (now : Z) (w : tables) : bool * tables :=
  if negb (_lock_lease w lease now) then (false, w) else
  let '(w1, ok) := fail_fire c error now w in
  let '(w2, found) :=
    update_schedule_row (fc_schedule_id c) (λ s, bool_decide (next_fire_at s = Some (fc_fire_at c)) && enabled s)
      (set_schedule_values ([SLastFired (Some (fc_fire_at c)); SNextFire next; SRunStatus (Some "failed"); STerminalTask None; SErrors errors;
                             SDisabled reason; SUpdated now] ++ match reason with Some _ => [SEnabled false] | None => [] end)) w1 in
  if found then (ok, w2) else (false, w).

Definition mark_manual_failed (c : ScheduleFireClaim) (lease : Lease) (error : string) (now : Z) (w : tables) : bool * tables :=
  if negb (_lock_lease w lease now) then (false, w) else let '(w, ok) := fail_fire c error now w in (ok, w).

Definition advance_schedule (sid : string) (at_ : Z) (next : option Z) (status : string) (errors : Z) (lease : Lease) (now : Z) (w : tables) :
    bool * tables :=
  if negb (_lock_lease w lease now) then (false, w) else
  let '(w, ok) :=
    update_schedule_row sid (λ s, bool_decide (next_fire_at s = Some at_))
      (set_schedule_values [SLastFired (Some at_); SNextFire next; SRunStatus (Some status); SErrors errors; SUpdated now]) w in
  (ok, w).

(** ** The startup catch-up *)

Definition prepare_catchup (lease : Lease) (cutoff budget : Z) (start_new : bool) (now wall : Z) (w : tables) : option (Z * Z) * tables :=
  if negb (_lock_lease w lease now) then (None, w) else
  let fresh := CatchupState cutoff budget true wall in
  match catchup w with
  | None => (Some (cutoff, budget), set_catchup (Some fresh) w)
  | Some st =>
      if negb (catchup_is_active st) then (if start_new then (Some (cutoff, budget), set_catchup (Some fresh) w) else (None, w))
      else (Some (cutoff_at st, remaining_budget st), w)
  end.

Definition reserve_catchup_fire (lease : Lease) (now wall : Z) (w : tables) : option (Z * Z) * tables :=
  if negb (_lock_lease w lease now) then (None, w) else
  match catchup w with
  | Some st =>
      if negb (catchup_is_active st) || (remaining_budget st <=? 0) then (None, w) else
      (Some (cutoff_at st, remaining_budget st - 1), set_catchup (Some (CatchupState (cutoff_at st) (remaining_budget st - 1) true wall)) w)
  | None => (None, w)
  end.

Definition restore_catchup_fire (lease : Lease) (now wall : Z) (w : tables) : option Z * tables :=
  if negb (_lock_lease w lease now) then (None, w) else
  match catchup w with
  | Some st =>
      if negb (catchup_is_active st) then (None, w) else
      (Some (remaining_budget st + 1), set_catchup (Some (CatchupState (cutoff_at st) (remaining_budget st + 1) true wall)) w)
  | None => (None, w)
  end.

Definition complete_catchup (lease : Lease) (now : Z) (w : tables) : bool * tables :=
  if negb (_lock_lease w lease now) then (false, w) else
  match catchup w with
  | Some st =>
      if catchup_is_active st then (true, set_catchup (Some (CatchupState (cutoff_at st) (remaining_budget st) false now)) w) else (false, w)
  | None => (false, w)
  end.

Definition catchup_active (w : tables) : bool := match catchup w with Some st => catchup_is_active st | None => false end.

(** ** Queries *)

(** The trigger of a task that a schedule created; a fire without its zone raises. *)
Definition get_task_schedule_trigger_context (tid : string) (w : tables) : result query_error (option pydict) :=
  match first_by (λ x y, f_created_at x <=? f_created_at y) (filter (λ f, f_task_id f = Some tid) (fire_list w)) with
  | None => Ok None
  | Some f =>
      match schedule_timezone f with
      | None => Err (ValueError ("Schedule fire '" +:+ fire_id f +:+ "' has no timezone snapshot; migration 146 insertion trigger is missing or failed"))
      | Some tz => Ok (Some [("type", PStr "schedule"); ("fire_id", PStr (fire_id f)); ("schedule_id", PStr (f_schedule_id f));
                             ("scheduled_fire_at", PStr (isoformat (scheduled_fire_at f))); ("timezone", PStr tz)])
      end
  end.

Definition get_schedule (sid : string) (w : tables) : option schedule := schedules w !! sid.

Definition schedule_list (w : tables) : list schedule := (map_to_list (schedules w)).*2.

(** Ordered by name. *)
Definition list_enabled_schedules (w : tables) : list schedule :=
  sort_by (λ x y, String.leb (s_name x) (s_name y)) (filter (λ s, enabled s) (schedule_list w)).

Definition list_due_schedules (now : Z) (w : tables) : list schedule :=
  sort_by (λ x y, match next_fire_at x, next_fire_at y with Some a, Some b => a <=? b | _, _ => true end)
    (filter (λ s, enabled s && match next_fire_at s with Some t => t <=? now | None => false end) (schedule_list w)).

Definition update_next_fire (sid : string) (next : option Z) (wall : Z) (w : tables) : option schedule * tables :=
  let '(w, _) := update_schedule_row sid (λ _, true) (set_schedule_values [SNextFire next; SUpdated wall]) w in (schedules w !! sid, w).

Definition update_schedule_fire_state (sid : string) (fired : Z) (next : option Z) (status : string) (errors : Z)
    (reason : option (option string)) (task : option (option string)) (on : option bool) (wall : Z) (w : tables) : tables :=
  (update_schedule_row sid (λ _, true)
     (set_schedule_values ([SLastFired (Some fired); SNextFire next; SRunStatus (Some status); SErrors errors; SUpdated wall] ++
        match reason with Some r => [SDisabled r] | None => [] end ++ match task with Some t => [STerminalTask t] | None => [] end ++
        match on with Some b => [SEnabled b] | None => [] end)) w).1.

Definition delete_schedule (sid : string) (w : tables) : tables * bool :=
  match schedules w !! sid with Some _ => (delete_schedule_row sid w, true) | None => (w, false) end.
End Fires.
