(* ===== verification/ScheduleFiresSpec.v ===== *)
(** What schedule fires guarantee in every history: an occurrence is handed out again only after
    its run failed, a result counts once, a controller that lost the schedule's lease changes
    nothing, and the budget of the startup catch-up is kept. *)

From S2P Require Import Prelude PyVal Lease Tables Tasks ScheduleFires.

Section Histories.
Context (digest : string → string) (isoformat : Z → string) (nulls_first : bool).

Notation claim := (claim digest isoformat).
Notation claim_manual := (claim_manual digest isoformat nulls_first).
Notation schedule_fire_id := (schedule_fire_id digest isoformat).

(** ** Histories *)

(** A recurring result is projected from a fresh read; schedules are edited and deleted by their
    owners, tasks and their steps by the queue. *)
Inductive fire_op :=
| FLease (now : Z) (o : Lease.op)
| FClaim (sid : string) (at_ : Z) (lease : Lease) (limit now wall : Z)
| FClaimManual (sid : string) (lease : Lease) (now : Z)
| FProjectManual (tid : string) (status : TaskStatus) (completed limit now : Z)
| FProjectRecurring (tid : string) (status : TaskStatus) (next : option Z) (limit now : Z)
| FLink (c : ScheduleFireClaim) (lease : Lease) (now : Z)
| FDispatch (c : ScheduleFireClaim) (lease : Lease) (now : Z)
| FSettleManual (c : ScheduleFireClaim) (lease : Lease) (status : string) (now : Z)
| FFail (c : ScheduleFireClaim) (lease : Lease) (error : string) (next : option Z) (errors : Z) (reason : option string) (now : Z)
| FManualFail (c : ScheduleFireClaim) (lease : Lease) (error : string) (now : Z)
| FAdvance (sid : string) (at_ : Z) (next : option Z) (status : string) (errors : Z) (lease : Lease) (now : Z)
| FPrepare (lease : Lease) (cutoff budget : Z) (start_new : bool) (now wall : Z)
| FReserve (lease : Lease) (now wall : Z)
| FRestore (lease : Lease) (now wall : Z)
| FComplete (lease : Lease) (now : Z)
| FEdit (sid : string) (s : schedule)
| FDelete (sid : string)
| FTasks (ts : gmap string task) (srs : list step_run).

Definition fire_exec (w : tables) (o : fire_op) : tables :=
  match o with
  | FLease now o => set_lease_table (Lease.exec (lease_table w) (now, o)) w
  | FClaim sid at_ lease limit now wall => (claim sid at_ lease limit now wall w).2
  | FClaimManual sid lease now => (claim_manual sid lease now w).2
  | FProjectManual tid st completed limit now => (project_manual_terminal_result tid st completed limit now w).2
  | FProjectRecurring tid st next limit now => (project_recurring_terminal_result (find_recurring tid w) tid st next limit now w).2
  | FLink c lease now => (link_manual_task c lease now w).2
  | FDispatch c lease now => (mark_dispatched c lease now w).2
  | FSettleManual c lease st now => (settle_manual_dispatched c lease st now w).2
  | FFail c lease error next errors reason now => (mark_failed c lease error next errors reason now w).2
  | FManualFail c lease error now => (mark_manual_failed c lease error now w).2
  | FAdvance sid at_ next st errors lease now => (advance_schedule sid at_ next st errors lease now w).2
  | FPrepare lease cutoff budget start_new now wall => (prepare_catchup lease cutoff budget start_new now wall w).2
  | FReserve lease now wall => (reserve_catchup_fire lease now wall w).2
  | FRestore lease now wall => (restore_catchup_fire lease now wall w).2
  | FComplete lease now => (complete_catchup lease now w).2
  | FEdit sid s => set_schedules (<[sid := s]> (schedules w)) w
  | FDelete sid => delete_schedule_row sid w
  | FTasks ts srs => set_step_runs srs (set_tasks ts w)
  end.

(** ** Fires under the statements *)

Definition fire_at (fid : string) (w : tables) : option fire := fires w !! fid.

Lemma update_fire_at fid fid' p f w :
  fire_at fid (update_fire fid' p f w).1 =
    match fire_at fid w with
    | Some x => Some (if bool_decide (fid = fid') && p x then f x else x)
    | None => None
    end.
Proof.
  unfold fire_at, update_fire. destruct (fires w !! fid') as [x|] eqn:Hx.
  - destruct (p x) eqn:Hp; cbn.
    + case_bool_decide as Hf; [subst; by rewrite lookup_insert_eq, Hx, Hp|]. rewrite lookup_insert_ne by done. by destruct (fires w !! fid).
    + case_bool_decide as Hf; [subst; by rewrite Hx, Hp|]. by destruct (fires w !! fid).
  - cbn. case_bool_decide as Hf; [subst; by rewrite Hx|]. by destruct (fires w !! fid).
Qed.

Lemma update_schedule_fires sid p f w : fires (update_schedule_row sid p f w).1 = fires w.
Proof. unfold update_schedule_row. by repeat case_match. Qed.

Lemma delete_fire_at fid sid w :
  fire_at fid (delete_schedule_row sid w) = match fire_at fid w with
                                            | Some x => if bool_decide (f_schedule_id x = sid) then None else Some x
                                            | None => None
                                            end.
Proof.
  unfold fire_at, delete_schedule_row. cbn. destruct (fires w !! fid) as [x|] eqn:Hx.
  - case_bool_decide as Hs; [|by apply map_lookup_filter_Some_2].
    apply map_lookup_filter_None_2. right. intros y Hy Hne. apply Hne. cbn. congruence.
  - apply map_lookup_filter_None_2. by left.
Qed.

Lemma insert_fire_at x ignore w w' fid y :
  insert_fire x ignore w = Some w' → fire_at fid w = Some y → fire_at fid w' = Some y.
Proof.
  unfold insert_fire, fire_at. destruct (existsb _ _); [by destruct ignore; intros [= <-]|].
  destruct (fires w !! fire_id x) eqn:Hx; [done|]. intros [= <-] Hy. cbn. rewrite lookup_insert_ne; [done|]. intros <-. congruence.
Qed.

(** ** The life of a fire *)

Definition fire_key (f : fire) : string * string * fire_kind * Z * option string :=
  (fire_id f, f_schedule_id f, f_kind f, scheduled_fire_at f, schedule_timezone f).

(** The statement is a claim of the occurrence. *)
Definition claims_fire (o : fire_op) (fid : string) : Prop :=
  match o with FClaim sid at_ _ _ _ _ => fid = schedule_fire_id sid at_ | _ => False end.

Definition settled (f : fire) : Prop := f_status f = FireDispatched ∨ f_status f = FireSkipped.

(** Nothing; another attempt, which a failed run has only by a claim; the end of an attempt; the
    end of its run. *)
Definition fire_step (o : fire_op) (f f' : fire) : Prop :=
  fire_key f' = fire_key f ∧
  (f_status f' = f_status f ∧ last_error f' = last_error f ∨
   (f_status f = FireClaimed ∨ f_status f = FireFailed ∧ claims_fire o (fire_id f)) ∧ (f_status f' = FireClaimed ∨ f_status f' = FireSkipped) ∨
   f_status f = FireClaimed ∧ (f_status f' = FireDispatched ∨ f_status f' = FireFailed) ∨
   is_terminal_fire f = false ∧ is_terminal_fire f' = true ∧ (f_status f' = FireDispatched ∨ f_status f' = FireFailed)).

(** No UPDATE touches the key. *)
Lemma fire_values_key vs f : fire_key (set_fire_values vs f) = fire_key f.
Proof.
  unfold set_fire_values. revert f. induction vs as [|v vs IH]; [done|]. intros f. cbn. rewrite IH. by destruct f, v.
Qed.

Lemma fire_values_id vs f : fire_id (set_fire_values vs f) = fire_id f.
Proof. by pose proof (f_equal (λ k, k.1.1.1.1) (fire_values_key vs f)). Qed.

Lemma fire_step_refl o f : fire_step o f f.
Proof. split; [done|]. by left. Qed.

(** The rows are stored under their own ids. *)
Definition fires_keyed (w : tables) : Prop := ∀ fid f, fire_at fid w = Some f → fire_id f = fid.

(** What an UPDATE of the fires does to every row. *)
Definition moved (o : fire_op) (w w' : tables) : Prop :=
  ∀ fid f, fire_at fid w = Some f → fire_at fid w' = None ∨ ∃ f', fire_at fid w' = Some f' ∧ fire_step o f f'.

Lemma moved_same o w w' : fires w' = fires w → moved o w w'.
Proof. intros H fid f Hf. right. exists f. split; [|apply fire_step_refl]. unfold fire_at. by rewrite H. Qed.

Lemma moved_update o w fid p f :
  (∀ x, fire_at fid w = Some x → p x = true → fire_step o x (f x)) → moved o w (update_fire fid p f w).1.
Proof.
  intros H fid' x Hx. right. rewrite update_fire_at, Hx. eexists. split; [done|].
  destruct (bool_decide (fid' = fid) && p x) eqn:Hp; [|apply fire_step_refl]. bool_facts. subst. by apply H.
Qed.

Lemma moved_schedule o w w1 sid p f : moved o w w1 → moved o w (update_schedule_row sid p f w1).1.
Proof. intros H fid x Hx. unfold fire_at in *. rewrite update_schedule_fires. by apply H. Qed.

Lemma moved_delete o w w1 sid : moved o w w1 → moved o w (delete_schedule_row sid w1).
Proof.
  intros H fid x Hx. rewrite delete_fire_at. destruct (H fid x Hx) as [-> |(f' & -> & Hs)]; [by left|].
  case_bool_decide; [by left|right; by exists f'].
Qed.

Lemma moved_insert o w w1 x ignore : insert_fire x ignore w = Some w1 → moved o w w1.
Proof. intros Hi fid f Hf. right. exists f. split; [by eapply insert_fire_at|apply fire_step_refl]. Qed.

Lemma listed_fire w f : fires_keyed w → f ∈ fire_list w → fire_at (fire_id f) w = Some f.
Proof.
  intros Hk ([i x] & -> & Hi%elem_of_map_to_list)%list_elem_of_fmap. cbn. by rewrite (Hk i x Hi).
Qed.

(** ** Every statement is a step of every fire *)

(** An UPDATE of a fire that was claimed, or that failed and is claimed by the statement. *)
Lemma attempt_step o f vs :
  f_status f = FireClaimed ∨ f_status f = FireFailed ∧ claims_fire o (fire_id f) →
  f_status (set_fire_values vs f) = FireClaimed ∨ f_status (set_fire_values vs f) = FireSkipped →
  fire_step o f (set_fire_values vs f).
Proof. intros H1 H2. split; [apply fire_values_key|]. by right; left. Qed.

(** A fire that a statement may have settled as failed on its way. *)
Definition replaced (x x' : fire) : Prop :=
  x' = x ∨ is_terminal_fire x = false ∧ fire_key x' = fire_key x ∧ f_status x' = FireFailed ∧ is_terminal_fire x' = true.

Lemma replaced_step o x x' : replaced x x' → fire_step o x x'.
Proof. intros [->|(Ht & Hk & Hs & Ht')]; [apply fire_step_refl|]. split; [done|]. right; right; right. auto. Qed.

Lemma replace_paused_fires sid limit wall s w fid x :
  fire_at fid w = Some x → ∃ x', fire_at fid (replace_paused sid limit wall s w).2 = Some x' ∧ replaced x x'.
Proof.
  intros Hx. unfold replace_paused. destruct (paused_tasks sid w) as [|t l]; [by exists x; split; [|left]|].
  eexists. split; [unfold fire_at in *; cbn; by rewrite lookup_fmap, Hx|].
  case_match eqn:Hc; [|by left]. right. apply andb_true_iff in Hc as [_ Hc]. apply negb_true_iff in Hc.
  split_and!; [done|by destruct x..].
Qed.

Lemma replaced_for_claim (b : bool) sid limit wall s w :
  ∀ fid x, fire_at fid w = Some x →
  ∃ x', fire_at fid (if b then replace_paused sid limit wall s w else ([], s, w)).2 = Some x' ∧ replaced x x'.
Proof. intros fid x Hx. destruct b; [by apply replace_paused_fires|]. exists x. split; [done|by left]. Qed.

Lemma claim_attempt o w w1 w2 fid f vs :
  fires_keyed w → (∀ k x, fire_at k w = Some x → fire_at k w1 = Some x) →
  (∀ k x, fire_at k w1 = Some x → ∃ x', fire_at k w2 = Some x' ∧ replaced x x') →
  fire_at fid w1 = Some f → f_status f ≠ FireDispatched → f_status f ≠ FireSkipped → claims_fire o fid →
  (∀ x, f_status (set_fire_values (vs x) x) = FireClaimed ∨ f_status (set_fire_values (vs x) x) = FireSkipped) →
  moved o w (update_fire fid (λ _, true) (λ x, set_fire_values (vs x) x) w2).1.
Proof.
  intros Hk H1 H2 Hf Hd Hsk Ho Hvs k x Hx. right. destruct (H2 k x (H1 k x Hx)) as (x' & Hx' & Hr).
  rewrite update_fire_at, Hx'. eexists. split; [done|]. case_bool_decide; cbn; [|by apply replaced_step]. subst.
  assert (fire_id x = fid) as Hid by by apply Hk. assert (f = x) as -> by (rewrite (H1 _ _ Hx) in Hf; congruence).
  split; [rewrite fire_values_key; destruct Hr as [->|(_ & ? & _)]; done|]. right; left. split; [|done].
  rewrite Hid. destruct (f_status x); by auto.
Qed.

Lemma claim_moved sid at_ lease limit now wall w :
  fires_keyed w → moved (FClaim sid at_ lease limit now wall) w (claim sid at_ lease limit now wall w).2.
Proof.
  intros Hk. unfold ScheduleFires.claim. destruct (negb _); [by apply moved_same|]. destruct (schedules w !! sid) as [s|]; [|by apply moved_same].
  destruct (_ || _); [by apply moved_same|]. destruct (insert_fire _ _ w) as [w1|] eqn:Hi; [|by apply moved_same].
  destruct (fires w1 !! _) as [f|] eqn:Hf; [|by apply moved_same]. destruct (negb _); [by apply moved_same|].
  destruct (bool_decide (f_status f = FireDispatched) || _) eqn:Hs; [by eapply moved_insert|]. bool_facts.
  assert (∀ k x, fire_at k w = Some x → fire_at k w1 = Some x) as H1 by (intros k x; by eapply insert_fire_at).
  destruct (tasks w1 !! _).
  - eapply (claim_attempt _ w w1 w1); try done; [intros k x Hx; exists x; split; [done|by left]|]. intros x. left. by destruct x.
  - pose proof (replaced_for_claim (fail_paused_task_on_next_fire s) sid limit wall s w1) as H2.
    destruct (if fail_paused_task_on_next_fire s then _ else _) as [[r s'] w2]. cbn in H2.
    destruct (_ <=? _); cbn; eapply (claim_attempt _ w w1 w2); try done; intros x; [right|left]; by destruct x.
Qed.

Lemma moved_new o w w1 x p f : insert_fire x false w = Some w1 → moved o w (update_fire (fire_id x) p f w1).1.
Proof.
  intros Hi k y Hy. right. pose proof (insert_fire_at _ _ _ _ _ _ Hi Hy) as Hy1. exists y. split; [|apply fire_step_refl].
  rewrite update_fire_at, Hy1. case_bool_decide; [subst|done]. exfalso. revert Hi. unfold insert_fire.
  unfold fire_at in Hy. rewrite Hy. by destruct (existsb _ _).
Qed.

Lemma manual_fires_elem f sid p w :
  f ∈ manual_fires sid p w → f ∈ fire_list w ∧ f_schedule_id f = sid ∧ f_kind f = Manual ∧ p f = true.
Proof. intros [H ?]%list_elem_of_filter. apply Is_true_true in H. bool_facts. auto. Qed.

Lemma claim_manual_moved sid lease now w :
  fires_keyed w → moved (FClaimManual sid lease now) w (claim_manual sid lease now w).2.
Proof.
  intros Hk. unfold ScheduleFires.claim_manual. destruct (negb _); [by apply moved_same|].
  destruct (schedules w !! sid) as [s|]; [|by apply moved_same]. destruct (_ && _); [by apply moved_same|].
  destruct (_ && bool_decide (next_fire_at s = None)); [by destruct (first_by _ _); apply moved_same|].
  destruct (first_by _ _) as [p|] eqn:Hp.
  - apply first_by_elem, manual_fires_elem in Hp as (Hl & _ & _ & Hs). bool_facts. apply moved_update.
    intros x Hx _. rewrite (listed_fire _ _ Hk Hl) in Hx. injection Hx as <-. apply attempt_step; [auto|left; by destruct p].
  - destruct (_manual_fire_at _ _ _ _) as [at_|]; [|by apply moved_same]. destruct (insert_fire _ _ _) as [w1|] eqn:Hi; [|by apply moved_same].
    destruct (_ <=? _); cbn; [|by apply (moved_new _ _ _ _ _ _ Hi)].
    repeat case_match; try apply moved_delete; try apply moved_schedule; by apply (moved_new _ _ _ _ _ _ Hi).
Qed.

Lemma dispatch_moved o c now w : moved o w (dispatch_fire c now w).1.
Proof. apply moved_update. intros x _ Hs. bool_facts. split; [by destruct x|]. right; right; left. split; [done|left]. by destruct x. Qed.

Lemma fail_moved o c error now w : moved o w (fail_fire c error now w).1.
Proof. apply moved_update. intros x _ Hs. bool_facts. split; [by destruct x|]. right; right; left. split; [done|right]. by destruct x. Qed.

Lemma link_moved o c lease now w : moved o w (link_manual_task c lease now w).2.
Proof.
  unfold link_manual_task. destruct (negb _); [by apply moved_same|]. destruct (update_fire _ _ _ w) as [w1 ok] eqn:Hu.
  assert (moved o w w1) as Hm.
  { change w1 with (w1, ok).1. rewrite <- Hu. apply moved_update. intros x _ _. split; [by destruct x|].
    left. by destruct x. }
  destruct ok; [done|]. destruct (fires w !! _); by apply moved_same.
Qed.

Lemma settle_moved o c lease st now w : moved o w (settle_manual_dispatched c lease st now w).2.
Proof.
  unfold settle_manual_dispatched. destruct (negb (_lock_lease _ _ _)); [by apply moved_same|].
  pose proof (dispatch_moved o c now w) as Hm. destruct (dispatch_fire c now w) as [w1 ok]. cbn in Hm.
  destruct (_ && _); [by apply moved_same|]. destruct (schedules w1 !! _) as [s|]; [|done].
  destruct (negb (bool_decide _)); [done|]. destruct (delete_after_run s); [by apply moved_delete|by apply moved_schedule].
Qed.

Lemma mark_failed_moved o c lease error next errors reason now w : moved o w (mark_failed c lease error next errors reason now w).2.
Proof.
  unfold mark_failed. destruct (negb _); [by apply moved_same|].
  pose proof (fail_moved o c error now w) as Hm. destruct (fail_fire c error now w) as [w1 ok]. cbn in Hm.
  destruct (update_schedule_row _ _ _ w1) as [w2 found] eqn:Hu. destruct found; [|by apply moved_same].
  change w2 with (w2, true).1. rewrite <- Hu. by apply moved_schedule.
Qed.

(** The end of a run that was not projected before. *)
Lemma terminal_moved o w f vs :
  fires_keyed w → f ∈ fire_list w → is_terminal_fire f = false →
  (f_status (set_fire_values vs f) = FireDispatched ∨ f_status (set_fire_values vs f) = FireFailed) →
  is_terminal_fire (set_fire_values vs f) = true →
  moved o w (update_fire (fire_id f) (λ _, true) (set_fire_values vs) w).1.
Proof.
  intros Hk Hl Ht Hs Ht'. apply moved_update. intros x Hx _. rewrite (listed_fire _ _ Hk Hl) in Hx. injection Hx as <-.
  split; [apply fire_values_key|]. right; right; right. auto.
Qed.

Lemma same_fires_moved o w w' s : moved o w w' → moved o w (set_schedules s w').
Proof. intros H. exact H. Qed.

Lemma terminal_text_prefix st text : terminal_text st = Some text → String.prefix "terminal:" ("terminal:" +:+ text) = true.
Proof. by destruct st; intros [= <-]. Qed.

Lemma listed_as (P : fire → Prop) `{∀ f, Decision (P f)} f l w : filter P (fire_list w) = f :: l → f ∈ fire_list w ∧ P f.
Proof. intros He. assert (f ∈ filter P (fire_list w)) as [? ?]%list_elem_of_filter by (rewrite He; by left). done. Qed.

Lemma project_manual_moved tid st completed limit now w :
  fires_keyed w → moved (FProjectManual tid st completed limit now) w (project_manual_terminal_result tid st completed limit now w).2.
Proof.
  intros Hk. unfold project_manual_terminal_result. destruct (terminal_text st) as [text|] eqn:Htx; [|by apply moved_same].
  destruct (filter _ _) as [|f [|? ?]] eqn:Hf; [by apply moved_same| |by apply moved_same]. apply listed_as in Hf as [Hf _].
  destruct (is_terminal_fire f) eqn:Ht; [by apply moved_same|]. destruct (schedules w !! _) as [s|]; [|by apply moved_same].
  destruct (match st with COMPLETED => _ | CANCELLED => _ | _ => _ end) as [[s2 off] auto]. cbn. apply same_fires_moved.
  apply terminal_moved; [done..| |]; destruct f; [by destruct st; [right..|left|right|right]|].
  cbn. by apply (terminal_text_prefix st).
Qed.

Lemma changed_values f old_error old_status x :
  last_error f = old_error → f_status f = old_status → ∀ error st now,
  x = set_fire_values (changed old_error error FError ++ changed old_status st FStatus ++ [FUpdated now]) f →
  f_status x = st ∧ last_error x = error.
Proof. intros <- <- error st now ->. unfold changed. by repeat case_bool_decide; destruct f. Qed.

Lemma find_recurring_elem tid w f :
  find_recurring tid w = Some f → f ∈ fire_list w ∧ f_task_id f = Some tid ∧ f_kind f = Recurring.
Proof.
  unfold find_recurring. destruct (filter _ _) as [|g [|? ?]] eqn:Hf; [done| |done]. intros [= ->]. apply listed_as in Hf as [Hf Hp].
  split; [done|]. apply Is_true_true in Hp. bool_facts. done.
Qed.

Lemma project_recurring_moved tid st next limit now w :
  fires_keyed w →
  moved (FProjectRecurring tid st next limit now) w (project_recurring_terminal_result (find_recurring tid w) tid st next limit now w).2.
Proof.
  intros Hk. unfold project_recurring_terminal_result. destruct (terminal_text st) as [text|] eqn:Htx; [|by apply moved_same].
  destruct (find_recurring tid w) as [f|] eqn:Hf; [|by apply moved_same]. apply find_recurring_elem in Hf as [Hf _].
  destruct (schedules w !! _) as [s|]; [|by apply moved_same]. destruct (fires w !! _) as [g|]; [|by apply moved_same].
  destruct (is_terminal_fire f) eqn:Ht; [by apply moved_same|].
  destruct (match st with FAILED => fail_schedule _ _ _ | _ => _ end) as [[s2 off] auto]. cbn. apply same_fires_moved.
  edestruct changed_values as [H1 H2]; [done..|]. apply terminal_moved; [done..| |].
  - rewrite H1. destruct st; auto.
  - unfold is_terminal_fire. rewrite H2. by apply (terminal_text_prefix st).
Qed.

Lemma exec_moved w o : fires_keyed w → moved o w (fire_exec w o).
Proof.
  intros Hk. destruct o; cbn.
  - by apply moved_same.
  - by apply claim_moved.
  - by apply claim_manual_moved.
  - by apply project_manual_moved.
  - by apply project_recurring_moved.
  - apply link_moved.
  - unfold mark_dispatched. destruct (negb _); [by apply moved_same|].
    pose proof (dispatch_moved (FDispatch c lease now) c now w) as Hm. by destruct (dispatch_fire c now w).
  - apply settle_moved.
  - apply mark_failed_moved.
  - unfold mark_manual_failed. destruct (negb _); [by apply moved_same|].
    pose proof (fail_moved (FManualFail c lease error now) c error now w) as Hm. by destruct (fail_fire c error now w).
  - unfold advance_schedule. destruct (negb _); [by apply moved_same|]. destruct (update_schedule_row _ _ _ w) as [w1 ok] eqn:Hu. cbn.
    change w1 with (w1, ok).1. rewrite <- Hu. by apply moved_schedule, moved_same.
  - apply moved_same. unfold prepare_catchup. by repeat case_match.
  - apply moved_same. unfold reserve_catchup_fire. by repeat case_match.
  - apply moved_same. unfold restore_catchup_fire. by repeat case_match.
  - apply moved_same. unfold complete_catchup. by repeat case_match.
  - by apply moved_same.
  - by apply moved_delete, moved_same.
  - by apply moved_same.
Qed.

(** ** The rows stay under their ids *)

Lemma keyed_same w w' : fires w' = fires w → fires_keyed w → fires_keyed w'.
Proof. intros He Hk fid f Hf. apply Hk. unfold fire_at in *. by rewrite <- He. Qed.

Lemma keyed_update w w' fid p vs ok :
  update_fire fid p (set_fire_values vs) w = (w', ok) → fires_keyed w → fires_keyed w'.
Proof.
  intros Hu Hk k f. change w' with (w', ok).1. rewrite <- Hu, update_fire_at. destruct (fire_at k w) as [x|] eqn:Hx; [|done].
  intros [= <-]. destruct (_ && _); [rewrite fire_values_id|]; by apply Hk.
Qed.

Lemma keyed_reclaim w fid p task at_ : fires_keyed w → fires_keyed (update_fire fid p (reclaim task at_) w).1.
Proof.
  intros Hk k f. rewrite update_fire_at. destruct (fire_at k w) as [x|] eqn:Hx; [|done]. intros [= <-].
  unfold reclaim. destruct (_ && _); [rewrite fire_values_id|]; by apply Hk.
Qed.

Lemma keyed_schedule w w' sid p f ok : update_schedule_row sid p f w = (w', ok) → fires_keyed w → fires_keyed w'.
Proof. intros Hu. apply keyed_same. change w' with (w', ok).1. rewrite <- Hu. apply update_schedule_fires. Qed.

Lemma keyed_delete w sid : fires_keyed w → fires_keyed (delete_schedule_row sid w).
Proof. intros Hk k f. rewrite delete_fire_at. destruct (fire_at k w) as [x|] eqn:Hx; [|done]. case_bool_decide; intros [= <-]. by apply Hk. Qed.

Lemma keyed_insert w w' x ignore : insert_fire x ignore w = Some w' → fires_keyed w → fires_keyed w'.
Proof.
  unfold insert_fire. destruct (existsb _ _); [by destruct ignore; intros [= <-]|]. destruct (fires w !! _); [done|]. intros [= <-] Hk k f.
  unfold fire_at. cbn. destruct (decide (k = fire_id x)) as [->|Hne]; [rewrite lookup_insert_eq; by intros [= <-]|].
  rewrite lookup_insert_ne by done. apply Hk.
Qed.

Lemma keyed_replace (b : bool) sid limit wall s w r s' w' :
  (if b then replace_paused sid limit wall s w else ([], s, w)) = (r, s', w') → fires_keyed w → fires_keyed w'.
Proof.
  destruct b; [|by intros [= <- <- <-]]. unfold replace_paused. destruct (paused_tasks sid w) as [|t l]; [by intros [= <- <- <-]|].
  intros [= <- <- <-] Hk k f. unfold fire_at. cbn. rewrite lookup_fmap. destruct (fires w !! k) as [x|] eqn:Hx; [|done].
  intros [= <-]. specialize (Hk k x Hx). case_match; [|done]. by destruct x.
Qed.

Create HintDb fires.
#[local] Hint Resolve keyed_same keyed_update keyed_reclaim keyed_schedule keyed_delete keyed_insert keyed_replace : fires.

(** A row updated from a row of the table. *)
Lemma keyed_update_row w fid p (vs : fire → list fire_value) :
  fires_keyed w → fires_keyed (update_fire fid p (λ f, set_fire_values (vs f) f) w).1.
Proof.
  intros Hk k f. rewrite update_fire_at. destruct (fire_at k w) as [x|] eqn:Hx; [|done]. intros [= <-].
  destruct (_ && _); [rewrite fire_values_id|]; by apply Hk.
Qed.

Lemma keyed_update_values w fid p vs : fires_keyed w → fires_keyed (update_fire fid p (set_fire_values vs) w).1.
Proof. exact (keyed_update_row w fid p (λ _, vs)). Qed.

Lemma keyed_schedule_values w sid p f : fires_keyed w → fires_keyed (update_schedule_row sid p f w).1.
Proof. apply keyed_same, update_schedule_fires. Qed.

Lemma keyed_set_schedules w s : fires_keyed w → fires_keyed (set_schedules s w).
Proof. by apply keyed_same. Qed.
#[local] Hint Resolve keyed_update_row keyed_update_values keyed_schedule_values keyed_set_schedules : fires.

Ltac keyed := repeat case_match; cbn [fst snd] in *; simplify_eq; eauto 6 with fires.

Lemma claim_keyed sid at_ lease limit now wall w : fires_keyed w → fires_keyed (claim sid at_ lease limit now wall w).2.
Proof.
  intros Hk. unfold ScheduleFires.claim. destruct (negb _); [done|]. destruct (schedules w !! sid) as [s|]; [|done].
  destruct (_ || _); [done|]. destruct (insert_fire _ _ w) as [w1|] eqn:Hi; [|done]. apply keyed_insert in Hi; [|done].
  destruct (fires w1 !! _) as [f|]; [|done]. destruct (negb _); [done|]. destruct (_ || _); [done|].
  destruct (tasks w1 !! _); [by apply keyed_reclaim|].
  destruct (if fail_paused_task_on_next_fire s then _ else _) as [[r s'] w2] eqn:Hr. apply keyed_replace in Hr; [|done].
  destruct (_ <=? _); cbn; auto with fires.
Qed.

Lemma exec_keyed w o : fires_keyed w → fires_keyed (fire_exec w o).
Proof.
  intros Hk. destruct o; cbn.
  all: try by apply (keyed_same w).
  - by apply claim_keyed.
  - unfold ScheduleFires.claim_manual. keyed.
  - unfold project_manual_terminal_result. keyed.
  - unfold project_recurring_terminal_result. keyed.
  - unfold link_manual_task. keyed.
  - unfold mark_dispatched, dispatch_fire. keyed.
  - unfold settle_manual_dispatched, dispatch_fire. keyed.
  - unfold mark_failed, fail_fire. keyed.
  - unfold mark_manual_failed, fail_fire. keyed.
  - unfold advance_schedule. keyed.
  - unfold prepare_catchup. keyed.
  - unfold reserve_catchup_fire. keyed.
  - unfold restore_catchup_fire. keyed.
  - unfold complete_catchup. keyed.
  - by apply keyed_delete.
Qed.

(** ** Along a history *)

Notation history w tr := (run fire_exec w tr).

Lemma history_keyed w tr : fires_keyed w → fires_keyed (history w tr).
Proof. intros Hk. apply run_invariant; [done|]. intros. by apply exec_keyed. Qed.

(** What a fire keeps until a statement [leaves] it, or deletes the row. *)
Lemma history_keeps (P : fire → Prop) (leaves : tables → fire_op → Prop) fid :
  (∀ w o f f', fire_at fid w = Some f → fire_id f = fid → fire_at fid (fire_exec w o) = Some f' → fire_step o f f' → P f → P f' ∨ leaves w o) →
  ∀ tr w f, fires_keyed w → fire_at fid w = Some f → P f →
  (∃ f', fire_at fid (history w tr) = Some f' ∧ P f') ∨
  ∃ pre o post, tr = pre ++ o :: post ∧ (leaves (history w pre) o ∨ fire_at fid (history w (pre ++ [o])) = None).
Proof.
  intros Hstep tr. induction tr as [|o tr IH]; intros w f Hk Hf HP; [left; by exists f|].
  destruct (exec_moved w o Hk fid f Hf) as [Hn|(f' & Hf' & Hs)].
  { right. exists [], o, tr. split; [done|by right]. }
  destruct (Hstep w o f f' Hf (Hk _ _ Hf) Hf' Hs HP) as [HP'|Hl].
  - destruct (IH (fire_exec w o) f' (exec_keyed w o Hk) Hf' HP') as [?|(pre & o' & post & -> & Hl)]; [by left|].
    right. by exists (o :: pre), o', post.
  - right. exists [], o, tr. split; [done|by left].
Qed.

(** ** A claim *)

Lemma claim_handed_out sid at_ lease limit now wall w c w' :
  claim sid at_ lease limit now wall w = (Ok (Some c), w') → should_dispatch c = true →
  match fire_at (schedule_fire_id sid at_) w with Some f => ¬ settled f | None => True end.
Proof.
  unfold ScheduleFires.claim. destruct (negb _); [done|]. destruct (schedules w !! sid) as [s|]; [|done].
  destruct (_ || _); [done|]. destruct (insert_fire _ _ w) as [w1|] eqn:Hi; [|done].
  destruct (fires w1 !! _) as [f|] eqn:Hf; [|done]. destruct (negb _); [done|].
  destruct (bool_decide (f_status f = FireDispatched) || _) eqn:Hs; [by intros [= <- <-]|]. intros _ _.
  destruct (fire_at _ w) as [g|] eqn:Hg; [|done]. pose proof (insert_fire_at _ _ _ _ _ _ Hi Hg) as Hg1.
  unfold fire_at in Hg1. rewrite Hg1 in Hf. injection Hf as ->. intros [H|H]; rewrite H in Hs; by cbn in Hs.
Qed.

(** C24. An occurrence that was dispatched or skipped, at any point of any history of claims,
    settlements, projections, edits and deletions, is handed out for dispatch again only when some
    statement before made its row a failed one, or deleted it. *)
Theorem occurrence_runs_again_only_after_failure w f sid at_ tr lease limit now wall c w' :
  fires_keyed w → fire_at (schedule_fire_id sid at_) w = Some f → settled f →
  claim sid at_ lease limit now wall (history w tr) = (Ok (Some c), w') → should_dispatch c = true →
  ∃ pre post, tr = pre ++ post ∧
    match fire_at (schedule_fire_id sid at_) (history w pre) with Some g => f_status g = FireFailed | None => True end.
Proof.
  intros Hk Hf Hs Hc Hd. apply claim_handed_out in Hc; [|done]. set (fid := schedule_fire_id sid at_) in *.
  destruct (history_keeps settled (λ w o, ∃ g, fire_at fid (fire_exec w o) = Some g ∧ f_status g = FireFailed) fid) with (tr := tr) (w := w) (f := f)
    as [(g & Hg & HP)|(pre & o & post & -> & Hl)]; try done.
  - intros w0 o g g' _ _ Hg' [_ Hstep] HP. unfold settled in *.
    destruct Hstep as [[-> _]|[[[Hx|[Hx _]] _]|[[Hx _]|(_ & _ & [Hx|Hx])]]]; [by left|destruct HP; congruence..|by left; left|right; by exists g'].
  - by rewrite Hg in Hc.
  - exists (pre ++ [o]), post. rewrite <- app_assoc. split; [done|]. destruct Hl as [(g & Hg & Hx)| ->]; [|done].
    rewrite run_app. cbn. by rewrite Hg.
Qed.

(** A result that is there is not projected again. *)
Lemma project_again_recurring tid st next limit now w f :
  find_recurring tid w = Some f → fires_keyed w → is_terminal_fire f = true →
  project_recurring_terminal_result (find_recurring tid w) tid st next limit now w = (Ok None, w).
Proof.
  intros Hf Hk Ht. unfold project_recurring_terminal_result. rewrite Hf. destruct (terminal_text st); [|done].
  destruct (schedules w !! _); [|done]. apply find_recurring_elem in Hf as [Hl _]. apply listed_fire in Hl; [|done].
  unfold fire_at in Hl. by rewrite Hl, Ht.
Qed.

(** A statement of the history claimed the fire while it was a failed one, or deleted it. *)
Definition reopened (fid : string) (w : tables) (tr : list fire_op) : Prop :=
  ∃ pre o post, tr = pre ++ o :: post ∧
    ((∃ g, fire_at fid (history w pre) = Some g ∧ f_status g = FireFailed ∧ claims_fire o fid) ∨ fire_at fid (history w (pre ++ [o])) = None).

Lemma projected tid st next limit now w p w1 :
  fires_keyed w → project_recurring_terminal_result (find_recurring tid w) tid st next limit now w = (Ok (Some p), w1) →
  ∃ f g, find_recurring tid w = Some f ∧ fire_at (fire_id f) w1 = Some g ∧ is_terminal_fire g = true ∧ f_status g ≠ FireClaimed.
Proof.
  intros Hk. unfold project_recurring_terminal_result. destruct (terminal_text st) as [text|] eqn:Htx; [|done].
  destruct (find_recurring tid w) as [f|] eqn:Hf; [|done]. apply find_recurring_elem in Hf as [Hl _].
  pose proof (listed_fire _ _ Hk Hl) as Hfw. destruct (schedules w !! _) as [s|]; [|done]. destruct (fires w !! _) as [f'|] eqn:Hf'; [|done].
  destruct (is_terminal_fire f); [done|]. destruct (match st with FAILED => fail_schedule _ _ _ | _ => _ end) as [[s2 off] auto].
  intros [= _ <-]. eexists f, _. split; [done|]. split.
  { unfold fire_at. cbn. fold (fire_at (fire_id f) (update_fire (fire_id f) (λ _, true)
      (set_fire_values (changed (last_error f) (Some ("terminal:" +:+ text)) FError ++
         changed (f_status f) (match st with FAILED => FireFailed | _ => FireDispatched end) FStatus ++ [FUpdated now])) w).1).
    rewrite update_fire_at, Hfw, bool_decide_true by done. done. }
  edestruct changed_values as [H1 H2]; [done..|]. cbn -[set_fire_values changed]. unfold is_terminal_fire. rewrite H1, H2.
  split; [by apply (terminal_text_prefix st)|by destruct st].
Qed.

(** The result of a task that a schedule started is projected on the schedule once: after a
    projection, in every history, the row of the occurrence carries that result and projecting it
    again changes nothing and tells the caller so, until a claim hands out the occurrence of a
    failed run again, or the row is deleted. *)
Theorem results_count_once w tid st next limit now p w1 tr :
  fires_keyed w → project_recurring_terminal_result (find_recurring tid w) tid st next limit now w = (Ok (Some p), w1) →
  ∃ f, find_recurring tid w = Some f ∧
    (reopened (fire_id f) w1 tr ∨
     ∃ g, fire_at (fire_id f) (history w1 tr) = Some g ∧ is_terminal_fire g = true ∧
       ∀ tid' st' next' limit' now', find_recurring tid' (history w1 tr) = Some g →
         project_recurring_terminal_result (find_recurring tid' (history w1 tr)) tid' st' next' limit' now' (history w1 tr) =
           (Ok None, history w1 tr)).
Proof.
  intros Hk Hp. pose proof (exec_keyed w (FProjectRecurring tid st next limit now) Hk) as Hk1. cbn in Hk1. rewrite Hp in Hk1. cbn in Hk1.
  destruct (projected _ _ _ _ _ _ _ _ Hk Hp) as (f & g & Hf & Hg & Ht & Hs). exists f. split; [done|].
  destruct (history_keeps (λ x, is_terminal_fire x = true ∧ f_status x ≠ FireClaimed)
              (λ w o, ∃ x, fire_at (fire_id f) w = Some x ∧ f_status x = FireFailed ∧ claims_fire o (fire_id f)) (fire_id f))
    with (tr := tr) (w := w1) (f := g) as [(x & Hx & Hxt & _)|Hl]; try done.
  - intros w0 o x x' Hx Hid _ [_ Hstep] [Hxt Hxs]. unfold is_terminal_fire in *.
    destruct Hstep as [[-> ->]|[[[?|[Hf' Hc]] _]|[[? _]|(Hn & _)]]]; [by left|done| |done|congruence].
    right. exists x. rewrite Hid in Hc. done.
  - right. exists x. split_and!; [done..|]. intros. eapply project_again_recurring; [done|by apply history_keyed|done].
  - by left.
Qed.

(** ** The leases and the catch-up next to the fires *)

Definition beside (w : tables) : gmap string lease_row * option catchup_state := (lease_table w, catchup w).

Lemma beside_update fid p f w : beside (update_fire fid p f w).1 = beside w.
Proof. unfold update_fire. by repeat case_match. Qed.

Lemma beside_schedule sid p f w : beside (update_schedule_row sid p f w).1 = beside w.
Proof. unfold update_schedule_row. by repeat case_match. Qed.

Lemma beside_delete sid w : beside (delete_schedule_row sid w) = beside w.
Proof. done. Qed.

Lemma beside_insert x ignore w w' : insert_fire x ignore w = Some w' → beside w' = beside w.
Proof. unfold insert_fire. repeat case_match; by intros [= <-]. Qed.

Lemma beside_replace (b : bool) sid limit wall s w :
  beside (if b then replace_paused sid limit wall s w else ([], s, w)).2 = beside w.
Proof. destruct b; [|done]. unfold replace_paused. by destruct (paused_tasks sid w). Qed.

Lemma beside_claim sid at_ lease limit now wall w : beside (claim sid at_ lease limit now wall w).2 = beside w.
Proof.
  unfold ScheduleFires.claim. destruct (negb _); [done|]. destruct (schedules w !! sid) as [s|]; [|done].
  destruct (_ || _); [done|]. destruct (insert_fire _ _ w) as [w1|] eqn:Hi; [|done]. apply beside_insert in Hi.
  destruct (fires w1 !! _) as [f|]; [|done]. destruct (negb _); [done|]. destruct (_ || _); [done|].
  destruct (tasks w1 !! _); [cbn; by rewrite beside_update|].
  pose proof (beside_replace (fail_paused_task_on_next_fire s) sid limit wall s w1) as Hr.
  destruct (if fail_paused_task_on_next_fire s then _ else _) as [[r s'] w2]. cbn in Hr.
  destruct (_ <=? _); cbn; by rewrite beside_update, Hr.
Qed.

Lemma beside_claim_manual sid lease now w : beside (claim_manual sid lease now w).2 = beside w.
Proof.
  unfold ScheduleFires.claim_manual. destruct (negb _); [done|]. destruct (schedules w !! sid) as [s|]; [|done].
  destruct (_ && _); [done|]. destruct (_ && bool_decide (next_fire_at s = None)); [by destruct (first_by _ _)|].
  destruct (first_by _ _) as [p|]; [cbn; by rewrite beside_update|]. destruct (_manual_fire_at _ _ _ _) as [at_|]; [|done].
  destruct (insert_fire _ _ _) as [w1|] eqn:Hi; [|done]. apply beside_insert in Hi. destruct (_ <=? _); cbn -[delete_schedule_row].
  - repeat case_match; by rewrite ?beside_delete, ?beside_schedule, beside_update, Hi.
  - by rewrite beside_update, Hi.
Qed.

Lemma beside_dispatch c now w : beside (dispatch_fire c now w).1 = beside w.
Proof. apply beside_update. Qed.

Lemma beside_fail c error now w : beside (fail_fire c error now w).1 = beside w.
Proof. apply beside_update. Qed.

(** The methods that lock the lease, with their lease and clock. *)
Definition op_lease (o : fire_op) : option (Lease * Z) :=
  match o with
  | FClaim _ _ lease _ now _ | FClaimManual _ lease now | FLink _ lease now | FDispatch _ lease now | FSettleManual _ lease _ now
  | FFail _ lease _ _ _ _ now | FManualFail _ lease _ now | FAdvance _ _ _ _ _ lease now | FPrepare lease _ _ _ now _
  | FReserve lease now _ | FRestore lease now _ | FComplete lease now => Some (lease, now)
  | _ => None
  end.

Definition catchup_op (o : fire_op) : bool :=
  match o with FPrepare _ _ _ _ _ _ | FReserve _ _ _ | FRestore _ _ _ | FComplete _ _ => true | _ => false end.

Lemma exec_beside w o :
  match o with
  | FLease now lo => beside (fire_exec w o) = (Lease.exec (lease_table w) (now, lo), catchup w)
  | FPrepare _ _ _ _ _ _ | FReserve _ _ _ | FRestore _ _ _ | FComplete _ _ => lease_table (fire_exec w o) = lease_table w
  | _ => beside (fire_exec w o) = beside w
  end.
Proof.
  destruct o; cbn; try done.
  - apply beside_claim.
  - apply beside_claim_manual.
  - unfold project_manual_terminal_result. destruct (terminal_text status); [|done]. destruct (filter _ _) as [|f [|? ?]]; [done| |done].
    destruct (is_terminal_fire f); [done|]. destruct (schedules w !! _) as [row|]; [|done].
    destruct (match status with COMPLETED => _ | CANCELLED => _ | _ => _ end) as [[s2 off] auto]. apply (beside_update (fire_id f) _ _ w).
  - unfold project_recurring_terminal_result. destruct (terminal_text status); [|done]. destruct (find_recurring tid w) as [f|]; [|done].
    destruct (schedules w !! _) as [row|]; [|done]. destruct (fires w !! _); [|done]. destruct (is_terminal_fire f); [done|].
    destruct (match status with FAILED => fail_schedule _ _ _ | _ => _ end) as [[s2 off] auto]. apply (beside_update (fire_id f) _ _ w).
  - unfold link_manual_task. destruct (negb _); [done|]. destruct (update_fire _ _ _ w) as [w1 ok] eqn:Hu.
    assert (beside w1 = beside w) by (change w1 with (w1, ok).1; rewrite <- Hu; apply beside_update). by repeat case_match.
  - unfold mark_dispatched. destruct (negb _); [done|]. pose proof (beside_dispatch c now w). by destruct (dispatch_fire c now w).
  - unfold settle_manual_dispatched. destruct (negb (_lock_lease _ _ _)); [done|]. pose proof (beside_dispatch c now w) as Hd.
    destruct (dispatch_fire c now w) as [w1 ok]. cbn in Hd. destruct (_ && _); [done|]. destruct (schedules w1 !! _) as [row|]; [|done].
    destruct (negb (bool_decide _)); [done|]. destruct (delete_after_run row); [done|]. cbn. by rewrite beside_schedule.
  - unfold mark_failed. destruct (negb _); [done|]. pose proof (beside_fail c error now w) as Hd.
    destruct (fail_fire c error now w) as [w1 ok]. cbn in Hd. destruct (update_schedule_row _ _ _ w1) as [w2 found] eqn:Hu.
    destruct found; [|done]. change w2 with (w2, true).1. rewrite <- Hu. cbn. by rewrite beside_schedule.
  - unfold mark_manual_failed. destruct (negb _); [done|]. pose proof (beside_fail c error now w). by destruct (fail_fire c error now w).
  - unfold advance_schedule. destruct (negb _); [done|]. destruct (update_schedule_row _ _ _ w) as [w1 ok] eqn:Hu.
    change w1 with (w1, ok).1. rewrite <- Hu. apply beside_schedule.
  - unfold prepare_catchup. by repeat case_match.
  - unfold reserve_catchup_fire. by repeat case_match.
  - unfold restore_catchup_fire. by repeat case_match.
  - unfold complete_catchup. by repeat case_match.
Qed.

Lemma exec_fence w o k : fence (lease_table w) k ≤ fence (lease_table (fire_exec w o)) k.
Proof.
  pose proof (exec_beside w o) as H. destruct o; try (rewrite H; lia); try (rewrite (f_equal fst H : lease_table _ = lease_table _); lia).
  rewrite (f_equal fst H : lease_table _ = Lease.exec _ _). apply exec_fence_le.
Qed.

Lemma history_fence w tr k : fence (lease_table w) k ≤ fence (lease_table (history w tr)) k.
Proof.
  revert w. induction tr as [|o tr IH]; intros w; [done|]. rewrite run_cons. pose proof (exec_fence w o k). pose proof (IH (fire_exec w o)). lia.
Qed.

(** Without the lease every method that locks it changes nothing. *)
Lemma lost_lease w o lease now : op_lease o = Some (lease, now) → _lock_lease w lease now = false → fire_exec w o = w.
Proof.
  intros Ho Hl. destruct o; try done; injection Ho as -> ->; cbn;
    unfold ScheduleFires.claim, ScheduleFires.claim_manual, link_manual_task, mark_dispatched, settle_manual_dispatched, mark_failed,
      mark_manual_failed, advance_schedule, prepare_catchup, reserve_catchup_fire, restore_catchup_fire, complete_catchup; by rewrite Hl.
Qed.

(** Once a newer fence exists for a schedule (or for the startup catch-up), no later call by a
    controller that holds an older lease of it changes anything, whatever was done in between: it
    claims, links, dispatches, settles, fails and advances nothing, and it takes nothing from the
    budget. *)
Theorem superseded_scheduler_is_powerless w tr o lease now :
  op_lease o = Some (lease, now) → fencing_token lease < fence (lease_table w) (resource_key lease) →
  fire_exec (history w tr) o = history w tr.
Proof.
  intros Ho Hf. eapply lost_lease; [done|]. apply stale_not_current. pose proof (history_fence w tr (resource_key lease)). lia.
Qed.

(** ** The budget of the catch-up *)

Definition reserves (w : tables) (o : fire_op) : Z :=
  match o with FReserve lease now wall => (match (reserve_catchup_fire lease now wall w).1 with Some _ => 1 | None => 0 end) | _ => 0 end.
Definition restores (w : tables) (o : fire_op) : Z :=
  match o with FRestore lease now wall => (match (restore_catchup_fire lease now wall w).1 with Some _ => 1 | None => 0 end) | _ => 0 end.

(** How often a history did something. *)
Fixpoint total (what : tables → fire_op → Z) (w : tables) (tr : list fire_op) : Z :=
  match tr with [] => 0 | o :: tr => what w o + total what (fire_exec w o) tr end.

Definition completes (o : fire_op) : bool := match o with FComplete _ _ => true | _ => false end.

Lemma budget_step w o st :
  catchup w = Some st → catchup_is_active st = true → 0 ≤ remaining_budget st → completes o = false →
  ∃ st', catchup (fire_exec w o) = Some st' ∧ catchup_is_active st' = true ∧ cutoff_at st' = cutoff_at st ∧
    remaining_budget st' = remaining_budget st - reserves w o + restores w o ∧ 0 ≤ remaining_budget st'.
Proof.
  intros Hst Ha Hr Hc. pose proof (exec_beside w o) as H.
  destruct o; try done; try (exists st; rewrite (f_equal snd H : catchup _ = catchup _); cbn; split_and!; [done..|lia|done]); cbn.
  - unfold prepare_catchup. rewrite Hst, Ha. exists st. destruct (negb _); cbn; split_and!; try done; lia.
  - unfold reserve_catchup_fire. rewrite Hst, Ha. destruct (negb _); cbn; [exists st; split_and!; try done; lia|].
    destruct (_ <=? 0) eqn:Hz; cbn; [exists st; split_and!; try done; lia|]. bool_facts. eexists. split; [done|]. cbn. split_and!; try done; lia.
  - unfold restore_catchup_fire. rewrite Hst, Ha. destruct (negb _); cbn; [exists st; split_and!; try done; lia|].
    eexists. split; [done|]. cbn. split_and!; try done; lia.
Qed.

(** While a catch-up is not completed, its budget is the budget it had less every reservation
    granted since plus every reservation given back, by whichever controller and lease, it is
    never negative, and its cutoff stays: no more reservations are granted than the budget and the
    ones given back. *)
Theorem catchup_budget_is_kept w st tr :
  catchup w = Some st → catchup_is_active st = true → 0 ≤ remaining_budget st → Forall (λ o, completes o = false) tr →
  ∃ st', catchup (history w tr) = Some st' ∧ catchup_is_active st' = true ∧ cutoff_at st' = cutoff_at st ∧
    remaining_budget st' = remaining_budget st - total reserves w tr + total restores w tr ∧ 0 ≤ remaining_budget st'.
Proof.
  intros Hst Ha Hr Htr. revert w st Hst Ha Hr. induction Htr as [|o tr Ho _ IH]; intros w st Hst Ha Hr.
  - exists st. cbn. split_and!; try done; lia.
  - destruct (budget_step w o st Hst Ha Hr Ho) as (st1 & H1 & Ha1 & Hc1 & Hb1 & Hr1). rewrite run_cons.
    destruct (IH _ _ H1 Ha1 Hr1) as (st' & H' & Ha' & Hc' & Hb' & Hr'). exists st'. cbn [total]. split_and!; [done..|congruence| |done]. lia.
Qed.
(** ** What a claim does *)

Lemma replace_keeps_limit (b : bool) sid limit wall s w :
  max_concurrent_runs (if b then replace_paused sid limit wall s w else ([], s, w)).1.2 = max_concurrent_runs s.
Proof.
  destruct b; [|done]. unfold replace_paused. destruct (paused_tasks sid w); [done|]. unfold count_failures. by case_match; destruct s.
Qed.

Lemma active_count_update sid fid p f w : active_count sid (update_fire fid p f w).1 = active_count sid w.
Proof. unfold update_fire. by repeat case_match. Qed.

Lemma insert_fire_tasks x ignore w w' : insert_fire x ignore w = Some w' → tasks w' = tasks w.
Proof. unfold insert_fire. repeat case_match; by intros [= <-]. Qed.

Lemma update_all_at fid f w x : fire_at fid w = Some x → fire_at fid (update_fire fid (λ _, true) f w).1 = Some (f x).
Proof. intros Hx. by rewrite update_fire_at, Hx, bool_decide_true. Qed.

(** What claiming an occurrence does, on every path: nothing at all unless the caller holds the
    lease and the schedule is enabled and due at that very time.  Otherwise the caller learns the
    state the row now has; it is told to dispatch just when the row is claimed without an error,
    and then either the task exists already or, paused runs that the schedule replaces aside, fewer
    than [max_concurrent_runs] tasks of the schedule are active.  Else the row is settled. *)
Theorem claim_outcome sid at_ lease limit now wall w :
  match claim sid at_ lease limit now wall w with
  | (Ok (Some c), w') =>
      ∃ s f, schedules w !! sid = Some s ∧ enabled s = true ∧ next_fire_at s = Some at_ ∧ _lock_lease w lease now = true ∧
        fc_fire_id c = schedule_fire_id sid at_ ∧ fire_at (fc_fire_id c) w' = Some f ∧ f_status f = fc_status c ∧
        if should_dispatch c
        then f_status f = FireClaimed ∧ last_error f = None ∧
             (is_Some (tasks w !! fc_task_id c) ∨ active_count sid w' < max_concurrent_runs s)
        else settled f
  | (_, w') => w' = w
  end.
Proof.
  unfold ScheduleFires.claim. destruct (negb (_lock_lease w lease now)) eqn:Hl; [done|]. destruct (schedules w !! sid) as [s|] eqn:Hs; [|done].
  destruct (negb (enabled s) || _) eqn:He; [done|]. bool_facts. destruct (insert_fire _ _ w) as [w1|] eqn:Hi; [|done].
  destruct (fires w1 !! _) as [f|] eqn:Hf; [|done]. destruct (negb _); [done|].
  destruct (bool_decide (f_status f = FireDispatched) || _) eqn:Hst.
  { exists s, f. split_and!; try done. cbn. unfold settled. by apply orb_true_iff in Hst as [?%bool_decide_eq_true_1|?%bool_decide_eq_true_1]; auto. }
  pose proof (insert_fire_tasks _ _ _ _ Hi) as Ht.
  destruct (tasks w1 !! schedule_task_id digest isoformat sid at_) as [t|] eqn:Htask.
  { exists s. eexists. split_and!; try done; [by apply update_all_at|..]; cbn; rewrite <- ?Ht; by destruct f; eauto. }
  pose proof (replaced_for_claim (fail_paused_task_on_next_fire s) sid limit wall s w1 _ f Hf) as (f2 & Hf2 & _).
  pose proof (replace_keeps_limit (fail_paused_task_on_next_fire s) sid limit wall s w1) as Hm.
  destruct (if fail_paused_task_on_next_fire s then _ else _) as [[r s'] w2]. cbn in Hf2, Hm. rewrite Hm.
  destruct (_ <=? _) eqn:Ha; exists s; eexists; (split_and!; try done; [by apply update_all_at|..]); cbn.
  - by destruct f2.
  - right. by destruct f2.
  - by destruct f2.
  - split_and!; [by destruct f2..|]. right. rewrite active_count_update. bool_facts. lia.
Qed.

(** ** Immediate fires *)

Lemma free_time_found (taken : gset Z) fuel (t : Z) :
  (size (filter (λ x, (t ≤ x)%Z) taken) < fuel)%nat → ∃ t', free_time taken fuel t = Some t' ∧ t ≤ t' ∧ t' ∉ taken.
Proof.
  revert t. induction fuel as [|fuel IH]; intros t Hsz; [lia|]. cbn. case_bool_decide as Ht; [|by exists t].
  destruct (IH (t + 1)) as (t' & ? & ? & ?); [|exists t'; split_and!; [done|lia|done]].
  assert (size (filter (λ x, (t + 1 ≤ x)%Z) taken) < size (filter (λ x, (t ≤ x)%Z) taken))%nat; [|lia].
  apply subset_size. split.
  - intros x [Hx ?]%elem_of_filter. apply elem_of_filter. split; [lia|done].
  - intros Hsub. assert (t ∈ filter (λ x, (t + 1 ≤ x)%Z) taken) as [? _]%elem_of_filter; [|lia].
    apply Hsub, elem_of_filter. split; [lia|done].
Qed.

(** There is always a free time, within the fuel. *)
Lemma manual_fire_at_found sid next now w :
  ∃ at_, _manual_fire_at sid next now w = Some at_ ∧ now ≤ at_ ∧ Some at_ ≠ next ∧
         ∀ f, f ∈ fire_list w → f_schedule_id f = sid → scheduled_fire_at f ≠ at_.
Proof.
  unfold _manual_fire_at. set (taken := taken_times sid next w). set (t := if now mod 1000000 =? 0 then now + 1 else now).
  destruct (free_time_found taken (S (size taken)) t) as (at_ & Ha & Ht & Hn).
  { apply Nat.lt_succ_r, subseteq_size. intros x [_ ?]%elem_of_filter. done. }
  exists at_. split_and!; [done|subst t; case_match; lia|intros <-|intros f Hf Hs <-]; apply Hn; apply elem_of_union.
  - right. by apply elem_of_singleton.
  - left. apply elem_of_list_to_set, list_elem_of_fmap. exists f. split; [done|]. by apply list_elem_of_filter.
Qed.

Lemma no_same_fire sid k at_ w :
  (∀ f, f ∈ fire_list w → f_schedule_id f = sid → scheduled_fire_at f ≠ at_) → existsb (same_fire sid k at_) (fire_list w) = false.
Proof.
  intros H. apply not_true_is_false. intros (f & Hf & Hs)%existsb_exists. apply list_elem_of_In in Hf. unfold same_fire in Hs. bool_facts.
  by apply (H f).
Qed.

(** An immediate fire may start while the schedule is on, or when failures switched it off. *)
Definition may_run_now (s : schedule) : Prop := enabled s = true ∨ schedule_type s ≠ "one_shot" ∧ auto_disabled s = true.

Lemma runs_now s :
  negb (enabled s) && negb (negb (bool_decide (schedule_type s = "one_shot")) && auto_disabled s) = false → may_run_now s.
Proof.
  intros H. destruct (enabled s) eqn:He; [by left|]. cbn in H. bool_facts. by right.
Qed.

(** What asking for an immediate run does, on every path.  It is refused, changing nothing,
    only to a caller without the lease, for a schedule that is gone or switched off by hand, or
    for a one-shot schedule that has run; it fails only when the digest of the new row collides.
    A granted run is claimed without an error: it is a claim that was not settled yet, or a new row
    at a time that no fire of the schedule and not its next occurrence has, with fewer than
    [max_concurrent_runs] tasks active. *)
Theorem claim_manual_outcome sid lease now w :
  fires_keyed w →
  match claim_manual sid lease now w with
  | (Ok (Some c), w') =>
      ∃ s, schedules w !! sid = Some s ∧ may_run_now s ∧ _lock_lease w lease now = true ∧
        if should_dispatch c
        then ∃ f, fire_at (fc_fire_id c) w' = Some f ∧ f_status f = FireClaimed ∧ last_error f = None ∧
             (fire_at (fc_fire_id c) w = None → Some (fc_fire_at c) ≠ next_fire_at s ∧ active_count sid w' < max_concurrent_runs s ∧
                ∀ g, g ∈ fire_list w → f_schedule_id g = sid → scheduled_fire_at g ≠ fc_fire_at c)
        else fc_status c = FireSkipped ∨ schedule_type s = "one_shot" ∧ next_fire_at s = None ∧ fc_status c = FireDispatched
  | (Ok None, w') =>
      w' = w ∧ (_lock_lease w lease now = false ∨ schedules w !! sid = None ∨
                ∃ s, schedules w !! sid = Some s ∧ (enabled s = false ∨ schedule_type s = "one_shot" ∧ next_fire_at s = None))
  | (Err _, w') => w' = w ∧ ∃ at_, is_Some (fire_at (manual_schedule_fire_id digest isoformat sid at_) w)
  end.
Proof.
  intros Hk. unfold ScheduleFires.claim_manual. destruct (negb (_lock_lease w lease now)) eqn:Hl; [bool_facts; by auto|].
  destruct (schedules w !! sid) as [s|] eqn:Hs; [|by auto]. destruct (negb (enabled s) && _) eqn:He.
  { split; [done|]. right; right. exists s. bool_facts. auto. }
  apply runs_now in He. bool_facts. destruct (_ && bool_decide (next_fire_at s = None)) eqn:Hone.
  { bool_facts. destruct (first_by _ _) as [d|]; [exists s; split_and!; [done..|by right]|]. split; [done|]. right; right. exists s. auto. }
  destruct (first_by _ _) as [p|] eqn:Hp.
  { apply first_by_elem, manual_fires_elem in Hp as (Hp & _ & _ & Hst). bool_facts. exists s. split_and!; [done..|].
    pose proof (listed_fire _ _ Hk Hp) as Hw. eexists. cbn [fc_fire_id]. split; [by apply update_all_at|]. rewrite Hw. by destruct p. }
  destruct (manual_fire_at_found sid (next_fire_at s) now w) as (at_ & -> & _ & Hnext & Hfresh).
  unfold insert_fire. cbn. rewrite no_same_fire by done. destruct (fires w !! _) as [x|] eqn:Hx; [split; [done|]; exists at_; by exists x|].
  set (w1 := set_fires _ w). destruct (_ <=? _) eqn:Ha; cbn; exists s; (split_and!; [done..|]); [by left|].
  eexists. split; [apply update_all_at; unfold fire_at, w1; cbn; apply lookup_insert_eq|]. split_and!; [done..|]. intros _.
  split_and!; [done| |done]. rewrite active_count_update. bool_facts. lia.
Qed.
End Histories.

(** ** A schedule in action *)

Definition demo_lease : Lease := MkLease "schedule:s" "k1" 1 1000.
Definition demo_schedule : schedule :=
  Schedule "s" "nightly" "interval" None (Some 60) None "UTC" "a" true 1 false false true None (Some 100) None None 0 None "u" 0.
Definition demo_task (status : TaskStatus) : task :=
  Task (schedule_task_id id str_int "s" 100) status 0 "a" "scheduler" (Some "s") "default" (Some 100) 1 None None None 100 None None 100.
Definition demo_tables : tables :=
  Tables {["schedule:s" := LeaseRow "k1" 1 1000 0 0]} ∅ [] [] {["s" := demo_schedule]} ∅ (Some (CatchupState 100 2 true 0)).
Definition demo_fire : string := schedule_fire_id id str_int "s" 100.
Definition demo_claim : ScheduleFireClaim :=
  FireClaim demo_fire "s" 100 (schedule_task_id id str_int "s" 100) FireClaimed true demo_schedule [].
Definition demo_run (w : tables) (tr : list fire_op) : tables := run (fire_exec id str_int false) w tr.

(** The occurrence at 100 is claimed, its task is created and dispatched. *)
Definition demo_dispatched : tables :=
  demo_run demo_tables [FClaim "s" 100 demo_lease 5 110 110; FTasks {[task_id (demo_task QUEUED) := demo_task QUEUED]} []; FDispatch demo_claim demo_lease 120].

Definition demo_failed : fire_op := FProjectRecurring (task_id (demo_task FAILED)) FAILED (Some 100) 5 130.

Definition errors_of (w : tables) : option Z := consecutive_errors <$> schedules w !! "s".

(** A result that was delivered twice counts once ... *)
Example delivered_twice : errors_of (demo_run demo_dispatched [demo_failed; demo_failed]) = Some 1.
Proof. vm_compute. reflexivity. Qed.

(** ... but a claim between the deliveries erases the result: the failed occurrence is handed out
    again, for its task is there, and the failure counts twice. *)
Example reclaimed_result_counts_again :
  let w := demo_run demo_dispatched [demo_failed; FClaim "s" 100 demo_lease 5 140 140; demo_failed] in
  errors_of w = Some 2.
Proof. vm_compute. reflexivity. Qed.

(** A projection that read its fire before another committed counts the failure again: the row is
    locked, but the object keeps what was read first. *)
Example stale_read_counts_again :
  let seen := find_recurring (task_id (demo_task FAILED)) demo_dispatched in
  let w := demo_run demo_dispatched [demo_failed] in
  errors_of (project_recurring_terminal_result seen (task_id (demo_task FAILED)) FAILED (Some 100) 5 131 w).2 = Some 2.
Proof. vm_compute. reflexivity. Qed.

(** An immediate fire at the last microsecond of a second whose time is taken moves to a full
    second, where recurring occurrences live. *)
Example manual_time_on_a_full_second :
  _manual_fire_at "s" None 1999999 (set_fires {["x" := new_fire "x" "s" Manual 1999999 "UTC" 1 0]} demo_tables) = Some 2000000.
Proof. vm_compute. reflexivity. Qed.

Lemma demo_keyed : fires_keyed demo_dispatched.
Proof. apply history_keyed. intros fid f. unfold fire_at. cbn. by rewrite lookup_empty. Qed.

Lemma occurrence_runs_again_only_after_failure_witness :
  ∃ pre post, [demo_failed] = pre ++ post ∧
    match fire_at demo_fire (demo_run demo_dispatched pre) with Some g => f_status g = FireFailed | None => True end.
Proof.
  destruct (fire_at demo_fire demo_dispatched) as [f|] eqn:Hf; [|by vm_compute in Hf].
  destruct (claim id str_int "s" 100 demo_lease 5 140 140 (demo_run demo_dispatched [demo_failed])) as [[[c|]|] w'] eqn:Hc;
    [|by vm_compute in Hc..].
  apply (occurrence_runs_again_only_after_failure id str_int false demo_dispatched f "s" 100 [demo_failed] demo_lease 5 140 140 c w');
    [apply demo_keyed|exact Hf| |exact Hc|].
  - left. vm_compute in Hf. by injection Hf as <-.
  - vm_compute in Hc. by injection Hc as <- _.
Defined.

Lemma results_count_once_witness :
  let w := fire_exec id str_int false demo_dispatched demo_failed in
  ∃ f, find_recurring (task_id (demo_task FAILED)) demo_dispatched = Some f ∧
    (reopened id str_int false (fire_id f) w [demo_failed] ∨
     ∃ g, fire_at (fire_id f) (demo_run w [demo_failed]) = Some g ∧ is_terminal_fire g = true).
Proof.
  intros w.
  destruct (project_recurring_terminal_result (find_recurring (task_id (demo_task FAILED)) demo_dispatched) (task_id (demo_task FAILED)) FAILED
              (Some 100) 5 130 demo_dispatched) as [[[p|]|] w1] eqn:Hp; [|by vm_compute in Hp..].
  assert (w = w1) as He by exact (f_equal snd Hp).
  destruct (results_count_once id str_int false demo_dispatched (task_id (demo_task FAILED)) FAILED (Some 100) 5 130 p w1 [demo_failed] demo_keyed Hp)
    as (f & Hf & Hr). exists f. split; [exact Hf|]. rewrite He. destruct Hr as [Hr|(g & Hg & Ht & _)]; [left; exact Hr|right; exists g; split; [exact Hg|exact Ht]].
Defined.

Lemma superseded_scheduler_is_powerless_witness :
  demo_run demo_tables [FLease 2000 (OpAcquire "schedule:s" "k2" 60); FDispatch demo_claim demo_lease 2001] =
  demo_run demo_tables [FLease 2000 (OpAcquire "schedule:s" "k2" 60)].
Proof.
  apply (superseded_scheduler_is_powerless id str_int false (demo_run demo_tables [FLease 2000 (OpAcquire "schedule:s" "k2" 60)]) []
           (FDispatch demo_claim demo_lease 2001) demo_lease 2001); [reflexivity|vm_compute; reflexivity].
Defined.

Lemma catchup_budget_is_kept_witness :
  let lease := MkLease "schedule:s" "k1" 1 1000 in
  ∃ st', catchup (demo_run demo_tables [FReserve lease 10 10; FReserve lease 11 11; FReserve lease 12 12; FRestore lease 13 13]) = Some st' ∧
    remaining_budget st' = 1.
Proof.
  intros lease. destruct (catchup_budget_is_kept id str_int false demo_tables (CatchupState 100 2 true 0)
    [FReserve lease 10 10; FReserve lease 11 11; FReserve lease 12 12; FRestore lease 13 13]) as (st' & H & _ & _ & Hb & _);
    [reflexivity|reflexivity|vm_compute; discriminate|by repeat constructor|]. exists st'. split; [exact H|]. rewrite Hb. vm_compute. reflexivity.
Defined.

Lemma claim_manual_outcome_witness :
  match claim_manual id str_int false "s" demo_lease 200 demo_tables with
  | (Ok (Some c), w') => should_dispatch c = true ∧ ∃ f, fire_at (fc_fire_id c) w' = Some f ∧ f_status f = FireClaimed
  | _ => False
  end.
Proof.
  pose proof (claim_manual_outcome id str_int false "s" demo_lease 200 demo_tables) as H.
  destruct (claim_manual id str_int false "s" demo_lease 200 demo_tables) as [[[c|]|] w'] eqn:Hc; [|by vm_compute in Hc..].
  assert (should_dispatch c = true) as Hd by (vm_compute in Hc; by injection Hc as <- _). rewrite Hd in H.
  destruct H as (s & _ & _ & _ & f & Hf & Hs & _); [intros fid f; unfold fire_at; cbn; by rewrite lookup_empty|]. split; [exact Hd|]. by exists f.
Defined.
