(* ===== verification/Control.v ===== *)
(** The controller process around the task queue ([cognis/core/task_queue.py]) and the scheduler
    ([cognis/core/scheduler.py]): what their store calls act on, the attributes of both objects
    that other tasks of the process change meanwhile, and the calls their coroutines make.

    A call is one transaction.  It is given the clock of the database and the one of the
    controller.  Published events and signals to other controllers leave the tables alone;
    whoever listens acts between the calls, as the schedule of the coroutine says. *)

From S2P Require Import Prelude PyVal Lease Coroutine Tables Tasks TaskExecution ScheduleFires.

(** ** Answers *)

(** What any call may answer. *)
Inductive value :=
| VUnit
| VBool (b : bool)
| VInt (n : Z)
| VStr (s : string)
| VTask (t : task)
| VClaim (c : TaskExecutionClaim)
| VLease (l : Lease)
| VFire (c : ScheduleFireClaim)
| VSchedule (s : schedule)
| VProjection (p : projection)
| VError (e : query_error)
| VNone
| VSome (v : value)
| VPair (v w : value)
| VList (l : list value).

(** The types of answers: each is a retract of [value]. *)
Class Answer (A : Type) := {
  enc : A → value;
  dec : value → option A;
  dec_enc a : dec (enc a) = Some a;
  dflt : A;
}.

Definition as_bool (v : value) : option bool := match v with VBool b => Some b | _ => None end.
Definition as_int (v : value) : option Z := match v with VInt n => Some n | _ => None end.
Definition as_string (v : value) : option string := match v with VStr s => Some s | _ => None end.

Lemma only_tt (a : unit) : Some tt = Some a.
Proof. by destruct a. Qed.

#[export] Instance unit_answer : Answer unit := {| enc _ := VUnit; dec _ := Some tt; dec_enc := only_tt; dflt := tt |}.
#[export] Instance bool_answer : Answer bool := {| enc := VBool; dec := as_bool; dec_enc _ := eq_refl; dflt := false |}.
#[export] Instance int_answer : Answer Z := {| enc := VInt; dec := as_int; dec_enc _ := eq_refl; dflt := 0 |}.
#[export] Instance string_answer : Answer string := {| enc := VStr; dec := as_string; dec_enc _ := eq_refl; dflt := "" |}.

(** Types without a value of their own occur under [option], [result] and [list] only. *)
Section Optional.
Context {A : Type} (con : A → value) (get : value → option A) (get_con : ∀ a, get (con a) = Some a).

Definition dec_option (v : value) : option (option A) :=
  match v with VNone => Some None | VSome v => match get v with Some a => Some (Some a) | None => None end | _ => None end.
Definition enc_option (x : option A) : value := match x with Some a => VSome (con a) | None => VNone end.

Lemma dec_enc_option x : dec_option (enc_option x) = Some x.
Proof using get_con. destruct x as [a|]; cbn; [by rewrite get_con|done]. Qed.

Definition dec_list (v : value) : option (list A) := match v with VList l => mapM get l | _ => None end.
Definition enc_list (l : list A) : value := VList (con <$> l).

Lemma dec_enc_list l : dec_list (enc_list l) = Some l.
Proof using get_con. cbn. induction l as [|a l IH]; cbn; [done|]. by rewrite get_con, IH. Qed.

Definition dec_result (v : value) : option (result query_error A) :=
  match v with VError e => Some (Err e) | VSome v => Ok <$> get v | _ => None end.
Definition enc_result (x : result query_error A) : value := match x with Ok a => VSome (con a) | Err e => VError e end.

Lemma dec_enc_result x : dec_result (enc_result x) = Some x.
Proof using get_con. destruct x; cbn; [by rewrite get_con|done]. Qed.
End Optional.

Definition as_task (v : value) : option task := match v with VTask t => Some t | _ => None end.
Definition as_claim (v : value) : option TaskExecutionClaim := match v with VClaim c => Some c | _ => None end.
Definition as_lease (v : value) : option Lease := match v with VLease l => Some l | _ => None end.
Definition as_fire (v : value) : option ScheduleFireClaim := match v with VFire c => Some c | _ => None end.
Definition as_schedule (v : value) : option schedule := match v with VSchedule s => Some s | _ => None end.
Definition as_projection (v : value) : option projection := match v with VProjection p => Some p | _ => None end.
Definition as_pair (v : value) : option (Z * Z) := match v with VPair (VInt a) (VInt b) => Some (a, b) | _ => None end.
Definition of_pair (p : Z * Z) : value := VPair (VInt p.1) (VInt p.2).

Lemma as_of_pair p : as_pair (of_pair p) = Some p.
Proof. by destruct p. Qed.

Definition of_counted (p : task * Z) : value := VPair (VTask p.1) (VInt p.2).
Definition as_counted (v : value) : option (task * Z) := match v with VPair (VTask t) (VInt n) => Some (t, n) | _ => None end.

Lemma as_of_counted p : as_counted (of_counted p) = Some p.
Proof. by destruct p. Qed.

Definition as_unit (v : value) : option unit := match v with VUnit => Some tt | _ => None end.

#[export] Instance done_answer : Answer (result query_error unit) :=
  {| dec_enc := dec_enc_result (λ _, VUnit) as_unit only_tt; dflt := Err (ValueError "") |}.
#[export] Instance counted_answer : Answer (result query_error (task * Z)) :=
  {| dec_enc := dec_enc_result of_counted as_counted as_of_counted; dflt := Err (ValueError "") |}.
#[export] Instance task_answer : Answer (option task) := {| dec_enc := dec_enc_option VTask as_task (λ _, eq_refl); dflt := None |}.
#[export] Instance claim_answer : Answer (option TaskExecutionClaim) :=
  {| dec_enc := dec_enc_option VClaim as_claim (λ _, eq_refl); dflt := None |}.
#[export] Instance lease_answer : Answer (option Lease) := {| dec_enc := dec_enc_option VLease as_lease (λ _, eq_refl); dflt := None |}.
#[export] Instance int_option_answer : Answer (option Z) := {| dec_enc := dec_enc_option VInt as_int (λ _, eq_refl); dflt := None |}.
#[export] Instance pair_answer : Answer (option (Z * Z)) :=
  {| dec_enc := dec_enc_option of_pair as_pair as_of_pair; dflt := None |}.
#[export] Instance strings_answer : Answer (list string) := {| dec_enc := dec_enc_list VStr as_string (λ _, eq_refl); dflt := [] |}.
#[export] Instance tasks_answer : Answer (list task) := {| dec_enc := dec_enc_list VTask as_task (λ _, eq_refl); dflt := [] |}.
#[export] Instance some_strings_answer : Answer (option (list string)) :=
  {| dec_enc := dec_enc_option (enc_list VStr) (dec_list as_string) (dec_enc_list VStr as_string (λ _, eq_refl)); dflt := None |}.
#[export] Instance task_result_answer : Answer (result query_error task) :=
  {| dec_enc := dec_enc_result VTask as_task (λ _, eq_refl); dflt := Err (ValueError "") |}.
#[export] Instance fire_answer : Answer (result query_error (option ScheduleFireClaim)) :=
  {| dec_enc := dec_enc_result (enc_option VFire) (dec_option as_fire) (dec_enc_option VFire as_fire (λ _, eq_refl)); dflt := Ok None |}.
#[export] Instance projection_answer : Answer (result query_error (option projection)) :=
  {| dec_enc := dec_enc_result (enc_option VProjection) (dec_option as_projection)
                  (dec_enc_option VProjection as_projection (λ _, eq_refl)); dflt := Ok None |}.

(** ** The world of a call *)

(** The tables, the next random identifier and the rows that others have locked. *)
Record world := World { db : tables; uuid4 : string; locked_rows : gset string }.

Definition with_db (t : tables) (w : world) : world := World t (uuid4 w) (locked_rows w).

Inductive signal :=
| TaskCreated (tid : string)
| TaskStarted (tid : string)
| TaskCancelled (tid : string)
| TaskFailed (tid : string) (suppress_schedule_retry : bool)
| TaskChanged (tid : string)
| QueueWakeup
| NotificationsTerminal (tid : string)
| PauseResolved (pause : string)
| OwnedWorkStopped (tid : string)
| ScheduleFired (sid tid : string)
| ScheduleError (sid : string) (errors : Z)
| ScheduleDisabled (sid : string) (errors : Z)
| ScheduleRecovered (sid : string)
| ScheduleActionUpdated (sid : string) (errors : Z).

(** The lease store, the store of claims, any other transaction, and what else is awaited. *)
Inductive control_op :=
| CLease (now : Z) (o : Lease.op)
| CClaimReady (st : execution_store) (now : Z)
| CClaimExisting (st : execution_store) (tid : string) (statuses : list TaskStatus) (now : Z)
| CRelease (c : TaskExecutionClaim) (now : Z)
| CTx (f : world → value * tables)
| CSignal (s : signal)
| CDraw (uuid : string) (locked : gset string).

Definition control_run (w : world) (o : control_op) : value * world :=
  let on {A} `{Answer A} (x : A * tables) := (enc x.1, with_db x.2 w) in
  match o with
  | CLease now (OpAcquire key owner ttl) =>
      let '(leases, l) := acquire_in_session (lease_table (db w)) key owner now ttl in on (l, set_lease_table leases (db w))
  | CLease now (OpRenew lease ttl) =>
      let '(leases, l) := Lease.renew (lease_table (db w)) lease now ttl in on (l, set_lease_table leases (db w))
  | CLease now o => on (tt, set_lease_table (Lease.exec (lease_table (db w)) (now, o)) (db w))
  | CClaimReady st now => on (claim_ready st "default" (locked_rows w) (uuid4 w) now (db w))
  | CClaimExisting st tid ss now => on (claim_existing st tid ss (locked_rows w) (uuid4 w) now (db w))
  | CRelease c now => on (tt, TaskExecution.release c now (db w))
  | CTx f => let '(v, t) := f w in (v, with_db t w)
  | CSignal _ => (VUnit, w)
  | CDraw uuid locked => (VUnit, World (db w) uuid locked)
  end.

Definition control_exec (w : world) (o : control_op) : world := (control_run w o).2.
Definition control_reply (w : world) (o : control_op) : value := (control_run w o).1.

(** ** The process *)

(** [TaskQueue]: a run that is done stays in [active_runs] until it is removed; [pauses]
    is what the queue sees of the pause waiter: the task of a pause and whether it is resolved. *)
Record queue_state := QueueState {
  accepting : bool;
  active_runs : gmap string bool;
  run_controls : gmap string bool;
  wake_event : bool;
  next_recovery_at : Z;
  pauses : list (string * (string * bool));
}.

(** [Scheduler]; a lease is lost when its renewal task says so. *)
Record scheduler_state := SchedulerState {
  wake_generation : Z;
  stop_event : bool;
  lost_leases : gset (string * Z);
}.

Record local := Local { queue : queue_state; scheduler : scheduler_state }.

(** The tasks a coroutine creates. *)
Inductive job :=
| RunTask (t : task) (c : TaskExecutionClaim)
| ReleaseClaim (c : TaskExecutionClaim)
| RenewLease (l : Lease).

Notation prog := (prog control_op value world local job).

Definition played {A} (p : prog A) := play control_exec control_reply p.

(** ** Calls *)

Definition answer {A} `{Answer A} (v : value) : A := default dflt (dec v).

Lemma answer_enc {A} `{Answer A} (a : A) : answer (enc a) = a.
Proof. unfold answer. by rewrite dec_enc. Qed.

(** A transaction that returns. *)
Definition tx {A} `{Answer A} (f : Z → Z → tables → A * tables) : prog A :=
  Call (λ now wall, CTx (λ w, let '(a, t) := f now wall (db w) in (enc a, t))) (λ v, Ret (answer v)).

(** A transaction that only reads. *)
Definition read {A} (f : tables → A) : prog A := Query (λ _ w, Ret (f (db w))).

Definition signal_ (s : signal) : prog unit := Call (λ _ _, CSignal s) (λ _, Ret tt).

Definition acquire_lease (key owner : string) (ttl : Z) : prog (option Lease) :=
  Call (λ now _, CLease now (OpAcquire key owner ttl)) (λ v, Ret (answer v)).

Definition renew_lease (l : Lease) (ttl : Z) : prog (option Lease) := Call (λ now _, CLease now (OpRenew l ttl)) (λ v, Ret (answer v)).

Definition release_lease (l : Lease) : prog unit := Call (λ now _, CLease now (OpRelease l)) (λ _, Ret tt).

Definition call_claim_ready (st : execution_store) : prog (option TaskExecutionClaim) :=
  Call (λ now _, CClaimReady st now) (λ v, Ret (answer v)).

Definition call_claim_existing (st : execution_store) (tid : string) (ss : list TaskStatus) : prog (option TaskExecutionClaim) :=
  Call (λ now _, CClaimExisting st tid ss now) (λ v, Ret (answer v)).

Definition release_claim (c : TaskExecutionClaim) : prog unit := Call (λ now _, CRelease c now) (λ _, Ret tt).
