(* ===== verification/ControlRules.v ===== *)
(** Rules for the coroutines of the queue and the scheduler: which leases they hold, and what
    every one of their calls keeps. *)

From S2P Require Import Prelude PyVal Lease Coroutine Tables Tasks TaskExecution ScheduleFires Control.

(** ** The leases a coroutine holds *)

(** Granted and neither given back nor handed on. *)
Definition without (ls held : list Lease) : list Lease := filter (λ l, l ∉ ls) held.

#[global] Arguments without : simpl never.

Definition granted_leases (w : world) (o : control_op) : list Lease :=
  match o with
  | CLease _ (OpAcquire _ _ _) => match dec (control_reply w o) with Some (Some l) => [l] | _ => [] end
  | CClaimReady _ _ | CClaimExisting _ _ _ _ =>
      match (dec (control_reply w o) : option (option TaskExecutionClaim)) with Some (Some c) => claim_leases c | _ => [] end
  | _ => []
  end.

Definition after_call (w : world) (o : control_op) (held : list Lease) : list Lease :=
  match o with
  | CLease _ (OpRelease l) => without [l] held
  | CRelease c _ => without (claim_leases c) held
  | _ => granted_leases w o ++ held
  end.

(** A run and a release that was started own their claim; the renewal of a lease does not. *)
Definition handed_on (j : job) (held : list Lease) : list Lease :=
  match j with RunTask _ c | ReleaseClaim c => without (claim_leases c) held | RenewLease _ => held end.

#[global] Arguments handed_on _ _ /.

Notation accounts := (accounts control_reply after_call handed_on).
Notation outstanding := (outstanding after_call handed_on).

Lemma without_all ls : without ls ls = [].
Proof.
  unfold without. assert (∀ l, l ∈ filter (λ l, l ∉ ls) ls → False) as H by by intros l [? ?]%list_elem_of_filter.
  destruct (filter _ ls) as [|l rest]; [done|]. destruct (H l). by left.
Qed.

Lemma without_front ls held : (∀ l, l ∈ ls → l ∉ held) → without ls (ls ++ held) = held.
Proof.
  intros Hd. unfold without. rewrite filter_app. replace (filter _ ls) with (@nil Lease) by (symmetry; apply without_all).
  cbn. induction held as [|l held IH]; [done|]. rewrite filter_cons_True.
  - f_equal. apply IH. intros x Hx Hin. apply (Hd x Hx). by right.
  - intros Hl. apply (Hd l Hl). by left.
Qed.

(** A call that is neither of the lease store nor of the store of claims. *)
Definition lease_free (o : control_op) : Prop := match o with CTx _ | CSignal _ | CDraw _ _ => True | _ => False end.

Lemma after_free w o held : lease_free o → after_call w o held = held.
Proof. by destruct o. Qed.

Notation keeps_leases := (neutral lease_free).

Lemma acc_free {A} (p : prog A) held (Q : A → list Lease → Prop) : keeps_leases p → (∀ a, Q a held) → accounts p held Q.
Proof. apply accounts_neutral. intros o Ho w h. by apply after_free. Qed.

Lemma free_tx {A} `{Answer A} (f : Z → Z → tables → A * tables) : keeps_leases (tx f).
Proof. by split. Qed.

Lemma free_read {A} (f : tables → A) : keeps_leases (read f).
Proof. done. Qed.

Lemma free_signal s : keeps_leases (signal_ s).
Proof. by split. Qed.

Lemma acc_tx {A} `{Answer A} f held (Q : A → list Lease → Prop) : (∀ a, Q a held) → accounts (tx f) held Q.
Proof. intros HQ. apply acc_free; [apply free_tx|done]. Qed.

Lemma acc_read_tables {A} (f : tables → A) held (Q : A → list Lease → Prop) : (∀ a, Q a held) → accounts (read f) held Q.
Proof. intros HQ. by apply acc_free. Qed.

Lemma acc_signal s held (Q : unit → list Lease → Prop) : Q tt held → accounts (signal_ s) held Q.
Proof. intros HQ. apply acc_free; [apply free_signal|]. by intros []. Qed.

Lemma acc_acquire_lease key owner ttl held (Q : option Lease → list Lease → Prop) :
  Q None held → (∀ l, Q (Some l) (l :: held)) → accounts (acquire_lease key owner ttl) held Q.
Proof.
  intros HN HS. cbn. intros now at_ w. unfold control_reply. cbn. destruct (acquire_in_session _ _ _ _ _) as [leases [l|]]; cbn; auto.
Qed.

Lemma acc_release_lease l held (Q : unit → list Lease → Prop) : Q tt (without [l] held) → accounts (release_lease l) held Q.
Proof. by cbn. Qed.

Lemma acc_renew l ttl held (Q : option Lease → list Lease → Prop) : (∀ x, Q x held) → accounts (renew_lease l ttl) held Q.
Proof. intros HQ. cbn. intros now at_ w. apply HQ. Qed.

Lemma acc_claim_existing st tid ss held (Q : option TaskExecutionClaim → list Lease → Prop) :
  Q None held → (∀ c, Q (Some c) (claim_leases c ++ held)) → accounts (call_claim_existing st tid ss) held Q.
Proof.
  intros HN HS. cbn. intros now at_ w. unfold control_reply. cbn -[claim_leases]. destruct (claim_existing _ _ _ _ _ _ _) as [[c|] t]; cbn -[claim_leases]; auto.
Qed.

Lemma acc_claim_ready st held (Q : option TaskExecutionClaim → list Lease → Prop) :
  Q None held → (∀ c, Q (Some c) (claim_leases c ++ held)) → accounts (call_claim_ready st) held Q.
Proof.
  intros HN HS. cbn. intros now at_ w. unfold control_reply. cbn -[claim_leases]. destruct (claim_ready _ _ _ _ _ _) as [[c|] t]; cbn -[claim_leases]; auto.
Qed.

Lemma acc_release_claim c held (Q : unit → list Lease → Prop) : Q tt (without (claim_leases c) held) → accounts (release_claim c) held Q.
Proof. by cbn. Qed.

(** What a transaction leaves. *)
Lemma db_tx {A} `{Answer A} (f : tables → A * tables) w :
  db (control_exec w (CTx (λ w, let '(a, t) := f (db w) in (enc a, t)))) = (f (db w)).2.
Proof. unfold control_exec, control_run. by destruct (f (db w)). Qed.

(** ** What every call keeps *)

(** A relation that every call of a program and of the others respects holds between the worlds
    before and after the program. *)
Section Kept.
Context (R : world → world → Prop) `{!Reflexive R} `{!Transitive R}.

Definition respects (o : control_op) : Prop := ∀ w, R w (control_exec w o).

Lemma run_kept w ops : Forall respects ops → R w (run control_exec w ops).
Proof using Type*. intros Hops. revert w. induction Hops as [|o ops Ho _ IH]; intros w; cbn; [done|]. etrans; [apply Ho|apply IH]. Qed.

Lemma play_kept {A} (p : prog A) slots m r m' evs :
  calls_only respects p → Forall (λ s, Forall respects (others s)) slots → played p slots m = (r, m', evs) → R (m_world m) (m_world m').
Proof using Type*.
  unfold played. revert slots m r m' evs. induction p as [a|k IH|f p IH|j p IH|k IH|c k IH]; intros slots m r m' evs Hp Hs Hplay; cbn in *.
  - by injection Hplay as <- <- <-.
  - by eapply IH.
  - by eapply IH in Hplay.
  - destruct (play _ _ p slots m) as [[r0 m0] evs0] eqn:E. injection Hplay as <- <- <-. by eapply IH.
  - destruct Hs as [|s slots Hs Hss]; [by injection Hplay as <- <- <-|].
    destruct (play _ _ _ slots _) as [[r0 m0] evs0] eqn:E. injection Hplay as <- <- <-.
    apply IH in E; [|done..]. etrans; [by apply run_kept|exact E].
  - destruct Hs as [|s slots Hs Hss]; [by injection Hplay as <- <- <-|]. destruct Hp as [Hc Hk].
    destruct (play _ _ _ slots _) as [[r0 m0] evs0] eqn:E. injection Hplay as <- <- <-.
    apply IH in E; [|done..]. etrans; [by apply run_kept|]. etrans; [apply Hc|exact E].
Qed.
End Kept.

(** ** Running alone *)

Notation runs_alone := (alone control_exec control_reply).

Lemma alone_tx {A} `{Answer A} (f : Z → Z → tables → A * tables) t wall mono l w :
  runs_alone t wall mono (tx f) l w = ((f t t (db w)).1, l, with_db (f t t (db w)).2 w).
Proof.
  cbn. unfold control_reply, control_exec, control_run. destruct (f t t (db w)) as [a t'] eqn:Hf. cbn. by rewrite answer_enc.
Qed.

Lemma alone_read {A} (f : tables → A) t wall mono l w : runs_alone t wall mono (read f) l w = (f (db w), l, w).
Proof. done. Qed.

Lemma alone_signal s t wall mono l w : runs_alone t wall mono (signal_ s) l w = (tt, l, w).
Proof. done. Qed.

Lemma alone_acquire key owner ttl t wall mono l w :
  runs_alone t wall mono (acquire_lease key owner ttl) l w =
    let '(leases, x) := acquire_in_session (lease_table (db w)) key owner t ttl in (x, l, with_db (set_lease_table leases (db w)) w).
Proof.
  cbn. unfold control_reply, control_exec, control_run. destruct (acquire_in_session _ _ _ _ _) as [leases x]. by destruct x.
Qed.
