(* ===== verification/TaskQueue.v ===== *)
(** The task queue ([TaskQueue] of [cognis/core/task_queue.py]): submitting, claiming, pausing,
    resuming, retrying, revising and cancelling tasks, the dependents of a finished task, and the
    recovery of what other controllers left behind.

    A method is a coroutine of one controller ([prog]); each of its transactions is one call.
    [_pick_lock] only keeps tasks of the process apart between calls: the schedules of [played]
    include those that it rules out.  [request_revision] reads its row and writes it back without
    a condition, in one transaction that locks nothing: reading and writing are two calls.

    Parameters: the names of the steps of a task's workflow (pinned or registered), the defaults
    of [WorkflowState], whether a conversation has an active session, the tool events of a step
    run in the guardrails service ([None] when they cannot be read), whether a notification was
    resolved, and how the database sorts NULL.  Columns of a task that no modelled statement reads
    are left out, so are metrics and log lines. *)

From S2P Require Import Prelude PyVal Lease Coroutine Tables Tasks TaskExecution ScheduleFires Control.

(** ** The attributes *)

Definition set_queue (f : queue_state → queue_state) (l : local) : local := Local (f (queue l)) (scheduler l).

Definition with_active (x : gmap string bool) (q : queue_state) : queue_state :=
  QueueState (accepting q) x (run_controls q) (wake_event q) (next_recovery_at q) (pauses q).
Definition with_controls (x : gmap string bool) (q : queue_state) : queue_state :=
  QueueState (accepting q) (active_runs q) x (wake_event q) (next_recovery_at q) (pauses q).
Definition with_wake (x : bool) (q : queue_state) : queue_state :=
  QueueState (accepting q) (active_runs q) (run_controls q) x (next_recovery_at q) (pauses q).
Definition with_recovery (x : Z) (q : queue_state) : queue_state :=
  QueueState (accepting q) (active_runs q) (run_controls q) (wake_event q) x (pauses q).
Definition with_pauses (x : list (string * (string * bool))) (q : queue_state) : queue_state :=
  QueueState (accepting q) (active_runs q) (run_controls q) (wake_event q) (next_recovery_at q) x.

Definition wake : prog unit := Update (λ _, set_queue (with_wake true)) (Ret tt).

Definition has_active_run (l : local) (tid : string) : bool := bool_decide (active_runs (queue l) !! tid = Some false).

Definition control_is_set (l : local) (tid : string) : bool := bool_decide (run_controls (queue l) !! tid = Some true).

(** [control.set()] when there is one. *)
Definition set_control (tid : string) : prog unit :=
  Update (λ _, set_queue (λ q, if decide (is_Some (run_controls q !! tid)) then with_controls (<[tid := true]> (run_controls q)) q else q)) (Ret tt).

Definition _get_pending_interaction (l : local) (tid : string) : option string :=
  fst <$> List.find (λ p, bool_decide (p.2.1 = tid) && negb p.2.2) (pauses (queue l)).

Definition resolve_pause (pause : string) : prog unit :=
  seq Update (λ _, set_queue (λ q, with_pauses ((λ p, if bool_decide (p.1 = pause) then (p.1, (p.2.1, true)) else p) <$> pauses q) q)) (Ret tt);
  signal_ (PauseResolved pause).

Definition _wake_workers : prog unit := seq wake; signal_ QueueWakeup.

(** What a method raises. *)
Inductive queue_error := QueryFailed (e : query_error) | RuntimeError (message : string).

Notation value_error m := (Err (QueryFailed (ValueError m))).

Definition with_status (s : TaskStatus) (t : task) : task := set_task_values [TStatus s] t.

(** Waiting for another task of the process, or for a clock. *)
Definition wait : prog unit := Query (λ _ _, Ret tt).

(** ** Launching *)

(** [_launch_task_run] with the claim that is handed over in [_task_claims]: a second launch is
    ruled out just before. *)
Definition _launch_task_run (t : task) (c : TaskExecutionClaim) : prog unit :=
  Update (λ _, set_queue (λ q, with_active (<[task_id t := false]> (active_runs q)) (with_controls (<[task_id t := false]> (run_controls q)) q)))
    (Spawn (RunTask t c) (Ret tt)).

Definition _launch_claimed_task_run (t : task) (c : TaskExecutionClaim) : prog unit :=
  Look (λ _ _ l, if has_active_run l (task_id t) then Spawn (ReleaseClaim c) (Ret tt) else _launch_task_run t c).

Section TaskQueue.
Context (st : execution_store).
Context (step_names_of : task → result string (list string)) (validate_state : option pydict → pydict).
Context (active_session : string → bool) (read_tool_events : string → option (list pyval)) (notification_resolved : string → bool).
Context (nulls_last : bool) (py_repr_str : string → string) (py_repr_float : Z → Z → string).

(** ** Submission *)

(** Ready when nothing required is unmet. *)
Definition transition_to_ready (tid : string) (wall : Z) (w : tables) : bool * tables :=
  match get_unmet_dependencies tid true w with
  | [] => let '(w, ok) := move_task tid READY wall w in (ok, w)
  | _ :: _ => (false, w)
  end.

Definition _try_transition_to_ready (tid : string) : prog bool :=
  do ok <- tx (λ _ wall w, transition_to_ready tid wall w);
  if (ok : bool) then seq _wake_workers; Ret true else Ret false.

Record submission := Submission {
  sub_task_id : option string;
  sub_status : TaskStatus;
  sub_priority : Z;
  sub_agent_id : string;
  sub_source_type : string;
  sub_source_ref : option string;
  sub_source_session_id : option string;
  sub_scheduled_for : option Z;
}.

(** [task_id or f"task_{uuid4}"] *)
Definition new_task_id (tid : option string) (uuid : string) : string :=
  match tid with Some tid => if bool_decide (tid = "") then "task_" +:+ uuid else tid | None => "task_" +:+ uuid end.

Definition insert_task (s : submission) (wall : Z) (w : world) : result query_error task * tables :=
  match sub_source_session_id s, sub_source_ref s with
  | None, Some conversation =>
      if bool_decide (sub_source_type s ∈ ["chat"; "agent"]) && negb (active_session conversation)
      then (Err (ValueError "Conversation-origin task requires an active source session"), db w)
      else create_task (new_task_id (sub_task_id s) (uuid4 w)) (sub_status s) (sub_priority s) (sub_agent_id s) (sub_source_type s)
             (sub_source_ref s) (sub_scheduled_for s) wall (db w)
  | _, _ => create_task (new_task_id (sub_task_id s) (uuid4 w)) (sub_status s) (sub_priority s) (sub_agent_id s) (sub_source_type s)
              (sub_source_ref s) (sub_scheduled_for s) wall (db w)
  end.

Definition submit (s : submission) : prog (result queue_error task) :=
  if negb (task_in (sub_status s) [DRAFT; QUEUED; READY]) then Ret (value_error "Task create status must be draft, queued, or ready") else
  Look (λ _ _ l,
  if negb (accepting (queue l)) then Ret (Err (RuntimeError "Task queue is not accepting new tasks")) else
  Call (λ _ wall, CTx (λ w, let '(r, t) := insert_task s wall w in (enc r, t))) (λ v,
  match (answer v : result query_error task) with
  | Err e => Ret (Err (QueryFailed e))
  | Ok t =>
      seq signal_ (TaskCreated (task_id t)); seq signal_ (TaskChanged (task_id t));
      seq (if task_in (sub_status s) [QUEUED; READY] then do _ <- _try_transition_to_ready (task_id t); Ret tt else Ret tt);
      seq (if bool_decide (sub_status s = READY) then _wake_workers else Ret tt);
      seq wake; Ret (Ok t)
  end)).

Definition reconcile_submitted (tid : string) : prog (option task) :=
  do row <- read (get_task tid);
  match row with
  | None => Ret None
  | Some t =>
      do row <- (if bool_decide (t_status t = QUEUED) then do _ <- _try_transition_to_ready tid; read (get_task tid) else Ret (Some t));
      match row with None => Ret None | Some t => seq _wake_workers; Ret (Some t) end
  end.

Definition create_draft (priority : Z) (agent source_type : string) (source_ref source_session : option string) : prog (result queue_error task) :=
  submit (Submission None DRAFT priority agent source_type source_ref source_session None).

Definition submit_draft (tid : string) (wall : Z) (w : tables) : result query_error task * tables :=
  match get_task tid w with
  | None => (Err (ValueError "Task not found"), w)
  | Some t =>
      if negb (bool_decide (t_status t = DRAFT)) then (Err (ValueError "Only draft tasks can be submitted"), w) else
      let '(w', ok) := move_task tid QUEUED wall w in
      if ok then (Ok t, w') else (Err (ValueError "Task could not be submitted"), w)
  end.

Definition submit_existing (tid : string) : prog (result queue_error task) :=
  do r <- tx (λ _ wall w, submit_draft tid wall w);
  match r with
  | Err e => Ret (Err (QueryFailed e))
  | Ok t => do _ <- _try_transition_to_ready tid; seq wake; Ret (Ok (with_status QUEUED t))
  end.

(** The results in order; an error that is not a [ValueError] ends the batch. *)
Fixpoint batch_submit (tids : list string) : prog (option (list (string * option string))) :=
  match tids with
  | [] => Ret (Some [])
  | tid :: tids =>
      do r <- submit_existing tid;
      match r with
      | Ok t => do rest <- batch_submit tids; Ret ((λ l, (task_id t, None) :: l) <$> rest)
      | value_error m => do rest <- batch_submit tids; Ret ((λ l, (tid, Some m) :: l) <$> rest)
      | Err _ => Ret None
      end
  end.

(** ** Pausing and resuming *)

Definition attempt_changed : string := "Task attempt changed; refresh before mutating".

Definition attempt_ok (tid : string) (expected : option Z) (w : tables) : bool :=
  match expected with Some n => assert_task_attempt_current tid n w | None => true end.

Definition pause_row (tid : string) (expected : option Z) (wall : Z) (w : tables) : result query_error task * tables :=
  if negb (attempt_ok tid expected w) then (Err (ValueError attempt_changed), w) else
  match get_task tid w with
  | None => (Err (ValueError "Task not found"), w)
  | Some t =>
      if negb (bool_decide (t_status t = RUNNING)) then (Err (ValueError "Only running tasks can be paused"), w) else
      let '(w', ok) := move_task tid PAUSED wall w in
      if ok then (Ok t, w') else (Err (ValueError "Task could not be paused"), w)
  end.

Definition pause_task (tid : string) (expected : option Z) : prog (result queue_error task) :=
  do r <- tx (λ _ wall w, pause_row tid expected wall w);
  match r with
  | Err e => Ret (Err (QueryFailed e))
  | Ok t => seq set_control tid; Ret (Ok (with_status PAUSED t))
  end.

Definition resumable (tid : string) (expected : option Z) (w : tables) : result query_error task :=
  if negb (attempt_ok tid expected w) then Err (ValueError attempt_changed) else
  match get_task tid w with
  | None => Err (ValueError "Task not found")
  | Some t => if bool_decide (t_status t = PAUSED) then Ok t else Err (ValueError "Only paused tasks can be resumed")
  end.

Definition resume_row (tid : string) (expected : option Z) (wall : Z) (w : tables) : result query_error unit * tables :=
  if negb (attempt_ok tid expected w) then (Err (ValueError attempt_changed), w) else
  let '(w', ok) := move_task tid RUNNING wall w in
  if ok then (Ok tt, w') else (Err (ValueError "Task could not be resumed"), w).

Definition resume_task (tid : string) (expected : option Z) : prog (result queue_error task) :=
  Look (λ _ _ l,
  match _get_pending_interaction l tid with
  | Some _ => Ret (value_error "Task is waiting for gate or step input response")
  | None =>
      do r <- read (resumable tid expected);
      match r with
      | Err e => Ret (Err (QueryFailed e))
      | Ok t =>
          Look (λ _ _ l,
          if has_active_run l tid && negb (control_is_set l tid) then
            do r <- tx (λ _ wall w, resume_row tid expected wall w);
            Ret (match r with Ok _ => Ok (with_status RUNNING t) | Err e => Err (QueryFailed e) end)
          else
            seq (if has_active_run l tid then wait else Ret tt);
            do c <- call_claim_existing st tid [PAUSED];
            match c with
            | None => Ret (value_error "No execution capacity available to resume the task")
            | Some c =>
                do r <- tx (λ _ wall w, resume_row tid expected wall w);
                match r with
                | Err e => seq release_claim c; Ret (Err (QueryFailed e))
                | Ok _ => seq _launch_claimed_task_run (with_status RUNNING t) c; Ret (Ok (with_status RUNNING t))
                end
            end)
      end
  end).

(** ** Retrying and rerunning *)

(** Attempt counters are cleared; the saved history of the step is kept or not. *)
Definition retry_state (preserve : bool) (t : task) : pydict :=
  foldl (λ d kv, od_set kv.1 kv.2 d) (validate_state (workflow_state t))
    [("loop_iterations", PDict []); ("resume_failed_step", PBool preserve); ("status", PStr "running"); ("current_step_status", PNone);
     ("pending_pause_type", PNone); ("pending_pause_payload", PNone)].

Definition retryable (tid : string) (w : tables) : result query_error task :=
  match get_task tid w with
  | None => Err (ValueError "Task not found")
  | Some t => if bool_decide (t_status t = FAILED) then Ok t else Err (ValueError "Only failed tasks can be retried via retry_failed_task")
  end.

Definition retry_row (tid : string) (ws : pydict) (preserve : bool) (wall : Z) (w : tables) : result query_error task * tables :=
  match get_task tid w with
  | None => (Err (ValueError "Task not found"), w)
  | Some t =>
      let '(w1, _) := update_task tid (λ _, true)
                        (set_task_values ([TWorkflowState (Some ws)] ++ (if preserve then [] else [TAttempt (t_attempt_number t + 1)]) ++
                                          [TCompleted None; TResultSummary None; TResultData None; TUpdated wall])) w in
      let '(w2, ok) := move_task tid RUNNING wall w1 in
      match get_task tid w2 with
      | Some t => if ok then (Ok t, w2) else (Err (ValueError "Task could not be retried"), w)
      | None => (Err (ValueError "Task not found"), w)
      end
  end.

Definition with_attempt (n : Z) (c : TaskExecutionClaim) : TaskExecutionClaim :=
  Claim (c_task_id c) (c_agent_id c) n (task_lease c) (global_capacity_lease c) (agent_capacity_lease c).

Definition retry_failed_task (tid : string) (preserve : bool) : prog (result queue_error task) :=
  do r <- read (retryable tid);
  match r with
  | Err e => Ret (Err (QueryFailed e))
  | Ok t =>
      do c <- call_claim_existing st tid [FAILED];
      match c with
      | None => Ret (value_error "Task execution ownership is unavailable")
      | Some c =>
          do r <- tx (λ _ wall w, retry_row tid (retry_state preserve t) preserve wall w);
          match r with
          | Err e => seq release_claim c; Ret (Err (QueryFailed e))
          | Ok t => seq _launch_claimed_task_run t (with_attempt (t_attempt_number t) c); Ret (Ok t)
          end
      end
  end.

Definition status_text (s : TaskStatus) : string :=
  match s with
  | DRAFT => "draft" | QUEUED => "queued" | READY => "ready" | RUNNING => "running"
  | PAUSED => "paused" | COMPLETED => "completed" | FAILED => "failed" | CANCELLED => "cancelled"
  end.

(** The direct dependencies of the source, one statement after the other. *)
Fixpoint copy_dependencies (tid : string) (ds : list dependency) (w : tables) : result query_error unit * tables :=
  match ds with
  | [] => (Ok tt, w)
  | d :: ds => match add_task_dependency tid (depends_on d) (required d) w with
               | (Ok _, w) => copy_dependencies tid ds w
               | (Err e, _) => (Err e, w)
               end
  end.

Definition clone_dependencies (source tid : string) (w : tables) : result query_error unit * tables :=
  match copy_dependencies tid (get_task_dependencies source w) w with (Ok _, w) => (Ok tt, w) | (Err e, _) => (Err e, w) end.

Definition _clone_task_for_rerun (t : task) : prog (result queue_error task) :=
  do r <- create_draft (priority t) (t_agent_id t) (source_type t) (source_ref t) None;
  match r with
  | Err e => Ret (Err e)
  | Ok draft =>
      do r <- tx (λ _ _ w, clone_dependencies (task_id t) (task_id draft) w);
      match r with Err e => Ret (Err (QueryFailed e)) | Ok _ => submit_existing (task_id draft) end
  end.

(** The task and whether it is a new one. *)
Definition rerun_task (tid : string) : prog (result queue_error (task * bool)) :=
  do row <- read (get_task tid);
  match row with
  | None => Ret (value_error "Task not found")
  | Some t =>
      if bool_decide (t_status t = PAUSED) then
        do r <- resume_task tid None; Ret (match r with Ok t => Ok (t, false) | Err e => Err e end)
      else if negb (task_in (t_status t) [COMPLETED; FAILED; CANCELLED]) then Ret (value_error ("Cannot rerun task in '" +:+ status_text (t_status t) +:+ "' status.")) else
        do r <- _clone_task_for_rerun t; Ret (match r with Ok t => Ok (t, true) | Err e => Err e end)
  end.

(** ** Revisions *)

Fixpoint index_of (x : string) (l : list string) : option nat :=
  match l with [] => None | y :: l => if bool_decide (x = y) then Some O else S <$> index_of x l end.

Definition int_or (default_ : Z) (v : pyval) : Z := match v with PInt n => n | _ => default_ end.

(** The index of the step to enter again. *)
Definition revision_index (names : list string) (target : option string) (state : pydict) : result string nat :=
  match names with
  | [] => Err "Workflow has no steps"
  | _ =>
      match (match target with Some x => if bool_decide (x = "") then None else Some x | None => None end) with
      | Some x => match index_of x names with Some i => Ok i | None => Err "Target step not found" end
      | None => Ok (Z.to_nat (Z.max 0 (int_or 0 (dict_get "current_step_index" state))))
      end
  end.

Definition revised_state (names : list string) (i : nat) (instruction : string) (state : pydict) : pydict :=
  let outputs := match dict_get "step_outputs" state with PDict d => d | _ => [] end in
  foldl (λ d kv, od_set kv.1 kv.2 d) state
    [("current_step_index", PInt (Z.of_nat i)); ("status", PStr "running"); ("current_step_status", PNone); ("pending_pause_type", PNone);
     ("pending_pause_payload", PNone); ("last_operator_instruction", PStr instruction); ("last_revision_context", PStr instruction);
     ("step_outputs", PDict (filter (λ kv, kv.1 ∉ drop i names) outputs))].

(** What the revision decides from the row it read. *)
Record revision := Revision { rev_task : task; rev_names : list string; rev_index : nat; rev_state : pydict }.

Definition plan_revision (tid : string) (target : option string) (instruction : string) (expected : option Z) (w : tables) :
    result string revision :=
  if negb (attempt_ok tid expected w) then Err attempt_changed else
  match get_task tid w with
  | None => Err "Task not found"
  | Some t =>
      if bool_decide (t_status t = CANCELLED) then Err "Cancelled tasks cannot be revised" else
      let? names := step_names_of t in
      let state := validate_state (workflow_state t) in
      let? i := revision_index names target state in
      Ok (Revision t names i (revised_state names i instruction state))
  end.

(** The rest of the transaction: the row is written by its key alone. *)
Definition write_revision (r : revision) (now wall : Z) (w : tables) : result query_error (task * Z) * tables :=
  let tid := task_id (rev_task r) in
  let attempt := t_attempt_number (rev_task r) + 1 in
  let '(w1, n) := supersede_step_runs_for_revision tid (drop (rev_index r) (rev_names r)) attempt wall w in
  let '(w2, ok) := update_task tid (λ _, true)
                     (set_task_values [TAttempt attempt; TStatus RUNNING; TCompleted None; TResultSummary None; TResultData None;
                                       TWorkflowState (Some (rev_state r)); TUpdated wall]) w1 in
  let w3 := invalidate_task_lease tid now w2 in
  match get_task tid w3 with
  | Some t => if ok then (Ok (t, Z.of_nat n), w3) else (Err (ValueError "stale row"), w)
  | None => (Err (ValueError "stale row"), w)
  end.

(** The task, the step it enters, how many step runs were replaced, and whether it runs here; the
    name of the step is looked up last. *)
Definition revised (t : task) (r : revision) (n : Z) (here : bool) : result queue_error (task * string * Z * bool) :=
  match rev_names r !! rev_index r with Some step => Ok (t, step, n, here) | None => Err (RuntimeError "list index out of range") end.

Definition request_revision (tid : string) (target : option string) (instruction : string) (expected : option Z) :
    prog (result queue_error (task * string * Z * bool)) :=
  do plan <- read (plan_revision tid target instruction expected);
  match plan with
  | Err m => Ret (value_error m)
  | Ok r =>
      Look (λ _ _ l,
      let pause := _get_pending_interaction l tid in
      do written <- tx (λ now wall w, write_revision r now wall w);
      match written with
      | Err e => Ret (Err (QueryFailed e))
      | Ok (t, n) =>
          seq match pause with Some p => resolve_pause p | None => Ret tt end;
          Look (λ _ _ l,
          seq (if has_active_run l tid then wait else Ret tt);
          do c <- call_claim_existing st tid [RUNNING];
          match c with
          | None => Ret (revised t r n false)
          | Some c => seq _launch_claimed_task_run t c; Ret (revised t r n true)
          end)
      end)
  end.

(** ** Cancelling *)

(** [int(state.get("version", 0)) + 1] *)
Definition next_version (state : pydict) : option Z :=
  match od_get "version" state with None => Some 1 | Some (PInt n) => Some (n + 1) | Some _ => None end.

Definition cancelled_state (state : pydict) : option pydict :=
  match next_version state with
  | Some v => Some (foldl (λ d kv, od_set kv.1 kv.2 d) state
                [("status", PStr "cancelled"); ("current_step_status", PNone); ("pending_pause_type", PNone); ("pending_pause_payload", PNone);
                 ("version", PInt v)])
  | None => None
  end.

(** The task is moved, unless it was before, and its execution is cut off; whether it moved. *)
Definition cut_off (tid : string) (t : task) (expected : option Z) (now wall : Z) (w : tables) : tables * Z * bool :=
  if bool_decide (t_status t = CANCELLED) then (w, 0, true) else
  let '(w1, ok) := update_task_status tid CANCELLED None (Some wall) None None expected None None wall w in
  (invalidate_task_lease tid now (fail_running_step_runs_for_task tid wall "cancelled" wall w1), 1, ok).

(** The transaction, on a row that is locked. *)
Definition cancel_row (tid : string) (expected : option Z) (now wall : Z) (w : tables) : result query_error (task * Z) * tables :=
  if negb (attempt_ok tid expected w) then (Err (ValueError attempt_changed), w) else
  match get_task tid w with
  | None => (Err (ValueError "Task not found"), w)
  | Some t =>
      if task_in (t_status t) [COMPLETED; FAILED] then (Ok (t, 2), w) else
      let '(w1, moved, ok) := cut_off tid t expected now wall w in
      if negb ok then (Err (ValueError "Task could not be cancelled"), w) else
      match workflow_state t with
      | Some ((_ :: _) as state) =>
          match cancelled_state state with
          | Some state => (Ok (t, moved), (update_task tid (λ _, true) (set_task_values [TWorkflowState (Some state); TUpdated wall]) w1).1)
          | None => (Err (ValueError "invalid literal for int()"), w)
          end
      | _ => (Ok (t, moved), w1)
      end
  end.

Definition cancel_task (tid : string) (expected : option Z) : prog (result queue_error task) :=
  Look (λ _ _ l,
  let pause := _get_pending_interaction l tid in
  do r <- tx (λ now wall w, cancel_row tid expected now wall w);
  match r with
  | Err e => Ret (Err (QueryFailed e))
  | Ok (t, moved) =>
      if moved =? 2 then Ret (Ok t) else
      seq match pause with Some p => resolve_pause p | None => Ret tt end;
      seq signal_ (NotificationsTerminal tid);
      seq set_control tid;
      seq wait;
      seq signal_ (OwnedWorkStopped tid);
      seq (if moved =? 1 then seq signal_ (TaskCancelled tid); signal_ (TaskChanged tid) else Ret tt);
      Ret (Ok (with_status CANCELLED t))
  end).

(** ** Dependents *)

Definition resolve_one (wall : Z) (acc : list string * tables) (dep : string) : list string * tables :=
  let '(moved, w) := acc in
  match get_unmet_dependencies dep true w with
  | [] => let '(w, ok) := move_task dep READY wall w in (if ok then moved ++ [dep] else moved, w)
  | unmet =>
      let dead d := match get_task (depends_on d) w with Some t => task_in (t_status t) [FAILED; CANCELLED] | None => false end in
      if existsb (λ d, required d && dead d) unmet then (moved, (move_task dep PAUSED wall w).1) else (moved, w)
  end.

(** [None] when the execution that asks has lost its task. *)
Definition resolve_rows (fence : option TaskExecutionFence) (tid : string) (now wall : Z) (w : tables) : option (list string) * tables :=
  if match fence with Some f => (assert_current now f w).1 | None => true end
  then let '(moved, w') := foldl (resolve_one wall) ([], w) (get_dependent_tasks tid w) in (Some moved, w')
  else (None, w).

Definition resolve_dependencies (fence : option TaskExecutionFence) (tid : string) : prog (option (list string)) :=
  do r <- tx (λ now wall w, resolve_rows fence tid now wall w);
  match r with
  | None => Ret None
  | Some [] => Ret (Some [])
  | Some moved => seq _wake_workers; Ret (Some moved)
  end.

(** ** Recovery *)

Inductive classification :=
| SafeBeforeToolDispatch
| RecoverablePersistedDeterministicOutput
| RetryReadOnlyDeterministicTool
| RecoverableCompletedToolCalls
| AmbiguousToolExecution.

#[global] Instance classification_eq_dec : EqDecision classification.
Proof. solve_decision. Defined.

(** The calls and the results of a history of tool events, by the identity of the call. *)
Definition tool_event (kind : string) (e : pyval) : option (string * pyval) :=
  match e with
  | PDict event =>
      let data := match dict_get "data" event with PDict d => d | _ => [] end in
      match dict_get "call_id" data with
      | PStr id => if bool_decide (id = "") then None else
                   match dict_get "type" event with
                   | PStr k => if bool_decide (k = kind)
                               then Some (id, if truthy (dict_get "name" data) then dict_get "name" data else dict_get "tool_name" data)
                               else None
                   | _ => None
                   end
      | _ => None
      end
  | _ => None
  end.

Definition tool_calls (events : list pyval) : pydict := foldl (λ d kv, od_set kv.1 kv.2 d) [] (omap (tool_event "tool_call") events).

Definition tool_results (events : list pyval) : list string := (omap (tool_event "tool_result") events).*1.

Definition unmatched_calls (events : list pyval) : pydict := filter (λ kv, kv.1 ∉ tool_results events) (tool_calls events).

(** What the last running step had done when its controller stopped. *)
Definition classify_step (r : step_run) : classification * pydict :=
  let info := default [] (sr_runtime_info r) in
  let id := ("step_run_id", PStr (step_run_id r)) in
  if match dict_get "deterministic_step" info with PBool b => b | _ => false end then
    let sub := dict_get "deterministic_substate" info in
    let details := [id; ("step_type", PStr (sr_step_type r)); ("substate", sub); ("tool_name", dict_get "tool_name" info);
                    ("call_identity", dict_get "call_identity" info)] in
    let sub_is x := match sub with PStr s => bool_decide (s = x) | _ => false end in
    if sub_is "persisted" && bool_decide (is_Some (sr_output r)) then (RecoverablePersistedDeterministicOutput, details)
    else if is_none sub || sub_is "rendering" then (SafeBeforeToolDispatch, details)
    else if sub_is "executing" && match dict_get "tool_read_only" info with PBool b => b | _ => false end
    then (RetryReadOnlyDeterministicTool, details)
    else (AmbiguousToolExecution, details ++ [("reason", PStr "ambiguous_deterministic_tool_dispatch")])
  else
  match sr_intaris_session_id r with
  | None | Some "" => (SafeBeforeToolDispatch, [id])
  | Some session =>
      match read_tool_events session with
      | None => (AmbiguousToolExecution, [id; ("reason", PStr "tool_event_history_unavailable")])
      | Some events =>
          match unmatched_calls events with
          | (call, name) :: _ => (AmbiguousToolExecution, [id; ("call_id", PStr call); ("tool_name", name)])
          | [] => match tool_calls events with
                  | [] => (SafeBeforeToolDispatch, [id])
                  | _ => (RecoverableCompletedToolCalls, [id])
                  end
          end
      end
  end.

Definition last_running (tid : string) (w : tables) : option step_run :=
  last (filter (λ r, sr_status r = "running") (list_step_runs_for_task nulls_last tid w)).

Definition classify_running (r : option step_run) : classification * pydict :=
  match r with Some r => classify_step r | None => (SafeBeforeToolDispatch, []) end.

Definition ambiguous_summary : string :=
  "Workflow recovery stopped because a tool call may have completed without a durable result; it was not replayed.".

(** Under the fence of the claim; [false] when it raises. *)
Definition fail_ambiguous (c : TaskExecutionClaim) (tid : string) (details : pydict) (now wall : Z) (w : tables) : bool * tables :=
  if (assert_current now (new_fence c) w).1 then
    let w1 := fail_running_step_runs_for_task tid wall "failed" wall w in
    (true, (update_task_status tid FAILED None (Some wall) (Some ambiguous_summary)
              (Some (od_set "recovery_classification" (PStr "ambiguous_tool_execution") [] ++ details)) None None None wall w1).1)
  else (false, w).

Definition recover_stale_task (t : task) : prog bool :=
  Look (λ _ _ l,
  if has_active_run l (task_id t) then Ret true else
  do c <- call_claim_existing st (task_id t) [RUNNING];
  match c with
  | None => Ret true
  | Some c =>
      do r <- read (last_running (task_id t));
      match classify_running r with
      | (AmbiguousToolExecution, details) =>
          do ok <- tx (λ now wall w, fail_ambiguous c (task_id t) details now wall w);
          if (ok : bool) then seq release_claim c; Ret true else Ret false
      | _ => seq _launch_claimed_task_run t c; Ret true
      end
  end).

Definition recover_stale_tasks : prog bool := do ts <- read (list_tasks_by_status [RUNNING] 1000); each recover_stale_task ts.

Definition _launch_recovered_paused_task (t : task) : prog bool :=
  Look (λ _ _ l,
  if has_active_run l (task_id t) then Ret true else
  do c <- call_claim_existing st (task_id t) [PAUSED];
  match c with None => Ret true | Some c => seq _launch_claimed_task_run t c; Ret true end).

(** A new waiter, unless there is one. *)
Definition register_pause (pause tid : string) : prog unit :=
  Update (λ _, set_queue (λ q, match od_get pause (pauses q) with
                               | Some _ => q
                               | None => with_pauses (pauses q ++ [(pause, (tid, false))]) q
                               end)) (Ret tt).

Definition replace_pause (pause tid : string) : prog unit :=
  Update (λ _, set_queue (λ q, with_pauses (od_set pause (tid, false) (pauses q)) q)) (Ret tt).

Definition recover_paused_task (t : task) : prog bool :=
  match workflow_state t with
  | None => Ret true
  | Some ws =>
      match dict_get "pending_pause_type" ws with
      | PStr kind =>
          let payload := match dict_get "pending_pause_payload" ws with PDict d => d | _ => [] end in
          let pause := match od_get "pause_id" payload with Some v => py_str py_repr_str py_repr_float v | None => "recovered_" +:+ task_id t end in
          if bool_decide (kind = "gate") then _launch_recovered_paused_task t
          else if bool_decide (kind = "step_input") then
            seq (if is_none (dict_get "answers" payload) then register_pause pause (task_id t) else Ret tt);
            _launch_recovered_paused_task t
          else if bool_decide (kind ∈ ["credential_request"; "auth_challenge"]) then
            seq wait;
            seq (if notification_resolved pause then seq replace_pause pause (task_id t); resolve_pause pause else register_pause pause (task_id t));
            _launch_recovered_paused_task t
          else Ret true
      | _ => Ret true
      end
  end.

Definition recover_paused_tasks : prog bool := do ts <- read (list_tasks_by_status [PAUSED] 1000); each recover_paused_task ts.

Definition recover_orphaned_running_step_runs : prog Z :=
  tx (λ _ wall w, let '(w, n) := fail_orphaned_running_step_runs wall "failed" wall w in (Z.of_nat n, w)).

(** ** The queue's loop *)

Definition _try_pick_and_run : prog unit :=
  do c <- call_claim_ready st;
  match c with
  | None => Ret tt
  | Some c =>
      do row <- read (get_task (c_task_id c));
      match row with
      | None => release_claim c
      | Some t =>
          seq signal_ (TaskStarted (task_id t)); seq signal_ (TaskChanged (task_id t));
          seq _launch_claimed_task_run t c; wake
      end
  end.

(** Once the loop woke up; [false] when an exception ended the pass. *)
Definition _drain_pass : prog bool :=
  seq Update (λ _, set_queue (λ q, with_wake false (with_active (filter (λ x, x.2 = false) (active_runs q))
          (with_controls (filter (λ x, active_runs q !! x.1 ≠ Some true) (run_controls q)) q)))) (Ret tt);
  Look (λ _ mono l,
  do ok <- (if next_recovery_at (queue l) <=? mono then
              seq Update (λ _, set_queue (with_recovery (mono + 30000000))) (Ret tt);
              do ok <- recover_stale_tasks; if (ok : bool) then recover_paused_tasks else Ret false
            else Ret true);
  if (ok : bool) then
    do _ <- Query (λ now w, Ret (next_scheduled_delay "default" now (db w)));
    seq _try_pick_and_run; Ret true
  else Ret false).
End TaskQueue.
