(* ===== verification/TaskQueueSpec.v ===== *)
(** What the task queue guarantees, whatever other tasks and controllers do between its calls:
    no claim is lost, a task that has finished stays so unless it is revised, none becomes ready
    before what it requires is complete, and work that may have happened is not started again. *)

From S2P Require Import Prelude PyVal Lease Coroutine Tables Tasks TaskExecution TaskExecutionSpec ScheduleFires Control ControlRules TaskQueue.

(** ** How transactions move tasks *)

Definition statuses (w : tables) : gmap string TaskStatus := t_status <$> tasks w.

#[global] Arguments statuses : simpl never.

(** Every task keeps its state or makes one allowed move; it becomes ready only when nothing that
    it requires is unmet. *)
Definition moves (w w' : tables) : Prop :=
  ∀ tid s, statuses w !! tid = Some s →
    ∃ s', statuses w' !! tid = Some s' ∧
      (s' = s ∨ s ∈ allowed_from s' ∧ (s' = READY → get_unmet_dependencies tid true w = [])).

Lemma moves_statuses w w' : statuses w' = statuses w → moves w w'.
Proof. intros He tid s Hs. exists s. rewrite He. auto. Qed.

Lemma moves_same w w' : tasks w' = tasks w → moves w w'.
Proof. intros He. apply moves_statuses. unfold statuses. by rewrite He. Qed.

Lemma statuses_lookup w tid : statuses w !! tid = t_status <$> tasks w !! tid.
Proof. apply lookup_fmap. Qed.

Lemma statuses_update tid p f w :
  statuses (update_task tid p f w).1 =
    match tasks w !! tid with
    | Some t => if p t then <[tid := t_status (f t)]> (statuses w) else statuses w
    | None => statuses w
    end.
Proof.
  unfold update_task, statuses. destruct (tasks w !! tid) as [t|] eqn:Ht; [|done]. destruct (p t); [|done]. cbn. by rewrite fmap_insert.
Qed.

(** An UPDATE that sets other columns. *)
Lemma statuses_other tid p f w : (∀ t, t_status (f t) = t_status t) → statuses (update_task tid p f w).1 = statuses w.
Proof.
  intros Hf. rewrite statuses_update. destruct (tasks w !! tid) as [t|] eqn:Ht; [|done]. destruct (p t); [|done].
  rewrite Hf. apply insert_id. by rewrite statuses_lookup, Ht.
Qed.

Definition sets_status (v : task_value) : bool := match v with TStatus _ => true | _ => false end.

Lemma status_of_values vs t : Forall (λ v, sets_status v = false) vs → t_status (set_task_values vs t) = t_status t.
Proof. unfold set_task_values. intros Hv. revert t. induction Hv as [|v vs Hv _ IH]; intros t; cbn; [done|]. rewrite IH. by destruct t, v. Qed.

Lemma status_of_set s vs t : Forall (λ v, sets_status v = false) vs → t_status (set_task_values (TStatus s :: vs) t) = s.
Proof. intros Hv. change (t_status (set_task_values vs (set_task t (TStatus s))) = s). rewrite status_of_values by done. by destruct t. Qed.

Lemma update_status_cases tid s started completed summary data ea es ep now w :
  let r := update_task_status tid s started completed summary data ea es ep now w in
  (r.2 = false ∧ r.1 = w) ∨
  (r.2 = true ∧ ∃ s0, statuses w !! tid = Some s0 ∧ s0 ∈ allowed_from s ∧ statuses r.1 = <[tid := s]> (statuses w)).
Proof.
  cbn. unfold update_task_status. rewrite statuses_lookup.
  pose proof (statuses_update tid (λ t, task_in (t_status t) (allowed_from s) &&
    match es with Some e => bool_decide (t_status t = e) | None => true end &&
    match ep with Some p => bool_decide (pause_id_of t = Some p) | None => true end &&
    match ea with Some n => t_attempt_number t =? n | None => true end)
    (set_task_values ([TStatus s] ++ given (λ x, TStarted (Some x)) started ++ given (λ x, TCompleted (Some x)) completed ++
       given (λ x, TResultSummary (Some x)) summary ++ given (λ x, TResultData (Some x)) data ++ [TUpdated now])) w) as Hs.
  revert Hs. unfold update_task. destruct (tasks w !! tid) as [t|]; [|auto]. cbn zeta. destruct (_ && _) eqn:Hp; [|auto].
  cbn [fst snd]. intros ->. right. split; [done|]. exists (t_status t). bool_facts. unfold task_in in *. bool_facts. split_and!; [done..|].
  f_equal. cbn [app]. apply status_of_set. repeat (apply Forall_app; split); try (by repeat constructor); by destruct started, completed, summary, data; repeat constructor.
Qed.

Lemma update_status_moves tid s started completed summary data ea es ep now w :
  (s = READY → get_unmet_dependencies tid true w = []) →
  moves w (update_task_status tid s started completed summary data ea es ep now w).1.
Proof.
  intros Hr. destruct (update_status_cases tid s started completed summary data ea es ep now w) as [[_ ->]|(_ & s0 & H0 & Ha & Hs)];
    [by apply moves_same|]. intros tid' s' Hs'. rewrite Hs. destruct (decide (tid' = tid)) as [->|Hne].
  - exists s. rewrite lookup_insert_eq. split; [done|]. right. rewrite H0 in Hs'. injection Hs' as <-. auto.
  - exists s'. rewrite lookup_insert_ne by done. auto.
Qed.

(** What is unmet depends on the edges and on which tasks are complete. *)
Definition complete (w : tables) (tid : string) : option bool := (λ s, bool_decide (s = COMPLETED)) <$> statuses w !! tid.

Lemma unmet_same w w' tid ro :
  dependencies w' = dependencies w → (∀ x, complete w' x = complete w x) →
  get_unmet_dependencies tid ro w' = get_unmet_dependencies tid ro w.
Proof.
  intros Hd Hc. unfold get_unmet_dependencies. rewrite Hd. apply list_filter_iff. intros d.
  assert (match tasks w' !! depends_on d with Some t => negb (bool_decide (t_status t = COMPLETED)) | None => false end =
          match tasks w !! depends_on d with Some t => negb (bool_decide (t_status t = COMPLETED)) | None => false end) as He.
  { specialize (Hc (depends_on d)). unfold complete in Hc. rewrite !statuses_lookup in Hc.
    destruct (tasks w' !! _), (tasks w !! _); cbn in Hc; simplify_eq; congruence. }
  by rewrite He.
Qed.

Lemma moves_after w w1 w' : statuses w1 = statuses w → dependencies w1 = dependencies w → moves w1 w' → moves w w'.
Proof.
  intros Hs Hd Hm tid s Ht. rewrite <- Hs in Ht. destruct (Hm tid s Ht) as (s' & Hs' & Hc). exists s'. split; [done|].
  destruct Hc as [?|[Ha Hr]]; [by left|right]. split; [done|]. intros Hrdy. rewrite <- (Hr Hrdy). symmetry.
  apply unmet_same; [done|]. intros x. unfold complete. by rewrite Hs.
Qed.

Lemma moves_before w w1 w' : moves w w1 → statuses w' = statuses w1 → moves w w'.
Proof. intros Hm Hs tid s Ht. rewrite Hs. by apply Hm. Qed.

(** *** The transactions of the queue *)

Lemma moves_create tid s p a ty ref at_ now w : moves w (create_task tid s p a ty ref at_ now w).2.
Proof.
  unfold create_task. destruct (tasks w !! tid) as [t|] eqn:Ht; [by apply moves_same|]. intros x sx Hx. exists sx. split; [|by left].
  unfold statuses in *. cbn. rewrite fmap_insert, lookup_insert_ne; [done|]. intros <-. rewrite lookup_fmap, Ht in Hx. done.
Qed.

Lemma moves_insert active s wall w : moves (db w) (insert_task active s wall w).2.
Proof. unfold insert_task. repeat case_match; try apply moves_create; by apply moves_same. Qed.

Lemma moves_move tid s now w : s ≠ READY → moves w (move_task tid s now w).1.
Proof. intros Hs. by apply update_status_moves. Qed.

Lemma moves_transition tid wall w : moves w (transition_to_ready tid wall w).2.
Proof.
  unfold transition_to_ready. destruct (get_unmet_dependencies tid true w) eqn:Hu; [|by apply moves_same].
  pose proof (update_status_moves tid READY None None None None None None None wall w (λ _, Hu)) as Hm. unfold move_task.
  by destruct (update_task_status _ _ _ _ _ _ _ _ _ _ _).
Qed.

(** A plain move that is kept when it succeeds. *)
Lemma moves_kept_move tid s now w w' ok : s ≠ READY → move_task tid s now w = (w', ok) → moves w w'.
Proof. intros Hs He. change w' with (w', ok).1. rewrite <- He. by apply moves_move. Qed.

Lemma moves_submit_draft tid wall w : moves w (submit_draft tid wall w).2.
Proof.
  unfold submit_draft. destruct (get_task tid w); [|by apply moves_same]. destruct (negb _); [by apply moves_same|].
  destruct (move_task _ _ _ _) as [w' [|]] eqn:Hm; [by refine (moves_kept_move _ _ _ _ _ _ _ Hm)|by apply moves_same].
Qed.

Lemma moves_pause tid e wall w : moves w (pause_row tid e wall w).2.
Proof.
  unfold pause_row. destruct (negb (attempt_ok _ _ _)); [by apply moves_same|]. destruct (get_task tid w); [|by apply moves_same].
  destruct (negb _); [by apply moves_same|]. destruct (move_task _ _ _ _) as [w' [|]] eqn:Hm; [by refine (moves_kept_move _ _ _ _ _ _ _ Hm)|by apply moves_same].
Qed.

Lemma moves_resume tid e wall w : moves w (resume_row tid e wall w).2.
Proof.
  unfold resume_row. destruct (negb (attempt_ok _ _ _)); [by apply moves_same|].
  destruct (move_task _ _ _ _) as [w' [|]] eqn:Hm; [by refine (moves_kept_move _ _ _ _ _ _ _ Hm)|by apply moves_same].
Qed.

Lemma dependencies_update tid p f w : dependencies (update_task tid p f w).1 = dependencies w.
Proof. unfold update_task. by repeat case_match. Qed.

Lemma moves_retry tid ws preserve wall w : moves w (retry_row tid ws preserve wall w).2.
Proof.
  unfold retry_row. destruct (get_task tid w) as [t|]; [|by apply moves_same]. destruct (update_task _ _ _ _) as [w1 ok1] eqn:Hu.
  destruct (move_task _ _ _ w1) as [w2 ok] eqn:Hm. apply moves_kept_move in Hm; [|done].
  assert (moves w w2) as H2.
  { apply (moves_after w w1); [..|done]; change w1 with (w1, ok1).1; rewrite <- Hu; [|apply dependencies_update].
    apply statuses_other. intros x. apply status_of_values. destruct preserve; by repeat constructor. }
  destruct (get_task tid w2); [destruct ok; [done|]|]; by apply moves_same.
Qed.

Lemma copy_tasks tid ds w : tasks (copy_dependencies tid ds w).2 = tasks w.
Proof.
  revert w. induction ds as [|d ds IH]; intros w; cbn; [done|]. destruct (add_task_dependency _ _ _ w) as [[x|e] w'] eqn:Ha; [|done].
  rewrite IH. revert Ha. unfold add_task_dependency. repeat case_match; try done. by intros [= _ <-].
Qed.

Lemma moves_clone source tid w : moves w (clone_dependencies source tid w).2.
Proof.
  apply moves_same. unfold clone_dependencies. pose proof (copy_tasks tid (get_task_dependencies source w) w) as H.
  by destruct (copy_dependencies _ _ _) as [[|] w'].
Qed.

Lemma tasks_step_runs p from s c now w : tasks (update_step_runs p from s c now w) = tasks w.
Proof. done. Qed.

Lemma tasks_invalidate tid now w : tasks (invalidate_task_lease tid now w) = tasks w.
Proof. unfold invalidate_task_lease. by case_match. Qed.

Lemma moves_cut_off tid t e now wall w : moves w (cut_off tid t e now wall w).1.1.
Proof.
  unfold cut_off. case_bool_decide; [by apply moves_same|].
  pose proof (update_status_moves tid CANCELLED None (Some wall) None None e None None wall w ltac:(done)) as Hm.
  destruct (update_task_status _ _ _ _ _ _ _ _ _ _ _) as [w1 ok]. cbn in Hm. eapply moves_before; [exact Hm|]. cbn. unfold statuses.
  by rewrite tasks_invalidate.
Qed.

Lemma moves_cancel tid e now wall w : moves w (cancel_row tid e now wall w).2.
Proof.
  unfold cancel_row. destruct (negb (attempt_ok _ _ _)); [by apply moves_same|]. destruct (get_task tid w) as [t|]; [|by apply moves_same].
  destruct (task_in _ _); [by apply moves_same|].
  pose proof (moves_cut_off tid t e now wall w) as Hm. destruct (cut_off tid t e now wall w) as [[w1 moved] ok]. cbn in Hm. destruct (negb ok); [by apply moves_same|].
  destruct (workflow_state t) as [[|kv state]|]; [done| |done]. destruct (cancelled_state _); [|by apply moves_same].
  eapply moves_before; [exact Hm|]. apply statuses_other. intros x. by apply status_of_values; repeat constructor.
Qed.

Lemma moves_ambiguous c tid details now wall w : moves w (fail_ambiguous c tid details now wall w).2.
Proof.
  unfold fail_ambiguous. destruct (assert_current _ _ _).1; [|by apply moves_same]. cbn [snd].
  eapply moves_after; [| |by apply update_status_moves]; done.
Qed.

(** *** Cancelling *)

(** No lease of the task's key is current any more. *)
Lemma invalidated tid now w l :
  resource_key l = task_lease_key tid → is_current_in_session (lease_table (invalidate_task_lease tid now w)) l now = false.
Proof.
  intros Hl. unfold invalidate_task_lease, is_current_in_session. rewrite Hl. destruct (lease_table w !! task_lease_key tid) as [row|] eqn:Hr.
  - cbn. rewrite lookup_insert_eq. cbn. by rewrite Z.ltb_irrefl, andb_false_r.
  - by rewrite Hr.
Qed.

Lemma no_step_left tid completed final now w r :
  final ∉ ACTIVE_STEP_STATUSES → r ∈ step_runs (fail_running_step_runs_for_task tid completed final now w) →
  sr_task_id r = tid → sr_status r ∉ ACTIVE_STEP_STATUSES.
Proof.
  intros Hf. unfold fail_running_step_runs_for_task, update_step_runs. cbn -[ACTIVE_STEP_STATUSES].
  intros (r0 & -> & _)%list_elem_of_fmap Ht. destruct (_ && _) eqn:Hb; [done|]. apply andb_false_iff in Hb as [Hb|Hb]; bool_facts; [|done].
  by rewrite Ht in Hb.
Qed.

Lemma cancelled_no_pause state state' t :
  cancelled_state state = Some state' → pause_id_of (set_task_values [TWorkflowState (Some state')] t) = None.
Proof.
  unfold cancelled_state. destruct (next_version state) as [v|]; [|done]. intros [= <-]. unfold pause_id_of.
  match goal with |- context [TWorkflowState (Some ?s)] => set (state' := s) end.
  replace (workflow_state (set_task_values [TWorkflowState (Some state')] t)) with (Some state') by by destruct t.
  unfold dict_get, state'. cbn [foldl fst snd]. by rewrite !od_get_set.
Qed.

Lemma step_runs_invalidate tid now w : step_runs (invalidate_task_lease tid now w) = step_runs w.
Proof. unfold invalidate_task_lease. by case_match. Qed.

(** What stopping the execution of a task leaves: nobody holds it, and no step of it is active. *)
Definition stopped (tid : string) (now : Z) (w : tables) : Prop :=
  (∀ l, resource_key l = task_lease_key tid → is_current_in_session (lease_table w) l now = false) ∧
  (∀ r, r ∈ step_runs w → sr_task_id r = tid → sr_status r ∉ ACTIVE_STEP_STATUSES).

Lemma stopped_same tid now w w' : lease_table w' = lease_table w → step_runs w' = step_runs w → stopped tid now w → stopped tid now w'.
Proof. unfold stopped. by intros -> ->. Qed.

Lemma cut_off_outcome tid t e now wall w :
  get_task tid w = Some t → attempt_ok tid e w = true → task_in (t_status t) [COMPLETED; FAILED] = false →
  let '(w1, moved, ok) := cut_off tid t e now wall w in
  ok = true ∧ statuses w1 = <[tid := CANCELLED]> (statuses w) ∧ (∃ t1, get_task tid w1 = Some t1 ∧ workflow_state t1 = workflow_state t) ∧
  if decide (t_status t = CANCELLED) then moved = 0 ∧ w1 = w else moved = 1 ∧ stopped tid now w1.
Proof.
  intros Ht He Hs. unfold cut_off. unfold get_task in *. destruct (decide (t_status t = CANCELLED)) as [Hc|Hc].
  - rewrite bool_decide_true by done. split_and!; [done| |by exists t|done|done]. rewrite insert_id; [done|]. by rewrite statuses_lookup, Ht, <- Hc.
  - rewrite bool_decide_false by done. unfold update_task_status, update_task. rewrite Ht. unfold task_in at 1.
    rewrite bool_decide_true by (destruct (t_status t); try done; by apply (bool_decide_unpack _)). cbn [andb].
    replace (match e with Some n => t_attempt_number t =? n | None => true end) with true
      by (destruct e; [|done]; unfold attempt_ok, assert_task_attempt_current in He; by rewrite Ht in He).
    cbn [andb]. split_and!; [done| | |done|split].
    + unfold statuses at 1. rewrite tasks_invalidate. cbn. rewrite fmap_insert. f_equal. by destruct t, e.
    + rewrite tasks_invalidate. cbn. rewrite lookup_insert_eq. eexists. split; [done|]. by destruct t, e.
    + intros l Hl. by apply invalidated.
    + rewrite step_runs_invalidate. intros r Hr. eapply no_step_left; [|exact Hr]. apply (bool_decide_unpack _). done.
Qed.

(** C13. Cancelling a task, on a row that is locked.  It is refused, without a change, only when
    the attempt is another one, when there is no such task, or when its workflow state has an
    unreadable version.  A task that completed or failed is returned as it is.  Any other is
    cancelled then, no question of its workflow is left open, and unless it had been cancelled
    before, every lease of its execution has lost its force and none of its step runs is active. *)
Theorem cancelling_is_complete tid expected now wall w :
  match cancel_row tid expected now wall w with
  | (Err _, w') =>
      w' = w ∧ (attempt_ok tid expected w = false ∨ get_task tid w = None ∨
                ∃ t state, get_task tid w = Some t ∧ workflow_state t = Some state ∧ next_version state = None)
  | (Ok (t, moved), w') =>
      get_task tid w = Some t ∧ attempt_ok tid expected w = true ∧
      if task_in (t_status t) [COMPLETED; FAILED] then moved = 2 ∧ w' = w else
      statuses w' = <[tid := CANCELLED]> (statuses w) ∧ (pause_id_of <$> get_task tid w') = Some None ∧
      if decide (t_status t = CANCELLED) then moved = 0 ∧ lease_table w' = lease_table w ∧ step_runs w' = step_runs w
      else moved = 1 ∧ stopped tid now w'
  end.
Proof.
  unfold cancel_row. destruct (attempt_ok tid expected w) eqn:He; cbn [negb]; [|auto]. destruct (get_task tid w) as [t|] eqn:Ht; [|auto].
  destruct (task_in (t_status t) [COMPLETED; FAILED]) eqn:Hs; [by rewrite Hs|].
  pose proof (cut_off_outcome tid t expected now wall w Ht He Hs) as Hc. destruct (cut_off _ _ _ _ _ _) as [[w1 moved] ok].
  destruct Hc as (-> & Hst & (t1 & Ht1 & Hws) & Hm). cbn [negb].
  assert (∀ w', statuses w' = statuses w1 → lease_table w' = lease_table w1 → step_runs w' = step_runs w1 →
          (pause_id_of <$> get_task tid w') = Some None →
          statuses w' = <[tid := CANCELLED]> (statuses w) ∧ (pause_id_of <$> get_task tid w') = Some None ∧
          if decide (t_status t = CANCELLED) then moved = 0 ∧ lease_table w' = lease_table w ∧ step_runs w' = step_runs w
          else moved = 1 ∧ stopped tid now w') as Hfin.
  { intros w' H1 H2 H3 H4. split_and!; [congruence|done|]. destruct (decide _); destruct Hm as [Hm1 Hm2]; split; try done.
    - by rewrite H2, H3, Hm2.
    - by eapply stopped_same. }
  destruct (workflow_state t) as [[|kv state]|] eqn:Hw.
  - rewrite Hs. do 2 (split; [done|]). apply Hfin; [done..|]. rewrite Ht1. cbn. unfold pause_id_of. by rewrite Hws.
  - destruct (cancelled_state _) as [state'|] eqn:Hc.
    + rewrite Hs. do 2 (split; [done|]). unfold get_task in *. apply Hfin; unfold update_task; rewrite Ht1; cbn [fst]; [|done..|].
      * pose proof (statuses_other tid (λ _, true) (set_task_values [TWorkflowState (Some state'); TUpdated wall]) w1) as Ho.
        unfold update_task in Ho. rewrite Ht1 in Ho. apply Ho. intros x. by apply status_of_values; repeat constructor.
      * cbn. rewrite lookup_insert_eq. cbn. f_equal. rewrite <- (cancelled_no_pause _ _ t1 Hc). by destruct t1.
    + split; [done|]. right. right. exists t, (kv :: state). split_and!; [done|done|]. revert Hc. unfold cancelled_state. by destruct (next_version _).
  - rewrite Hs. do 2 (split; [done|]). apply Hfin; [done..|]. rewrite Ht1. cbn. unfold pause_id_of. by rewrite Hws.
Qed.

(** *** Dependents *)

(** A requirement of [x] that is not complete has failed or was cancelled. *)
Definition blocked (w : tables) (x : string) : bool :=
  existsb (λ d, required d && match get_task (depends_on d) w with Some t => task_in (t_status t) [FAILED; CANCELLED] | None => false end)
    (get_unmet_dependencies x true w).

Definition after_resolving (w : tables) (x : string) : option TaskStatus :=
  match statuses w !! x with
  | Some QUEUED => Some (match get_unmet_dependencies x true w with [] => READY | _ => QUEUED end)
  | Some RUNNING => Some (if blocked w x then PAUSED else RUNNING)
  | o => o
  end.

(** Which tasks have ended, and how. *)
Definition ended (w : tables) (x : string) : option (option TaskStatus) :=
  (λ s, if task_in s [COMPLETED; FAILED; CANCELLED] then Some s else None) <$> statuses w !! x.

Definition alike (w w' : tables) : Prop := dependencies w' = dependencies w ∧ ∀ x, ended w' x = ended w x.

Lemma alike_complete w w' x : alike w w' → complete w' x = complete w x.
Proof.
  intros [_ H]. specialize (H x). unfold complete, ended in *.
  destruct (statuses w' !! x) as [s'|], (statuses w !! x) as [s|]; cbn in *; try done. f_equal. by destruct s', s.
Qed.

Lemma alike_unmet w w' x ro : alike w w' → get_unmet_dependencies x ro w' = get_unmet_dependencies x ro w.
Proof. intros H. apply unmet_same; [apply H|]. intros y. by apply alike_complete. Qed.

Lemma existsb_same {A} (f g : A → bool) l : (∀ x, f x = g x) → existsb f l = existsb g l.
Proof. intros H. induction l as [|x l IH]; cbn; [done|]. by rewrite H, IH. Qed.

Lemma alike_blocked w w' x : alike w w' → blocked w' x = blocked w x.
Proof.
  intros H. unfold blocked. rewrite (alike_unmet w w') by done. apply existsb_same. intros d. f_equal. destruct H as [_ H].
  specialize (H (depends_on d)). unfold ended, get_task in *. rewrite !statuses_lookup in H.
  destruct (tasks w' !! _) as [t'|], (tasks w !! _) as [t|]; cbn in *; try done. by destruct (t_status t'), (t_status t).
Qed.

Lemma alike_refl w : alike w w.
Proof. done. Qed.

Lemma alike_trans w1 w2 w3 : alike w1 w2 → alike w2 w3 → alike w1 w3.
Proof. intros [H1 H2] [H3 H4]. split; [congruence|]. intros x. by rewrite H4. Qed.

(** A move between states that have not ended. *)
Lemma alike_move tid s now w :
  task_in s [COMPLETED; FAILED; CANCELLED] = false → (∀ s0, s0 ∈ allowed_from s → task_in s0 [COMPLETED; FAILED; CANCELLED] = false) →
  alike w (move_task tid s now w).1.
Proof.
  intros Hs Hfrom. split; [unfold move_task, update_task_status; apply dependencies_update|]. intros x. unfold move_task.
  destruct (update_status_cases tid s None None None None None None None now w) as [[_ ->]|(_ & s0 & H0 & Ha & He)]; [done|].
  unfold ended. rewrite He. destruct (decide (x = tid)) as [->|Hne]; [|by rewrite lookup_insert_ne].
  rewrite lookup_insert_eq, H0. cbn. by rewrite Hs, (Hfrom s0 Ha).
Qed.

Lemma alike_ready tid now w : alike w (move_task tid READY now w).1.
Proof. apply alike_move; [done|]. by intros s ->%list_elem_of_singleton. Qed.

Lemma alike_paused tid now w : alike w (move_task tid PAUSED now w).1.
Proof. apply alike_move; [done|]. by intros s ->%list_elem_of_singleton. Qed.

(** Moving a task whose present state is known. *)
Lemma move_known tid s now w :
  (statuses w !! tid = None ∨ ∃ s0, statuses w !! tid = Some s0 ∧ s0 ∉ allowed_from s) → move_task tid s now w = (w, false).
Proof.
  intros H. unfold move_task.
  destruct (update_status_cases tid s None None None None None None None now w) as [[H2 H1]|(_ & s0 & H0 & Ha & _)].
  - by destruct (update_task_status _ _ _ _ _ _ _ _ _ _ _); cbn in *; subst.
  - rewrite H0 in H. destruct H as [?|(s1 & [= <-] & ?)]; done.
Qed.

Lemma move_succeeds tid s s0 now w :
  statuses w !! tid = Some s0 → s0 ∈ allowed_from s →
  (move_task tid s now w).2 = true ∧ statuses (move_task tid s now w).1 = <[tid := s]> (statuses w).
Proof.
  intros H0 Ha. unfold move_task.
  destruct (update_status_cases tid s None None None None None None None now w) as [[H2 _]|(H2 & _ & _ & _ & He)]; [|done].
  exfalso. revert H2. unfold update_task_status, update_task. rewrite statuses_lookup in H0.
  destruct (tasks w !! tid) as [t|]; [|done]. injection H0 as <-. cbn [andb]. unfold task_in. by rewrite bool_decide_true.
Qed.

Lemma resolve_one_spec wall moved w dep :
  let r := resolve_one wall (moved, w) dep in
  alike w r.2 ∧ (∀ x, statuses r.2 !! x = if decide (x = dep) then after_resolving w x else statuses w !! x) ∧
  r.1 = moved ++ (if decide (statuses w !! dep = Some QUEUED ∧ get_unmet_dependencies dep true w = []) then [dep] else []).
Proof.
  cbn zeta. unfold resolve_one, after_resolving, blocked. destruct (get_unmet_dependencies dep true w) as [|u us] eqn:Hu.
  - pose proof (alike_ready dep wall w) as Hal. destruct (decide (statuses w !! dep = Some QUEUED)) as [Hq|Hq].
    + destruct (move_succeeds dep READY QUEUED wall w Hq) as [Hok Hst]; [by left|].
      destruct (move_task dep READY wall w) as [w1 ok]. cbn in *. subst ok. split_and!; [done| |by rewrite decide_True].
      intros x. rewrite Hst. destruct (decide (x = dep)) as [->|Hne]; [by rewrite lookup_insert_eq, Hq, Hu|by rewrite lookup_insert_ne].
    + rewrite move_known.
      2: { destruct (statuses w !! dep) as [s0|] eqn:H0; [right; exists s0; split; [done|]|by left]. intros ->%list_elem_of_singleton. done. }
      cbn [fst snd]. split_and!; [done| |by rewrite decide_False, app_nil_r by by intros [??]]. intros x. destruct (decide (x = dep)) as [->|]; [|done].
      destruct (statuses w !! dep) as [[]|] eqn:H0; try done; by rewrite Hu.
  - rewrite (decide_False (P := _ ∧ u :: us = [])) by (by intros [_ ?]). rewrite app_nil_r. destruct (existsb _ _) eqn:Hb; cbn [fst snd].
    + pose proof (alike_paused dep wall w) as Hal. destruct (decide (statuses w !! dep = Some RUNNING)) as [Hq|Hq].
      * destruct (move_succeeds dep PAUSED RUNNING wall w Hq) as [_ Hst]; [by left|]. split_and!; [done| |done]. intros x. rewrite Hst.
        destruct (decide (x = dep)) as [->|Hne]; [by rewrite lookup_insert_eq, Hq, Hu, Hb|by rewrite lookup_insert_ne].
      * rewrite move_known.
        2: { destruct (statuses w !! dep) as [s0|] eqn:H0; [right; exists s0; split; [done|]|by left]. intros ->%list_elem_of_singleton. done. }
        cbn [fst snd]. split_and!; [done| |done]. intros x. destruct (decide (x = dep)) as [->|]; [|done]. rewrite Hu.
        by destruct (statuses w !! dep) as [[]|].
    + split_and!; [done| |done]. intros x. destruct (decide (x = dep)) as [->|]; [|done]. rewrite Hu.
      destruct (statuses w !! dep) as [[]|]; try done. by rewrite Hb.
Qed.

Lemma after_again w w1 x :
  alike w w1 → statuses w1 !! x = statuses w !! x ∨ statuses w1 !! x = after_resolving w x → after_resolving w1 x = after_resolving w x.
Proof.
  intros Ha Hs. unfold after_resolving in *. rewrite (alike_unmet w w1), (alike_blocked w w1) by done. destruct Hs as [->| ->]; [done|].
  destruct (statuses w !! x) as [[]|]; try done; by repeat case_match; simplify_eq.
Qed.

Lemma resolve_fold wall deps moved w :
  let r := foldl (resolve_one wall) (moved, w) deps in
  alike w r.2 ∧ (∀ x, statuses r.2 !! x = if decide (x ∈ deps) then after_resolving w x else statuses w !! x) ∧
  (∀ x, x ∈ r.1 ↔ x ∈ moved ∨ x ∈ deps ∧ statuses w !! x = Some QUEUED ∧ get_unmet_dependencies x true w = []).
Proof.
  cbn zeta. revert moved w. induction deps as [|d deps IH]; intros moved w; cbn [foldl].
  - split_and!; [done| |]; [intros x; by rewrite decide_False by by intros ?%elem_of_nil|].
    intros x. split; [by left|]. intros [?|[?%elem_of_nil _]]; done.
  - destruct (resolve_one_spec wall moved w d) as (Ha & Hst & Hmv). destruct (resolve_one wall (moved, w) d) as [m1 w1]. cbn [fst snd] in *.
    destruct (IH m1 w1) as (Ha' & Hst' & Hmv'). split_and!; [by eapply alike_trans| |].
    + intros x. rewrite Hst'. specialize (Hst x). destruct (decide (x ∈ deps)) as [Hin|Hin].
      * rewrite (decide_True (P := x ∈ d :: deps)) by by right. apply after_again; [done|]. destruct (decide (x = d)); auto.
      * rewrite Hst. destruct (decide (x = d)) as [->|Hne]; [by rewrite decide_True by by left|].
        by rewrite decide_False by by rewrite not_elem_of_cons.
    + intros x. rewrite Hmv', Hmv, elem_of_app, elem_of_cons, (alike_unmet w w1) by done. specialize (Hst x).
      destruct (decide (statuses w !! d = Some QUEUED ∧ get_unmet_dependencies d true w = [])) as [[Hq Hu]|Hn].
      * rewrite list_elem_of_singleton. destruct (decide (x = d)) as [->|Hne]; [naive_solver|]. rewrite Hst. naive_solver.
      * rewrite elem_of_nil. destruct (decide (x = d)) as [->|Hne]; [|rewrite Hst; naive_solver].
        rewrite Hst. unfold after_resolving. split; [|naive_solver]. intros [[?|[]]|(Hin & Hq & Hu)]; [by left|].
        destruct (statuses w !! d) as [[]|] eqn:H0; try done; [naive_solver|by case_match].
Qed.

Lemma moves_resolve fence tid now wall w : moves w (resolve_rows fence tid now wall w).2.
Proof.
  unfold resolve_rows. destruct (match fence with Some f => _ | None => _ end); [|by apply moves_same].
  destruct (resolve_fold wall (get_dependent_tasks tid w) [] w) as (_ & Hst & _).
  destruct (foldl _ _ _) as [moved w']. cbn [fst snd] in *. intros x s Hs. specialize (Hst x). rewrite Hs in Hst.
  destruct (decide _); [|exists s; auto]. unfold after_resolving in Hst. rewrite Hs in Hst.
  destruct s; try (eexists; split; [exact Hst|by left]).
  - destruct (get_unmet_dependencies x true w); eexists; (split; [exact Hst|]); [right; split; [by left|done]|by left].
  - destruct (blocked w x); eexists; (split; [exact Hst|]); [right; split; [by left|done]|by left].
Qed.

(** *** Histories of tool events *)

Lemma set_all_get (kvs d : pydict) id :
  is_Some (od_get id (foldl (λ d kv, od_set kv.1 kv.2 d) d kvs)) ↔ is_Some (od_get id d) ∨ id ∈ kvs.*1.
Proof.
  revert d. induction kvs as [|[k v] kvs IH]; intros d; cbn; [rewrite elem_of_nil; tauto|].
  rewrite IH, od_get_set, elem_of_cons. destruct (decide (id = k)) as [->|]; [|tauto]. split; eauto.
Qed.

Lemma unmatched_none events :
  unmatched_calls events = [] → ∀ id, id ∈ (omap (tool_event "tool_call") events).*1 → id ∈ (omap (tool_event "tool_result") events).*1.
Proof.
  intros Hu id Hid. destruct (decide (id ∈ tool_results events)) as [|Hn]; [done|].
  destruct (proj2 (set_all_get (omap (tool_event "tool_call") events) [] id)) as [v Hv]; [by right|].
  apply od_get_elem in Hv. assert ((id, v) ∈ unmatched_calls events) as Hin by by apply list_elem_of_filter.
  rewrite Hu in Hin. by apply elem_of_nil in Hin.
Qed.

Section Queue.
Context (st : execution_store).
Context (step_names_of : task → result string (list string)) (validate_state : option pydict → pydict).
Context (active_session : string → bool) (read_tool_events : string → option (list pyval)) (notification_resolved : string → bool).
Context (nulls_last : bool) (py_repr_str : string → string) (py_repr_float : Z → Z → string).

Notation submit := (submit active_session).
Notation resume_task := (resume_task st).
Notation retry_failed_task := (retry_failed_task st validate_state).
Notation rerun_task := (rerun_task st active_session).
Notation request_revision := (request_revision st step_names_of validate_state).
Notation recover_stale_task := (recover_stale_task st read_tool_events nulls_last).
Notation recover_stale_tasks := (recover_stale_tasks st read_tool_events nulls_last).
Notation recover_paused_task := (recover_paused_task st notification_resolved py_repr_str py_repr_float).
Notation recover_paused_tasks := (recover_paused_tasks st notification_resolved py_repr_str py_repr_float).
Notation _drain_pass := (_drain_pass st read_tool_events notification_resolved nulls_last py_repr_str py_repr_float).

(** The methods, without their results; [false] when an exception ended a pass of the loop. *)
Inductive queue_call :=
| MSubmit (s : submission)
| MReconcile (tid : string)
| MSubmitExisting (tid : string)
| MBatchSubmit (tids : list string)
| MPause (tid : string) (expected : option Z)
| MResume (tid : string) (expected : option Z)
| MRetry (tid : string) (preserve : bool)
| MRerun (tid : string)
| MRevise (tid : string) (target : option string) (instruction : string) (expected : option Z)
| MCancel (tid : string) (expected : option Z)
| MResolve (fence : option TaskExecutionFence) (tid : string)
| MOrphans
| MRecoverStale
| MRecoverPaused
| MDrain.

Definition queue_method (m : queue_call) : prog bool :=
  match m with
  | MSubmit s => do _ <- submit s; Ret true
  | MReconcile tid => do _ <- reconcile_submitted tid; Ret true
  | MSubmitExisting tid => do _ <- submit_existing tid; Ret true
  | MBatchSubmit tids => do _ <- batch_submit tids; Ret true
  | MPause tid e => do _ <- pause_task tid e; Ret true
  | MResume tid e => do _ <- resume_task tid e; Ret true
  | MRetry tid preserve => do _ <- retry_failed_task tid preserve; Ret true
  | MRerun tid => do _ <- rerun_task tid; Ret true
  | MRevise tid target instruction e => do _ <- request_revision tid target instruction e; Ret true
  | MCancel tid e => do _ <- cancel_task tid e; Ret true
  | MResolve fence tid => do _ <- resolve_dependencies fence tid; Ret true
  | MOrphans => do _ <- recover_orphaned_running_step_runs; Ret true
  | MRecoverStale => recover_stale_tasks
  | MRecoverPaused => recover_paused_tasks
  | MDrain => _drain_pass
  end.

(** ** Claims *)

Notation no_lease := (λ _ held, held = []).
Notation keeps_none := (λ (ok : bool) (held : list Lease), ok = true → held = []).

Lemma free_wake_workers : keeps_leases _wake_workers.
Proof. by split. Qed.

Lemma free_ready tid : keeps_leases (_try_transition_to_ready tid).
Proof. apply neutral_bind; [apply free_tx|]. by intros []. Qed.

Lemma free_submit s : keeps_leases (submit s).
Proof.
  unfold TaskQueue.submit. case_match; [done|]. intros wall mono l. case_match; [done|]. split; [done|]. intros v.
  destruct (answer v : result query_error task) as [t|e]; [|done]. apply neutral_bind; [done|]. intros _. apply neutral_bind; [done|]. intros _.
  apply neutral_bind; [case_match; [apply neutral_bind; [apply free_ready|done]|done]|]. intros _.
  apply neutral_bind; [by case_match|done].
Qed.

Lemma free_reconcile tid : keeps_leases (reconcile_submitted tid).
Proof.
  apply neutral_bind; [done|]. intros [t|]; [|done]. apply neutral_bind.
  - case_match; [apply neutral_bind; [apply free_ready|done]|done].
  - by intros [t'|].
Qed.

Lemma free_submit_existing tid : keeps_leases (submit_existing tid).
Proof. apply neutral_bind; [apply free_tx|]. intros [t|e]; [|done]. apply neutral_bind; [apply free_ready|done]. Qed.

Lemma free_batch_submit tids : keeps_leases (batch_submit tids).
Proof.
  induction tids as [|tid tids IH]; [done|]. apply neutral_bind; [apply free_submit_existing|].
  intros [t|[[m|]|m]]; try done; by apply neutral_bind.
Qed.

Lemma free_pause tid e : keeps_leases (pause_task tid e).
Proof. apply neutral_bind; [apply free_tx|]. by intros []. Qed.

Lemma free_resolve_pause p : keeps_leases (resolve_pause p).
Proof. by split. Qed.

Lemma free_cancel tid e : keeps_leases (cancel_task tid e).
Proof.
  intros wall mono l. apply neutral_bind; [apply free_tx|]. intros [[t moved]|err]; [|done]. case_match; [done|].
  apply neutral_bind; [by case_match|]. intros _. split; [done|]. intros _ now w. split; [done|]. intros _. by destruct (moved =? 1).
Qed.

Lemma free_resolve fence tid : keeps_leases (resolve_dependencies fence tid).
Proof. apply neutral_bind; [apply free_tx|]. by intros [[|]|]. Qed.

Lemma free_clone t : keeps_leases (_clone_task_for_rerun active_session t).
Proof.
  apply neutral_bind; [apply free_submit|]. intros [draft|e]; [|done]. apply neutral_bind; [apply free_tx|].
  intros [|]; [apply free_submit_existing|done].
Qed.

Lemma acc_launch t c (Q : unit → list Lease → Prop) : Q tt [] → accounts (_launch_claimed_task_run t c) (claim_leases c) Q.
Proof. intros HQ wall mono l. case_match; cbn -[claim_leases]; by rewrite without_all. Qed.

Lemma acc_give_back c (Q : unit → list Lease → Prop) : Q tt [] → accounts (release_claim c) (claim_leases c) Q.
Proof. intros HQ. apply acc_release_claim. by rewrite without_all. Qed.

Lemma acc_claim st' tid ss (Q : option TaskExecutionClaim → list Lease → Prop) :
  Q None [] → (∀ c, Q (Some c) (claim_leases c)) → accounts (call_claim_existing st' tid ss) [] Q.
Proof. intros HN HS. apply acc_claim_existing; [done|]. intros c. by rewrite app_nil_r. Qed.

Lemma acc_resume tid e : accounts (resume_task tid e) [] no_lease.
Proof.
  intros wall mono l. destruct (_get_pending_interaction l tid); [done|]. apply accounts_bind, acc_read_tables. intros [t|err]; [|done].
  intros wall' mono' l'. destruct (_ && _).
  - by apply accounts_bind, acc_tx.
  - apply accounts_bind, acc_free; [by case_match|]. intros _. apply accounts_bind, acc_claim; [done|]. intros c.
    apply accounts_bind, acc_tx. intros [|err]; apply accounts_bind; [by apply acc_launch|by apply acc_give_back].
Qed.

Lemma acc_retry tid preserve : accounts (retry_failed_task tid preserve) [] no_lease.
Proof.
  apply accounts_bind, acc_read_tables. intros [t|e]; [|done]. apply accounts_bind, acc_claim; [done|]. intros c.
  apply accounts_bind, acc_tx. intros [t'|e]; apply accounts_bind; [|by apply acc_give_back].
  change (claim_leases c) with (claim_leases (with_attempt (t_attempt_number t') c)). by apply acc_launch.
Qed.

Lemma acc_rerun tid : accounts (rerun_task tid) [] no_lease.
Proof.
  apply accounts_bind, acc_read_tables. intros [t|]; [|done]. case_bool_decide.
  - apply accounts_bind. eapply accounts_weaken; [apply acc_resume|]. by intros [] held ->.
  - destruct (negb _); [done|]. apply accounts_bind, acc_free; [apply free_clone|done].
Qed.

Lemma acc_revise tid target instruction e : accounts (request_revision tid target instruction e) [] no_lease.
Proof.
  apply accounts_bind, acc_read_tables. intros [r|m]; [|done]. intros wall mono l. apply accounts_bind, acc_tx. intros [[t n]|err]; [|done].
  apply accounts_bind, acc_free; [by case_match|]. intros _ wall' mono' l'. apply accounts_bind, acc_free; [by case_match|]. intros _.
  apply accounts_bind, acc_claim; [done|]. intros c. by apply accounts_bind, acc_launch.
Qed.

Lemma acc_stale t : accounts (recover_stale_task t) [] keeps_none.
Proof.
  intros wall mono l. destruct (has_active_run l (task_id t)); [done|]. apply accounts_bind, acc_claim; [done|]. intros c.
  apply accounts_bind, acc_read_tables. intros r. destruct (classify_running _ r) as [[] details]; try by apply accounts_bind, acc_launch.
  apply accounts_bind, acc_tx. intros [|]; [|done]. by apply accounts_bind, acc_give_back.
Qed.

Lemma acc_launch_paused t : accounts (_launch_recovered_paused_task st t) [] keeps_none.
Proof.
  intros wall mono l. destruct (has_active_run l (task_id t)); [done|]. apply accounts_bind, acc_claim; [done|]. intros c.
  by apply accounts_bind, acc_launch.
Qed.

Lemma acc_paused t : accounts (recover_paused_task t) [] keeps_none.
Proof.
  unfold TaskQueue.recover_paused_task. destruct (workflow_state t) as [ws|]; [|done]. destruct (dict_get "pending_pause_type" ws); try done.
  case_bool_decide; [apply acc_launch_paused|]. case_bool_decide.
  - apply accounts_bind, acc_free; [by case_match|]. intros _. apply acc_launch_paused.
  - case_bool_decide; [|done]. apply accounts_bind, acc_free; [done|]. intros _. apply accounts_bind, acc_free; [by case_match|].
    intros _. apply acc_launch_paused.
Qed.

Lemma acc_pick : accounts (_try_pick_and_run st) [] no_lease.
Proof.
  apply accounts_bind, acc_claim_ready; [done|]. intros c. rewrite app_nil_r. apply accounts_bind, acc_read_tables. intros [t|]; [|by apply acc_give_back].
  apply accounts_bind, acc_signal, accounts_bind, acc_signal. by apply accounts_bind, acc_launch.
Qed.

Lemma acc_passes : accounts (do ok <- recover_stale_tasks; if (ok : bool) then recover_paused_tasks else Ret false) [] keeps_none.
Proof.
  apply accounts_bind, accounts_bind, acc_read_tables. intros ts. eapply accounts_weaken; [apply accounts_each, acc_stale|].
  intros [|] held Hh; [|done]. rewrite Hh by done. apply accounts_bind, acc_read_tables. intros ps. apply accounts_each, acc_paused.
Qed.

Lemma acc_drain : accounts _drain_pass [] keeps_none.
Proof.
  apply accounts_bind. intros wall mono l. apply accounts_bind. eapply accounts_weaken with (Q := keeps_none).
  - case_match; [|done]. apply accounts_bind, acc_passes.
  - intros [|] held Hh; [|done]. rewrite Hh by done. intros now w. apply accounts_bind. cbn [accounts pbind].
    apply accounts_bind. eapply accounts_weaken; [apply acc_pick|]. by intros [] h ->.
Qed.

Lemma acc_then {A} (p : prog A) : accounts p [] no_lease → accounts (do _ <- p; Ret true) [] keeps_none.
Proof. intros Hp. apply accounts_bind. eapply accounts_weaken; [exact Hp|]. by intros a held ->. Qed.

Lemma acc_method m : accounts (queue_method m) [] keeps_none.
Proof.
  destruct m; cbn [queue_method]; try apply acc_then.
  - by apply acc_free; [apply free_submit|].
  - by apply acc_free; [apply free_reconcile|].
  - by apply acc_free; [apply free_submit_existing|].
  - by apply acc_free; [apply free_batch_submit|].
  - by apply acc_free; [apply free_pause|].
  - apply acc_resume.
  - apply acc_retry.
  - apply acc_rerun.
  - apply acc_revise.
  - by apply acc_free; [apply free_cancel|].
  - by apply acc_free; [apply free_resolve|].
  - by apply acc_free; [apply free_tx|].
  - apply accounts_bind, acc_read_tables. intros ts. apply accounts_each, acc_stale.
  - apply accounts_bind, acc_read_tables. intros ts. apply accounts_each, acc_paused.
  - apply acc_drain.
Qed.

(** C10. Whatever other tasks and controllers do between the calls of a method of the queue, when
    it returns every lease of every claim it was granted was given back, or was handed on with the
    claim to the task that runs it or to the one that releases it.  Only an exception that ends a
    recovery pass can leave a claim behind. *)
Theorem queue_claims_are_handed_on m slots start end_ evs :
  played (queue_method m) slots start = (Some true, end_, evs) → outstanding evs [] = [].
Proof. intros Hp. eapply accounts_sound in Hp; [|apply acc_method]. by apply Hp. Qed.

(** ** What every call keeps *)

(** The states along any number of calls: what has ended well or was cancelled stays as it is. *)
Definition finished_kept (w w' : world) : Prop :=
  ∀ tid s, statuses (db w) !! tid = Some s → task_in s [COMPLETED; CANCELLED] = true → statuses (db w') !! tid = Some s.

#[local] Instance finished_kept_refl : Reflexive finished_kept.
Proof. by intros w tid s. Qed.
#[local] Instance finished_kept_trans : Transitive finished_kept.
Proof. intros w1 w2 w3 H1 H2 tid s Hs Hf. auto. Qed.

Lemma finished_is_final s s' : task_in s [COMPLETED; CANCELLED] = true → s ∉ allowed_from s'.
Proof. intros Hf. apply (bool_decide_eq_false_1 (s ∈ allowed_from s')). by destruct s, s'. Qed.

(** A call whose transaction moves tasks as allowed. *)
Definition moving (o : control_op) : Prop := ∀ w, moves (db w) (db (control_exec w o)).

Lemma moving_finished o : moving o → respects finished_kept o.
Proof.
  intros Ho w tid s Hs Hf. destruct (Ho w tid s Hs) as (s' & Hs' & [->|[Ha _]]); [done|]. by apply finished_is_final in Ha.
Qed.

Lemma moving_tx {A} `{Answer A} (f : Z → Z → tables → A * tables) : (∀ now wall w, moves w (f now wall w).2) → calls_only moving (tx f).
Proof.
  intros Hf. split; [|done]. intros now wall w. unfold control_exec. cbn. specialize (Hf now wall (db w)). by destruct (f now wall (db w)).
Qed.

Lemma moving_signal s : calls_only moving (signal_ s).
Proof. split; [|by intros]. intros now wall w. by apply moves_same. Qed.

Lemma tasks_take t uuid now w w' c : take st t uuid now w = Some (w', c) → tasks w' = tasks w.
Proof. unfold take. destruct (acquire_in_session _ _ _ _ _) as [? [l|]]; [|done]. case_match; [|done]. case_match. case_match. by intros [= <- _]. Qed.

Lemma moves_claim_existing tid ss locked uuid now w : moves w (claim_existing st tid ss locked uuid now w).2.
Proof.
  apply moves_same. unfold claim_existing. destruct (tasks w !! tid); [|done]. destruct (_ && _); [|done].
  destruct (take _ _ _ _ w) as [[w' c]|] eqn:Ht; [by eapply tasks_take|done].
Qed.

Lemma moves_claim_ready locked uuid now w : moves w (claim_ready st "default" locked uuid now w).2.
Proof.
  unfold claim_ready. destruct (first_by _ _) as [t|]; [|by apply moves_same]. destruct (take _ _ _ _ w) as [[w1 c]|] eqn:Ht; [|by apply moves_same].
  apply tasks_take in Ht. destruct (update_task _ _ _ w1) as [w2 ok] eqn:Hu. destruct ok; [|by apply moves_same].
  assert (statuses w1 = statuses w) as Hst by (unfold statuses; by rewrite Ht). cbn.
  change w2 with (w2, true).1. rewrite <- Hu. intros x s Hs. rewrite statuses_update, Ht, Hst.
  destruct (tasks w !! task_id t) as [t0|] eqn:H0; [|exists s; auto]. case_bool_decide as Hr; [|exists s; auto].
  rewrite status_of_set by by repeat constructor. destruct (decide (x = task_id t)) as [->|Hne]; [|rewrite lookup_insert_ne by done; exists s; auto].
  rewrite lookup_insert_eq. exists RUNNING. split; [done|]. right. rewrite statuses_lookup, H0 in Hs. injection Hs as <-. rewrite Hr. split; [by left|done].
Qed.

Lemma moving_claim tid ss : calls_only moving (call_claim_existing st tid ss).
Proof.
  split; [|done]. intros now wall w. unfold control_exec. cbn. pose proof (moves_claim_existing tid ss (locked_rows w) (uuid4 w) now (db w)) as Hm.
  by destruct (claim_existing _ _ _ _ _ _ _).
Qed.

Lemma moving_claim_ready : calls_only moving (call_claim_ready st).
Proof.
  split; [|done]. intros now wall w. unfold control_exec. cbn. pose proof (moves_claim_ready (locked_rows w) (uuid4 w) now (db w)) as Hm.
  by destruct (claim_ready _ _ _ _ _ _).
Qed.

Lemma moving_release c : calls_only moving (release_claim c).
Proof. split; [|done]. intros now wall w. by apply moves_same. Qed.

Lemma moving_launch t c : calls_only moving (_launch_claimed_task_run t c).
Proof. intros wall mono l. by case_match. Qed.
#[local] Hint Resolve moving_claim moving_claim_ready moving_release moving_launch moving_signal : moving.

Lemma moving_wake_workers : calls_only moving _wake_workers.
Proof. apply (moving_signal QueueWakeup). Qed.

Lemma moving_ready tid : calls_only moving (_try_transition_to_ready tid).
Proof.
  apply calls_only_bind; [apply moving_tx; intros; apply moves_transition|]. intros [|]; [|done].
  by apply calls_only_bind; [apply moving_wake_workers|].
Qed.

Lemma moving_submit s : calls_only moving (submit s).
Proof.
  unfold TaskQueue.submit. case_match; [done|]. intros wall mono l. case_match; [done|]. split.
  { intros now wall' w. unfold control_exec. cbn. pose proof (moves_insert active_session s wall' w) as Hm. by destruct (insert_task _ _ _ _). }
  intros v. destruct (answer v : result query_error task) as [t|e]; [|done].
  apply calls_only_bind; [apply moving_signal|]. intros _. apply calls_only_bind; [apply moving_signal|]. intros _.
  apply calls_only_bind; [case_match; [apply calls_only_bind; [apply moving_ready|done]|done]|]. intros _.
  apply calls_only_bind; [case_match; [apply moving_wake_workers|done]|done].
Qed.

Lemma moving_reconcile tid : calls_only moving (reconcile_submitted tid).
Proof.
  apply calls_only_bind; [done|]. intros [t|]; [|done]. apply calls_only_bind.
  - case_match; [apply calls_only_bind; [apply moving_ready|done]|done].
  - intros [t'|]; [|done]. by apply calls_only_bind; [apply moving_wake_workers|].
Qed.

Lemma moving_submit_existing tid : calls_only moving (submit_existing tid).
Proof.
  apply calls_only_bind; [apply moving_tx; intros; apply moves_submit_draft|]. intros [t|e]; [|done].
  apply calls_only_bind; [apply moving_ready|done].
Qed.

Lemma moving_batch_submit tids : calls_only moving (batch_submit tids).
Proof.
  induction tids as [|tid tids IH]; [done|]. apply calls_only_bind; [apply moving_submit_existing|].
  intros [t|[[m|]|m]]; try done; by apply calls_only_bind.
Qed.

Lemma moving_resolve_pause p : calls_only moving (resolve_pause p).
Proof. apply (moving_signal (PauseResolved p)). Qed.

Lemma moving_pending pause : calls_only moving match pause with Some p => resolve_pause p | None => Ret tt end.
Proof. destruct pause; [apply moving_resolve_pause|done]. Qed.

Lemma moving_resume tid e : calls_only moving (resume_task tid e).
Proof.
  intros wall mono l. destruct (_get_pending_interaction l tid); [done|]. apply calls_only_bind; [done|]. intros [t|err]; [|done].
  intros wall' mono' l'. destruct (_ && _).
  - by apply calls_only_bind; [apply moving_tx; intros; apply moves_resume|].
  - apply calls_only_bind; [by case_match|]. intros _. apply calls_only_bind; [apply moving_claim|]. intros [c|]; [|done].
    apply calls_only_bind; [apply moving_tx; intros; apply moves_resume|].
    intros [|err]; apply calls_only_bind; auto with moving; done.
Qed.

Lemma moving_retry tid preserve : calls_only moving (retry_failed_task tid preserve).
Proof.
  apply calls_only_bind; [done|]. intros [t|e]; [|done]. apply calls_only_bind; [apply moving_claim|]. intros [c|]; [|done].
  apply calls_only_bind; [apply moving_tx; intros; apply moves_retry|]. intros [t'|e]; apply calls_only_bind; auto with moving; done.
Qed.

Lemma moving_rerun tid : calls_only moving (rerun_task tid).
Proof.
  apply calls_only_bind; [done|]. intros [t|]; [|done]. case_bool_decide; [by apply calls_only_bind; [apply moving_resume|]|].
  destruct (negb _); [done|]. apply calls_only_bind; [|by intros []]. apply calls_only_bind; [apply moving_submit|]. intros [d|e]; [|done].
  apply calls_only_bind; [apply moving_tx; intros; apply moves_clone|]. intros [|]; [apply moving_submit_existing|done].
Qed.

Lemma moving_cancel tid e : calls_only moving (cancel_task tid e).
Proof.
  intros wall mono l. apply calls_only_bind; [apply moving_tx; intros; apply moves_cancel|]. intros [[t moved]|err]; [|done].
  case_match; [done|]. apply calls_only_bind; [apply moving_pending|]. intros _. apply calls_only_bind; [apply moving_signal|]. intros _.
  apply calls_only_bind; [done|]. intros _. apply calls_only_bind; [done|]. intros _. apply calls_only_bind; [apply moving_signal|]. intros _.
  apply calls_only_bind; [|done]. case_match; [|done]. apply calls_only_bind; intros; apply moving_signal.
Qed.

Lemma moving_stale t : calls_only moving (recover_stale_task t).
Proof.
  intros wall mono l. destruct (has_active_run l (task_id t)); [done|]. apply calls_only_bind; [apply moving_claim|]. intros [c|]; [|done].
  apply calls_only_bind; [done|]. intros r. destruct (classify_running _ r) as [[] details]; try by apply calls_only_bind; [apply moving_launch|].
  apply calls_only_bind; [apply moving_tx; intros; apply moves_ambiguous|]. intros [|]; [|done].
  by apply calls_only_bind; [apply moving_release|].
Qed.

Lemma moving_launch_paused t : calls_only moving (_launch_recovered_paused_task st t).
Proof.
  intros wall mono l. destruct (has_active_run l (task_id t)); [done|]. apply calls_only_bind; [apply moving_claim|]. intros [c|]; [|done].
  by apply calls_only_bind; [apply moving_launch|].
Qed.

Lemma moving_paused t : calls_only moving (recover_paused_task t).
Proof.
  unfold TaskQueue.recover_paused_task. destruct (workflow_state t) as [ws|]; [|done]. destruct (dict_get "pending_pause_type" ws); try done.
  case_bool_decide; [apply moving_launch_paused|]. case_bool_decide.
  - apply calls_only_bind; [by case_match|]. intros _. apply moving_launch_paused.
  - case_bool_decide; [|done]. apply calls_only_bind; [done|]. intros _. apply calls_only_bind; [|intros _; apply moving_launch_paused].
    case_match; [|done]. apply calls_only_bind; [done|]. intros _. apply moving_resolve_pause.
Qed.

Lemma moving_pick : calls_only moving (_try_pick_and_run st).
Proof.
  apply calls_only_bind; [apply moving_claim_ready|]. intros [c|]; [|done]. apply calls_only_bind; [done|]. intros [t|]; [|apply moving_release].
  apply calls_only_bind; [apply moving_signal|]. intros _. apply calls_only_bind; [apply moving_signal|]. intros _.
  by apply calls_only_bind; [apply moving_launch|].
Qed.

Lemma moving_drain : calls_only moving _drain_pass.
Proof.
  apply calls_only_bind; [done|]. intros _ wall mono l. apply calls_only_bind.
  - case_match; [|done]. apply calls_only_bind; [done|]. intros _. apply calls_only_bind.
    + apply calls_only_bind; [done|]. intros ts. apply calls_only_each, moving_stale.
    + intros [|]; [|done]. apply calls_only_bind; [done|]. intros ps. apply calls_only_each, moving_paused.
  - intros [|]; [|done]. apply calls_only_bind; [done|]. intros _. by apply calls_only_bind; [apply moving_pick|].
Qed.

Definition is_revision (m : queue_call) : bool := match m with MRevise _ _ _ _ => true | _ => false end.

Lemma moving_method m : is_revision m = false → calls_only moving (queue_method m).
Proof.
  intros Hm. destruct m; try done; cbn [queue_method]; try (apply calls_only_bind; [|done]).
  - apply moving_submit.
  - apply moving_reconcile.
  - apply moving_submit_existing.
  - apply moving_batch_submit.
  - apply calls_only_bind; [apply moving_tx; intros; apply moves_pause|]. by intros [].
  - apply moving_resume.
  - apply moving_retry.
  - apply moving_rerun.
  - apply moving_cancel.
  - apply calls_only_bind; [apply moving_tx; intros; apply moves_resolve|]. intros [[|x l]|]; try done.
    by apply calls_only_bind; [apply moving_wake_workers|].
  - apply moving_tx. intros. by apply moves_same.
  - apply calls_only_bind; [done|]. intros ts. apply calls_only_each, moving_stale.
  - apply calls_only_bind; [done|]. intros ps. apply calls_only_each, moving_paused.
  - apply moving_drain.
Qed.

(** What other tasks and controllers do between the calls: anything the methods of a queue do,
    moves that the execution of a task makes, and whatever leaves the tasks alone. *)
Definition status_update (tid : string) (s : TaskStatus) (started completed : option Z) (summary : option string) (data : option pydict)
    (ea : option Z) (es : option TaskStatus) (ep : option string) (now : Z) : control_op :=
  CTx (λ w, let '(t, ok) := update_task_status tid s started completed summary data ea es ep now (db w) in (VBool ok, t)).

Inductive elsewhere : control_op → Prop :=
| queue_elsewhere m o : is_revision m = false → may_call (queue_method m) o → elsewhere o
| execution_elsewhere tid s started completed summary data ea es ep now :
    s ≠ READY → elsewhere (status_update tid s started completed summary data ea es ep now)
| lease_elsewhere now o : elsewhere (CLease now o)
| release_elsewhere c now : elsewhere (CRelease c now)
| signal_elsewhere s : elsewhere (CSignal s)
| draw_elsewhere uuid locked : elsewhere (CDraw uuid locked).

Lemma elsewhere_moving o : elsewhere o → moving o.
Proof.
  destruct 1 as [m o Hm Ho|tid s started completed summary data ea es ep now Hs|now o|c now|s|uuid locked].
  - eapply may_call_only; [by apply moving_method|done].
  - intros w. unfold control_exec. cbn. pose proof (update_status_moves tid s started completed summary data ea es ep now (db w)) as Hm.
    destruct (update_task_status _ _ _ _ _ _ _ _ _ _ _). cbn in *. by apply Hm.
  - intros w. unfold control_exec. destruct o; cbn; repeat case_match; by apply moves_same.
  - intros w. by apply moves_same.
  - intros w. by apply moves_same.
  - intros w. by apply moves_same.
Qed.


(** A call that makes no task ready whose requirements are not complete. *)
Definition ready_when_free (o : control_op) : Prop :=
  ∀ w tid s, statuses (db w) !! tid = Some s → s ≠ READY → statuses (db (control_exec w o)) !! tid = Some READY →
    get_unmet_dependencies tid true (db w) = [].

Lemma moving_ready_when_free o : moving o → ready_when_free o.
Proof.
  intros Ho w tid s Hs Hn Hr. destruct (Ho w tid s Hs) as (s' & Hs' & Hc). rewrite Hs' in Hr. injection Hr as Hr. subst s'.
  destruct Hc as [Hc|[_ Hc]]; [by destruct Hn|auto].
Qed.

Lemma statuses_write_revision r now wall w :
  statuses (write_revision r now wall w).2 = statuses w ∨
  statuses (write_revision r now wall w).2 = <[task_id (rev_task r) := RUNNING]> (statuses w).
Proof.
  unfold write_revision. destruct (supersede_step_runs_for_revision _ _ _ _ _) as [w1 n] eqn:H1.
  assert (tasks w1 = tasks w) as Ht by (unfold supersede_step_runs_for_revision in H1; by injection H1 as <- _).
  destruct (update_task _ _ _ w1) as [w2 ok] eqn:Hu.
  assert (statuses w2 = statuses w ∨ statuses w2 = <[task_id (rev_task r) := RUNNING]> (statuses w)) as H2.
  { change w2 with (w2, ok).1. rewrite <- Hu, statuses_update. unfold statuses. rewrite Ht.
    destruct (tasks w !! _) as [t|]; [|by left]. right. by destruct t. }
  assert (statuses (invalidate_task_lease (task_id (rev_task r)) now w2) = statuses w2) as Hi by (unfold statuses; by rewrite tasks_invalidate).
  destruct (get_task _ _); [destruct ok|]; cbn [snd]; rewrite ?Hi; auto.
Qed.

Lemma revision_ready_when_free tid target instruction e : calls_only ready_when_free (request_revision tid target instruction e).
Proof.
  apply calls_only_bind; [done|]. intros [r|m]; [|done]. intros wall mono l. apply calls_only_bind.
  - split; [|done]. intros now wall' w x s Hs Hn. rewrite (db_tx (write_revision r now wall')).
    destruct (statuses_write_revision r now wall' (db w)) as [->| ->]; [congruence|].
    destruct (decide (x = task_id (rev_task r))) as [->|Hne]; [by rewrite lookup_insert_eq|]. rewrite lookup_insert_ne by done. congruence.
  - assert (∀ A (p : prog A), calls_only moving p → calls_only ready_when_free p) as Hw by
      (intros A p; apply calls_only_weaken, moving_ready_when_free).
    intros [[t n]|err]; [|done]. apply calls_only_bind; [apply Hw, moving_pending|]. intros _ wall' mono' l'.
    apply calls_only_bind; [by case_match|]. intros _. apply calls_only_bind; [apply Hw, moving_claim|]. intros [c|]; [|done].
    by apply calls_only_bind; [apply Hw, moving_launch|].
Qed.

(** C12. No call of any method of the queue makes a task ready, that was there and was not ready,
    unless every task that it requires is complete in the tables the call finds. *)
Theorem tasks_become_ready_when_free m slots start r end_ evs w o tid s :
  played (queue_method m) slots start = (r, end_, evs) → ECall w o ∈ evs →
  statuses (db w) !! tid = Some s → s ≠ READY → statuses (db (control_exec w o)) !! tid = Some READY →
  get_unmet_dependencies tid true (db w) = [].
Proof.
  intros Hp Ho. assert (ready_when_free o) as Hr; [|by apply Hr].
  eapply calls_only_sound; [|exact Hp|exact Ho]. destruct (is_revision m) eqn:Hm.
  - destruct m; try done. apply calls_only_bind; [apply revision_ready_when_free|done].
  - eapply calls_only_weaken; [apply moving_ready_when_free|by apply moving_method].
Qed.

(** Resolving the dependents of a task that ended: each dependent that waits in the queue
    becomes ready just when nothing it requires is incomplete, and these are the ones reported;
    a running dependent whose requirement failed or was cancelled is paused; every other task is
    left as it is.  An execution that lost its task changes nothing. *)
Theorem dependents_are_resolved fence tid now wall w :
  match resolve_rows fence tid now wall w with
  | (Some moved, w') =>
      (∀ x, statuses w' !! x = if decide (x ∈ get_dependent_tasks tid w) then after_resolving w x else statuses w !! x) ∧
      ∀ x, x ∈ moved ↔ x ∈ get_dependent_tasks tid w ∧ statuses w !! x = Some QUEUED ∧ get_unmet_dependencies x true w = []
  | (None, w') => w' = w ∧ match fence with Some f => (assert_current now f w).1 = false | None => False end
  end.
Proof.
  unfold resolve_rows. destruct (match fence with Some f => _ | None => _ end) eqn:Hf.
  - destruct (resolve_fold wall (get_dependent_tasks tid w) [] w) as (_ & Hst & Hmv). destruct (foldl _ _ _) as [moved w'].
    split; [exact Hst|]. intros x. rewrite (Hmv x), elem_of_nil. naive_solver.
  - split; [done|]. by destruct fence.
Qed.
(** ** What recovery starts again *)

(** Every call that the history of the session tells of has a result. *)
Definition quiet_session (session : option string) : Prop :=
  match session with
  | None | Some "" => True
  | Some session =>
      match read_tool_events session with
      | Some events => ∀ id, id ∈ (omap (tool_event "tool_call") events).*1 → id ∈ (omap (tool_event "tool_result") events).*1
      | None => False
      end
  end.

(** A running step that can be entered again without repeating what it may have done: a tool
    that was not dispatched, or whose result is stored, or which only reads; or a session in which
    no tool was called without a result. *)
Definition safe_to_repeat (r : step_run) : Prop :=
  let info := default [] (sr_runtime_info r) in
  match dict_get "deterministic_step" info with
  | PBool true =>
      match dict_get "deterministic_substate" info with
      | PNone => True
      | PStr "rendering" => True
      | PStr "persisted" => is_Some (sr_output r)
      | PStr "executing" => dict_get "tool_read_only" info = PBool true
      | _ => False
      end
  | _ => quiet_session (sr_intaris_session_id r)
  end.

Lemma classified_safe r : (classify_step read_tool_events r).1 ≠ AmbiguousToolExecution → safe_to_repeat r.
Proof.
  unfold classify_step, safe_to_repeat. intros Hc.
  assert (quiet_session (sr_intaris_session_id r) ∨ dict_get "deterministic_step" (default [] (sr_runtime_info r)) = PBool true) as Hs.
  { unfold quiet_session. destruct (dict_get "deterministic_step" _) as [|[]| | | | |]; [left|by right|left..];
      (destruct (sr_intaris_session_id r) as [[|a x]|]; [done| |done]; destruct (read_tool_events _) as [events|]; [|by destruct Hc];
       destruct (unmatched_calls events) as [|[]] eqn:Hu; [by apply unmatched_none|by destruct Hc]). }
  destruct (dict_get "deterministic_step" _) as [|[]| | | | |] eqn:Hd; try (by destruct Hs).
  clear Hs. revert Hc. destruct (dict_get "deterministic_substate" _) as [| | | |x| |]; try done; cbn [is_none orb andb fst].
  destruct (decide (x = "persisted")) as [->|H1]; [by destruct (sr_output r); cbn; eauto|].
  destruct (decide (x = "rendering")) as [->|H2]; [done|].
  destruct (decide (x = "executing")) as [->|H3]; [by destruct (dict_get "tool_read_only" _) as [|[]| | | | |]|].
  rewrite (bool_decide_false (x = "persisted")), (bool_decide_false (x = "rendering")), (bool_decide_false (x = "executing")) by done.
  intros Hc. exfalso. by apply Hc.
Qed.

Definition restarted_safely (reads : list world) (j : job) : Prop :=
  match j with
  | RunTask t _ => ∃ w, w ∈ reads ∧ ∀ r, last_running nulls_last (task_id t) (db w) = Some r → safe_to_repeat r
  | _ => True
  end.

Lemma stale_spawns reads t : spawns restarted_safely reads (recover_stale_task t).
Proof.
  intros wall mono l. destruct (has_active_run l (task_id t)); [done|]. intros v. destruct (answer v) as [c|]; [|done].
  intros now w. cbn [pbind]. destruct (classify_running read_tool_events _) as [cl details] eqn:Hc.
  destruct (decide (cl = AmbiguousToolExecution)) as [->|Hn].
  - intros v'. destruct (answer v' : bool); [|done]. by intros v''.
  - assert (restarted_safely (w :: reads) (RunTask t c)) as Hr.
    { exists w. split; [by left|]. intros r Hr. rewrite Hr in Hc. cbn in Hc. apply classified_safe. by rewrite Hc. }
    destruct cl; try done; intros wall' mono' l'; case_match; by cbn.
Qed.

(** C11. A recovery pass starts a task of another controller again only when tables that it read
    on the way show no running step of it, or one that is safe to repeat: never when a tool call
    may have had an effect that no result records. *)
Theorem ambiguous_work_is_not_repeated slots start r end_ evs t c :
  played recover_stale_tasks slots start = (r, end_, evs) → ESpawn (RunTask t c) ∈ evs →
  ∃ w, ERead w ∈ evs ∧ ∀ step, last_running nulls_last (task_id t) (db w) = Some step → safe_to_repeat step.
Proof.
  intros Hp Hs. assert (spawns restarted_safely [] recover_stale_tasks) as Hsp.
  { intros now w. apply spawns_each. intros reads x. apply stale_spawns. }
  destruct (spawns_sound _ _ _ _ _ _ _ _ _ _ _ Hsp Hp Hs) as (later & (w & Hw & Hsafe) & Hl). rewrite app_nil_r in Hw. eauto.
Qed.
End Queue.

(** ** A run *)

(** Task [a] runs on a controller that stopped, [b] waits for [a], [e] for [d], which is
    complete; [g] waits for [f], which has failed. *)
Definition demo_row (tid : string) (s : TaskStatus) (ws : option pydict) : task :=
  Task tid s 0 "x" "api" None "default" None 1 ws None None 0 None None 0.
Definition demo_step (status : string) (session : option string) : step_run :=
  StepRun "sr" "a" "build" "agent" status 1 session None None (Some 1) None 1.
Definition demo_world (s : step_run) : world :=
  World (Tables ∅ (list_to_map ((λ t, (task_id t, t)) <$>
           [demo_row "a" RUNNING (Some [("current_step_index", PInt 1)]); demo_row "b" QUEUED None; demo_row "d" COMPLETED None;
            demo_row "e" QUEUED None; demo_row "f" FAILED None; demo_row "g" QUEUED None]))
           [Dependency "b" "a" true; Dependency "e" "d" true; Dependency "g" "f" true] [s] ∅ ∅ None) "u" ∅.
Definition demo_store : execution_store := ExecutionStore "k2" 2 1 60000000.
Definition demo_local : local := Local (QueueState true ∅ ∅ false 0 []) (SchedulerState 0 false ∅).
Definition demo_moment (s : step_run) : moment world local := Moment 100 0 demo_local (demo_world s).
Definition demo_slots : list (slot control_op local) := replicate 20 (quiet 100 100 0).

(** One call without a result in session [u], a matched one in [s]. *)
Definition demo_events (session : string) : option (list pyval) :=
  let event kind := PDict [("type", PStr kind); ("data", PDict [("call_id", PStr "c1"); ("name", PStr "bash")])] in
  Some (if bool_decide (session = "u") then [event "tool_call"] else [event "tool_call"; event "tool_result"]).

Definition demo_method (m : queue_call) : prog bool :=
  queue_method demo_store (λ _, Ok ["build"]) (default []) (λ _, true) demo_events (λ _, false) true id (λ _ _, "") m.
Definition demo_played (m : queue_call) (s : step_run) := played (demo_method m) demo_slots (demo_moment s).
Definition status_of (tid : string) (m : moment world local) : option TaskStatus := statuses (db (m_world m)) !! tid.
Definition launched (evs : list (event control_op world job)) : list string :=
  omap (λ e, match e with ESpawn (RunTask t _) => Some (task_id t) | _ => None end) evs.

(** What has a result is started again; what may have happened without one is failed. *)
Example recovery_of_matched_calls : launched (demo_played MRecoverStale (demo_step "running" (Some "s"))).2 = ["a"].
Proof. vm_compute. reflexivity. Qed.

Example recovery_of_unmatched_calls :
  let x := demo_played MRecoverStale (demo_step "running" (Some "u")) in
  launched x.2 = [] ∧ status_of "a" x.1.2 = Some FAILED ∧ (sr_status <$> step_runs (db (m_world x.1.2))) = ["failed"].
Proof. vm_compute. auto. Qed.

(** A dependent in the queue is not paused when what it requires has failed: the row may only be
    paused while it runs.  It waits for ever. *)
Example failed_dependency_is_not_flagged :
  status_of "g" (demo_played (MResolve None "f") (demo_step "running" None)).1.2 = Some QUEUED.
Proof. vm_compute. reflexivity. Qed.

(** Another controller cancels the task between the read and the write of a revision: the task
    runs again. *)
Example revision_overwrites_cancel :
  let cancel := CTx (λ w, let '(r, t) := cancel_row "a" None 100 100 (db w) in (VUnit, t)) in
  let x := played (demo_method (MRevise "a" (Some "build") "again" None))
             (quiet 100 100 0 :: Slot [cancel] 100 100 (λ l, l) 100 0 :: demo_slots) (demo_moment (demo_step "running" None)) in
  status_of "a" x.1.2 = Some RUNNING ∧ launched x.2 = ["a"].
Proof. vm_compute. auto. Qed.

(** A workflow that went through all its steps is entered again behind the last one: the task
    was started when the lookup of the step's name raises. *)
Example revision_behind_the_last_step :
  let x := played (request_revision demo_store (λ _, Ok ["build"]) (default []) "a" None "again" None) demo_slots
             (demo_moment (demo_step "running" None)) in
  x.1.1 = Some (Err (RuntimeError "list index out of range")) ∧ launched x.2 = ["a"].
Proof. vm_compute. auto. Qed.

Lemma queue_claims_are_handed_on_witness :
  let x := demo_played MRecoverStale (demo_step "running" (Some "s")) in launched x.2 = ["a"] ∧ outstanding x.2 [] = [].
Proof.
  intros x. split; [vm_compute; reflexivity|].
  apply (queue_claims_are_handed_on demo_store (λ _, Ok ["build"]) (default []) (λ _, true) demo_events (λ _, false) true id (λ _ _, "")
           MRecoverStale demo_slots (demo_moment (demo_step "running" (Some "s"))) x.1.2 x.2).
  apply run_is. vm_compute. reflexivity.
Defined.

(** Meanwhile the execution of [a] reports that it failed. *)
Definition demo_busy : list (slot control_op local) :=
  Slot [status_update "a" FAILED None (Some 100) None None None None None 100] 100 100 (λ l, l) 100 0 :: demo_slots.


Lemma tasks_become_ready_when_free_witness :
  match (demo_played (MReconcile "e") (demo_step "running" None)).2 !! 1%nat with
  | Some (ECall w o) => statuses (db (control_exec w o)) !! "e" = Some READY ∧ get_unmet_dependencies "e" true (db w) = []
  | _ => False
  end.
Proof.
  set (x := demo_played (MReconcile "e") (demo_step "running" None)).
  assert ((λ e, match e with ECall w o => (statuses (db w) !! "e", statuses (db (control_exec w o)) !! "e") | _ => (None, None) end) <$> x.2 !! 1%nat =
          Some (Some QUEUED, Some READY)) as Hst by (vm_compute; reflexivity).
  destruct (x.2 !! 1%nat) as [[w o|w|j]|] eqn:He; try discriminate Hst. injection Hst as Hq Hr. split; [exact Hr|].
  apply (tasks_become_ready_when_free demo_store (λ _, Ok ["build"]) (default []) (λ _, true) demo_events (λ _, false) true id (λ _ _, "")
           (MReconcile "e") demo_slots (demo_moment (demo_step "running" None)) x.1.1 x.1.2 x.2 w o "e" QUEUED).
  - by apply run_is.
  - by eapply list_elem_of_lookup_2.
  - exact Hq.
  - discriminate.
  - exact Hr.
Defined.

Lemma ambiguous_work_is_not_repeated_witness :
  let x := demo_played MRecoverStale (demo_step "running" (Some "s")) in
  ∃ t c, ESpawn (RunTask t c) ∈ x.2 ∧
    ∃ w, ERead w ∈ x.2 ∧ ∀ step, last_running true (task_id t) (db w) = Some step → safe_to_repeat demo_events step.
Proof.
  intros x. assert (launched x.2 = ["a"]) as Hl by (vm_compute; reflexivity).
  assert ("a" ∈ launched x.2) as Hin by (rewrite Hl; by left).
  apply list_elem_of_omap in Hin as (e & He & Hm). destruct e as [w o|w|[t c|c|l]]; try discriminate Hm. exists t, c. split; [exact He|].
  apply (ambiguous_work_is_not_repeated demo_store demo_events true demo_slots (demo_moment (demo_step "running" (Some "s"))) x.1.1 x.1.2 x.2 t c);
    [by apply run_is|exact He].
Defined.
