(* ===== verification/Scheduler.v ===== *)
(** The scheduler ([Scheduler] of [cognis/core/scheduler.py]): firing due schedules, firing one
    at once, what the end of a run does to its schedule, the catch-up after a downtime, and the
    passes of the timer.

    Every controller runs one; the lease of a schedule decides which of them fires it.  The
    renewal of a lease is a task of its own, which reports a lost lease in the attributes; it is
    cancelled when the lease is given back.  The loops of the catch-up wait for other
    controllers and take fuel; [None], [Ret false] when it is used up.

    Parameters: as in ScheduleFires and TaskQueue; the next occurrence of a cron expression; what
    goes wrong, if anything, when the template of a schedule is read and the workflow of its skill
    is created; the priority in the template.  The notification service only hears of what
    happened. *)

From S2P Require Import Prelude PyVal Lease Coroutine Tables Tasks TaskExecution ScheduleFires Control TaskQueue.

(** ** The attributes *)

Definition set_scheduler (f : scheduler_state → scheduler_state) (l : local) : local := Local (queue l) (f (scheduler l)).

Definition wake_timer : prog unit :=
  Update (λ _, set_scheduler (λ s, SchedulerState (wake_generation s + 1) (stop_event s) (lost_leases s))) (Ret tt).

Definition lease_name (l : Lease) : string * Z := (resource_key l, fencing_token l).

Definition lease_is_lost (l : local) (lease : Lease) : bool := bool_decide (lease_name lease ∈ lost_leases (scheduler l)).

Definition lease_lost_set (lease : Lease) : prog unit :=
  Update (λ _, set_scheduler (λ s, SchedulerState (wake_generation s) (stop_event s) ({[lease_name lease]} ∪ lost_leases s))) (Ret tt).

Definition schedule_lease_key (sid : string) : string := "schedule:" +:+ sid.
Definition fire_lease_ttl : Z := 60000000.

(** One round of the task that renews a lease. *)
Definition _renew_fire_lease (lease : Lease) : prog bool :=
  seq wait;
  do renewed <- renew_lease lease fire_lease_ttl;
  match renewed with Some _ => Ret true | None => seq lease_lost_set lease; Ret false end.

(** ** Times *)

Definition _BACKOFF_SCHEDULE : list Z := [30; 60; 300; 900; 3600].

Definition _compute_backoff_delay (errors : Z) : Z :=
  let idx := Z.min (errors - 1) (Z.of_nat (length _BACKOFF_SCHEDULE) - 1) in
  default 0 (_BACKOFF_SCHEDULE !! Z.to_nat (Z.max idx 0)).

Definition seconds (n : Z) : Z := n * 1000000.

Definition is_one_shot (s : schedule) : bool := bool_decide (schedule_type s = "one_shot").

Section Scheduler.
Context (active_session : string → bool) (digest : string → string) (isoformat : Z → string) (nulls_first : bool).
Context (next_cron : string → string → Z → Z) (preparation : schedule → option string) (template_priority : schedule → Z).
Context (_controller_owner_id : string) (_max_missed_on_startup _missed_stagger_seconds _max_consecutive_errors : Z).

Definition _compute_next_fire (s : schedule) (after : Z) : option Z :=
  let fires_once :=
    match last_fired_at s with
    | Some _ => None
    | None => match one_shot_at s with Some t => if after <? t then Some t else Some after | None => Some after end
    end in
  let on_interval :=
    if bool_decide (schedule_type s = "interval")
    then match interval_seconds s with Some n => if n =? 0 then None else Some (after + seconds n) | None => None end
    else if is_one_shot s then fires_once else None in
  if bool_decide (schedule_type s = "cron")
  then match cron_expr s with Some e => if bool_decide (e = "") then None else Some (next_cron e (s_timezone s) after) | None => None end
  else on_interval.

(** ** Dispatching *)

Inductive dispatch_error := Collision | Raised (text : string).

Definition dispatch_outcome (r : result queue_error task) : result dispatch_error task :=
  match r with
  | Ok t => Ok t
  | Err (QueryFailed IntegrityError) => Err Collision
  | value_error m => Err (Raised ("ValueError: " +:+ m))
  | Err (RuntimeError m) => Err (Raised ("RuntimeError: " +:+ m))
  end.

Definition _dispatch_claimed_fire (s : schedule) (at_ : Z) (tid : string) (status : TaskStatus) : prog (result dispatch_error task) :=
  match preparation s with
  | Some m => Ret (Err (Raised m))
  | None =>
      do r <- submit active_session
                (Submission (Some tid) status (template_priority s) (s_agent_id s) "scheduler" (Some (schedule_id s)) None (Some at_));
      Ret (dispatch_outcome r)
  end.

(** The task of a claim, made unless it is there; [None] when the lease was lost. *)
Definition claimed_task (c : ScheduleFireClaim) (status : TaskStatus) (lease : Lease) : prog (option (result string task)) :=
  do existing <- read (get_task (fc_task_id c));
  match existing with
  | Some t => Ret (Some (Ok t))
  | None =>
      Look (λ _ _ l,
      if lease_is_lost l lease then Ret None else
      do r <- _dispatch_claimed_fire (fc_schedule c) (fc_fire_at c) (fc_task_id c) status;
      match r with
      | Ok t => Ret (Some (Ok t))
      | Err (Raised m) => Ret (Some (Err m))
      | Err Collision =>
          do row <- read (get_task (fc_task_id c));
          Ret (Some (match row with Some t => Ok t | None => Err "IntegrityError" end))
      end)
  end.

(** ** Firing a due schedule *)

Definition _advance_claimed_fire (s : schedule) (at_ : Z) (status : string) (lease : Lease) : prog unit :=
  let next := if is_one_shot s then None else _compute_next_fire s at_ in
  do advanced <- tx (λ now _ w, advance_schedule (schedule_id s) at_ next status (consecutive_errors s) lease now w);
  if (advanced : bool) && delete_after_run s && is_one_shot s
  then do _ <- tx (λ _ _ w, let '(w, ok) := delete_schedule (schedule_id s) w in (ok, w)); Ret tt
  else Ret tt.

(** The handler of an exception before the fire was marked dispatched. *)
Definition fire_failed (c : ScheduleFireClaim) (lease : Lease) (error : string) : prog unit :=
  let s := fc_schedule c in
  let errors := consecutive_errors s + 1 in
  let disabled := _max_consecutive_errors <=? errors in
  Look (λ wall _ _,
  let next := if disabled then None else Some (wall + seconds (_compute_backoff_delay errors)) in
  do settled <- tx (λ now _ w, mark_failed c lease error next errors (if disabled then Some (auto_reason errors) else None) now w);
  if (settled : bool)
  then signal_ (if disabled then ScheduleDisabled (fc_schedule_id c) errors else ScheduleError (fc_schedule_id c) errors)
  else Ret tt).

(** What is told of the paused runs that the claim replaced; [false] when it switched the schedule
    off. *)
Definition report_replaced (c : ScheduleFireClaim) : prog bool :=
  match replaced_paused_task_ids c with
  | [] => Ret true
  | ids =>
      let s := fc_schedule c in
      seq foldr (λ tid p, seq signal_ (TaskFailed tid true); p) (Ret tt) ids;
      seq signal_ (if auto_disabled s then ScheduleDisabled (fc_schedule_id c) (consecutive_errors s)
                   else ScheduleError (fc_schedule_id c) (consecutive_errors s));
      read (λ w, match get_schedule (fc_schedule_id c) w with Some s => enabled s | None => false end)
  end.

Definition dispatch_claim (c : ScheduleFireClaim) (lease : Lease) : prog (option string) :=
  do made <- claimed_task c QUEUED lease;
  match made with
  | None => Ret None
  | Some (Err m) => seq fire_failed c lease m; Ret None
  | Some (Ok _) =>
      do _ <- reconcile_submitted (fc_task_id c);
      do dispatched <- tx (λ now _ w, mark_dispatched c lease now w);
      if negb dispatched then Ret None else
      seq _advance_claimed_fire (fc_schedule c) (fc_fire_at c) "success" lease;
      seq signal_ (ScheduleFired (fc_schedule_id c) (fc_task_id c));
      Ret (Some (fc_task_id c))
  end.

Definition fire_claimed (sid : string) (at_ : Z) (lease : Lease) : prog (option string) :=
  do r <- tx (λ now wall w, claim digest isoformat sid at_ lease _max_consecutive_errors now wall w);
  match r with
  | Ok (Some c) =>
      do go <- report_replaced c;
      if negb go then Ret None
      else if bool_decide (fc_status c = FireSkipped) then seq _advance_claimed_fire (fc_schedule c) at_ "skipped" lease; Ret None
      else if negb (should_dispatch c) then
        seq _advance_claimed_fire (fc_schedule c) at_ "success" lease;
        Ret (if bool_decide (fc_status c = FireDispatched) then Some (fc_task_id c) else None)
      else dispatch_claim c lease
  | _ => Ret None
  end.

(** [try ... finally] with the lease of the schedule, unless another controller has it. *)
Definition under_lease {A} (sid : string) (refused : A) (body : Lease → prog A) : prog A :=
  do granted <- acquire_lease (schedule_lease_key sid) _controller_owner_id fire_lease_ttl;
  match granted with
  | None => Ret refused
  | Some lease => do r <- body lease; seq release_lease lease; Ret r
  end.

(** The occurrence that is due; one is made when the schedule has none. *)
Definition occurrence (sid : string) : prog (option Z) :=
  do row <- read (get_schedule sid);
  match row with
  | None => Ret None
  | Some s =>
      if negb (enabled s) then Ret None else
      match next_fire_at s with
      | Some at_ => Ret (Some at_)
      | None =>
          Look (λ wall _ _,
          do on <- tx (λ _ at_ w, let '(s, w) := update_next_fire sid (Some wall) at_ w in (match s with Some s => enabled s | None => false end, w));
          if negb on then Ret None else
          read (λ w, match get_schedule sid w with Some s => next_fire_at s | None => None end))
      end
  end.

Definition _fire_schedule (sid : string) : prog (option string) :=
  under_lease sid None (λ lease,
    do due <- occurrence sid;
    match due with None => Ret None | Some at_ => Spawn (RenewLease lease) (fire_claimed sid at_ lease) end).

(** ** Firing at once *)

Definition _activate_manual_task (tid : string) : prog (result string task) :=
  do row <- read (get_task tid);
  match row with
  | None => Ret (Err ("RuntimeError: Reserved manual task " +:+ tid +:+ " does not exist"))
  | Some t =>
      if negb (bool_decide (t_status t = DRAFT)) then Ret (Ok t) else
      do r <- submit_existing tid;
      Ret (match dispatch_outcome r with Ok t => Ok t | Err (Raised m) => Err m | Err Collision => Err "IntegrityError" end)
  end.

Definition manual_failed (c : ScheduleFireClaim) (lease : Lease) (error : string) : prog (option string) :=
  do row <- read (get_task (fc_task_id c));
  match row with
  | Some _ => Ret None
  | None => do _ <- tx (λ now _ w, mark_manual_failed c lease error now w); Ret None
  end.

Definition manual_settled (c : ScheduleFireClaim) (lease : Lease) : prog (option string) :=
  do ok <- tx (λ now _ w, settle_manual_dispatched c lease "success" now w);
  if negb ok then Ret None else
  seq signal_ (ScheduleFired (fc_schedule_id c) (fc_task_id c)); Ret (Some (fc_task_id c)).

Definition dispatch_manual (c : ScheduleFireClaim) (lease : Lease) : prog (option string) :=
  do made <- claimed_task c DRAFT lease;
  match made with
  | None => Ret None
  | Some (Err m) => manual_failed c lease m
  | Some (Ok t) =>
      do linked <- tx (λ now _ w, link_manual_task c lease now w);
      if negb linked then Ret None else
      do reconciled <- reconcile_submitted (fc_task_id c);
      if bool_decide (t_status (default t reconciled) = DRAFT) then
        do r <- _activate_manual_task (fc_task_id c);
        match r with Err m => manual_failed c lease m | Ok _ => manual_settled c lease end
      else manual_settled c lease
  end.

Definition manual_claimed (sid : string) (lease : Lease) : prog (option string) :=
  do r <- tx (λ now _ w, claim_manual digest isoformat nulls_first sid lease now w);
  match r with
  | Ok (Some c) =>
      match fc_status c with
      | FireSkipped => Ret None
      | FireDispatched =>
          do r <- _activate_manual_task (fc_task_id c);
          match r with Err m => manual_failed c lease m | Ok _ => Ret (Some (fc_task_id c)) end
      | _ => dispatch_manual c lease
      end
  | _ => Ret None
  end.

Definition _trigger_now_owned (sid : string) : prog (option string) :=
  under_lease sid None (λ lease, Spawn (RenewLease lease) (manual_claimed sid lease)).

(** ** The end of a run *)

Definition _task_fire_at (t : task) : Z := default (t_created_at t) (scheduled_for t).

(** What the service of notifications and the listeners hear of a projected result. *)
Definition announce (sid : string) (status : TaskStatus) (p : projection) : prog unit :=
  match status with
  | COMPLETED => signal_ (if p_auto_disabled_state p then ScheduleActionUpdated sid (p_errors p) else ScheduleRecovered sid)
  | CANCELLED => if p_auto_disabled_state p then signal_ (ScheduleActionUpdated sid (p_errors p)) else Ret tt
  | _ =>
      if p_disabled p then signal_ (ScheduleDisabled sid (p_errors p))
      else if p_auto_disabled_state p then signal_ (ScheduleActionUpdated sid (p_errors p))
      else signal_ (ScheduleError sid (p_errors p))
  end.

(** The time of the next attempt, from the schedule as it was read. *)
Definition retry_fire_at (s : schedule) (status : TaskStatus) (suppress : bool) (wall : Z) : option Z :=
  let errors := consecutive_errors s + 1 in
  if bool_decide (status = FAILED) && retry_failed_tasks s && negb suppress && negb (_max_consecutive_errors <=? errors)
  then Some (wall + seconds (_compute_backoff_delay errors)) else next_fire_at s.

(** The schedule of a task that a scheduler made. *)
Definition scheduled_by (t : task) : option string :=
  match source_ref t with
  | Some sid => if bool_decide (source_type t = "scheduler") && negb (bool_decide (sid = "")) then Some sid else None
  | None => None
  end.

Definition project_manual (t : task) (tid : string) : prog unit :=
  do r <- tx (λ now _ w, project_manual_terminal_result tid (t_status t) (_task_fire_at t) _max_consecutive_errors now w);
  match r with Ok (Some p) => announce (p_schedule_id p) (t_status t) p | _ => Ret tt end.

Definition project_recurring (t : task) (s : schedule) (tid : string) (suppress : bool) : prog unit :=
  if negb (task_in (t_status t) [COMPLETED; FAILED; CANCELLED]) then Ret tt else
  Look (λ wall _ _,
  let next := retry_fire_at s (t_status t) suppress wall in
  do seen <- read (find_recurring tid);
  do r <- tx (λ now _ w, project_recurring_terminal_result seen tid (t_status t) next _max_consecutive_errors now w);
  match r with Ok (Some p) => announce (schedule_id s) (t_status t) p | _ => Ret tt end).

Definition _handle_task_terminal_event (tid : string) (suppress : bool) : prog unit :=
  if bool_decide (tid = "") then Ret tt else
  do row <- read (get_task tid);
  match row with
  | None => Ret tt
  | Some t =>
      match scheduled_by t with
      | None => Ret tt
      | Some sid =>
          do manual <- read (is_manual_task tid);
          do found <- read (get_schedule sid);
          match found with
          | None => Ret tt
          | Some s => if (manual : bool) then project_manual t tid else project_recurring t s tid suppress
          end
      end
  end.

(** ** Changes of schedules *)

Definition notify_schedule_changed (sid : string) : prog unit :=
  Look (λ wall _ _,
  do row <- read (get_schedule sid);
  match row with
  | None => wake_timer
  | Some s =>
      let next := if enabled s then _compute_next_fire s wall else None in
      do _ <- tx (λ _ at_ w, (tt, (update_next_fire sid next at_ w).2));
      wake_timer
  end).

(** The schedules that are on and have no next occurrence. *)
Definition initialise_rows (now at_ : Z) (w : tables) : tables :=
  foldl (λ w s, match next_fire_at s, _compute_next_fire s now with
                | None, Some t => (update_next_fire (schedule_id s) (Some t) at_ w).2
                | _, _ => w
                end) w (list_enabled_schedules w).

Definition _initialise_next_fire_times : prog unit := Look (λ wall _ _, tx (λ _ at_ w, (tt, initialise_rows wall at_ w))).

(** ** The catch-up *)

Definition catchup_lease_key : string := "scheduler:startup-catchup".

(** [Some None] when the scheduler stops meanwhile. *)
Fixpoint catchup_lease (fuel : nat) : prog (option (option Lease)) :=
  match fuel with
  | O => Ret None
  | S fuel =>
      Look (λ _ _ l,
      if stop_event (scheduler l) then Ret (Some None) else
      do granted <- acquire_lease catchup_lease_key _controller_owner_id fire_lease_ttl;
      match granted with Some lease => Ret (Some (Some lease)) | None => seq wait; catchup_lease fuel end)
  end.

(** The schedule was fired, or does not need to be. *)
Definition settled_fire (before : schedule) (after : option schedule) : bool :=
  match after with
  | None => true
  | Some s => negb (enabled s) || negb (bool_decide (next_fire_at s = next_fire_at before))
  end.

Definition stagger (budget : Z) : prog unit := if (0 <? budget) && (0 <? _missed_stagger_seconds) then wait else Ret tt.

(** One pass over the due schedules: the cutoff and what is left of the budget. *)
Fixpoint catch_up_due (lease : Lease) (due : list schedule) (cutoff budget : Z) : prog (Z * Z) :=
  match due with
  | [] => Ret (cutoff, budget)
  | s :: due =>
      Look (λ _ _ l,
      if (budget <=? 0) || lease_is_lost l lease then Ret (cutoff, budget) else
      do reserved <- tx (λ now wall w, reserve_catchup_fire lease now wall w);
      match reserved with
      | None => seq lease_lost_set lease; Ret (cutoff, budget)
      | Some (cutoff, budget) =>
          do _ <- _fire_schedule (schedule_id s);
          do after <- read (get_schedule (schedule_id s));
          if settled_fire s after then seq stagger budget; catch_up_due lease due cutoff budget else
          do restored <- tx (λ now wall w, restore_catchup_fire lease now wall w);
          match restored with
          | None => seq lease_lost_set lease; Ret (cutoff, budget)
          | Some budget => seq wait; seq stagger budget; catch_up_due lease due cutoff budget
          end
      end)
  end.

Fixpoint catch_up_budget (fuel : nat) (lease : Lease) (cutoff budget : Z) : prog bool :=
  match fuel with
  | O => Ret false
  | S fuel =>
      Look (λ _ _ l,
      if (budget <=? 0) || lease_is_lost l lease then Ret true else
      do due <- read (list_due_schedules cutoff);
      match due with
      | [] => Ret true
      | _ => do next <- catch_up_due lease due cutoff budget; catch_up_budget fuel lease next.1 next.2
      end)
  end.

(** [None]: one-shot or gone; [Some false]: to be tried again. *)
Definition skip_row (sid : string) (now : Z) (lease : Lease) : prog (option bool) :=
  do row <- read (get_schedule sid);
  match row with
  | None => Ret None
  | Some s =>
      match next_fire_at s with
      | Some current =>
          if negb (enabled s) || (now <? current) || is_one_shot s then Ret (if is_one_shot s then None else Some true) else
          let status := match last_run_status s with Some x => if bool_decide (x = "") then "skipped" else x | None => "skipped" end in
          do advanced <- tx (λ at_ _ w, advance_schedule sid current (_compute_next_fire s now) status (consecutive_errors s) lease at_ w);
          if (advanced : bool) then Ret (Some true) else
          read (λ w, Some match get_schedule sid w with
                          | Some s => negb (enabled s) || match next_fire_at s with Some t => now <? t | None => true end
                          | None => true
                          end)
      | None => Ret (if is_one_shot s then None else Some true)
      end
  end.

Definition _skip_missed_backlog (sid : string) (now : Z) : prog (option bool) := under_lease sid (Some false) (skip_row sid now).

(** Whether one is to be tried again. *)
Fixpoint skip_due (due : list schedule) (now : Z) : prog bool :=
  match due with
  | [] => Ret false
  | s :: due => do r <- _skip_missed_backlog (schedule_id s) now; do rest <- skip_due due now; Ret (bool_decide (r = Some false) || rest)
  end.

Fixpoint skip_backlog (fuel : nat) (lease : Lease) : prog bool :=
  match fuel with
  | O => Ret false
  | S fuel =>
      Look (λ _ _ l,
      if lease_is_lost l lease then Ret true else
      do x <- Query (λ now w, Ret (now, list_due_schedules now (db w)));
      do pending <- skip_due x.2 x.1;
      if (pending : bool) then seq wait; skip_backlog fuel lease else
      do ok <- tx (λ now _ w, complete_catchup lease now w);
      if (ok : bool) then Ret true else seq lease_lost_set lease; Ret true)
  end.

(** [Some false] when there is nothing to catch up with. *)
Definition catch_up_under (fuel : nat) (lease : Lease) (resume_only : bool) : prog (option bool) :=
  do proposed <- Query (λ now _, Ret now);
  do state <- tx (λ now wall w, prepare_catchup lease proposed _max_missed_on_startup (negb resume_only) now wall w);
  do go <- match state with
           | Some _ => Ret true
           | None => do active <- read catchup_active; if (active : bool) then seq lease_lost_set lease; Ret true else Ret false
           end;
  if negb go then Ret (Some false) else
  let '(cutoff, budget) := default (proposed, 0) state in
  do ok <- catch_up_budget fuel lease cutoff budget;
  if negb ok then Ret None else
  do ok <- skip_backlog fuel lease;
  Ret (if (ok : bool) then Some true else None).

Fixpoint _catch_up_missed (fuel : nat) (resume_only : bool) : prog bool :=
  match fuel with
  | O => Ret false
  | S fuel =>
      do granted <- catchup_lease fuel;
      match granted with
      | None => Ret false
      | Some None => Ret true
      | Some (Some lease) =>
          do r <- Spawn (RenewLease lease) (catch_up_under fuel lease resume_only);
          match r with
          | None => Ret false
          | Some through =>
              seq release_lease lease;
              Look (λ _ _ l,
              if through && lease_is_lost l lease && negb (stop_event (scheduler l)) then _catch_up_missed fuel true else Ret true)
          end
      end
  end.

(** ** The timer *)

Fixpoint fire_due (due : list schedule) : prog unit :=
  match due with
  | [] => Ret tt
  | s :: due => Look (λ _ _ l, if stop_event (scheduler l) then Ret tt else do _ <- _fire_schedule (schedule_id s); fire_due due)
  end.

Definition _interruptible_sleep (generation : Z) : prog unit :=
  Look (λ _ _ l, if stop_event (scheduler l) || negb (wake_generation (scheduler l) =? generation) then Ret tt else wait).

Definition _seconds_until_next (wall : Z) (w : tables) : Z :=
  match first_by Z.leb (omap (λ s, if enabled s then next_fire_at s else None) (schedule_list w)) with
  | Some t => Z.max 0 (t - wall)
  | None => seconds 60
  end.

Definition _tick (fuel : nat) (generation : Z) : prog bool :=
  do active <- read catchup_active;
  if (active : bool) then _catch_up_missed fuel true else
  Look (λ wall _ _,
  do due <- read (list_due_schedules wall);
  seq fire_due due;
  do _ <- read (_seconds_until_next wall);
  seq _interruptible_sleep generation;
  Ret true).

(** One round of the timer loop. *)
Definition _timer_pass (fuel : nat) : prog bool := Look (λ _ _ l, _tick fuel (wake_generation (scheduler l))).

Definition start (fuel : nat) : prog bool := seq _initialise_next_fire_times; _catch_up_missed fuel false.
End Scheduler.
