(* ===== verification/SchedulerSpec.v ===== *)
(** What the scheduler guarantees: it gives back every lease, and a schedule that is due moves
    on. *)

From S2P Require Import Prelude PyVal Lease Coroutine Tables Tasks TaskExecution TaskExecutionSpec ScheduleFires ScheduleFiresSpec.
From S2P Require Import Control ControlRules TaskQueue TaskQueueSpec Scheduler.

Section Spec.
Context (active_session : string → bool) (digest : string → string) (isoformat : Z → string) (nulls_first : bool).
Context (next_cron : string → string → Z → Z) (preparation : schedule → option string) (template_priority : schedule → Z).
Context (owner : string) (budget stagger_s limit : Z).

Notation _compute_next_fire := (_compute_next_fire next_cron).
Notation _dispatch_claimed_fire := (_dispatch_claimed_fire active_session preparation template_priority).
Notation claimed_task := (claimed_task active_session preparation template_priority).
Notation _advance_claimed_fire := (_advance_claimed_fire next_cron).
Notation fire_failed := (fire_failed limit).
Notation dispatch_claim := (dispatch_claim active_session next_cron preparation template_priority limit).
Notation fire_claimed := (fire_claimed active_session digest isoformat next_cron preparation template_priority limit).
Notation _fire_schedule := (_fire_schedule active_session digest isoformat next_cron preparation template_priority owner limit).
Notation manual_claimed := (manual_claimed active_session digest isoformat nulls_first preparation template_priority).
Notation _trigger_now_owned := (_trigger_now_owned active_session digest isoformat nulls_first preparation template_priority owner).
Notation _handle_task_terminal_event := (_handle_task_terminal_event limit).
Notation notify_schedule_changed := (notify_schedule_changed next_cron).
Notation _skip_missed_backlog := (_skip_missed_backlog next_cron owner).
Notation _catch_up_missed := (_catch_up_missed active_session digest isoformat next_cron preparation template_priority owner budget stagger_s limit).
Notation _timer_pass := (_timer_pass active_session digest isoformat next_cron preparation template_priority owner budget stagger_s limit).
Notation start := (start active_session digest isoformat next_cron preparation template_priority owner budget stagger_s limit).

(** ** Leases *)

Lemma free_advance s at_ status lease : keeps_leases (_advance_claimed_fire s at_ status lease).
Proof. apply neutral_bind; [apply free_tx|]. intros a. by case_match; [apply neutral_bind; [apply free_tx|]|]. Qed.

Lemma free_failed c lease error : keeps_leases (fire_failed c lease error).
Proof. intros wall mono l. apply neutral_bind; [apply free_tx|]. by intros []. Qed.

Lemma free_signals {A} (ids : list A) (f : A → signal) : keeps_leases (foldr (λ x p, seq signal_ (f x); p) (Ret tt) ids).
Proof. induction ids as [|x ids IH]; [done|]. by apply neutral_bind. Qed.

Lemma free_report c : keeps_leases (report_replaced c).
Proof.
  unfold report_replaced. case_match; [done|]. apply neutral_bind; [apply free_signals|]. intros _. by apply neutral_bind.
Qed.

Lemma free_claimed c status lease : keeps_leases (claimed_task c status lease).
Proof.
  apply neutral_bind; [done|]. intros [t|]; [done|]. intros wall mono l. case_match; [done|]. apply neutral_bind.
  - unfold Scheduler._dispatch_claimed_fire. case_match; [done|]. by apply neutral_bind; [apply free_submit|].
  - by intros [t|[|m]].
Qed.

Lemma free_dispatch c lease : keeps_leases (dispatch_claim c lease).
Proof.
  apply neutral_bind; [apply free_claimed|]. intros [[t|m]|]; [| |done].
  - apply neutral_bind; [apply free_reconcile|]. intros _. apply neutral_bind; [apply free_tx|]. intros [|]; [|done].
    by apply neutral_bind; [apply free_advance|].
  - by apply neutral_bind; [apply free_failed|].
Qed.

Lemma free_fire sid at_ lease : keeps_leases (fire_claimed sid at_ lease).
Proof.
  apply neutral_bind; [apply free_tx|]. intros [[c|]|e]; [|done..]. apply neutral_bind; [apply free_report|]. intros [|]; [|done].
  cbn [negb]. case_match; [by apply neutral_bind; [apply free_advance|]|]. case_match; [by apply neutral_bind; [apply free_advance|]|apply free_dispatch].
Qed.

Lemma free_occurrence sid : keeps_leases (occurrence sid).
Proof.
  apply neutral_bind; [done|]. intros [s|]; [|done]. case_match; [done|]. case_match; [done|]. intros wall mono l.
  apply neutral_bind; [apply free_tx|]. by intros [|].
Qed.

Lemma free_activate tid : keeps_leases (_activate_manual_task tid).
Proof. apply neutral_bind; [done|]. intros [t|]; [|done]. case_match; [done|]. by apply neutral_bind; [apply free_submit_existing|]. Qed.

Lemma free_manual sid lease : keeps_leases (manual_claimed sid lease).
Proof.
  assert (∀ c error, keeps_leases (manual_failed c lease error)) as Hf.
  { intros c error. apply neutral_bind; [done|]. intros [t|]; [done|]. by apply neutral_bind; [apply free_tx|]. }
  assert (∀ c, keeps_leases (manual_settled c lease)) as Hs.
  { intros c. apply neutral_bind; [apply free_tx|]. by intros [|]. }
  apply neutral_bind; [apply free_tx|]. intros [[c|]|e]; [|done..].
  assert (keeps_leases (dispatch_manual active_session preparation template_priority c lease)) as Hd.
  { apply neutral_bind; [apply free_claimed|]. intros [[t|m]|]; [|apply Hf|done]. apply neutral_bind; [apply free_tx|]. intros [|]; [|done].
    apply neutral_bind; [apply free_reconcile|]. intros r. case_bool_decide; [|apply Hs].
    apply neutral_bind; [apply free_activate|]. intros [t'|m]; [apply Hs|apply Hf]. }
  destruct (fc_status c); [exact Hd| |done|exact Hd]. apply neutral_bind; [apply free_activate|]. intros [t|m]; [done|apply Hf].
Qed.

(** What is held keeps off a key. *)
Definition off (key : string) (held : list Lease) : Prop := ∀ l, l ∈ held → resource_key l ≠ key.

Notation same held := (λ _ h, h = held).

Lemma acc_under {A} sid (refused : A) (body : Lease → prog A) held :
  off (schedule_lease_key sid) held → (∀ l held', accounts (body l) held' (same held')) →
  accounts (under_lease owner sid refused body) held (same held).
Proof.
  intros Hoff Hp. apply accounts_bind. cbn -[release_lease]. intros now at_ w. unfold control_reply. cbn -[release_lease].
  destruct (acquire_in_session _ _ _ _ _) as [db [l|]] eqn:Ha; cbn -[release_lease]; [|done]. apply acquired in Ha as (Hk & _).
  apply accounts_bind. eapply accounts_weaken; [apply Hp|]. intros a h ->. apply accounts_bind, acc_release_lease. cbn.
  apply (without_front [l] held). intros x ->%list_elem_of_singleton Hin. by apply (Hoff l Hin).
Qed.

Lemma acc_fire sid held : off (schedule_lease_key sid) held → accounts (_fire_schedule sid) held (same held).
Proof.
  intros Hoff. apply acc_under; [done|]. intros l h. apply accounts_bind, acc_free; [apply free_occurrence|]. intros [at_|]; [|done].
  cbn [accounts handed_on]. by apply acc_free; [apply free_fire|].
Qed.

Lemma acc_trigger sid held : off (schedule_lease_key sid) held → accounts (_trigger_now_owned sid) held (same held).
Proof. intros Hoff. apply acc_under; [done|]. intros l h. cbn [accounts handed_on]. by apply acc_free; [apply free_manual|]. Qed.

Lemma acc_skip sid now held : off (schedule_lease_key sid) held → accounts (_skip_missed_backlog sid now) held (same held).
Proof.
  intros Hoff. apply acc_under; [done|]. intros l h. apply acc_free; [|done]. apply neutral_bind; [done|]. intros [s|]; [|done].
  case_match; [|done]. case_match; [done|]. apply neutral_bind; [apply free_tx|]. by intros [|].
Qed.

Lemma free_announce sid status p : keeps_leases (announce sid status p).
Proof. unfold announce. repeat case_match; by split. Qed.

Lemma free_terminal tid suppress : keeps_leases (_handle_task_terminal_event tid suppress).
Proof.
  unfold Scheduler._handle_task_terminal_event. case_bool_decide; [done|]. apply neutral_bind; [done|]. intros [t|]; [|done].
  destruct (scheduled_by t) as [sid|]; [|done]. apply neutral_bind; [done|]. intros manual. apply neutral_bind; [done|]. intros [s|]; [|done].
  destruct manual.
  - apply neutral_bind; [apply free_tx|]. intros [[x|]|e]; [apply free_announce|done..].
  - unfold project_recurring. case_match; [done|]. intros wall mono l. apply neutral_bind; [done|]. intros seen.
    apply neutral_bind; [apply free_tx|]. intros [[x|]|e]; [apply free_announce|done..].
Qed.

Lemma free_notify sid : keeps_leases (notify_schedule_changed sid).
Proof. intros wall mono l. apply neutral_bind; [done|]. intros [s|]; [|done]. by apply neutral_bind; [apply free_tx|]. Qed.

(** *** The catch-up *)

Section Catchup.
Context (lease : Lease) (Hkey : resource_key lease = catchup_lease_key).

Notation kept := (same [lease]).

Lemma off_schedule sid : off (schedule_lease_key sid) [lease].
Proof using Hkey. intros l ->%list_elem_of_singleton. by rewrite Hkey. Qed.

Lemma acc_step {A B} (p : prog A) (f : A → prog B) (Q : B → list Lease → Prop) :
  keeps_leases p → (∀ a, accounts (f a) [lease] Q) → accounts (pbind p f) [lease] Q.
Proof. intros Hp Hf. by apply accounts_bind, acc_free. Qed.

Lemma acc_then_fire sid {B} (f : option string → prog B) (Q : B → list Lease → Prop) :
  (∀ a, accounts (f a) [lease] Q) → accounts (pbind (_fire_schedule sid) f) [lease] Q.
Proof using Hkey.
  intros Hf. apply accounts_bind. eapply accounts_weaken; [apply acc_fire, off_schedule|]. by intros a h ->.
Qed.

Lemma acc_due due cutoff n :
  accounts (catch_up_due active_session digest isoformat next_cron preparation template_priority owner stagger_s limit lease due cutoff n) [lease] kept.
Proof using Hkey.
  revert cutoff n. induction due as [|s due IH]; intros cutoff n; [done|]. intros wall mono l. case_match; [done|].
  apply acc_step; [apply free_tx|]. intros [[cutoff' n']|]; [|done]. apply acc_then_fire. intros _. apply acc_step; [done|]. intros after.
  case_match; [apply acc_step; [unfold stagger; by case_match|done]|]. apply acc_step; [apply free_tx|]. intros [n''|]; [|done].
  apply acc_step; [done|]. intros _. apply acc_step; [unfold stagger; by case_match|done].
Qed.

Lemma acc_budget fuel cutoff n :
  accounts (catch_up_budget active_session digest isoformat next_cron preparation template_priority owner stagger_s limit fuel lease cutoff n) [lease] kept.
Proof using Hkey.
  revert cutoff n. induction fuel as [|fuel IH]; intros cutoff n; [done|]. intros wall mono l. case_match; [done|].
  apply acc_step; [done|]. intros [|s due]; [done|]. apply accounts_bind. eapply accounts_weaken; [apply acc_due|]. intros [c m] h ->. apply IH.
Qed.

Lemma acc_skip_due due now : accounts (skip_due next_cron owner due now) [lease] kept.
Proof using Hkey.
  induction due as [|s due IH]; [done|]. apply accounts_bind. eapply accounts_weaken; [apply acc_skip, off_schedule|]. intros r h ->.
  apply accounts_bind. eapply accounts_weaken; [exact IH|]. by intros x h ->.
Qed.

Lemma acc_backlog fuel : accounts (skip_backlog next_cron owner fuel lease) [lease] kept.
Proof using Hkey.
  induction fuel as [|fuel IH]; [done|]. intros wall mono l. case_match; [done|]. apply acc_step; [done|]. intros x.
  apply accounts_bind. eapply accounts_weaken; [apply acc_skip_due|]. intros [|] h ->.
  - by apply acc_step.
  - apply acc_step; [apply free_tx|]. by intros [|].
Qed.

Lemma acc_under_lease fuel resume_only :
  accounts (catch_up_under active_session digest isoformat next_cron preparation template_priority owner budget stagger_s limit fuel lease resume_only) [lease] kept.
Proof using Hkey.
  apply acc_step; [done|]. intros proposed. apply acc_step; [apply free_tx|]. intros state. apply acc_step.
  { destruct state; [done|]. apply neutral_bind; [done|]. by intros [|]. }
  intros [|]; [|done]. cbn [negb]. destruct (default _ state) as [cutoff n]. apply accounts_bind. eapply accounts_weaken; [apply acc_budget|].
  intros [|] h ->; [|done]. apply accounts_bind. eapply accounts_weaken; [apply acc_backlog|]. by intros [|] h ->.
Qed.
End Catchup.

Notation keeps_none := (λ (ok : bool) (held : list Lease), ok = true → held = []).

Lemma acc_catchup_lease fuel :
  accounts (catchup_lease owner fuel) [] (λ r h, h = match r with Some (Some l) => [l] | _ => [] end ∧
                                                 match r with Some (Some l) => resource_key l = catchup_lease_key | _ => True end).
Proof.
  induction fuel as [|fuel IH]; [done|]. intros wall mono l. case_match; [done|]. apply accounts_bind. cbn -[catchup_lease]. intros now at_ w.
  unfold control_reply. cbn -[catchup_lease]. destruct (acquire_in_session _ _ _ _ _) as [db [x|]] eqn:Ha; cbn -[catchup_lease].
  - by apply acquired in Ha as (Hk & _).
  - intros now' w'. exact IH.
Qed.

Lemma acc_catch_up fuel resume_only : accounts (_catch_up_missed fuel resume_only) [] keeps_none.
Proof.
  revert resume_only. induction fuel as [|fuel IH]; intros resume_only; [done|]. apply accounts_bind. eapply accounts_weaken; [apply acc_catchup_lease|].
  intros [[lease|]|] h [-> Hk]; [|done..]. apply accounts_bind. cbn [accounts handed_on]. eapply accounts_weaken; [by apply acc_under_lease|].
  intros [through|] h ->; [|done]. apply accounts_bind, acc_release_lease. rewrite without_all. intros wall mono l. case_match; [apply IH|done].
Qed.

Lemma acc_fire_due due : accounts (fire_due active_session digest isoformat next_cron preparation template_priority owner limit due) [] (same []).
Proof.
  induction due as [|s due IH]; [done|]. intros wall mono l. case_match; [done|]. apply accounts_bind.
  eapply accounts_weaken; [apply acc_fire; by intros x ?%elem_of_nil|]. by intros r h ->.
Qed.

(** The methods; [false] when the fuel of a catch-up is used up. *)
Inductive scheduler_call :=
| SFire (sid : string)
| STrigger (sid : string)
| STerminal (tid : string) (suppress : bool)
| SChanged (sid : string)
| STimer (fuel : nat)
| SStart (fuel : nat).

Definition scheduler_method (m : scheduler_call) : prog bool :=
  match m with
  | SFire sid => do _ <- _fire_schedule sid; Ret true
  | STrigger sid => do _ <- _trigger_now_owned sid; Ret true
  | STerminal tid suppress => do _ <- _handle_task_terminal_event tid suppress; Ret true
  | SChanged sid => do _ <- notify_schedule_changed sid; Ret true
  | STimer fuel => _timer_pass fuel
  | SStart fuel => start fuel
  end.

Lemma acc_scheduler m : accounts (scheduler_method m) [] keeps_none.
Proof.
  assert (∀ sid, off (schedule_lease_key sid) []) as Hoff by by intros sid x ?%elem_of_nil.
  destruct m; cbn [scheduler_method].
  - apply acc_then. by apply acc_fire.
  - apply acc_then. by apply acc_trigger.
  - apply acc_then. by apply acc_free; [apply free_terminal|].
  - apply acc_then. by apply acc_free; [apply free_notify|].
  - intros wall mono l. apply accounts_bind, acc_read_tables. intros [|]; [apply acc_catch_up|]. intros wall' mono' l'.
    apply accounts_bind, acc_read_tables. intros due. apply accounts_bind. eapply accounts_weaken; [apply acc_fire_due|]. intros [] h ->.
    apply accounts_bind, acc_read_tables. intros n. apply accounts_bind, acc_free; [|done]. intros w m' l''. by case_match.
  - apply accounts_bind, acc_free; [intros wall mono l; apply free_tx|]. intros _. apply acc_catch_up.
Qed.

(** C16. Whatever other controllers and tasks do between the calls of a method of the scheduler,
    when it returns it has given back every lease it was granted, of schedules and of the
    catch-up: a schedule is never blocked by a controller that is done with it, however the firing
    ended.  Only a catch-up that is still going on holds one. *)
Theorem scheduler_leases_are_given_back m slots from to evs :
  played (scheduler_method m) slots from = (Some true, to, evs) → outstanding evs [] = [].
Proof. intros Hp. eapply accounts_sound in Hp; [|apply acc_scheduler]. by apply Hp. Qed.

(** ** A schedule that is due moves on *)

Section Occurrence.
Context (sid : string) (at_ : Z).

Notation fid := (schedule_fire_id digest isoformat sid at_).

(** The row of the occurrence is the one with its identifier. *)
Definition own_row (w : tables) : Prop :=
  (∀ f, fires w !! fid = Some f → same_fire sid Recurring at_ f = true) ∧
  (∀ f, f ∈ fire_list w → same_fire sid Recurring at_ f = true → fires w !! fid = Some f).

Lemma same_fire_kind f : same_fire sid Recurring at_ f = true → f_kind f = Recurring.
Proof. unfold same_fire. intros H. by bool_facts. Qed.

Lemma insert_own tz now w :
  own_row w → ∃ w1 f, insert_fire (new_fire fid sid Recurring at_ tz 0 now) true w = Some w1 ∧ fires w1 !! fid = Some f ∧
    f_kind f = Recurring ∧ schedules w1 = schedules w ∧ lease_table w1 = lease_table w.
Proof.
  intros [H1 H2]. unfold insert_fire. cbn [f_schedule_id f_kind scheduled_fire_at fire_id new_fire].
  destruct (existsb _ _) eqn:He.
  - apply existsb_exists in He as (f & Hin & Hs). apply list_elem_of_In in Hin. exists w, f. split_and!; auto. by apply same_fire_kind.
  - destruct (fires w !! fid) as [f|] eqn:Hf.
    + exfalso. assert (f ∈ fire_list w) as Hin by (apply list_elem_of_fmap; exists (fid, f); by rewrite elem_of_map_to_list).
      rewrite (proj2 (existsb_exists _ _)) in He; [done|]. exists f. split; [by apply list_elem_of_In|by apply H1].
    + eexists _, _. split_and!; [done|apply lookup_insert_eq|done..].
Qed.

(** Where the claim leaves the schedule: due as before, or switched off by the failures that it
    counted. *)
Definition claimed_schedule (s : schedule) (c : ScheduleFireClaim) (w w' : tables) : Prop :=
  fc_schedule_id c = sid ∧ fc_fire_at c = at_ ∧ lease_table w' = lease_table w ∧ schedules w' !! sid = Some (fc_schedule c) ∧
  schedule_id (fc_schedule c) = schedule_id s ∧ interval_seconds (fc_schedule c) = interval_seconds s ∧
  (next_fire_at (fc_schedule c) = Some at_ ∧ enabled (fc_schedule c) = true ∨
   enabled (fc_schedule c) = false ∧ replaced_paused_task_ids c ≠ []) ∧
  (should_dispatch c = true → ∃ f, fires w' !! fc_fire_id c = Some f ∧ f_status f = FireClaimed).

Lemma replaced_schedule (b : bool) wall s w :
  let '(ids, s', w') := if b then replace_paused sid limit wall s w else ([], s, w) in
  schedules w !! sid = Some s → enabled s = true → next_fire_at s = Some at_ →
  lease_table w' = lease_table w ∧ schedules w' !! sid = Some s' ∧ schedule_id s' = schedule_id s ∧ interval_seconds s' = interval_seconds s ∧
  (next_fire_at s' = Some at_ ∧ enabled s' = true ∨ enabled s' = false ∧ ids ≠ []).
Proof.
  destruct b; [|intros; split_and!; auto]. unfold replace_paused. destruct (paused_tasks sid w) as [|t ts]; [intros; split_and!; auto|].
  intros Hs He Hn. split_and!; [done|apply lookup_insert_eq|..]; unfold count_failures; case_match; destruct s; cbn in *; auto.
Qed.

Lemma claim_due s lease now wall w :
  schedules w !! sid = Some s → enabled s = true → next_fire_at s = Some at_ → _lock_lease w lease now = true → own_row w →
  ∃ c w', claim digest isoformat sid at_ lease limit now wall w = (Ok (Some c), w') ∧ claimed_schedule s c w w'.
Proof.
  intros Hs He Hn Hl Hown. unfold ScheduleFires.claim. rewrite Hl, Hs, He, Hn. cbn [negb orb]. rewrite bool_decide_true by done. cbn [negb orb].
  destruct (insert_own (s_timezone s) now w Hown) as (w1 & f & -> & Hf & Hk & Hsch & Hlt). rewrite Hf, Hk. cbn [negb bool_decide decide decide_rel].
  destruct (bool_decide (f_status f = FireDispatched) || _) eqn:Hst.
  { eexists _, _. split; [done|]. split_and!; cbn; rewrite ?Hsch; auto. done. }
  destruct (tasks w1 !! _) as [t|].
  { eexists _, _. split; [done|]. split_and!; cbn; [done|done| | |done|done|by left|].
    - unfold update_fire. by rewrite Hf.
    - unfold update_fire. rewrite Hf. cbn. by rewrite Hsch.
    - intros _. unfold update_fire. rewrite Hf. cbn. rewrite lookup_insert_eq. eexists. split; [done|]. by destruct f. }
  pose proof (replaced_schedule (fail_paused_task_on_next_fire s) wall s w1) as Hr. rewrite Hsch, Hlt in Hr.
  pose proof (replaced_for_claim (fail_paused_task_on_next_fire s) sid limit wall s w1 _ f Hf) as (f2 & Hf2 & _).
  destruct (if fail_paused_task_on_next_fire s then _ else _) as [[ids s'] w2]. destruct (Hr Hs He Hn) as (H1 & H2 & H3 & H4 & H5). cbn in Hf2.
  unfold fire_at in Hf2. destruct (_ <=? _); eexists _, _; (split; [done|]); (split_and!; cbn; try done; unfold update_fire; rewrite Hf2; cbn; try done).
  intros _. rewrite lookup_insert_eq. eexists. split; [done|]. by destruct f2.
Qed.
End Occurrence.
(** *** What making the task leaves alone *)

Definition same_schedules (w w' : world) : Prop :=
  schedules (db w') = schedules (db w) ∧ fires (db w') = fires (db w) ∧ lease_table (db w') = lease_table (db w).

#[local] Instance same_schedules_refl : Reflexive same_schedules.
Proof. done. Qed.
#[local] Instance same_schedules_trans : Transitive same_schedules.
Proof. intros w1 w2 w3 (H1 & H2 & H3) (H4 & H5 & H6). split_and!; congruence. Qed.

Definition schedule_free (o : control_op) : Prop := ∀ w, same_schedules w (control_exec w o).

Lemma free_task_update tid p f w :
  let w' := (update_task tid p f w).1 in schedules w' = schedules w ∧ fires w' = fires w ∧ lease_table w' = lease_table w.
Proof. cbn. unfold update_task. by repeat case_match. Qed.

Lemma schedule_free_tx {A} `{Answer A} (f : Z → Z → tables → A * tables) :
  (∀ now wall w, let w' := (f now wall w).2 in schedules w' = schedules w ∧ fires w' = fires w ∧ lease_table w' = lease_table w) →
  calls_only schedule_free (tx f).
Proof. intros Hf. split; [|done]. intros now wall w. unfold same_schedules. rewrite (db_tx (f now wall)). apply Hf. Qed.

Lemma schedule_free_signal s : calls_only schedule_free (signal_ s).
Proof. split; [|done]. by intros now wall w. Qed.

Lemma schedule_free_ready tid : calls_only schedule_free (_try_transition_to_ready tid).
Proof.
  apply calls_only_bind.
  - apply schedule_free_tx. intros now wall w. unfold transition_to_ready. destruct (get_unmet_dependencies _ _ _); [|done].
    pose proof (free_task_update tid) as Hu. unfold move_task, update_task_status.
    match goal with |- context [update_task tid ?p ?f w] => specialize (Hu p f w); destruct (update_task tid p f w) as [w' ok] end. exact Hu.
  - intros [|]; [|done]. apply calls_only_bind; [apply (schedule_free_signal QueueWakeup)|done].
Qed.

Lemma schedule_free_submit s : calls_only schedule_free (submit active_session s).
Proof.
  unfold TaskQueue.submit. case_match; [done|]. intros wall mono l. case_match; [done|]. split.
  { intros now wall' w. unfold control_exec. cbn. assert (∀ t b p a ty r f n w, let w' := (create_task t b p a ty r f n w).2 in
      schedules w' = schedules w ∧ fires w' = fires w ∧ lease_table w' = lease_table w) as Hc.
    { intros t b p a ty r f n w0. cbn. unfold create_task. by destruct (tasks w0 !! t). }
    assert (let w' := (insert_task active_session s wall' w).2 in
            schedules w' = schedules (db w) ∧ fires w' = fires (db w) ∧ lease_table w' = lease_table (db w)) as Hi.
    { unfold insert_task. repeat case_match; try apply Hc; done. }
    by destruct (insert_task active_session s wall' w). }
  intros v. destruct (answer v : result query_error task) as [t|e]; [|done].
  apply calls_only_bind; [apply schedule_free_signal|]. intros _. apply calls_only_bind; [apply schedule_free_signal|]. intros _.
  apply calls_only_bind; [case_match; [apply calls_only_bind; [apply schedule_free_ready|done]|done]|]. intros _.
  apply calls_only_bind; [case_match; [apply (schedule_free_signal QueueWakeup)|done]|done].
Qed.

Lemma schedule_free_reconcile tid : calls_only schedule_free (reconcile_submitted tid).
Proof.
  apply calls_only_bind; [done|]. intros [t|]; [|done]. apply calls_only_bind.
  - case_match; [apply calls_only_bind; [apply schedule_free_ready|done]|done].
  - intros [t'|]; [|done]. apply calls_only_bind; [apply (schedule_free_signal QueueWakeup)|done].
Qed.

Lemma schedule_free_claimed c status lease : calls_only schedule_free (claimed_task c status lease).
Proof.
  apply calls_only_bind; [done|]. intros [t|]; [done|]. intros wall mono l. case_match; [done|]. apply calls_only_bind.
  - unfold Scheduler._dispatch_claimed_fire. case_match; [done|]. by apply calls_only_bind; [apply schedule_free_submit|].
  - by intros [t|[|m]].
Qed.

(** *** The run *)

Section MovesOn.
Context (sid : string) (at_ t wall mono : Z).
Context (Hcron : ∀ e tz a, a < next_cron e tz a).

Notation runs := (runs_alone t wall mono).

(** Nothing is due at that time or before any more. *)
Definition moved_on (w : tables) : Prop :=
  ∀ s, schedules w !! sid = Some s → enabled s = true → ∀ next, next_fire_at s = Some next → at_ < next.

Lemma compute_later s a b :
  (∀ n, interval_seconds s = Some n → 0 ≤ n) → is_one_shot s = false → _compute_next_fire s a = Some b → a < b.
Proof.
  intros Hn H1. unfold Scheduler._compute_next_fire. rewrite H1. case_bool_decide.
  - destruct (cron_expr s); [|done]. case_bool_decide; [done|]. intros [= <-]. apply Hcron.
  - case_bool_decide; [|done]. destruct (interval_seconds s) as [n|]; [|done]. destruct (n =? 0) eqn:Hz; [done|]. intros [= <-].
    specialize (Hn n eq_refl). unfold seconds. lia.
Qed.

Lemma advance_moves_on s status lease l w :
  schedules (db w) !! sid = Some s → schedule_id s = sid → next_fire_at s = Some at_ → (∀ n, interval_seconds s = Some n → 0 ≤ n) →
  _lock_lease (db w) lease t = true → moved_on (db (runs (_advance_claimed_fire s at_ status lease) l w).2).
Proof.
  intros Hs Hid Hn Hi Hl. unfold Scheduler._advance_claimed_fire. rewrite alone_bind, alone_tx. cbn [fst snd].
  unfold advance_schedule, update_schedule_row. rewrite Hl, Hid, Hs, Hn. cbn [negb]. rewrite bool_decide_true by done. cbn [fst snd andb].
  match goal with |- context [set_schedules ?m (db w)] => set (rows := m) end.
  assert (moved_on (set_schedules rows (db w))) as Hm.
  { intros x. cbn. unfold rows. rewrite lookup_insert_eq. intros [= <-] _ next.
    destruct (is_one_shot s) eqn:H1; [by destruct s|]. destruct (_compute_next_fire s at_) as [b|] eqn:Hb; [|by destruct s].
    apply compute_later in Hb; [|done..]. destruct s; cbn. by intros [= <-]. }
  case_match; [|exact Hm]. rewrite alone_bind, alone_tx. cbn [fst snd]. unfold delete_schedule. cbn [schedules set_schedules with_db db].
  unfold rows at 1. rewrite lookup_insert_eq. unfold moved_on, delete_schedule_row. cbn. intros x. by rewrite lookup_delete_eq.
Qed.

Lemma backoff_bounds n : 30 ≤ _compute_backoff_delay n ≤ 3600.
Proof.
  unfold _compute_backoff_delay. cbn [length _BACKOFF_SCHEDULE]. assert (0 ≤ Z.max (Z.min (n - 1) (Z.of_nat 5 - 1)) 0 ≤ 4) as Hi by lia.
  revert Hi. generalize (Z.max (Z.min (n - 1) (Z.of_nat 5 - 1)) 0). intros i Hi.
  assert (i = 0 ∨ i = 1 ∨ i = 2 ∨ i = 3 ∨ i = 4) as Hc by lia. destruct Hc as [->|[->|[->|[->| ->]]]]; split; apply Z.leb_le; reflexivity.
Qed.

(** The schedule of a claim, as it is in the tables. *)
Definition claim_stands (c : ScheduleFireClaim) (lease : Lease) (w : tables) : Prop :=
  fc_schedule_id c = sid ∧ fc_fire_at c = at_ ∧ schedules w !! sid = Some (fc_schedule c) ∧ schedule_id (fc_schedule c) = sid ∧
  next_fire_at (fc_schedule c) = Some at_ ∧ enabled (fc_schedule c) = true ∧
  (∀ n, interval_seconds (fc_schedule c) = Some n → 0 ≤ n) ∧ _lock_lease w lease t = true.

Lemma stands_same c lease w w' : same_schedules w w' → claim_stands c lease (db w) → claim_stands c lease (db w').
Proof. unfold claim_stands, _lock_lease. by intros (-> & _ & ->). Qed.

Definition fire_is_claimed (c : ScheduleFireClaim) (w : tables) : Prop := ∃ f, fires w !! fc_fire_id c = Some f ∧ f_status f = FireClaimed.

Lemma fire_claimed_same c w w' : same_schedules w w' → fire_is_claimed c (db w) → fire_is_claimed c (db w').
Proof. unfold fire_is_claimed. by intros (_ & -> & _). Qed.

Lemma failed_moves_on c lease error l w :
  claim_stands c lease (db w) → fire_is_claimed c (db w) → at_ ≤ wall → moved_on (db (runs (fire_failed c lease error) l w).2).
Proof.
  intros (Hid & Hat & Hs & _ & Hn & He & _ & Hl) (f & Hf & Hst) Hw. unfold Scheduler.fire_failed. cbn [alone].
  rewrite alone_bind, alone_tx. cbn [fst snd]. unfold mark_failed, fail_fire, update_fire. rewrite Hl, Hf, Hst. cbn [negb].
  rewrite bool_decide_true by done. unfold update_schedule_row. rewrite Hid, Hat. cbn [schedules set_fires]. rewrite Hs, Hn, He.
  rewrite bool_decide_true by done. cbn [andb fst snd]. rewrite alone_signal. cbn [fst snd with_db db].
  pose proof (backoff_bounds (consecutive_errors (fc_schedule c) + 1)) as Hb.
  intros x. cbn [schedules set_schedules]. rewrite lookup_insert_eq. intros [= <-]. unfold seconds.
  destruct (limit <=? _); destruct (fc_schedule c); cbn -[_compute_backoff_delay]; [done|]. intros _ next [= <-]. cbn -[_compute_backoff_delay] in Hb. lia.
Qed.

Lemma claimed_alone c status lease l w :
  lease_is_lost l lease = false →
  same_schedules w (runs (claimed_task c status lease) l w).2 ∧ (runs (claimed_task c status lease) l w).1.1 ≠ None.
Proof.
  intros Hl. split; [apply (alone_kept _ _ t wall mono same_schedules), schedule_free_claimed|].
  unfold Scheduler.claimed_task. rewrite alone_bind, alone_read. destruct (get_task _ _); [done|]. cbn [alone]. rewrite Hl.
  rewrite alone_bind. destruct (runs _ l w) as [[r l'] w']. destruct r as [t'|[|m]]; cbn; [done| |done]. by destruct (get_task _ _).
Qed.

Lemma dispatch_moves_on c lease l w :
  claim_stands c lease (db w) → fire_is_claimed c (db w) → at_ ≤ wall → lease_is_lost l lease = false →
  moved_on (db (runs (dispatch_claim c lease) l w).2).
Proof.
  intros Hc Hf Hw Hl. unfold Scheduler.dispatch_claim. rewrite alone_bind. destruct (claimed_alone c QUEUED lease l w Hl) as [Hsame Hmade].
  destruct (runs (claimed_task c QUEUED lease) l w) as [[made l1] w1]. cbn [fst snd] in *. apply (stands_same _ _ _ _ Hsame) in Hc.
  apply (fire_claimed_same _ _ _ Hsame) in Hf. destruct made as [[t'|m]|]; [| |done].
  - rewrite alone_bind. pose proof (alone_kept control_exec control_reply t wall mono same_schedules (reconcile_submitted (fc_task_id c)) l1 w1
      (schedule_free_reconcile _)) as Hr.
    destruct (runs (reconcile_submitted _) l1 w1) as [[r l2] w2]. cbn [fst snd] in Hr. apply (stands_same _ _ _ _ Hr) in Hc.
    apply (fire_claimed_same _ _ _ Hr) in Hf. destruct Hc as (Hid & Hat & Hs & Hsid & Hn & He & Hi & Hlk). destruct Hf as (f & Hf & Hst).
    rewrite alone_bind, alone_tx. cbn [fst snd]. unfold mark_dispatched, dispatch_fire, update_fire. rewrite Hlk, Hf, Hst. cbn [negb].
    rewrite bool_decide_true by done. cbn [fst snd negb]. rewrite alone_bind, Hat.
    match goal with |- context [runs (_advance_claimed_fire _ _ _ _) l2 ?w3] =>
      pose proof (advance_moves_on (fc_schedule c) "success" lease l2 w3 Hs Hsid Hn Hi Hlk) as Ha;
      destruct (runs (_advance_claimed_fire _ _ _ _) l2 w3) as [[u l4] w4] end.
    rewrite alone_bind, alone_signal. exact Ha.
  - rewrite alone_bind. pose proof (failed_moves_on c lease m l1 w1 Hc Hf Hw) as Ha.
    by destruct (runs (fire_failed c lease m) l1 w1) as [[u l4] w4].
Qed.

Lemma report_alone c l w :
  runs (report_replaced c) l w =
  (match replaced_paused_task_ids c with [] => true | _ => match get_schedule (fc_schedule_id c) (db w) with Some s => enabled s | None => false end end, l, w).
Proof.
  unfold report_replaced. destruct (replaced_paused_task_ids c) as [|x ids]; [done|]. rewrite alone_bind.
  assert (∀ ids, runs (foldr (λ tid p, seq signal_ (TaskFailed tid true); p) (Ret tt) ids) l w = (tt, l, w)) as ->.
  { clear x ids. intros ids. induction ids as [|y ids IH]; cbn [foldr]; [done|]. by rewrite alone_bind, alone_signal. }
  by rewrite alone_bind, alone_signal, alone_read.
Qed.

Lemma fire_moves_on s lease l w :
  schedules (db w) !! sid = Some s → schedule_id s = sid → enabled s = true → next_fire_at s = Some at_ →
  (∀ n, interval_seconds s = Some n → 0 ≤ n) → own_row sid at_ (db w) → _lock_lease (db w) lease t = true → at_ ≤ wall →
  lease_is_lost l lease = false → moved_on (db (runs (fire_claimed sid at_ lease) l w).2).
Proof.
  intros Hs Hid He Hn Hi Hown Hlk Hw Hl. unfold Scheduler.fire_claimed. rewrite alone_bind, alone_tx.
  destruct (claim_due sid at_ s lease t t (db w) Hs He Hn Hlk Hown) as (c & w' & -> & Hcid & Hcat & Hlt & Hcs & Hcsid & Hci & Hst & Hf).
  cbn [fst snd]. rewrite alone_bind, report_alone. cbn [with_db db]. rewrite Hcid. unfold get_schedule. rewrite Hcs.
  destruct Hst as [[Hcn Hce]|[Hce Hr]].
  - assert (match replaced_paused_task_ids c with [] => true | _ => enabled (fc_schedule c) end = true) as -> by by rewrite Hce; destruct (replaced_paused_task_ids c).
    cbn [negb]. assert (claim_stands c lease w') as Hc.
    { split_and!; try done; [congruence|by intros n; rewrite Hci; apply Hi|]. unfold _lock_lease. by rewrite Hlt. }
    pose proof Hc as (_ & _ & _ & Hsid & _ & _ & Hin & Hlk'). case_bool_decide; [|destruct (should_dispatch c); cbn [negb]].
    + rewrite alone_bind. pose proof (advance_moves_on (fc_schedule c) "skipped" lease l (with_db w' w) Hcs Hsid Hcn Hin Hlk') as Ha.
      by destruct (runs (_advance_claimed_fire _ _ _ _) l _) as [[u l4] w4].
    + by apply dispatch_moves_on; [|by apply Hf|..].
    + rewrite alone_bind. pose proof (advance_moves_on (fc_schedule c) "success" lease l (with_db w' w) Hcs Hsid Hcn Hin Hlk') as Ha.
      by destruct (runs (_advance_claimed_fire _ _ _ _) l _) as [[u l4] w4].
  - assert (match replaced_paused_task_ids c with [] => true | _ => enabled (fc_schedule c) end = false) as -> by by rewrite Hce; destruct (replaced_paused_task_ids c).
    cbn [negb alone fst snd]. intros x. cbn [with_db db]. rewrite Hcs. intros [= <-]. by rewrite Hce.
Qed.

Lemma release_keeps_schedules lease l w : schedules (db (runs (release_lease lease) l w).2) = schedules (db w).
Proof. done. Qed.
End MovesOn.

End Spec.

(** ** A run *)

(** A schedule that fires every minute and is due; an earlier run of it, [old], has failed. *)
Definition due_schedule : schedule :=
  Schedule "s" "n" "interval" None (Some 60) None "UTC" "x" true 1 false true false (Some 0) (Some 100) None None 0 None "u" 0.
Definition old_task : task := Task "old" FAILED 0 "x" "scheduler" (Some "s") "default" (Some 0) 1 None None None 0 None None 0.
Definition old_fire : fire := Fire "old_fire" "s" Recurring 0 (Some "UTC") (Some "old") FireDispatched 1 None 0 0 (Some 0).
Definition due_world : world :=
  World (Tables ∅ {["old" := old_task]} [] [] {["s" := due_schedule]} {["old_fire" := old_fire]} None) "u" ∅.

Definition demo_firing : string → prog (option string) :=
  _fire_schedule (λ _, true) id str_int (λ _ _ a, a + 1) (λ _, None) (λ _, 0) "k1" 5.
Definition demo_due : moment world local := Moment 200 0 demo_local due_world.
Definition demo_fired (slots : list (slot control_op local)) := played (demo_firing "s") slots demo_due.
Definition schedule_of (m : moment world local) : option schedule := get_schedule "s" (db (m_world m)).

Example due_schedule_fires :
  let x := demo_fired (replicate 20 (quiet 200 200 0)) in
  x.1.1 = Some (Some (schedule_task_id id str_int "s" 100)) ∧ (schedule_of x.1.2 ≫= next_fire_at) = Some 60000100 ∧
  (t_status <$> get_task (schedule_task_id id str_int "s" 100) (db (m_world x.1.2))) = Some READY.
Proof. vm_compute. auto. Qed.

(** The failure of the earlier run is projected while this run is dispatched: advancing the
    schedule writes back the number of failures that the claim had read. *)
Example failure_forgotten :
  let fails := CTx (λ w, let '(r, t) := project_recurring_terminal_result (Some old_fire) "old" FAILED (Some 100) 5 200 (db w) in (enc r, t)) in
  let x := demo_fired (replicate 12 (quiet 200 200 0) ++ Slot [fails] 200 200 (λ l, l) 200 0 :: replicate 8 (quiet 200 200 0)) in
  consecutive_errors <$> schedule_of x.1.2 = Some 0 ∧
  (fires (db (m_world x.1.2)) !! "old_fire" ≫= last_error) = Some "terminal:failed".
Proof. vm_compute. auto. Qed.

Lemma scheduler_leases_are_given_back_witness :
  let m := SFire "s" in
  let x := played (scheduler_method (λ _, true) id str_int true (λ _ _ a, a + 1) (λ _, None) (λ _, 0) "k1" 5 0 5 m)
             (replicate 20 (quiet 200 200 0)) demo_due in
  length x.2 = 16%nat ∧ outstanding x.2 [] = [].
Proof.
  intros m x. split; [vm_compute; reflexivity|].
  apply (scheduler_leases_are_given_back (λ _, true) id str_int true (λ _ _ a, a + 1) (λ _, None) (λ _, 0) "k1" 5 0 5 m
           (replicate 20 (quiet 200 200 0)) demo_due x.1.2 x.2).
  apply run_is. vm_compute. reflexivity.
Defined.

