(* ===== verification/Compaction.v ===== *)
(** What a compaction keeps ([cognis/core/compaction/strategy.py], [banding.py]): the split of a
    session's history into events that are summarized and a tail that stays verbatim, and the
    bands of the summarizer's input.

    Events are objects: a list names each once, so that [id] tells the places of a list apart and
    a filter by [id] is one by place.  A subscript past the end raises; the searches below never
    reach one.

    Parameters: how events are printed for the summarizer, how a value is printed as JSON, and the
    token counter, present when there are a function and a model, which may raise ([None]). *)

From S2P Require Import Prelude Str PyVal.

(** ** Events *)

Record session_event := Event { e_type : string; e_data : option pydict; e_seq : option Z }.

Definition has_type (kinds : list string) (e : session_event) : bool := bool_decide (e_type e ∈ kinds).

Definition str_is (s : string) (v : pyval) : bool := match v with PStr x => bool_decide (x = s) | _ => false end.

Definition is_retry_admission_notice (e : session_event) : bool :=
  match e_data e with
  | Some d =>
      has_type ["system_message"] e && str_is "system_notice" (dict_get "event" d) && str_is "model_recovery" (dict_get "kind" d) &&
      str_is "turn" (dict_get "scope" d)
  | None => false
  end.

Definition _is_turn_admission_event (e : session_event) : bool := has_type ["user_message"] e || is_retry_admission_notice e.

Definition is_user_message (e : session_event) : bool := has_type ["user_message"] e.
Definition is_call_event (e : session_event) : bool := has_type ["tool_call"] e.

Definition _is_compaction_tail_cycle_boundary (e : session_event) : bool :=
  has_type ["user_message"; "assistant_message"; "assistant_thinking"; "tool_call"] e.

Definition _SUMMARIZABLE_EVENT_TYPES : list string :=
  ["user_message"; "assistant_message"; "assistant_thinking"; "tool_call"; "tool_result"; "delegation"].

Definition _has_summarizable_history (older : list session_event) : bool := existsb (has_type _SUMMARIZABLE_EVENT_TYPES) older.

(** [p] of the event at a place. *)
Definition at_place (p : session_event → bool) (events : list session_event) (k : nat) : bool :=
  match events !! k with Some e => p e | None => false end.

(** ** Cuts *)

Fixpoint back_to_boundary (events : list session_event) (k : nat) : nat :=
  match k with
  | O => O
  | S k' => if at_place _is_compaction_tail_cycle_boundary events k then k else back_to_boundary events k'
  end.

Fixpoint back_over_calls (events : list session_event) (k : nat) : nat :=
  match k with O => O | S k' => if at_place is_call_event events k' then back_over_calls events k' else k end.

Definition _snap_keep_from_to_cycle_boundary (events : list session_event) (keep_from : nat) : nat :=
  let k := back_to_boundary events (Nat.min keep_from (length events)) in
  if at_place is_call_event events k then back_over_calls events k else k.

(** The places of the user messages, in order. *)
Definition user_event_indices (events : list session_event) : list nat :=
  filter (λ k, at_place is_user_message events k) (seq 0 (length events)).

(** The latest turn's admission stays in front of the tail. *)
Definition _pin_latest_turn_admission (events : list session_event) (keep_from : nat) (latest_turn_start : option nat) :
    list session_event * list session_event :=
  match latest_turn_start with
  | Some start =>
      if (keep_from <=? start)%nat then (take keep_from events, drop keep_from events) else
      let turn := drop start (take keep_from events) in
      (take start events ++ filter (λ e, _is_turn_admission_event e = false) turn,
       filter (λ e, _is_turn_admission_event e = true) turn ++ drop keep_from events)
  | None => (take keep_from events, drop keep_from events)
  end.

Section Compaction.
Context (format_events_for_compaction : list session_event → ustr) (dumps : pyval → ustr).
Context (counter : option (ustr → option Z)).

Definition payload_part (d : pydict) (key : string) : list ustr :=
  match dict_get key d with
  | PNone => []
  | PStr s => if bool_decide (s = "") then [] else [u s]
  | v => [dumps v]
  end.

Definition _event_prompt_text (e : session_event) : ustr :=
  let formatted := format_events_for_compaction [e] in
  match e_data e with
  | None => formatted
  | Some d =>
      let raw := ujoin [LF] (payload_part d "content" ++ payload_part d "result" ++ payload_part d "output" ++ payload_part d "arguments") in
      if (length formatted <? length raw)%nat then raw else formatted
  end.

(** The walk from the end down to the turn's start: [None] when counting raised, [Some None]
    when it got through, else the last cut before the budget was exceeded. *)
Fixpoint walk_back (count : ustr → option Z) (events : list session_event) (budget cost : Z) (keep : option nat) (places : list nat) :
    option (option (option nat)) :=
  match places with
  | [] => Some None
  | k :: places =>
      match events !! k with
      | None => None
      | Some e =>
          cost ← (if _is_turn_admission_event e then Some cost else n ← count (_event_prompt_text e); Some (cost + n));
          if budget <? cost then Some (Some keep) else
          let stable := _is_compaction_tail_cycle_boundary e && (_snap_keep_from_to_cycle_boundary events k =? k)%nat in
          walk_back count events budget cost (if stable then Some k else keep) places
      end
  end.

Definition _oversized_latest_turn_cut (count : ustr → option Z) (events : list session_event) (latest_turn_start : nat) (tail_token_budget : Z) :
    option nat :=
  let anchors := filter (λ e, _is_turn_admission_event e = true) (drop latest_turn_start events) in
  let places := reverse (seq (S latest_turn_start) (length events - S latest_turn_start)) in
  match reserved ← count (format_events_for_compaction anchors); walk_back count events (tail_token_budget - reserved) 0 None places with
  | Some (Some keep) =>
      let k := match keep with Some k => k | None => _snap_keep_from_to_cycle_boundary events (length events - 1) end in
      if (k <=? S latest_turn_start)%nat then None else Some k
  | _ => None
  end.

(** Whole turns from the end, while they fit; the last one always does. *)
Fixpoint tail_turns (count : ustr → option Z) (events : list session_event) (most tail_token_budget : Z) (selected : option nat)
    (boundaries : list nat) : option nat :=
  match boundaries with
  | [] => selected
  | k :: boundaries =>
      let candidate := drop k events in
      let turns := Z.of_nat (length (filter (λ e, is_user_message e = true) candidate)) in
      if most <? turns then selected else
      match count (format_events_for_compaction candidate) with
      | None => None
      | Some n =>
          if (tail_token_budget <? n) && bool_decide (is_Some selected) then selected
          else if most <=? turns then Some k
          else tail_turns count events most tail_token_budget (Some k) boundaries
      end
  end.

Definition _token_budgeted_tail_start (count : ustr → option Z) (events : list session_event) (most tail_token_budget : Z) : option nat :=
  tail_turns count events most tail_token_budget None (reverse (user_event_indices events)).

Definition max_preserved_turns (preserve_turns : Z) : Z := Z.max 1 (if preserve_turns =? 0 then 1 else preserve_turns).

(** Without a budget, or when nothing can be counted. *)
Definition split_by_turns (events : list session_event) (most : Z) (latest : option nat) : list session_event * list session_event :=
  let indices := user_event_indices events in
  if Z.of_nat (length indices) <=? most then
    let preserve := Z.to_nat (Z.min (Z.max 50 (most * 20)) 200) in
    if (length events <=? preserve)%nat then ([], events) else
    _pin_latest_turn_admission events (_snap_keep_from_to_cycle_boundary events (length events - preserve)) latest
  else
    let keep_from := nth (length indices - Z.to_nat most) indices 0%nat in (take keep_from events, drop keep_from events).

Definition _split_events (events : list session_event) (preserve_turns : Z) (tail_token_budget : option Z) :
    list session_event * list session_event :=
  let most := max_preserved_turns preserve_turns in
  let latest := last (user_event_indices events) in
  match tail_token_budget, counter, latest with
  | Some budget, Some count, Some start =>
      if budget <=? 0 then split_by_turns events most latest else
      match _oversized_latest_turn_cut count events start budget with
      | Some cut => _pin_latest_turn_admission events cut latest
      | None =>
          match _token_budgeted_tail_start count events most budget with
          | Some k => _pin_latest_turn_admission events (_snap_keep_from_to_cycle_boundary events k) latest
          | None => split_by_turns events most latest
          end
      end
  | _, _, _ => split_by_turns events most latest
  end.

(** ** What the summarizer reads *)

Definition seq_or_0 (e : session_event) : Z := default 0 (e_seq e).

(** [sorted] by [seq]: events of the same number keep their order. *)
Fixpoint insert_event (e : session_event) (l : list session_event) : list session_event :=
  match l with [] => [e] | x :: l => if seq_or_0 e <=? seq_or_0 x then e :: x :: l else x :: insert_event e l end.

Definition sort_events : list session_event → list session_event := foldr insert_event [].

Definition earlier_than (n : Z) (e : session_event) : bool := match e_seq e with Some k => k <? n | None => false end.

(** [None]: a comparison of [seq] with [None] raises. *)
Definition _summary_input_events (older preserved : list session_event) : option (list session_event) :=
  match last older with
  | None => Some []
  | Some e =>
      match e_seq e with
      | None => Some older
      | Some n =>
          match filter (λ e, earlier_than n e = true) preserved with
          | [] => Some older
          | pinned => if forallb (λ e, bool_decide (is_Some (e_seq e))) (older ++ pinned)
                      then Some (sort_events (older ++ pinned)) else None
          end
      end
  end.

(** Where the tail goes on without a gap, and what was pinned before it. *)
Definition _tail_layout (preserved older : list session_event) : option Z * list Z :=
  let last_older := e ← last older; e_seq e in
  foldl (λ acc e,
    match e_seq e with
    | None => acc
    | Some n =>
        if match last_older with Some m => n <? m | None => false end then (acc.1, acc.2 ++ [n])
        else (match acc.1 with None => Some n | Some x => Some x end, acc.2)
    end) (None, []) preserved.
End Compaction.
