(* ===== verification/Rotation.v ===== *)
(** The tail of a compacted session in the session that continues it: read again from the old
    session's stream when the rotation was put off ([_read_tail_events] of
    [cognis/core/turn_scheduler.py]), copied into the new one ([_seed_rotated_tail_events] of
    [cognis/core/session.py]).

    Parameters: the two reads of the event stream, [None] when the read raises.  The stream's
    events have a type; one without data reads as having none. *)

From S2P Require Import Prelude Str PyVal Compaction.

(** ** Reading the tail again *)

Definition _TAIL_EVENT_TYPES : list string :=
  ["user_message"; "assistant_message"; "assistant_thinking"; "tool_call"; "tool_result"; "delegation"].

Definition _TailEvent (e : session_event) : session_event := Event (e_type e) (Some (default [] (e_data e))) (e_seq e).

Definition carried_forward (e : session_event) : bool := has_type _TAIL_EVENT_TYPES e || is_retry_admission_notice (_TailEvent e).

Section ReadTail.
Context (read_seqs : list Z → option (list session_event)) (read_after : Z → option (list session_event)).

Definition pinned_events (pinned_seqs : list Z) : option (list session_event) :=
  match pinned_seqs with
  | [] => Some []
  | _ =>
      events ← read_seqs (merge_sort Z.le (remove_dups pinned_seqs));
      if (length events =? length (remove_dups pinned_seqs))%nat then Some (_TailEvent <$> sort_events events) else None
  end.

(** [None]: nothing to carry, or the tail could not be read. *)
Definition _read_tail_events (tail_start_seq : Z) (pinned_seqs : list Z) : option (list session_event) :=
  pinned ← pinned_events pinned_seqs;
  events ← read_after (tail_start_seq - 1);
  match pinned ++ (_TailEvent <$> filter (λ e, carried_forward e = true) events) with [] => None | tail => Some tail end.
End ReadTail.

(** ** Seeding the new session *)

Definition INTARIS_APPENDABLE_EVENT_TYPES : list string :=
  ["assistant_message"; "assistant_thinking"; "checkpoint"; "compaction_summary"; "context_snapshot"; "delegation"; "developer_message";
   "evaluation"; "lifecycle"; "message"; "part"; "reasoning"; "system_message"; "tool_call"; "tool_result"; "transcript"; "user_message"].

Definition setdefault (k : string) (v : pyval) (d : pydict) : pydict := match od_get k d with Some _ => d | None => od_set k v d end.

Definition cloned_event (previous_session_id : string) (e : session_event) : option session_event :=
  d ← e_data e;
  if has_type INTARIS_APPENDABLE_EVENT_TYPES e then
    let d := setdefault "source_session_id" (PStr previous_session_id) (setdefault "compaction_tail" (PBool true) d) in
    Some (Event (e_type e) (Some (match e_seq e with Some n => setdefault "source_seq" (PInt n) d | None => d end)) None)
  else None.

Definition cloned_events (previous_session_id : string) (tail_events : list session_event) : list session_event :=
  omap (cloned_event previous_session_id) tail_events.

Definition batch_size : nat := 1000.

(** The copies in the batches they are recorded in, each under its own key. *)
Definition batches (cloned : list session_event) : list (list session_event) :=
  (λ i, take batch_size (drop (i * batch_size) cloned)) <$> seq 0 ((length cloned + (batch_size - 1)) / batch_size).

Definition batch_key (session_id previous_session_id : string) (count index : nat) : string :=
  let key := (session_id ++ ":compaction_tail:" ++ previous_session_id)%string in
  if (1 <? count)%nat then (key ++ ":batch:" ++ pretty (S index))%string else key.

Section Seed.
Context (record_events : string → list session_event → option bool) (session_id previous_session_id : string).

(** The batches recorded and put in the cache: a failure ends the loop ([None]), a refusal does not. *)
Fixpoint record_batches (count index : nat) (batches : list (list session_event)) : list (list session_event) :=
  match batches with
  | [] => []
  | batch :: batches =>
      match record_events (batch_key session_id previous_session_id count index) batch with
      | None => []
      | Some ok => (if ok then [batch] else []) ++ record_batches count (S index) batches
      end
  end.

Definition _seed_rotated_tail_events (tail_events : list session_event) : list (list session_event) :=
  let cloned := cloned_events previous_session_id tail_events in
  record_batches (length (batches cloned)) 0 (batches cloned).
End Seed.
