(* ===== verification/CompactionSpec.v ===== *)
(** What the split of a history guarantees: nothing is lost or reordered, the tail starts at the
    start of a tool cycle, keeps the latest turn's instructions, holds few enough turns and
    tokens, and is described by the layout recorded for it. *)

From S2P Require Import Prelude Str PyVal Compaction.

(** ** Cuts *)

(** A place no tool cycle reaches over: a boundary, and of a batch of calls the first. *)
Definition clean_cut (events : list session_event) (k : nat) : bool :=
  (k =? 0)%nat || at_place _is_compaction_tail_cycle_boundary events k && negb (at_place is_call_event events k && at_place is_call_event events (k - 1)).

Lemma has_type_one s e : has_type [s] e = true → e_type e = s.
Proof. unfold has_type. intros ->%bool_decide_eq_true%list_elem_of_singleton. done. Qed.

Lemma call_is_boundary events k : at_place is_call_event events k = true → at_place _is_compaction_tail_cycle_boundary events k = true.
Proof.
  unfold at_place. destruct (events !! k) as [e|]; [|done]. intros T%has_type_one.
  unfold _is_compaction_tail_cycle_boundary, has_type. by rewrite T.
Qed.

Lemma user_is_boundary events k :
  at_place is_user_message events k = true →
  at_place _is_compaction_tail_cycle_boundary events k = true ∧ at_place is_call_event events k = false.
Proof.
  unfold at_place. destruct (events !! k) as [e|]; [|done]. intros T%has_type_one.
  unfold is_call_event, _is_compaction_tail_cycle_boundary, has_type. by rewrite T.
Qed.

Lemma back_to_boundary_spec events k :
  let b := back_to_boundary events k in
  (b ≤ k)%nat ∧ (b = 0%nat ∨ at_place _is_compaction_tail_cycle_boundary events b = true).
Proof.
  cbn. induction k as [|k IH]; cbn [back_to_boundary]; [auto|].
  destruct (at_place _ events (S k)) eqn:B; [auto|]. destruct IH. split; [lia|done].
Qed.

Lemma back_over_calls_spec events k :
  let b := back_over_calls events k in
  (b ≤ k)%nat ∧ (b = k ∨ at_place is_call_event events b = true) ∧ (b = 0%nat ∨ at_place is_call_event events (b - 1) = false).
Proof.
  cbn. induction k as [|k IH]; cbn [back_over_calls]; [auto|].
  destruct (at_place _ events k) eqn:B; [|rewrite Nat.sub_succ, Nat.sub_0_r; auto].
  destruct IH as (? & D & ?). split_and!; [lia| |done]. right. destruct D as [->|]; done.
Qed.

Lemma snap_clean events k : clean_cut events (_snap_keep_from_to_cycle_boundary events k) = true.
Proof.
  unfold _snap_keep_from_to_cycle_boundary, clean_cut.
  destruct (back_to_boundary_spec events (Nat.min k (length events))) as [_ B]. set (b := back_to_boundary _ _) in *.
  destruct (at_place is_call_event events b) eqn:T.
  - destruct (back_over_calls_spec events b) as (_ & C & F). set (c := back_over_calls _ _) in *.
    assert (at_place is_call_event events c = true) as Tc by (destruct C as [->|]; done).
    destruct F as [->|F]; [done|]. rewrite (call_is_boundary _ _ Tc), Tc, F. apply orb_true_r.
  - destruct B as [-> | ->]; [done|]. rewrite T. apply orb_true_r.
Qed.

Lemma snap_le events k : (_snap_keep_from_to_cycle_boundary events k ≤ k)%nat.
Proof.
  unfold _snap_keep_from_to_cycle_boundary. destruct (back_to_boundary_spec events (Nat.min k (length events))) as [B _].
  destruct (at_place _ _ _); [pose proof (proj1 (back_over_calls_spec events (back_to_boundary events (Nat.min k (length events)))))|]; lia.
Qed.

Lemma user_clean events k : at_place is_user_message events k = true → clean_cut events k = true.
Proof. intros [B T]%user_is_boundary. unfold clean_cut. rewrite B, T. apply orb_true_r. Qed.

Lemma back_at_boundary events k : at_place _is_compaction_tail_cycle_boundary events k = true → back_to_boundary events k = k.
Proof. intros B. destruct k; cbn [back_to_boundary]; [done|]. by rewrite B. Qed.

Lemma at_place_lt p events k : at_place p events k = true → (k < length events)%nat.
Proof. unfold at_place. destruct (events !! k) eqn:L; [intros _; by eapply lookup_lt_Some|done]. Qed.

Lemma snap_user events k : at_place is_user_message events k = true → _snap_keep_from_to_cycle_boundary events k = k.
Proof.
  intros U. pose proof (at_place_lt _ _ _ U). apply user_is_boundary in U as [B T]. unfold _snap_keep_from_to_cycle_boundary.
  rewrite Nat.min_l, (back_at_boundary _ _ B), T by lia. done.
Qed.

(** ** The user messages of a history *)

Definition user_messages (events : list session_event) : nat := length (filter (λ e, is_user_message e = true) events).

Lemma elem_of_user_indices events k : k ∈ user_event_indices events ↔ at_place is_user_message events k = true.
Proof.
  unfold user_event_indices. rewrite list_elem_of_filter, elem_of_seq. split; [intros [U _]; by apply Is_true_true in U|].
  intros U. pose proof (at_place_lt _ _ _ U). split; [by apply Is_true_true|lia].
Qed.

Lemma user_indices_cons x events :
  user_event_indices (x :: events) = (if is_user_message x then [0%nat] else []) ++ (S <$> user_event_indices events).
Proof.
  unfold user_event_indices. cbn [length seq]. rewrite filter_cons. change (at_place is_user_message (x :: events) 0) with (is_user_message x).
  rewrite <- fmap_S_seq.
  assert (∀ l, filter (λ k, at_place is_user_message (x :: events) k) (S <$> l) = S <$> filter (λ k, at_place is_user_message events k) l) as ->.
  { intros l. induction l as [|k l IH]; [done|]. rewrite fmap_cons, !filter_cons, IH. unfold at_place. cbn.
    destruct (events !! k); [|done]. by destruct (is_user_message _). }
  by destruct (is_user_message x).
Qed.

Lemma user_messages_cons x events :
  user_messages (x :: events) = ((if is_user_message x then 1 else 0) + user_messages events)%nat.
Proof. unfold user_messages. rewrite filter_cons. by destruct (is_user_message x). Qed.

Lemma user_messages_app l l' : user_messages (l ++ l') = (user_messages l + user_messages l')%nat.
Proof. unfold user_messages. by rewrite filter_app, length_app. Qed.

#[export] Instance user_messages_proper : Proper ((≡ₚ) ==> eq) user_messages.
Proof. intros l l' E. unfold user_messages. by rewrite E. Qed.

Lemma user_messages_all events : user_messages events = length (user_event_indices events).
Proof.
  induction events as [|x events IH]; [done|]. rewrite user_messages_cons, user_indices_cons, length_app, length_fmap, IH.
  by destruct (is_user_message x).
Qed.

Lemma user_indices_count events i k :
  user_event_indices events !! i = Some k → user_messages (drop k events) = (length (user_event_indices events) - i)%nat.
Proof.
  revert i k. induction events as [|x events IH]; intros i k L; [done|]. pose proof (user_messages_all (x :: events)) as E.
  rewrite user_indices_cons in *. rewrite length_app, length_fmap in *. destruct (is_user_message x); cbn [app length] in *.
  - destruct i; cbn in L; [simplify_eq; rewrite drop_0; lia|]. apply list_lookup_fmap_Some in L as (k' & -> & L). cbn [drop].
    rewrite (IH _ _ L). lia.
  - apply list_lookup_fmap_Some in L as (k' & -> & L). cbn [drop]. by rewrite (IH _ _ L).
Qed.

Lemma latest_user_message events start :
  last (user_event_indices events) = Some start → at_place is_user_message events start = true ∧ user_messages (drop start events) = 1%nat.
Proof.
  intros L. split; [apply elem_of_user_indices, last_Some_elem_of, L|]. rewrite last_lookup in L. rewrite (user_indices_count _ _ _ L).
  apply lookup_lt_Some in L. lia.
Qed.

Lemma user_messages_drop events j k : (j ≤ k)%nat → (user_messages (drop k events) ≤ user_messages (drop j events))%nat.
Proof.
  intros. replace (drop k events) with (drop (k - j) (drop j events)) by (rewrite drop_drop; f_equal; lia).
  rewrite <- (take_drop (k - j) (drop j events)) at 2. rewrite user_messages_app. lia.
Qed.

Lemma after_latest events start k :
  last (user_event_indices events) = Some start → (start < k)%nat → user_messages (drop k events) = 0%nat.
Proof.
  intros [U C]%latest_user_message ?. enough (user_messages (drop (S start) events) = 0%nat) as E
    by (pose proof (user_messages_drop events (S start) k); lia).
  unfold at_place in U. destruct (events !! start) as [e|] eqn:L; [|done]. rewrite (drop_S _ _ _ L), user_messages_cons, U in C. lia.
Qed.

(** ** The two searches for a cut *)

Section Spec.
Context (format_events_for_compaction : list session_event → ustr) (dumps : pyval → ustr).
Context (counter : option (ustr → option Z)).

Notation prompt_text := (_event_prompt_text format_events_for_compaction dumps).

(** What replaying events costs, the pinned instructions apart. *)
Fixpoint replay_cost (count : ustr → option Z) (events : list session_event) : option Z :=
  match events with
  | [] => Some 0
  | e :: events => n ← replay_cost count events; if _is_turn_admission_event e then Some n else m ← count (prompt_text e); Some (n + m)
  end.

Lemma walk_back_spec count events budget first n cost keep c :
  (first + n ≤ length events)%nat →
  replay_cost count (drop (first + n) events) = Some cost →
  walk_back format_events_for_compaction dumps count events budget cost keep (reverse (seq first n)) = Some (Some c) →
  c = keep ∨
  ∃ k m, c = Some k ∧ (first ≤ k)%nat ∧ _snap_keep_from_to_cycle_boundary events k = k ∧ replay_cost count (drop k events) = Some m ∧ m ≤ budget.
Proof.
  revert cost keep. induction n as [|n IH]; intros cost keep Hn Hc; [done|].
  rewrite seq_S, reverse_snoc. cbn [walk_back]. destruct (events !! (first + n)%nat) as [e|] eqn:L; [|done].
  assert (replay_cost count (drop (first + n) events) = if _is_turn_admission_event e then Some cost else m ← count (prompt_text e); Some (cost + m))
    as C by (rewrite (drop_S _ _ _ L); cbn [replay_cost]; replace (S (first + n)) with (first + S n)%nat by lia; by rewrite Hc).
  rewrite <- C. destruct (replay_cost count (drop (first + n) events)) as [cost'|] eqn:R; cbn [mbind option_bind]; [|done].
  destruct (budget <? cost') eqn:B; [intros [= <-]; auto|]. intros W.
  destruct (_ && _) eqn:S in W; (apply IH in W; [|lia|done]).
  - destruct W as [->|?]; [right|auto]. exists (first + n)%nat, cost'. apply andb_true_iff in S as [_ S].
    apply Nat.eqb_eq in S. apply Z.ltb_ge in B. split_and!; try done; lia.
  - destruct W as [->|?]; auto.
Qed.

(** The cut inside the latest turn: what it leaves after the instructions fits the budget, or is
    the history's last cycle. *)
Lemma oversized_spec count events start budget k :
  _oversized_latest_turn_cut format_events_for_compaction dumps count events start budget = Some k →
  (S start < k)%nat ∧ clean_cut events k = true ∧ (k ≤ length events)%nat ∧
  (k = _snap_keep_from_to_cycle_boundary events (length events - 1) ∨
   ∃ r m, count (format_events_for_compaction (filter (λ e, _is_turn_admission_event e = true) (drop start events))) = Some r ∧
          replay_cost count (drop k events) = Some m ∧ r + m ≤ budget).
Proof.
  unfold _oversized_latest_turn_cut. destruct (count _) as [r|] eqn:R; [|done]. cbn [mbind option_bind].
  destruct (walk_back _ _ _ _ _ _ _ _) as [[c|]|] eqn:W; [|done|done].
  destruct (le_lt_dec (length events) (S start)) as [Hs|Hs].
  { replace (length events - S start)%nat with 0%nat in W by lia. done. }
  apply walk_back_spec in W; [|lia|by rewrite drop_ge by lia].
  destruct W as [->|(k' & m & -> & Hk & St & C & B)]; destruct (_ <=? S start)%nat eqn:G; try done; apply Nat.leb_gt in G; intros [= <-].
  - pose proof (snap_le events (length events - 1)). split_and!; [done|apply snap_clean|lia|auto].
  - split_and!; [done|rewrite <- St; apply snap_clean| |right; exists r, m; split_and!; done || lia].
    rewrite <- St. unfold _snap_keep_from_to_cycle_boundary.
    pose proof (proj1 (back_to_boundary_spec events (Nat.min k' (length events)))).
    pose proof (proj1 (back_over_calls_spec events (back_to_boundary events (Nat.min k' (length events))))). destruct (at_place _ _ _); lia.
Qed.

(** Whole turns from the end: few enough, and within the budget unless there is just one. *)
Lemma tail_turns_spec count events most budget selected boundaries k :
  tail_turns format_events_for_compaction count events most budget selected boundaries = Some k →
  selected = Some k ∨
  (k ∈ boundaries ∧ Z.of_nat (user_messages (drop k events)) ≤ most ∧
   ∃ n, count (format_events_for_compaction (drop k events)) = Some n ∧ (n ≤ budget ∨ selected = None ∧ head boundaries = Some k)).
Proof.
  revert selected. induction boundaries as [|b boundaries IH]; intros selected; cbn [tail_turns]; [auto|]. fold (user_messages (drop b events)).
  destruct (most <? _) eqn:M; [auto|]. apply Z.ltb_ge in M.
  destruct (count (format_events_for_compaction (drop b events))) as [n|] eqn:C; [|done].
  destruct (_ && _) eqn:B; [auto|]. apply andb_false_iff in B. rewrite Z.ltb_ge, bool_decide_eq_false in B.
  assert (b ∈ b :: boundaries ∧ Z.of_nat (user_messages (drop b events)) ≤ most ∧
          ∃ n, count (format_events_for_compaction (drop b events)) = Some n ∧ (n ≤ budget ∨ selected = None ∧ head (b :: boundaries) = Some b)) as Here.
  { split_and!; [left|done|exists n; split; [done|]]. destruct B as [?|B%eq_None_not_Some]; auto. }
  destruct (most <=? _); [intros [= <-]; auto|]. intros [[= <-]|(I & U & m & Cm & F)]%IH; [auto|right].
  split_and!; [by right|done|exists m; split; [done|]]. destruct F as [?|[? _]]; [auto|done].
Qed.

Lemma tail_turns_some count events most budget selected boundaries :
  (∀ s, is_Some (count s)) → is_Some selected → is_Some (tail_turns format_events_for_compaction count events most budget selected boundaries).
Proof.
  intros Total. revert selected. induction boundaries as [|b boundaries IH]; intros selected S; cbn [tail_turns]; [done|].
  destruct (most <? _); [done|]. destruct (Total (format_events_for_compaction (drop b events))) as [n ->].
  destruct (_ && _); [done|]. destruct (most <=? _); [done|]. by apply IH.
Qed.

Lemma tail_start_some count events most budget start :
  (∀ s, is_Some (count s)) → 1 ≤ most → last (user_event_indices events) = Some start →
  is_Some (_token_budgeted_tail_start format_events_for_compaction count events most budget).
Proof.
  intros Total Hm S. unfold _token_budgeted_tail_start. apply last_Some in S as S'. destruct S' as [l E]. rewrite E, reverse_snoc.
  apply latest_user_message in S as [_ C]. cbn [tail_turns]. fold (user_messages (drop start events)). rewrite C.
  destruct (most <? _) eqn:M; [apply Z.ltb_lt in M; lia|]. destruct (Total (format_events_for_compaction (drop start events))) as [n ->].
  rewrite andb_false_r. destruct (most <=? _); [done|]. by apply tail_turns_some.
Qed.

(** ** The split is a cut and a pin *)

Notation split_events := (_split_events format_events_for_compaction dumps counter).

(** How the tail stands to the budget. *)
Definition within (count : ustr → option Z) (events : list session_event) (start : nat) (budget : Z) (k : nat) : Prop :=
  (∃ n, count (format_events_for_compaction (drop k events)) = Some n ∧ (n ≤ budget ∨ k = start)) ∨
  (S start < k)%nat ∧
  (k = _snap_keep_from_to_cycle_boundary events (length events - 1) ∨
   ∃ r m, count (format_events_for_compaction (filter (λ e, _is_turn_admission_event e = true) (drop start events))) = Some r ∧
          replay_cost count (drop k events) = Some m ∧ r + m ≤ budget).

Definition few_turns (events : list session_event) (most : Z) (k : nat) : Prop :=
  (∃ start, last (user_event_indices events) = Some start ∧ (start < k)%nat) ∨ Z.of_nat (user_messages (drop k events)) ≤ most.

Lemma split_by_turns_is_pin events most :
  1 ≤ most →
  ∃ k, split_by_turns events most (last (user_event_indices events)) = _pin_latest_turn_admission events k (last (user_event_indices events)) ∧
       clean_cut events k = true ∧ (k ≤ length events)%nat ∧ few_turns events most k.
Proof.
  intros Hm. unfold split_by_turns, few_turns. set (idx := user_event_indices events). destruct (_ <=? most) eqn:L.
  - apply Z.leb_le in L. unfold idx in L. rewrite <- user_messages_all in L. destruct (_ <=? _)%nat eqn:P.
    + exists 0%nat. split_and!; [|done|lia|by right]. unfold _pin_latest_turn_admission. destruct (last idx); by rewrite take_0, drop_0.
    + eexists. split_and!; [done|apply snap_clean| |right].
      * pose proof (snap_le events (length events - Z.to_nat (Z.min (Z.max 50 (most * 20)) 200))). lia.
      * pose proof (user_messages_drop events 0 (_snap_keep_from_to_cycle_boundary events (length events - Z.to_nat (Z.min (Z.max 50 (most * 20)) 200)))).
        rewrite drop_0 in *. lia.
  - apply Z.leb_gt in L. destruct (nth_lookup_or_length idx (length idx - Z.to_nat most) 0%nat) as [N|]; [|lia].
    set (k := nth _ _ _) in *. pose proof (user_indices_count _ _ _ N) as C. fold idx in C.
    pose proof (list_elem_of_lookup_2 _ _ _ N) as U%elem_of_user_indices. exists k. split_and!; [|by apply user_clean| |right; lia].
    + unfold _pin_latest_turn_admission. destruct (last idx) as [start|] eqn:S; [|done].
      destruct (k <=? start)%nat eqn:G; [done|]. apply Nat.leb_gt in G. pose proof (after_latest _ _ _ S G). lia.
    + apply at_place_lt in U. lia.
Qed.

Lemma latest_few events most start : 1 ≤ most → last (user_event_indices events) = Some start → few_turns events most start.
Proof. intros ? [_ C]%latest_user_message. right. lia. Qed.

Lemma max_preserved_turns_pos n : 1 ≤ max_preserved_turns n.
Proof. unfold max_preserved_turns. lia. Qed.

Lemma split_is_pin events preserve_turns tail_token_budget :
  ∃ k, split_events events preserve_turns tail_token_budget = _pin_latest_turn_admission events k (last (user_event_indices events)) ∧
       clean_cut events k = true ∧ (k ≤ length events)%nat ∧ few_turns events (max_preserved_turns preserve_turns) k ∧
       ∀ budget count start, tail_token_budget = Some budget → 0 < budget → counter = Some count → (∀ s, is_Some (count s)) →
         last (user_event_indices events) = Some start → within count events start budget k.
Proof.
  pose proof (max_preserved_turns_pos preserve_turns) as Hm. unfold _split_events. set (most := max_preserved_turns _) in *.
  destruct (split_by_turns_is_pin events most Hm) as (kt & Et & Ct & Lt & Ft).
  destruct tail_token_budget as [budget|]; [|exists kt; split_and!; done]. destruct counter as [count|]; [|exists kt; split_and!; done].
  destruct (last _) as [start|] eqn:S; [|exists kt; split_and!; done].
  destruct (budget <=? 0) eqn:B; [exists kt; split_and!; [done..|]; intros; simplify_eq; lia|].
  destruct (_oversized_latest_turn_cut _ _ _ _ _ _) as [k|] eqn:O.
  - apply oversized_spec in O as (G & C & L & W). exists k. split_and!; [done..| |].
    + left. exists start. split; [done|lia].
    + intros ??? [= <-] ? [= <-] ? [= <-]. right. auto.
  - destruct (_token_budgeted_tail_start _ _ _ _ _) as [k|] eqn:T.
    + apply tail_turns_spec in T as [|(I & U & n & Cn & F)]; [done|]. rewrite elem_of_reverse in I. apply elem_of_user_indices in I.
      rewrite (snap_user _ _ I). exists k. split_and!; [done|by apply user_clean|apply at_place_lt in I; lia|by right|].
      intros ??? [= <-] ? [= <-] ? [= <-]. left. exists n. split; [done|]. destruct F as [?|[_ F]]; [auto|right].
      rewrite <- last_reverse, reverse_involutive in F. congruence.
    + exists kt. split_and!; [done..|]. intros ??? [= <-] ? [= <-] Total [= <-]. exfalso.
      destruct (tail_start_some count events most budget start Total Hm S) as [k E]. congruence.
Qed.

(** ** The parts of a split *)

Notation admissions := (filter (λ e, _is_turn_admission_event e = true)).
Notation others := (filter (λ e, _is_turn_admission_event e = false)).

Lemma admissions_others (l : list session_event) : others l ++ admissions l ≡ₚ l.
Proof.
  induction l as [|e l IH]; [done|]. rewrite !filter_cons. destruct (_is_turn_admission_event e); repeat case_decide; try done.
  - by rewrite <- Permutation_middle, IH.
  - cbn [app]. by rewrite IH.
Qed.

Lemma admissions_twice (l : list session_event) : admissions (admissions l) = admissions l.
Proof. rewrite list_filter_filter. by apply list_filter_iff; intros e; split; [intros []|]. Qed.

Definition turn_part (events : list session_event) (latest : option nat) (k : nat) : list session_event :=
  match latest with Some start => drop start (take k events) | None => [] end.

Lemma pin_shape events k latest :
  ∃ front, events = front ++ turn_part events latest k ++ drop k events ∧
  _pin_latest_turn_admission events k latest =
    (front ++ others (turn_part events latest k), admissions (turn_part events latest k) ++ drop k events).
Proof.
  assert (events = take k events ++ [] ++ drop k events ∧
          (take k events, drop k events) = (take k events ++ others [], admissions [] ++ drop k events)) as Plain
    by (rewrite app_nil_r; cbn [app]; by rewrite take_drop).
  unfold _pin_latest_turn_admission, turn_part. destruct latest as [start|]; [|by exists (take k events)].
  destruct (k <=? start)%nat eqn:G.
  - apply Nat.leb_le in G. rewrite drop_ge by (rewrite length_take; lia). by exists (take k events).
  - apply Nat.leb_gt in G. exists (take start events). split; [|done].
    rewrite app_assoc, <- (take_drop k events) at 1. f_equal.
    rewrite <- (take_drop start (take k events)) at 1. by rewrite take_take, Nat.min_l by lia.
Qed.

Lemma pin_partition events k latest older kept :
  _pin_latest_turn_admission events k latest = (older, kept) →
  older ++ kept ≡ₚ events ∧ sublist older events ∧ sublist kept events.
Proof.
  destruct (pin_shape events k latest) as (front & E & ->). intros [= <- <-]. set (turn := turn_part _ _ _) in *.
  set (rest := drop k events) in *. rewrite E. split_and!.
  - by rewrite <- app_assoc, (app_assoc (others _)), admissions_others.
  - apply sublist_app; [done|]. apply sublist_inserts_r, sublist_filter.
  - apply sublist_inserts_l, sublist_app; [apply sublist_filter|done].
Qed.

(** ** The theorems *)

(** The split of a history is a partition: no event is lost, none is in both parts, and each
    part keeps the order of the history. *)
Theorem split_keeps_every_event events preserve_turns tail_token_budget :
  let '(older, kept) := split_events events preserve_turns tail_token_budget in
  older ++ kept ≡ₚ events ∧ sublist older events ∧ sublist kept events.
Proof.
  destruct (split_is_pin events preserve_turns tail_token_budget) as (k & -> & _).
  destruct (_pin_latest_turn_admission _ _ _) eqn:E. by eapply pin_partition.
Qed.

(** The instructions of the latest turn, its user message and the notices of its retries, stay
    verbatim: they are in the tail, in order, and end its list of instructions. *)
Theorem latest_instructions_are_kept events preserve_turns tail_token_budget start :
  last (user_event_indices events) = Some start →
  ∃ before, admissions (split_events events preserve_turns tail_token_budget).2 = before ++ admissions (drop start events).
Proof.
  intros S. destruct (split_is_pin events preserve_turns tail_token_budget) as (k & -> & _). rewrite S.
  unfold _pin_latest_turn_admission. destruct (k <=? start)%nat eqn:G; cbn [snd].
  - apply Nat.leb_le in G. exists (admissions (drop k (take start events))). by rewrite <- filter_app, drop_take_drop.
  - apply Nat.leb_gt in G. exists []. cbn [app]. rewrite <- (drop_take_drop events start k), !filter_app by lia. by rewrite admissions_twice.
Qed.

Lemma kept_at events k latest i e :
  events !! i = Some e → (k ≤ i)%nat → e ∈ (_pin_latest_turn_admission events k latest).2.
Proof.
  intros L Hi. destruct (pin_shape events k latest) as (front & _ & ->). cbn [snd]. apply elem_of_app. right.
  apply list_elem_of_lookup. exists (i - k)%nat. rewrite lookup_drop. by replace (k + (i - k))%nat with i by lia.
Qed.

Lemma kept_where events k latest i e :
  NoDup events → events !! i = Some e → _is_turn_admission_event e = false →
  e ∈ (_pin_latest_turn_admission events k latest).2 → (k ≤ i)%nat.
Proof.
  intros ND L A. destruct (pin_shape events k latest) as (front & _ & ->). cbn [snd].
  rewrite elem_of_app, list_elem_of_filter. intros [[? _]|[j Lj]%list_elem_of_lookup]; [congruence|].
  rewrite lookup_drop in Lj. pose proof (NoDup_lookup _ _ _ _ ND L Lj). lia.
Qed.

Lemma at_place_app p l l' n : at_place p (l ++ l') (length l + n) = at_place p l' n.
Proof. unfold at_place. rewrite lookup_app_r by lia. by replace (length l + n - length l)%nat with n by lia. Qed.

Lemma at_place_forallb p l l' n : forallb p l = true → (n < length l)%nat → at_place p (l ++ l') n = true.
Proof.
  intros F N. unfold at_place. rewrite lookup_app_l by done. destruct (lookup_lt_is_Some_2 l n N) as [e L]. rewrite L.
  rewrite forallb_forall in F. by apply F, list_elem_of_In, list_elem_of_lookup_2 with n.
Qed.

Lemma at_place_existsb p l l' n : existsb p l = false → (n < length l)%nat → at_place p (l ++ l') n = false.
Proof.
  intros F N. unfold at_place. rewrite lookup_app_l by done. destruct (lookup_lt_is_Some_2 l n N) as [e L]. rewrite L.
  apply not_true_iff_false. intros P. apply not_true_iff_false in F. apply F. apply existsb_exists. exists e.
  split; [|done]. by apply list_elem_of_In, list_elem_of_lookup_2 with n.
Qed.

(** No cut is clean between a batch of calls and the end of its cycle. *)
Lemma cycle_is_not_cut before batch rest after n :
  forallb is_call_event batch = true → existsb _is_compaction_tail_cycle_boundary rest = false →
  (0 < n < length batch + length rest)%nat → clean_cut (before ++ batch ++ rest ++ after) (length before + n) = false.
Proof.
  intros B R N. unfold clean_cut. replace (length before + n - 1)%nat with (length before + (n - 1))%nat by lia. rewrite !at_place_app.
  destruct (_ =? 0)%nat eqn:Z; [apply Nat.eqb_eq in Z; lia|]. cbn [orb].
  destruct (decide (n < length batch)%nat) as [Hn|Hn].
  - rewrite (at_place_forallb is_call_event batch _ n), (at_place_forallb is_call_event batch _ (n - 1)) by (done || lia). apply andb_false_r.
  - replace n with (length batch + (n - length batch))%nat at 1 by lia. rewrite at_place_app, at_place_existsb by (done || lia). done.
Qed.


(** The tail holds at most [preserve_turns] turns, and at most one if that is not positive. *)
Theorem kept_turns_are_bounded events preserve_turns tail_token_budget :
  Z.of_nat (user_messages (split_events events preserve_turns tail_token_budget).2) ≤ Z.max 1 preserve_turns.
Proof.
  destruct (split_is_pin events preserve_turns tail_token_budget) as (k & -> & _ & _ & F & _).
  assert (max_preserved_turns preserve_turns ≤ Z.max 1 preserve_turns) as M by (unfold max_preserved_turns; case_match; lia).
  pose proof (max_preserved_turns_pos preserve_turns) as Hm. destruct (pin_shape events k (last (user_event_indices events))) as (front & E & ->).
  cbn [snd]. rewrite user_messages_app. assert (∀ l : list session_event, (user_messages (admissions l) ≤ user_messages l)%nat) as Fewer.
  { intros l. rewrite <- (admissions_others l) at 2. rewrite user_messages_app. lia. }
  specialize (Fewer (turn_part events (last (user_event_indices events)) k)).
  assert (user_messages (turn_part events (last (user_event_indices events)) k) + user_messages (drop k events) ≤
          Z.to_nat (max_preserved_turns preserve_turns))%nat; [|lia].
  rewrite <- user_messages_app. unfold turn_part. destruct (last _) as [start|] eqn:S.
  - destruct (decide (k ≤ start)%nat).
    + rewrite drop_ge by (rewrite length_take; lia). cbn [app]. destruct F as [(s & Es & ?)|F]; [|lia]. rewrite S in Es. simplify_eq. lia.
    + rewrite drop_take_drop by lia. apply latest_user_message in S as [_ ->]. lia.
  - cbn [app]. destruct F as [(s & Es & _)|F]; [congruence|lia].
Qed.

End Spec.

(** ** Numbered histories *)

(** The stream numbers its events in order. *)
Definition numbered (events : list session_event) : Prop :=
  Forall (λ e, is_Some (e_seq e)) events ∧ StronglySorted (λ x y, seq_or_0 x < seq_or_0 y) events.

Lemma sorted_sublist {A} (R : A → A → Prop) l l' : sublist l l' → StronglySorted R l' → StronglySorted R l.
Proof.
  induction 1 as [|x l l' Sub IH|x l l' _ IH]; intros S; [constructor|apply StronglySorted_inv in S as [S F]..].
  - constructor; [by apply IH|]. rewrite Forall_forall in *. intros y Hy. apply F. by eapply elem_of_sublist; [|exact Sub].
  - by apply IH.
Qed.

Lemma numbered_sublist l l' : sublist l l' → numbered l' → numbered l.
Proof.
  intros Sub [F S]. split; [|by eapply sorted_sublist]. rewrite Forall_forall in *. intros e He. apply F.
  by eapply elem_of_sublist; [|exact Sub].
Qed.

Lemma numbered_inj events x y : numbered events → x ∈ events → y ∈ events → seq_or_0 x = seq_or_0 y → x = y.
Proof.
  intros [_ S]. induction S as [|z l S IH F]; [intros ?%not_elem_of_nil; done|]. rewrite Forall_forall in F.
  rewrite !elem_of_cons. intros [->|Hx] [->|Hy] E; [done|by apply F in Hy; lia|by apply F in Hx; lia|by apply IH].
Qed.

Lemma numbered_nodup events : numbered events → NoDup events.
Proof.
  intros [_ S]. induction S as [|z l S IH F]; constructor; [|done]. rewrite Forall_forall in F. intros Hz%F. lia.
Qed.

Lemma sorted_weaken l : StronglySorted (λ x y, seq_or_0 x < seq_or_0 y) l → StronglySorted (λ x y, seq_or_0 x ≤ seq_or_0 y) l.
Proof. induction 1 as [|z l S IH F]; constructor; [done|]. eapply Forall_impl; [exact F|]. cbn. lia. Qed.

Lemma insert_event_perm e l : insert_event e l ≡ₚ e :: l.
Proof. induction l as [|x l IH]; cbn; [done|]. destruct (_ <=? _); [done|]. rewrite IH. constructor. Qed.

Lemma sort_events_perm l : sort_events l ≡ₚ l.
Proof. induction l as [|x l IH]; [done|]. unfold sort_events in *. cbn. by rewrite insert_event_perm, IH. Qed.

Lemma insert_event_sorted e l :
  StronglySorted (λ x y, seq_or_0 x ≤ seq_or_0 y) l → StronglySorted (λ x y, seq_or_0 x ≤ seq_or_0 y) (insert_event e l).
Proof.
  induction 1 as [|x l S IH F]; cbn; [repeat constructor|]. destruct (_ <=? _) eqn:L.
  - apply Z.leb_le in L. constructor; [by constructor|]. constructor; [done|]. eapply Forall_impl; [exact F|]. cbn. lia.
  - apply Z.leb_gt in L. constructor; [done|]. rewrite insert_event_perm. constructor; [lia|done].
Qed.

Lemma sort_events_sorted l : StronglySorted (λ x y, seq_or_0 x ≤ seq_or_0 y) (sort_events l).
Proof. induction l as [|x l IH]; [constructor|]. by apply insert_event_sorted. Qed.

(** Sorting brings numbered events back to their order. *)
Lemma sort_numbered l l' : l ≡ₚ l' → numbered l' → sort_events l = l'.
Proof.
  intros P N. apply (StronglySorted_unique_strong (λ x y, seq_or_0 x ≤ seq_or_0 y)).
  - intros x y Hx Hy ??. apply (numbered_inj l'); [done| |done|lia]. by rewrite <- P, <- (sort_events_perm l).
  - apply sort_events_sorted.
  - apply sorted_weaken, N.
  - by rewrite sort_events_perm.
Qed.

Lemma numbered_ext l l' : numbered l → numbered l' → (∀ e, e ∈ l ↔ e ∈ l') → l = l'.
Proof.
  intros N N' E. rewrite <- (sort_numbered l l), <- (sort_numbered l l') by (done || apply NoDup_Permutation; auto using numbered_nodup). done.
Qed.

Lemma numbered_app l l' :
  numbered (l ++ l') ↔ numbered l ∧ numbered l' ∧ (∀ x y, x ∈ l → y ∈ l' → seq_or_0 x < seq_or_0 y).
Proof. unfold numbered. rewrite Forall_app, StronglySorted_app. split; intros; destruct_and!; eauto 10. Qed.

Lemma numbered_filter (P : session_event → Prop) `{∀ e, Decision (P e)} l : numbered l → numbered (filter P l).
Proof. apply numbered_sublist, sublist_filter. Qed.

(** ** The two parts of a numbered history *)

(** Whether an event's number is below [m]. *)
Definition below (m : option Z) (e : session_event) : bool := match m with Some m => earlier_than m e | None => false end.

Lemma earlier_spec e m : is_Some (e_seq e) → earlier_than m e = true ↔ seq_or_0 e < m.
Proof. intros [n En]. unfold earlier_than, seq_or_0. rewrite En. apply Z.ltb_lt. Qed.

Definition last_seq (older : list session_event) : option Z := e ← last older; e_seq e.

Notation pinned older := (filter (λ e, below (last_seq older) e = true)).
Notation unpinned older := (filter (λ e, below (last_seq older) e = false)).

Lemma tail_layout_spec kept older :
  Forall (λ e, is_Some (e_seq e)) kept →
  _tail_layout kept older = (head (seq_or_0 <$> unpinned older kept), seq_or_0 <$> pinned older kept).
Proof.
  unfold _tail_layout. fold (last_seq older). generalize (last_seq older). intros m F.
  assert (∀ acc, foldl (λ acc e, match e_seq e with None => acc | Some n =>
        if match m with Some m => n <? m | None => false end then (acc.1, acc.2 ++ [n])
        else (match acc.1 with None => Some n | Some x => Some x end, acc.2) end) acc kept =
    (match acc.1 with Some x => Some x | None => head (seq_or_0 <$> filter (λ e, below m e = false) kept) end,
     acc.2 ++ (seq_or_0 <$> filter (λ e, below m e = true) kept))) as G; [|by rewrite G].
  induction F as [|e kept [n En] F IH]; intros [t ps]; cbn [foldl]; [cbn; rewrite app_nil_r; by destruct t|].
  assert (seq_or_0 e = n) as Es by (unfold seq_or_0; by rewrite En).
  assert (match m with Some m => n <? m | None => false end = below m e) as B by (unfold below, earlier_than; by rewrite En).
  rewrite En, !filter_cons, IH, B, <- Es. destruct (below m e); repeat case_decide; try done; cbn [fst snd].
  - by rewrite fmap_cons, <- app_assoc.
  - f_equal. by destruct t.
Qed.

Section Numbered.
Context (events older kept : list session_event).
Context (Split : older ++ kept ≡ₚ events) (Older : sublist older events) (Kept : sublist kept events) (N : numbered events).

Lemma older_below_last e m : last_seq older = Some m → e ∈ older → seq_or_0 e ≤ m.
Proof.
  unfold last_seq. destruct (last older) as [o|] eqn:L; [|done]. cbn. intros So He.
  assert (seq_or_0 o = m) as <- by (unfold seq_or_0; by rewrite So). apply last_Some in L as [l ->].
  destruct (numbered_sublist _ _ Older N) as [_ S]. apply elem_of_app in He as [He| ->%list_elem_of_singleton]; [|lia].
  apply Z.lt_le_incl. by apply (StronglySorted_app_1_elem_of _ _ _ _ _ S He), list_elem_of_singleton.
Qed.

Lemma parts_apart e : e ∈ older → e ∈ kept → False.
Proof.
  pose proof (numbered_nodup _ N) as ND. rewrite <- Split in ND. apply NoDup_app in ND as (_ & D & _).
  intros Ho Hk. by apply (D e).
Qed.

Lemma last_is_older m : last_seq older = Some m → ∃ o, o ∈ older ∧ seq_or_0 o = m.
Proof.
  unfold last_seq. destruct (last older) as [o|] eqn:L; [|done]. cbn. intros So. exists o.
  split; [by apply last_Some_elem_of|]. unfold seq_or_0. by rewrite So.
Qed.

(** Up to the last summarized event: the summarized ones and the kept ones before it. *)
Lemma up_to_last e m :
  last_seq older = Some m → e ∈ older ++ pinned older kept ↔ seq_or_0 e ≤ m ∧ e ∈ events.
Proof.
  intros L. rewrite <- Split, !elem_of_app, list_elem_of_filter, L. cbn [below].
  assert (e ∈ kept → is_Some (e_seq e)) as Num.
  { intros H. destruct N as [All _]. rewrite Forall_forall in All. apply All. by rewrite <- Split, elem_of_app; right. }
  split.
  - intros [H|[H Hk]]; [split; [by eapply older_below_last|auto]|apply earlier_spec in H; [|auto]; split; [lia|auto]].
  - intros [H [?|Hk]]; [auto|right; split; [|done]]. apply earlier_spec; [auto|]. destruct (decide (seq_or_0 e = m)) as [E|]; [|lia].
    destruct (last_is_older _ L) as (o & Ho & <-). exfalso. apply (parts_apart o); [done|].
    replace o with e; [done|]. apply (numbered_inj events); [done|by rewrite <- Split, elem_of_app; auto..|done].
Qed.

Lemma summary_input_of_split :
  _summary_input_events older kept =
    Some (match last_seq older with Some m => filter (λ e, seq_or_0 e ≤ m) events | None => [] end).
Proof.
  unfold _summary_input_events. destruct N as [All _]. destruct (last older) as [o|] eqn:L; [|unfold last_seq; by rewrite L].
  destruct (last_seq older) as [m|] eqn:Lm.
  2: { exfalso. unfold last_seq in Lm. rewrite L in Lm. cbn in Lm. rewrite Forall_forall in All.
       destruct (All o) as [n Eo]; [|congruence]. eapply elem_of_sublist; [|exact Older]. by apply last_Some_elem_of. }
  assert (e_seq o = Some m) as -> by (unfold last_seq in Lm; by rewrite L in Lm).
  assert (sort_events (older ++ pinned older kept) = filter (λ e, seq_or_0 e ≤ m) events) as E.
  { assert (numbered (filter (λ e, seq_or_0 e ≤ m) events)) as Nf by (by apply numbered_filter).
    apply sort_numbered; [|done]. apply NoDup_Permutation; [|by apply numbered_nodup|].
    - pose proof (numbered_nodup _ N) as ND. rewrite <- Split in ND. apply NoDup_app in ND as (? & D & ?).
      apply NoDup_app. split_and!; [done| |by apply NoDup_filter]. intros e He [_ Hk]%list_elem_of_filter. by apply (D e).
    - intros e. rewrite list_elem_of_filter. by apply up_to_last. }
  rewrite Lm in E. cbn [below] in E. destruct (filter (λ e, earlier_than m e = true) kept) as [|p pins] eqn:F.
  - rewrite app_nil_r, (sort_numbered older older) in E; [by rewrite E|done|by eapply numbered_sublist].
  - rewrite <- F in *. replace (forallb _ _) with true; [by rewrite E|]. symmetry. apply forallb_forall.
    intros e He%list_elem_of_In. apply bool_decide_eq_true. rewrite Forall_forall in All. apply All. rewrite <- Split.
    apply elem_of_app in He as [?|[_ ?]%list_elem_of_filter]; apply elem_of_app; auto.
Qed.

Lemma last_seq_some : older ≠ [] → is_Some (last_seq older).
Proof.
  intros NE. unfold last_seq. destruct (last older) as [o|] eqn:L; [|by apply last_None in L]. cbn.
  destruct N as [All _]. rewrite Forall_forall in All. apply All. eapply elem_of_sublist; [by apply last_Some_elem_of|exact Older].
Qed.

Lemma older_in_prefix m : last_seq older = Some m → (length older ≤ length (filter (λ e, (seq_or_0 e ≤ m)%Z) events))%nat.
Proof.
  intros L. apply submseteq_length, NoDup_submseteq; [by eapply sublist_NoDup; [apply numbered_nodup, N|exact Older]|].
  intros e He. apply list_elem_of_filter, up_to_last; [done|]. apply elem_of_app. auto.
Qed.

Lemma kept_numbered : numbered kept.
Proof. by eapply numbered_sublist. Qed.

Lemma kept_pinned_first : kept = pinned older kept ++ unpinned older kept.
Proof.
  pose proof kept_numbered as Nk. apply numbered_ext; [done| |].
  - apply numbered_app. split_and!; [by apply numbered_filter..|]. intros x y [Bx Hx]%list_elem_of_filter [By Hy]%list_elem_of_filter.
    destruct Nk as [All _]. rewrite Forall_forall in All. destruct (last_seq older) as [m|]; [|done]. cbn [below] in *.
    apply earlier_spec in Bx; [|auto]. apply not_true_iff_false in By. rewrite earlier_spec in By by auto. lia.
  - intros e. rewrite elem_of_app, !list_elem_of_filter. destruct (below _ e); split; intros; destruct_or?; destruct_and?; auto.
Qed.
End Numbered.

Section Parts.
Context (format_events_for_compaction : list session_event → ustr) (dumps : pyval → ustr).
Context (counter : option (ustr → option Z)).

Notation split_events := (_split_events format_events_for_compaction dumps counter).

(** The summarizer reads the history up to the last summarized event, in order: the summarized
    events with the pinned instructions back in their places. *)
Theorem summary_reads_the_prefix events preserve_turns tail_token_budget older kept :
  numbered events → split_events events preserve_turns tail_token_budget = (older, kept) →
  _summary_input_events older kept =
    Some (match last_seq older with Some m => filter (λ e, seq_or_0 e ≤ m) events | None => [] end).
Proof.
  intros N S. destruct (split_is_pin format_events_for_compaction dumps counter events preserve_turns tail_token_budget) as (k & E & _).
  rewrite S in E. symmetry in E. apply pin_partition in E as (P & O & K). by apply summary_input_of_split.
Qed.

(** Past the cut, every event comes after the summarized ones. *)
Lemma past_the_cut events k latest e :
  numbered events → e ∈ drop k events → below (last_seq (_pin_latest_turn_admission events k latest).1) e = false.
Proof.
  intros N He. destruct (pin_shape events k latest) as (front & E & ->). cbn [fst]. set (turn := turn_part events latest k) in *.
  assert (numbered (drop k events)) as [Nd _] by (eapply numbered_sublist; [apply sublist_drop|done]). rewrite Forall_forall in Nd.
  apply not_true_iff_false. intros B. destruct (last_seq _) as [m|] eqn:L; [|done]. cbn [below] in B. apply earlier_spec in B; [|auto].
  apply last_is_older in L as (o & Ho & <-). rewrite E, app_assoc in N. apply numbered_app in N as (_ & _ & Lt).
  specialize (Lt o e). rewrite elem_of_app in Lt. apply elem_of_app in Ho as [Ho|[_ Ho]%list_elem_of_filter]; specialize (Lt ltac:(auto) He); lia.
Qed.

(** The kept events before the last summarized one are instructions. *)
Lemma pinned_are_admissions events k latest older kept e :
  numbered events → _pin_latest_turn_admission events k latest = (older, kept) → e ∈ pinned older kept → _is_turn_admission_event e = true.
Proof.
  intros N P [B He]%list_elem_of_filter. pose proof (past_the_cut events k latest e N) as Past. rewrite P in Past.
  destruct (pin_shape events k latest) as (front & _ & P'). rewrite P in P'. injection P' as _ ->.
  apply elem_of_app in He as [[? _]%list_elem_of_filter|He]; [done|]. apply Past in He. cbn [fst] in He. congruence.
Qed.

(** A history leaves a tail that starts somewhere. *)
Lemma unpinned_start events k latest older kept :
  numbered events → events ≠ [] → clean_cut events k = true → _pin_latest_turn_admission events k latest = (older, kept) →
  ∃ e, head (unpinned older kept) = Some e.
Proof.
  intros N NE C P. destruct (unpinned older kept) as [|e l] eqn:U; [exfalso|by exists e].
  assert (∃ e, events !! k = Some e) as [e Le].
  { unfold clean_cut in C. apply orb_true_iff in C as [->%Nat.eqb_eq|[B _]%andb_true_iff].
    - destruct events as [|e ?]; [done|by exists e].
    - apply at_place_lt in B. by apply lookup_lt_is_Some_2 in B. }
  pose proof (kept_at events k latest k e Le ltac:(lia)) as He. rewrite P in He.
  assert (e ∈ drop k events) as Hd by (apply list_elem_of_lookup; exists 0%nat; rewrite lookup_drop; by replace (k + 0)%nat with k by lia).
  apply (past_the_cut events k latest e N) in Hd. rewrite P in Hd.
  assert (e ∈ unpinned older kept) as H by (by apply list_elem_of_filter). rewrite U in H. by apply not_elem_of_nil in H.
Qed.
End Parts.

(** ** A concrete history *)

Definition demo_format (events : list session_event) : ustr := concat ((λ e, u (e_type e) ++ [LF]) <$> events).
Definition demo_dumps (_ : pyval) : ustr := u "?".
Definition demo_count (s : ustr) : option Z := Some (Z.of_nat (length s)).

Definition says (kind : string) (seq : Z) (text : string) : session_event := Event kind (Some [("content", PStr text)]) (Some seq).
Definition retry_notice (seq : Z) : session_event :=
  Event "system_message" (Some [("event", PStr "system_notice"); ("kind", PStr "model_recovery"); ("scope", PStr "turn")]) (Some seq).

Definition demo_events : list session_event :=
  [says "user_message" 1 "hi"; says "assistant_message" 2 "hello"; says "user_message" 3 "list the files"; says "tool_call" 4 "ls";
   says "tool_result" 5 "a b c d e f g h i j k l m n o p q r s t u v w x y z"; retry_notice 6; says "tool_call" 7 "cat a";
   says "tool_call" 8 "cat b"; says "tool_result" 9 "A"; says "tool_result" 10 "B"; says "assistant_message" 11 "Two files."].

Definition demo_split : list session_event * list session_event :=
  _split_events demo_format demo_dumps (Some demo_count) demo_events 2 (Some 120).

(** The latest turn is over the budget: the cut is inside it, and its instructions are pinned. *)
Example the_latest_turn_is_cut :
  (e_seq <$> demo_split.1, e_seq <$> demo_split.2, _tail_layout demo_split.2 demo_split.1) =
    (Some <$> [1; 2; 4; 5], Some <$> [3; 6; 7; 8; 9; 10; 11], (Some 6, [3])).
Proof. vm_compute. reflexivity. Qed.

Lemma numbered_demo : numbered demo_events.
Proof. split; apply (bool_decide_unpack _); vm_compute; exact I. Qed.

Lemma latest_instructions_are_kept_witness :
  ∃ before, filter (λ e, _is_turn_admission_event e = true) demo_split.2 = before ++ [says "user_message" 3 "list the files"; retry_notice 6].
Proof. exact (latest_instructions_are_kept demo_format demo_dumps (Some demo_count) demo_events 2 (Some 120) 2 eq_refl). Defined.



Lemma summary_reads_the_prefix_witness : _summary_input_events demo_split.1 demo_split.2 = Some (take 5 demo_events).
Proof.
  exact (summary_reads_the_prefix demo_format demo_dumps (Some demo_count) demo_events 2 (Some 120) demo_split.1 demo_split.2 numbered_demo
    eq_refl).
Defined.
