(* ===== verification/RotationSpec.v ===== *)
(** What the continuing session gets of a compacted one's tail: a rotation that was put off reads
    the kept events again from the recorded layout, and the copies it records are all of them, in
    order, in batches, marked with where they first came from. *)

From S2P Require Import Prelude Str PyVal Compaction Rotation CompactionSpec.

Notation carried := (filter (λ e, carried_forward e = true)).

Section Rotation.
Context (format_events_for_compaction : list session_event → ustr) (dumps : pyval → ustr).
Context (counter : option (ustr → option Z)).
Context (read_seqs : list Z → option (list session_event)) (read_after : Z → option (list session_event)).

Notation split_events := (_split_events format_events_for_compaction dumps counter).

Lemma admission_carried e : _is_turn_admission_event e = true → carried_forward e = true.
Proof.
  unfold _is_turn_admission_event, carried_forward. intros [U%has_type_one|R]%orb_true_iff.
  - unfold has_type. by rewrite U.
  - apply orb_true_iff. right. unfold is_retry_admission_notice in *. by destruct e as [? [d|] ?].
Qed.

Lemma pinned_events_spec pins :
  numbered pins → (∀ ns, (∀ n, n ∈ ns ↔ n ∈ seq_or_0 <$> pins) → read_seqs ns = Some pins) →
  pinned_events read_seqs (seq_or_0 <$> pins) = Some (_TailEvent <$> pins).
Proof.
  intros N R. assert (NoDup (seq_or_0 <$> pins)) as ND.
  { apply NoDup_fmap_2_strong; [|by apply numbered_nodup]. intros x y Hx Hy. by apply (numbered_inj pins). }
  unfold pinned_events. destruct (seq_or_0 <$> pins) as [|n ns] eqn:E; [by apply fmap_nil_inv in E; subst|].
  rewrite <- E in *. rewrite (R (merge_sort Z.le (remove_dups (seq_or_0 <$> pins)))); cbn [mbind option_bind].
  2: { intros m. by rewrite merge_sort_Permutation, elem_of_remove_dups. }
  replace (length (remove_dups _)) with (length pins).
  - by rewrite Nat.eqb_refl, (sort_numbered pins pins).
  - rewrite <- (length_fmap seq_or_0 pins). apply Permutation_length, NoDup_Permutation; [done|apply NoDup_remove_dups|].
    intros m. by rewrite elem_of_remove_dups.
Qed.

(** From the tail's start on, what is carried forward is what was kept and not pinned. *)
Lemma rest_of_stream events later older kept u :
  numbered (events ++ later) → carried later = [] → older ++ kept ≡ₚ events → sublist older events → sublist kept events →
  head (unpinned older kept) = Some u →
  carried (filter (λ e, seq_or_0 u - 1 < seq_or_0 e) (events ++ later)) = carried (unpinned older kept).
Proof.
  intros N Later P Ho Hk U. pose proof N as (Ne & Nl & _)%numbered_app. pose proof (kept_numbered _ _ Hk Ne) as Nk.
  assert (u ∈ unpinned older kept) as [Bu Ku]%list_elem_of_filter by (apply head_Some_elem_of, U).
  assert (∀ e, e ∈ kept → below (last_seq older) e = false ↔ seq_or_0 u ≤ seq_or_0 e) as Start.
  { intros e He. rewrite (kept_pinned_first events older kept Hk Ne) in Nk. apply numbered_app in Nk as (_ & [_ Su] & Lt). split.
    - intros B. assert (e ∈ unpinned older kept) as H by (by apply list_elem_of_filter). destruct (unpinned older kept) as [|u' l]; [done|].
      injection U as ->. apply StronglySorted_inv in Su as [_ Fu]. rewrite Forall_forall in Fu.
      apply elem_of_cons in H as [->|H]; [done|]. apply Fu in H. lia.
    - intros L. apply not_true_iff_false. intros B. specialize (Lt e u). rewrite !list_elem_of_filter in Lt. specialize (Lt ltac:(auto) ltac:(auto)). lia. }
  apply numbered_ext; [by apply numbered_filter, numbered_filter|by apply numbered_filter, numbered_filter|].
  intros e. rewrite !list_elem_of_filter, elem_of_app, <- P, elem_of_app. split; [|intros (? & B & He); split_and!; auto; apply Start in B; auto; lia].
  intros (C & L & [[He|He]|He]); [|by split_and!; auto; apply Start; [|lia]|].
  - exfalso. destruct (last_seq older) as [m|] eqn:Lm.
    + pose proof (older_below_last _ _ _ P Ho Ne e m Lm He). cbn [below] in Bu. apply not_true_iff_false in Bu. destruct Nk as [All _].
      rewrite Forall_forall in All. rewrite earlier_spec in Bu by auto. destruct (last_is_older _ _ Lm) as (o & Hoo & Eo).
      apply (parts_apart _ _ _ P Ne u); [|done]. replace u with o; [done|].
      apply (numbered_inj events); [done|by rewrite <- P; apply elem_of_app; auto..|lia].
    + unfold last_seq in Lm. destruct (last older) as [o|] eqn:Lo; [|by apply last_None in Lo; subst; apply not_elem_of_nil in He].
      cbn in Lm. destruct Ne as [All _]. rewrite Forall_forall in All. destruct (All o) as [n En]; [|congruence].
      rewrite <- P. apply elem_of_app. left. by apply last_Some_elem_of.
  - exfalso. assert (e ∈ carried later) as H by (by apply list_elem_of_filter). rewrite Later in H. by apply not_elem_of_nil in H.
Qed.

(** C18. A rotation that was put off gives the new session the tail the compaction kept: from the
    recorded start and pinned numbers, whatever was appended to the stream after, it reads
    exactly the kept events of the kinds it carries forward, in order, the pinned ones among them. *)
Theorem deferred_rotation_reads_the_tail events later preserve_turns tail_token_budget older kept :
  numbered (events ++ later) → events ≠ [] → carried later = [] →
  (∀ ns, read_seqs ns = Some (filter (λ e, seq_or_0 e ∈ ns) (events ++ later))) →
  (∀ n, read_after n = Some (filter (λ e, n < seq_or_0 e) (events ++ later))) →
  split_events events preserve_turns tail_token_budget = (older, kept) →
  ∃ start pins, _tail_layout kept older = (Some start, pins) ∧
    _read_tail_events read_seqs read_after start pins =
      match _TailEvent <$> carried kept with [] => None | tail => Some tail end.
Proof.
  intros N NE Later Rs Ra S. pose proof N as (Ne & _ & _)%numbered_app.
  destruct (split_is_pin format_events_for_compaction dumps counter events preserve_turns tail_token_budget) as (k & E & C & _).
  rewrite S in E. symmetry in E. pose proof (pin_partition _ _ _ _ _ E) as (P & Ho & Hk).
  destruct (unpinned_start _ _ _ _ _ Ne NE C E) as [u U]. pose proof (kept_numbered _ _ Hk Ne) as Nk.
  exists (seq_or_0 u), (seq_or_0 <$> pinned older kept). rewrite (tail_layout_spec _ _ (proj1 Nk)). split.
  { f_equal. by destruct (unpinned older kept); simplify_eq/=. }
  unfold _read_tail_events. rewrite pinned_events_spec; [|by apply numbered_filter|]; cbn [mbind option_bind].
  2: { intros ns Hns. rewrite Rs. f_equal. apply numbered_ext; [by apply numbered_filter|by apply numbered_filter|]. intros e.
       rewrite !list_elem_of_filter, Hns, list_elem_of_fmap, elem_of_app. split.
       - intros [(x & Es & [Bx Hx]%list_elem_of_filter) He]. replace e with x; [done|].
         apply (numbered_inj (events ++ later)); [done| |by apply elem_of_app|done]. apply elem_of_app. left. by eapply elem_of_sublist.
       - intros [B He]. split; [exists e; split; [done|by apply list_elem_of_filter]|left; by eapply elem_of_sublist]. }
  rewrite Ra. cbn [mbind option_bind]. rewrite (rest_of_stream events later older kept u), <- fmap_app by done.
  replace (pinned older kept ++ carried (unpinned older kept)) with (carried kept); [done|].
  rewrite (kept_pinned_first events older kept Hk Ne) at 1. rewrite filter_app. f_equal.
  apply numbered_ext; [by repeat apply numbered_filter|by apply numbered_filter|]. intros e. split; [by intros [_ ?]%list_elem_of_filter|].
  intros He. apply list_elem_of_filter. split; [|done]. apply admission_carried. exact (pinned_are_admissions _ _ _ _ _ e Ne E He).
Qed.
End Rotation.

(** ** Copies *)

Lemma od_get_setdefault k k' v d :
  od_get k (setdefault k' v d) = match od_get k d with Some w => Some w | None => if decide (k = k') then Some v else None end.
Proof.
  unfold setdefault. destruct (od_get k' d) eqn:E; [|rewrite od_get_set]; destruct (decide (k = k')) as [->|]; rewrite ?E; [done|..].
  - by destruct (od_get k d).
  - done.
  - by destruct (od_get k d).
Qed.

Lemma setdefault_present k v d : is_Some (od_get k d) → setdefault k v d = d.
Proof. intros [w E]. unfold setdefault. by rewrite E. Qed.

(** Rotating again keeps the origin: the copy of a copy is the first copy, so what is marked
    as its source session and number is where the event was first recorded. *)
Theorem copies_keep_their_origin first_session session e n seq :
  e_seq e = Some n → ∀ copy, cloned_event first_session e = Some copy →
  cloned_event session (Event (e_type copy) (e_data copy) seq) = Some copy.
Proof.
  intros En copy. unfold cloned_event. destruct (e_data e) as [d|]; [|done]. cbn [mbind option_bind].
  destruct (has_type INTARIS_APPENDABLE_EVENT_TYPES e) eqn:T; [|done]. rewrite En. intros [= <-]. cbn [e_data mbind option_bind e_type].
  unfold has_type in *. cbn [e_type]. rewrite T. cbn [e_seq]. set (d' := setdefault "source_seq" _ _).
  assert (∀ k, k ∈ ["compaction_tail"; "source_session_id"; "source_seq"] → is_Some (od_get k d')) as P.
  { intros k Hk. unfold d'. rewrite !od_get_setdefault. destruct (od_get k d); [done|]. repeat case_decide; try done.
    exfalso. rewrite !elem_of_cons in Hk. destruct Hk as [?|[?|[?|?%not_elem_of_nil]]]; done. }
  rewrite !(setdefault_present _ _ d') by (apply P; repeat constructor). destruct seq; [|done].
  by rewrite setdefault_present by (apply P; repeat constructor).
Qed.

Lemma concat_chunks {A} (l : list A) n m : concat ((λ i, take n (drop (i * n) l)) <$> seq 0 m) = take (m * n) l.
Proof.
  induction m as [|m IH]; [done|]. rewrite seq_S, fmap_app, concat_app, IH. cbn [fmap list_fmap concat]. rewrite app_nil_r.
  rewrite Nat.add_0_l, take_take_drop. f_equal. lia.
Qed.

Lemma batches_spec cloned :
  concat (batches cloned) = cloned ∧ Forall (λ b, (0 < length b ≤ batch_size)%nat) (batches cloned).
Proof.
  unfold batches. rewrite concat_chunks. unfold batch_size.
  pose proof (Nat.div_mod_eq (length cloned + (1000 - 1)) 1000) as D. pose proof (Nat.mod_upper_bound (length cloned + (1000 - 1)) 1000 ltac:(lia)).
  set (m := ((length cloned + (1000 - 1)) / 1000)%nat) in *. split; [apply take_ge; lia|].
  apply Forall_fmap, Forall_forall. intros i Hi%elem_of_seq. unfold compose. rewrite length_take, length_drop. nia.
Qed.

Lemma record_batches_spec record_events session_id previous_session_id count index bs :
  Forall (λ b, (0 < length b ≤ batch_size)%nat) bs →
  let recorded := record_batches record_events session_id previous_session_id count index bs in
  sublist (concat recorded) (concat bs) ∧ Forall (λ b, (0 < length b ≤ batch_size)%nat) recorded ∧
  ((∀ key batch, record_events key batch = Some true) → concat recorded = concat bs).
Proof.
  intros F. cbn zeta. revert index. induction F as [|b bs Hb F IH]; intros index; [done|]. cbn [record_batches concat].
  destruct (record_events _ b) as [ok|] eqn:R.
  - destruct (IH (S index)) as (Sub & Fa & All). destruct ok; cbn [app concat].
    + split_and!; [by apply sublist_app|by constructor|intros T; by rewrite All].
    + split_and!; [by apply sublist_inserts_l|done|intros T; by rewrite T in R].
  - split_and!; [apply sublist_nil_l|done|intros T; by rewrite T in R].
Qed.

(** The new session's copies come in batches within the limit, in order, and are all there
    when every batch is recorded. *)
Theorem seeding_copies_the_tail record_events session_id previous_session_id tail_events :
  let cloned := cloned_events previous_session_id tail_events in
  let recorded := _seed_rotated_tail_events record_events session_id previous_session_id tail_events in
  sublist (concat recorded) cloned ∧ Forall (λ b, (0 < length b ≤ batch_size)%nat) recorded ∧
  ((∀ key batch, record_events key batch = Some true) → concat recorded = cloned).
Proof.
  cbn zeta. unfold _seed_rotated_tail_events. set (cloned := cloned_events _ _). destruct (batches_spec cloned) as [C F].
  pose proof (record_batches_spec record_events session_id previous_session_id (length (batches cloned)) 0 _ F) as R.
  cbn zeta in R. by rewrite C in R.
Qed.

(** ** A concrete rotation *)

Definition summary_marker : session_event := Event "compaction_summary" (Some []) (Some 12).

Definition demo_seqs (ns : list Z) : option (list session_event) := Some (filter (λ e, seq_or_0 e ∈ ns) (demo_events ++ [summary_marker])).
Definition demo_after (n : Z) : option (list session_event) := Some (filter (λ e, n < seq_or_0 e) (demo_events ++ [summary_marker])).

Lemma deferred_rotation_reads_the_tail_witness :
  ∃ start pins, _tail_layout demo_split.2 demo_split.1 = (Some start, pins) ∧ _read_tail_events demo_seqs demo_after start pins = Some demo_split.2.
Proof.
  refine (deferred_rotation_reads_the_tail demo_format demo_dumps (Some demo_count) demo_seqs demo_after demo_events [summary_marker] 2 (Some 120)
    demo_split.1 demo_split.2 _ _ eq_refl (λ _, eq_refl) (λ _, eq_refl) eq_refl); [|done].
  split; apply (bool_decide_unpack _); vm_compute; exact I.
Defined.

Lemma copies_keep_their_origin_witness :
  ∀ copy, cloned_event "first" (retry_notice 6) = Some copy → cloned_event "second" (Event (e_type copy) (e_data copy) (Some 1)) = Some copy.
Proof. exact (copies_keep_their_origin "first" "second" (retry_notice 6) 6 (Some 1) eq_refl). Defined.

(** An instruction the model was given in the tail, which a rotation at once copies, is not read
    again by a rotation that was put off. *)
Definition injected (seq : Z) : session_event :=
  Event "developer_message" (Some [("context_injection", PBool true); ("replayable", PBool true); ("visibility", PStr "agent_context");
                                   ("content", PStr "Use metric units.")]) (Some seq).

Example deferred_rotation_drops_an_instruction :
  let events := [says "user_message" 1 "hi"; injected 2; says "assistant_message" 3 "hello"] in
  let '(older, kept) := _split_events demo_format demo_dumps None events 2 None in
  (e_seq <$> kept) = [Some 1; Some 2; Some 3] ∧
  length (cloned_events "old" kept) = 3%nat ∧
  _tail_layout kept older = (Some 1, []) ∧
  option_map (map e_type) $ _read_tail_events (λ _, None) (λ n, Some (filter (λ e, n < seq_or_0 e) events)) 1 [] =
    Some ["user_message"; "assistant_message"].
Proof. vm_compute. repeat split. Qed.
