(* ===== verification/Banding.v ===== *)
(** What the summarizer of a compaction is given ([cognis/core/compaction/banding.py] and the
    token budgets of [strategy.py]): the oldest and the newest events of the summarized history,
    with a marker for the band dropped between them, cut down to a token budget.

    Products with a ratio are the code's: of doubles, rounded to 53 bits, half to even, then
    truncated.  A list names an event once, so that the bands, told apart by [id] in the code, are
    parts of the list.

    Parameters: how events are printed, and the token counter (present when there are a function
    and a model), which may raise ([None]). *)

From S2P Require Import Prelude Str PyVal Compaction.

(** ** Ratios *)

Definition _HEAD_RATIO : Z → Z := int_times 3602879701896397 54.
Definition _TAIL_RATIO : Z → Z := int_times 5404319552844595 53.
Definition _TRIM_RATIO : Z → Z := int_times 3602879701896397 55.
Definition _PRESERVED_TAIL_TOKEN_RATIO : Z → Z := int_times 5404319552844595 54.
Definition _CHARS_PER_TOKEN_ESTIMATE : Z → Z := int_times 7 1.
Definition _DEFAULT_BUDGET_CHARS : Z := 240000.

Definition budget_chars (max_input_tokens : option Z) : Z :=
  match max_input_tokens with Some m => if 0 <? m then _CHARS_PER_TOKEN_ESTIMATE m else _DEFAULT_BUDGET_CHARS | None => _DEFAULT_BUDGET_CHARS end.

(** ** Bands *)

Record bands := Bands { head_events : list session_event; dropped_events : list session_event; tail_events : list session_event }.

Record CompactionInput := MkCompactionInput {
  text : ustr; head_event_count : nat; tail_event_count : nat; dropped_event_count : nat;
  dropped_seq_start : option Z; dropped_seq_end : option Z; estimated_chars : nat }.

Definition of_int (z : Z) : ustr := u (str_int z).
Definition EN_DASH : N := 8211.

Definition print_seq (s : option Z) : ustr := match s with Some n => of_int n | None => u "None" end.

Definition first_seq (events : list session_event) : option Z := e ← head events; e_seq e.
Definition end_seq (events : list session_event) : option Z := e ← last events; e_seq e.

Section Banding.
Context (format_events_for_compaction : list session_event → ustr) (counter : option (ustr → option Z)).

(** Events while they fit; the first always does. *)
Fixpoint take_band (budget chars : Z) (started : bool) (events : list session_event) : list session_event :=
  match events with
  | [] => []
  | e :: events =>
      let n := Z.of_nat (length (format_events_for_compaction [e])) in
      if (budget <? chars + n) && started then [] else e :: take_band budget (chars + n + 1) true events
  end.

Definition initial_bands (budget : Z) (older : list session_event) : bands :=
  let head := take_band (_HEAD_RATIO budget) 0 false older in
  let rest := drop (length head) older in
  let tail := reverse (take_band (_TAIL_RATIO budget) 0 false (reverse rest)) in
  Bands head (take (length rest - length tail) rest) tail.

Definition _dropped_band_marker (dropped : list session_event) (include_user_messages : bool) : ustr :=
  let n := of_int (Z.of_nat (length dropped)) in
  let seq_range :=
    match first_seq dropped with
    | Some start => u "seq " ++ of_int start ++ [EN_DASH] ++ print_seq (end_seq dropped)
    | None => n ++ u " events"
    end in
  let marker :=
    u "[compaction band: omitted " ++ n ++ u " events between " ++ seq_range ++
    u "; tool outputs from this range remain recoverable by call_id when recovery handles are present]" in
  match filter (λ e, is_user_message e = true) dropped with
  | [] => marker
  | users => if include_user_messages
             then ujoin [LF] [marker; u "Dropped-band user messages (verbatim):"; format_events_for_compaction users] else marker
  end.

Definition band_text (include_user_messages : bool) (b : bands) : ustr :=
  ujoin [LF]
    (match head_events b with [] => [] | l => [format_events_for_compaction l] end ++
     match dropped_events b with [] => [] | l => [_dropped_band_marker l include_user_messages] end ++
     match tail_events b with [] => [] | l => [format_events_for_compaction l] end).

(** How many events one round of trimming moves. *)
Definition trim_count (n : nat) : nat := Nat.min (Nat.max 1 (Z.to_nat (_TRIM_RATIO (Z.of_nat n)))) (n - 1).

Definition trim (b : bands) : option bands :=
  let h := length (head_events b) in
  let t := length (tail_events b) in
  if (t <=? h)%nat && (1 <? h)%nat then
    let keep := (h - trim_count h)%nat in
    Some (Bands (take keep (head_events b)) (drop keep (head_events b) ++ dropped_events b) (tail_events b))
  else if (1 <? t)%nat then
    Some (Bands (head_events b) (dropped_events b ++ take (trim_count t) (tail_events b)) (drop (trim_count t) (tail_events b)))
  else None.

(** The loop that drops more, with the last count ([None] when counting raised); [None] when the
    fuel ran out. *)
Fixpoint trim_loop (count : ustr → option Z) (max_input_tokens : Z) (fuel : nat) (b : bands) (tokens : Z) : option (bands * option Z) :=
  if (max_input_tokens <? tokens) && ((1 <? length (head_events b))%nat || (1 <? length (tail_events b))%nat) then
    match fuel with
    | O => None
    | S fuel =>
        match trim b with
        | None => Some (b, Some tokens)
        | Some b' =>
            match count (band_text true b') with
            | None => Some (b', None)
            | Some tokens => trim_loop count max_input_tokens fuel b' tokens
            end
        end
    end
  else Some (b, Some tokens).

(** The bands and whether the dropped user messages are still quoted. *)
Definition fit_bands (max_input_tokens : option Z) (b : bands) : option (bands * bool) :=
  match counter, max_input_tokens with
  | Some count, Some m =>
      match count (band_text true b) with
      | None => Some (b, true)
      | Some tokens =>
          '(b, tokens) ← trim_loop count m (length (head_events b) + length (tail_events b)) b tokens;
          Some (b, match tokens with Some n => negb (m <? n) | None => true end)
      end
  | _, _ => Some (b, true)
  end.

Definition _within_exact_budget (text : ustr) (max_input_tokens : option Z) : bool :=
  match counter, max_input_tokens with
  | Some count, Some m => match count text with Some n => n <=? m | None => true end
  | _, _ => true
  end.

Definition build_compaction_input (older : list session_event) (max_input_tokens : option Z) : option CompactionInput :=
  match older with
  | [] => Some (MkCompactionInput [] 0 0 0 None None 0)
  | _ =>
      let budget := budget_chars max_input_tokens in
      let full_text := format_events_for_compaction older in
      if (Z.of_nat (length full_text) <=? budget) && _within_exact_budget full_text max_input_tokens then
        Some (MkCompactionInput full_text (length older) 0 0 None None (length full_text))
      else
        '(b, quoted) ← fit_bands max_input_tokens (initial_bands budget older);
        let text := band_text quoted b in
        Some (MkCompactionInput text (length (head_events b)) (length (tail_events b)) (length (dropped_events b))
                (first_seq (dropped_events b)) (end_seq (dropped_events b)) (length text))
  end.

(** ** Budgets *)

Definition _preserved_tail_token_budget (available_prompt_tokens max_input_tokens : option Z) : option Z :=
  match available_prompt_tokens with
  | Some n => if 0 <? n then Some (Z.max 1 (_PRESERVED_TAIL_TOKEN_RATIO n)) else None
  | None => None
  end ∪
  match max_input_tokens with
  | Some n => if 0 <? n then Some (Z.max 1 (_PRESERVED_TAIL_TOKEN_RATIO n)) else None
  | None => None
  end.

Definition _previous_summary_wrapper (previous_summary new_history : ustr) : ustr :=
  u "Update the anchored summary below using the new conversation history." ++ [LF] ++ u "<previous-summary>" ++ [LF] ++
  previous_summary ++ [LF] ++ u "</previous-summary>" ++ [LF; LF] ++ u "<new-history>" ++ [LF] ++ new_history ++ [LF] ++ u "</new-history>".

Definition _budget_without_previous_summary (max_input_tokens : option Z) (previous_summary : option ustr) : option Z :=
  match previous_summary, max_input_tokens with
  | Some ((_ :: _) as summary), Some m =>
      let wrapper := _previous_summary_wrapper summary [] in
      let estimate := Z.max 1 (Z.of_nat (length wrapper) / 4) in
      let reserved := match counter with Some count => default estimate (count wrapper) | None => estimate end in
      Some (Z.max 1 (m - reserved))
  | _, _ => max_input_tokens
  end.
End Banding.

(** ** A compaction, up to its publication *)

(** [Timeout]: a [TimeoutError] or a [ConnectionError]. *)
Inductive error_kind := Timeout | HttpStatus (code : Z) | Transport | OtherError.

Record llm_error := LlmError { err_kind : error_kind; err_message : string }.

Definition _is_retryable_llm_error (e : llm_error) : bool :=
  match err_kind e with
  | Timeout | Transport => true
  | HttpStatus code => (code =? 429) || (500 <=? code)
  | OtherError =>
      existsb (λ token, infix (tx token) (tx (str_lower (err_message e))))
        ["rate limit"; "429"; "503"; "502"; "504"; "connection"; "timeout"; "overloaded"]
  end.

Inductive reply := Reply (text : ustr) | Raised (e : llm_error).

Definition empty_summary : llm_error := LlmError OtherError "LLM compaction returned empty summary".

(** The summary and the waits between the attempts; [generate] is what the model answers each. *)
Fixpoint llm_attempts (generate : nat → reply) (remaining attempt : nat) : option ustr * list Z :=
  match remaining with
  | O => (None, [])
  | S remaining =>
      let answer := match generate attempt with
                    | Reply text => match ustrip text with [] => Raised empty_summary | candidate => Reply candidate end
                    | Raised e => Raised e
                    end in
      match answer with
      | Reply candidate => (Some candidate, [])
      | Raised e =>
          if (0 <? remaining)%nat && _is_retryable_llm_error e then
            let '(summary, waits) := llm_attempts generate remaining (S attempt) in (summary, 2 ^ Z.of_nat (attempt - 1) :: waits)
          else (None, [])
      end
  end.

(** [Summarized] has the model's summary, before the handles of recoverable outputs are added. *)
Inductive compaction :=
  | Noop
  | LlmFailed
  | MechanicalFallback (older preserved : list session_event)
  | Summarized (summary : ustr) (older preserved : list session_event) (input : CompactionInput).

Record compaction_settings := CompactionSettings { preserve_turns : Z; llm_max_attempts : Z; fallback_enabled : bool }.

Record cache_entry := CacheEntry {
  entry_events : list session_event; last_compaction_summary : option ustr; available_prompt_tokens : option Z }.

Section Generate.
Context (format_events_for_compaction : list session_event → ustr) (dumps : pyval → ustr) (counter : option (ustr → option Z)).
Context (settings : compaction_settings).

(** What is asked of the model: the split, the bands, and the prompt's text. *)
Definition compaction_prompt (entry : cache_entry) (max_input_tokens : option Z) :
    option (option (list session_event * list session_event * CompactionInput * ustr)) :=
  let '(older, preserved) :=
    _split_events format_events_for_compaction dumps counter (entry_events entry) (preserve_turns settings)
      (_preserved_tail_token_budget (available_prompt_tokens entry) max_input_tokens) in
  if negb (_has_summarizable_history older) then Some None else
  events ← _summary_input_events older preserved;
  input ← build_compaction_input format_events_for_compaction counter events
            (_budget_without_previous_summary counter max_input_tokens (last_compaction_summary entry));
  Some (Some (older, preserved, input,
    match last_compaction_summary entry with
    | Some ((_ :: _) as summary) => _previous_summary_wrapper summary (text input)
    | _ => text input
    end)).

(** [None]: an exception, or a loop that does not end. *)
Definition _generate_summary_from_entry (entry : cache_entry) (max_input_tokens : option Z) (generate : ustr → nat → reply) : option compaction :=
  prompt ← compaction_prompt entry max_input_tokens;
  match prompt with
  | None => Some Noop
  | Some (older, preserved, input, text) =>
      match (llm_attempts (generate text) (Z.to_nat (llm_max_attempts settings)) 1).1 with
      | Some summary => Some (Summarized summary older preserved input)
      | None => Some (if fallback_enabled settings then MechanicalFallback older preserved else LlmFailed)
      end
  end.
End Generate.
