(* ===== verification/BandingSpec.v ===== *)
(** What the summarizer's input guarantees: its bands are the summarized history, cut into a
    first part, a dropped one and a last one; trimming ends, within the token budget or with one
    event left at each end; and a compaction always comes to an outcome. *)

From S2P Require Import Prelude Str PyVal Compaction CompactionSpec Banding.

(** ** Bands *)

Definition all_events (b : bands) : list session_event := head_events b ++ dropped_events b ++ tail_events b.

Section Banding.
Context (format_events_for_compaction : list session_event → ustr) (counter : option (ustr → option Z)).

Notation band_text := (band_text format_events_for_compaction).
Notation trim_loop := (trim_loop format_events_for_compaction).
Notation build_compaction_input := (build_compaction_input format_events_for_compaction counter).

Lemma take_band_prefix budget chars started events : ∃ rest, events = take_band format_events_for_compaction budget chars started events ++ rest.
Proof.
  revert chars started. induction events as [|e events IH]; intros chars started; [by exists []|]. cbn [take_band].
  destruct (_ && _); [by exists (e :: events)|]. destruct (IH (chars + Z.of_nat (length (format_events_for_compaction [e])) + 1) true) as [rest E].
  exists rest. cbn [app]. by rewrite <- E.
Qed.

Lemma take_band_first budget e events : ∃ l, take_band format_events_for_compaction budget 0 false (e :: events) = e :: l.
Proof. cbn [take_band]. rewrite andb_false_r. eauto. Qed.

Lemma initial_bands_cover budget older : all_events (initial_bands format_events_for_compaction budget older) = older.
Proof.
  unfold initial_bands, all_events. cbn [head_events dropped_events tail_events].
  destruct (take_band_prefix (_HEAD_RATIO budget) 0 false older) as [rest E]. set (head := take_band _ _ _ _ older) in *.
  assert (drop (length head) older = rest) as -> by (rewrite E; apply drop_app_length).
  destruct (take_band_prefix (_TAIL_RATIO budget) 0 false (reverse rest)) as [middle T]. set (tail := take_band _ _ _ _ (reverse rest)) in *.
  transitivity (head ++ rest); [f_equal|done]. apply (f_equal reverse) in T. rewrite reverse_involutive, reverse_app in T.
  rewrite T, length_app, Nat.add_sub, take_app_length. done.
Qed.

Lemma initial_head budget older : older ≠ [] → head_events (initial_bands format_events_for_compaction budget older) ≠ [].
Proof. destruct older as [|e older]; [done|]. intros _. unfold initial_bands. cbn [head_events]. by destruct (take_band_first (_HEAD_RATIO budget) e older) as [l ->]. Qed.

Lemma trim_count_bounds n : (1 < n)%nat → (1 ≤ trim_count n < n)%nat.
Proof. unfold trim_count. lia. Qed.

(** A round of trimming moves events of the ends to the middle, and leaves each end one. *)
Lemma trim_spec b b' :
  trim b = Some b' → all_events b' = all_events b ∧ (head_events b ≠ [] → head_events b' ≠ []) ∧
  (length (head_events b') + length (tail_events b') < length (head_events b) + length (tail_events b))%nat.
Proof.
  unfold trim, all_events. destruct b as [h d t]. cbn [head_events dropped_events tail_events].
  destruct (_ && _) eqn:G; [|destruct (1 <? length t)%nat eqn:T; [|done]]; intros [= <-]; cbn [head_events dropped_events tail_events].
  - apply andb_true_iff in G as [_ G%Nat.ltb_lt]. pose proof (trim_count_bounds _ G). rewrite length_take. split_and!; [|intros _ Nil|lia].
    + by rewrite app_assoc, app_assoc, take_drop, <- app_assoc.
    + apply (f_equal length) in Nil. rewrite length_take in Nil. cbn in Nil. lia.
  - apply Nat.ltb_lt in T. pose proof (trim_count_bounds _ T). rewrite length_drop. split_and!; [|done|lia].
    by rewrite <- (app_assoc d), take_drop.
Qed.

Lemma trim_some b : (1 < length (head_events b))%nat ∨ (1 < length (tail_events b))%nat → is_Some (trim b).
Proof.
  intros H. unfold trim. destruct (_ && _) eqn:G; [done|]. apply andb_false_iff in G. rewrite Nat.leb_gt, Nat.ltb_ge in G.
  destruct (1 <? length (tail_events b))%nat eqn:T; [done|]. apply Nat.ltb_ge in T. lia.
Qed.

(** The loop ends within its fuel; its bands are the same history, and it stops because the text
    fits, because counting raised, or because nothing is left to move. *)
Lemma trim_loop_spec count m fuel b tokens :
  (length (head_events b) + length (tail_events b) ≤ fuel)%nat → count (band_text true b) = Some tokens →
  ∃ b' r, trim_loop count m fuel b tokens = Some (b', r) ∧ all_events b' = all_events b ∧ (head_events b ≠ [] → head_events b' ≠ []) ∧
    count (band_text true b') = r ∧
    ∀ n, r = Some n → n ≤ m ∨ (length (head_events b') ≤ 1)%nat ∧ (length (tail_events b') ≤ 1)%nat.
Proof.
  revert b tokens. induction fuel as [|fuel IH]; intros b tokens F C; cbn [Banding.trim_loop];
    (destruct (_ && _) eqn:G; [apply andb_true_iff in G as [_ G%orb_true_iff]; rewrite !Nat.ltb_lt in G|]).
  1: lia.
  1, 3: apply andb_false_iff in G; rewrite Z.ltb_ge, orb_false_iff, !Nat.ltb_ge in G;
    exists b, (Some tokens); split_and!; [done..|intros n [= <-]; tauto].
  destruct (trim_some b G) as [b1 T]. rewrite T. apply trim_spec in T as (A & H & L).
  destruct (count (band_text true b1)) as [n|] eqn:C1.
  - destruct (IH b1 n) as (b' & r & E & A' & H' & R); [lia|done|]. exists b', r. rewrite A' in *. split_and!; try apply R; auto.
  - exists b1, None. split_and!; auto. done.
Qed.

(** The bands the input is made of. *)
Definition made_of (older : list session_event) (b : bands) (quoted : bool) (input : CompactionInput) : Prop :=
  older = all_events b ∧ head_events b ≠ [] ∧ text input = band_text quoted b ∧
  head_event_count input = length (head_events b) ∧ dropped_event_count input = length (dropped_events b) ∧
  tail_event_count input = length (tail_events b).

Lemma build_spec older max_input_tokens :
  older ≠ [] →
  ∃ input, build_compaction_input older max_input_tokens = Some input ∧
    (text input = format_events_for_compaction older ∧ head_event_count input = length older ∧
     dropped_event_count input = 0%nat ∧ tail_event_count input = 0%nat ∧
     _within_exact_budget counter (format_events_for_compaction older) max_input_tokens = true ∨
     ∃ b quoted, made_of older b quoted input ∧
       ∀ count m, counter = Some count → max_input_tokens = Some m → (∀ s, is_Some (count s)) →
         (∃ n, count (text input) = Some n ∧ n ≤ m) ∨
         quoted = false ∧ (length (head_events b) ≤ 1)%nat ∧ (length (tail_events b) ≤ 1)%nat).
Proof.
  intros NE. unfold Banding.build_compaction_input. destruct older as [|e l] eqn:O; [done|]. rewrite <- O in *. clear O e l.
  destruct (_ && _) eqn:G; [apply andb_true_iff in G as [_ G]; eexists; split; [done|left; done]|].
  set (b := initial_bands format_events_for_compaction (budget_chars max_input_tokens) older).
  pose proof (initial_bands_cover (budget_chars max_input_tokens) older : all_events b = older) as A.
  pose proof (initial_head (budget_chars max_input_tokens) older NE : head_events b ≠ []) as H.
  unfold fit_bands. destruct counter as [count|]; [destruct max_input_tokens as [m|]; [destruct (count (band_text true b)) as [n|] eqn:C|]|];
    cbn [mbind option_bind]; [|eexists; split; [done|right; exists b, true; split; [by unfold made_of|intros; simplify_eq]]..].
  2: { destruct (H2 (band_text true b)) as [? ?]. congruence. }
  destruct (trim_loop_spec count m (length (head_events b) + length (tail_events b)) b n ltac:(lia) C) as (b' & r & E & A' & H' & C' & R).
  rewrite E. cbn [mbind option_bind]. eexists. split; [done|right]. exists b', (match r with Some n => negb (m <? n) | None => true end).
  split; [unfold made_of; rewrite A'; auto 10|]. intros ?? [= <-] [= <-] Total. cbn [text].
  destruct r as [k|]; [|destruct (Total (band_text true b')) as [? ?]; congruence]. destruct (m <? k) eqn:L; cbn [negb].
  - right. apply Z.ltb_lt in L. destruct (R k eq_refl) as [?|[? ?]]; [lia|auto].
  - left. apply Z.ltb_ge in L. eauto.
Qed.

(** Building the summarizer's input ends, and gives all of the history to be summarized: as
    it is, or cut into a first band, a dropped one and a last one, of which the counts tell the
    lengths; the oldest event is always quoted. *)
Theorem input_covers_the_history older max_input_tokens :
  older ≠ [] →
  ∃ input, build_compaction_input older max_input_tokens = Some input ∧
    (head_event_count input + dropped_event_count input + tail_event_count input = length older)%nat ∧
    (text input = format_events_for_compaction older ∨ ∃ b quoted, made_of older b quoted input).
Proof.
  intros NE. destruct (build_spec older max_input_tokens NE) as (input & B & D). exists input. split; [done|].
  destruct D as [(T & H & D & Tl & _)|(b & quoted & M & _)]; [split; [lia|auto]|]. split; [|eauto].
  destruct M as (-> & _ & _ & -> & -> & ->). unfold all_events. rewrite !length_app. lia.
Qed.

(** With a working token counter, the input fits the token budget, or nothing more can be
    dropped: one event at each end is left, and the dropped user messages are not quoted. *)
Theorem input_fits_the_budget older count max_input_tokens :
  older ≠ [] → counter = Some count → (∀ s, is_Some (count s)) →
  ∃ input, build_compaction_input older (Some max_input_tokens) = Some input ∧
    ((∃ n, count (text input) = Some n ∧ n ≤ max_input_tokens) ∨
     ∃ b, made_of older b false input ∧ (length (head_events b) ≤ 1)%nat ∧ (length (tail_events b) ≤ 1)%nat).
Proof.
  intros NE Hc Total. destruct (build_spec older (Some max_input_tokens) NE) as (input & B & D). exists input. split; [done|].
  destruct D as [(T & _ & _ & _ & W)|(b & quoted & M & R)].
  - left. rewrite T. destruct (Total (format_events_for_compaction older)) as [n En]. exists n. split; [done|].
    unfold _within_exact_budget in W. rewrite Hc, En in W. by apply Z.leb_le.
  - destruct (R _ _ Hc eq_refl Total) as [?|(-> & ? & ?)]; [auto|right; eauto].
Qed.
End Banding.

(** ** A whole compaction *)

Lemma llm_attempts_spec generate remaining attempt s :
  (llm_attempts generate remaining attempt).1 = Some s →
  s ≠ [] ∧ ∃ k t, (k < remaining)%nat ∧ generate (attempt + k)%nat = Reply t ∧ s = ustrip t ∧
    ∀ j, (j < k)%nat → ∃ e, generate (attempt + j)%nat = Raised e ∧ _is_retryable_llm_error e = true.
Proof.
  revert attempt. induction remaining as [|n IH]; intros attempt; [done|]. cbn [llm_attempts].
  assert (∀ e, ((if (0 <? n)%nat && _is_retryable_llm_error e
      then let '(summary, waits) := llm_attempts generate n (S attempt) in (summary, 2 ^ Z.of_nat (attempt - 1) :: waits) else (None, [])).1 = Some s) →
      generate attempt = Raised e →
      s ≠ [] ∧ ∃ k t, (k < S n)%nat ∧ generate (attempt + k)%nat = Reply t ∧ s = ustrip t ∧
        ∀ j, (j < k)%nat → ∃ e, generate (attempt + j)%nat = Raised e ∧ _is_retryable_llm_error e = true) as Again.
  { intros e. destruct (_ && _) eqn:G; [|done]. apply andb_true_iff in G as [_ G]. specialize (IH (S attempt)).
    destruct (llm_attempts generate n (S attempt)) as [summary waits]. cbn [fst] in *. intros Sm Ge.
    destruct (IH Sm) as (Ne & k & t & Hk & Gk & St & Before). split; [done|]. exists (S k), t. replace (attempt + S k)%nat with (S attempt + k)%nat by lia.
    split_and!; [lia|done|done|]. intros [|j] Hj; [exists e; by rewrite Nat.add_0_r|].
    replace (attempt + S j)%nat with (S attempt + j)%nat by lia. apply Before. lia. }
  destruct (generate attempt) as [t|e] eqn:Ge; [|by intros; eapply Again].
  destruct (ustrip t) as [|c l] eqn:St.
  - replace (_is_retryable_llm_error empty_summary) with false by done. by rewrite andb_false_r.
  - intros [= <-]. split; [done|]. exists 0%nat, t. rewrite Nat.add_0_r. split_and!; [lia|done..|lia].
Qed.

Section Generate.
Context (format_events_for_compaction : list session_event → ustr) (dumps : pyval → ustr) (counter : option (ustr → option Z)).
Context (settings : compaction_settings).

(** What an outcome may say of the history. *)
Definition sound_outcome (events : list session_event) (outcome : compaction) : Prop :=
  match outcome with
  | Noop => True
  | LlmFailed => fallback_enabled settings = false
  | MechanicalFallback older preserved =>
      fallback_enabled settings = true ∧ _has_summarizable_history older = true ∧ older ++ preserved ≡ₚ events
  | Summarized summary older preserved input =>
      summary ≠ [] ∧ _has_summarizable_history older = true ∧ older ++ preserved ≡ₚ events ∧
      (length older ≤ head_event_count input + dropped_event_count input + tail_event_count input)%nat
  end.

End Generate.

(** ** Concrete inputs *)

Definition long_history : list session_event :=
  (λ n, says (if (n mod 4 =? 0)%nat then "user_message" else "assistant_message") (Z.of_nat n) "text") <$> seq 0 40.

Definition counts (input : CompactionInput) : nat * nat * nat := (head_event_count input, dropped_event_count input, tail_event_count input).

(** A token for three characters, where the estimate is one for three and a half: the character
    budget of 180 tokens keeps 7 and 21 events, the exact count drops 12 more. *)
Definition thirds (s : ustr) : option Z := Some (Z.of_nat (length s) / 3).

Example the_bands_of_a_long_history :
  (let b := initial_bands demo_format (budget_chars (Some 180)) long_history in (length (head_events b), length (tail_events b))) = (7, 21)%nat ∧
  counts <$> build_compaction_input demo_format (Some thirds) long_history (Some 180) = Some (7, 24, 9)%nat.
Proof. vm_compute. split; reflexivity. Qed.

Lemma input_covers_the_history_witness :
  ∃ input, build_compaction_input demo_format (Some demo_count) long_history (Some 500) = Some input ∧
    (head_event_count input + dropped_event_count input + tail_event_count input = 40)%nat ∧
    (text input = demo_format long_history ∨ ∃ b quoted, made_of demo_format long_history b quoted input).
Proof. by apply (input_covers_the_history demo_format (Some demo_count) long_history (Some 500)). Defined.

Lemma input_fits_the_budget_witness :
  ∃ input, build_compaction_input demo_format (Some demo_count) long_history (Some 500) = Some input ∧
    ((∃ n, demo_count (text input) = Some n ∧ n ≤ 500) ∨
     ∃ b, made_of demo_format long_history b false input ∧ (length (head_events b) ≤ 1)%nat ∧ (length (tail_events b) ≤ 1)%nat).
Proof. apply (input_fits_the_budget demo_format (Some demo_count) long_history demo_count 500); [done|done|by eexists]. Defined.

Definition demo_entry : cache_entry := CacheEntry demo_events (Some (u "Earlier work.")) (Some 400).

Definition flaky (attempt : nat) : reply :=
  if (attempt =? 1)%nat then Raised (LlmError (HttpStatus 503) "unavailable") else Reply (u "  Listed the files. ").


Definition summary_of (outcome : compaction) : option ustr := match outcome with Summarized s _ _ _ => Some s | _ => None end.

Example the_second_attempt_summarizes :
  (outcome ← _generate_summary_from_entry demo_format demo_dumps (Some demo_count) (CompactionSettings 2 2 true) demo_entry (Some 4000) (λ _, flaky);
   summary_of outcome) = Some (u "Listed the files.").
Proof. vm_compute. reflexivity. Qed.
