(* ===== verification/ContextBudget.v ===== *)
(** The prompt budget of a model's window ([cognis/core/context_budget.py]), from which the budget
    of a compaction's tail is taken.

    A ratio is a double [m * 2 ^ -e], [e] not negative; its product with a number of tokens is
    the code's, truncated.  Theorem: the budgets fit the window together. *)

From S2P Require Import Prelude PyVal.

Definition _RESERVE_FLOOR_TOKENS : Z := 2048.
Definition _RESERVE_CEILING_TOKENS : Z := 32768.
Definition _RESERVE_SHARE_DIVISOR : Z := 8.
Definition _PROMPT_SERIALIZATION_MARGIN_FLOOR_TOKENS : Z := 1024.
Definition _PROMPT_SERIALIZATION_MARGIN_CEILING_TOKENS : Z := 32768.

(** 0.04 and 0.08. *)
Definition _PROMPT_SERIALIZATION_MARGIN_RATIO : Z * Z := (5764607523034235, 57).
Definition _RESPONSES_PROMPT_SERIALIZATION_MARGIN_RATIO : Z * Z := (5764607523034235, 56).

Record model_info := ModelInfo { supports_responses_api : bool; model_id : option string }.

Definition prompt_serialization_margin_ratio_for_model (info : option model_info) (name : option string) : Z * Z :=
  if match info with Some i => supports_responses_api i | None => false end then _RESPONSES_PROMPT_SERIALIZATION_MARGIN_RATIO else
  let given := match name with Some "" | None => i ← info; model_id i | Some s => Some s end in
  let normalized_model := str_lower (default "" given) in
  if existsb (λ family, infix (tx family) (tx normalized_model)) ["gpt-5"; "chatgpt-5"; "gpt-6"; "chatgpt-6"]
  then _RESPONSES_PROMPT_SERIALIZATION_MARGIN_RATIO else _PROMPT_SERIALIZATION_MARGIN_RATIO.

Definition _prompt_serialization_margin_tokens (available : Z) (ratio : option (Z * Z)) : Z :=
  if available <=? 0 then 0 else
  let '(m, e) := default _PROMPT_SERIALIZATION_MARGIN_RATIO ratio in
  if m <=? 0 then 0 else
  let margin := Z.max _PROMPT_SERIALIZATION_MARGIN_FLOOR_TOKENS (int_times m e available) in
  Z.min (Z.min _PROMPT_SERIALIZATION_MARGIN_CEILING_TOKENS margin) (Z.max 0 (available - 1)).

Definition requested_output_tokens (agent_max_tokens model_max_output_tokens : option Z) : Z :=
  match agent_max_tokens, model_max_output_tokens with
  | Some a, m => if 0 <? a then a else match m with Some n => if 0 <? n then n else 0 | None => 0 end
  | None, Some n => if 0 <? n then n else 0
  | None, None => 0
  end.

Record ContextBudget := MkContextBudget {
  max_context_tokens : Z; max_input_tokens : Z; reserve_output_tokens : Z; effective_reserve_output_tokens : Z;
  prompt_serialization_margin_tokens : Z; available_prompt_tokens : Z; reserve_clamped : bool }.

(** How much of the window is kept for the answer. *)
Definition effective_reserve (max_context reserve : Z) : Z :=
  if (0 <? max_context) && (0 <? reserve) then
    let target := Z.max _RESERVE_FLOOR_TOKENS (Z.min _RESERVE_CEILING_TOKENS (max_context / _RESERVE_SHARE_DIVISOR)) in
    let effective := Z.min reserve target in
    if max_context <=? effective then Z.max 1 (max_context / 4) else effective
  else reserve.

Definition resolve_context_budget (max_context : Z) (max_input agent_max_tokens model_max_output_tokens : option Z)
    (ratio : option (Z * Z)) : ContextBudget :=
  let max_context := Z.max 0 max_context in
  let max_input := Z.max 0 (default 0 max_input) in
  let reserve := requested_output_tokens agent_max_tokens model_max_output_tokens in
  let effective := effective_reserve max_context reserve in
  let total := Z.max 0 (max_context - effective) in
  let raw := if 0 <? max_input then Z.min max_input total else total in
  let margin := _prompt_serialization_margin_tokens raw ratio in
  MkContextBudget max_context max_input reserve effective margin (Z.max 0 (raw - margin)) (negb (effective =? reserve)).

(** ** The theorem *)

Lemma requested_not_negative a m : 0 ≤ requested_output_tokens a m.
Proof. unfold requested_output_tokens. destruct a, m; repeat case_match; lia. Qed.

Lemma effective_reserve_bounds max_context reserve :
  0 ≤ reserve →
  let effective := effective_reserve max_context reserve in
  0 ≤ effective ≤ reserve ∧ (0 < reserve → 0 < effective) ∧ (0 < max_context → effective ≤ max_context) ∧ (2 ≤ max_context → effective < max_context).
Proof.
  intros Hr. unfold effective_reserve, _RESERVE_FLOOR_TOKENS, _RESERVE_CEILING_TOKENS, _RESERVE_SHARE_DIVISOR. cbn zeta.
  set (target := Z.max 2048 _). assert (2048 ≤ target) by (unfold target; lia). clearbody target.
  pose proof (Z.div_mod max_context 4 ltac:(lia)). pose proof (Z.mod_pos_bound max_context 4 ltac:(lia)).
  destruct (_ && _) eqn:G; [apply andb_true_iff in G|apply andb_false_iff in G]; rewrite !Z.ltb_lt in G || rewrite !Z.ltb_ge in G;
    [destruct (_ <=? Z.min _ _) eqn:L; [apply Z.leb_le in L|apply Z.leb_gt in L]|]; lia.
Qed.

Lemma margin_bounds available ratio : 0 ≤ available →
  let margin := _prompt_serialization_margin_tokens available ratio in
  0 ≤ margin ≤ available ∧ (0 < available → margin < available).
Proof.
  intros H. cbn zeta. unfold _prompt_serialization_margin_tokens, _PROMPT_SERIALIZATION_MARGIN_FLOOR_TOKENS, _PROMPT_SERIALIZATION_MARGIN_CEILING_TOKENS.
  destruct (available <=? 0) eqn:A; [apply Z.leb_le in A; lia|]. apply Z.leb_gt in A. destruct (default _ ratio) as [m e]. destruct (m <=? 0); lia.
Qed.

(** The budgets fit the model's window together: prompt, its margin and the reserved answer
    are never more than the window, nor prompt and margin more than the input limit; the reserve
    is at most what was asked for; and a window of two tokens leaves some for the prompt. *)
Theorem budgets_fit_the_window max_context max_input agent_max_tokens model_max_output_tokens ratio :
  let b := resolve_context_budget max_context max_input agent_max_tokens model_max_output_tokens ratio in
  0 ≤ available_prompt_tokens b ∧ 0 ≤ prompt_serialization_margin_tokens b ∧
  0 ≤ effective_reserve_output_tokens b ≤ reserve_output_tokens b ∧
  (0 < reserve_output_tokens b → 0 < effective_reserve_output_tokens b) ∧
  (0 < max_context_tokens b →
     available_prompt_tokens b + prompt_serialization_margin_tokens b + effective_reserve_output_tokens b ≤ max_context_tokens b) ∧
  (0 < max_input_tokens b → available_prompt_tokens b + prompt_serialization_margin_tokens b ≤ max_input_tokens b) ∧
  (2 ≤ max_context_tokens b → 0 < available_prompt_tokens b).
Proof.
  unfold resolve_context_budget. cbn. set (w := Z.max 0 max_context). set (i := Z.max 0 (default 0 max_input)).
  set (reserve := requested_output_tokens _ _). pose proof (requested_not_negative agent_max_tokens model_max_output_tokens : 0 ≤ reserve).
  pose proof (effective_reserve_bounds w reserve ltac:(done)) as E. cbn in E. set (effective := effective_reserve w reserve) in *.
  set (raw := if 0 <? i then _ else _).
  assert (0 ≤ raw ≤ Z.max 0 (w - effective) ∧ (0 < i → raw ≤ i) ∧ (2 ≤ w → 0 < raw)) as R.
  { unfold raw. destruct (0 <? i) eqn:I; [apply Z.ltb_lt in I|apply Z.ltb_ge in I]; lia. }
  pose proof (margin_bounds raw ratio ltac:(lia)) as M. cbn in M. lia.
Qed.

(** The window of a model of 200,000 tokens asked for 64,000: 25,000 are reserved. *)
Example a_large_window :
  let b := resolve_context_budget 200000 None (Some 64000) None None in
  (effective_reserve_output_tokens b, prompt_serialization_margin_tokens b, available_prompt_tokens b, reserve_clamped b) =
    (25000, 7000, 168000, true).
Proof. vm_compute. reflexivity. Qed.
