(* ===== verification/HistoryReplay.v ===== *)
(** What of a session's history the model sees, and in which order ([cognis/core/history_replay.py]):
    auxiliary notices that arrived while a batch of tool calls was out are put after its results.

    An event read as an attribute object or as a dictionary is a [session_event] here; its data is
    a dictionary.  [event.data.get] of a missing key is [None].

    Theorems: replaying loses and repeats nothing, moves only notices, keeps both the notices and
    the rest in order, puts no notice inside a batch that is completed, and does nothing more when
    it is done again. *)

From S2P Require Import Prelude PyVal Compaction.

(** ** Events *)

Definition data_of (e : session_event) : pydict := default [] (e_data e).

Definition opt_str (v : pyval) : option string := match v with PStr s => Some s | _ => None end.

(** Output of a tool, where the recorder put it. *)
Definition recorded_tool_output (data : pydict) : option string :=
  match dict_get "result" data with PStr s => Some s | _ => opt_str (dict_get "output" data) end.

(** A set of strings has no unhashable member: looking for one raises ([None]). *)
Definition in_strings (v : pyval) (l : list string) : option bool :=
  if hashable v then Some (match v with PStr s => bool_decide (s ∈ l) | _ => false end) else None.

Definition is_true (v : pyval) : bool := match v with PBool true => true | _ => false end.
Definition is_false (v : pyval) : bool := match v with PBool false => true | _ => false end.

Definition is_model_history_event (e : session_event) : option bool :=
  let data := data_of e in
  if has_type ["evaluation"] e then Some (str_is "evaluation_feedback" (dict_get "event" data)) else
  if has_type ["lifecycle"] e then
    if is_false (dict_get "model_context" data) then Some false
    else in_strings (dict_get "event" data) ["task_result"; "task_failed"; "task_cancelled"; "step_complete"; "system_notice"]
  else if has_type ["developer_message"] e then
    Some (is_true (dict_get "context_injection" data) && is_true (dict_get "replayable" data) &&
          str_is "agent_context" (dict_get "visibility" data) && is_str (dict_get "content" data))
  else Some (has_type ["user_message"; "assistant_message"; "tool_call"; "tool_result"; "delegation"] e).

Definition format_tool_result_message (call_id : pyval) (content : string) (tool_name : pyval) (is_error protected : bool) : pydict :=
  [("role", PStr "tool"); ("tool_call_id", call_id); ("content", PStr content); ("_tool_name", tool_name); ("_tool_is_error", PBool is_error)] ++
  (if protected then [("_protected_tool_output", PBool true)] else []).

(** ** Putting notices after the batch *)

Definition is_notice (e : session_event) : bool :=
  has_type ["lifecycle"; "evaluation"; "delegation"; "developer_message"] e &&
  negb (py_eq (dict_get "tool_context_notice_version" (data_of e)) (PInt 1)).

Definition is_boundary (e : session_event) : bool := has_type ["user_message"; "assistant_message"] e.

(** The calls without a result, after an event. *)
Definition pending_after (pending : gset string) (e : session_event) : gset string :=
  let data := data_of e in
  if is_boundary e then ∅
  else if has_type ["tool_call"] e then match opt_str (dict_get "call_id" data) with Some c => pending ∪ {[c]} | None => pending end
  else if has_type ["tool_result"] e then
    match recorded_tool_output data, opt_str (dict_get "call_id" data) with Some _, Some c => pending ∖ {[c]} | _, _ => pending end
  else pending.

Fixpoint replay (pending : gset string) (deferred events : list session_event) : list session_event :=
  match events with
  | [] => deferred
  | e :: events =>
      if is_notice e && bool_decide (pending ≠ ∅) then replay pending (deferred ++ [e]) events else
      let '(before, deferred) := if is_boundary e then (deferred, []) else ([], deferred) in
      let pending := pending_after pending e in
      before ++ e :: (if bool_decide (pending = ∅) then deferred ++ replay pending [] events else replay pending deferred events)
  end.

Definition defer_tool_batch_notices (events : list session_event) : list session_event := replay ∅ [] events.

(** ** What replaying does *)

Notation notices := (filter (λ e, is_notice e = true)).
Notation natives := (filter (λ e, is_notice e = false)).

Definition only_notices (l : list session_event) : Prop := Forall (λ e, is_notice e = true) l.

Lemma notice_kind e :
  is_notice e = true → is_boundary e = false ∧ has_type ["tool_call"] e = false ∧ has_type ["tool_result"] e = false.
Proof.
  unfold is_notice, is_boundary, has_type. intros [T%bool_decide_eq_true _]%andb_true_iff. rewrite !bool_decide_eq_false.
  rewrite !elem_of_cons in T. destruct T as [T|[T|[T|[T|T%not_elem_of_nil]]]]; [rewrite T..|done]; split_and!; apply (bool_decide_unpack _); done.
Qed.

Lemma pending_after_notice pending e : is_notice e = true → pending_after pending e = pending.
Proof. intros (B & C & R)%notice_kind. unfold pending_after. by rewrite B, C, R. Qed.

Lemma natives_of_notices l : only_notices l → natives l = [] ∧ notices l = l.
Proof.
  induction 1 as [|e l N _ [IH1 IH2]]; [done|]. rewrite !filter_cons, N. repeat case_decide; try done. by rewrite IH1, IH2.
Qed.

(** Nothing is held while no call is out. *)
Definition held (pending : gset string) (deferred : list session_event) : Prop :=
  only_notices deferred ∧ (deferred ≠ [] → pending ≠ ∅).

Lemma natives_cons e l : natives (e :: l) = (if is_notice e then [] else [e]) ++ natives l.
Proof. rewrite filter_cons. by destruct (is_notice e). Qed.

Lemma notices_cons e l : notices (e :: l) = (if is_notice e then [e] else []) ++ notices l.
Proof. rewrite filter_cons. by destruct (is_notice e). Qed.

Lemma boundary_is_native e : is_boundary e = true → is_notice e = false.
Proof. intros B. apply not_true_iff_false. intros (? & _)%notice_kind. congruence. Qed.

Lemma held_nothing pending : held pending [].
Proof. split; [constructor|done]. Qed.

(** A notice goes through at once only when nothing is held. *)
Lemma passed_notice pending deferred e :
  held pending deferred → is_notice e && bool_decide (pending ≠ ∅) = false → is_notice e = true → pending = ∅ ∧ deferred = [].
Proof.
  intros [_ H] G N. rewrite N in G. cbn [andb] in G. apply bool_decide_eq_false, dec_stable in G. split; [done|].
  destruct deferred; [done|]. by destruct (H ltac:(done)).
Qed.

Lemma replay_passed pending deferred e events :
  is_notice e && bool_decide (pending ≠ ∅) = false →
  replay pending deferred (e :: events) =
    if is_boundary e then deferred ++ e :: replay ∅ [] events
    else e :: (if bool_decide (pending_after pending e = ∅) then deferred ++ replay ∅ [] events else replay (pending_after pending e) deferred events).
Proof.
  intros G. cbn [replay]. rewrite G. destruct (is_boundary e) eqn:B.
  - assert (pending_after pending e = ∅) as P by (unfold pending_after; by rewrite B). rewrite bool_decide_true by done. by rewrite P.
  - cbn [app]. destruct (decide (pending_after pending e = ∅)) as [P|P].
    + rewrite !bool_decide_true by done. by rewrite P.
    + by rewrite !bool_decide_false by done.
Qed.

Lemma boundary_empties pending e : is_boundary e = true → pending_after pending e = ∅.
Proof. intros B. unfold pending_after. by rewrite B. Qed.

Lemma held_snoc pending deferred e : held pending deferred → is_notice e = true → pending ≠ ∅ → held pending (deferred ++ [e]).
Proof. intros [D H] N P. split; [|done]. apply Forall_app. split; [done|]. by apply Forall_singleton. Qed.

Lemma replay_held pending deferred e events :
  is_notice e && bool_decide (pending ≠ ∅) = true → replay pending deferred (e :: events) = replay pending (deferred ++ [e]) events.
Proof. intros G. cbn [replay]. by rewrite G. Qed.

Lemma replay_orders pending deferred events :
  held pending deferred →
  natives (replay pending deferred events) = natives events ∧ notices (replay pending deferred events) = deferred ++ notices events.
Proof.
  revert pending deferred. induction events as [|e events IH]; intros pending deferred Hd; pose proof Hd as [D H].
  { cbn [replay]. destruct (natives_of_notices _ D) as [-> ->]. by rewrite app_nil_r. }
  rewrite natives_cons, notices_cons. destruct (natives_of_notices _ D) as [Dn Dd]. destruct (is_notice e && bool_decide (pending ≠ ∅)) eqn:G.
  - rewrite (replay_held _ _ _ _ G). apply andb_true_iff in G as [N P%bool_decide_eq_true]. rewrite N.
    destruct (IH pending (deferred ++ [e])) as [-> ->]; [by apply held_snoc|]. by rewrite <- app_assoc.
  - rewrite (replay_passed _ _ _ _ G). pose proof (passed_notice _ _ _ Hd G) as Pass. destruct (IH ∅ [] (held_nothing ∅)) as [In Id].
    destruct (is_boundary e) eqn:B.
    + rewrite !filter_app, natives_cons, notices_cons, Dn, Dd, (boundary_is_native _ B), In, Id. done.
    + rewrite natives_cons, notices_cons. destruct (bool_decide (pending_after pending e = ∅)) eqn:P; [apply bool_decide_eq_true in P|apply bool_decide_eq_false in P].
      * rewrite !filter_app, Dn, Dd, In, Id. cbn [app]. destruct (is_notice e); [|done]. by destruct (Pass eq_refl) as [_ ->].
      * destruct (IH (pending_after pending e) deferred) as [-> ->]; [by split|].
        destruct (is_notice e); [|done]. by destruct (Pass eq_refl) as [_ ->].
Qed.

(** ** Where notices stand *)

(** A batch is given up where a message follows, or nothing: no result will come. *)
Definition interrupted (rest : list session_event) : Prop :=
  match natives rest with e :: _ => is_boundary e = true | [] => True end.

Fixpoint placed (pending : gset string) (events : list session_event) : Prop :=
  match events with
  | [] => True
  | e :: events => (is_notice e = true → pending = ∅ ∨ interrupted events) ∧ placed (pending_after pending e) events
  end.

Lemma placed_notices pending deferred rest :
  only_notices deferred → placed pending rest → (deferred ≠ [] → pending = ∅ ∨ interrupted rest) → placed pending (deferred ++ rest).
Proof.
  intros D P H. induction D as [|e deferred N D IH]; [done|]. specialize (H ltac:(done)). cbn [app placed]. split.
  - intros _. destruct H as [|H]; [auto|right]. unfold interrupted. by rewrite filter_app, (proj1 (natives_of_notices _ D)).
  - rewrite (pending_after_notice _ _ N). by apply IH.
Qed.

Lemma replay_places pending deferred events : held pending deferred → placed pending (replay pending deferred events).
Proof.
  revert pending deferred. induction events as [|e events IH]; intros pending deferred Hd; pose proof Hd as [D H].
  { cbn [replay]. rewrite <- (app_nil_r deferred). by apply placed_notices; [| |right]. }
  destruct (is_notice e && bool_decide (pending ≠ ∅)) eqn:G.
  - rewrite (replay_held _ _ _ _ G). apply andb_true_iff in G as [N P%bool_decide_eq_true]. by apply IH, held_snoc.
  - rewrite (replay_passed _ _ _ _ G). pose proof (passed_notice _ _ _ Hd G) as Pass. destruct (is_boundary e) eqn:B.
    + pose proof (boundary_is_native _ B) as N. apply placed_notices; [done| |right; unfold interrupted; by rewrite natives_cons, N].
      cbn [placed]. rewrite N, (boundary_empties _ _ B). split; [done|]. apply IH, held_nothing.
    + cbn [placed]. split; [intros N; left; by apply Pass|]. destruct (bool_decide (pending_after pending e = ∅)) eqn:P; [apply bool_decide_eq_true in P|apply bool_decide_eq_false in P].
      * apply placed_notices; [done| |auto]. rewrite P. apply IH, held_nothing.
      * apply IH. by split.
Qed.

(** An order that is right already is kept. *)
Lemma replay_keeps pending deferred events :
  held pending deferred → placed pending events → (deferred ≠ [] → interrupted events) → replay pending deferred events = deferred ++ events.
Proof.
  revert pending deferred. induction events as [|e events IH]; intros pending deferred Hd Pl I; pose proof Hd as [D H]; [by cbn [replay]; rewrite app_nil_r|].
  cbn [placed] in Pl. destruct Pl as [Here Pl]. destruct (is_notice e && bool_decide (pending ≠ ∅)) eqn:G.
  - rewrite (replay_held _ _ _ _ G). apply andb_true_iff in G as [N P%bool_decide_eq_true]. rewrite (pending_after_notice _ _ N) in Pl.
    rewrite IH; [by rewrite <- app_assoc|by apply held_snoc|done|]. intros _. by destruct (Here N).
  - rewrite (replay_passed _ _ _ _ G). pose proof (passed_notice _ _ _ Hd G) as Pass. destruct (is_boundary e) eqn:B.
    + rewrite (boundary_empties _ _ B) in Pl. by rewrite (IH ∅ [] (held_nothing ∅) Pl).
    + assert (deferred = []) as ->.
      { destruct deferred as [|d l]; [done|]. specialize (I ltac:(done)). unfold interrupted in I. rewrite natives_cons in I.
        destruct (is_notice e); [by destruct (Pass eq_refl)|]. cbn [app] in I. congruence. }
      cbn [app]. destruct (bool_decide (pending_after pending e = ∅)) eqn:P.
      * apply bool_decide_eq_true in P. rewrite P in Pl. by rewrite (IH ∅ [] (held_nothing ∅) Pl).
      * by rewrite (IH _ [] (held_nothing _) Pl).
Qed.

(** C40. Replaying a history only moves notices: nothing is lost or repeated, the messages, calls
    and results keep their order and so do the notices; and replaying again changes nothing. *)
Theorem replay_only_moves_notices events :
  let replayed := defer_tool_batch_notices events in
  replayed ≡ₚ events ∧ natives replayed = natives events ∧ notices replayed = notices events ∧
  defer_tool_batch_notices replayed = replayed.
Proof.
  cbn zeta. destruct (replay_orders ∅ [] events (held_nothing ∅)) as [N D]. cbn [app] in D. fold (defer_tool_batch_notices events) in N, D.
  assert (∀ l : list session_event, natives l ++ notices l ≡ₚ l) as Parts.
  { clear. induction l as [|e l IH]; [done|]. rewrite natives_cons, notices_cons. destruct (is_notice e); cbn [app]; [by rewrite <- Permutation_middle, IH|by rewrite IH]. }
  split_and!; [by rewrite <- (Parts (defer_tool_batch_notices events)), N, D, Parts|done|done|].
  unfold defer_tool_batch_notices. by apply replay_keeps; [apply held_nothing|apply replay_places, held_nothing|].
Qed.

(** In the replayed history a notice stands between a call and its result only where the
    batch was given up: before it every call has its result, or the next thing that is not a
    notice is a message, or there is none. *)
Theorem notices_wait_for_results events before notice after :
  defer_tool_batch_notices events = before ++ notice :: after → is_notice notice = true →
  foldl pending_after ∅ before = ∅ ∨ interrupted after.
Proof.
  intros E N. pose proof (replay_places ∅ [] events (held_nothing ∅)) as P. fold (defer_tool_batch_notices events) in P. rewrite E in P.
  clear E. assert (∀ pending, placed pending (before ++ notice :: after) → foldl pending_after pending before = ∅ ∨ interrupted after) as Walk; [clear P|by apply Walk].
  induction before as [|e before IH]; intros pending; cbn [app placed foldl]; [intros [H _]; auto|]. intros [_ H]. by apply IH in H.
Qed.

(** ** A concrete history *)

Definition call (id : string) : session_event := Event "tool_call" (Some [("call_id", PStr id)]) None.
Definition answer (id : string) : session_event := Event "tool_result" (Some [("call_id", PStr id); ("result", PStr "")]) None.
Definition message (text : string) : session_event := Event "user_message" (Some [("content", PStr text)]) None.
Definition note (text : string) : session_event := Event "lifecycle" (Some [("event", PStr text)]) None.

(** The first batch is completed, its notice waits; the second is given up. *)
Example notices_are_put_after_the_batch :
  defer_tool_batch_notices [message "go"; call "1"; note "a"; call "2"; answer "2"; note "b"; answer "1"; call "3"; note "c"; message "stop"] =
    [message "go"; call "1"; call "2"; answer "2"; answer "1"; note "a"; note "b"; call "3"; note "c"; message "stop"].
Proof. vm_compute. reflexivity. Qed.

Lemma notices_wait_for_results_witness :
  foldl pending_after ∅ [message "go"; call "1"; answer "1"] = ∅ ∨ interrupted [].
Proof. exact (notices_wait_for_results [message "go"; call "1"; note "a"; answer "1"] [message "go"; call "1"; answer "1"] (note "a") [] eq_refl eq_refl). Defined.
