(* ===== verification/Truncation.v ===== *)
(** Cutting the middle out of long outputs ([cognis/core/truncation.py],
    [tool_output_recovery.py], and [_truncate_middle] of [compaction/input_format.py]).

    Strings are lists of code points.  [head_ratio] is the 0.5 every caller leaves it at.  A double
    that is not negative is [m * 2 ^ -e]; products and quotients are rounded to 53 bits, half to
    even.  Parameters: [repr] of a string, and the token counter, which may raise ([None]). *)

From S2P Require Import Prelude Str PyVal.

(** ** Doubles *)

Definition double : Type := Z * Z.

Definition of_Z (n : Z) : double := (round53 n, 0).
Definition fmul (x y : double) : double := (round53 (x.1 * y.1), x.2 + y.2).

(** Two positive integers: 55 bits of the quotient and one for the rest decide the rounding. *)
Definition fdiv (a b : Z) : double :=
  let k := Z.max 0 (55 + Z.log2 b - Z.log2 a) in
  let n := a * 2 ^ k in
  (round53 (2 * (n / b) + (if n mod b =? 0 then 0 else 1)), k + 1).

Definition trunc (x : double) : Z := x.1 / 2 ^ x.2.

Definition ninety_five_percent : double := (8556839292003942, 53).

(** ** The marker *)

Fixpoint group_digits (reversed : ustr) : ustr :=
  match reversed with
  | a :: b :: c :: ((_ :: _) as rest) => a :: b :: c :: 44%N :: group_digits rest
  | _ => reversed
  end.

(** [f"{n:,}"], [n] not negative. *)
Definition with_commas (n : Z) : ustr := reverse (group_digits (reverse (u (str_int n)))).

Definition DASH : N := 45.
Definition is_dash (c : N) : bool := (c =? DASH)%N.

Definition in_range (lo hi c : N) : bool := ((lo <=? c) && (c <=? hi))%N.

(** [A-Za-z0-9._:-] *)
Definition safe_anchor_char (c : N) : bool :=
  in_range 65 90 c || in_range 97 122 c || in_range 48 57 c || (c =? 46)%N || (c =? 95)%N || (c =? 58)%N || is_dash c.

(** Each run of other characters becomes a dash. *)
Fixpoint dash_runs (in_run : bool) (s : ustr) : ustr :=
  match s with
  | [] => []
  | c :: s => if safe_anchor_char c then c :: dash_runs false s
              else if in_run then dash_runs true s else DASH :: dash_runs true s
  end.

Definition anchor_name (value : ustr) : ustr :=
  rstrip_by is_dash (take 120 (rstrip_by is_dash (lstrip_by is_dash (dash_runs false (ustrip value))))).

Fixpoint anchor_names (seen : list ustr) (values : list ustr) : list ustr :=
  match values with
  | [] => []
  | v :: values =>
      let name := anchor_name v in
      if bool_decide (name = []) || bool_decide (name ∈ seen) then anchor_names seen values
      else name :: anchor_names (name :: seen) values
  end.

Definition _MAX_INLINE_ANCHORS : nat := 5.

Section Truncation.
Context (repr : ustr → ustr).

Definition format_recovery_hint (call_id : ustr) (anchors : list ustr) (anchors_available legacy : bool) : ustr :=
  let quoted := repr call_id in
  if legacy then
    let calls :=
      [u "read_tool_output(call_id=" ++ quoted ++ u ")";
       u "search_tool_output(call_id=" ++ quoted ++ u ", pattern='error|timeout|keyword')"] ++
      match anchors with
      | a :: _ => [u "list_tool_output_anchors(call_id=" ++ quoted ++ u ")";
                   u "read_tool_output_anchor(call_id=" ++ quoted ++ u ", anchor=" ++ repr a ++ u ")"]
      | [] => if anchors_available then [u "list_tool_output_anchors(call_id=" ++ quoted ++ u ")"] else []
      end in
    u "Recover with call_id " ++ quoted ++ u ": " ++ ujoin (u ", ") calls ++ u "."
  else
    let hint := u "Recover only if needed: read_tool_output(call_id=" ++ quoted ++ u ")." in
    match anchors with
    | _ :: _ =>
        let remaining := (length anchors - _MAX_INLINE_ANCHORS)%nat in
        hint ++ u " Anchors: " ++ ujoin (u ", ") (take _MAX_INLINE_ANCHORS anchors) ++
        (if (0 <? remaining)%nat then u ", +" ++ u (str_int (Z.of_nat remaining)) ++ u " more" else []) ++ u "."
    | [] => if anchors_available then hint ++ u " Anchors available." else hint
    end.

Definition _build_marker (total_chars : Z) (call_id : option ustr) (anchors : list ustr) : ustr :=
  [LF; LF] ++ u "... [middle truncated: " ++ with_commas total_chars ++ u " chars total" ++
  match call_id with
  | Some ((_ :: _) as id) =>
      let names := anchor_names [] anchors in
      u ". " ++ format_recovery_hint id names (negb (bool_decide (names = []))) false
  | _ => []
  end ++ u "] ..." ++ [LF; LF].

(** ** Cutting *)

Definition _MIN_TRUNCATION_SIZE : Z := 500.

Definition newlines (text : ustr) (lo hi : nat) : list nat := filter (λ i, text !! i = Some LF) (seq lo (hi - lo)).

Definition _snap_head_to_newline (text : ustr) (size : nat) : nat :=
  if (size =? 0)%nat || (length text <=? size)%nat then size else
  match last (newlines text (size - 2000) size) with Some i => S i | None => size end.

Definition _snap_tail_to_newline (text : ustr) (size : nat) : nat :=
  if (size =? 0)%nat || (length text <=? size)%nat then size else
  let start := (length text - size)%nat in
  match head (newlines text start (Nat.min (length text) (start + 2000))) with Some i => (length text - i - 1)%nat | None => size end.

(** [text[-n:]]: all of the text when [n] is zero. *)
Definition last_chars (n : nat) (text : ustr) : ustr := if (n =? 0)%nat then text else drop (length text - n) text.

Context (call_id : option ustr) (anchors : list ustr).

Definition marker_of (text : ustr) : ustr := _build_marker (Z.of_nat (length text)) call_id anchors.

Definition _middle_truncate_chars (text : ustr) (max_chars : Z) : ustr :=
  let marker := marker_of text in
  let available := max_chars - Z.of_nat (length marker) in
  if available <? 100 then take (Z.to_nat max_chars) text else
  let head_size := _snap_head_to_newline text (Z.to_nat (available / 2)) in
  let tail_size := _snap_tail_to_newline text (Z.to_nat available - head_size) in
  take head_size text ++ marker ++ last_chars tail_size text.

Section Tokens.
Context (token_counter : ustr → option Z).

(** Four more tries, each with fewer characters. *)
Fixpoint shrink (tries : nat) (text : ustr) (max_tokens candidate_chars : Z) (truncated : ustr) : ustr :=
  match tries with
  | O => truncated
  | S tries =>
      match token_counter truncated with
      | None => truncated
      | Some current_tokens =>
          if current_tokens <=? max_tokens then truncated else
          let scale := fdiv max_tokens (Z.max 1 current_tokens) in
          let candidate_chars :=
            Z.max _MIN_TRUNCATION_SIZE (trunc (fmul (fmul (of_Z candidate_chars) scale) ninety_five_percent)) in
          shrink tries text max_tokens candidate_chars (_middle_truncate_chars text candidate_chars)
      end
  end.

Definition _middle_truncate_by_tokens (text : ustr) (max_chars max_tokens : Z) : ustr :=
  match token_counter text with
  | None => _middle_truncate_chars text max_chars
  | Some n =>
      let scaled_chars := trunc (fmul (of_Z (Z.of_nat (length text))) (fdiv max_tokens (Z.max 1 n))) in
      let candidate_chars := Z.min max_chars (Z.max _MIN_TRUNCATION_SIZE scaled_chars) in
      shrink 4 text max_tokens candidate_chars (_middle_truncate_chars text candidate_chars)
  end.
End Tokens.

(** The text and whether it was truncated. *)
Definition middle_truncate (text : ustr) (max_chars : Z) (token_counter : option (ustr → option Z)) (max_tokens : option Z) : ustr * bool :=
  if (Z.of_nat (length text) <=? max_chars) || (max_chars <? _MIN_TRUNCATION_SIZE) then (text, false) else
  match token_counter, max_tokens with
  | Some counter, Some m =>
      if (0 <? m) && match counter text with Some n => (0 <? n) && (m <? n) | None => false end
      then (_middle_truncate_by_tokens counter text max_chars m, true)
      else (_middle_truncate_chars text max_chars, true)
  | _, _ => (_middle_truncate_chars text max_chars, true)
  end.
End Truncation.

(** ** Messages in a compaction prompt *)

Definition truncation_note (omitted : Z) : ustr :=
  [LF] ++ u "[truncated for compaction: omitted " ++ with_commas omitted ++ u " chars from middle]" ++ [LF].

Definition _truncate_middle (text : ustr) (max_chars : Z) : ustr :=
  if Z.of_nat (length text) <=? max_chars then text else
  let marker := truncation_note (Z.of_nat (length text) - max_chars) in
  let max := Z.to_nat max_chars in
  if (max <=? length marker)%nat then take max text else
  let remaining := (max - length marker)%nat in
  let head_chars := (remaining / 2)%nat in
  urstrip (take head_chars text) ++ marker ++ ulstrip (last_chars (remaining - head_chars) text).
