(* ===== verification/TruncationSpec.v ===== *)
(** A truncated text fits its limit, unless it ends with a line break: what is kept is the start
    and the end of the text, with a marker between them. *)

From S2P Require Import Prelude Str PyVal Truncation.

(** ** Rounding *)

(** Rounding does not pass a number of 53 bits. *)
Lemma round53_le n c j : 0 ≤ n → 0 ≤ j → 0 ≤ c ≤ 2 ^ 53 → n ≤ c * 2 ^ j → round53 n ≤ c * 2 ^ j.
Proof.
  intros Hn Hj Hc Hle. unfold round53. set (d := Z.log2 n - 52). destruct (d <=? 0) eqn:D; [done|]. apply Z.leb_gt in D.
  assert (0 < n) as Pn by (destruct (decide (n = 0)) as [E|]; [subst n; cbn in d; lia|lia]).
  pose proof (Z.log2_spec n Pn) as [L _]. replace (Z.log2 n) with (52 + d) in L by lia.
  pose proof (Z.pow_pos_nonneg 2 d ltac:(lia) ltac:(lia)) as P. pose proof (Z.div_mod n (2 ^ d) ltac:(lia)) as DM.
  pose proof (Z.mod_pos_bound n (2 ^ d) P) as MB. set (q := n / 2 ^ d) in *. set (r := n mod 2 ^ d) in *.
  destruct (decide (r = 0)) as [R|R].
  { rewrite R. replace (2 * 0) with 0 by lia. replace (2 ^ d <? 0) with false by (symmetry; apply Z.ltb_ge; lia).
    replace (0 =? 2 ^ d) with false by (symmetry; apply Z.eqb_neq; lia). cbn [orb andb]. lia. }
  assert ((q + 1) * 2 ^ d ≤ c * 2 ^ j) as Up; [|destruct (_ || _); lia].
  rewrite Z.pow_add_r in L by lia. destruct (decide (d ≤ j)) as [J|J].
  - assert (2 ^ j = 2 ^ d * 2 ^ (j - d)) as K by (rewrite <- Z.pow_add_r by lia; f_equal; lia). set (k := 2 ^ (j - d)) in *. rewrite K in *.
    set (e := 2 ^ d) in *. clearbody e k q r. assert (q < c * k) by nia. nia.
  - exfalso. assert (2 * 2 ^ j ≤ 2 ^ d) by (rewrite <- Z.pow_succ_r by lia; apply Z.pow_le_mono_r; lia).
    replace (2 ^ 53) with (2 * 2 ^ 52) in Hc by done. set (e := 2 ^ d) in *. set (t := 2 ^ 52) in *. set (k := 2 ^ j) in *.
    assert (0 < k) by (apply Z.pow_pos_nonneg; lia). clearbody e t k q r. assert (c * k ≤ t * e) by nia.
    assert (e * (t - q) = r) as X by lia. destruct (decide (1 ≤ t - q)); nia.
Qed.

Lemma round53_nonneg n : 0 ≤ n → 0 ≤ round53 n.
Proof.
  intros H. unfold round53. destruct (_ <=? 0) eqn:D; [done|]. apply Z.leb_gt in D.
  pose proof (Z.pow_pos_nonneg 2 (Z.log2 n - 52) ltac:(lia) ltac:(lia)). pose proof (Z.div_pos n (2 ^ (Z.log2 n - 52)) H ltac:(lia)).
  destruct (_ || _); nia.
Qed.

Lemma fdiv_le_one a b : 0 < a < b → let x := fdiv a b in 0 ≤ x.1 ≤ 2 ^ x.2 ∧ 0 ≤ x.2.
Proof.
  intros H. unfold fdiv. cbn [fst snd]. set (k := Z.max 0 _). assert (0 ≤ k) by lia.
  pose proof (Z.pow_pos_nonneg 2 k ltac:(lia) ltac:(lia)) as P. pose proof (Z.div_mod (a * 2 ^ k) b ltac:(lia)) as DM.
  pose proof (Z.mod_pos_bound (a * 2 ^ k) b ltac:(lia)) as MB. set (q := a * 2 ^ k / b) in *. set (r := (a * 2 ^ k) mod b) in *.
  assert (0 ≤ q) by (unfold q; apply Z.div_pos; [apply Z.mul_nonneg_nonneg|]; lia). assert (q < 2 ^ k) by nia. set (n := 2 * q + _).
  assert (0 ≤ n ≤ 1 * 2 ^ (k + 1)) as Hn by (rewrite Z.pow_add_r by lia; unfold n; destruct (_ =? 0); lia).
  split; [split; [apply round53_nonneg; lia|]|lia]. pose proof (round53_le n 1 (k + 1) ltac:(lia) ltac:(lia) ltac:(lia) ltac:(lia)). lia.
Qed.

(** Scaling down never gives more. *)
Lemma scaled_le c a b : 0 ≤ c ≤ 2 ^ 53 → 0 < a < b → trunc (fmul (fmul (of_Z c) (fdiv a b)) ninety_five_percent) ≤ c.
Proof.
  intros Hc Hab. destruct (fdiv_le_one a b Hab) as [[M0 M1] E]. set (m := (fdiv a b).1) in *. set (e := (fdiv a b).2) in *.
  unfold trunc, fmul, of_Z. cbn [fst snd]. fold m e. unfold ninety_five_percent. cbn [fst snd].
  pose proof (round53_nonneg c ltac:(lia)). pose proof (round53_le c c 0 ltac:(lia) ltac:(lia) Hc ltac:(lia)).
  pose proof (Z.pow_pos_nonneg 2 e ltac:(lia) ltac:(lia)).
  assert (0 ≤ round53 c * m ≤ c * 2 ^ e) as P1 by nia.
  pose proof (round53_nonneg (round53 c * m) ltac:(lia)). pose proof (round53_le (round53 c * m) c e ltac:(lia) E Hc ltac:(lia)) as P2.
  set (x := round53 (round53 c * m)) in *. assert (0 ≤ x * 8556839292003942 ≤ c * 2 ^ (e + 53)) as P3.
  { rewrite Z.pow_add_r by lia. replace (2 ^ 53) with 9007199254740992 by done. nia. }
  pose proof (round53_le (x * 8556839292003942) c (e + 53) ltac:(lia) ltac:(lia) Hc ltac:(lia)) as P4.
  replace (0 + e + 53) with (e + 53) by lia. apply Z.div_le_upper_bound; [apply Z.pow_pos_nonneg; lia|lia].
Qed.

(** ** Snapping *)

Lemma elem_of_newlines text lo hi i : i ∈ newlines text lo hi ↔ text !! i = Some LF ∧ (lo ≤ i < hi)%nat.
Proof. unfold newlines. rewrite list_elem_of_filter, elem_of_seq. intuition lia. Qed.

Lemma snap_head_le text size : (_snap_head_to_newline text size ≤ size)%nat.
Proof.
  unfold _snap_head_to_newline. destruct (_ || _); [done|]. destruct (last _) as [i|] eqn:L; [|done].
  apply last_Some_elem_of, elem_of_newlines in L. lia.
Qed.

Lemma snap_tail_bounds text size :
  (_snap_tail_to_newline text size ≤ size)%nat ∧ ((0 < size)%nat → last text ≠ Some LF → (0 < _snap_tail_to_newline text size)%nat).
Proof.
  unfold _snap_tail_to_newline. destruct (_ || _) eqn:G; [lia|]. apply orb_false_iff in G as [_ G]. apply Nat.leb_gt in G.
  destruct (head _) as [i|] eqn:H; [|lia]. apply head_Some_elem_of, elem_of_newlines in H as [Hi B]. split; [lia|]. intros _ NL.
  destruct (decide (i = length text - 1)%nat) as [->|]; [|lia]. destruct NL. rewrite last_lookup, <- Hi. f_equal. lia.
Qed.

(** ** Cutting *)

Section Spec.
Context (repr : ustr → ustr) (call_id : option ustr) (anchors : list ustr).

Notation cut := (_middle_truncate_chars repr call_id anchors).
Notation marker_of := (marker_of repr call_id anchors).

(** The start of a text, or its start and its end around the marker, at most [limit] long. *)
Definition kept_ends (text : ustr) (limit : Z) (r : ustr) : Prop :=
  Z.of_nat (length r) ≤ limit ∧
  ((∃ n, r = take n text) ∨
   ∃ h t, (0 < t)%nat ∧ (h + t < length text)%nat ∧ r = take h text ++ marker_of text ++ drop (length text - t) text).

Lemma cut_keeps_ends text budget limit :
  0 ≤ budget ≤ limit → limit < Z.of_nat (length text) → last text ≠ Some LF → kept_ends text limit (cut text budget).
Proof.
  intros B L NL. unfold _middle_truncate_chars. set (available := budget - _). destruct (available <? 100) eqn:A.
  - split; [rewrite length_take; lia|eauto].
  - apply Z.ltb_ge in A. pose proof (snap_head_le text (Z.to_nat (available / 2))) as H. set (h := _snap_head_to_newline _ _) in *.
    assert (0 ≤ available / 2) by (apply Z.div_pos; lia). assert (Z.of_nat h ≤ available / 2) as Hh by lia.
    assert (available / 2 < available) as Half by (apply Z.div_lt; lia).
    destruct (snap_tail_bounds text (Z.to_nat available - h)) as [T1 T2]. set (t := _snap_tail_to_newline _ _) in *.
    specialize (T2 ltac:(lia) NL). unfold last_chars. replace (t =? 0)%nat with false by (symmetry; apply Nat.eqb_neq; lia).
    split; [rewrite !length_app, length_take, length_drop; unfold available in *; lia|right]. exists h, t. split_and!; [done|unfold available in *; lia|done].
Qed.

Lemma shrink_keeps_ends counter tries text max_tokens candidate limit r :
  0 < max_tokens → 500 ≤ candidate ≤ limit → limit ≤ 2 ^ 53 → limit < Z.of_nat (length text) → last text ≠ Some LF →
  kept_ends text limit r → kept_ends text limit (shrink repr call_id anchors counter tries text max_tokens candidate r).
Proof.
  intros Hm Hc Hl L NL. revert candidate Hc r. induction tries as [|tries IH]; intros candidate Hc r K; cbn [shrink]; [done|].
  destruct (counter r) as [n|]; [|done]. destruct (n <=? max_tokens) eqn:G; [done|]. apply Z.leb_gt in G.
  pose proof (scaled_le candidate max_tokens (Z.max 1 n) ltac:(lia) ltac:(lia)).
  unfold _MIN_TRUNCATION_SIZE. apply IH; [lia|]. apply cut_keeps_ends; [lia|done..].
Qed.

(** A text that does not end with a line break is left as it is, if it is short enough, or
    comes out within the limit: as its first characters, or as its start and its end with the
    marker between them. *)
Theorem truncated_texts_fit text max_chars counter max_tokens :
  500 ≤ max_chars ≤ 2 ^ 53 → last text ≠ Some LF →
  let '(r, truncated) := middle_truncate repr call_id anchors text max_chars counter max_tokens in
  if truncated then kept_ends text max_chars r else r = text ∧ Z.of_nat (length r) ≤ max_chars.
Proof.
  intros Hm NL. unfold middle_truncate, _MIN_TRUNCATION_SIZE. replace (max_chars <? 500) with false by (symmetry; apply Z.ltb_ge; lia).
  rewrite orb_false_r. destruct (_ <=? max_chars) eqn:L; [apply Z.leb_le in L; done|]. apply Z.leb_gt in L.
  assert (kept_ends text max_chars (cut text max_chars)) as Plain by (apply cut_keeps_ends; [lia|done..]).
  destruct counter as [counter|], max_tokens as [m|]; try done. destruct (_ && _) eqn:G; [|done]. apply andb_true_iff in G as [G _].
  apply Z.ltb_lt in G. unfold _middle_truncate_by_tokens. destruct (counter text) as [n|]; [|done]. unfold _MIN_TRUNCATION_SIZE.
  apply shrink_keeps_ends; [done|lia|lia|done|done|]. apply cut_keeps_ends; [lia|done..].
Qed.
End Spec.

(** ** Messages *)

Lemma strip_by_length p s : (length (lstrip_by p s) ≤ length s)%nat ∧ (length (rstrip_by p s) ≤ length s)%nat.
Proof.
  assert (∀ s, (length (lstrip_by p s) ≤ length s)%nat) as H by (clear; induction s as [|c s IH]; cbn; [done|destruct (p c); cbn; lia]).
  split; [apply H|]. unfold rstrip_by. rewrite length_reverse. specialize (H (reverse s)). by rewrite length_reverse in H.
Qed.

(** A long message in a compaction prompt is cut to its limit. *)
Theorem messages_are_cut_to_the_limit text max_chars :
  0 ≤ max_chars → Z.of_nat (length (_truncate_middle text max_chars)) ≤ max_chars.
Proof.
  intros H. unfold _truncate_middle. destruct (_ <=? max_chars) eqn:L; [by apply Z.leb_le in L|]. apply Z.leb_gt in L.
  set (marker := truncation_note _). destruct (_ <=? length marker)%nat eqn:M; [rewrite length_take; lia|]. apply Nat.leb_gt in M.
  set (remaining := (Z.to_nat max_chars - length marker)%nat). pose proof (Nat.div_lt remaining 2 ltac:(lia) ltac:(lia)).
  pose proof (proj2 (strip_by_length uspace (take (remaining / 2) text))) as S1.
  pose proof (proj1 (strip_by_length uspace (last_chars (remaining - remaining / 2) text))) as S2. fold urstrip ulstrip in *.
  unfold last_chars in *. replace (remaining - remaining / 2 =? 0)%nat with false in * by (symmetry; apply Nat.eqb_neq; lia).
  rewrite length_take in S1. rewrite length_drop in S2. rewrite !length_app. unfold remaining in *. lia.
Qed.

(** ** Concrete texts *)

Definition quote (s : ustr) : ustr := [39%N] ++ s ++ [39%N].
Definition one_line (n : nat) : ustr := replicate n 97%N.
Definition words (s : ustr) : option Z := Some (Z.of_nat (length s) / 4).

Lemma truncated_texts_fit_witness :
  let '(r, truncated) := middle_truncate quote (Some (u "call_1")) [u "part one"] (one_line 3000) 1000 (Some words) (Some 200) in
  if truncated then kept_ends quote (Some (u "call_1")) [u "part one"] (one_line 3000) 1000 r
  else r = one_line 3000 ∧ Z.of_nat (length r) ≤ 1000.
Proof.
  refine (truncated_texts_fit quote (Some (u "call_1")) [u "part one"] (one_line 3000) 1000 (Some words) (Some 200) _ _); [lia|].
  vm_compute. discriminate.
Defined.

(** One long line that ends with a line break: the end kept is empty, [text[-0:]] is all of the
    text, and the "truncated" text is longer than the text. *)
Example a_truncated_line_gets_longer :
  let text := one_line 999 ++ [LF] in
  let '(r, truncated) := middle_truncate quote None [] text 600 None None in
  length text = 1000%nat ∧ truncated = true ∧ length r = 1324%nat ∧ drop 324 r = text.
Proof. vm_compute. repeat split. Qed.

Lemma messages_are_cut_to_the_limit_witness : Z.of_nat (length (_truncate_middle (one_line 300) 200)) ≤ 200.
Proof. apply (messages_are_cut_to_the_limit (one_line 300) 200). lia. Defined.
