(* ===== verification/Workflow.v ===== *)
(** Workflows ([cognis/models/workflow.py]): the steps of a process and how control moves between
    them, the sources a step takes its input from, and the validation of a definition
    ([cognis/core/workflow_registry.py]).  Fields that only prompts, sessions and user interfaces
    read are left out. *)

From S2P Require Import Prelude PyVal Gates.

(** ** Definitions *)

Inductive exhausted_action := XContinue | XFail | XGate.

#[global] Instance exhausted_action_eq_dec : EqDecision exhausted_action.
Proof. solve_decision. Defined.

Record GateOption := { go_label : string; go_action : string }.

Record GateConfig := {
  g_message : string;
  g_input : list string;
  g_options : list GateOption;
  g_conditions : list string;
  g_thresholds : pydict;
  g_timeout_seconds : Z;
  g_timeout_action : string }.

(** [GateConfig(message=..., options=...)] *)
Definition simple_gate (message : string) (options : list GateOption) : GateConfig :=
  {| g_message := message; g_input := []; g_options := options; g_conditions := []; g_thresholds := [];
     g_timeout_seconds := 3600; g_timeout_action := "fail" |}.

Record CompletionConfig := { evaluate : bool; max_attempts : Z; on_exhausted : exhausted_action }.
Record OnRejectConfig := { r_target : string; r_max_loop_iterations : Z; r_on_exhausted : exhausted_action }.
Record OutcomeRoute := {
  o_status : string; o_action : string; o_max_loop_iterations : option Z; o_on_exhausted : exhausted_action }.

Inductive input_type := INull | IFull | ISummary | ILast.

#[global] Instance input_type_eq_dec : EqDecision input_type.
Proof. solve_decision. Defined.

(** [source] is a name or a list of names. *)
Inductive input_source := One (name : string) | Many (names : list string).
Record StepInputConfig := { i_type : input_type; i_source : option input_source; reuse_session_from : option string }.

Record DeterministicOutputConfig := {
  d_summary : string; d_content : option string; d_outputs : pydict; d_metadata : pydict }.

Record ToolCallStepConfig := {
  tool : string; args : pydict; tc_summary : option string; tc_outputs : pydict; fail_on_error : bool;
  timeout_seconds : option Z; allow_side_effects : bool }.

Record ConditionStepConfig := {
  if_ : string; then_ : option string; else_ : option string; c_output : option DeterministicOutputConfig;
  revision_source : option string; c_max_loop_iterations : option Z; c_on_exhausted : exhausted_action }.

Record CompleteStepConfig := {
  cs_status : string; cs_summary : string; cs_content : option string; cs_outputs : pydict;
  delivery_mode_override : option string }.

Inductive step_type := TRun | TGate | TToolCall | TCondition | TComplete.

#[global] Instance step_type_eq_dec : EqDecision step_type.
Proof. solve_decision. Defined.

Definition step_type_name (t : step_type) : string :=
  match t with TRun => "run" | TGate => "gate" | TToolCall => "tool_call" | TCondition => "condition" | TComplete => "complete" end.

Record StepDefinition := {
  s_name : string;
  s_type : step_type;
  defer_to : list string;
  agent_override : option string;
  agent_profile_id : option string;
  s_input : option StepInputConfig;
  completion : option CompletionConfig;
  s_gate : option GateConfig;
  on_reject : option OnRejectConfig;
  outcome_routes : list OutcomeRoute;
  metadata_fields : list string;
  s_when : option string;
  on_skip : option DeterministicOutputConfig;
  on_error : option string;
  s_next : option string;
  tool_call : option ToolCallStepConfig;
  condition : option ConditionStepConfig;
  complete : option CompleteStepConfig }.

(** [type in {"tool_call", "condition", "complete"}] *)
Definition deterministic (s : StepDefinition) : bool :=
  match s_type s with TToolCall | TCondition | TComplete => true | TRun | TGate => false end.

Record WorkflowDefaults := { df_max_attempts : Z; df_evaluate : bool; df_on_exhausted : exhausted_action }.

Record Workflow := { interaction_mode : string; defaults : WorkflowDefaults; steps : list StepDefinition }.

(** ** Where the input of a step comes from *)

(** The nearest run step before an index. *)
Fixpoint last_run_step (steps : list StepDefinition) (best : option string) : option string :=
  match steps with
  | [] => best
  | s :: steps => last_run_step steps (if bool_decide (s_type s = TRun) then Some (s_name s) else best)
  end.

Definition _find_previous_run_step (step_index : nat) (workflow_steps : list StepDefinition) : option string :=
  last_run_step (take step_index workflow_steps) None.

Definition null_input : StepInputConfig := {| i_type := INull; i_source := None; reuse_session_from := None |}.

Definition resolve_effective_input (step_def : StepDefinition) (step_index : nat) (workflow_steps : list StepDefinition)
    : StepInputConfig :=
  let previous t reuse :=
    if (step_index =? 0)%nat then null_input
    else match _find_previous_run_step step_index workflow_steps with
         | None => null_input
         | Some prev => {| i_type := t; i_source := Some (One prev); reuse_session_from := reuse |}
         end in
  match s_input step_def with
  | None => previous ILast None
  | Some config =>
      match i_type config, i_source config with
      | (ILast | ISummary | IFull) as t, None => previous t (reuse_session_from config)
      | _, _ => config
      end
  end.

Definition source_names (config : StepInputConfig) : list string :=
  match i_source config with None => [] | Some (One s) => [s] | Some (Many l) => l end.

Definition is_run (s : StepDefinition) : bool := bool_decide (s_type s = TRun).

Definition resolve_source_names (step_def : StepDefinition) (step_index : nat) (workflow_steps : list StepDefinition)
    : list string :=
  let names := source_names (resolve_effective_input step_def step_index workflow_steps) in
  if bool_decide (names = ["all"]) then s_name <$> filter (λ s, is_run s) (take step_index workflow_steps) else names.

(** ** Validation of a definition *)

Inductive workflow_error :=
| DuplicateName (step : string)
| UnknownOrLaterInput (step ref : string)
| CannotReuse (step ref : string)
| CannotDefer (step target : string)
| BadRejectTarget (step target : string)
| BadOutcomeRoute (step action : string)
| GateWithoutConfig (step : string)
| BadRevisionSource (step ref : string)
| UnknownTarget (step target : string)
| JumpsToItself (step : string)
| BadGateCondition (e : gate_error).

(** [raise] when a test holds. *)
Definition reject (b : bool) (e : workflow_error) : result workflow_error unit := if b then Err e else Ok tt.

Fixpoint check_all {A} (f : A → result workflow_error unit) (l : list A) : result workflow_error unit :=
  match l with
  | [] => Ok tt
  | x :: l => let? _ := f x in check_all f l
  end.

(** [step_names.index(name)] and [name in step_names]. *)
Fixpoint index_of (name : string) (names : list string) : option nat :=
  match names with
  | [] => None
  | n :: names => if decide (name = n) then Some 0%nat else S <$> index_of name names
  end.

Definition different (x y : option string) : bool :=
  match x, y with Some a, Some b => negb (bool_decide (a = b)) | _, _ => false end.

(** [reuse_session_from] of the step at [i]. *)
Definition check_reuse (all : list StepDefinition) (i : nat) (step : StepDefinition) : result workflow_error unit :=
  match s_input step ≫= reuse_session_from with
  | None => Ok tt
  | Some reuse_source =>
      let err := CannotReuse (s_name step) reuse_source in
      let? _ := reject (negb (is_run step)) err in
      let? _ := reject (bool_decide (reuse_source = s_name step)) err in
      match index_of reuse_source (s_name <$> all) ≫= λ j, (λ s, (j, s)) <$> all !! j with
      | None => Err err
      | Some (source_index, source_step) =>
          let? _ := reject (i <=? source_index)%nat err in
          let? _ := reject (negb (is_run source_step)) err in
          let? _ := reject (negb (bool_decide (reuse_source ∈ resolve_source_names step i all))) err in
          let? _ := reject (different (agent_override source_step) (agent_override step)) err in
          reject (different (agent_profile_id source_step) (agent_profile_id step)) err
      end
  end.

(** A name that must be that of a step before [i], or of one after it. *)
Definition not_before (names : list string) (i : nat) (name : string) : bool :=
  match index_of name names with Some j => (i <=? j)%nat | None => true end.

Definition not_after (names : list string) (i : nat) (name : string) : bool :=
  match index_of name names with Some j => (j <=? i)%nat | None => true end.

(** The target of [revise(name)] in an outcome route: [action[7:-1]]. *)
Definition revise_call (action : string) : option string :=
  let a := tx action in
  if startswith a (tx "revise(") && endswith a (tx ")") then Some (untx (take (length a - 8) (drop 7 a))) else None.

(** Both forms, as the engine reads them. *)
Definition _parse_revise_action (action : string) : option string :=
  match revise_call action with
  | Some target => Some target
  | None => if startswith (tx action) (tx "revise:") then Some (untx (drop 7 (tx action))) else None
  end.

Definition check_route (names : list string) (i : nat) (step : StepDefinition) (route : OutcomeRoute)
    : result workflow_error unit :=
  if bool_decide (o_action route ∈ ["continue"; "fail"; "gate"; "cancel"]) then Ok tt
  else match revise_call (o_action route) with
       | None => Err (BadOutcomeRoute (s_name step) (o_action route))
       | Some target => reject (not_before names i target) (BadOutcomeRoute (s_name step) (o_action route))
       end.

Definition check_target (names : list string) (step : StepDefinition) (target : string) : result workflow_error unit :=
  let? _ := reject (negb (bool_decide (target ∈ names))) (UnknownTarget (s_name step) target) in
  reject (bool_decide (target = s_name step)) (JumpsToItself (s_name step)).

Definition deterministic_targets (step : StepDefinition) : list string :=
  option_list (s_next step) ++
  match condition step with Some c => option_list (then_ c) ++ option_list (else_ c) | None => [] end.

(** One turn of the loop of [_validate_workflow]; [seen] are the names of the steps before. *)
Definition check_step (all : list StepDefinition) (i : nat) (step : StepDefinition) : result workflow_error unit :=
  let names := s_name <$> all in
  let seen := take i names in
  let name := s_name step in
  let? _ := reject (bool_decide (name ∈ seen)) (DuplicateName name) in
  let? _ := check_all (λ ref, reject (negb (bool_decide (ref ∈ seen ++ [name]))) (UnknownOrLaterInput name ref))
              (resolve_source_names step i all) in
  let? _ := check_reuse all i step in
  let? _ := check_all (λ target, reject (not_after names i target) (CannotDefer name target)) (defer_to step) in
  let? _ := match on_reject step with
            | Some r => reject (not_before names i (r_target r)) (BadRejectTarget name (r_target r))
            | None => Ok tt
            end in
  let? _ := check_all (check_route names i step) (outcome_routes step) in
  let? _ := reject (bool_decide (s_type step = TGate) && negb (bool_decide (is_Some (s_gate step)))) (GateWithoutConfig name) in
  let? _ := match condition step ≫= revision_source with
            | Some ref => reject (not_before names i ref) (BadRevisionSource name ref)
            | None => Ok tt
            end in
  check_all (check_target names step) (deterministic_targets step).

Fixpoint check_steps (all : list StepDefinition) (i : nat) (l : list StepDefinition) : result workflow_error unit :=
  match l with
  | [] => Ok tt
  | s :: l => let? _ := check_step all i s in check_steps all (S i) l
  end.

(** The steps as [validate_gate_conditions] reads them. *)
Definition gate_view (s : StepDefinition) : Gates.step :=
  Gates.Step (s_name s) (match s_gate s with Some g => g_conditions g | None => [] end) (metadata_fields s).

Definition _validate_workflow (ast_parse : string → option expr) (workflow : Workflow) : result workflow_error unit :=
  let? _ := check_steps (steps workflow) 0 (steps workflow) in
  match validate_gate_conditions ast_parse (gate_view <$> steps workflow) with
  | Ok _ => Ok tt
  | Err e => Err (BadGateCondition e)
  end.
