(* ===== verification/WorkflowEngine.v ===== *)
(** The workflow engine ([cognis/core/workflow_engine.py]): running the steps of a workflow, their
    evaluation, retries and review loops, gates and their resumption after a restart, deterministic
    steps and the routes between steps.

    A method is a computation over the engine's memory (the task and its workflow state), the task's
    row and the rows of deterministic steps.  Everything outside is a record of answers ([outside]):
    what the n-th await finds, and whether it raises.  A process that dies is an await that raises
    [ECancelled], which nothing catches; the next run starts from the row.  Sessions, events,
    metrics and the audit rows of gates are left out. *)

From S2P Require Import Prelude PyVal Gates Lease Tables Tasks Workflow.

(** ** Outputs and state *)

Record StepOutput := {
  so_summary : string;
  so_content : string;
  so_outputs : pydict;
  so_metadata : pydict;
  so_claims : list string;
  so_outcome : option (string * option string);
  so_deliverable_id : option string;
  so_error : option string;
  so_session_id : option string }.

Definition set_metadata (m : pydict) (o : StepOutput) : StepOutput :=
  {| so_summary := so_summary o; so_content := so_content o; so_outputs := so_outputs o; so_metadata := m;
     so_claims := so_claims o; so_outcome := so_outcome o; so_deliverable_id := so_deliverable_id o;
     so_error := so_error o; so_session_id := so_session_id o |}.

(** A plain output, as the deterministic steps make them. *)
Definition made_output (summary content : string) (outputs metadata : pydict) (error : option string) : StepOutput :=
  {| so_summary := summary; so_content := content; so_outputs := outputs; so_metadata := metadata; so_claims := [];
     so_outcome := None; so_deliverable_id := None; so_error := error; so_session_id := None |}.

(** [d.update(e)] *)
Definition dict_update {A} (d e : list (string * A)) : list (string * A) := foldl (λ d x, od_set x.1 x.2 d) d e.

Definition opt_str (s : option string) : pyval := match s with Some s => PStr s | None => PNone end.

(** [model_dump], the fields that conditions of gates can read. *)
Definition dump (o : StepOutput) : pyval :=
  PDict [("summary", PStr (so_summary o)); ("content", PStr (so_content o)); ("outputs", PDict (so_outputs o));
         ("metadata", PDict (so_metadata o)); ("error", opt_str (so_error o))].

Inductive decision := Approved | Revise | Failed_.

#[global] Instance decision_eq_dec : EqDecision decision.
Proof. solve_decision. Defined.

Record StepEvaluation := { ev_decision : decision; ev_reasoning : string; ev_feedback : option string }.

(** [pending_pause_payload]; older versions may have left fields out. *)
Record pause := {
  p_pause_id : option string;
  p_step_name : option string;
  p_message : string;
  p_context : list (string * StepOutput);
  p_gate_definition : option GateConfig;
  p_origin_step : option string;
  p_origin_step_index : option nat;
  p_task_attempt : option Z;
  p_expires_at : option Z;
  p_next_step_index : option nat }.

Definition no_pause : pause :=
  {| p_pause_id := None; p_step_name := None; p_message := ""; p_context := []; p_gate_definition := None;
     p_origin_step := None; p_origin_step_index := None; p_task_attempt := None; p_expires_at := None; p_next_step_index := None |}.

Inductive run_status := WRunning | WPaused | WCompleted | WFailed | WCancelled.

#[global] Instance run_status_eq_dec : EqDecision run_status.
Proof. solve_decision. Defined.

Record WorkflowState := {
  current_step_index : nat;
  step_outputs : list (string * StepOutput);
  loop_iterations : list (string * Z);
  version : Z;
  last_consumed_gate_id : option string;
  ws_status : run_status;
  skipped_steps : list string;
  routing_skips : list (string * string);
  last_evaluation_feedback : option string;
  last_retry_reason : option string;
  last_revision_context : option string;
  last_operator_instruction : option string;
  pending_pause_type : option string;
  pending_pause_payload : option pause;
  current_step_status : option string;
  resume_failed_step : bool }.

Definition set_current_step_index (x : nat) (s : WorkflowState) : WorkflowState :=
  {| current_step_index := x; step_outputs := step_outputs s; loop_iterations := loop_iterations s;
     version := version s; last_consumed_gate_id := last_consumed_gate_id s; ws_status := ws_status s;
     skipped_steps := skipped_steps s; routing_skips := routing_skips s;
     last_evaluation_feedback := last_evaluation_feedback s; last_retry_reason := last_retry_reason s;
     last_revision_context := last_revision_context s; last_operator_instruction := last_operator_instruction s;
     pending_pause_type := pending_pause_type s; pending_pause_payload := pending_pause_payload s;
     current_step_status := current_step_status s; resume_failed_step := resume_failed_step s |}.
Definition set_step_outputs (x : list (string * StepOutput)) (s : WorkflowState) : WorkflowState :=
  {| current_step_index := current_step_index s; step_outputs := x; loop_iterations := loop_iterations s;
     version := version s; last_consumed_gate_id := last_consumed_gate_id s; ws_status := ws_status s;
     skipped_steps := skipped_steps s; routing_skips := routing_skips s;
     last_evaluation_feedback := last_evaluation_feedback s; last_retry_reason := last_retry_reason s;
     last_revision_context := last_revision_context s; last_operator_instruction := last_operator_instruction s;
     pending_pause_type := pending_pause_type s; pending_pause_payload := pending_pause_payload s;
     current_step_status := current_step_status s; resume_failed_step := resume_failed_step s |}.
Definition set_loop_iterations (x : list (string * Z)) (s : WorkflowState) : WorkflowState :=
  {| current_step_index := current_step_index s; step_outputs := step_outputs s; loop_iterations := x;
     version := version s; last_consumed_gate_id := last_consumed_gate_id s; ws_status := ws_status s;
     skipped_steps := skipped_steps s; routing_skips := routing_skips s;
     last_evaluation_feedback := last_evaluation_feedback s; last_retry_reason := last_retry_reason s;
     last_revision_context := last_revision_context s; last_operator_instruction := last_operator_instruction s;
     pending_pause_type := pending_pause_type s; pending_pause_payload := pending_pause_payload s;
     current_step_status := current_step_status s; resume_failed_step := resume_failed_step s |}.
Definition set_version (x : Z) (s : WorkflowState) : WorkflowState :=
  {| current_step_index := current_step_index s; step_outputs := step_outputs s;
     loop_iterations := loop_iterations s; version := x; last_consumed_gate_id := last_consumed_gate_id s;
     ws_status := ws_status s; skipped_steps := skipped_steps s; routing_skips := routing_skips s;
     last_evaluation_feedback := last_evaluation_feedback s; last_retry_reason := last_retry_reason s;
     last_revision_context := last_revision_context s; last_operator_instruction := last_operator_instruction s;
     pending_pause_type := pending_pause_type s; pending_pause_payload := pending_pause_payload s;
     current_step_status := current_step_status s; resume_failed_step := resume_failed_step s |}.
Definition set_last_consumed_gate_id (x : option string) (s : WorkflowState) : WorkflowState :=
  {| current_step_index := current_step_index s; step_outputs := step_outputs s;
     loop_iterations := loop_iterations s; version := version s; last_consumed_gate_id := x;
     ws_status := ws_status s; skipped_steps := skipped_steps s; routing_skips := routing_skips s;
     last_evaluation_feedback := last_evaluation_feedback s; last_retry_reason := last_retry_reason s;
     last_revision_context := last_revision_context s; last_operator_instruction := last_operator_instruction s;
     pending_pause_type := pending_pause_type s; pending_pause_payload := pending_pause_payload s;
     current_step_status := current_step_status s; resume_failed_step := resume_failed_step s |}.
Definition set_ws_status (x : run_status) (s : WorkflowState) : WorkflowState :=
  {| current_step_index := current_step_index s; step_outputs := step_outputs s;
     loop_iterations := loop_iterations s; version := version s; last_consumed_gate_id := last_consumed_gate_id s;
     ws_status := x; skipped_steps := skipped_steps s; routing_skips := routing_skips s;
     last_evaluation_feedback := last_evaluation_feedback s; last_retry_reason := last_retry_reason s;
     last_revision_context := last_revision_context s; last_operator_instruction := last_operator_instruction s;
     pending_pause_type := pending_pause_type s; pending_pause_payload := pending_pause_payload s;
     current_step_status := current_step_status s; resume_failed_step := resume_failed_step s |}.
Definition set_skipped_steps (x : list string) (s : WorkflowState) : WorkflowState :=
  {| current_step_index := current_step_index s; step_outputs := step_outputs s;
     loop_iterations := loop_iterations s; version := version s; last_consumed_gate_id := last_consumed_gate_id s;
     ws_status := ws_status s; skipped_steps := x; routing_skips := routing_skips s;
     last_evaluation_feedback := last_evaluation_feedback s; last_retry_reason := last_retry_reason s;
     last_revision_context := last_revision_context s; last_operator_instruction := last_operator_instruction s;
     pending_pause_type := pending_pause_type s; pending_pause_payload := pending_pause_payload s;
     current_step_status := current_step_status s; resume_failed_step := resume_failed_step s |}.
Definition set_routing_skips (x : list (string * string)) (s : WorkflowState) : WorkflowState :=
  {| current_step_index := current_step_index s; step_outputs := step_outputs s;
     loop_iterations := loop_iterations s; version := version s; last_consumed_gate_id := last_consumed_gate_id s;
     ws_status := ws_status s; skipped_steps := skipped_steps s; routing_skips := x;
     last_evaluation_feedback := last_evaluation_feedback s; last_retry_reason := last_retry_reason s;
     last_revision_context := last_revision_context s; last_operator_instruction := last_operator_instruction s;
     pending_pause_type := pending_pause_type s; pending_pause_payload := pending_pause_payload s;
     current_step_status := current_step_status s; resume_failed_step := resume_failed_step s |}.
Definition set_last_evaluation_feedback (x : option string) (s : WorkflowState) : WorkflowState :=
  {| current_step_index := current_step_index s; step_outputs := step_outputs s;
     loop_iterations := loop_iterations s; version := version s; last_consumed_gate_id := last_consumed_gate_id s;
     ws_status := ws_status s; skipped_steps := skipped_steps s; routing_skips := routing_skips s;
     last_evaluation_feedback := x; last_retry_reason := last_retry_reason s;
     last_revision_context := last_revision_context s; last_operator_instruction := last_operator_instruction s;
     pending_pause_type := pending_pause_type s; pending_pause_payload := pending_pause_payload s;
     current_step_status := current_step_status s; resume_failed_step := resume_failed_step s |}.
Definition set_last_retry_reason (x : option string) (s : WorkflowState) : WorkflowState :=
  {| current_step_index := current_step_index s; step_outputs := step_outputs s;
     loop_iterations := loop_iterations s; version := version s; last_consumed_gate_id := last_consumed_gate_id s;
     ws_status := ws_status s; skipped_steps := skipped_steps s; routing_skips := routing_skips s;
     last_evaluation_feedback := last_evaluation_feedback s; last_retry_reason := x;
     last_revision_context := last_revision_context s; last_operator_instruction := last_operator_instruction s;
     pending_pause_type := pending_pause_type s; pending_pause_payload := pending_pause_payload s;
     current_step_status := current_step_status s; resume_failed_step := resume_failed_step s |}.
Definition set_last_revision_context (x : option string) (s : WorkflowState) : WorkflowState :=
  {| current_step_index := current_step_index s; step_outputs := step_outputs s;
     loop_iterations := loop_iterations s; version := version s; last_consumed_gate_id := last_consumed_gate_id s;
     ws_status := ws_status s; skipped_steps := skipped_steps s; routing_skips := routing_skips s;
     last_evaluation_feedback := last_evaluation_feedback s; last_retry_reason := last_retry_reason s;
     last_revision_context := x; last_operator_instruction := last_operator_instruction s;
     pending_pause_type := pending_pause_type s; pending_pause_payload := pending_pause_payload s;
     current_step_status := current_step_status s; resume_failed_step := resume_failed_step s |}.
Definition set_last_operator_instruction (x : option string) (s : WorkflowState) : WorkflowState :=
  {| current_step_index := current_step_index s; step_outputs := step_outputs s;
     loop_iterations := loop_iterations s; version := version s; last_consumed_gate_id := last_consumed_gate_id s;
     ws_status := ws_status s; skipped_steps := skipped_steps s; routing_skips := routing_skips s;
     last_evaluation_feedback := last_evaluation_feedback s; last_retry_reason := last_retry_reason s;
     last_revision_context := last_revision_context s; last_operator_instruction := x;
     pending_pause_type := pending_pause_type s; pending_pause_payload := pending_pause_payload s;
     current_step_status := current_step_status s; resume_failed_step := resume_failed_step s |}.
Definition set_pending_pause_type (x : option string) (s : WorkflowState) : WorkflowState :=
  {| current_step_index := current_step_index s; step_outputs := step_outputs s;
     loop_iterations := loop_iterations s; version := version s; last_consumed_gate_id := last_consumed_gate_id s;
     ws_status := ws_status s; skipped_steps := skipped_steps s; routing_skips := routing_skips s;
     last_evaluation_feedback := last_evaluation_feedback s; last_retry_reason := last_retry_reason s;
     last_revision_context := last_revision_context s; last_operator_instruction := last_operator_instruction s;
     pending_pause_type := x; pending_pause_payload := pending_pause_payload s;
     current_step_status := current_step_status s; resume_failed_step := resume_failed_step s |}.
Definition set_pending_pause_payload (x : option pause) (s : WorkflowState) : WorkflowState :=
  {| current_step_index := current_step_index s; step_outputs := step_outputs s;
     loop_iterations := loop_iterations s; version := version s; last_consumed_gate_id := last_consumed_gate_id s;
     ws_status := ws_status s; skipped_steps := skipped_steps s; routing_skips := routing_skips s;
     last_evaluation_feedback := last_evaluation_feedback s; last_retry_reason := last_retry_reason s;
     last_revision_context := last_revision_context s; last_operator_instruction := last_operator_instruction s;
     pending_pause_type := pending_pause_type s; pending_pause_payload := x;
     current_step_status := current_step_status s; resume_failed_step := resume_failed_step s |}.
Definition set_current_step_status (x : option string) (s : WorkflowState) : WorkflowState :=
  {| current_step_index := current_step_index s; step_outputs := step_outputs s;
     loop_iterations := loop_iterations s; version := version s; last_consumed_gate_id := last_consumed_gate_id s;
     ws_status := ws_status s; skipped_steps := skipped_steps s; routing_skips := routing_skips s;
     last_evaluation_feedback := last_evaluation_feedback s; last_retry_reason := last_retry_reason s;
     last_revision_context := last_revision_context s; last_operator_instruction := last_operator_instruction s;
     pending_pause_type := pending_pause_type s; pending_pause_payload := pending_pause_payload s;
     current_step_status := x; resume_failed_step := resume_failed_step s |}.
Definition set_resume_failed_step (x : bool) (s : WorkflowState) : WorkflowState :=
  {| current_step_index := current_step_index s; step_outputs := step_outputs s;
     loop_iterations := loop_iterations s; version := version s; last_consumed_gate_id := last_consumed_gate_id s;
     ws_status := ws_status s; skipped_steps := skipped_steps s; routing_skips := routing_skips s;
     last_evaluation_feedback := last_evaluation_feedback s; last_retry_reason := last_retry_reason s;
     last_revision_context := last_revision_context s; last_operator_instruction := last_operator_instruction s;
     pending_pause_type := pending_pause_type s; pending_pause_payload := pending_pause_payload s;
     current_step_status := current_step_status s; resume_failed_step := x |}.

(** [d.get(k, default)] of counters. *)
Definition counter (k : string) (default : Z) (s : WorkflowState) : Z :=
  match od_get k (loop_iterations s) with Some n => n | None => default end.
Definition set_counter (k : string) (n : Z) (s : WorkflowState) : WorkflowState := set_loop_iterations (od_set k n (loop_iterations s)) s.
Definition pop_counter (k : string) (s : WorkflowState) : WorkflowState := set_loop_iterations (od_del k (loop_iterations s)) s.

(** The keys of [loop_iterations]. *)
Definition attempts_key (name : string) : string := "attempts:" +:+ name.
Definition recovery_key (name : string) : string := "recovery:" +:+ name.
Definition unavailable_key (name : string) : string := "transient_executor_unavailable:" +:+ name.
Definition generation_key (name : string) : string := "deterministic_generation:" +:+ name.
Definition jumps_key : string := "deterministic_jumps".
Definition review_key (target name : string) : string := target +:+ "->" +:+ name.
Definition outcome_key (name action : string) : string := "outcome:" +:+ name +:+ ":" +:+ action.
Definition condition_key (name target : string) : string := "condition:" +:+ name +:+ "->" +:+ target.

Definition generation (name : string) (s : WorkflowState) : Z := counter (generation_key name) 0 s.

(** ** The rows *)

(** The task's row, as far as the engine uses it. *)
Record task_row := { d_status : TaskStatus; d_attempt : Z; d_state : WorkflowState }.

Definition row_pause_id (r : task_row) : option string := pending_pause_payload (d_state r) ≫= p_pause_id.

(** [update_task_status] *)
Definition row_update_status (s : TaskStatus) (expected_status : option TaskStatus) (expected_attempt : option Z)
    (expected_pause : option string) (r : task_row) : task_row * bool :=
  if bool_decide (d_status r ∈ allowed_from s) &&
     match expected_status with Some e => bool_decide (d_status r = e) | None => true end &&
     match expected_pause with Some p => bool_decide (row_pause_id r = Some p) | None => true end &&
     match expected_attempt with Some n => d_attempt r =? n | None => true end
  then ({| d_status := s; d_attempt := d_attempt r; d_state := d_state r |}, true)
  else (r, false).

(** [update_task_workflow_state] *)
Definition row_update_state (s : WorkflowState) (expected_version : option Z) (r : task_row) : task_row * bool :=
  if match expected_version with Some v => version (d_state r) =? v - 1 | None => true end
  then ({| d_status := d_status r; d_attempt := d_attempt r; d_state := s |}, true)
  else (r, false).

(** [defer_running_task] *)
Definition row_defer (s : WorkflowState) (r : task_row) : task_row * bool :=
  if bool_decide (d_status r = RUNNING) then ({| d_status := READY; d_attempt := d_attempt r; d_state := s |}, true)
  else (r, false).

(** The [runtime_info] of a deterministic step's row. *)
Record run_info := {
  ri_substate : string;
  ri_generation : option Z;
  ri_terminal_status : option string;
  ri_read_only : option bool;
  ri_condition_exhausted : bool;
  ri_selected_target : option string;
  ri_next_step_index : option nat;
  ri_workflow_status : option string;
  ri_delivery_mode_override : option string;
  ri_error_action : option string;
  ri_route_loop_key : option string;
  ri_route_loop_iterations : option Z;
  ri_revision_context : option string }.

Definition set_ri_substate (x : string) (s : run_info) : run_info :=
  {| ri_substate := x; ri_generation := ri_generation s; ri_terminal_status := ri_terminal_status s;
     ri_read_only := ri_read_only s; ri_condition_exhausted := ri_condition_exhausted s;
     ri_selected_target := ri_selected_target s; ri_next_step_index := ri_next_step_index s;
     ri_workflow_status := ri_workflow_status s; ri_delivery_mode_override := ri_delivery_mode_override s;
     ri_error_action := ri_error_action s; ri_route_loop_key := ri_route_loop_key s;
     ri_route_loop_iterations := ri_route_loop_iterations s; ri_revision_context := ri_revision_context s |}.
Definition set_ri_generation (x : option Z) (s : run_info) : run_info :=
  {| ri_substate := ri_substate s; ri_generation := x; ri_terminal_status := ri_terminal_status s;
     ri_read_only := ri_read_only s; ri_condition_exhausted := ri_condition_exhausted s;
     ri_selected_target := ri_selected_target s; ri_next_step_index := ri_next_step_index s;
     ri_workflow_status := ri_workflow_status s; ri_delivery_mode_override := ri_delivery_mode_override s;
     ri_error_action := ri_error_action s; ri_route_loop_key := ri_route_loop_key s;
     ri_route_loop_iterations := ri_route_loop_iterations s; ri_revision_context := ri_revision_context s |}.
Definition set_ri_terminal_status (x : option string) (s : run_info) : run_info :=
  {| ri_substate := ri_substate s; ri_generation := ri_generation s; ri_terminal_status := x;
     ri_read_only := ri_read_only s; ri_condition_exhausted := ri_condition_exhausted s;
     ri_selected_target := ri_selected_target s; ri_next_step_index := ri_next_step_index s;
     ri_workflow_status := ri_workflow_status s; ri_delivery_mode_override := ri_delivery_mode_override s;
     ri_error_action := ri_error_action s; ri_route_loop_key := ri_route_loop_key s;
     ri_route_loop_iterations := ri_route_loop_iterations s; ri_revision_context := ri_revision_context s |}.
Definition set_ri_read_only (x : option bool) (s : run_info) : run_info :=
  {| ri_substate := ri_substate s; ri_generation := ri_generation s; ri_terminal_status := ri_terminal_status s;
     ri_read_only := x; ri_condition_exhausted := ri_condition_exhausted s;
     ri_selected_target := ri_selected_target s; ri_next_step_index := ri_next_step_index s;
     ri_workflow_status := ri_workflow_status s; ri_delivery_mode_override := ri_delivery_mode_override s;
     ri_error_action := ri_error_action s; ri_route_loop_key := ri_route_loop_key s;
     ri_route_loop_iterations := ri_route_loop_iterations s; ri_revision_context := ri_revision_context s |}.
Definition set_ri_condition_exhausted (x : bool) (s : run_info) : run_info :=
  {| ri_substate := ri_substate s; ri_generation := ri_generation s; ri_terminal_status := ri_terminal_status s;
     ri_read_only := ri_read_only s; ri_condition_exhausted := x; ri_selected_target := ri_selected_target s;
     ri_next_step_index := ri_next_step_index s; ri_workflow_status := ri_workflow_status s;
     ri_delivery_mode_override := ri_delivery_mode_override s; ri_error_action := ri_error_action s;
     ri_route_loop_key := ri_route_loop_key s; ri_route_loop_iterations := ri_route_loop_iterations s;
     ri_revision_context := ri_revision_context s |}.
Definition set_ri_selected_target (x : option string) (s : run_info) : run_info :=
  {| ri_substate := ri_substate s; ri_generation := ri_generation s; ri_terminal_status := ri_terminal_status s;
     ri_read_only := ri_read_only s; ri_condition_exhausted := ri_condition_exhausted s; ri_selected_target := x;
     ri_next_step_index := ri_next_step_index s; ri_workflow_status := ri_workflow_status s;
     ri_delivery_mode_override := ri_delivery_mode_override s; ri_error_action := ri_error_action s;
     ri_route_loop_key := ri_route_loop_key s; ri_route_loop_iterations := ri_route_loop_iterations s;
     ri_revision_context := ri_revision_context s |}.
Definition set_ri_next_step_index (x : option nat) (s : run_info) : run_info :=
  {| ri_substate := ri_substate s; ri_generation := ri_generation s; ri_terminal_status := ri_terminal_status s;
     ri_read_only := ri_read_only s; ri_condition_exhausted := ri_condition_exhausted s;
     ri_selected_target := ri_selected_target s; ri_next_step_index := x; ri_workflow_status := ri_workflow_status s;
     ri_delivery_mode_override := ri_delivery_mode_override s; ri_error_action := ri_error_action s;
     ri_route_loop_key := ri_route_loop_key s; ri_route_loop_iterations := ri_route_loop_iterations s;
     ri_revision_context := ri_revision_context s |}.
Definition set_ri_workflow_status (x : option string) (s : run_info) : run_info :=
  {| ri_substate := ri_substate s; ri_generation := ri_generation s; ri_terminal_status := ri_terminal_status s;
     ri_read_only := ri_read_only s; ri_condition_exhausted := ri_condition_exhausted s;
     ri_selected_target := ri_selected_target s; ri_next_step_index := ri_next_step_index s; ri_workflow_status := x;
     ri_delivery_mode_override := ri_delivery_mode_override s; ri_error_action := ri_error_action s;
     ri_route_loop_key := ri_route_loop_key s; ri_route_loop_iterations := ri_route_loop_iterations s;
     ri_revision_context := ri_revision_context s |}.
Definition set_ri_delivery_mode_override (x : option string) (s : run_info) : run_info :=
  {| ri_substate := ri_substate s; ri_generation := ri_generation s; ri_terminal_status := ri_terminal_status s;
     ri_read_only := ri_read_only s; ri_condition_exhausted := ri_condition_exhausted s;
     ri_selected_target := ri_selected_target s; ri_next_step_index := ri_next_step_index s;
     ri_workflow_status := ri_workflow_status s; ri_delivery_mode_override := x;
     ri_error_action := ri_error_action s; ri_route_loop_key := ri_route_loop_key s;
     ri_route_loop_iterations := ri_route_loop_iterations s; ri_revision_context := ri_revision_context s |}.
Definition set_ri_error_action (x : option string) (s : run_info) : run_info :=
  {| ri_substate := ri_substate s; ri_generation := ri_generation s; ri_terminal_status := ri_terminal_status s;
     ri_read_only := ri_read_only s; ri_condition_exhausted := ri_condition_exhausted s;
     ri_selected_target := ri_selected_target s; ri_next_step_index := ri_next_step_index s;
     ri_workflow_status := ri_workflow_status s; ri_delivery_mode_override := ri_delivery_mode_override s;
     ri_error_action := x; ri_route_loop_key := ri_route_loop_key s;
     ri_route_loop_iterations := ri_route_loop_iterations s; ri_revision_context := ri_revision_context s |}.
Definition set_ri_route_loop_key (x : option string) (s : run_info) : run_info :=
  {| ri_substate := ri_substate s; ri_generation := ri_generation s; ri_terminal_status := ri_terminal_status s;
     ri_read_only := ri_read_only s; ri_condition_exhausted := ri_condition_exhausted s;
     ri_selected_target := ri_selected_target s; ri_next_step_index := ri_next_step_index s;
     ri_workflow_status := ri_workflow_status s; ri_delivery_mode_override := ri_delivery_mode_override s;
     ri_error_action := ri_error_action s; ri_route_loop_key := x;
     ri_route_loop_iterations := ri_route_loop_iterations s; ri_revision_context := ri_revision_context s |}.
Definition set_ri_route_loop_iterations (x : option Z) (s : run_info) : run_info :=
  {| ri_substate := ri_substate s; ri_generation := ri_generation s; ri_terminal_status := ri_terminal_status s;
     ri_read_only := ri_read_only s; ri_condition_exhausted := ri_condition_exhausted s;
     ri_selected_target := ri_selected_target s; ri_next_step_index := ri_next_step_index s;
     ri_workflow_status := ri_workflow_status s; ri_delivery_mode_override := ri_delivery_mode_override s;
     ri_error_action := ri_error_action s; ri_route_loop_key := ri_route_loop_key s; ri_route_loop_iterations := x;
     ri_revision_context := ri_revision_context s |}.
Definition set_ri_revision_context (x : option string) (s : run_info) : run_info :=
  {| ri_substate := ri_substate s; ri_generation := ri_generation s; ri_terminal_status := ri_terminal_status s;
     ri_read_only := ri_read_only s; ri_condition_exhausted := ri_condition_exhausted s;
     ri_selected_target := ri_selected_target s; ri_next_step_index := ri_next_step_index s;
     ri_workflow_status := ri_workflow_status s; ri_delivery_mode_override := ri_delivery_mode_override s;
     ri_error_action := ri_error_action s; ri_route_loop_key := ri_route_loop_key s;
     ri_route_loop_iterations := ri_route_loop_iterations s; ri_revision_context := x |}.

(** A row of a deterministic step of this attempt of the task. *)
Record det_run := {
  dr_id : nat; dr_step : string; dr_attempt : Z; dr_status : string; dr_output : option StepOutput; dr_info : run_info }.

(** [ORDER BY attempt DESC, started_at DESC]: rows are kept in the order of their creation. *)
Definition latest_run (name : string) (rows : list det_run) : option det_run :=
  foldl (λ best r, match best with
                   | Some b => if dr_attempt b <=? dr_attempt r then Some r else Some b
                   | None => Some r
                   end) None (filter (λ r, dr_step r = name) rows).

(** [update_step_run] *)
Definition update_run (id : nat) (f : det_run → det_run) (rows : list det_run) : list det_run :=
  (λ r, if (dr_id r =? id)%nat then f r else r) <$> rows.

Definition with_output (o : StepOutput) (i : run_info) (r : det_run) : det_run :=
  {| dr_id := dr_id r; dr_step := dr_step r; dr_attempt := dr_attempt r; dr_status := dr_status r; dr_output := Some o; dr_info := i |}.
Definition with_info (i : run_info) (r : det_run) : det_run :=
  {| dr_id := dr_id r; dr_step := dr_step r; dr_attempt := dr_attempt r; dr_status := dr_status r; dr_output := dr_output r; dr_info := i |}.
Definition set_dr_status (s : string) (r : det_run) : det_run :=
  {| dr_id := dr_id r; dr_step := dr_step r; dr_attempt := dr_attempt r; dr_status := s; dr_output := dr_output r; dr_info := dr_info r |}.

Definition _VALID_STEP_RUN_TRANSITIONS : list (string * list string) :=
  [("pending", ["running"; "cancelled"]);
   ("running", ["evaluating"; "approved"; "rejected"; "failed"; "skipped"; "paused"; "cancelled"]);
   ("evaluating", ["approved"; "rejected"; "failed"]); ("approved", ["running"]); ("rejected", ["running"]);
   ("paused", ["running"; "cancelled"]); ("failed", ["running"]); ("skipped", []); ("cancelled", [])].

(** The status changes from those that allow it; from the others nothing changes. *)
Definition with_status (s : string) (r : det_run) : det_run :=
  if existsb (λ kv, bool_decide (kv.1 = dr_status r) && bool_decide (s ∈ kv.2)) _VALID_STEP_RUN_TRANSITIONS then set_dr_status s r else r.

(** ** The engine's memory *)

(** The columns of the task that the engine changes in memory. *)
Record live_task := { t_status : TaskStatus; t_delivery_mode : string; t_result_summary : option string; t_scheduled_for : option Z }.

Definition set_task_status (s : TaskStatus) (t : live_task) : live_task :=
  {| t_status := s; t_delivery_mode := t_delivery_mode t; t_result_summary := t_result_summary t; t_scheduled_for := t_scheduled_for t |}.
Definition set_delivery_mode (m : string) (t : live_task) : live_task :=
  {| t_status := t_status t; t_delivery_mode := m; t_result_summary := t_result_summary t; t_scheduled_for := t_scheduled_for t |}.
Definition set_result_summary (s : option string) (t : live_task) : live_task :=
  {| t_status := t_status t; t_delivery_mode := t_delivery_mode t; t_result_summary := s; t_scheduled_for := t_scheduled_for t |}.
Definition set_scheduled_for (at_ : Z) (t : live_task) : live_task :=
  {| t_status := t_status t; t_delivery_mode := t_delivery_mode t; t_result_summary := t_result_summary t; t_scheduled_for := Some at_ |}.

(** What the engine does outside its own memory and rows. *)
Inductive act :=
| ARun (step : string) (skipped : list string)
| AProduced (step : string) (o : StepOutput)
| AEvaluated (step : string) (o : StepOutput) (e : StepEvaluation)
| AOverruled (step : string) (o : StepOutput)
| ADispatch (step : string) (generation : Z) (read_only : bool)
| AConsumed (pause_id action : string)
| ADelivered.

Record world := {
  w_moment : nat;
  w_elapsed : Z;
  w_state : WorkflowState;
  w_task : live_task;
  w_row : task_row;
  w_runs : list det_run;
  w_info : run_info;
  w_log : list act }.

Definition set_w_moment (x : nat) (s : world) : world :=
  {| w_moment := x; w_elapsed := w_elapsed s; w_state := w_state s; w_task := w_task s; w_row := w_row s;
     w_runs := w_runs s; w_info := w_info s; w_log := w_log s |}.
Definition set_w_elapsed (x : Z) (s : world) : world :=
  {| w_moment := w_moment s; w_elapsed := x; w_state := w_state s; w_task := w_task s; w_row := w_row s;
     w_runs := w_runs s; w_info := w_info s; w_log := w_log s |}.
Definition set_w_state (x : WorkflowState) (s : world) : world :=
  {| w_moment := w_moment s; w_elapsed := w_elapsed s; w_state := x; w_task := w_task s; w_row := w_row s;
     w_runs := w_runs s; w_info := w_info s; w_log := w_log s |}.
Definition set_w_task (x : live_task) (s : world) : world :=
  {| w_moment := w_moment s; w_elapsed := w_elapsed s; w_state := w_state s; w_task := x; w_row := w_row s;
     w_runs := w_runs s; w_info := w_info s; w_log := w_log s |}.
Definition set_w_row (x : task_row) (s : world) : world :=
  {| w_moment := w_moment s; w_elapsed := w_elapsed s; w_state := w_state s; w_task := w_task s; w_row := x;
     w_runs := w_runs s; w_info := w_info s; w_log := w_log s |}.
Definition set_w_runs (x : list det_run) (s : world) : world :=
  {| w_moment := w_moment s; w_elapsed := w_elapsed s; w_state := w_state s; w_task := w_task s; w_row := w_row s;
     w_runs := x; w_info := w_info s; w_log := w_log s |}.
Definition set_w_info (x : run_info) (s : world) : world :=
  {| w_moment := w_moment s; w_elapsed := w_elapsed s; w_state := w_state s; w_task := w_task s; w_row := w_row s;
     w_runs := w_runs s; w_info := x; w_log := w_log s |}.
Definition set_w_log (x : list act) (s : world) : world :=
  {| w_moment := w_moment s; w_elapsed := w_elapsed s; w_state := w_state s; w_task := w_task s; w_row := w_row s;
     w_runs := w_runs s; w_info := w_info s; w_log := x |}.

(** ** Computations *)

Inductive exn :=
| EStepInterrupted
| ETimeout
| EStaleTaskExecutionOwner
| ETransientExecutorUnavailable (retry_after_seconds : Z)
| EExecutorRecoveryTimeout (message : string)
| ECancelled
| ERaised (message : string).

Definition M (A : Type) : Type := world → result exn A * world.

Definition ret {A} (a : A) : M A := λ w, (Ok a, w).
Definition raise {A} (e : exn) : M A := λ w, (Err e, w).
Definition bind {A B} (m : M A) (f : A → M B) : M B :=
  λ w, match m w with (Ok a, w') => f a w' | (Err e, w') => (Err e, w') end.
Definition catch {A} (m : M A) (h : exn → M A) : M A :=
  λ w, match m w with (Err e, w') => h e w' | r => r end.
Definition get {A} (f : world → A) : M A := λ w, (Ok (f w), w).
Definition modify (f : world → world) : M unit := λ w, (Ok tt, f w).
Definition set_st (f : WorkflowState → WorkflowState) : M unit := modify (λ w, set_w_state (f (w_state w)) w).
Definition set_tk (f : live_task → live_task) : M unit := modify (λ w, set_w_task (f (w_task w)) w).
Definition set_in (f : run_info → run_info) : M unit := modify (λ w, set_w_info (f (w_info w)) w).
Definition act_ (a : act) : M unit := modify (λ w, set_w_log (a :: w_log w) w).
(** [raise ValueError] *)
Definition of_result {A} (r : result string A) : M A := match r with Ok a => ret a | Err m => raise (ERaised m) end.
Definition when_ (b : bool) (m : M unit) : M unit := if b then m else ret tt.

Declare Scope engine_scope.
Delimit Scope engine_scope with engine.
Notation "'let!' x ':=' m 'in' k" := (bind m (λ x, k)) (at level 10, x pattern, m at level 100, k at level 200) : engine_scope.
Notation "'do!' m 'in' k" := (bind m (λ _, k)) (at level 10, m at level 100, k at level 200) : engine_scope.
#[local] Open Scope engine_scope.

(** ** The outside *)

Record resolution := { rs_decision : option string; rs_note : option string; rs_feedback : option string }.
Record notification := { n_resolution : option resolution; n_expires_at : option Z }.
Record deliverable := { dl_id : string; dl_title : option string; dl_content : string; dl_run_output : option StepOutput }.

(** What a step may ask of a human while it runs. *)
Inductive question := QStepInput | QAgentQuestion | QCredentialRequest | QAuthChallenge.

Definition question_name (q : question) : string :=
  match q with
  | QStepInput => "step_input" | QAgentQuestion => "agent_question"
  | QCredentialRequest => "credential_request" | QAuthChallenge => "auth_challenge"
  end.

(** What the n-th await finds.  [x_raises]: an exception instead; [x_status]: what others made of
    the task's status.  Expressions and templates are rendered by jinja2. *)
Record outside := {
  x_raises : nat → option exn;
  x_status : nat → option TaskStatus;
  x_now : nat → Z;
  x_took : nat → Z;
  x_expired : nat → bool;
  x_uuid : nat → string;
  x_run : nat → option StepOutput;
  x_asked : nat → list (question * pause);
  x_evaluation : nat → StepEvaluation;
  x_recorded : nat → bool;
  x_registered : nat → option bool;
  x_tool : nat → bool * string;
  x_notification : nat → option notification;
  x_wait : nat → option resolution;
  x_rejected : nat → option deliverable;
  ast_parse : string → option expr;
  repr_str : string → string;
  repr_context : list (string * StepOutput) → string;
  render_expression : string → WorkflowState → result string bool;
  render_text : string → WorkflowState → result string string;
  render_native : pydict → WorkflowState → result string pydict;
  render_result : ToolCallStepConfig → nat → WorkflowState → result string (pydict * string) }.

Definition DEFAULT_MAX_WORKFLOW_SECONDS : Z := 14400 * 1000000.
Definition MAX_DETERMINISTIC_JUMPS : Z := 100.
Definition SESSION_TRANSIENT_MAX_ATTEMPTS : Z := 120.

Definition second : Z := 1000000.

Section Engine.
Context (env : outside).

(** ** Awaits *)

(** An await; its number. *)
Definition await_ : M nat := λ w,
  let w' := set_w_moment (S (w_moment w)) w in
  match x_raises env (w_moment w) with Some e => (Err e, w') | None => (Ok (w_moment w), w') end.

(** [datetime.now(UTC)] *)
Definition now : M Z := get (λ w, x_now env (w_moment w)).

(** What others made of the status by now. *)
Definition observe (k : nat) (r : task_row) : task_row :=
  match x_status env k with Some s => {| d_status := s; d_attempt := d_attempt r; d_state := d_state r |} | None => r end.

(** A transaction on the task's row, rolled back when [f] gives nothing; whether it was committed.
    The process may die before the commit, and after it. *)
Definition transaction (f : task_row → option task_row) : M bool :=
  let! k := await_ in
  let! r := get (λ w, observe k (w_row w)) in
  do! modify (set_w_row r) in
  match f r with
  | Some r' => do! modify (set_w_row r') in do! await_ in ret true
  | None => ret false
  end.

(** A transaction on the rows of deterministic steps. *)
Definition runs_transaction (f : list det_run → list det_run) : M unit :=
  do! await_ in
  do! modify (λ w, set_w_runs (f (w_runs w)) w) in
  do! await_ in ret tt.

Definition _read_task_status : M TaskStatus :=
  let! k := await_ in
  let! r := get (λ w, observe k (w_row w)) in
  do! modify (set_w_row r) in
  ret (d_status r).

(** [asyncio.wait_for] with what is left of the budget: at its deadline the awaited coroutine is
    cancelled. *)
Definition _await_with_workflow_budget {A} (m : M A) : M A := λ w,
  if DEFAULT_MAX_WORKFLOW_SECONDS - w_elapsed w <=? 0 then (Err ETimeout, w)
  else
    let '(r, w1) := m w in
    (match r with
     | Err ECancelled => Err (if x_expired env (w_moment w1) then ETimeout else ECancelled)
     | _ => r
     end, set_w_elapsed (w_elapsed w1 + Z.max 0 (x_took env (w_moment w1))) w1).

Section Task.
Context (workflow : Workflow) (attempt_number : Z) (interaction_mode_override : option string).

Definition interaction : string :=
  match interaction_mode_override with
  | Some m => if bool_decide (m = "") then interaction_mode workflow else m
  | None => interaction_mode workflow
  end.

(** [interaction_mode == "none"] *)
Definition autonomous : bool := bool_decide (interaction = "none").

(** ** Persisting *)

Definition ended (s : TaskStatus) : bool := task_in s [COMPLETED; FAILED; CANCELLED].

Definition _persist_workflow_state (sync_status : bool) : M unit :=
  let! db_status := _read_task_status in
  let! t := get (λ w, t_status (w_task w)) in
  let! s := get w_state in
  let consume_gate := bool_decide (db_status = PAUSED) && bool_decide (t = RUNNING) &&
                      bool_decide (pending_pause_type s = None) && bool_decide (is_Some (last_consumed_gate_id s)) in
  if task_in db_status [CANCELLED; FAILED] && negb (task_in t [CANCELLED; FAILED])
  then do! set_tk (set_task_status db_status) in raise EStepInterrupted
  else
    do! set_st (λ s, set_version (version s + 1) s) in
    let! s := get w_state in
    let! ok := transaction (λ r,
      let '(r, resumed) := if consume_gate
                           then row_update_status RUNNING (Some PAUSED) (Some attempt_number) (last_consumed_gate_id s) r
                           else (r, true) in
      let '(r, ok) := row_update_state s (Some (version s)) r in
      if resumed && ok then Some (if sync_status then (row_update_status t None None None r).1 else r) else None) in
    if (ok : bool) then ret tt else raise EStaleTaskExecutionOwner.

Definition final_status (s : TaskStatus) : run_status :=
  match s with COMPLETED => WCompleted | CANCELLED => WCancelled | _ => WFailed end.

Definition clear_pause (s : WorkflowState) : WorkflowState :=
  set_pending_pause_type None (set_pending_pause_payload None s).

Definition _persist_task_final : M unit :=
  let! t := get (λ w, t_status (w_task w)) in
  do! when_ (ended t) (set_st (λ s, set_current_step_status None (clear_pause (set_ws_status (final_status t) s)))) in
  let! s := get w_state in
  let! updated := transaction (λ r,
    let r := match pending_pause_type s, last_consumed_gate_id s with
             | None, Some gate => (row_update_status RUNNING (Some PAUSED) (Some attempt_number) (Some gate) r).1
             | _, _ => r
             end in
    let '(r, updated) := row_update_status t None (Some attempt_number) None r in
    if updated then Some (row_update_state s None r).1 else None) in
  if (updated : bool) then ret tt
  else
    let! authoritative := _read_task_status in
    do! set_tk (set_task_status authoritative) in
    raise EStepInterrupted.

(** ** Steps and routes *)

Definition _find_step_index (name : string) : option nat := index_of name (s_name <$> steps workflow).

Definition _explicit_next_index (target_name : option string) (fallback : nat) : result string nat :=
  match target_name with
  | None => Ok fallback
  | Some name => match _find_step_index name with
                 | Some i => Ok i
                 | None => Err ("unknown deterministic routing target " +:+ repr_str env name)
                 end
  end.

Definition _resolve_completion (step_def : StepDefinition) : option CompletionConfig :=
  match completion step_def with
  | Some c => Some c
  | None => let d := defaults workflow in
            if df_evaluate d
            then Some {| evaluate := true; max_attempts := df_max_attempts d; on_exhausted := df_on_exhausted d |}
            else None
  end.

Definition _get_on_exhausted (step_def : StepDefinition) : exhausted_action :=
  match completion step_def with Some c => on_exhausted c | None => df_on_exhausted (defaults workflow) end.

(** One step that a forward route bypasses. *)
Definition bypass (reason : string) (s : WorkflowState) (name : string) : WorkflowState :=
  set_step_outputs (od_del name (step_outputs s)) (set_routing_skips (od_set name (String.substring 0 500 reason) (routing_skips s)) s).

(** One step that a backward route makes run again. *)
Definition renew (s : WorkflowState) (name : string) : WorkflowState :=
  let s := set_step_outputs (od_del name (step_outputs s)) (set_routing_skips (od_del name (routing_skips s)) s) in
  set_counter (generation_key name) (generation name s + 1) s.

Definition names_between (first last : nat) : list string := s_name <$> take (last - first) (drop first (steps workflow)).

Definition _apply_deterministic_route (source_index target_index : nat) (reason : string) : M unit :=
  if (target_index =? source_index + 1)%nat then ret tt
  else
    let! s := get w_state in
    let jumps := counter jumps_key 0 s + 1 in
    do! set_st (set_counter jumps_key jumps) in
    if MAX_DETERMINISTIC_JUMPS <? jumps then raise (ERaised "deterministic workflow jump limit exceeded")
    else if (source_index <? target_index)%nat
    then set_st (λ s, foldl (bypass reason) s (names_between (source_index + 1) target_index))
    else match steps workflow !! target_index with
         | None => raise (ERaised "list index out of range")
         | Some target =>
             set_st (λ s,
               let key := attempts_key (s_name target) in
               let s := set_counter key (Z.max (counter key 1 s) 1 + 1) (set_last_retry_reason (Some "routed_revision") s) in
               foldl renew s (names_between target_index (source_index + 1)))
         end.

Definition _deterministic_route_reason (step_def : StepDefinition) (output : StepOutput) : string :=
  String.substring 0 500
    (match dict_get "selected_branch" (so_metadata output) with
     | PStr branch => "condition:" +:+ s_name step_def +:+ ":" +:+ branch
     | _ => if truthy (dict_get "skipped" (so_metadata output)) then "when:" +:+ s_name step_def +:+ ":false"
            else "next:" +:+ s_name step_def
     end).

(** ** Deterministic steps *)

Record det_result := {
  ds_output : StepOutput;
  ds_status : string;
  ds_next_step_index : option nat;
  ds_workflow_status : option string;
  ds_delivery_mode_override : option string;
  ds_error_action : option string;
  ds_route_loop_key : option string;
  ds_route_loop_iterations : option Z;
  ds_revision_context : option string }.

Definition update_step_run (rid : nat) (f : det_run → det_run) : M unit := runs_transaction (update_run rid f).

Definition _persist_deterministic_checkpoint (rid : nat) : M unit :=
  let! i := get w_info in update_step_run rid (with_info i).

Definition or_else {A} (x y : option A) : option A := match x with Some a => Some a | None => y end.

Definition _finalize_deterministic_step (rid : nat) (output : StepOutput) (status : string) (next_step_index : option nat)
    (workflow_status delivery error_action : option string) : M det_result :=
  do! set_in (λ i,
    set_ri_substate "persisted" (set_ri_terminal_status (Some status)
      (set_ri_next_step_index (or_else next_step_index (ri_next_step_index i)) (set_ri_workflow_status workflow_status
        (set_ri_delivery_mode_override delivery (set_ri_error_action error_action i)))))) in
  let! i := get w_info in
  do! update_step_run rid (with_output output i) in
  do! update_step_run rid (with_status status) in
  do! await_ in
  ret {| ds_output := output; ds_status := status; ds_next_step_index := ri_next_step_index i;
         ds_workflow_status := workflow_status; ds_delivery_mode_override := delivery; ds_error_action := error_action;
         ds_route_loop_key := ri_route_loop_key i; ds_route_loop_iterations := ri_route_loop_iterations i;
         ds_revision_context := ri_revision_context i |}.

(** [" ".join(s.split())] *)
Fixpoint split_words (word : text) (t : text) : list text :=
  match t with
  | [] => match word with [] => [] | _ => [word] end
  | a :: t => if is_space a then (match word with [] => [] | _ => [word] end) ++ split_words [] t else split_words (word ++ [a]) t
  end.
Definition squeeze (s : string) : string := join " " (untx <$> split_words [] (tx s)).

Definition or_str (s d : string) : string := if bool_decide (s = "") then d else s.

Definition exhausted_name (a : exhausted_action) : string :=
  match a with XContinue => "continue" | XFail => "fail" | XGate => "gate" end.

Definition _fail_deterministic_step (step_def : StepDefinition) (rid : nat) (error : string) (output : option StepOutput)
    (action_override : option string) : M det_result :=
  let bounded_error := or_str (String.substring 0 1000 (squeeze error)) "Deterministic step failed." in
  let action := match or_else action_override (on_error step_def) with Some a => a | None => "fail" end in
  let output := match output with
                | Some o => o
                | None => made_output ("Deterministic step '" +:+ s_name step_def +:+ "' failed.") "" []
                            [("deterministic_step", PBool true); ("step_type", PStr (step_type_name (s_type step_def)));
                             ("error_action", PStr action)] (Some bounded_error)
                end in
  let skipped := bool_decide (action = "skip") in
  let output := set_metadata (dict_update (so_metadata output)
                  [("error_action", PStr action); ("skipped", PBool skipped);
                   ("skip_reason", if skipped then PStr "on_error" else PNone)]) output in
  do! set_in (set_ri_error_action (Some action)) in
  _finalize_deterministic_step rid output (if skipped then "skipped" else "failed") None None None (Some action).

Definition normalize_deterministic_output (config : DeterministicOutputConfig) (step_type : string) : M StepOutput :=
  let! s := get w_state in
  let! metadata := of_result (render_native env (d_metadata config) s) in
  let metadata := dict_update metadata [("deterministic_step", PBool true); ("step_type", PStr step_type)] in
  let! summary := of_result (render_text env (d_summary config) s) in
  let! content := match d_content config with Some c => of_result (render_text env c s) | None => ret "" end in
  let! outputs := of_result (render_native env (d_outputs config) s) in
  ret (made_output summary content outputs metadata None).

Definition newline : string := String.String (Ascii.ascii_of_nat 10) String.EmptyString.

Definition _build_revision_context (step_def : StepDefinition) (o : StepOutput) : string :=
  "The previous step `" +:+ s_name step_def +:+ "` completed successfully but requested revisions." +:+
  match so_outcome o with
  | Some (status, reason) => newline +:+ newline +:+ "Outcome: " +:+ status +:+
      match reason with
      | Some r => if bool_decide (r = "") then "" else newline +:+ "Reason: " +:+ r
      | None => ""
      end
  | None => ""
  end +:+
  (if bool_decide (so_summary o = "") then "" else newline +:+ newline +:+ "Summary:" +:+ newline +:+ so_summary o) +:+
  (if negb (bool_decide (so_content o = "")) then newline +:+ newline +:+ "Reviewer Output:" +:+ newline +:+ so_content o
   else match so_claims o with
        | [] => ""
        | claims => newline +:+ newline +:+ "Reviewer Claims:" +:+ newline +:+ join newline ((λ c, "- " +:+ c) <$> claims)
        end).

(** The part of a condition that concerns a target at or before the condition: its loop budget and
    the revision context. The answer is the error when the budget is used up. *)
Definition condition_budget (step_def : StepDefinition) (c : ConditionStepConfig) (target_name : option string) (next_index : nat)
    : M (option string) :=
  let! s := get w_state in
  match target_name, c_max_loop_iterations c with
  | Some target, Some max =>
      if (next_index <=? current_step_index s)%nat then
        let loop_key := condition_key (s_name step_def) target in
        let current_iterations := counter loop_key 0 s in
        if max <=? current_iterations then
          do! set_in (λ i, set_ri_selected_target (Some target) (set_ri_condition_exhausted true
                             (set_ri_next_step_index (Some (current_step_index s + 1)%nat) i))) in
          ret (Some ("Condition route '" +:+ s_name step_def +:+ "' exhausted after " +:+ str_int current_iterations +:+
                     " backward iterations."))
        else
          do! set_in (λ i, set_ri_route_loop_key (Some loop_key) (set_ri_route_loop_iterations (Some (current_iterations + 1)) i)) in
          ret None
      else ret None
  | _, _ => ret None
  end.

Definition condition_revision (c : ConditionStepConfig) (target_name : option string) (next_index : nat) : M unit :=
  let! s := get w_state in
  match target_name, revision_source c with
  | Some _, Some source =>
      when_ (next_index <=? current_step_index s)%nat
        (match _find_step_index source ≫= λ i, steps workflow !! i, od_get source (step_outputs s) with
         | Some source_step, Some o => set_in (set_ri_revision_context (Some (_build_revision_context source_step o)))
         | _, _ => raise (ERaised ("condition revision_source " +:+ repr_str env source +:+ " has no completed output"))
         end)
  | _, _ => ret tt
  end.

Definition _execute_condition_step (step_def : StepDefinition) (c : ConditionStepConfig) (rid : nat) : M det_result :=
  let! s := get w_state in
  let! selected := of_result (render_expression env (if_ c) s) in
  let target_name := if (selected : bool) then then_ c else else_ c in
  let! next_index := of_result (_explicit_next_index target_name (current_step_index s + 1)) in
  let! exhausted := condition_budget step_def c target_name next_index in
  match exhausted with
  | Some error => _fail_deterministic_step step_def rid error None (Some (exhausted_name (c_on_exhausted c)))
  | None =>
      do! condition_revision c target_name next_index in
      let branch := if (selected : bool) then "then" else "else" in
      let config := match c_output c with
                    | Some o => o
                    | None => {| d_summary := "Condition '" +:+ s_name step_def +:+ "' selected the " +:+ branch +:+ " branch.";
                                 d_content := None; d_outputs := []; d_metadata := [] |}
                    end in
      let! output := normalize_deterministic_output config (step_type_name (s_type step_def)) in
      let output := set_metadata (dict_update (so_metadata output)
                      [("condition_result", PBool selected); ("selected_branch", PStr branch); ("selected_target", opt_str target_name)]) output in
      do! set_in (λ i, set_ri_selected_target target_name (set_ri_next_step_index (Some next_index) i)) in
      _finalize_deterministic_step rid output "approved" (Some next_index) None None None
  end.

Definition _execute_complete_step (step_def : StepDefinition) (c : CompleteStepConfig) (rid : nat) : M det_result :=
  let! s := get w_state in
  let! summary := of_result (render_text env (cs_summary c) s) in
  let! content := match cs_content c with
                  | Some t => if bool_decide (t = "") then ret "" else of_result (render_text env t s)
                  | None => ret ""
                  end in
  let! outputs := of_result (render_native env (cs_outputs c) s) in
  let output := made_output summary content outputs
                  [("deterministic_step", PBool true); ("step_type", PStr (step_type_name (s_type step_def)));
                   ("completion_status", PStr (cs_status c)); ("delivery_mode_override", opt_str (delivery_mode_override c))] None in
  do! set_in (λ i, set_ri_workflow_status (Some (cs_status c)) (set_ri_delivery_mode_override (delivery_mode_override c) i)) in
  _finalize_deterministic_step rid output "approved" None (Some (cs_status c)) (delivery_mode_override c) None.

(** The call and its result. *)
Definition call_tool (step_def : StepDefinition) (config : ToolCallStepConfig) (rid : nat) (read_only : bool) : M det_result :=
  let! s := get w_state in
  do! act_ (ADispatch (s_name step_def) (generation (s_name step_def) s) read_only) in
  let! k := await_ in
  let '(is_error, raw) := x_tool env k in
  do! await_ in
  let! (outputs, summary) := of_result (render_result env config k s) in
  let output := made_output summary "" outputs
                  [("deterministic_step", PBool true); ("step_type", PStr (step_type_name (s_type step_def)));
                   ("tool_name", PStr (tool config)); ("tool_error", PBool is_error)]
                  (if (is_error : bool) then Some raw else None) in
  let! next := of_result (_explicit_next_index (s_next step_def) (current_step_index s + 1)) in
  do! set_in (set_ri_next_step_index (Some next)) in
  if (is_error : bool) && fail_on_error config
  then _fail_deterministic_step step_def rid raw (Some output) None
  else _finalize_deterministic_step rid output "approved" (Some next) None None None.

(** From the runtime to the result, under the handler of timeouts. *)
Definition dispatch_tool (step_def : StepDefinition) (config : ToolCallStepConfig) (rid k : nat) : M det_result :=
  match x_registered env k with
  | None => raise (ERaised ("deterministic tool_call references unknown tool " +:+ repr_str env (tool config)))
  | Some read_only =>
      do! set_in (λ i, set_ri_read_only (Some read_only) (set_ri_substate "executing" i)) in
      if negb read_only && negb (allow_side_effects config)
      then raise (ERaised "deterministic tool_call blocked because the tool is write-capable")
      else
        do! _persist_deterministic_checkpoint rid in
        do! await_ in
        call_tool step_def config rid read_only
  end.

Definition _execute_tool_call_step (step_def : StepDefinition) (config : ToolCallStepConfig) (rid : nat) : M det_result :=
  let! s := get w_state in
  let! _ := of_result (render_native env (args config) s) in
  do! _persist_deterministic_checkpoint rid in
  let! k := await_ in
  catch (dispatch_tool step_def config rid k)
    (λ e, match e with
          | ETimeout => _fail_deterministic_step step_def rid "Deterministic tool execution timed out." None None
          | e => raise e
          end).

Definition _deterministic_result_from_persisted (status : string) (o : StepOutput) (i : run_info) : det_result :=
  {| ds_output := o; ds_status := status;
     ds_next_step_index := match ri_condition_exhausted i, ri_selected_target i with
                           | false, Some target => _find_step_index target
                           | _, _ => ri_next_step_index i
                           end;
     ds_workflow_status := match ri_workflow_status i with
                           | Some s => if bool_decide (s ∈ ["completed"; "failed"]) then Some s else None
                           | None => None
                           end;
     ds_delivery_mode_override := ri_delivery_mode_override i; ds_error_action := ri_error_action i;
     ds_route_loop_key := ri_route_loop_key i; ds_route_loop_iterations := ri_route_loop_iterations i;
     ds_revision_context := ri_revision_context i |}.

(** A copy of the runtime information, for the call. *)
Definition on_copy {A} (i : run_info) (m : M A) : M A := λ w,
  let '(r, w') := m (set_w_info i w) in (r, set_w_info (w_info w) w').

Definition _recover_deterministic_step (step_def : StepDefinition) (latest : det_run) : M (option det_result) :=
  let i := dr_info latest in
  match bool_decide (dr_status latest ∈ ["approved"; "skipped"; "failed"; "paused"]), dr_output latest with
  | true, Some o => ret (Some (_deterministic_result_from_persisted (dr_status latest) o i))
  | _, o =>
      match bool_decide (ri_substate i = "persisted"), o with
      | true, Some o =>
          let terminal_status := match ri_terminal_status i with Some s => or_str s "approved" | None => "approved" end in
          do! update_step_run (dr_id latest) (with_status terminal_status) in
          ret (Some (_deterministic_result_from_persisted terminal_status o i))
      | _, _ =>
          if bool_decide (ri_substate i = "executing") && negb (bool_decide (ri_read_only i = Some true))
          then let! r := on_copy i (_fail_deterministic_step step_def (dr_id latest)
                 "Deterministic tool dispatch outcome is ambiguous after restart; the side-effecting or unknown tool was not replayed."
                 None None) in
               ret (Some r)
          else ret None
      end
  end.

Definition fresh_info (g : Z) : run_info :=
  {| ri_substate := "rendering"; ri_generation := Some g; ri_terminal_status := None; ri_read_only := None; ri_condition_exhausted := false;
     ri_selected_target := None; ri_next_step_index := None; ri_workflow_status := None; ri_delivery_mode_override := None;
     ri_error_action := None; ri_route_loop_key := None; ri_route_loop_iterations := None; ri_revision_context := None |}.

(** The row of this generation, made when the latest is of another one; [Some] when it was there. *)
Definition claim_run (step_def : StepDefinition) : M (nat * option det_run) :=
  do! await_ in
  let! s := get w_state in
  let! rows := get w_runs in
  let g := generation (s_name step_def) s in
  match filter (λ r, ri_generation (dr_info r) = Some g) (option_list (latest_run (s_name step_def) rows)) with
  | latest :: _ => do! set_in (λ _, dr_info latest) in ret (dr_id latest, Some latest)
  | [] =>
      let rid := length rows in
      do! modify (set_w_runs (rows ++ [{| dr_id := rid; dr_step := s_name step_def; dr_attempt := g + 1; dr_status := "running";
                                          dr_output := None; dr_info := fresh_info g |}])) in
      do! await_ in
      do! set_in (λ _, fresh_info g) in
      ret (rid, None)
  end.

(** [str(exc) or exc.__class__.__name__] *)
Definition exn_text (e : exn) : string :=
  match e with
  | ERaised m => or_str m "Exception"
  | ETimeout => "TimeoutError"
  | EExecutorRecoveryTimeout m => m
  | EStepInterrupted => "StepInterrupted"
  | EStaleTaskExecutionOwner => "StaleTaskExecutionOwner"
  | ETransientExecutorUnavailable _ => "TransientExecutorUnavailable"
  | ECancelled => "CancelledError"
  end.

(** Raised again by the deterministic steps: everything else is a failure of the step. *)
Definition passes_through (e : exn) : bool :=
  match e with
  | EStaleTaskExecutionOwner | EStepInterrupted | ETransientExecutorUnavailable _ | EExecutorRecoveryTimeout _ | ECancelled => true
  | ETimeout | ERaised _ => false
  end.

(** [when], then the step by its type. *)
Definition render_step (step_def : StepDefinition) (rid : nat) : M det_result :=
  let! s := get w_state in
  let! runs := match s_when step_def with
               | None => ret true
               | Some t => let! b := of_result (render_expression env t s) in
                           do! _persist_deterministic_checkpoint rid in ret b
               end in
  if negb (runs : bool) then
    let config := match on_skip step_def with
                  | Some c => c
                  | None => {| d_summary := "Skipped deterministic step '" +:+ s_name step_def +:+ "'."; d_content := None; d_outputs := [];
                               d_metadata := [("skipped", PBool true); ("skip_reason", PStr "when_false")] |}
                  end in
    let! output := normalize_deterministic_output config (step_type_name (s_type step_def)) in
    let output := set_metadata (dict_update (so_metadata output) [("skipped", PBool true); ("skip_reason", PStr "when_false")]) output in
    let! next := of_result (_explicit_next_index (s_next step_def) (current_step_index s + 1)) in
    _finalize_deterministic_step rid output "skipped" (Some next) None None None
  else match s_type step_def, condition step_def, complete step_def, tool_call step_def with
       | TCondition, Some c, _, _ => _execute_condition_step step_def c rid
       | TComplete, _, Some c, _ => _execute_complete_step step_def c rid
       | TToolCall, _, _, Some c => _execute_tool_call_step step_def c rid
       | _, _, _, _ => raise (ERaised "")
       end.

Definition _execute_deterministic_step (step_def : StepDefinition) : M det_result :=
  let! (rid, latest) := claim_run step_def in
  catch
    (let! recovered := match latest with
                       | Some latest => _recover_deterministic_step step_def latest
                       | None => ret None
                       end in
     match recovered with
     | Some r => ret r
     | None => do! await_ in render_step step_def rid
     end)
    (λ e, if passes_through e then raise e else _fail_deterministic_step step_def rid (exn_text e) None None).

(** ** Gates *)

Definition str_of (o : option string) : string := default "" o.

(** [str(data.get("note") or data.get("feedback") or "").strip()] *)
Definition instruction_of (r : resolution) : string :=
  let note := str_of (rs_note r) in
  str_strip (if bool_decide (note = "") then str_of (rs_feedback r) else note).

Definition gate_reused (name : string) (s : WorkflowState) : bool :=
  bool_decide (pending_pause_type s = Some "gate") &&
  bool_decide (str_of (default no_pause (pending_pause_payload s)).(p_step_name) = name).

(** Whether the conditions of a gate let it pause. *)
Definition gate_pauses (g : GateConfig) (s : WorkflowState) : bool :=
  match g_conditions g with
  | [] => true
  | conditions =>
      let d := evaluate_gate_conditions_detailed (ast_parse env) (repr_str env) conditions
                 ((λ x, (x.1, dump x.2)) <$> step_outputs s) (g_thresholds g) in
      match errors d with [] => passed d | _ => true end
  end.

(** The saved outputs that the gate shows. *)
Definition gate_context (g : GateConfig) (s : WorkflowState) : list (string * StepOutput) :=
  foldl (λ d name, match od_get name (step_outputs s) with Some o => od_set name o d | None => d end) [] (g_input g).

(** The state after a decision: the caller persists it together with its transition. *)
Definition consume (pause_id action instruction : string) (s : WorkflowState) : WorkflowState :=
  let s := clear_pause (set_current_step_status (Some "running") (set_ws_status WRunning s)) in
  let s := if negb (bool_decide (instruction = "")) && negb (bool_decide (action = "cancel"))
           then set_last_operator_instruction (Some instruction) s else s in
  set_last_consumed_gate_id (Some pause_id) s.

Definition some_text (o : option string) : bool := match o with Some s => negb (bool_decide (s = "")) | None => false end.

Definition gate_revision (name target message : string) (context : list (string * StepOutput)) (instruction : string) : string :=
  join (newline +:+ newline)
    (["Gate '" +:+ name +:+ "' requested revision of step '" +:+ target +:+ "'."] ++
     (if bool_decide (message = "") then [] else ["Gate message: " +:+ message]) ++
     (match context with [] => [] | _ => ["Gate context:" +:+ newline +:+ repr_context env context] end) ++
     (if bool_decide (instruction = "") then [] else ["Operator note:" +:+ newline +:+ instruction])).

(** Waiting for the decision; a timeout proposes the action of the gate, and what the notification
    service says then is the decision. *)
Definition wait_for_decision (g : GateConfig) : M (string * string) :=
  let decided (r : resolution) := (str_of (rs_decision r), instruction_of r) in
  let! k := await_ in
  match x_wait env k with
  | Some r => ret (decided r)
  | None =>
      do! await_ in
      let! k := await_ in
      match x_wait env k with Some r => ret (decided r) | None => raise EStepInterrupted end
  end.

(** Writing the pause, waiting, and taking the decision. *)
Definition pause_at_gate (name : string) (g : GateConfig) (pause_id : string) (expires_at : option Z) (reuse : bool) : M string :=
  let! s := get w_state in
  let! t := now in
  let context := gate_context g s in
  let! expires := match expires_at with
                  | Some e => ret e
                  | None => if reuse then raise EStepInterrupted else ret (t + Z.max 1 (g_timeout_seconds g) * second)
                  end in
  let! origin := match steps workflow !! current_step_index s with
                 | Some o => ret (s_name o)
                 | None => raise (ERaised "list index out of range")
                 end in
  do! set_st (λ s, set_pending_pause_type (Some "gate") (set_pending_pause_payload (Some
        {| p_pause_id := Some pause_id; p_step_name := Some name; p_message := g_message g; p_context := context;
           p_gate_definition := Some g; p_origin_step := Some origin; p_origin_step_index := Some (current_step_index s);
           p_task_attempt := Some attempt_number; p_expires_at := Some expires; p_next_step_index := None |})
        (set_current_step_status (Some "paused") (set_ws_status WPaused s)))) in
  do! set_tk (set_task_status PAUSED) in
  do! _persist_workflow_state true in
  do! await_ in
  do! await_ in
  let! (action, instruction) := wait_for_decision g in
  do! await_ in
  do! act_ (AConsumed pause_id action) in
  do! set_st (λ s,
    let s := match _parse_revise_action action with
             | Some target => if some_text (last_revision_context s) then s
                              else set_last_revision_context (Some (gate_revision name target (g_message g) context instruction)) s
             | None => s
             end in
    consume pause_id action instruction s) in
  do! set_tk (set_task_status RUNNING) in
  ret action.

(** A saved pause: its decision when it has one, otherwise the pause again. *)
Definition resume_gate (name : string) (g : GateConfig) (payload : pause) : M string :=
  let pause_id := str_strip (str_of (p_pause_id payload)) in
  if bool_decide (pause_id = "") then raise EStepInterrupted
  else
    let! k := await_ in
    match x_notification env k with
    | None =>
        match p_expires_at payload with
        | None => raise EStepInterrupted
        | e => pause_at_gate name g pause_id e false
        end
    | Some n =>
        match n_resolution n with
        | Some r =>
            let action := or_str (str_of (rs_decision r)) "continue" in
            do! await_ in
            do! act_ (AConsumed pause_id action) in
            do! set_st (consume pause_id action (instruction_of r)) in
            do! set_tk (set_task_status RUNNING) in
            ret action
        | None => pause_at_gate name g pause_id (or_else (n_expires_at n) (p_expires_at payload)) true
        end
    end.

Definition _handle_gate_step (name : string) (gate : option GateConfig) : M string :=
  let! s := get w_state in
  let payload := default no_pause (pending_pause_payload s) in
  let reuse_pause := gate_reused name s in
  if bool_decide (pending_pause_type s = Some "gate") && negb reuse_pause then raise EStepInterrupted
  else if negb reuse_pause && autonomous then ret "continue"
  else
    match (if reuse_pause then or_else (p_gate_definition payload) gate else gate) with
    | None => ret "continue"
    | Some g =>
        if reuse_pause then resume_gate name g payload
        else if negb (gate_pauses g s) then do! await_ in ret "continue"
        else
          let! pause_id := get (λ w, "gate_" +:+ x_uuid env (w_moment w)) in
          pause_at_gate name g pause_id (p_expires_at payload) false
    end.

(** ** Retries, review loops and outcomes *)

Definition _build_exhaustion_gate (step_def : StepDefinition) (last_error : option string) : GateConfig :=
  let max := match completion step_def with Some c => max_attempts c | None => 3 end in
  simple_gate
    ("Step '" +:+ s_name step_def +:+ "' has exhausted its retry limit (" +:+ str_int max +:+ " attempts)." +:+
     (if some_text last_error then newline +:+ newline +:+ "Last failure: " +:+ String.substring 0 500 (str_of last_error) else "") +:+
     newline +:+ newline +:+ "You can retry or cancel the task from the task board.")
    [{| go_label := "Retry step"; go_action := "revise(" +:+ s_name step_def +:+ ")" |};
     {| go_label := "Continue anyway"; go_action := "continue" |}; {| go_label := "Cancel task"; go_action := "cancel" |}].

Definition _build_outcome_gate (step_def : StepDefinition) (outcome_reason : option string) : GateConfig :=
  simple_gate
    ("Step '" +:+ s_name step_def +:+ "' completed but reported a failed outcome." +:+
     (if some_text outcome_reason then newline +:+ newline +:+ "Reason: " +:+ String.substring 0 500 (str_of outcome_reason) else "") +:+
     newline +:+ newline +:+ "You can retry the step or continue anyway.")
    [{| go_label := "Retry step"; go_action := "revise(" +:+ s_name step_def +:+ ")" |};
     {| go_label := "Continue"; go_action := "continue" |}; {| go_label := "Cancel"; go_action := "cancel" |}].

Definition forget_feedback (s : WorkflowState) : WorkflowState :=
  set_last_evaluation_feedback None (set_last_retry_reason None (set_last_revision_context None s)).

Definition forget_retry (s : WorkflowState) : WorkflowState :=
  set_current_step_status None (set_last_retry_reason None (set_last_evaluation_feedback None s)).

Definition next_step (s : WorkflowState) : WorkflowState := set_current_step_index (S (current_step_index s)) s.

(** Back to a step, which gets fresh attempts. *)
Definition go_to (index : nat) (name : string) (s : WorkflowState) : WorkflowState :=
  pop_counter (attempts_key name) (set_current_step_index index s).

(** The rejected deliverable of the step's last run, made its output. *)
Definition overruled_output (d : deliverable) : StepOutput :=
  let base := default (made_output "" "" [] [] None) (dl_run_output d) in
  {| so_summary := match dl_run_output d with
                   | Some o => so_summary o
                   | None => let title := str_of (dl_title d) in
                             if bool_decide (title = "") then String.substring 0 200 (dl_content d) else title
                   end;
     so_content := dl_content d; so_outputs := so_outputs base; so_metadata := so_metadata base; so_claims := so_claims base;
     so_outcome := so_outcome base; so_deliverable_id := Some (dl_id d); so_error := so_error base; so_session_id := so_session_id base |}.

Definition skip_exhausted (step_def : StepDefinition) : M bool :=
  let! k := await_ in
  do! match x_rejected env k with
      | Some d =>
          do! await_ in
          do! act_ (AOverruled (s_name step_def) (overruled_output d)) in
          set_st (λ s, set_step_outputs (od_set (s_name step_def) (overruled_output d) (step_outputs s)) s)
      | None => ret tt
      end in
  do! set_st (λ s, next_step (set_last_operator_instruction None (set_skipped_steps (skipped_steps s ++ [s_name step_def]) s))) in
  do! _persist_workflow_state false in
  ret true.

Definition _handle_exhausted (step_def : StepDefinition) (action : exhausted_action) (last_error : option string) : M bool :=
  match action with
  | XContinue => skip_exhausted step_def
  | XFail => ret false
  | XGate =>
      if autonomous then ret false
      else
        let! result := _handle_gate_step (s_name step_def +:+ "_exhausted") (Some (_build_exhaustion_gate step_def last_error)) in
        if bool_decide (result = "continue") then
          do! set_st (λ s, next_step (forget_feedback s)) in
          do! _persist_workflow_state false in ret true
        else if bool_decide (result = "cancel") then
          do! set_st (λ s, set_current_step_index (length (steps workflow)) (set_last_operator_instruction None (set_ws_status WCancelled s))) in
          do! _persist_workflow_state false in ret true
        else if bool_decide (result = "fail") then ret false
        else match _parse_revise_action result with
             | Some target =>
                 match _find_step_index target with
                 | Some index => do! set_st (go_to index target) in do! _persist_workflow_state false in ret true
                 | None => ret false
                 end
             | None => ret false
             end
  end.

Definition _handle_review_loop (step_def : StepDefinition) : M bool :=
  match on_reject step_def with
  | None => ret false
  | Some r =>
      let! s := get w_state in
      let loop_key := review_key (r_target r) (s_name step_def) in
      let current_iterations := counter loop_key 0 s in
      if r_max_loop_iterations r <=? current_iterations
      then _handle_exhausted step_def (r_on_exhausted r) (last_evaluation_feedback s)
      else
        do! set_st (set_counter loop_key (current_iterations + 1)) in
        match _find_step_index (r_target r) with
        | Some index => do! set_st (go_to index (r_target r)) in do! _persist_workflow_state false in ret true
        | None => ret false
        end
  end.

(** The regular expression for a status 5xx:
    [\b(?:http(?:/\d(?:\.\d)?)?|status(?:_code)?)\s*[:=/ -]\s*5\d\d\b]. *)
Definition is_digit (a : Ascii.ascii) : bool := let n := Ascii.N_of_ascii a in ((48 <=? n) && (n <=? 57))%N.
Definition is_word (a : Ascii.ascii) : bool :=
  let n := Ascii.N_of_ascii a in is_digit a || ((65 <=? n) && (n <=? 90) || (97 <=? n) && (n <=? 122) || (n =? 95) || (192 <=? n) && negb (n =? 215) && negb (n =? 247))%N ||
  bool_decide (n ∈ [170; 178; 179; 181; 185; 186; 188; 189; 190]%N).

Definition code_5xx (t : text) : bool :=
  match lstrip t with
  | c :: d :: e :: t => (Ascii.N_of_ascii c =? 53)%N && is_digit d && is_digit e && negb (match t with a :: _ => is_word a | [] => false end)
  | _ => false
  end.

(** White space, one separator, white space, the code. *)
Fixpoint separated_5xx (t : text) : bool :=
  match t with
  | [] => false
  | c :: t => bool_decide (c ∈ tx ":=/ -") && code_5xx t || is_space c && separated_5xx t
  end.

Definition versioned_5xx (t : text) : bool :=
  separated_5xx t ||
  match t with
  | slash :: d :: t =>
      bool_decide ([slash] = tx "/") && is_digit d &&
      (separated_5xx t || match t with dot :: e :: t => bool_decide ([dot] = tx ".") && is_digit e && separated_5xx t | _ => false end)
  | _ => false
  end.

Definition here_5xx (t : text) : bool :=
  let after p := if startswith t (tx p) then Some (drop (length (tx p)) t) else None in
  match after "http" with Some t => versioned_5xx t | None => false end ||
  match after "status" with
  | Some t => separated_5xx t || match (if startswith t (tx "_code") then Some (drop 5 t) else None) with Some t => separated_5xx t | None => false end
  | None => false
  end.

Fixpoint http_5xx (in_word : bool) (t : text) : bool :=
  match t with
  | [] => false
  | c :: t' => negb in_word && here_5xx t || http_5xx (is_word c) t'
  end.

Example http_5xx_runs :
  map (λ s, http_5xx false (tx s))
    ["http 500"; "got http/1.1 503 from"; "status_code: 502"; "status=504."; "xhttp 500"; "http 5000"; "http 404"; "status - 599"; "https 500"] =
  [true; true; true; true; false; false; false; true; false].
Proof. reflexivity. Qed.

(** [step_failure_traits]: whether a failure is transient. *)
Definition step_failure_transient (o : StepOutput) : bool :=
  let text := str_lower (str_of (so_error o)) in
  let has m := infix (tx m) (tx text) in
  let structured := match dict_get "model_error" (so_metadata o) with
                    | PDict d => match dict_get "transient" d with PBool b => Some b | _ => None end
                    | _ => None
                    end in
  match structured with
  | Some b => b
  | None => existsb has ["deadlock detected"; "deadlockdetectederror"; "serializationerror"; "could not serialize access"] ||
            existsb has ["circuit breaker"; "dns"; "connection reset"; "temporar"; "timeout"; "timed out"] ||
            http_5xx false (tx text)
  end.

(** [m * 2 ^ e] seconds in microseconds, half to even. *)
Definition float_seconds (m e : Z) : Z :=
  if e <? 0 then
    let q := m * second / 2 ^ (- e) in
    let r := 2 * ((m * second) mod 2 ^ (- e)) in
    if (2 ^ (- e) <? r) || (r =? 2 ^ (- e)) && Z.odd q then q + 1 else q
  else m * 2 ^ e * second.

(** [retry_after_seconds] of a model error when it is a positive number, else a growing delay. *)
Definition recovery_delay (o : StepOutput) (attempts : Z) : Z :=
  let growing := Z.min 60 (2 ^ Z.min attempts 6) * second in
  match dict_get "model_error" (so_metadata o) with
  | PDict d => match dict_get "retry_after_seconds" d with
               | PInt n => if 0 <? n then n * second else growing
               | PFloat m e => if 0 <? m then float_seconds m e else growing
               | _ => growing
               end
  | _ => growing
  end.

Definition _defer_step_recovery (step_def : StepDefinition) (failure : StepOutput) : M bool :=
  let! s := get w_state in
  let key := recovery_key (s_name step_def) in
  let attempts := counter key 0 s + 1 in
  do! set_st (λ s, set_last_evaluation_feedback (so_error failure) (set_last_retry_reason (Some "execution_failed") (set_counter key attempts s))) in
  if SESSION_TRANSIENT_MAX_ATTEMPTS <=? attempts then
    do! set_st (pop_counter key) in
    _handle_exhausted step_def XGate (so_error failure)
  else
    let! t := now in
    do! set_tk (λ k, set_result_summary (Some (if some_text (so_error failure) then str_of (so_error failure) else so_summary failure))
                       (set_scheduled_for (t + recovery_delay failure attempts) (set_task_status READY k))) in
    do! set_st (set_current_step_status None) in
    let! s := get w_state in
    let! changed := transaction (λ r, let '(r, ok) := row_defer s r in if ok then Some r else None) in
    if (changed : bool) then ret true else raise EStaleTaskExecutionOwner.

(** Why a step is run again. *)
Inductive retry := RFailure (o : option StepOutput) | RRejection (e : StepEvaluation).

Definition eval_feedback (e : StepEvaluation) : string := or_str (str_of (ev_feedback e)) (ev_reasoning e).

(** The feedback goes to the session of the step; when that fails it is kept in the state. *)
Definition _record_evaluation_feedback (e : StepEvaluation) : M unit :=
  let fallback := set_st (set_last_evaluation_feedback (Some (eval_feedback e))) in
  catch (let! k := await_ in if x_recorded env k then set_st (set_last_evaluation_feedback None) else fallback)
    (λ err, match err with ECancelled => raise ECancelled | _ => fallback end).

(** The attempts that are left decide. *)
Definition spend_attempt (step_def : StepDefinition) (evaluation : option StepEvaluation) : M bool :=
  let completion := _resolve_completion step_def in
  let max := match completion with Some c => max_attempts c | None => 3 end in
  let key := attempts_key (s_name step_def) in
  let! s := get w_state in
  let current_attempts := counter key 1 s in
  if max <=? current_attempts then
    let error_summary := match evaluation with
                         | Some e => Some (eval_feedback e)
                         | None => if some_text (last_evaluation_feedback s) then last_evaluation_feedback s else None
                         end in
    _handle_exhausted step_def (_get_on_exhausted step_def) error_summary
  else
    do! match evaluation with Some e => _record_evaluation_feedback e | None => ret tt end in
    do! set_st (λ s, set_counter key (current_attempts + 1)
          (set_last_retry_reason (Some (match evaluation with Some _ => "evaluation_rejected" | None => "execution_failed" end)) s)) in
    do! _persist_workflow_state false in
    ret true.

Definition _handle_step_retry (step_def : StepDefinition) (why : retry) : M bool :=
  match why with
  | RFailure (Some failure) =>
      do! set_st (λ s, set_last_evaluation_feedback (so_error failure) (set_last_retry_reason (Some "execution_failed") s)) in
      if step_failure_transient failure then _defer_step_recovery step_def failure
      else if is_dict (dict_get "model_error" (so_metadata failure)) then _handle_exhausted step_def XGate (so_error failure)
      else spend_attempt step_def None
  | RFailure None => spend_attempt step_def None
  | RRejection e => spend_attempt step_def (Some e)
  end.

Inductive routed := Onward | Routed | RFailed | RCancelled.

#[global] Instance routed_eq_dec : EqDecision routed.
Proof. solve_decision. Defined.

Definition _resolve_outcome_route (step_def : StepDefinition) (status : string) : option OutcomeRoute :=
  match find (λ r, bool_decide (o_status r = status)) (outcome_routes step_def) with
  | Some r => Some r
  | None => if bool_decide (status = "success") then None
            else Some {| o_status := status; o_action := "fail"; o_max_loop_iterations := None; o_on_exhausted := XFail |}
  end.

Definition outcome_status (o : StepOutput) : string := match so_outcome o with Some (s, _) => s | None => "success" end.
Definition outcome_reason (o : StepOutput) : option string := match so_outcome o with Some (_, r) => r | None => None end.

Definition _handle_outcome_review_loop (step_def : StepDefinition) (route : OutcomeRoute) (feedback : option string) : M (option routed) :=
  match o_max_loop_iterations route with
  | None => ret None
  | Some max =>
      let! s := get w_state in
      let key := outcome_key (s_name step_def) (o_action route) in
      let current_iterations := counter key 0 s in
      if max <=? current_iterations then
        let! handled := _handle_exhausted step_def (o_on_exhausted route) feedback in
        ret (Some (if (handled : bool) then Routed else RFailed))
      else do! set_st (set_counter key (current_iterations + 1)) in ret None
  end.

(** Back to the step that an outcome asks to revise. *)
Definition revise_for_outcome (step_def : StepDefinition) (o : StepOutput) (target : string) : M routed :=
  match _find_step_index target with
  | None => ret RFailed
  | Some index =>
      do! set_st (λ s, set_last_revision_context (Some (_build_revision_context step_def o))
                         (set_last_evaluation_feedback (outcome_reason o) (go_to index target s))) in
      do! _persist_workflow_state false in
      ret Routed
  end.

Definition outcome_gate (step_def : StepDefinition) (o : StepOutput) : M routed :=
  let! s := get w_state in
  if negb (bool_decide (pending_pause_type s = Some "gate")) && autonomous then ret RFailed
  else
    let! result := _handle_gate_step (s_name step_def +:+ "_outcome_gate") (Some (_build_outcome_gate step_def (outcome_reason o))) in
    if bool_decide (result = "continue") then
      do! set_st (λ s, next_step (forget_feedback s)) in
      do! _persist_workflow_state false in ret Routed
    else if bool_decide (result = "cancel") then ret RCancelled
    else if bool_decide (result = "fail") then ret RFailed
    else match _parse_revise_action result with
         | Some target => revise_for_outcome step_def o target
         | None => ret RFailed
         end.

Definition _handle_step_outcome (step_def : StepDefinition) (o : StepOutput) : M routed :=
  let onward := do! set_st (λ s, set_last_operator_instruction None (forget_feedback s)) in ret Onward in
  match _resolve_outcome_route step_def (outcome_status o) with
  | None => onward
  | Some route =>
      let action := o_action route in
      if bool_decide (action = "continue") then onward
      else if bool_decide (action = "fail") then ret RFailed
      else if bool_decide (action = "cancel") then ret RCancelled
      else if bool_decide (action = "gate") then outcome_gate step_def o
      else match _parse_revise_action action with
           | None => ret RFailed
           | Some target =>
               let! looped := _handle_outcome_review_loop step_def route (outcome_reason o) in
               match looped with
               | Some r => ret r
               | None => revise_for_outcome step_def o target
               end
           end
  end.

Definition _pause_for_deterministic_error (step_def : StepDefinition) (error : string) : M string :=
  let! s := get w_state in
  if negb (bool_decide (pending_pause_type s = Some "gate")) && autonomous then ret "fail"
  else
    let! result := _handle_gate_step (s_name step_def +:+ ":error") (Some (simple_gate
        ("Deterministic step '" +:+ s_name step_def +:+ "' requires operator review." +:+ newline +:+ newline +:+
         String.substring 0 500 (squeeze error))
        [{| go_label := "Continue"; go_action := "continue" |}; {| go_label := "Cancel task"; go_action := "cancel" |}])) in
    ret (if bool_decide (result ∈ ["continue"; "cancel"; "fail"]) then result else "paused").

Definition _handle_transient_executor_unavailable (step_def : StepDefinition) (retry_after_seconds : Z) : M bool :=
  let! t := now in
  do! set_st (λ s, set_version (version s + 1) (clear_pause (set_ws_status WRunning (forget_retry
        (set_counter (unavailable_key (s_name step_def)) (counter (unavailable_key (s_name step_def)) 0 s + 1) s))))) in
  do! set_tk (λ k, set_result_summary (Some "Workflow is waiting for the selected executor to become ready.")
                     (set_scheduled_for (t + Z.max 1 retry_after_seconds * second) (set_task_status READY k))) in
  let! s := get w_state in
  let! ok := transaction (λ r, let '(r, ok) := row_defer s r in if ok then Some r else None) in
  if (ok : bool) then ret true else raise EStepInterrupted.

(** ** Running a step *)

Definition _set_interactive_pause_state (q : question) (p : pause) : M unit :=
  do! set_st (λ s, set_pending_pause_type (Some (question_name q)) (set_pending_pause_payload (Some p)
                     (set_current_step_status (Some "paused") (set_ws_status WPaused s)))) in
  let! s := get w_state in
  let! _ := transaction (λ r, Some (row_update_state s None (row_update_status PAUSED None None None r).1).1) in ret tt.

Definition _clear_interactive_pause_state : M unit :=
  do! set_st (λ s, clear_pause (set_current_step_status (Some "running") (set_ws_status WRunning s))) in
  let! s := get w_state in
  let! resumed := transaction (λ r, let '(r, resumed) := row_update_status RUNNING None None None r in
                                    if resumed then Some (row_update_state s None r).1 else None) in
  if (resumed : bool) then ret tt else raise EStepInterrupted.

(** Asking, waiting and going on, one question after the other. *)
Fixpoint ask_all (asked : list (question * pause)) : M unit :=
  match asked with
  | [] => ret tt
  | (q, p) :: asked => do! _set_interactive_pause_state q p in do! await_ in do! _clear_interactive_pause_state in ask_all asked
  end.

(** The agent loop runs the step; it may ask and wait on the way. *)
Definition _execute_run_step (step_def : StepDefinition) : M (option StepOutput) :=
  let! k := await_ in
  let! s := get w_state in
  do! act_ (ARun (s_name step_def) (skipped_steps s)) in
  do! ask_all (x_asked env k) in
  let! k := await_ in
  do! match x_run env k with Some o => act_ (AProduced (s_name step_def) o) | None => ret tt end in
  ret (x_run env k).

Inductive verdict := VContinue | VBreak | VReturn.

#[global] Instance verdict_eq_dec : EqDecision verdict.
Proof. solve_decision. Defined.

Definition stop (s : run_status) : M verdict := do! set_st (set_ws_status s) in ret VBreak.

(** [if not handled: state.status = "failed"; break] and [continue]. *)
Definition handled_or_failed (handled : bool) : M verdict := if handled then ret VContinue else stop WFailed.

(** The step waits for its executor: the task is ready again later. *)
Definition deferring {A} (step_def : StepDefinition) (m : M A) (k : A → M verdict) : M verdict :=
  let! r := catch (let! a := m in ret (Some a))
              (λ e, match e with
                    | ETransientExecutorUnavailable t => do! _handle_transient_executor_unavailable step_def t in ret None
                    | e => raise e
                    end) in
  match r with Some a => k a | None => ret VReturn end.

(** [task.status = PAUSED] with the state, in one transaction. *)
Definition pause_task : M verdict :=
  do! set_tk (set_task_status PAUSED) in
  do! _persist_workflow_state true in
  ret VReturn.

(** The saved gate of a step that is not a gate step. *)
Definition _resume_derived_gate (step_def : StepDefinition) : M bool :=
  let! s := get w_state in
  let payload := default no_pause (pending_pause_payload s) in
  let name := s_name step_def in
  let is_ n := bool_decide (p_step_name payload = Some n) in
  if negb (default attempt_number (p_task_attempt payload) =? attempt_number) ||
     negb (bool_decide (default name (p_origin_step payload) = name)) ||
     negb (default (current_step_index s) (p_origin_step_index payload) =? current_step_index s)%nat
  then ret false
  else if is_ (name +:+ "_outcome_gate") then
    match od_get name (step_outputs s) with
    | None => ret false
    | Some o =>
        match _resolve_outcome_route step_def (outcome_status o) with
        | Some route =>
            if bool_decide (o_action route = "gate") then
              let! result := _handle_step_outcome step_def o in
              do! match result with
                  | RFailed => set_st (set_ws_status WFailed)
                  | RCancelled => set_st (set_ws_status WCancelled)
                  | Onward | Routed => ret tt
                  end in
              ret true
            else ret false
        | None => ret false
        end
    end
  else if is_ (name +:+ "_exhausted") then
    let! handled := _handle_exhausted step_def XGate (last_evaluation_feedback s) in
    do! when_ (negb handled) (set_st (set_ws_status WFailed)) in
    ret true
  else if is_ (name +:+ ":error") then
    let! result := _pause_for_deterministic_error step_def (str_of (od_get name (step_outputs s) ≫= so_error)) in
    if bool_decide (result = "paused") then ret false
    else if bool_decide (result = "cancel") then do! set_st (set_ws_status WCancelled) in ret true
    else if bool_decide (result = "fail") then do! set_st (set_ws_status WFailed) in ret true
    else
      let target := match p_next_step_index payload with
                    | Some i => Some i
                    | None => match s_next step_def with
                              | Some n => if bool_decide (n = "") then Some (S (current_step_index s)) else _find_step_index n
                              | None => Some (S (current_step_index s))
                              end
                    end in
      match target with
      | None => do! set_st (set_ws_status WFailed) in ret true
      | Some index => do! set_st (set_current_step_index index) in do! _persist_workflow_state true in ret true
      end
  else ret false.

(** What follows the result of a deterministic step. *)
Definition route_from (step_def : StepDefinition) (r : det_result) : M verdict :=
  let! s := get w_state in
  let next_index := default (S (current_step_index s)) (ds_next_step_index r) in
  do! match ds_route_loop_key r, ds_route_loop_iterations r with
      | Some k, Some n => set_st (set_counter k n)
      | _, _ => ret tt
      end in
  do! match ds_revision_context r with Some c => set_st (set_last_revision_context (Some c)) | None => ret tt end in
  do! _apply_deterministic_route (current_step_index s) next_index (_deterministic_route_reason step_def (ds_output r)) in
  do! set_st (λ s, set_current_step_index next_index (clear_pause (set_current_step_status None s))) in
  do! _persist_workflow_state false in
  ret VContinue.

Definition after_deterministic (step_def : StepDefinition) (r : det_result) : M verdict :=
  do! set_st (λ s, set_step_outputs (od_set (s_name step_def) (ds_output r) (step_outputs s)) s) in
  do! match ds_delivery_mode_override r with Some m => set_tk (set_delivery_mode m) | None => ret tt end in
  match ds_workflow_status r with
  | Some status =>
      do! set_st (λ s, set_current_step_index (length (steps workflow))
                         (set_ws_status (if bool_decide (status = "completed") then WCompleted else WFailed) s)) in
      do! _persist_workflow_state false in
      ret VBreak
  | None =>
      if bool_decide (ds_status r = "paused") then
        do! set_st (λ s, set_current_step_status (Some "paused") (set_ws_status WPaused s)) in pause_task
      else if bool_decide (ds_status r = "failed") then
        let action := or_str (str_of (ds_error_action r)) "fail" in
        if bool_decide (action = "fail") then
          do! set_st (set_ws_status WFailed) in do! _persist_workflow_state false in ret VBreak
        else if bool_decide (action = "gate") then
          let o := ds_output r in
          let! gate_action := _pause_for_deterministic_error step_def (or_str (str_of (so_error o)) (so_summary o)) in
          if bool_decide (gate_action = "paused") then ret VReturn
          else if bool_decide (gate_action = "cancel") then stop WCancelled
          else if bool_decide (gate_action = "fail") then stop WFailed
          else route_from step_def r
        else route_from step_def r
      else route_from step_def r
  end.

Definition run_deterministic (step_def : StepDefinition) : M verdict :=
  deferring step_def (_await_with_workflow_budget (_execute_deterministic_step step_def)) (after_deterministic step_def).

Definition run_gate (step_def : StepDefinition) : M verdict :=
  let! gate_result := _handle_gate_step (s_name step_def) (s_gate step_def) in
  let forget := set_st (set_last_operator_instruction None) in
  if bool_decide (gate_result = "cancel") then do! forget in stop WCancelled
  else if bool_decide (gate_result = "fail") then do! forget in stop WFailed
  else match _parse_revise_action gate_result with
       | Some target =>
           match _find_step_index target with
           | None => stop WFailed
           | Some index =>
               do! set_st (λ s,
                 let payload := default no_pause (pending_pause_payload s) in
                 let s := if some_text (last_revision_context s) then s
                          else set_last_revision_context (Some (gate_revision (s_name step_def) target
                                 (str_strip (p_message payload)) (p_context payload) "")) s in
                 go_to index target s) in
               do! _persist_workflow_state false in
               ret VContinue
           end
       | None => do! set_st next_step in do! _persist_workflow_state false in ret VContinue
       end.

(** The sources of a step that were skipped. *)
Definition missing_sources (step_def : StepDefinition) (s : WorkflowState) : list string :=
  match skipped_steps s with
  | [] => []
  | skipped => filter (λ n, n ∈ skipped) (resolve_source_names step_def (current_step_index s) (steps workflow))
  end.

Definition skip_without_input (step_def : StepDefinition) : M verdict :=
  do! set_st (λ s, next_step (set_skipped_steps (skipped_steps s ++ [s_name step_def]) s)) in
  do! _persist_workflow_state false in
  ret VContinue.

Definition run_failed (step_def : StepDefinition) (failure : option StepOutput) : M verdict :=
  let! handled := _handle_step_retry step_def (RFailure failure) in
  if negb handled then stop WFailed
  else let! t := get (λ w, t_status (w_task w)) in ret (if bool_decide (t = READY) then VReturn else VContinue).

Definition evaluated (step_def : StepDefinition) : bool :=
  match _resolve_completion step_def with Some c => evaluate c | None => false end.

(** The output is committed; its outcome may route elsewhere. *)
Definition commit_output (step_def : StepDefinition) (o : StepOutput) : M verdict :=
  do! when_ (bool_decide (is_Some (so_deliverable_id o)) && negb (evaluated step_def)) (let! _ := await_ in ret tt) in
  do! set_st (λ s, set_step_outputs (od_set (s_name step_def) o (step_outputs s)) s) in
  do! await_ in
  let! routed := _handle_step_outcome step_def o in
  match routed with
  | RFailed => stop WFailed
  | RCancelled => stop WCancelled
  | Routed => ret VContinue
  | Onward =>
      do! set_st (λ s, next_step (set_last_operator_instruction None (forget_feedback (clear_pause (set_current_step_status None s))))) in
      do! _persist_workflow_state false in
      ret VContinue
  end.

Definition EVALUATOR_MALFUNCTION_REASON_PREFIX : string := "Evaluator malfunction:".
Definition is_evaluator_malfunction (e : StepEvaluation) : bool :=
  startswith (tx (ev_reasoning e)) (tx EVALUATOR_MALFUNCTION_REASON_PREFIX).

Definition _evaluate_step (step_def : StepDefinition) (o : StepOutput) : M StepEvaluation :=
  let! k := await_ in
  do! act_ (AEvaluated (s_name step_def) o (x_evaluation env k)) in
  ret (x_evaluation env k).

Definition after_evaluation (step_def : StepDefinition) (o : StepOutput) (evaluation : StepEvaluation) : M verdict :=
  match ev_decision evaluation with
  | Approved => commit_output step_def o
  | Revise =>
      do! set_st (set_last_evaluation_feedback (Some (eval_feedback evaluation))) in
      let! loop_handled := _handle_review_loop step_def in
      if (loop_handled : bool) then ret VContinue
      else let! handled := _handle_step_retry step_def (RRejection evaluation) in handled_or_failed handled
  | Failed_ =>
      if is_evaluator_malfunction evaluation then stop WFailed
      else let! handled := _handle_exhausted step_def (_get_on_exhausted step_def) None in handled_or_failed handled
  end.

Definition run_step (step_def : StepDefinition) : M verdict :=
  deferring step_def (_await_with_workflow_budget (_execute_run_step step_def)) (λ step_result,
    match step_result with
    | None => run_failed step_def None
    | Some o =>
        match so_error o with
        | Some _ => run_failed step_def (Some o)
        | None =>
            do! set_st (λ s, set_resume_failed_step false (pop_counter (recovery_key (s_name step_def)) s)) in
            if evaluated step_def then
              let! evaluation := _await_with_workflow_budget (_evaluate_step step_def o) in
              do! await_ in
              after_evaluation step_def o evaluation
            else commit_output step_def o
        end
    end).

(** One turn of the loop. *)
Definition iterate (step_def : StepDefinition) : M verdict :=
  let! s := get w_state in
  if bool_decide (pending_pause_type s = Some "gate") && negb (bool_decide (s_type step_def = TGate)) then
    let! resumed := _resume_derived_gate step_def in
    if (resumed : bool) then
      let! s := get w_state in
      ret (if bool_decide (ws_status s ∈ [WFailed; WCancelled]) then VBreak else VContinue)
    else do! set_st (set_ws_status WPaused) in pause_task
  else
    do! set_st (λ s, set_routing_skips (od_del (s_name step_def) (routing_skips s)) (set_current_step_status (Some "running") s)) in
    if deterministic step_def then run_deterministic step_def
    else if bool_decide (s_type step_def = TGate) then run_gate step_def
    else
      let! s := get w_state in
      match missing_sources step_def s with
      | [] => run_step step_def
      | _ => skip_without_input step_def
      end.

(** [while state.current_step_index < len(workflow.steps)]; [None] when the fuel ends first. *)
Fixpoint loop (fuel : nat) : M (option verdict) :=
  let! w := get id in
  match steps workflow !! current_step_index (w_state w) with
  | None => ret (Some VBreak)
  | Some step_def =>
      if DEFAULT_MAX_WORKFLOW_SECONDS <? w_elapsed w then let! v := stop WFailed in ret (Some v)
      else
        match fuel with
        | O => ret None
        | S fuel =>
            let! v := iterate step_def in
            match v with VContinue => loop fuel | v => ret (Some v) end
        end
  end.

(** ** The whole run *)

Definition last_output (s : WorkflowState) : option StepOutput := snd <$> last (step_outputs s).

Definition _deterministic_completion_delivery_override (s : WorkflowState) : option string :=
  match last_output s with
  | Some o =>
      match dict_get "step_type" (so_metadata o), dict_get "delivery_mode_override" (so_metadata o) with
      | PStr "complete", PStr m =>
          if bool_decide (m ∈ ["same_conversation"; "preferred_channel"; "latest_active_for_agent"; "specific_conversation"; "silent"])
          then Some m else None
      | _, _ => None
      end
  | None => None
  end.

Definition _build_result_summary (s : WorkflowState) : string :=
  match last (steps workflow) with
  | Some l => match od_get (s_name l) (step_outputs s) with Some o => so_summary o | None => "" end
  | None => ""
  end.

Definition _build_failure_result_summary (s : WorkflowState) : string :=
  if bool_decide (last_retry_reason s = Some "execution_failed") && some_text (last_evaluation_feedback s)
  then str_of (last_evaluation_feedback s)
  else
    let current := steps workflow !! Nat.min (current_step_index s) (length (steps workflow) - 1) in
    match current ≫= (λ c, od_get (s_name c) (step_outputs s)) with
    | Some o =>
        let summary := str_strip (so_summary o) in
        let error := str_strip (match so_error o with Some e => e | None => "None" end) in
        if negb (bool_decide (summary = "")) then summary
        else if negb (bool_decide (error = "")) then error else _build_result_summary s
    | None => _build_result_summary s
    end.

(** The status that the end of the loop gives the task. *)
Definition conclude (s : WorkflowState) : TaskStatus :=
  if bool_decide (ws_status s = WCancelled) then CANCELLED
  else if bool_decide (ws_status s = WFailed) || negb (bool_decide (skipped_steps s = [])) then FAILED
  else COMPLETED.

Definition conclude_summary (s : WorkflowState) : string :=
  match conclude s with
  | CANCELLED => or_str (_build_result_summary s) "Workflow cancelled"
  | FAILED =>
      match skipped_steps s with
      | [] => or_str (_build_failure_result_summary s) "Workflow failed"
      | skipped => "Workflow failed: steps skipped after exhausting retries (" +:+ join ", " skipped +:+ ")"
      end
  | _ => _build_result_summary s
  end.

Definition finish : M unit :=
  do! set_st (λ s, clear_pause (set_current_step_status None s)) in
  let! s := get w_state in
  do! match _deterministic_completion_delivery_override s with Some m => set_tk (set_delivery_mode m) | None => ret tt end in
  do! set_st (set_ws_status (final_status (conclude s))) in
  do! set_tk (λ t, set_result_summary (Some (conclude_summary s)) (set_task_status (conclude s) t)) in
  do! await_ in
  _persist_task_final.

(** [except StepInterrupted] *)
Definition interrupted : M unit :=
  let! current_status := _read_task_status in
  if bool_decide (current_status = CANCELLED) then
    do! set_st (λ s, clear_pause (set_current_step_status None (set_ws_status WCancelled s))) in
    set_tk (set_task_status CANCELLED)
  else
    do! set_st (set_ws_status WPaused) in
    do! set_tk (set_task_status PAUSED) in
    _persist_workflow_state false.

Definition fail_running_step_runs (rows : list det_run) : list det_run :=
  (λ r, if bool_decide (dr_status r ∈ ACTIVE_STEP_STATUSES) then set_dr_status "failed" r else r) <$> rows.

(** [except TimeoutError] and [except Exception]. *)
Definition failed (e : exn) : M unit :=
  do! set_st (set_ws_status WFailed) in
  do! when_ (bool_decide (is_Some (match e with ETimeout => Some tt | _ => None end)))
        (set_st (λ s, clear_pause (set_current_step_status None s))) in
  let! w := get id in
  do! set_tk (λ t, match e with
                   | ETimeout => set_result_summary (Some ("Workflow timed out after " +:+ str_int (w_elapsed w / second) +:+
                                                           "s of active execution")) (set_task_status FAILED t)
                   | EExecutorRecoveryTimeout m => set_result_summary (Some m) (set_task_status FAILED t)
                   | _ => set_task_status FAILED t
                   end) in
  do! runs_transaction fail_running_step_runs in
  _persist_task_final.

Definition on_exception (e : exn) : M (option unit) :=
  match e with
  | EStepInterrupted => do! interrupted in ret (Some tt)
  | EStaleTaskExecutionOwner => raise EStaleTaskExecutionOwner
  | ECancelled => raise ECancelled
  | e => do! failed e in ret (Some tt)
  end.

(** The answer is [None] when the fuel ends first; a return from within the loop skips what comes
    after the handlers. *)
Definition run_loop (fuel : nat) : M (option (option unit)) :=
  let! v := loop fuel in
  match v with
  | None => ret None
  | Some VReturn => ret (Some None)
  | Some _ => do! finish in ret (Some (Some tt))
  end.

Definition execute_workflow (fuel : nat) : M bool :=
  let! r := catch (run_loop fuel) (λ e, let! r := on_exception e in ret (Some r)) in
  match r with
  | None => ret false
  | Some None => ret true
  | Some (Some _) =>
      let! t := get (λ w, t_status (w_task w)) in
      do! when_ (ended t) (do! await_ in act_ ADelivered) in
      ret true
  end.
End Task.
End Engine.
