(* ===== verification/WorkflowSample.v ===== *)
(** A small workflow with a step of each kind, and an outside for it, for the examples and witnesses of
    the workflow engine. *)

From S2P Require Import Prelude PyVal Gates Tables Tasks Workflow WorkflowEngine.

Definition sample_step (n : string) (t : step_type) : StepDefinition :=
  {| s_name := n; s_type := t; defer_to := []; agent_override := None; agent_profile_id := None; s_input := None; completion := None;
     s_gate := None; on_reject := None; outcome_routes := []; metadata_fields := []; s_when := None; on_skip := None; on_error := None;
     s_next := None; tool_call := None; condition := None; complete := None |}.

(** A step of agents that is evaluated; a rejection goes back to [target]. *)
Definition sample_run (n : string) (attempts : Z) (target : option string) : StepDefinition :=
  {| s_name := n; s_type := TRun; defer_to := []; agent_override := None; agent_profile_id := None; s_input := None;
     completion := Some {| evaluate := true; max_attempts := attempts; on_exhausted := XFail |};
     s_gate := None;
     on_reject := (λ t, {| r_target := t; r_max_loop_iterations := 1; r_on_exhausted := XFail |}) <$> target; outcome_routes := [];
     metadata_fields := []; s_when := None; on_skip := None; on_error := None;
     s_next := None; tool_call := None; condition := None; complete := None |}.

Definition sample_condition (n target otherwise : string) : StepDefinition :=
  {| s_name := n; s_type := TCondition; defer_to := []; agent_override := None; agent_profile_id := None; s_input := None; completion := None;
     s_gate := None; on_reject := None; outcome_routes := []; metadata_fields := []; s_when := None; on_skip := None; on_error := None;
     s_next := None; tool_call := None;
     condition := Some {| if_ := "review asks for it"; then_ := Some target; else_ := Some otherwise; c_output := None; revision_source := None;
                          c_max_loop_iterations := Some 5; c_on_exhausted := XGate |};
     complete := None |}.

(** A step that calls a tool with side effects. *)
Definition sample_tool (n : string) : StepDefinition :=
  {| s_name := n; s_type := TToolCall; defer_to := []; agent_override := None; agent_profile_id := None; s_input := None; completion := None;
     s_gate := None; on_reject := None; outcome_routes := []; metadata_fields := []; s_when := None; on_skip := None; on_error := None;
     s_next := None;
     tool_call := Some {| tool := "send"; args := []; tc_summary := None; tc_outputs := []; fail_on_error := true; timeout_seconds := None;
                          allow_side_effects := true |};
     condition := None; complete := None |}.

Definition sample_gate (n : string) : StepDefinition :=
  {| s_name := n; s_type := TGate; defer_to := []; agent_override := None; agent_profile_id := None; s_input := None; completion := None;
     s_gate := Some (simple_gate "Approve?" []); on_reject := None; outcome_routes := []; metadata_fields := []; s_when := None; on_skip := None;
     on_error := None; s_next := None; tool_call := None; condition := None; complete := None |}.

Definition sample_workflow (mode : string) : Workflow :=
  {| interaction_mode := mode; defaults := {| df_max_attempts := 3; df_evaluate := false; df_on_exhausted := XFail |};
     steps := [sample_run "plan" 2 None; sample_tool "notify"; sample_run "review" 3 (Some "plan"); sample_condition "route" "plan" "approve";
               sample_gate "approve"] |}.

Definition sample_output (k : nat) : StepOutput := made_output (pretty k) "" [] [] None.
Definition sample_verdict (d : decision) : StepEvaluation := {| ev_decision := d; ev_reasoning := "because"; ev_feedback := None |}.

(** Everything answers; the process dies at the awaits [dies]; the evaluator rejects at the awaits
    [rejects]; the operator answers a gate by [decides]; the condition
    is [asks]. *)
Definition sample_outside (dies rejects : nat → bool) (decides : nat → string) (asks : WorkflowState → bool) : outside :=
  {| x_raises := λ k, if dies k then Some ECancelled else None; x_status := λ _, None; x_now := λ _, 0; x_took := λ _, 1; x_expired := λ _, false;
     x_uuid := pretty; x_run := λ k, Some (sample_output k); x_asked := λ _, [];
     x_evaluation := λ k, sample_verdict (if rejects k then Revise else Approved);
     x_recorded := λ _, true; x_registered := λ _, Some false; x_tool := λ _, (false, "sent"); x_notification := λ _, None;
     x_wait := λ k, Some {| rs_decision := Some (decides k); rs_note := None; rs_feedback := None |};
     x_rejected := λ _, None; ast_parse := λ _, None; repr_str := id; repr_context := λ _, "";
     render_expression := λ _ s, Ok (asks s); render_text := λ t _, Ok t; render_native := λ d _, Ok d; render_result := λ _ _ _, Ok ([], "sent") |}.

Definition sample_state : WorkflowState :=
  {| current_step_index := 0; step_outputs := []; loop_iterations := []; version := 0; last_consumed_gate_id := None; ws_status := WRunning;
     skipped_steps := []; routing_skips := []; last_evaluation_feedback := None; last_retry_reason := None; last_revision_context := None;
     last_operator_instruction := None; pending_pause_type := None; pending_pause_payload := None; current_step_status := None;
     resume_failed_step := false |}.

Definition sample_world : world :=
  {| w_moment := 0; w_elapsed := 0; w_state := sample_state;
     w_task := {| t_status := RUNNING; t_delivery_mode := ""; t_result_summary := None; t_scheduled_for := None |};
     w_row := {| d_status := RUNNING; d_attempt := 1; d_state := sample_state |}; w_runs := []; w_info := fresh_info 0; w_log := [] |}.

(** What the tests of a run look at. *)
Definition sample_trace (w : world) : list string :=
  (λ a, match a with
        | ARun n _ => "run " +:+ n
        | AProduced n _ => "produced " +:+ n
        | AEvaluated n _ e => "evaluated " +:+ n +:+ (match ev_decision e with Approved => " approved" | Revise => " revise" | Failed_ => " failed" end)
        | ADispatch n _ _ => "dispatched " +:+ n
        | AConsumed _ d => "decided " +:+ d
        | AOverruled n _ => "overruled " +:+ n
        | ADelivered => "delivered"
        end) <$> reverse (w_log w).

Definition sample_run_of (outer : outside) : result exn bool * world :=
  execute_workflow outer (sample_workflow "explicit_gates") 1 None 30 sample_world.

(** ** What the runs show *)

(** A review that sends the plan back does not renew the steps between: the tool of the old plan's
    notification is not called again for the new plan. *)
Example review_loop_replays_tool :
  let '(r, w) := sample_run_of (sample_outside (λ _, false) (λ k, k =? 29)%nat (λ _, "continue") (λ _, false)) in
  r = Ok true ∧ t_status (w_task w) = COMPLETED ∧
  sample_trace w = ["run plan"; "produced plan"; "evaluated plan approved"; "dispatched notify";
    "run review"; "produced review"; "evaluated review revise";
    "run plan"; "produced plan"; "evaluated plan approved";
    "run review"; "produced review"; "evaluated review approved"; "decided continue"; "delivered"].
Proof. by vm_compute. Qed.

(** The condition asks for another plan as soon as the review is not the first one. *)
Definition sample_asks (s : WorkflowState) : bool :=
  match od_get "review" (step_outputs s) with Some o => negb (bool_decide (so_summary o = "28")) | None => false end.

(** An operator who sends the plan back gets the old answer of the condition behind the new review:
    the condition holds for the new review, and the workflow completes as if it did not. *)
Example gate_revision_replays_condition :
  let '(r, w) := sample_run_of (sample_outside (λ _, false) (λ _, false) (λ k, if (k <? 59)%nat then "revise(plan)" else "continue") sample_asks) in
  r = Ok true ∧ t_status (w_task w) = COMPLETED ∧ sample_asks (w_state w) = true ∧
  ((λ r, (dr_step r, dr_attempt r)) <$> w_runs w) = [("notify", 1); ("route", 1)] ∧
  sample_trace w = ["run plan"; "produced plan"; "evaluated plan approved"; "dispatched notify";
    "run review"; "produced review"; "evaluated review approved"; "decided revise(plan)";
    "run plan"; "produced plan"; "evaluated plan approved";
    "run review"; "produced review"; "evaluated review approved"; "decided continue"; "delivered"].
Proof. by vm_compute. Qed.

(** A review loop with [on_exhausted] "fail" does not fail when its one iteration is used up: the
    reviewing step is tried once more, and the workflow completes. *)
Example exhausted_loop_tries_again :
  let '(r, w) := sample_run_of (sample_outside (λ _, false) (λ k, (k =? 29) || (k =? 48))%nat (λ _, "continue") (λ _, false)) in
  r = Ok true ∧ t_status (w_task w) = COMPLETED ∧
  firstn 13 (drop 7 (sample_trace w)) = ["run plan"; "produced plan"; "evaluated plan approved";
    "run review"; "produced review"; "evaluated review revise";
    "run review"; "produced review"; "evaluated review approved"; "decided continue"; "delivered"].
Proof. by vm_compute. Qed.
