(* ===== verification/WorkflowRules.v ===== *)
(** Reasoning about computations of the workflow engine: what every part of the world that a
    method may touch must preserve, and the methods that can only do harmless things. *)

From S2P Require Import Prelude PyVal Gates Lease Tables Tasks Workflow WorkflowEngine.

(** ** Preservation *)

(** [m] preserves [I], however it ends. *)
Definition keeps {A} (I : world → Prop) (m : M A) : Prop := ∀ w, I w → I (m w).2.

(** [m] ends, if it does without an exception, in a value and a world that satisfy [Q]. *)
Definition gives {A} (I : world → Prop) (m : M A) (Q : A → world → Prop) : Prop :=
  ∀ w, I w → match m w with (Ok a, w') => Q a w' | _ => True end.

Section Keeps.
Context (I : world → Prop).

Lemma keeps_value {A} (a : A) : keeps I (ret a).
Proof. by intros w. Qed.

Lemma keeps_exception {A} e : keeps I (raise (A:=A) e).
Proof. by intros w. Qed.

Lemma keeps_get {A} (f : world → A) : keeps I (get f).
Proof. by intros w. Qed.

Lemma keeps_then {A B} (m : M A) (f : A → M B) : keeps I m → (∀ a, keeps I (f a)) → keeps I (bind m f).
Proof.
  intros Hm Hf w Hw. specialize (Hm w Hw). unfold bind. destruct (m w) as [[a|e] w']; [by apply Hf|done].
Qed.

(** What the first part gives helps the second. *)
Lemma keeps_bind_gives {A B} (Q : A → world → Prop) (m : M A) (f : A → M B) :
  keeps I m → gives I m Q → (∀ a w, I w → Q a w → I (f a w).2) → keeps I (bind m f).
Proof.
  intros Hm HQ Hf w Hw. specialize (Hm w Hw). specialize (HQ w Hw). unfold bind.
  destruct (m w) as [[a|e] w']; [by apply Hf|done].
Qed.

Lemma keeps_catch {A} (m : M A) h : keeps I m → (∀ e, keeps I (h e)) → keeps I (catch m h).
Proof.
  intros Hm Hh w Hw. specialize (Hm w Hw). unfold catch. destruct (m w) as [[a|e] w']; [done|by apply Hh].
Qed.

Lemma keeps_modify f : (∀ w, I w → I (f w)) → keeps I (modify f).
Proof. intros H w Hw. exact (H w Hw). Qed.

Lemma keeps_when b m : keeps I m → keeps I (when_ b m).
Proof. intros H. destruct b; [done|apply keeps_value]. Qed.

Lemma keeps_of_result {A} (r : result string A) : keeps I (of_result r).
Proof. destruct r; [apply keeps_value|apply keeps_exception]. Qed.

(** The value that is read may be used. *)
Lemma keeps_get_bind {A B} (f : world → A) (k : A → M B) :
  (∀ w, I w → I (k (f w) w).2) → keeps I (bind (get f) k).
Proof. intros H w Hw. exact (H w Hw). Qed.
End Keeps.

(** ** Harmless methods *)

(** A change of the workflow state that leaves the outputs and the generations alone. *)
Definition mild (s s' : WorkflowState) : Prop :=
  step_outputs s' = step_outputs s ∧ ∀ n, generation n s' = generation n s.

#[global] Instance mild_pre : PreOrder mild.
Proof. split; [by split|]. intros s1 s2 s3 [H1 H2] [H3 H4]. split; [by rewrite H3|]. intros n. by rewrite H4. Qed.

Lemma append_cancel (p a b : string) : p +:+ a = p +:+ b → a = b.
Proof. induction p as [|c p IH]; simpl; [done|]. intros [= H]. auto. Qed.

Lemma generation_set_counter k x n s : k ≠ generation_key n → generation n (set_counter k x s) = generation n s.
Proof. intros Hk. unfold generation, counter, set_counter. simpl. rewrite od_get_set. by rewrite decide_False by done. Qed.

Lemma generation_pop_counter k n s : k ≠ generation_key n → generation n (pop_counter k s) = generation n s.
Proof. intros Hk. unfold generation, counter, pop_counter. simpl. rewrite od_get_del. by rewrite decide_False by done. Qed.

(** Counters of which no key is the generation of a step. *)
Definition harmless_key (k : string) : Prop := ∀ n, k ≠ generation_key n.

Lemma attempts_harmless n : harmless_key (attempts_key n).
Proof. by intros m [=]. Qed.
Lemma recovery_harmless n : harmless_key (recovery_key n).
Proof. by intros m [=]. Qed.
Lemma unavailable_harmless n : harmless_key (unavailable_key n).
Proof. by intros m [=]. Qed.
Lemma outcome_harmless n a : harmless_key (outcome_key n a).
Proof. by intros m [=]. Qed.
Lemma condition_harmless n t : harmless_key (condition_key n t).
Proof. by intros m [=]. Qed.
Lemma jumps_harmless : harmless_key jumps_key.
Proof. by intros m [=]. Qed.

Lemma mild_counter k n s : harmless_key k → mild s (set_counter k n s).
Proof. intros Hk. split; [done|]. intros m. by apply generation_set_counter. Qed.

Lemma mild_pop k s : harmless_key k → mild s (pop_counter k s).
Proof. intros Hk. split; [done|]. intros m. by apply generation_pop_counter. Qed.

(** The setters of the other fields. *)
Lemma mild_same s s' : step_outputs s' = step_outputs s → loop_iterations s' = loop_iterations s → mild s s'.
Proof. intros H1 H2. split; [done|]. intros n. unfold generation, counter. by rewrite H2. Qed.

Lemma tx_app (a b : string) : tx (a +:+ b) = tx a ++ tx b.
Proof. unfold tx. induction a as [|c a IH]; simpl; [done|]. by rewrite IH. Qed.

Definition colon : Ascii.ascii := Ascii.ascii_of_nat 58.

Lemma review_harmless target name : colon ∉ tx target → harmless_key (review_key target name).
Proof.
  intros Ht n Heq. apply (f_equal tx) in Heq. unfold review_key, generation_key in Heq. rewrite !tx_app in Heq.
  cut (colon ∈ tx target); [done|]. clear Ht.
  assert (∃ p, tx "deterministic_generation:" = p ++ [colon] ∧ Ascii.ascii_of_nat 45 ∉ p) as (p & Hp & Hd).
  { exists (tx "deterministic_generation"). split; [done|]. by apply (bool_decide_unpack _). }
  rewrite Hp, <- !app_assoc in Heq. clear Hp. generalize dependent p. induction (tx target) as [|c t IH]; intros [|d p] Heq Hd; simplify_eq/=.
  - by rewrite not_elem_of_cons in Hd; destruct Hd.
  - left.
  - right. apply (IH p); [done|]. by apply not_elem_of_cons in Hd as [_ Hd].
Qed.

(** No review loop goes back to a step with a colon in its name: its counter is no other one. *)
Definition plain_targets (workflow : Workflow) : Prop :=
  Forall (λ s, match on_reject s with Some r => colon ∉ tx (r_target r) | None => True end) (steps workflow).

(** What a predicate needs in order to survive everything but the deterministic steps, the commit
    of an output and what is recorded of a run. *)
Record tolerant (I : world → Prop) : Prop := {
  tol_frame w w' : I w → w_state w' = w_state w → w_runs w' = w_runs w → w_log w' = w_log w → w_info w' = w_info w →
    d_state (w_row w') = d_state (w_row w) → I w';
  tol_state w s : I w → mild (w_state w) s → I (set_w_state s w);
  tol_save w r : I w → d_state r = w_state w → I (set_w_row r w);
  tol_consumed w p a : I w → I (set_w_log (AConsumed p a :: w_log w) w);
  tol_overruled w n o : I w →
    I (set_w_state (set_step_outputs (od_set n o (step_outputs (w_state w))) (w_state w)) (set_w_log (AOverruled n o :: w_log w) w)) }.

Section Tolerant.
Context (I : world → Prop) (HI : tolerant I).
Context (env : outside) (workflow : Workflow) (attempt_number : Z) (override : option string).

Lemma keeps_await : keeps I (await_ env).
Proof. intros w Hw. unfold await_. destruct (x_raises env (w_moment w)); by apply (tol_frame _ HI w). Qed.

Lemma keeps_set_st f : (∀ s, mild s (f s)) → keeps I (set_st f).
Proof. intros Hf w Hw. by apply (tol_state _ HI). Qed.

Lemma keeps_set_tk f : keeps I (set_tk f).
Proof. intros w Hw. by apply (tol_frame _ HI w). Qed.

(** A transaction that leaves the saved state alone or saves the one in memory. *)
Lemma transaction_keeps f w :
  I w → (∀ r r', f r = Some r' → d_state r' = d_state r ∨ d_state r' = w_state w) → I (transaction env f w).2.
Proof.
  intros Hw Hf. unfold transaction, bind, get, modify, await_ at 1.
  destruct (x_raises env (w_moment w)); [by apply (tol_frame _ HI w)|]. simpl.
  set (w1 := set_w_moment (S (w_moment w)) w). set (r := observe env (w_moment w) (w_row w)).
  assert (d_state r = d_state (w_row w)) as Hr by (unfold r, observe; by destruct (x_status env (w_moment w))).
  assert (I (set_w_row r w1)) as Hw1 by by apply (tol_frame _ HI w).
  destruct (f r) as [r'|] eqn:Hfr; simpl; [|done].
  assert (I (set_w_row r' w1)) as Hw2.
  { destruct (Hf _ _ Hfr) as [Hd|Hd]; [apply (tol_frame _ HI w); try done; simpl; by rewrite Hd|].
    apply (tol_save _ HI); [by apply (tol_frame _ HI w)|done]. }
  unfold await_. simpl. destruct (x_raises env _); by apply (tol_frame _ HI (set_w_row r' w1)).
Qed.

Lemma row_update_status_state s es ea ep r : d_state (row_update_status s es ea ep r).1 = d_state r.
Proof. unfold row_update_status. by case_match. Qed.

Lemma row_update_state_saves s v r r' : row_update_state s v r = (r', true) → d_state r' = s.
Proof. unfold row_update_state. case_match; [|done]. by intros [= <-]. Qed.

Lemma row_defer_saves s r r' : row_defer s r = (r', true) → d_state r' = s.
Proof. unfold row_defer. case_match; [|done]. by intros [= <-]. Qed.

Lemma keeps_read_status : keeps I (_read_task_status env).
Proof.
  apply (keeps_then I); [apply keeps_await|]. intros k w Hw. unfold bind, get, modify, ret. simpl. apply (tol_frame _ HI w); try done. simpl.
  unfold observe. by destruct (x_status env k).
Qed.

Lemma keeps_persist sync : keeps I (_persist_workflow_state env attempt_number sync).
Proof.
  unfold _persist_workflow_state. apply keeps_then; [apply keeps_read_status|]. intros db. apply keeps_then; [apply keeps_get|]. intros t.
  apply keeps_then; [apply keeps_get|]. intros s0. case_match.
  { apply keeps_then; [apply keeps_set_tk|]. intros _. apply keeps_exception. }
  apply keeps_then; [apply keeps_set_st; by intros s|]. intros _. apply keeps_get_bind. intros w Hw.
  unfold bind. match goal with |- I (match transaction env ?f w with _ => _ end).2 => set (F := f) end.
  assert (I (transaction env F w).2) as Ht.
  { apply transaction_keeps; [done|]. intros r r' Hr. right. revert Hr. unfold F.
    destruct (if (_ : bool) then _ else _) as [r1 b]. destruct (row_update_state _ _ r1) as [r2 ok] eqn:E.
    destruct b; simpl; [|done]. destruct ok; [|done]. intros [= <-]. apply row_update_state_saves in E.
    case_match; [by rewrite row_update_status_state|done]. }
  destruct (transaction env F w) as [[[]|e] w']; done.
Qed.

(** A transaction that saves the state in memory. *)
Lemma keeps_save {A} (f : WorkflowState → task_row → option task_row) (k : WorkflowState → bool → M A) :
  (∀ s ok, keeps I (k s ok)) → (∀ s r r', f s r = Some r' → d_state r' = s) →
  keeps I (let! s := get w_state in let! ok := transaction env (f s) in k s ok)%engine.
Proof.
  intros Hk Hf. apply keeps_get_bind. intros w Hw. unfold bind.
  assert (I (transaction env (f (w_state w)) w).2) as Ht by (apply transaction_keeps; [done|]; intros r r' Hr; right; by eapply Hf).
  destruct (transaction env (f (w_state w)) w) as [[ok|e] w']; [by apply Hk|done].
Qed.
End Tolerant.

Create HintDb harmless.
#[export] Hint Resolve attempts_harmless recovery_harmless unavailable_harmless outcome_harmless condition_harmless jumps_harmless : harmless.

Lemma mild_step s s1 s2 : mild s s1 → step_outputs s2 = step_outputs s1 → loop_iterations s2 = loop_iterations s1 → mild s s2.
Proof. intros H1 H2 H3. etrans; [exact H1|by apply mild_same]. Qed.

Lemma mild_counter_step k n s s1 : harmless_key k → mild s s1 → mild s (set_counter k n s1).
Proof. intros Hk H. etrans; [exact H|by apply mild_counter]. Qed.

Lemma mild_pop_step k s s1 : harmless_key k → mild s s1 → mild s (pop_counter k s1).
Proof. intros Hk H. etrans; [exact H|by apply mild_pop]. Qed.

(** A change of the state, one setter after the other. *)
Ltac mild_tac :=
  intros; cbv zeta;
  repeat first
    [ reflexivity
    | match goal with
      | |- mild _ (match ?x with _ => _ end) => destruct x
      | |- mild _ (set_counter _ _ _) => apply mild_counter_step; [solve [auto with harmless]|]
      | |- mild _ (pop_counter _ _) => apply mild_pop_step; [solve [auto with harmless]|]
      | |- mild _ (go_to _ _ _) => unfold go_to
      | |- mild _ (consume _ _ _ _) => unfold consume; cbv zeta
      | |- mild _ (_ ?s1) => apply (mild_step _ s1); [|done|done]
      end ].

Create HintDb keeps.
#[export] Hint Resolve keeps_await keeps_set_tk keeps_read_status keeps_persist : keeps.

Ltac tol := first [assumption|solve [eauto with keeps]].

Ltac saves := intros; repeat case_match; simplify_eq/=; eauto using row_defer_saves, row_update_state_saves.

(** The structure of a method; what remains are the methods that it calls. *)
Ltac keep :=
  intros; cbv zeta;
  repeat match goal with
    | |- keeps ?I (bind (get w_state) (λ s, bind (transaction ?env (@?f s)) (@?k s))) =>
        apply (λ H, keeps_save I H env f k); [tol|intros; cbv zeta|solve [saves]]
    | |- keeps _ (bind _ _) => apply keeps_then; [|intros; cbv zeta]
    | |- keeps _ (ret _) => apply keeps_value
    | |- keeps _ (raise _) => apply keeps_exception
    | |- keeps _ (get _) => apply keeps_get
    | |- keeps _ (catch _ _) => apply keeps_catch; [|intros]
    | |- keeps _ (when_ _ _) => apply keeps_when
    | |- keeps _ (of_result _) => apply keeps_of_result
    | |- keeps _ (match ?x with _ => _ end) => destruct x
    | |- keeps _ _ => solve [eauto with keeps]
    | |- keeps _ (set_st _) => apply keeps_set_st; [tol|solve [mild_tac]]
    end.

Section Methods.
Context (I : world → Prop) (HI : tolerant I).
Context (env : outside) (workflow : Workflow) (attempt_number : Z) (override : option string).
Context (Hplain : plain_targets workflow).

Lemma keeps_consumed p a : keeps I (act_ (AConsumed p a)).
Proof. intros w Hw. by apply (tol_consumed _ HI). Qed.
#[local] Hint Resolve keeps_consumed : keeps.

Lemma keeps_wait g : keeps I (wait_for_decision env g).
Proof. unfold wait_for_decision. keep. Qed.
#[local] Hint Resolve keeps_wait : keeps.

Lemma keeps_pause_at_gate name g pid e reuse : keeps I (pause_at_gate env workflow attempt_number name g pid e reuse).
Proof. unfold pause_at_gate, now. keep. Qed.
#[local] Hint Resolve keeps_pause_at_gate : keeps.

Lemma keeps_resume_gate name g p : keeps I (resume_gate env workflow attempt_number name g p).
Proof. unfold resume_gate. keep. Qed.
#[local] Hint Resolve keeps_resume_gate : keeps.

Lemma keeps_gate name g : keeps I (_handle_gate_step env workflow attempt_number override name g).
Proof. unfold _handle_gate_step. keep. Qed.
#[local] Hint Resolve keeps_gate : keeps.

Lemma keeps_overrule n o :
  keeps I (do! act_ (AOverruled n o) in set_st (λ s, set_step_outputs (od_set n o (step_outputs s)) s))%engine.
Proof. intros w Hw. exact (tol_overruled _ HI w n o Hw). Qed.
#[local] Hint Resolve keeps_overrule : keeps.

Lemma keeps_skip_exhausted step : keeps I (skip_exhausted env attempt_number step).
Proof.
  unfold skip_exhausted. apply keeps_then; [keep|]. intros k. apply keeps_then.
  { destruct (x_rejected env k); [|apply keeps_value]. apply keeps_then; [keep|]. intros _. apply keeps_overrule. }
  keep.
Qed.
#[local] Hint Resolve keeps_skip_exhausted : keeps.

Lemma keeps_exhausted step a e : keeps I (_handle_exhausted env workflow attempt_number override step a e).
Proof. unfold _handle_exhausted. keep. Qed.
#[local] Hint Resolve keeps_exhausted : keeps.

Lemma keeps_review_loop step : step ∈ steps workflow → keeps I (_handle_review_loop env workflow attempt_number override step).
Proof.
  intros Hs. unfold _handle_review_loop. pose proof (proj1 (Forall_forall _ _) Hplain step Hs) as Hp. simpl in Hp.
  destruct (on_reject step) as [r|]; [|keep]. pose proof (review_harmless (r_target r) (s_name step) Hp) as Hk. keep.
Qed.

Lemma keeps_defer step o : keeps I (_defer_step_recovery env workflow attempt_number override step o).
Proof. unfold _defer_step_recovery, now. keep. Qed.

Lemma keeps_unavailable step t : keeps I (_handle_transient_executor_unavailable env step t).
Proof. unfold _handle_transient_executor_unavailable, now, forget_retry. keep. Qed.
#[local] Hint Resolve keeps_review_loop keeps_defer keeps_unavailable : keeps.

Lemma keeps_feedback e : keeps I (_record_evaluation_feedback env e).
Proof. unfold _record_evaluation_feedback. keep. Qed.
#[local] Hint Resolve keeps_feedback : keeps.

Lemma keeps_spend step e : keeps I (spend_attempt env workflow attempt_number override step e).
Proof. unfold spend_attempt. keep. Qed.
#[local] Hint Resolve keeps_spend : keeps.

Lemma keeps_retry step why : keeps I (_handle_step_retry env workflow attempt_number override step why).
Proof. unfold _handle_step_retry. keep. Qed.

Lemma keeps_outcome_loop step r f : keeps I (_handle_outcome_review_loop env workflow attempt_number override step r f).
Proof. unfold _handle_outcome_review_loop. keep. Qed.

Lemma keeps_revise step o t : keeps I (revise_for_outcome env workflow attempt_number step o t).
Proof. unfold revise_for_outcome. keep. Qed.
#[local] Hint Resolve keeps_retry keeps_outcome_loop keeps_revise : keeps.

Lemma keeps_outcome_gate step o : keeps I (outcome_gate env workflow attempt_number override step o).
Proof. unfold outcome_gate. keep. Qed.
#[local] Hint Resolve keeps_outcome_gate : keeps.

Lemma keeps_outcome step o : keeps I (_handle_step_outcome env workflow attempt_number override step o).
Proof. unfold _handle_step_outcome. keep. Qed.

Lemma keeps_error_pause step e : keeps I (_pause_for_deterministic_error env workflow attempt_number override step e).
Proof. unfold _pause_for_deterministic_error. keep. Qed.
#[local] Hint Resolve keeps_outcome keeps_error_pause : keeps.

Lemma keeps_stop s : keeps I (stop s).
Proof. unfold stop. keep. Qed.

Lemma keeps_pause_task : keeps I (pause_task env attempt_number).
Proof. unfold pause_task. keep. Qed.

Lemma keeps_resume_derived step : keeps I (_resume_derived_gate env workflow attempt_number override step).
Proof. unfold _resume_derived_gate. keep. Qed.
#[local] Hint Resolve keeps_stop keeps_pause_task : keeps.

Lemma keeps_run_gate step : keeps I (run_gate env workflow attempt_number override step).
Proof. unfold run_gate. keep. Qed.

Lemma keeps_skip_without_input step : keeps I (skip_without_input env attempt_number step).
Proof. unfold skip_without_input. keep. Qed.

Lemma keeps_run_failed step o : keeps I (run_failed env workflow attempt_number override step o).
Proof. unfold run_failed. keep. Qed.

Lemma keeps_asked q p : keeps I (_set_interactive_pause_state env q p).
Proof. unfold _set_interactive_pause_state. keep. Qed.

Lemma keeps_answered : keeps I (_clear_interactive_pause_state env).
Proof. unfold _clear_interactive_pause_state. keep. Qed.

#[local] Hint Resolve keeps_asked keeps_answered : keeps.

Lemma keeps_ask_all l : keeps I (ask_all env l).
Proof. induction l as [|[q p] l IH]; simpl; keep. Qed.

Lemma keeps_interrupted : keeps I (interrupted env attempt_number).
Proof. unfold interrupted. keep. Qed.

Lemma keeps_persist_final : keeps I (_persist_task_final env attempt_number).
Proof. unfold _persist_task_final. keep. Qed.
#[local] Hint Resolve keeps_persist_final : keeps.

Lemma keeps_finish : keeps I (finish env workflow attempt_number).
Proof. unfold finish. keep. Qed.
End Methods.

#[export] Hint Resolve keeps_gate keeps_exhausted keeps_review_loop keeps_unavailable keeps_retry keeps_outcome keeps_error_pause keeps_stop
  keeps_pause_task keeps_resume_derived keeps_run_gate keeps_skip_without_input keeps_run_failed keeps_ask_all
  keeps_interrupted keeps_persist_final keeps_finish : keeps.
