(* ===== verification/WorkflowDispatch.v ===== *)
(** Deterministic steps of a workflow across restarts: a tool with side effects is dispatched at
    most once in each generation of its step, whatever kills the engine and however often it is
    started again. *)

From S2P Require Import Prelude PyVal Gates Lease Tables Tasks Workflow WorkflowEngine WorkflowSample WorkflowRules.

(** ** Triples *)

(** From [P], [m] ends in a value and a world of [Q], or with an exception in a world of [E]. *)
Definition hoare {A} (P : world → Prop) (m : M A) (Q : A → world → Prop) (E : world → Prop) : Prop :=
  ∀ w, P w → match m w with (Ok a, w') => Q a w' | (Err _, w') => E w' end.

Lemma hoare_bind {A B} P (m : M A) (f : A → M B) Q R E :
  hoare P m Q E → (∀ a, hoare (Q a) (f a) R E) → hoare P (bind m f) R E.
Proof. intros Hm Hf w Hw. specialize (Hm w Hw). unfold bind. destruct (m w) as [[a|e] w']; [by apply Hf|done]. Qed.

Lemma hoare_keeps {A} I (m : M A) : keeps I m ↔ hoare I m (λ _, I) I.
Proof. split; intros H w Hw; specialize (H w Hw); by destruct (m w) as [[a|e] w']. Qed.

Lemma hoare_weaken {A} (P P' : world → Prop) (m : M A) (Q Q' : A → world → Prop) (E E' : world → Prop) :
  hoare P m Q E → (∀ w, P' w → P w) → (∀ a w, Q a w → Q' a w) → (∀ w, E w → E' w) → hoare P' m Q' E'.
Proof. intros H HP HQ HE w Hw. specialize (H w (HP w Hw)). destruct (m w) as [[a|e] w']; auto. Qed.

(** A part that preserves the stronger predicate, in front of one that needs it. *)
Lemma hoare_keep_bind {A B} (P E : world → Prop) (m : M A) (f : A → M B) R :
  keeps P m → (∀ w, P w → E w) → (∀ a, hoare P (f a) R E) → hoare P (bind m f) R E.
Proof.
  intros Hm HE Hf. apply (hoare_bind _ _ _ (λ _, P)); [|done]. apply (hoare_weaken P P m (λ _, P) (λ _, P) P E); auto. by apply hoare_keeps.
Qed.

Lemma keeps_get_known {A B} I (f : world → A) (k : A → M B) : (∀ w, I w → I (k (f w) w).2) → keeps I (bind (get f) k).
Proof. intros H w Hw. exact (H w Hw). Qed.

(** ** What is recorded of dispatches *)

Definition is_dispatch (n : string) (g : Z) (a : act) : bool :=
  match a with ADispatch n' g' false => bool_decide (n = n') && (g =? g') | _ => false end.

(** The dispatches of a tool with side effects, for a generation of a step. *)
Definition dispatched (n : string) (g : Z) (log : list act) : nat := length (filter (λ a, is_dispatch n g a) log).

(** A row from which a restarted engine never dispatches. *)
Definition closed (r : det_run) : Prop :=
  (dr_status r ∈ ["approved"; "skipped"; "failed"; "paused"] ∧ is_Some (dr_output r)) ∨
  (ri_substate (dr_info r) = "persisted" ∧ is_Some (dr_output r)) ∨
  (ri_substate (dr_info r) = "executing" ∧ ri_read_only (dr_info r) ≠ Some true).

(** The counters of conditions. *)
Definition route_key (k : string) : Prop := ∃ n t, k = condition_key n t.

Lemma route_key_harmless k : route_key k → harmless_key k.
Proof. intros (n & t & ->). apply condition_harmless. Qed.

Lemma condition_route_key n t : route_key (condition_key n t).
Proof. by eexists _, _. Qed.
#[export] Hint Resolve route_key_harmless condition_route_key : harmless.

Definition key_ok (i : run_info) : Prop := match ri_route_loop_key i with Some k => route_key k | None => True end.

Record rows_ok (w : world) : Prop := {
  ro_id i r : w_runs w !! i = Some r → dr_id r = i;
  ro_generation i r : w_runs w !! i = Some r → ri_generation (dr_info r) = Some (dr_attempt r - 1);
  ro_unique i j r r' : w_runs w !! i = Some r → w_runs w !! j = Some r' → dr_step r = dr_step r' → dr_attempt r = dr_attempt r' → i = j;
  ro_bound i r : w_runs w !! i = Some r →
    dr_attempt r - 1 ≤ generation (dr_step r) (w_state w) ∧ dr_attempt r - 1 ≤ generation (dr_step r) (d_state (w_row w));
  ro_key i r : w_runs w !! i = Some r → key_ok (dr_info r);
  ro_info : key_ok (w_info w);
  ro_once n g : (dispatched n g (w_log w) ≤ 1)%nat;
  ro_closed n g : dispatched n g (w_log w) = 1%nat →
    ∃ i r, w_runs w !! i = Some r ∧ dr_step r = n ∧ dr_attempt r = g + 1 ∧ closed r }.

(** The generations in memory are those that a restart would find. *)
Definition synced (w : world) : Prop := ∀ n, generation n (w_state w) = generation n (d_state (w_row w)).

Definition ready (w : world) : Prop := rows_ok w ∧ synced w.

(** Worlds that differ in what the invariant does not see. *)
Lemma rows_ok_frame w w' :
  rows_ok w → (∀ n, generation n (w_state w) ≤ generation n (w_state w')) →
  (∀ n, generation n (d_state (w_row w)) ≤ generation n (d_state (w_row w'))) →
  w_runs w' = w_runs w → (∀ n g, dispatched n g (w_log w') = dispatched n g (w_log w)) → key_ok (w_info w') → rows_ok w'.
Proof.
  intros [H1 H2 H3 H4 H5 H6 H7 H8] Hs Hd Hr Hl Hi. split; rewrite ?Hr; auto; intros *; rewrite ?Hl; auto.
  intros Hlk. destruct (H4 _ _ Hlk) as [Hb Hb']. specialize (Hs (dr_step r)). specialize (Hd (dr_step r)). lia.
Qed.

Lemma ready_tolerant : tolerant ready.
Proof.
  split.
  - intros w w' [Hr Hs] E1 E2 E3 E4 E5. split; [|intros n; by rewrite E1, E5].
    apply (rows_ok_frame w); [done|..]; rewrite ?E1, ?E2, ?E3, ?E4, ?E5; try done. apply (ro_info _ Hr).
  - intros w s [Hr Hs] [_ Hg]. split; [|intros n; simpl; by rewrite Hg].
    apply (rows_ok_frame w); try done; [intros n; simpl; by rewrite Hg|apply (ro_info _ Hr)].
  - intros w r [Hr Hs] Hd. split; [|intros n; simpl; by rewrite Hd].
    apply (rows_ok_frame w); try done; [intros n; simpl; by rewrite Hd, Hs|apply (ro_info _ Hr)].
  - intros w p a [Hr Hs]. split; [|done]. apply (rows_ok_frame w); try done. apply (ro_info _ Hr).
  - intros w n o [Hr Hs]. split; [|done]. apply (rows_ok_frame w); try done. apply (ro_info _ Hr).
Qed.
#[export] Hint Resolve ready_tolerant : keeps.

(** ** Rows *)

Lemma update_run_lookup id f rows i :
  update_run id f rows !! i = (λ r, if (dr_id r =? id)%nat then f r else r) <$> rows !! i.
Proof. unfold update_run. apply list_lookup_fmap. Qed.

(** Changes of one row that keep what identifies it. *)
Definition keeps_row (f : det_run → det_run) : Prop :=
  ∀ r, dr_id (f r) = dr_id r ∧ dr_step (f r) = dr_step r ∧ dr_attempt (f r) = dr_attempt r.

Lemma keeps_row_set_status s : keeps_row (set_dr_status s).
Proof. done. Qed.
Lemma with_status_cases s r : with_status s r = set_dr_status s r ∨ with_status s r = r.
Proof. unfold with_status. case_match; auto. Qed.
Lemma with_status_info s r : dr_info (with_status s r) = dr_info r.
Proof. by destruct (with_status_cases s r) as [-> | ->]. Qed.
Lemma keeps_row_status s : keeps_row (with_status s).
Proof. intros r. by destruct (with_status_cases s r) as [-> | ->]. Qed.
Lemma keeps_row_output o i : keeps_row (with_output o i).
Proof. done. Qed.
Lemma keeps_row_info i : keeps_row (with_info i).
Proof. done. Qed.

Lemma rows_ok_update w (f : det_run → det_run) :
  rows_ok w → keeps_row f →
  (∀ i r, w_runs w !! i = Some r → ri_generation (dr_info (f r)) = ri_generation (dr_info r) ∧ (key_ok (dr_info r) → key_ok (dr_info (f r)))) →
  (∀ i r n g, w_runs w !! i = Some r → dr_step r = n → dr_attempt r = g + 1 → dispatched n g (w_log w) = 1%nat → closed r → closed (f r)) →
  rows_ok (set_w_runs (f <$> w_runs w) w).
Proof.
  intros [H1 H2 H3 H4 H5 H6 H7 H8] Hf Hi Hc.
  assert (∀ i r', (f <$> w_runs w) !! i = Some r' → ∃ r, w_runs w !! i = Some r ∧ r' = f r) as Hlk.
  { intros i r'. rewrite list_lookup_fmap. destruct (w_runs w !! i) as [r|]; [|done]. intros [= <-]. eauto. }
  split; simpl; auto.
  - intros i r' (r & Hr & ->)%Hlk. by rewrite (proj1 (Hf r)), (H1 i r).
  - intros i r' (r & Hr & ->)%Hlk. destruct (Hf r) as (_ & _ & ->). by rewrite (proj1 (Hi i r Hr)), (H2 i r).
  - intros i j r1' r2' (r1 & Hr1 & ->)%Hlk (r2 & Hr2 & ->)%Hlk. destruct (Hf r1) as (_ & -> & ->), (Hf r2) as (_ & -> & ->). by apply H3.
  - intros i r' (r & Hr & ->)%Hlk. destruct (Hf r) as (_ & -> & ->). by apply (H4 i).
  - intros i r' (r & Hr & ->)%Hlk. apply (Hi i r Hr). by apply (H5 i).
  - intros n g Hd. destruct (H8 n g Hd) as (i & r & Hr & Hn & Hg & Hcl). exists i, (f r). destruct (Hf r) as (_ & Hn' & Hg').
    rewrite list_lookup_fmap, Hr, Hn', Hg'. split_and!; [done..|]. by eapply Hc.
Qed.

Lemma closed_set_status s r :
  closed r → s ∈ ["approved"; "skipped"; "failed"; "paused"] ∨ ri_substate (dr_info r) = "persisted" → closed (set_dr_status s r).
Proof.
  intros [[H1 H2]|[[H1 H2]|[H1 H2]]] [Hs|Hs]; unfold closed; simpl; [by left|by right; left|right; left|right; left|right; right|..]; try done.
  by rewrite Hs in H1.
Qed.

Lemma closed_status s r :
  closed r → s ∈ ["approved"; "skipped"; "failed"; "paused"] ∨ ri_substate (dr_info r) = "persisted" → closed (with_status s r).
Proof. intros Hr Hs. destruct (with_status_cases s r) as [-> | ->]; [by apply closed_set_status|done]. Qed.

(** The step at work: its row, its generation, and the information in memory. *)
Record working (rid : nat) (n : string) (g : Z) (w : world) : Prop := {
  wk_ready : ready w;
  wk_row : ∃ r, w_runs w !! rid = Some r ∧ dr_step r = n ∧ dr_attempt r = g + 1;
  wk_info : ri_generation (w_info w) = Some g;
  wk_now : generation n (w_state w) = g }.

(** Nothing was dispatched for it yet. *)
Definition undispatched (rid : nat) (n : string) (g : Z) (w : world) : Prop := working rid n g w ∧ dispatched n g (w_log w) = 0%nat.

(** Dispatching it now is safe for a restart. *)
Definition armed (rid : nat) (n : string) (g : Z) (read_only : bool) (w : world) : Prop :=
  undispatched rid n g w ∧ (read_only = false → ∃ r, w_runs w !! rid = Some r ∧ closed r).

Section Working.
Context (env : outside) (rid : nat) (n : string) (g : Z).

Lemma working_frame w w' :
  working rid n g w → w_state w' = w_state w → w_runs w' = w_runs w → w_log w' = w_log w → w_row w' = w_row w →
  ri_generation (w_info w') = Some g → key_ok (w_info w') → working rid n g w'.
Proof.
  intros [[Hr Hs] Hrow Hi Hn] E1 E2 E3 E4 E5 E6. split; [|by rewrite E2|done|by rewrite E1].
  split; [|intros m; by rewrite E1, E4]. apply (rows_ok_frame w); rewrite ?E1, ?E2, ?E3, ?E4; done.
Qed.

Lemma working_await : keeps (working rid n g) (await_ env).
Proof.
  intros w Hw. unfold await_. destruct (x_raises env (w_moment w)); apply (working_frame w); try done;
    try apply (wk_info _ _ _ _ Hw); apply (ro_info _ (proj1 (wk_ready _ _ _ _ Hw))).
Qed.

Lemma working_info f :
  (∀ i, ri_generation i = Some g → key_ok i → ri_generation (f i) = Some g ∧ key_ok (f i)) → keeps (working rid n g) (set_in f).
Proof.
  intros Hf w Hw. destruct (Hf (w_info w)) as [H1 H2]; [apply (wk_info _ _ _ _ Hw)|apply (ro_info _ (proj1 (wk_ready _ _ _ _ Hw)))|].
  by apply (working_frame w).
Qed.

(** Writing the row of the step. *)
Lemma working_update f w :
  working rid n g w → keeps_row f →
  (∀ r, ri_generation (dr_info r) = Some g → key_ok (dr_info r) → ri_generation (dr_info (f r)) = Some g ∧ key_ok (dr_info (f r))) →
  (∀ r, w_runs w !! rid = Some r → dispatched n g (w_log w) = 1%nat → closed r → closed (f r)) →
  working rid n g (set_w_runs (update_run rid f (w_runs w)) w).
Proof.
  intros [[Hr Hs] (r0 & Hr0 & Hn & Hg) Hi Hnow] Hf Hinfo Hc. set (F := λ r, if (dr_id r =? rid)%nat then f r else r).
  assert (∀ i r, w_runs w !! i = Some r → (dr_id r =? rid)%nat = true → r = r0) as Hid.
  { intros i r Hlk Heq%Nat.eqb_eq. rewrite <- (ro_id _ Hr _ _ Hlk), Heq in Hlk. congruence. }
  pose proof (ro_generation _ Hr _ _ Hr0) as Hgen. pose proof (ro_key _ Hr _ _ Hr0) as Hkey.
  assert (ri_generation (dr_info r0) = Some g) as Hg0 by (rewrite Hgen; f_equal; lia).
  split; [split|..]; simpl; [|done| |done|done].
  - change (rows_ok (set_w_runs (F <$> w_runs w) w)). apply rows_ok_update; [done|..].
    + intros r. unfold F. case_match; [by apply Hf|done].
    + intros i r Hlk. unfold F. case_match eqn:E; [|done]. rewrite (Hid i r Hlk E).
      destruct (Hinfo r0 Hg0 Hkey) as [Hf1 Hf2]. by rewrite Hf1, Hg0.
    + intros i r m k Hlk Hm Hk Hd Hcl. unfold F. case_match eqn:E; [|done]. pose proof (Hid i r Hlk E) as ->.
      assert (m = n) as -> by congruence. assert (k = g) as -> by lia. by apply Hc.
  - exists (f r0). rewrite update_run_lookup, Hr0. simpl. rewrite (ro_id _ Hr _ _ Hr0), Nat.eqb_refl.
    destruct (Hf r0) as (_ & -> & ->). done.
Qed.

Lemma working_runs_transaction (P : world → Prop) f :
  keeps P (await_ env) → (∀ w, P w → P (set_w_runs (f (w_runs w)) w)) → keeps P (runs_transaction env f).
Proof.
  intros Ha Hf. unfold runs_transaction. apply keeps_then; [done|]. intros _. apply keeps_then; [by apply keeps_modify|]. intros _.
  apply keeps_then; [done|]. intros _. apply keeps_value.
Qed.

Lemma working_output o i :
  ri_generation i = Some g → key_ok i → ri_substate i = "persisted" → keeps (working rid n g) (update_step_run env rid (with_output o i)).
Proof.
  intros H1 H2 H3. apply working_runs_transaction; [apply working_await|]. intros w Hw. apply working_update; [done..|].
  intros r _ _ _. right; left. split; [done|by eexists].
Qed.

Lemma working_status s :
  s ∈ ["approved"; "skipped"; "failed"; "paused"] → keeps (working rid n g) (update_step_run env rid (with_status s)).
Proof.
  intros Hs. apply working_runs_transaction; [apply working_await|]. intros w Hw.
  apply working_update; [done|apply keeps_row_status|intros r; by rewrite with_status_info|]. intros r _ _ Hc. apply closed_status; auto.
Qed.

(** A row whose output is recorded may be given any status. *)
Lemma working_recorded s :
  keeps (λ w, working rid n g w ∧ ∀ r, w_runs w !! rid = Some r → ri_substate (dr_info r) = "persisted") (update_step_run env rid (with_status s)).
Proof.
  apply working_runs_transaction.
  - intros w [Hw Hp]. pose proof (working_await w Hw) as H. unfold await_ in *. by destruct (x_raises env (w_moment w)).
  - intros w [Hw Hp]. split.
    + apply working_update; [done|apply keeps_row_status|intros r; by rewrite with_status_info|]. intros r Hr _ Hc. apply closed_status; auto.
    + simpl. intros r'. rewrite update_run_lookup. destruct (w_runs w !! rid) as [r|] eqn:E; [|done]. intros [= <-].
      case_match; rewrite ?with_status_info; by apply Hp.
Qed.

Lemma working_set_then {B} f (k : run_info → M B) :
  (∀ i, ri_generation i = Some g → key_ok i → ri_generation (f i) = Some g ∧ key_ok (f i)) →
  (∀ i, ri_generation (f i) = Some g → key_ok (f i) → keeps (working rid n g) (k (f i))) →
  keeps (working rid n g) (do! set_in f in let! i := get w_info in k i)%engine.
Proof.
  intros Hf Hk w Hw. pose proof (working_info f Hf w Hw) as Hw1.
  change (working rid n g (k (f (w_info w)) (set_w_info (f (w_info w)) w)).2).
  apply Hk; [apply (wk_info _ _ _ _ Hw1)|apply (ro_info _ (proj1 (wk_ready _ _ _ _ Hw1)))|done].
Qed.

Create HintDb working.
#[local] Hint Resolve working_await : working.

(** The structure of a part that works on the row. *)
Ltac work :=
  intros; cbv zeta;
  repeat match goal with
    | |- keeps _ (bind _ _) => apply keeps_then; [|intros; cbv zeta]
    | |- keeps _ (ret _) => apply keeps_value
    | |- keeps _ (raise _) => apply keeps_exception
    | |- keeps _ (get _) => apply keeps_get
    | |- keeps _ (of_result _) => apply keeps_of_result
    | |- keeps _ (when_ _ _) => apply keeps_when
    | |- keeps _ (match ?x with _ => _ end) => destruct x
    | |- keeps _ _ => solve [eauto with working]
    | |- keeps _ (set_in _) => apply working_info; solve [done|intros; split; [done|]; unfold key_ok; simpl; auto with harmless]
    end.

Lemma working_finalize o st next ws del ea :
  st ∈ ["approved"; "skipped"; "failed"; "paused"] → keeps (working rid n g) (_finalize_deterministic_step env rid o st next ws del ea).
Proof.
  intros Hst. unfold _finalize_deterministic_step. apply working_set_then; [done|]. intros i H1 H2.
  apply keeps_then; [by apply working_output|]. intros _. apply keeps_then; [by apply working_status|]. intros _. work.
Qed.

Lemma working_fail step e o a : keeps (working rid n g) (_fail_deterministic_step env step rid e o a).
Proof.
  unfold _fail_deterministic_step. cbv zeta. apply keeps_then; [by apply working_info|]. intros _. apply working_finalize.
  case_bool_decide; by apply (bool_decide_unpack _).
Qed.
#[local] Hint Resolve working_fail : working.

(** ** Before the dispatch *)

Lemma undispatched_of {A} (m : M A) :
  keeps (working rid n g) m → (∀ w, w_log (m w).2 = w_log w) → keeps (undispatched rid n g) m.
Proof. intros Hm Hl w [Hw Hd]. split; [by apply Hm|by rewrite Hl]. Qed.

Lemma undispatched_await : keeps (undispatched rid n g) (await_ env).
Proof. apply undispatched_of; [apply working_await|]. intros w. unfold await_. by destruct (x_raises env (w_moment w)). Qed.

Lemma undispatched_info f :
  (∀ i, ri_generation i = Some g → key_ok i → ri_generation (f i) = Some g ∧ key_ok (f i)) → keeps (undispatched rid n g) (set_in f).
Proof. intros Hf. apply undispatched_of; [by apply working_info|done]. Qed.

Lemma undispatched_checkpoint : keeps (undispatched rid n g) (_persist_deterministic_checkpoint env rid).
Proof.
  unfold _persist_deterministic_checkpoint. apply keeps_get_known. intros w0 Hw0.
  apply (working_runs_transaction (undispatched rid n g)); [apply undispatched_await| |done].
  intros w [Hw Hd]. split; [|done]. apply working_update; [done..| |].
  - intros r _ _. split; [apply (wk_info _ _ _ _ (proj1 Hw0))|apply (ro_info _ (proj1 (wk_ready _ _ _ _ (proj1 Hw0))))].
  - intros r _ Hd1. by rewrite Hd in Hd1.
Qed.

(** The row says that the tool is executing before it does. *)
Lemma checkpoint_arms ro :
  hoare (λ w, undispatched rid n g w ∧ ri_substate (w_info w) = "executing" ∧ ri_read_only (w_info w) = Some ro)
    (_persist_deterministic_checkpoint env rid) (λ _, armed rid n g ro) (undispatched rid n g).
Proof.
  intros w (Hw & Hs & Hro). pose proof (undispatched_checkpoint w Hw) as H. revert H.
  unfold _persist_deterministic_checkpoint, update_step_run, runs_transaction, bind, get, modify, await_. simpl.
  destruct (x_raises env (w_moment w)); simpl; [done|]. destruct (x_raises env (S (w_moment w))); simpl; [done|]. intros H.
  split; [done|]. intros ->. destruct Hw as [[[Hr _] (r & Hlk & _) _ _] _]. exists (with_info (w_info w) r). split.
  - simpl. rewrite update_run_lookup, Hlk. simpl. by rewrite (ro_id _ Hr _ _ Hlk), Nat.eqb_refl.
  - right; right. simpl. rewrite Hs, Hro. done.
Qed.

Lemma armed_await ro : keeps (armed rid n g ro) (await_ env).
Proof.
  intros w [Hw Hc]. split; [by apply undispatched_await|]. intros Hro. unfold await_. by destruct (x_raises env (w_moment w)); apply Hc.
Qed.

Lemma dispatched_cons m k a log : dispatched m k (a :: log) = ((if is_dispatch m k a then 1 else 0) + dispatched m k log)%nat.
Proof. unfold dispatched. rewrite filter_cons. destruct (is_dispatch m k a) eqn:E; by rewrite ?decide_True, ?decide_False by (rewrite E; auto). Qed.

(** The dispatch itself. *)
Lemma armed_dispatch ro : hoare (armed rid n g ro) (act_ (ADispatch n g ro)) (λ _, working rid n g) (working rid n g).
Proof.
  intros w [[[[Hr Hs] Hrow Hi Hn] Hd] Hc]. simpl. split; [|done..]. split; [|done]. destruct Hr as [H1 H2 H3 H4 H5 H6 H7 H8].
  assert (∀ m k, is_dispatch m k (ADispatch n g ro) = true → ro = false ∧ m = n ∧ k = g) as His.
  { intros m k. simpl. destruct ro; [done|]. intros H. bool_facts. by split_and!. }
  split; simpl; auto.
  - intros m k. rewrite dispatched_cons. destruct (is_dispatch m k _) eqn:E; [|apply H7].
    destruct (His _ _ E) as (_ & -> & ->). rewrite Hd. lia.
  - intros m k. rewrite dispatched_cons. destruct (is_dispatch m k _) eqn:E; [|apply H8]. intros _.
    destruct (His _ _ E) as (Hro & -> & ->). destruct (Hc Hro) as (r & Hlk & Hcl). destruct Hrow as (r' & Hlk' & Hn' & Hg').
    exists rid, r. assert (r = r') as -> by congruence. done.
Qed.

Context (workflow : Workflow).

#[local] Hint Resolve working_await working_fail : working.

Lemma undispatched_working w : undispatched rid n g w → working rid n g w.
Proof. by intros [Hw _]. Qed.

(** A call of the tool. *)
Lemma working_dispatch step config k :
  s_name step = n → hoare (undispatched rid n g) (dispatch_tool env workflow step config rid k) (λ _, working rid n g) (working rid n g).
Proof.
  intros Hstep. unfold dispatch_tool, call_tool.
  destruct (x_registered env k) as [ro|]; [|intros w Hw; by apply undispatched_working].
  apply (hoare_bind _ _ _ (λ _ w, undispatched rid n g w ∧ ri_substate (w_info w) = "executing" ∧ ri_read_only (w_info w) = Some ro)).
  { intros w Hw. split; [|done]. apply (undispatched_info (λ i, set_ri_read_only (Some ro) (set_ri_substate "executing" i))); done. }
  intros _. case_match; [intros w [Hw _]; by apply undispatched_working|].
  apply (hoare_bind _ _ _ (λ _, armed rid n g ro)).
  { apply (hoare_weaken _ _ _ _ _ _ _ (checkpoint_arms ro)); auto. apply undispatched_working. }
  intros _. apply hoare_keep_bind; [apply armed_await|by intros w [[Hw _] _]|]. intros _.
  apply (hoare_bind _ _ _ (λ s w, armed rid n g ro w ∧ s = w_state w)); [by intros w Hw|]. intros s.
  apply (hoare_bind _ _ _ (λ _, working rid n g)).
  { intros w [Hw ->]. rewrite Hstep, (wk_now _ _ _ _ (proj1 (proj1 Hw))). by apply armed_dispatch in Hw. }
  intros _. apply hoare_keeps. work. apply working_finalize. by apply (bool_decide_unpack _).
Qed.

Lemma hoare_catch {A} P (m : M A) h Q E E' : hoare P m Q E' → (∀ e, hoare E' (h e) Q E) → hoare P (catch m h) Q E.
Proof. intros Hm Hh w Hw. specialize (Hm w Hw). unfold catch. destruct (m w) as [[a|e] w']; [done|by apply Hh]. Qed.

Lemma working_tool_call step config :
  s_name step = n → hoare (undispatched rid n g) (_execute_tool_call_step env workflow step config rid) (λ _, working rid n g) (working rid n g).
Proof.
  intros Hstep. unfold _execute_tool_call_step. apply hoare_keep_bind; [apply keeps_get|apply undispatched_working|]. intros s.
  apply hoare_keep_bind; [apply keeps_of_result|apply undispatched_working|]. intros _.
  apply hoare_keep_bind; [apply undispatched_checkpoint|apply undispatched_working|]. intros _.
  apply hoare_keep_bind; [apply undispatched_await|apply undispatched_working|]. intros k.
  apply (hoare_catch _ _ _ _ _ (working rid n g)); [by apply working_dispatch|].
  intros e. apply hoare_keeps. destruct e; work.
Qed.

Lemma working_normalize config t : keeps (working rid n g) (normalize_deterministic_output env config t).
Proof. unfold normalize_deterministic_output. work. Qed.
#[local] Hint Resolve working_normalize : working.

Lemma working_condition step c : keeps (working rid n g) (_execute_condition_step env workflow step c rid).
Proof.
  unfold _execute_condition_step, condition_budget, condition_revision. work; apply working_finalize; by apply (bool_decide_unpack _).
Qed.

Lemma working_complete step c : keeps (working rid n g) (_execute_complete_step env step c rid).
Proof. unfold _execute_complete_step. work. apply working_finalize. by apply (bool_decide_unpack _). Qed.
#[local] Hint Resolve working_condition working_complete : working.

Lemma working_on_copy {A} i (m : M A) :
  ri_generation i = Some g → key_ok i → keeps (working rid n g) m → keeps (working rid n g) (on_copy i m).
Proof.
  intros Hi Hk Hm w Hw. unfold on_copy.
  assert (working rid n g (set_w_info i w)) as Hw1 by by apply (working_frame w).
  specialize (Hm _ Hw1). destruct (m (set_w_info i w)) as [r w'] eqn:E. simpl in *. apply (working_frame w'); try done.
  - apply (wk_info _ _ _ _ Hw).
  - apply (ro_info _ (proj1 (wk_ready _ _ _ _ Hw))).
Qed.

(** What is known of the row of the step. *)
Lemma working_known w l :
  working rid n g w → w_runs w !! rid = Some l → dr_id l = rid ∧ ri_generation (dr_info l) = Some g ∧ key_ok (dr_info l).
Proof.
  intros [[Hr _] (r & Hlk & Hn & Hg) _ _] Hl. assert (r = l) as -> by congruence.
  split_and!; [by eapply ro_id| |by eapply ro_key]. rewrite (ro_generation _ Hr _ _ Hlk). f_equal. lia.
Qed.

Lemma open_undispatched w l : working rid n g w → w_runs w !! rid = Some l → ¬ closed l → dispatched n g (w_log w) = 0%nat.
Proof.
  intros [[Hr _] (r & Hlk & Hn & Hg) _ _] Hl Hc. pose proof (ro_once _ Hr n g).
  destruct (decide (dispatched n g (w_log w) = 1%nat)) as [Hd|]; [|lia]. destruct (ro_closed _ Hr n g Hd) as (i & r' & Hi & Hn' & Hg' & Hcl).
  assert (i = rid) as -> by (eapply (ro_unique _ Hr); [exact Hi|exact Hlk|congruence|lia]). congruence.
Qed.

Lemma working_some {A} (m : M A) w :
  working rid n g w → keeps (working rid n g) m →
  match (let! r := m in ret (Some r))%engine w with
  | (Ok r, w') => working rid n g w' ∧ (r = None → dispatched n g (w_log w') = 0%nat)
  | (Err _, w') => working rid n g w'
  end.
Proof. intros Hw Hm. specialize (Hm w Hw). unfold bind, ret. by destruct (m w) as [[r|e] w']. Qed.

(** A row that is not recovered was not dispatched. *)
Lemma working_recover step l :
  hoare (λ w, working rid n g w ∧ w_runs w !! rid = Some l) (_recover_deterministic_step env workflow step l)
    (λ r w, working rid n g w ∧ (r = None → dispatched n g (w_log w) = 0%nat)) (working rid n g).
Proof.
  intros w [Hw Hl]. destruct (working_known w l Hw Hl) as (Hid & Hgen & Hkey). pose proof (open_undispatched w l Hw Hl) as Hopen.
  unfold closed in Hopen. unfold _recover_deterministic_step. rewrite Hid.
  destruct (bool_decide (dr_status l ∈ _)) eqn:Es; bool_facts; destruct (dr_output l) as [o|] eqn:Eo; [by split|..];
    destruct (bool_decide (ri_substate (dr_info l) = "persisted")) eqn:Ep; bool_facts.
  3: { pose proof (working_recorded (match ri_terminal_status (dr_info l) with Some s => or_str s "approved" | None => "approved" end) w) as H.
       unfold bind. destruct (update_step_run _ _ _ w) as [[a|e] w']; simpl in H |- *; [split; [|done]|]; apply H; split; try done; intros; congruence. }
  all: destruct (bool_decide (ri_substate (dr_info l) = "executing") && negb (bool_decide (ri_read_only (dr_info l) = Some true))) eqn:Ee;
    [apply working_some; [done|]; apply working_on_copy; [done..|work]|];
    split; [done|]; intros _; apply Hopen; intros [[? Ho]|[[? Ho]|[He Hro]]];
    [by (destruct Ho || congruence)|by (destruct Ho || congruence)|];
    rewrite He, bool_decide_true in Ee by done; simpl in Ee; by apply negb_false_iff, bool_decide_eq_true_1 in Ee.
Qed.

Lemma working_render step : s_name step = n → hoare (undispatched rid n g) (render_step env workflow step rid) (λ _, working rid n g) (working rid n g).
Proof.
  intros Hstep. unfold render_step. apply hoare_keep_bind; [apply keeps_get|apply undispatched_working|]. intros s.
  apply hoare_keep_bind.
  { destruct (s_when step); [|apply keeps_value]. apply keeps_then; [apply keeps_of_result|]. intros b.
    apply keeps_then; [apply undispatched_checkpoint|]. intros _. apply keeps_value. }
  { apply undispatched_working. }
  intros runs. assert (∀ m : M det_result, keeps (working rid n g) m → hoare (undispatched rid n g) m (λ _, working rid n g) (working rid n g)) as Hk.
  { intros m Hm w Hw. specialize (Hm w (undispatched_working w Hw)). by destruct (m w) as [[a|e] w']. }
  destruct (negb runs); [apply Hk; work; apply working_finalize; by apply (bool_decide_unpack _)|].
  destruct (s_type step); [apply Hk; work|apply Hk; work| |apply Hk; work|apply Hk; work].
  assert (∀ o : option ToolCallStepConfig, hoare (undispatched rid n g)
            (match o with Some c => _execute_tool_call_step env workflow step c rid | None => raise (ERaised "") end)
            (λ _, working rid n g) (working rid n g)) as Ht.
  { intros [c|]; [by apply working_tool_call|apply Hk, keeps_exception]. }
  specialize (Ht (tool_call step)). by destruct (condition step), (complete step).
Qed.
End Working.

(** ** A deterministic step *)

Lemma latest_run_spec name rows :
  match latest_run name rows with
  | Some r => r ∈ rows ∧ dr_step r = name ∧ ∀ r', r' ∈ rows → dr_step r' = name → dr_attempt r' ≤ dr_attempt r
  | None => ∀ r', r' ∈ rows → dr_step r' ≠ name
  end.
Proof.
  unfold latest_run. set (F := λ (best : option det_run) r, match best with Some b => if dr_attempt b <=? dr_attempt r then Some r else Some b | None => Some r end).
  assert (∀ l b, ∃ r, foldl F (Some b) l = Some r ∧ (r = b ∨ r ∈ l) ∧ dr_attempt b ≤ dr_attempt r ∧ ∀ r', r' ∈ l → dr_attempt r' ≤ dr_attempt r) as H.
  { intros l. induction l as [|x l IH]; intros b; simpl; [exists b; split_and!; [done|by left|done|by intros r' ?%elem_of_nil]|].
    destruct (dr_attempt b <=? dr_attempt x) eqn:E; bool_facts; [destruct (IH x) as (r & Hr & Hin & Hb & Hmax)|destruct (IH b) as (r & Hr & Hin & Hb & Hmax)];
      exists r; (split_and!; [done| |lia|intros r' [-> | Hr']%elem_of_cons; [lia|auto]]).
    - right. destruct Hin as [-> | Hin]; [left|by right].
    - destruct Hin as [-> | Hin]; [by left|right; by right]. }
  destruct (filter (λ r, dr_step r = name) rows) as [|b l] eqn:E; simpl.
  - intros r' Hr' Hn. assert (r' ∈ filter (λ r, dr_step r = name) rows) as Hin by by apply list_elem_of_filter.
    rewrite E in Hin. by apply elem_of_nil in Hin.
  - destruct (H l b) as (r & -> & Hin & Hb & Hmax). assert (r ∈ filter (λ r, dr_step r = name) rows) as Hr.
    { rewrite E. destruct Hin as [-> | Hin]; [left|by right]. }
    apply list_elem_of_filter in Hr as [Hn Hr]. split_and!; [done..|]. intros r' Hr' Hn'.
    assert (r' ∈ b :: l) as [-> | Hin']%elem_of_cons by (rewrite <- E; by apply list_elem_of_filter); [done|by apply Hmax].
Qed.

(** The row that a step works on. *)
Definition claimed (n : string) (x : nat * option det_run) (w : world) : Prop :=
  match x.2 with
  | None => undispatched x.1 n (generation n (w_state w)) w
  | Some l => working x.1 n (generation n (w_state w)) w ∧ w_runs w !! x.1 = Some l
  end.

Lemma ready_new_row n w :
  ready w → (∀ i r, w_runs w !! i = Some r → dr_step r = n → dr_attempt r ≠ generation n (w_state w) + 1) →
  let row := {| dr_id := length (w_runs w); dr_step := n; dr_attempt := generation n (w_state w) + 1; dr_status := "running";
                dr_output := None; dr_info := fresh_info (generation n (w_state w)) |} in
  rows_ok (set_w_runs (w_runs w ++ [row]) w) ∧ dispatched n (generation n (w_state w)) (w_log w) = 0%nat.
Proof.
  intros [[H1 H2 H3 H4 H5 H6 H7 H8] Hs] Hnew row.
  assert (∀ i r, (w_runs w ++ [row]) !! i = Some r → w_runs w !! i = Some r ∨ (i = length (w_runs w) ∧ r = row)) as Hlk.
  { intros i r. rewrite lookup_app. destruct (w_runs w !! i) eqn:E; [by left|]. intros H. right. apply lookup_ge_None in E.
    destruct (i - length (w_runs w))%nat eqn:Ei; simplify_eq/=. split; [lia|done]. }
  split.
  - split; simpl; auto.
    + intros i r [Hr|[-> ->]]%Hlk; [by apply H1|done].
    + intros i r [Hr|[-> ->]]%Hlk; [by eapply H2|]. simpl. f_equal. lia.
    + intros i j r r' [Hr|[-> ->]]%Hlk [Hr'|[-> ->]]%Hlk Hn Hg; [by eapply H3|..|done]; simpl in *; exfalso; by eapply Hnew.
    + intros i r [Hr|[-> ->]]%Hlk; [by eapply H4|]. simpl. rewrite <- (Hs n). lia.
    + intros i r [Hr|[-> ->]]%Hlk; [by eapply H5|done].
    + intros m k Hd. destruct (H8 m k Hd) as (i & r & Hr & Hrest). exists i, r. split; [|done]. by apply lookup_app_l_Some.
  - specialize (H7 n (generation n (w_state w))). destruct (decide (dispatched n (generation n (w_state w)) (w_log w) = 1%nat)) as [Hd|]; [|lia].
    destruct (H8 _ _ Hd) as (i & r & Hr & Hn & Hg & _). exfalso. by eapply Hnew.
Qed.

Section Step.
Context (env : outside) (workflow : Workflow).

Lemma no_row_of_generation n w :
  ready w → filter (λ r, ri_generation (dr_info r) = Some (generation n (w_state w))) (option_list (latest_run n (w_runs w))) = [] →
  ∀ i r, w_runs w !! i = Some r → dr_step r = n → dr_attempt r ≠ generation n (w_state w) + 1.
Proof.
  intros [Hw _] Ef i r Hr Hn Hg. pose proof (latest_run_spec n (w_runs w)) as Hl. apply list_elem_of_lookup_2 in Hr as Hin.
  destruct (latest_run n (w_runs w)) as [l|]; [|by apply (Hl r)]. destruct Hl as (Hl & Hln & Hmax).
  apply list_elem_of_lookup in Hl as [j Hj]. pose proof (Hmax r Hin Hn). pose proof (ro_generation _ Hw _ _ Hj) as Hlg.
  pose proof (proj1 (ro_bound _ Hw _ _ Hj)) as Hb. rewrite Hln in Hb. simpl in Ef. rewrite filter_cons in Ef.
  case_decide as Hne; [done|]. apply Hne. rewrite Hlg. f_equal. lia.
Qed.

Lemma claim_row step : hoare ready (claim_run env step) (claimed (s_name step)) ready.
Proof.
  intros w0 Hw0. pose proof (keeps_await ready ready_tolerant env w0 Hw0) as Hw. unfold claim_run. unfold bind at 1.
  destruct (await_ env w0) as [[k|e] w]; [|done]. simpl in Hw. clear w0 Hw0. unfold bind, get. simpl.
  set (n := s_name step). set (g := generation n (w_state w)). pose proof (latest_run_spec n (w_runs w)) as Hl.
  destruct (filter (λ r, ri_generation (dr_info r) = Some g) (option_list (latest_run n (w_runs w)))) as [|l rest] eqn:Ef.
  - destruct (ready_new_row n w Hw (no_row_of_generation n w Hw Ef)) as [Hrows Hd].
    unfold modify, await_. simpl. set (w1 := set_w_runs _ w) in *.
    assert (ready w1) as Hw1 by (split; [done|apply (proj2 Hw)]).
    destruct (x_raises env (w_moment w)); simpl; [by apply (tol_frame _ ready_tolerant w1)|].
    split; [|done]. split; [|..]; [|by eexists; split; [by apply list_lookup_middle|]|done|done].
    split; [|apply (proj2 Hw)]. by apply (rows_ok_frame w1).
  - assert (l ∈ filter (λ r, ri_generation (dr_info r) = Some g) (option_list (latest_run n (w_runs w)))) as Hin by (rewrite Ef; left).
    apply list_elem_of_filter in Hin as [Hg Hin]. destruct (latest_run n (w_runs w)) as [l'|]; [|by apply elem_of_nil in Hin].
    apply list_elem_of_singleton in Hin as ->. destruct Hl as (Hl & Hln & _). apply list_elem_of_lookup in Hl as [i Hi].
    destruct Hw as [Hw Hs]. pose proof (ro_id _ Hw _ _ Hi) as Hid. pose proof (ro_generation _ Hw _ _ Hi) as Hgen. rewrite Hg in Hgen.
    injection Hgen as Hgen. unfold modify, ret. simpl. split; simpl; [|by rewrite Hid].
    split; simpl; [split; [|done]|exists l'; rewrite Hid; split_and!; [done..|]; fold g; lia|done|done].
    apply (rows_ok_frame w); try done. by apply (ro_key _ Hw _ _ Hi).
Qed.

Lemma working_passes rid n g step e :
  keeps (working rid n g) (if passes_through e then raise e else _fail_deterministic_step env step rid (exn_text e) None None).
Proof. destruct (passes_through e); [apply keeps_exception|apply working_fail]. Qed.

Lemma ready_deterministic step : keeps ready (_execute_deterministic_step env workflow step).
Proof.
  apply hoare_keeps. unfold _execute_deterministic_step. apply (hoare_bind _ _ _ (claimed (s_name step))); [apply claim_row|].
  intros [rid latest] w Hw. set (g := generation (s_name step) (w_state w)). set (n := s_name step) in *.
  assert (working rid n g w) as Hwork by (destruct latest; [apply Hw|apply (proj1 Hw)]).
  assert (hoare (λ w', w' = w) (catch
    (let! recovered := match latest with Some latest => _recover_deterministic_step env workflow step latest | None => ret None end in
     match recovered with Some r => ret r | None => do! await_ env in render_step env workflow step rid end)
    (λ e, if passes_through e then raise e else _fail_deterministic_step env step rid (exn_text e) None None))%engine
    (λ _, working rid n g) (working rid n g)) as H.
  { apply (hoare_catch _ _ _ _ _ (working rid n g)); [|intros e; apply hoare_keeps, working_passes].
    apply (hoare_bind _ _ _ (λ r w, working rid n g w ∧ (r = None → dispatched n g (w_log w) = 0%nat))).
    - destruct latest as [l|]; intros w' ->; [by apply working_recover|]. split; [apply (proj1 Hw)|]. intros _. apply (proj2 Hw).
    - intros [r|]; [by intros w' [Hw' _]|]. apply (hoare_weaken (undispatched rid n g) _ _ (λ _, working rid n g) _ (working rid n g) _); auto.
      + apply hoare_keep_bind; [apply undispatched_await|apply undispatched_working|]. intros _. by apply working_render.
      + intros w' [Hw' Hd]. split; auto. }
  specialize (H w eq_refl). simpl. destruct (catch _ _ w) as [[r|e] w']; apply (wk_ready _ _ _ _ H).
Qed.
End Step.

(** ** The counter that a result names *)

Definition keyed (w : world) : Prop := key_ok (w_info w) ∧ ∀ r, r ∈ w_runs w → key_ok (dr_info r).

Definition result_ok (r : det_result) : Prop := match ds_route_loop_key r with Some k => route_key k | None => True end.

Definition yields (m : M det_result) : Prop := hoare keyed m (λ r w, keyed w ∧ result_ok r) keyed.

Section Keyed.
Context (env : outside) (workflow : Workflow).

Lemma keyed_frame w w' : keyed w → w_runs w' = w_runs w → w_info w' = w_info w → keyed w'.
Proof. intros [H1 H2] E1 E2. unfold keyed. by rewrite E1, E2. Qed.

Lemma keyed_await : keeps keyed (await_ env).
Proof. intros w Hw. unfold await_. by destruct (x_raises env (w_moment w)). Qed.

Lemma keyed_info f : (∀ i, key_ok i → key_ok (f i)) → keeps keyed (set_in f).
Proof. intros Hf w [H1 H2]. split; [by apply Hf|done]. Qed.

Lemma keyed_act a : keeps keyed (act_ a).
Proof. by intros w [H1 H2]. Qed.

Lemma keyed_step_run rid f : (∀ r, key_ok (dr_info r) → key_ok (dr_info (f r))) → keeps keyed (update_step_run env rid f).
Proof.
  intros Hf. apply (working_runs_transaction env keyed); [apply keyed_await|]. intros w [H1 H2]. split; [done|]. simpl.
  intros r (r' & -> & Hr')%list_elem_of_fmap. case_match; auto.
Qed.

Lemma yields_bind {A} (m : M A) f : keeps keyed m → (∀ a, yields (f a)) → yields (bind m f).
Proof. intros Hm Hf. by apply (hoare_keep_bind keyed). Qed.

Lemma yields_raise e : yields (raise e).
Proof. by intros w Hw. Qed.

Lemma yields_catch m h : yields m → (∀ e, yields (h e)) → yields (catch m h).
Proof. intros Hm Hh. by apply (hoare_catch keyed m h _ _ keyed). Qed.

Ltac key :=
  intros; cbv zeta;
  repeat match goal with
    | |- yields (bind _ _) => apply yields_bind; [|intros; cbv zeta]
    | |- yields (raise _) => apply yields_raise
    | |- yields (catch _ _) => apply yields_catch; [|intros]
    | |- yields (match ?x with _ => _ end) => destruct x
    | |- yields _ => solve [eauto with keyed]
    | |- keeps _ (bind _ _) => apply keeps_then; [|intros; cbv zeta]
    | |- keeps _ (ret _) => apply keeps_value
    | |- keeps _ (raise _) => apply keeps_exception
    | |- keeps _ (get _) => apply keeps_get
    | |- keeps _ (of_result _) => apply keeps_of_result
    | |- keeps _ (when_ _ _) => apply keeps_when
    | |- keeps _ (act_ _) => apply keyed_act
    | |- keeps _ (match ?x with _ => _ end) => destruct x
    | |- keeps _ _ => solve [eauto with keyed]
    | |- keeps _ (set_in _) => apply keyed_info; solve [done|intros; unfold key_ok; simpl; auto with harmless]
    end.

Create HintDb keyed.
#[local] Hint Resolve keyed_await : keyed.

Lemma yields_finalize rid o st next ws del ea : yields (_finalize_deterministic_step env rid o st next ws del ea).
Proof.
  unfold _finalize_deterministic_step. apply yields_bind; [key|]. intros _ w Hw. pose proof (proj1 Hw) as Hk. revert w Hw Hk.
  assert (∀ i, key_ok i → hoare keyed (do! update_step_run env rid (with_output o i) in
             do! update_step_run env rid (with_status st) in do! await_ env in
             ret {| ds_output := o; ds_status := st; ds_next_step_index := ri_next_step_index i; ds_workflow_status := ws;
                    ds_delivery_mode_override := del; ds_error_action := ea; ds_route_loop_key := ri_route_loop_key i;
                    ds_route_loop_iterations := ri_route_loop_iterations i; ds_revision_context := ri_revision_context i |})%engine
             (λ r w, keyed w ∧ result_ok r) keyed) as H.
  { intros i Hi. apply yields_bind; [by apply keyed_step_run|]. intros _.
    apply yields_bind; [apply keyed_step_run; intros r; by rewrite with_status_info|]. intros _. apply yields_bind; [key|]. by intros _ w Hw. }
  intros w Hw Hk. exact (H (w_info w) Hk w Hw).
Qed.
#[local] Hint Resolve yields_finalize : keyed.

Lemma yields_fail step rid e o a : yields (_fail_deterministic_step env step rid e o a).
Proof. unfold _fail_deterministic_step. key. Qed.
#[local] Hint Resolve yields_fail : keyed.

Lemma keyed_checkpoint rid : keeps keyed (_persist_deterministic_checkpoint env rid).
Proof.
  unfold _persist_deterministic_checkpoint. apply keeps_get_known. intros w Hw. by apply (keyed_step_run rid (with_info (w_info w)) (λ r _, proj1 Hw)).
Qed.

Lemma keyed_normalize config t : keeps keyed (normalize_deterministic_output env config t).
Proof. unfold normalize_deterministic_output. key. Qed.
#[local] Hint Resolve keyed_checkpoint keyed_normalize : keyed.

Lemma yields_condition step c rid : yields (_execute_condition_step env workflow step c rid).
Proof. unfold _execute_condition_step, condition_budget, condition_revision. key. Qed.

Lemma yields_complete step c rid : yields (_execute_complete_step env step c rid).
Proof. unfold _execute_complete_step. key. Qed.

Lemma yields_tool_call step c rid : yields (_execute_tool_call_step env workflow step c rid).
Proof. unfold _execute_tool_call_step, dispatch_tool, call_tool. key. Qed.
#[local] Hint Resolve yields_condition yields_complete yields_tool_call : keyed.

Lemma yields_render step rid : yields (render_step env workflow step rid).
Proof. unfold render_step. key. Qed.
#[local] Hint Resolve yields_render : keyed.

Lemma yields_some m : yields m → hoare keyed (let! r := m in ret (Some r))%engine (λ r w, keyed w ∧ match r with Some r => result_ok r | None => True end) keyed.
Proof. intros Hm w Hw. specialize (Hm w Hw). unfold bind. by destruct (m w) as [[r|e] w']. Qed.

Lemma keyed_recover step l :
  key_ok (dr_info l) →
  hoare keyed (_recover_deterministic_step env workflow step l) (λ r w, keyed w ∧ match r with Some r => result_ok r | None => True end) keyed.
Proof.
  intros Hl. assert (∀ s o, result_ok (_deterministic_result_from_persisted workflow s o (dr_info l))) as Hok by done.
  assert (∀ (b : bool) e, hoare keyed (if b then let! r := on_copy (dr_info l) (_fail_deterministic_step env step (dr_id l) e None None) in ret (Some r)
            else ret None)%engine (λ r w, keyed w ∧ match r with Some r => result_ok r | None => True end) keyed) as Hf.
  { intros [] e; [|by intros w Hw]. apply yields_some. intros w Hw. unfold on_copy.
    pose proof (yields_fail step (dr_id l) e None None (set_w_info (dr_info l) w) (conj Hl (proj2 Hw))) as H.
    destruct (_fail_deterministic_step _ _ _ _ _ _ _) as [[r|x] w']; simpl in *; [destruct H as [[_ H] H2]|destruct H as [_ H]];
      (split; [split|]) || split; try done; apply (proj1 Hw). }
  unfold _recover_deterministic_step. destruct (bool_decide _), (dr_output l); try (by intros w Hw);
    destruct (bool_decide (ri_substate _ = "persisted")); try apply Hf.
  apply hoare_keep_bind; [apply keyed_step_run; intros r; by rewrite with_status_info|done|]. by intros _ w Hw.
Qed.

Lemma keyed_claim step : hoare keyed (claim_run env step) (λ x w, keyed w ∧ match x.2 with Some l => key_ok (dr_info l) | None => True end) keyed.
Proof.
  unfold claim_run. apply hoare_keep_bind; [key|done|]. intros _. apply hoare_keep_bind; [key|done|]. intros s w Hw.
  unfold bind at 1, get. simpl. destruct (filter _ (option_list _)) as [|l rest] eqn:E.
  - revert w Hw E. intros w Hw _. unfold bind, modify, await_. simpl. set (w1 := set_w_runs _ w).
    assert (keyed w1) as Hw1.
    { split; [apply (proj1 Hw)|]. simpl. intros r [Hr| ->%list_elem_of_singleton]%elem_of_app; [by apply (proj2 Hw)|done]. }
    destruct (x_raises env (w_moment w)); simpl; [done|]. split; [|done]. split; [done|apply (proj2 Hw1)].
  - assert (l ∈ w_runs w) as Hl.
    { assert (l ∈ filter (λ r, ri_generation (dr_info r) = Some (generation (s_name step) s)) (option_list (latest_run (s_name step) (w_runs w)))) as H
        by (rewrite E; left). apply list_elem_of_filter in H as [_ H]. pose proof (latest_run_spec (s_name step) (w_runs w)) as Hs.
      destruct (latest_run _ _) as [l'|]; [|by apply elem_of_nil in H]. apply list_elem_of_singleton in H as ->. apply Hs. }
    unfold bind, modify, ret. simpl. pose proof (proj2 Hw l Hl). split; [split; [done|apply (proj2 Hw)]|done].
Qed.

Lemma yields_deterministic step : yields (_execute_deterministic_step env workflow step).
Proof.
  unfold _execute_deterministic_step, yields. eapply hoare_bind; [apply keyed_claim|]. intros [rid latest] w [Hw Hl]. simpl in Hl.
  revert w Hw. change (yields (catch
    (let! recovered := match latest with Some latest => _recover_deterministic_step env workflow step latest | None => ret None end in
     match recovered with Some r => ret r | None => do! await_ env in render_step env workflow step rid end)
    (λ e, if passes_through e then raise e else _fail_deterministic_step env step rid (exn_text e) None None)))%engine.
  apply yields_catch; [|key].
  apply (hoare_bind _ _ _ (λ r w, keyed w ∧ match r with Some r => result_ok r | None => True end)).
  { destruct latest as [l|]; [by apply keyed_recover|by intros w Hw]. }
  intros [r|]; [by intros w Hw|]. intros w [Hw _]. revert w Hw. change (yields (do! await_ env in render_step env workflow step rid)%engine). key.
Qed.
End Keyed.

(** ** The engine *)

Lemma rows_ok_tolerant : tolerant rows_ok.
Proof.
  split.
  - intros w w' Hr E1 E2 E3 E4 E5. apply (rows_ok_frame w); [done|..]; rewrite ?E1, ?E2, ?E3, ?E4, ?E5; try done. apply (ro_info _ Hr).
  - intros w s Hr [_ Hg]. apply (rows_ok_frame w); try done; [intros n; simpl; by rewrite Hg|apply (ro_info _ Hr)].
  - intros w r [H1 H2 H3 H4 H5 H6 H7 H8] Hd. split; simpl; auto. intros i r' Hr'. rewrite Hd. destruct (H4 i r' Hr'). lia.
  - intros w p a Hr. apply (rows_ok_frame w); try done. apply (ro_info _ Hr).
  - intros w n o Hr. apply (rows_ok_frame w); try done. apply (ro_info _ Hr).
Qed.
#[export] Hint Resolve rows_ok_tolerant : keeps.

Lemma ready_rows w : ready w → rows_ok w.
Proof. by intros [H _]. Qed.

Lemma hoare_ready {A} (m : M A) : keeps ready m → hoare ready m (λ _, ready) rows_ok.
Proof. intros Hm w Hw. specialize (Hm w Hw). destruct (m w) as [[v|e] w']; [done|by apply ready_rows]. Qed.

Lemma ready_keyed w : ready w → keyed w.
Proof.
  intros [Hw _]. split; [apply (ro_info _ Hw)|]. intros r Hr. apply list_elem_of_lookup in Hr as [i Hi]. by apply (ro_key _ Hw i).
Qed.

Lemma ready_set_st f : (∀ s n, generation n (f s) = generation n s) → keeps ready (set_st f).
Proof.
  intros Hf w [Hr Hs]. split; [|intros n; simpl; by rewrite Hf].
  apply (rows_ok_frame w); try done; [intros n; simpl; by rewrite Hf|apply (ro_info _ Hr)].
Qed.

Lemma rows_ok_set_st f : (∀ s n, generation n s ≤ generation n (f s)) → keeps rows_ok (set_st f).
Proof. intros Hf w Hr. apply (rows_ok_frame w); [done|intros n; apply Hf|done..|apply (ro_info _ Hr)]. Qed.

(** A route can only raise generations. *)
Lemma generation_bypass reason s names n : generation n (foldl (bypass reason) s names) = generation n s.
Proof. revert s. induction names as [|x names IH]; intros s; simpl; [done|]. by rewrite IH. Qed.

Lemma generation_key_inj n m : generation_key n = generation_key m → n = m.
Proof. apply append_cancel. Qed.

Lemma generation_renew s name n : generation n s ≤ generation n (renew s name).
Proof.
  unfold renew, generation at 2, counter, set_counter. simpl. rewrite od_get_set. case_decide as Hk; [|done].
  apply generation_key_inj in Hk as ->. unfold generation, counter. simpl. lia.
Qed.

Lemma generation_renew_all s names n : generation n s ≤ generation n (foldl renew s names).
Proof. revert s. induction names as [|x names IH]; intros s; simpl; [done|]. etrans; [apply generation_renew|apply IH]. Qed.

Section Once.
Context (env : outside) (workflow : Workflow) (attempt_number : Z) (override : option string).
Context (Hplain : plain_targets workflow).

Lemma rows_ok_route source target reason : keeps rows_ok (_apply_deterministic_route workflow source target reason).
Proof.
  unfold _apply_deterministic_route. case_match; [apply keeps_value|]. apply keeps_then; [apply keeps_get|]. intros s.
  apply keeps_then; [apply (keeps_set_st _ rows_ok_tolerant); intros s'; by apply mild_counter, jumps_harmless|]. intros _.
  case_match; [apply keeps_exception|]. case_match; [apply rows_ok_set_st; intros s' n; by rewrite generation_bypass|].
  destruct (steps workflow !! target); [|apply keeps_exception]. apply rows_ok_set_st. intros s' n.
  etrans; [|apply generation_renew_all]. rewrite generation_set_counter by apply attempts_harmless. done.
Qed.

(** After a successful save the generations in memory are those of the row. *)
Lemma transaction_saved f w w' :
  transaction env f w = (Ok true, w') → (∀ r r', f r = Some r' → d_state r' = w_state w) → d_state (w_row w') = w_state w'.
Proof.
  unfold transaction, bind, get, modify, await_ at 1. destruct (x_raises env (w_moment w)); [done|]. simpl.
  intros H Hf. destruct (f _) as [r'|] eqn:E; simpl in H; [|done]. unfold await_ in H. simpl in H.
  destruct (x_raises env _); [done|]. injection H as <-. simpl. by eapply Hf.
Qed.

Lemma persist_syncs sync : hoare rows_ok (_persist_workflow_state env attempt_number sync) (λ _, ready) rows_ok.
Proof.
  intros w Hw. pose proof (keeps_persist rows_ok rows_ok_tolerant env attempt_number sync w Hw) as Hk. revert Hk.
  unfold _persist_workflow_state, bind, get. destruct (_read_task_status env w) as [[db|e] w1]; simpl; [|done].
  case_match; [done|]. unfold set_st, modify.
  match goal with |- context [transaction env ?f ?w] => set (F := f); set (w2 := w) end.
  destruct (transaction env F w2) as [[[]|e] w3] eqn:E; simpl; [|done..]. intros Hk. split; [done|]. intros n.
  erewrite transaction_saved; [done|exact E|]. intros r r'. unfold F. destruct (if (_ : bool) then _ else _) as [r1 b].
  destruct (row_update_state _ _ r1) as [r2 ok] eqn:Eu. destruct b; simpl; [|done]. destruct ok; [|done].
  intros [= <-]. apply row_update_state_saves in Eu. case_match; [by rewrite row_update_status_state|done].
Qed.

Lemma ready_route_from step r : result_ok r → hoare ready (route_from env workflow attempt_number step r) (λ _, ready) rows_ok.
Proof.
  intros Hr. unfold route_from. apply hoare_keep_bind; [apply keeps_get|apply ready_rows|]. intros s. cbv zeta.
  apply hoare_keep_bind; [|apply ready_rows|].
  { unfold result_ok in Hr. destruct (ds_route_loop_key r), (ds_route_loop_iterations r); try apply keeps_value.
    apply (keeps_set_st _ ready_tolerant). intros s'. by apply mild_counter, route_key_harmless. }
  intros []. apply hoare_keep_bind; [destruct (ds_revision_context r); keep|apply ready_rows|]. intros [].
  apply (hoare_weaken rows_ok _ _ (λ _, ready) _ rows_ok _); auto using ready_rows.
  apply hoare_keep_bind; [apply rows_ok_route|done|]. intros _. apply hoare_keep_bind; [|done|].
  { apply rows_ok_set_st. done. }
  intros _. apply (hoare_bind _ _ _ (λ _, ready)); [apply persist_syncs|]. by intros _ w Hw.
Qed.

Lemma ready_after_deterministic step r :
  result_ok r → hoare ready (after_deterministic env workflow attempt_number override step r) (λ _, ready) rows_ok.
Proof.
  intros Hr.
  unfold after_deterministic. apply hoare_keep_bind; [by apply ready_set_st|apply ready_rows|]. intros _.
  apply hoare_keep_bind; [destruct (ds_delivery_mode_override r); keep|apply ready_rows|]. intros _.
  destruct (ds_workflow_status r); [apply hoare_ready; keep|]. case_match; [apply hoare_ready; keep|].
  case_match; [|by apply ready_route_from]. cbv zeta. case_match; [apply hoare_ready; keep|]. case_match; [|by apply ready_route_from].
  apply hoare_keep_bind; [keep|apply ready_rows|]. intros a.
  case_match; [apply hoare_ready; keep|]. case_match; [apply hoare_ready; keep|]. case_match; [apply hoare_ready; keep|by apply ready_route_from].
Qed.

(** A budget changes only the clock. *)
Lemma hoare_budget {A} (I : world → Prop) (m : M A) (Q : A → Prop) :
  tolerant I → hoare I m (λ a w, I w ∧ Q a) I → hoare I (_await_with_workflow_budget env m) (λ a w, I w ∧ Q a) I.
Proof.
  intros HI Hm w Hw. unfold _await_with_workflow_budget. destruct (_ <=? 0); [done|]. specialize (Hm w Hw).
  destruct (m w) as [[a|e] w']; [destruct Hm; split; [|done]; by apply (tol_frame _ HI w')|].
  destruct e; by apply (tol_frame _ HI w').
Qed.

Lemma hoare_deferring {A} step (m : M A) k (Q : A → Prop) :
  hoare ready m (λ a w, ready w ∧ Q a) ready → (∀ a, Q a → hoare ready (k a) (λ _, ready) rows_ok) →
  hoare ready (deferring env step m k) (λ _, ready) rows_ok.
Proof.
  intros Hm Hk. unfold deferring.
  apply (hoare_bind _ _ _ (λ r w, ready w ∧ match r with Some a => Q a | None => True end)).
  - apply (hoare_catch _ _ _ _ _ ready).
    + apply (hoare_bind _ _ _ (λ a w, ready w ∧ Q a)); [done|]. by intros a w Hw.
    + intros e. assert (keeps ready (match e with
          | ETransientExecutorUnavailable t => do! _handle_transient_executor_unavailable env step t in ret None
          | e => raise e end : M (option A))%engine) as H by (destruct e; keep).
      intros w Hw. destruct e; try (by apply ready_rows). specialize (H w Hw). unfold bind in *.
      destruct (_handle_transient_executor_unavailable env step _ w) as [[b|e] w']; [done|by apply ready_rows].
  - intros [a|] w [Hw HQ]; [by apply Hk|done].
Qed.

Lemma ready_run_deterministic step : hoare ready (run_deterministic env workflow attempt_number override step) (λ _, ready) rows_ok.
Proof.
  unfold run_deterministic. apply (hoare_deferring _ _ _ result_ok); [|by apply ready_after_deterministic].
  apply hoare_budget; [apply ready_tolerant|]. intros w Hw. pose proof (ready_deterministic env workflow step w Hw) as H1.
  pose proof (yields_deterministic env workflow step w (ready_keyed w Hw)) as H2.
  destruct (_execute_deterministic_step env workflow step w) as [[r|e] w']; [by destruct H2|done].
Qed.

Lemma ready_act a : (∀ n g, is_dispatch n g a = false) → keeps ready (act_ a).
Proof.
  intros Ha w [Hr Hs]. split; [|done]. apply (rows_ok_frame w); try done; [|apply (ro_info _ Hr)].
  intros n g. simpl. by rewrite dispatched_cons, Ha.
Qed.

Lemma ready_commit step o : keeps ready (commit_output env workflow attempt_number override step o).
Proof.
  unfold commit_output. apply keeps_then; [keep|]. intros _. apply keeps_then; [by apply ready_set_st|]. intros _. keep.
Qed.

Lemma ready_execute_run step : keeps ready (_execute_run_step env step).
Proof.
  unfold _execute_run_step. apply keeps_then; [keep|]. intros k. apply keeps_then; [keep|]. intros s.
  apply keeps_then; [by apply ready_act|]. intros _. apply keeps_then; [keep|]. intros _. apply keeps_then; [keep|]. intros k'.
  apply keeps_then; [destruct (x_run env k'); [by apply ready_act|keep]|keep].
Qed.
#[local] Hint Resolve ready_commit ready_execute_run : keeps.

Lemma ready_evaluate step o : keeps ready (_evaluate_step env step o).
Proof.
  unfold _evaluate_step. apply keeps_then; [keep|]. intros k. apply keeps_then; [by apply ready_act|]. keep.
Qed.

Lemma keeps_budget {A} (m : M A) : keeps ready m → keeps ready (_await_with_workflow_budget env m).
Proof.
  intros Hm. apply hoare_keeps. apply (hoare_weaken ready _ _ (λ _ w, ready w ∧ True) _ ready _); [|done|by intros a w [Hw _]|done].
  apply (hoare_budget ready m (λ _, True) ready_tolerant). intros w Hw. specialize (Hm w Hw). by destruct (m w) as [[a|e] w'].
Qed.

Lemma ready_after_evaluation step o e :
  step ∈ steps workflow → keeps ready (after_evaluation env workflow attempt_number override step o e).
Proof. intros Hs. unfold after_evaluation, handled_or_failed. keep. Qed.
#[local] Hint Resolve ready_evaluate keeps_budget ready_after_evaluation : keeps.

Lemma ready_run_step step : step ∈ steps workflow → hoare ready (run_step env workflow attempt_number override step) (λ _, ready) rows_ok.
Proof.
  intros Hs. unfold run_step. apply (hoare_deferring _ _ _ (λ _, True)).
  - intros w Hw. pose proof (keeps_budget _ (ready_execute_run step) w Hw) as H. destruct (_await_with_workflow_budget _ _ _) as [[a|e] w']; done.
  - intros a _. assert (keeps ready (match a with
      | None => run_failed env workflow attempt_number override step None
      | Some o => match so_error o with
                  | Some _ => run_failed env workflow attempt_number override step (Some o)
                  | None => do! set_st (λ s, set_resume_failed_step false (pop_counter (recovery_key (s_name step)) s)) in
                            if evaluated workflow step then
                              let! evaluation := _await_with_workflow_budget env (_evaluate_step env step o) in
                              do! await_ env in after_evaluation env workflow attempt_number override step o evaluation
                            else commit_output env workflow attempt_number override step o
                  end
      end)%engine) as H by keep.
    by apply hoare_ready in H.
Qed.

Lemma ready_iterate step : step ∈ steps workflow → hoare ready (iterate env workflow attempt_number override step) (λ _, ready) rows_ok.
Proof.
  intros Hs.
  unfold iterate. apply hoare_keep_bind; [apply keeps_get|apply ready_rows|]. intros s. case_match; [apply hoare_ready; keep|].
  apply hoare_keep_bind; [by apply ready_set_st|apply ready_rows|]. intros [].
  case_match; [apply ready_run_deterministic|]. case_match; [apply hoare_ready; keep|].
  apply hoare_keep_bind; [apply keeps_get|apply ready_rows|]. intros s'. case_match; [by apply ready_run_step|apply hoare_ready; keep].
Qed.

Lemma ready_loop fuel : hoare ready (loop env workflow attempt_number override fuel) (λ _, ready) rows_ok.
Proof.
  induction fuel as [|fuel IH]; simpl; (apply hoare_keep_bind; [apply keeps_get|apply ready_rows|]); intros w0;
    destruct (steps workflow !! current_step_index (w_state w0)) as [step|] eqn:Hs; try (by intros w Hw);
    (case_match; [apply (hoare_weaken ready _ _ (λ _, ready) _ ready _); auto using ready_rows; apply hoare_keeps; keep|]); [by intros w Hw|].
  apply (hoare_bind _ _ _ (λ _, ready)); [apply ready_iterate; by eapply list_elem_of_lookup_2|].
  intros v. destruct v; [done|by intros w Hw..].
Qed.

Lemma rows_ok_failed e : keeps rows_ok (failed env attempt_number e).
Proof.
  unfold failed. keep. apply working_runs_transaction; [keep|]. intros w Hw. unfold fail_running_step_runs. apply rows_ok_update; [done|..].
  - intros r. by case_match.
  - intros i r Hr. by case_match.
  - intros i r n g Hr Hn Hg Hd Hc. case_match; [|done]. apply closed_set_status; [done|]. left. by apply (bool_decide_unpack _).
Qed.

(** A run of the engine, from its start to its end or to the death of its process. *)
Lemma rows_ok_execute fuel w :
  ready w → rows_ok (execute_workflow env workflow attempt_number override fuel w).2.
Proof.
  intros Hw. unfold execute_workflow.
  assert (hoare ready (run_loop env workflow attempt_number override fuel) (λ _, rows_ok) rows_ok) as Hl.
  { unfold run_loop. apply (hoare_bind _ _ _ (λ _, ready)); [apply ready_loop|].
    assert (hoare ready (do! finish env workflow attempt_number in ret (Some (Some tt)))%engine (λ _, rows_ok) rows_ok) as Hf.
    { apply (hoare_weaken ready _ _ (λ _, ready) _ ready _); auto using ready_rows. apply hoare_keeps. keep. }
    intros [[| |]|]; try done; intros w' Hw'; by apply ready_rows. }
  assert (hoare ready (catch (run_loop env workflow attempt_number override fuel)
            (λ e, let! r := on_exception env attempt_number e in ret (Some r)))%engine (λ _, rows_ok) rows_ok) as Hc.
  { apply (hoare_catch _ _ _ _ _ rows_ok); [done|]. intros e. apply hoare_keeps. unfold on_exception.
    pose proof (rows_ok_failed e). keep. }
  specialize (Hc w Hw). unfold bind at 1. destruct (catch _ _ w) as [[r|e] w']; [|done].
  assert (keeps rows_ok (match r with
    | None => ret false | Some None => ret true
    | Some (Some _) => let! t := get (λ w, t_status (w_task w)) in do! when_ (ended t) (do! await_ env in act_ ADelivered) in ret true end)%engine) as Hk.
  { keep. intros w1 H1. apply (rows_ok_frame w1); try done. apply (ro_info _ H1). }
  by apply Hk.
Qed.
End Once.

(** ** Restarts *)

(** A run of the engine: what it finds outside, its fuel, the moment it starts, and the status that
    claiming the task gave the row. *)
Record session := { ss_env : outside; ss_fuel : nat; ss_moment : nat; ss_status : TaskStatus; ss_delivery : string }.

(** The engine starts from what is saved. *)
Definition start (ss : session) (w : world) : world :=
  {| w_moment := ss_moment ss; w_elapsed := 0; w_state := d_state (w_row w);
     w_task := {| t_status := ss_status ss; t_delivery_mode := ss_delivery ss; t_result_summary := None; t_scheduled_for := None |};
     w_row := {| d_status := ss_status ss; d_attempt := d_attempt (w_row w); d_state := d_state (w_row w) |};
     w_runs := w_runs w; w_info := fresh_info 0; w_log := w_log w |}.

Definition session_step (workflow : Workflow) (attempt_number : Z) (override : option string) (w : world) (ss : session) : world :=
  (execute_workflow (ss_env ss) workflow attempt_number override (ss_fuel ss) (start ss w)).2.

(** The runs of one attempt of a task, one after the other. *)
Definition history (workflow : Workflow) (attempt_number : Z) (override : option string) (sessions : list session) (w : world) : world :=
  run (session_step workflow attempt_number override) w sessions.

Lemma ready_start ss w : rows_ok w → ready (start ss w).
Proof.
  intros [H1 H2 H3 H4 H5 H6 H7 H8]. split; [|done]. split; simpl; auto; [|done]. intros i r Hr. destruct (H4 i r Hr). lia.
Qed.

Lemma rows_ok_history workflow attempt_number override sessions w :
  plain_targets workflow → rows_ok w → rows_ok (history workflow attempt_number override sessions w).
Proof. intros Hp Hw. unfold history. apply (run_invariant _ rows_ok); [done|]. intros w' ss Hw'. apply rows_ok_execute; [done|by apply ready_start]. Qed.

(** Nothing of the attempt has run yet. *)
Definition unstarted (w : world) : Prop := w_runs w = [] ∧ w_log w = [] ∧ w_info w = fresh_info 0.

Lemma rows_ok_unstarted w : unstarted w → rows_ok w.
Proof. intros (H1 & H2 & H3). split; rewrite ?H1, ?H2, ?H3; try done. intros *. unfold dispatched. simpl. lia. Qed.

(** C2. A tool with side effects is dispatched at most once in each generation of its step, whatever
    kills the engine and however often it is started again: before the call, during it, after it, or
    between the transactions that record it.  Only a backward route makes a new generation. *)
Theorem side_effects_happen_once workflow attempt_number override sessions w n g :
  plain_targets workflow → unstarted w →
  (dispatched n g (w_log (history workflow attempt_number override sessions w)) ≤ 1)%nat.
Proof. intros Hp Hw. apply ro_once. apply rows_ok_history; [done|by apply rows_ok_unstarted]. Qed.

(** A run that dies at an await, and the one that follows. *)
Definition sample_sessions (dies : nat) : list session :=
  [{| ss_env := sample_outside (Nat.eqb dies) (λ _, false) (λ _, "continue") (λ _, false); ss_fuel := 40; ss_moment := 0;
      ss_status := RUNNING; ss_delivery := "" |};
   {| ss_env := sample_outside (λ _, false) (λ _, false) (λ _, "continue") (λ _, false); ss_fuel := 40; ss_moment := 100;
      ss_status := RUNNING; ss_delivery := "" |}].

(** The first run dies during the call of the tool. *)
Lemma side_effects_happen_once_witness :
  let workflow := sample_workflow "explicit_gates" in
  plain_targets workflow ∧ unstarted sample_world ∧
  dispatched "notify" 0 (w_log (history workflow 1 None (sample_sessions 17) sample_world)) = 1%nat ∧
  (dispatched "notify" 0 (w_log (history workflow 1 None (sample_sessions 17) sample_world)) ≤ 1)%nat.
Proof.
  assert (plain_targets (sample_workflow "explicit_gates")) as Hp by (repeat constructor; by apply (bool_decide_unpack _)).
  split; [exact Hp|]. split; [done|]. split; [by vm_compute|]. by apply side_effects_happen_once.
Defined.
