(* ===== verification/WorkflowSpec.v ===== *)
(** What a workflow's outputs are worth: the output of an evaluated step was produced by a run of
    that step and approved by the evaluator, or let through when its attempts were used up. *)

From S2P Require Import Prelude PyVal Gates Lease Tables Tasks Workflow WorkflowEngine WorkflowSample WorkflowRules WorkflowDispatch.

(** ** Approval *)

Definition vouched (log : list act) (n : string) (o : StepOutput) : Prop :=
  (AProduced n o ∈ log ∧ ∃ e, AEvaluated n o e ∈ log ∧ ev_decision e = Approved) ∨ AOverruled n o ∈ log.

(** A step of agents whose output is evaluated. *)
Definition judged (workflow : Workflow) (s : StepDefinition) : Prop :=
  s ∈ steps workflow ∧ s_type s = TRun ∧ evaluated workflow s = true.

Definition outputs_vouched (workflow : Workflow) (log : list act) (s : WorkflowState) : Prop :=
  ∀ step o, judged workflow step → od_get (s_name step) (step_outputs s) = Some o → vouched log (s_name step) o.

Definition approved (workflow : Workflow) (w : world) : Prop :=
  outputs_vouched workflow (w_log w) (w_state w) ∧ outputs_vouched workflow (w_log w) (d_state (w_row w)).

Lemma vouched_more log log' n o : (∀ a, a ∈ log → a ∈ log') → vouched log n o → vouched log' n o.
Proof. intros H [[H1 (e & H2 & H3)]|H1]; [left; split; [by apply H|]; exists e; split; [by apply H|done]|right; by apply H]. Qed.

Section Approval.
Context (env : outside) (workflow : Workflow) (attempt_number : Z) (override : option string).
Context (Hnames : NoDup (s_name <$> steps workflow)).

Abbreviation I := (approved workflow).

Lemma approved_more w w' :
  I w → step_outputs (w_state w') = step_outputs (w_state w) → d_state (w_row w') = d_state (w_row w) →
  (∀ a, a ∈ w_log w → a ∈ w_log w') → I w'.
Proof.
  intros [H1 H2] E1 E2 Hl. split; intros step o Hs Ho; [rewrite E1 in Ho|rewrite E2 in Ho]; eapply vouched_more; eauto.
Qed.

Lemma approved_tolerant : tolerant I.
Proof.
  split.
  - intros w w' Hw E1 E2 E3 E4 E5. apply (approved_more w); rewrite ?E1, ?E3; auto.
  - intros w s Hw [E _]. by apply (approved_more w).
  - intros w r [H1 H2] E. split; [done|]. simpl. by rewrite E.
  - intros w p a Hw. apply (approved_more w); try done. intros; by right.
  - intros w n o [H1 H2]. split; intros step o' Hs Ho; simpl in *.
    + rewrite od_get_set in Ho. case_decide as Hn; simplify_eq; [right; left|]. eapply vouched_more; [|by apply H1]. intros; by right.
    + eapply vouched_more; [|by apply H2]. intros; by right.
Qed.
#[local] Hint Resolve approved_tolerant : keeps.

Lemma approved_act a : keeps I (act_ a).
Proof. intros w Hw. apply (approved_more w); try done. intros; by right. Qed.

Lemma approved_info f : keeps I (set_in f).
Proof. intros w Hw. by apply (approved_more w). Qed.

Lemma approved_runs f : keeps I (runs_transaction env f).
Proof. apply working_runs_transaction; [keep|]. intros w Hw. by apply (approved_more w). Qed.

Lemma approved_copy {A} i (m : M A) : keeps I m → keeps I (on_copy i m).
Proof.
  intros Hm w Hw. unfold on_copy. specialize (Hm (set_w_info i w)). destruct (m (set_w_info i w)) as [r w'].
  apply (approved_more w'); try done. by apply Hm, (approved_more w).
Qed.

Lemma approved_budget {A} (m : M A) : keeps I m → keeps I (_await_with_workflow_budget env m).
Proof.
  intros Hm w Hw. unfold _await_with_workflow_budget. destruct (_ <=? 0); [done|]. specialize (Hm w Hw). by destruct (m w) as [r w'].
Qed.
#[local] Hint Resolve approved_act approved_info approved_runs approved_copy approved_budget : keeps.

(** Outputs can be deleted. *)
Lemma approved_delete w s :
  I w → (∀ n o, od_get n (step_outputs s) = Some o → od_get n (step_outputs (w_state w)) = Some o) → I (set_w_state s w).
Proof. intros [H1 H2] Hs. split; [|done]. intros step o Hj Ho. simpl in Ho. by apply H1, Hs. Qed.

Lemma outputs_bypass reason names s n o :
  od_get n (step_outputs (foldl (bypass reason) s names)) = Some o → od_get n (step_outputs s) = Some o.
Proof.
  revert s. induction names as [|x names IH]; intros s H; simpl in *; [done|]. apply IH in H. simpl in H. rewrite od_get_del in H. by case_decide.
Qed.

Lemma outputs_renew names s n o : od_get n (step_outputs (foldl renew s names)) = Some o → od_get n (step_outputs s) = Some o.
Proof.
  revert s. induction names as [|x names IH]; intros s H; simpl in *; [done|]. apply IH in H. simpl in H. rewrite od_get_del in H. by case_decide.
Qed.

Lemma approved_route source target reason : keeps I (_apply_deterministic_route workflow source target reason).
Proof.
  unfold _apply_deterministic_route. destruct (_ =? _)%nat; [keep|]. apply keeps_then; [keep|]. intros s.
  apply keeps_then; [keep|]. intros []. destruct (_ <? _); [keep|]. destruct (_ <? _)%nat.
  - intros w Hw. apply approved_delete; [done|]. intros n o. apply outputs_bypass.
  - destruct (steps workflow !! target); [|keep]. intros w Hw. apply approved_delete; [done|]. intros n o Ho. by apply outputs_renew in Ho.
Qed.
#[local] Hint Resolve approved_route : keeps.

Lemma approved_claim step : keeps I (claim_run env step).
Proof.
  unfold claim_run. keep. all: apply keeps_modify; intros w Hw; by apply (approved_more w).
Qed.

Lemma approved_finalize rid o st next ws del ea : keeps I (_finalize_deterministic_step env rid o st next ws del ea).
Proof. unfold _finalize_deterministic_step, update_step_run. keep. Qed.
#[local] Hint Resolve approved_claim approved_finalize : keeps.

Lemma approved_fail step rid e o a : keeps I (_fail_deterministic_step env step rid e o a).
Proof. unfold _fail_deterministic_step. keep. Qed.
#[local] Hint Resolve approved_fail : keeps.

Lemma approved_normalize config t : keeps I (normalize_deterministic_output env config t).
Proof. unfold normalize_deterministic_output. keep. Qed.
#[local] Hint Resolve approved_normalize : keeps.

Lemma approved_render step rid : keeps I (render_step env workflow step rid).
Proof.
  unfold render_step, _execute_condition_step, _execute_complete_step, _execute_tool_call_step, dispatch_tool, call_tool, condition_budget,
    condition_revision, _persist_deterministic_checkpoint, update_step_run. keep.
Qed.

Lemma approved_recover step l : keeps I (_recover_deterministic_step env workflow step l).
Proof. unfold _recover_deterministic_step, update_step_run. keep. Qed.
#[local] Hint Resolve approved_render approved_recover : keeps.

Lemma approved_deterministic step : keeps I (_execute_deterministic_step env workflow step).
Proof. unfold _execute_deterministic_step. keep. Qed.
#[local] Hint Resolve approved_deterministic : keeps.

Lemma approved_same f : (∀ s, step_outputs (f s) = step_outputs s) → keeps I (set_st f).
Proof. intros Hf w Hw. apply (approved_more w); try done. apply Hf. Qed.

(** The output of a step that is not evaluated. *)
Lemma approved_set_output n o :
  (∀ step, judged workflow step → s_name step ≠ n) → keeps I (set_st (λ s, set_step_outputs (od_set n o (step_outputs s)) s)).
Proof.
  intros Hn w [H1 H2]. split; [|done]. intros step o' Hj Ho. simpl in Ho. rewrite od_get_set in Ho.
  rewrite decide_False in Ho by by apply Hn. by apply H1.
Qed.

Lemma same_name s1 s2 : s1 ∈ steps workflow → s2 ∈ steps workflow → s_name s1 = s_name s2 → s1 = s2.
Proof.
  intros [i Hi]%list_elem_of_lookup [j Hj]%list_elem_of_lookup Hn. assert (i = j) as ->; [|congruence].
  eapply (NoDup_lookup _ _ _ (s_name s1) Hnames); rewrite list_lookup_fmap; [by rewrite Hi|by rewrite Hj, Hn].
Qed.

Lemma approved_run_deterministic step :
  step ∈ steps workflow → deterministic step = true → keeps I (run_deterministic env workflow attempt_number override step).
Proof.
  intros Hs Hd. unfold run_deterministic, deferring, after_deterministic, route_from. keep; first [by apply approved_same|apply approved_set_output];
    intros s [Hj [Hr _]] Hn; pose proof (same_name _ _ Hj Hs Hn) as ->; unfold deterministic in Hd; by rewrite Hr in Hd.
Qed.
#[local] Hint Resolve approved_run_deterministic : keeps.

(** An output that may be committed. *)
Definition committable (step : StepDefinition) (o : StepOutput) (w : world) : Prop :=
  I w ∧ (evaluated workflow step = true → vouched (w_log w) (s_name step) o).

Lemma committable_await step o : keeps (committable step o) (await_ env).
Proof. intros w [Hw Hv]. split; [by apply (keeps_await I approved_tolerant)|]. unfold await_. by destruct (x_raises env (w_moment w)). Qed.

Lemma approved_commit step o :
  step ∈ steps workflow → hoare (committable step o) (commit_output env workflow attempt_number override step o) (λ _, I) I.
Proof.
  intros Hs. unfold commit_output. apply hoare_keep_bind; [|by intros w [Hw _]|].
  { apply keeps_when. apply keeps_then; [apply committable_await|]. intros _. apply keeps_value. }
  intros []. apply (hoare_bind _ _ _ (λ _, I)); [|intros []; apply hoare_keeps; keep].
  intros w [[H1 H2] Hv]. split; [|done]. intros s o' Hj Ho. simpl in Ho. rewrite od_get_set in Ho. case_decide as Hn; [|by apply H1].
  simplify_eq. rewrite Hn. apply Hv. rewrite (same_name _ _ Hs (proj1 Hj) (eq_sym Hn)). apply Hj.
Qed.

Lemma approved_evaluate step o :
  hoare (λ w, I w ∧ AProduced (s_name step) o ∈ w_log w) (_await_with_workflow_budget env (_evaluate_step env step o))
    (λ e w, I w ∧ (ev_decision e = Approved → vouched (w_log w) (s_name step) o)) I.
Proof.
  intros w [Hw Hp]. assert (keeps I (_evaluate_step env step o)) as He by (unfold _evaluate_step; keep). pose proof (approved_budget _ He w Hw) as Hb. revert Hb.
  unfold _await_with_workflow_budget. destruct (_ <=? 0); [done|]. unfold _evaluate_step, bind, await_, act_, modify. simpl.
  destruct (x_raises env (w_moment w)) as [x|]; simpl; [by destruct x|]. intros Hb. split; [done|]. intros Ha. left. split; [by right|].
  exists (x_evaluation env (w_moment w)). split; [left|done].
Qed.

Lemma approved_after_evaluation step o e :
  step ∈ steps workflow → plain_targets workflow →
  hoare (λ w, I w ∧ (ev_decision e = Approved → vouched (w_log w) (s_name step) o))
    (after_evaluation env workflow attempt_number override step o e) (λ _, I) I.
Proof.
  intros Hs Hp. unfold after_evaluation. destruct (ev_decision e).
  - intros w [Hw Hv]. apply approved_commit; [done|]. split; auto.
  - intros w [Hw _]. revert w Hw. apply hoare_keeps. unfold handled_or_failed. keep.
  - intros w [Hw _]. revert w Hw. apply hoare_keeps. unfold handled_or_failed. keep.
Qed.

Lemma approved_execute_run step :
  hoare I (_execute_run_step env step) (λ r w, I w ∧ ∀ o, r = Some o → AProduced (s_name step) o ∈ w_log w) I.
Proof.
  unfold _execute_run_step. apply hoare_keep_bind; [keep|done|]. intros k. apply hoare_keep_bind; [keep|done|]. intros s.
  apply hoare_keep_bind; [keep|done|]. intros []. apply hoare_keep_bind; [keep|done|]. intros []. apply hoare_keep_bind; [keep|done|]. intros k'.
  intros w Hw. unfold bind. destruct (x_run env k') as [o|] eqn:E; simpl; [|by split]. split; [by apply approved_act|]. intros o' [= ->]. left.
Qed.

Lemma hoare_defer {A} step (m : M A) k (Q : A → world → Prop) :
  hoare I m Q I → (∀ a w, Q a w → I w) → (∀ a, hoare (Q a) (k a) (λ _, I) I) → hoare I (deferring env step m k) (λ _, I) I.
Proof.
  intros Hm HQ Hk. unfold deferring. apply (hoare_bind _ _ _ (λ r w, match r with Some a => Q a w | None => I w end)).
  - apply (hoare_catch _ _ _ _ _ I); [apply (hoare_bind _ _ _ Q); [done|by intros a w Hw]|].
    intros e. destruct e; try (by intros w Hw). eapply hoare_bind; [apply hoare_keeps; keep|]. by intros b w Hw.
  - intros [a|]; [apply Hk|by intros w Hw].
Qed.

Lemma approved_run_step step :
  step ∈ steps workflow → plain_targets workflow → keeps I (run_step env workflow attempt_number override step).
Proof.
  intros Hs Hp. apply hoare_keeps. unfold run_step.
  apply (hoare_defer _ _ _ (λ r w, I w ∧ ∀ o, r = Some o → AProduced (s_name step) o ∈ w_log w)); [|by intros a w [Hw _]|].
  - intros w Hw. unfold _await_with_workflow_budget. destruct (_ <=? 0); [done|]. pose proof (approved_execute_run step w Hw) as H.
    destruct (_execute_run_step env step w) as [[r|e] w']; [done|]. destruct e; by apply (tol_frame _ approved_tolerant w').
  - intros [o|]; [|intros w [Hw _]; revert w Hw; apply hoare_keeps; keep].
    destruct (so_error o); [intros w [Hw _]; revert w Hw; apply hoare_keeps; keep|].
    apply hoare_keep_bind; [|by intros w [Hw _]|].
    { intros w [Hw Ho]. split; [|done]. by apply approved_same. }
    intros []. destruct (evaluated workflow step) eqn:E.
    + apply (hoare_bind _ _ _ (λ e w, I w ∧ (ev_decision e = Approved → vouched (w_log w) (s_name step) o))).
      { eapply hoare_weaken; [apply approved_evaluate|intros w [Hw Ho]; split; auto|done|done]. }
      intros e. apply hoare_keep_bind; [|by intros w [Hw _]|by intros k; apply approved_after_evaluation].
      intros w [Hw Hv]. split; [by apply (keeps_await I approved_tolerant)|]. unfold await_. by destruct (x_raises env (w_moment w)).
    + intros w [Hw _]. apply approved_commit; [done|]. split; [done|]. by rewrite E.
Qed.
#[local] Hint Resolve approved_run_step : keeps.

Lemma approved_iterate step :
  step ∈ steps workflow → plain_targets workflow → keeps I (iterate env workflow attempt_number override step).
Proof.
  intros Hs Hp. unfold iterate. apply keeps_then; [keep|]. intros s. case_match; [keep|].
  apply keeps_then; [by apply approved_same|]. intros []. destruct (deterministic step) eqn:E; [keep|]. keep.
Qed.
#[local] Hint Resolve approved_iterate : keeps.

Lemma approved_loop fuel : plain_targets workflow → keeps I (loop env workflow attempt_number override fuel).
Proof.
  intros Hp. induction fuel as [|fuel IH]; simpl; (apply keeps_then; [keep|]); intros w0;
    destruct (steps workflow !! current_step_index (w_state w0)) as [step|] eqn:Hs; try (by intros w Hw); [keep|].
  apply list_elem_of_lookup_2 in Hs. keep.
Qed.
#[local] Hint Resolve approved_loop : keeps.

Lemma approved_execute fuel : plain_targets workflow → keeps I (execute_workflow env workflow attempt_number override fuel).
Proof. intros Hp. unfold execute_workflow, run_loop, on_exception, failed. keep. Qed.
End Approval.

(** ** Valid definitions *)

Lemma reject_ok b e : reject b e = Ok tt → b = false.
Proof. by destruct b. Qed.

Lemma check_steps_names all i l :
  s_name <$> drop i all = s_name <$> l → check_steps all i l = Ok tt → NoDup (take i (s_name <$> all)) → NoDup (s_name <$> all).
Proof.
  revert i. induction l as [|s l IH]; intros i Hl Hc Hn.
  - rewrite fmap_drop in Hl. rewrite <- (take_drop i (s_name <$> all)), Hl. by rewrite app_nil_r.
  - simpl in Hc. destruct (check_step all i s) as [[]|] eqn:Hs; [|done]. simpl in Hc. apply (IH (S i)); [|done|].
    + rewrite fmap_drop in Hl |- *. apply (f_equal (drop 1)) in Hl. rewrite drop_drop in Hl. rewrite Nat.add_1_r in Hl. done.
    + assert ((s_name <$> all) !! i = Some (s_name s)) as Hi.
      { rewrite fmap_drop in Hl. apply (f_equal (lookup 0%nat)) in Hl. rewrite lookup_drop, Nat.add_0_r in Hl. done. }
      rewrite (take_S_r _ _ _ Hi). apply NoDup_app. split; [done|]. split; [|apply NoDup_singleton]. intros x Hx.
      unfold check_step in Hs. destruct (reject _ _) as [[]|] eqn:Hr in Hs; [|done]. apply reject_ok, bool_decide_eq_false in Hr.
      intros ->%list_elem_of_singleton. done.
Qed.

(** The steps of a valid workflow have different names. *)
Lemma validated_names parse workflow : _validate_workflow parse workflow = Ok tt → NoDup (s_name <$> steps workflow).
Proof.
  unfold _validate_workflow. destruct (check_steps _ 0 _) as [[]|] eqn:E; [|done]. intros _.
  apply (check_steps_names _ 0 (steps workflow)); [done..|apply NoDup_nil_2].
Qed.


