(* ===== verification/WorkflowEnds.v ===== *)
(** Autonomous workflows end: a bound on the turns of the engine's loop, made of the limits that
    the definition sets to routes, review loops and attempts. *)

From S2P Require Import Prelude PyVal Gates Lease Tables Tasks Workflow WorkflowEngine WorkflowSample WorkflowRules WorkflowDispatch.

(** ** What is left of the limits *)

Definition left_of (limit used : Z) : nat := Z.to_nat (limit - used).

Definition review_left (s : WorkflowState) (step : StepDefinition) : nat :=
  match on_reject step with
  | Some r => left_of (r_max_loop_iterations r) (counter (review_key (r_target r) (s_name step)) 0 s)
  | None => 0
  end.

Definition route_left (s : WorkflowState) (step : StepDefinition) (r : OutcomeRoute) : nat :=
  match o_max_loop_iterations r with
  | Some max => left_of max (counter (outcome_key (s_name step) (o_action r)) 0 s)
  | None => 0
  end.

Definition step_left (s : WorkflowState) (step : StepDefinition) : nat :=
  review_left s step + sum_list (route_left s step <$> outcome_routes step).

(** The moves backwards that are left. *)
Definition moves_left (workflow : Workflow) (s : WorkflowState) : nat :=
  left_of MAX_DETERMINISTIC_JUMPS (counter jumps_key 0 s) + sum_list (step_left s <$> steps workflow).

Definition attempts_limit (workflow : Workflow) (step : StepDefinition) : Z :=
  match _resolve_completion workflow step with Some c => max_attempts c | None => 3 end.

Definition attempts_cap (workflow : Workflow) : nat := max_list (Z.to_nat ∘ attempts_limit workflow <$> steps workflow).

Definition attempts_left (workflow : Workflow) (s : WorkflowState) : nat :=
  match steps workflow !! current_step_index s with
  | Some step => left_of (attempts_limit workflow step) (counter (attempts_key (s_name step)) 1 s)
  | None => 0
  end.

(** Turns without a move backwards, and all turns. *)
Definition stretch (workflow : Workflow) : nat := (length (steps workflow) + 1) * (attempts_cap workflow + 1).

Definition turns_left (workflow : Workflow) (s : WorkflowState) : nat :=
  moves_left workflow s * stretch workflow +
  (length (steps workflow) - current_step_index s) * (attempts_cap workflow + 1) + attempts_left workflow s.

(** Counters as the engine writes them. *)
Definition counted (s : WorkflowState) : Prop := ∀ n, 0 ≤ counter (attempts_key n) 1 s.

(** ** Keys *)

Lemma review_key_plain p target name x :
  colon ∉ tx target → Ascii.ascii_of_nat 45 ∉ tx p → review_key target name ≠ p +:+ ":" +:+ x.
Proof.
  intros Ht Hp Heq. apply (f_equal tx) in Heq. unfold review_key in Heq. rewrite !tx_app in Heq.
  cut (colon ∈ tx target); [done|]. clear Ht. revert Hp Heq. generalize (tx p). clear p.
  induction (tx target) as [|c t IH]; intros [|d p] Hd Heq; simplify_eq/=.
  - by rewrite not_elem_of_cons in Hd; destruct Hd.
  - left.
  - right. apply (IH p); [|done]. by apply not_elem_of_cons in Hd as [_ Hd].
Qed.

Section Keys.
Context (workflow : Workflow) (Hplain : plain_targets workflow).

(** The counters that bound moves backwards. *)
Definition tracked (k : string) : Prop :=
  k = jumps_key ∨ (∃ step r, step ∈ steps workflow ∧ on_reject step = Some r ∧ k = review_key (r_target r) (s_name step)) ∨
  (∃ n a, k = outcome_key n a).

Lemma plain_target step r : step ∈ steps workflow → on_reject step = Some r → colon ∉ tx (r_target r).
Proof. intros Hs Hr. pose proof (proj1 (Forall_forall _ _) Hplain step Hs) as H. simpl in H. by rewrite Hr in H. Qed.

Ltac untracked p :=
  intros [H|[(step & r & Hs & Hr & H)|(m & a & H)]]; [done| |done]; symmetry in H; revert H;
  apply (review_key_plain p); [by apply (plain_target step)|by apply (bool_decide_unpack _)].

Lemma attempts_untracked n : ¬ tracked (attempts_key n).
Proof. untracked "attempts". Qed.
Lemma recovery_untracked n : ¬ tracked (recovery_key n).
Proof. untracked "recovery". Qed.
Lemma generation_untracked n : ¬ tracked (generation_key n).
Proof. untracked "deterministic_generation". Qed.
Lemma condition_untracked n t : ¬ tracked (condition_key n t).
Proof. untracked "condition". Qed.

Lemma tracked_attempts k n : tracked k → k ≠ attempts_key n.
Proof. intros Hk ->. by apply attempts_untracked in Hk. Qed.
End Keys.

(** ** Counters *)

Lemma counter_set k k' n d s : counter k d (set_counter k' n s) = if decide (k = k') then n else counter k d s.
Proof. unfold counter, set_counter. simpl. rewrite od_get_set. by case_decide. Qed.

Lemma counter_pop k k' d s : counter k d (pop_counter k' s) = if decide (k = k') then d else counter k d s.
Proof. unfold counter, pop_counter. simpl. rewrite od_get_del. by case_decide. Qed.

Lemma sum_list_le {A} (f g : A → nat) l : (∀ x, x ∈ l → (f x ≤ g x)%nat) → (sum_list (f <$> l) ≤ sum_list (g <$> l))%nat.
Proof.
  induction l as [|x l IH]; intros H; [done|]. rewrite !fmap_cons. simpl. pose proof (H x ltac:(left)).
  assert (sum_list (f <$> l) ≤ sum_list (g <$> l))%nat by (apply IH; intros; apply H; by right). lia.
Qed.

Lemma sum_list_lt {A} (f g : A → nat) l y :
  (∀ x, x ∈ l → (f x ≤ g x)%nat) → y ∈ l → (f y < g y)%nat → (sum_list (f <$> l) < sum_list (g <$> l))%nat.
Proof.
  intros H Hy Hlt. induction l as [|x l IH]; [by apply elem_of_nil in Hy|]. rewrite !fmap_cons. simpl. pose proof (H x ltac:(left)).
  assert (∀ z, z ∈ l → (f z ≤ g z)%nat) as Hl by (intros; apply H; by right). apply elem_of_cons in Hy as [->|Hy].
  - pose proof (sum_list_le f g l Hl). lia.
  - specialize (IH Hl Hy). lia.
Qed.

Lemma left_of_le m a b : a ≤ b → (left_of m b ≤ left_of m a)%nat.
Proof. unfold left_of. lia. Qed.

Lemma left_of_lt m a b : a < b → a < m → (left_of m b < left_of m a)%nat.
Proof. unfold left_of. lia. Qed.

Lemma max_list_elem n l : n ∈ l → (n ≤ max_list l)%nat.
Proof. apply max_list_elem_of_le. Qed.

Section Measure.
Context (workflow : Workflow) (Hplain : plain_targets workflow).

(** The counters of moves can only grow. *)
Definition advances (s s' : WorkflowState) : Prop := ∀ k, tracked workflow k → counter k 0 s ≤ counter k 0 s'.

Lemma review_tracked step r : step ∈ steps workflow → on_reject step = Some r → tracked workflow (review_key (r_target r) (s_name step)).
Proof. intros Hs Hr. right; left. by exists step, r. Qed.

Lemma outcome_tracked n a : tracked workflow (outcome_key n a).
Proof. right; right. by exists n, a. Qed.

Lemma step_left_le s s' step : step ∈ steps workflow → advances s s' → (step_left s' step ≤ step_left s step)%nat.
Proof.
  intros Hs Ha. unfold step_left. apply Nat.add_le_mono.
  - unfold review_left. destruct (on_reject step) as [r|] eqn:Hr; [|done]. apply left_of_le, Ha. by apply review_tracked.
  - apply sum_list_le. intros r _. unfold route_left. destruct (o_max_loop_iterations r); [|done]. apply left_of_le, Ha, outcome_tracked.
Qed.

Lemma moves_left_le s s' : advances s s' → (moves_left workflow s' ≤ moves_left workflow s)%nat.
Proof.
  intros Ha. unfold moves_left. apply Nat.add_le_mono; [apply left_of_le, Ha; by left|].
  apply sum_list_le. intros step Hs. by apply step_left_le.
Qed.

Lemma moves_left_jump s s' :
  advances s s' → counter jumps_key 0 s < counter jumps_key 0 s' → counter jumps_key 0 s < MAX_DETERMINISTIC_JUMPS →
  (moves_left workflow s' < moves_left workflow s)%nat.
Proof.
  intros Ha Hlt Hm. unfold moves_left. pose proof (left_of_lt _ _ _ Hlt Hm).
  assert (sum_list (step_left s' <$> steps workflow) ≤ sum_list (step_left s <$> steps workflow))%nat; [|lia].
  apply sum_list_le. intros step Hs. by apply step_left_le.
Qed.

Lemma moves_left_step s s' step :
  advances s s' → step ∈ steps workflow → (step_left s' step < step_left s step)%nat → (moves_left workflow s' < moves_left workflow s)%nat.
Proof.
  intros Ha Hs Hlt. unfold moves_left. pose proof (left_of_le MAX_DETERMINISTIC_JUMPS _ _ (Ha jumps_key ltac:(by left))).
  assert (sum_list (step_left s' <$> steps workflow) < sum_list (step_left s <$> steps workflow))%nat; [|lia].
  apply (sum_list_lt _ _ _ step); [|done..]. intros x Hx. by apply step_left_le.
Qed.

Lemma moves_left_review s s' step r :
  advances s s' → step ∈ steps workflow → on_reject step = Some r →
  counter (review_key (r_target r) (s_name step)) 0 s < counter (review_key (r_target r) (s_name step)) 0 s' →
  counter (review_key (r_target r) (s_name step)) 0 s < r_max_loop_iterations r → (moves_left workflow s' < moves_left workflow s)%nat.
Proof.
  intros Ha Hs Hr Hlt Hm. apply (moves_left_step _ _ step); [done..|]. unfold step_left.
  pose proof (left_of_lt _ _ _ Hlt Hm). unfold review_left. rewrite Hr.
  assert (sum_list (route_left s' step <$> outcome_routes step) ≤ sum_list (route_left s step <$> outcome_routes step))%nat; [|lia].
  apply sum_list_le. intros x _. unfold route_left. destruct (o_max_loop_iterations x); [|done]. apply left_of_le, Ha, outcome_tracked.
Qed.

Lemma moves_left_route s s' step r max :
  advances s s' → step ∈ steps workflow → r ∈ outcome_routes step → o_max_loop_iterations r = Some max →
  counter (outcome_key (s_name step) (o_action r)) 0 s < counter (outcome_key (s_name step) (o_action r)) 0 s' →
  counter (outcome_key (s_name step) (o_action r)) 0 s < max → (moves_left workflow s' < moves_left workflow s)%nat.
Proof.
  intros Ha Hs Hr Hmax Hlt Hm. apply (moves_left_step _ _ step); [done..|]. unfold step_left.
  assert (review_left s' step ≤ review_left s step)%nat.
  { unfold review_left. destruct (on_reject step) as [x|] eqn:Hx; [|done]. apply left_of_le, Ha. by apply review_tracked. }
  assert (sum_list (route_left s' step <$> outcome_routes step) < sum_list (route_left s step <$> outcome_routes step))%nat; [|lia].
  apply (sum_list_lt _ _ _ r); [|done|].
  - intros x _. unfold route_left. destruct (o_max_loop_iterations x); [|done]. apply left_of_le, Ha, outcome_tracked.
  - unfold route_left. rewrite Hmax. by apply left_of_lt.
Qed.

Lemma attempts_left_cap s : counted s → (attempts_left workflow s ≤ attempts_cap workflow)%nat.
Proof.
  intros Hc. unfold attempts_left. destruct (steps workflow !! current_step_index s) as [step|] eqn:Hs; [|lia].
  assert (Z.to_nat (attempts_limit workflow step) ≤ attempts_cap workflow)%nat.
  { apply max_list_elem, list_elem_of_fmap. exists step. split; [done|]. by eapply list_elem_of_lookup_2. }
  specialize (Hc (s_name step)). unfold left_of. lia.
Qed.

(** A turn makes progress: a move backwards is used up, or the next step is reached, or an attempt
    is used up. *)
Definition progress (s s' : WorkflowState) : Prop :=
  (moves_left workflow s' < moves_left workflow s)%nat ∨
  (moves_left workflow s' ≤ moves_left workflow s)%nat ∧
  ((current_step_index s < current_step_index s')%nat ∨
   current_step_index s' = current_step_index s ∧ (attempts_left workflow s' < attempts_left workflow s)%nat).

Lemma progress_turns s s' :
  is_Some (steps workflow !! current_step_index s) → counted s' → progress s s' → (turns_left workflow s' < turns_left workflow s)%nat.
Proof.
  intros Hi%lookup_lt_is_Some Hc Hp. pose proof (attempts_left_cap s' Hc) as Hcap. unfold turns_left, stretch.
  set (n := length (steps workflow)) in *. set (c := attempts_cap workflow) in *. set (b := moves_left workflow s) in *.
  set (b' := moves_left workflow s') in *. set (a := attempts_left workflow s) in *. set (a' := attempts_left workflow s') in *.
  set (i := current_step_index s) in *. set (i' := current_step_index s') in *.
  assert ((n - i') * (c + 1) + a' < (n + 1) * (c + 1))%nat by nia.
  destruct Hp as [Hb|[Hb [Hlt|[Heq Hlt]]]].
  - assert ((b' + 1) * ((n + 1) * (c + 1)) ≤ b * ((n + 1) * (c + 1)))%nat by nia. nia.
  - assert (b' * ((n + 1) * (c + 1)) ≤ b * ((n + 1) * (c + 1)))%nat by nia.
    assert ((n - i') + 1 ≤ n - i)%nat by lia. assert (((n - i') + 1) * (c + 1) ≤ (n - i) * (c + 1))%nat by nia. nia.
  - assert (b' * ((n + 1) * (c + 1)) ≤ b * ((n + 1) * (c + 1)))%nat by nia. assert (i = i') as <- by done. nia.
Qed.
End Measure.

(** ** Computations that end without an exception *)

Definition ok {A} (m : M A) (Q : A → world → Prop) (w : world) : Prop :=
  match m w with (Ok a, w') => Q a w' | (Err _, _) => True end.

Lemma ok_bind {A B} (m : M A) (f : A → M B) Q w : ok m (λ a w', ok (f a) Q w') w → ok (bind m f) Q w.
Proof. unfold ok, bind. by destruct (m w) as [[a|e] w']. Qed.

Lemma ok_mono {A} (m : M A) (Q Q' : A → world → Prop) w : ok m Q w → (∀ a w', Q a w' → Q' a w') → ok m Q' w.
Proof. unfold ok. destruct (m w) as [[a|e] w']; auto. Qed.

Lemma ok_catch {A} (m : M A) h Q w : ok m Q w → (∀ e w', m w = (Err e, w') → ok (h e) Q w') → ok (catch m h) Q w.
Proof. unfold ok, catch. intros H1 H2. destruct (m w) as [[a|e] w'] eqn:E; [done|]. by apply (H2 e w'). Qed.

(** No gate is left pending. *)
Definition ungated (s s' : WorkflowState) : Prop := pending_pause_type s ≠ Some "gate" → pending_pause_type s' ≠ Some "gate".

#[global] Instance ungated_pre : PreOrder ungated.
Proof. split; [by intros s H|]. intros s1 s2 s3 H1 H2 H. by apply H2, H1. Qed.

Lemma ungated_eq s s' : pending_pause_type s' = pending_pause_type s → ungated s s'.
Proof. intros E. unfold ungated. by rewrite E. Qed.

(** No gate, by what is known of the states on the way. *)
Ltac ung :=
  unfold ungated in *; simpl in *; intros;
  repeat match goal with
    | H : _ ≠ Some "gate" → pending_pause_type ?s' ≠ Some "gate" |- pending_pause_type ?s' ≠ Some "gate" => apply H
    | H : w_state ?w = _ |- context [w_state ?w] => rewrite H; simpl
    end; try done.

(** What is known of the states on the way. *)
Ltac states := repeat match goal with H : w_state ?w = _ |- context [w_state ?w] => rewrite H; simpl end.

(** States that differ in what the measure does not see. *)
Definition same (s s' : WorkflowState) : Prop :=
  current_step_index s' = current_step_index s ∧ loop_iterations s' = loop_iterations s ∧ ungated s s'.

Section Runs.
Context (env : outside).

Lemma ok_await Q w : (∀ k w', w_state w' = w_state w → w_task w' = w_task w → Q k w') → ok (await_ env) Q w.
Proof. intros H. unfold ok, await_. destruct (x_raises env (w_moment w)); [done|]. by apply H. Qed.

Lemma ok_transaction f Q w : (∀ b w', w_state w' = w_state w → w_task w' = w_task w → Q b w') → ok (transaction env f) Q w.
Proof.
  intros H. unfold transaction. apply ok_bind, ok_await. intros k w1 E1 E2. unfold ok, bind, get, modify. simpl.
  destruct (f _); simpl; [|by apply H]. unfold await_. simpl. destruct (x_raises env (w_moment w1)); simpl; [done|]. by apply H.
Qed.

Lemma ok_read_status Q w : (∀ s w', w_state w' = w_state w → w_task w' = w_task w → Q s w') → ok (_read_task_status env) Q w.
Proof. intros H. unfold _read_task_status. apply ok_bind, ok_await. intros k w1 E1 E2. by apply H. Qed.

Lemma ok_persist attempt_number sync Q w :
  (∀ w', same (w_state w) (w_state w') → w_task w' = w_task w → Q tt w') → ok (_persist_workflow_state env attempt_number sync) Q w.
Proof.
  intros H. unfold _persist_workflow_state. apply ok_bind, ok_read_status. intros db w1 E1 E2. apply ok_bind. unfold ok at 1, get. simpl.
  apply ok_bind. unfold ok at 1, get. simpl. case_match; [done|]. apply ok_bind. unfold ok at 1, set_st, modify. simpl.
  apply ok_bind. unfold ok at 1, get. simpl. apply ok_bind, ok_transaction. intros [] w2 E3 E4; [|done]. apply H; [|by rewrite E4]. rewrite E3. simpl. rewrite E1. split_and!; [done..|by apply ungated_eq].
Qed.
End Runs.

(** Stepping through a method. *)
Ltac ok_step :=
  match goal with
  | |- ok (bind _ _) _ _ => apply ok_bind
  | |- ok (ret _) _ _ => unfold ok at 1, ret at 1; cbv beta iota zeta
  | |- ok (raise _) _ _ => done
  | |- ok (get _) _ _ => unfold ok at 1, get at 1; cbv beta iota zeta
  | |- ok (set_st _) _ _ => unfold ok at 1, set_st at 1, modify at 1; cbv beta iota zeta
  | |- ok (set_tk _) _ _ => unfold ok at 1, set_tk at 1, modify at 1; cbv beta iota zeta
  | |- ok (act_ _) _ _ => unfold ok at 1, act_ at 1, modify at 1; cbv beta iota zeta
  | |- ok (await_ _) _ _ => apply ok_await; intros ??? ?
  | |- ok (_persist_workflow_state _ _ _) _ _ => apply ok_persist; intros ? (? & ? & ?) ?
  | |- ok (transaction _ _) _ _ => apply ok_transaction; intros ??? ?
  end.

(** ** Deterministic steps leave the state of the workflow alone *)

Section Still.
Context (env : outside) (workflow : Workflow) (s : WorkflowState).

Definition still (w : world) : Prop := w_state w = s.

Lemma still_await : keeps still (await_ env).
Proof. intros w Hw. unfold await_. by destruct (x_raises env (w_moment w)). Qed.

Lemma still_modify f : (∀ w, w_state (f w) = w_state w) → keeps still (modify f).
Proof. intros Hf w Hw. unfold still in *. simpl. by rewrite Hf. Qed.

Ltac stays_put :=
  intros; cbv zeta;
  repeat match goal with
    | |- keeps _ (bind _ _) => apply keeps_then; [|intros; cbv zeta]
    | |- keeps _ (ret _) => apply keeps_value
    | |- keeps _ (raise _) => apply keeps_exception
    | |- keeps _ (get _) => apply keeps_get
    | |- keeps _ (of_result _) => apply keeps_of_result
    | |- keeps _ (when_ _ _) => apply keeps_when
    | |- keeps _ (catch _ _) => apply keeps_catch; [|intros]
    | |- keeps _ (await_ _) => apply still_await
    | |- keeps _ (modify _) => apply still_modify; by intros []
    | |- keeps _ (set_in _) => unfold set_in
    | |- keeps _ (act_ _) => unfold act_
    | |- keeps _ (match ?x with _ => _ end) => destruct x
    | |- keeps _ _ => solve [auto with still]
    end.

Create HintDb still.

Lemma still_update rid f : keeps still (update_step_run env rid f).
Proof. unfold update_step_run, runs_transaction. stays_put. Qed.
#[local] Hint Resolve still_update : still.

Lemma still_finalize rid o st next ws del ea : keeps still (_finalize_deterministic_step env rid o st next ws del ea).
Proof. unfold _finalize_deterministic_step. stays_put. Qed.
#[local] Hint Resolve still_finalize : still.

Lemma still_fail step rid e o a : keeps still (_fail_deterministic_step env step rid e o a).
Proof. unfold _fail_deterministic_step. stays_put. Qed.

Lemma still_checkpoint rid : keeps still (_persist_deterministic_checkpoint env rid).
Proof. unfold _persist_deterministic_checkpoint. stays_put. Qed.

Lemma still_normalize config t : keeps still (normalize_deterministic_output env config t).
Proof. unfold normalize_deterministic_output. stays_put. Qed.
#[local] Hint Resolve still_fail still_checkpoint still_normalize : still.

Lemma still_condition step c rid : keeps still (_execute_condition_step env workflow step c rid).
Proof. unfold _execute_condition_step, condition_budget, condition_revision. stays_put. Qed.

Lemma still_complete step c rid : keeps still (_execute_complete_step env step c rid).
Proof. unfold _execute_complete_step. stays_put. Qed.

Lemma still_tool_call step c rid : keeps still (_execute_tool_call_step env workflow step c rid).
Proof. unfold _execute_tool_call_step, dispatch_tool, call_tool. stays_put. Qed.
#[local] Hint Resolve still_condition still_complete still_tool_call : still.

Lemma still_render step rid : keeps still (render_step env workflow step rid).
Proof. unfold render_step. stays_put. Qed.

Lemma still_on_copy {A} i (m : M A) : keeps still m → keeps still (on_copy i m).
Proof. intros Hm w Hw. unfold on_copy. specialize (Hm (set_w_info i w) Hw). by destruct (m _) as [r w']. Qed.

Lemma still_recover step l : keeps still (_recover_deterministic_step env workflow step l).
Proof. unfold _recover_deterministic_step. stays_put; apply still_on_copy; stays_put. Qed.

Lemma still_claim step : keeps still (claim_run env step).
Proof. unfold claim_run. stays_put. Qed.
#[local] Hint Resolve still_render still_recover still_claim : still.

Lemma still_deterministic step : keeps still (_execute_deterministic_step env workflow step).
Proof. unfold _execute_deterministic_step. stays_put. Qed.
End Still.

Section Autonomous.
Context (env : outside) (workflow : Workflow) (attempt_number : Z) (override : option string).
Context (Hplain : plain_targets workflow) (Hauto : autonomous workflow override = true).

Definition fine (s : WorkflowState) : Prop := counted s ∧ pending_pause_type s ≠ Some "gate".

(** A change at the same step that uses no attempt. *)
Definition stays (s s' : WorkflowState) : Prop :=
  advances workflow s s' ∧ current_step_index s' = current_step_index s ∧
  (∀ n, counter (attempts_key n) 1 s' = counter (attempts_key n) 1 s) ∧ ungated s s'.

Lemma stays_refl s : stays s s.
Proof. split; [by intros k _|done]. Qed.

Lemma stays_trans s s1 s2 : stays s s1 → stays s1 s2 → stays s s2.
Proof.
  intros (A1 & B1 & C1 & D1) (A2 & B2 & C2 & D2). split_and!; [|congruence| |by etrans].
  - intros k Hk. specialize (A1 k Hk). specialize (A2 k Hk). lia.
  - intros n. by rewrite C2.
Qed.

Lemma stays_fine s s' : stays s s' → fine s → fine s'.
Proof. intros (_ & _ & Ha & Hp) [Hc Hg]. split; [intros n; rewrite Ha; apply Hc|by apply Hp]. Qed.

Lemma stays_left s s' : stays s s' → attempts_left workflow s' = attempts_left workflow s.
Proof. intros (_ & Hi & Ha & _). unfold attempts_left. rewrite Hi. destruct (steps workflow !! _); [by rewrite Ha|done]. Qed.

Lemma stays_progress s s1 s2 : stays s s1 → progress workflow s1 s2 → progress workflow s s2.
Proof.
  intros Hs Hp. pose proof (stays_left _ _ Hs) as Hl. destruct Hs as (Ha & Hi & _). pose proof (moves_left_le workflow s s1 Ha) as Hm.
  unfold progress in *. rewrite Hi, Hl in Hp. destruct Hp as [Hp|[Hp Hr]]; [left; lia|right; split; [lia|done]].
Qed.

Lemma same_stays s s' : same s s' → stays s s'.
Proof. intros (H1 & H2 & H3). split_and!; [|done| |done]; [intros k _|intros n]; unfold counter; by rewrite H2. Qed.

(** Reaching the next step. *)
Lemma next_progress s s' :
  current_step_index s' = S (current_step_index s) → loop_iterations s' = loop_iterations s → ungated s s' →
  fine s → fine s' ∧ progress workflow s s'.
Proof.
  intros H1 H2 H3 [Hc Hg]. assert (∀ k d, counter k d s' = counter k d s) as Hk by (intros; unfold counter; by rewrite H2).
  split; [split; [intros n; rewrite Hk; apply Hc|by apply H3]|]. right. split; [|left; lia]. apply moves_left_le. intros k _. by rewrite Hk.
Qed.

Lemma gate_auto name g w :
  pending_pause_type (w_state w) ≠ Some "gate" → _handle_gate_step env workflow attempt_number override name g w = (Ok "continue", w).
Proof.
  intros Hp. unfold _handle_gate_step, gate_reused, bind, get. simpl. rewrite (bool_decide_false (pending_pause_type (w_state w) = Some "gate")) by done.
  simpl. by rewrite Hauto.
Qed.

(** In autonomous mode a gate for an exhausted step is a failure. *)
Lemma exhausted_auto step a e w :
  fine (w_state w) →
  ok (_handle_exhausted env workflow attempt_number override step a e)
    (λ b w', w_task w' = w_task w ∧ if b then fine (w_state w') ∧ progress workflow (w_state w) (w_state w') else w' = w) w.
Proof.
  intros Hf. unfold _handle_exhausted. destruct a; [|by ok_step|rewrite Hauto; by ok_step].
  unfold skip_exhausted. ok_step. ok_step. ok_step.
  assert (∀ w1, w_task w1 = w_task w → same (w_state w) (w_state w1) →
    ok (do! set_st (λ s, next_step (set_last_operator_instruction None (set_skipped_steps (skipped_steps s ++ [s_name step]) s))) in
        do! _persist_workflow_state env attempt_number false in ret true)%engine
      (λ b w', w_task w' = w_task w ∧ if b then fine (w_state w') ∧ progress workflow (w_state w) (w_state w') else w' = w) w1) as Hend.
  { intros w1 E1 (F1 & F2 & F3). do 4 ok_step. ok_step. simpl in *. split; [congruence|]. apply next_progress; [congruence..|ung|done]. }
  destruct (x_rejected env _).
  - do 5 ok_step. apply Hend; simpl; [congruence|]. split_and!; simpl; [congruence..|ung].
  - ok_step. apply Hend; [done|]. split_and!; [congruence..|ung].
Qed.

(** Counting a move. *)
Lemma count_advances k s : advances workflow s (set_counter k (counter k 0 s + 1) s).
Proof. intros k' _. rewrite counter_set. case_decide as E; [subst; lia|done]. Qed.

Lemma count_stays k s : tracked workflow k → stays s (set_counter k (counter k 0 s + 1) s).
Proof.
  intros Hk. split_and!; [apply count_advances|done| |by apply ungated_eq]. intros n. rewrite counter_set, decide_False; [done|].
  intros E. by apply (tracked_attempts workflow Hplain k n Hk).
Qed.

Lemma set_advances k n s : ¬ tracked workflow k → advances workflow s (set_counter k n s).
Proof. intros Hk k' Hk'. rewrite counter_set. case_decide as E; [by subst|done]. Qed.

Lemma pop_advances k s : ¬ tracked workflow k → advances workflow s (pop_counter k s).
Proof. intros Hk k' Hk'. rewrite counter_pop. case_decide as E; [by subst|done]. Qed.

Lemma advances_trans s1 s2 s3 : advances workflow s1 s2 → advances workflow s2 s3 → advances workflow s1 s3.
Proof. intros H1 H2 k Hk. specialize (H1 k Hk). specialize (H2 k Hk). lia. Qed.

Lemma advances_loops s s1 s2 : advances workflow s s1 → loop_iterations s2 = loop_iterations s1 → advances workflow s s2.
Proof. intros H E k Hk. unfold counter at 2. rewrite E. by apply H. Qed.

Lemma go_to_fine index n s : fine s → fine (go_to index n s).
Proof.
  intros [Hc Hg]. split; [|done]. intros m. unfold go_to. rewrite counter_pop. case_decide; [lia|]. apply Hc.
Qed.

Lemma go_to_advances index n s : advances workflow s (go_to index n s).
Proof. unfold go_to. apply (advances_trans _ (set_current_step_index index s)); [by intros k _|]. by apply pop_advances, attempts_untracked. Qed.

(** A counted move backwards. *)
Lemma move_progress s s1 index n s' :
  stays s s1 → (moves_left workflow s1 < moves_left workflow s)%nat → fine s →
  loop_iterations s' = loop_iterations (go_to index n s1) → ungated s1 s' →
  fine s' ∧ progress workflow s s'.
Proof.
  intros Hs Hm Hf E1 E2. pose proof (go_to_fine index n s1 (stays_fine _ _ Hs Hf)) as [Hc Hg]. split.
  - split; [intros m; unfold counter; rewrite E1; apply (Hc m)|]. apply E2, (stays_fine _ _ Hs Hf).
  - left. assert (advances workflow s1 s') as Ha by by eapply advances_loops; [apply (go_to_advances index n)|].
    pose proof (moves_left_le workflow s1 s' Ha). lia.
Qed.

Lemma review_loop_auto step w :
  step ∈ steps workflow → fine (w_state w) →
  ok (_handle_review_loop env workflow attempt_number override step)
    (λ b w', w_task w' = w_task w ∧ if b then fine (w_state w') ∧ progress workflow (w_state w) (w_state w')
                                    else stays (w_state w) (w_state w')) w.
Proof.
  intros Hs Hf. unfold _handle_review_loop. destruct (on_reject step) as [r|] eqn:Hr; [|ok_step; split; [done|apply stays_refl]].
  do 2 ok_step. set (s := w_state w) in *. set (k := review_key (r_target r) (s_name step)).
  pose proof (review_tracked workflow step r Hs Hr) as Hk. destruct (_ <=? counter k 0 s) eqn:E; bool_facts.
  { eapply ok_mono; [by apply exhausted_auto|]. intros b w' [Ht Hb]. split; [done|]. destruct b; [done|]. subst w'. apply stays_refl. }
  do 2 ok_step. pose proof (count_stays k s Hk) as Hc. destruct (_find_step_index workflow (r_target r)) as [index|]; [|ok_step; by split].
  do 4 ok_step. ok_step. split; [done|]. simpl in *. apply (move_progress s (set_counter k (counter k 0 s + 1) s) index (r_target r)); try done.
  apply (moves_left_review workflow _ _ step r); try done; [apply Hc|]. rewrite counter_set, decide_True by done. unfold k. lia.
Qed.

Lemma record_feedback_auto e w Q :
  (∀ w', w_task w' = w_task w → same (w_state w) (w_state w') → Q tt w') → ok (_record_evaluation_feedback env e) Q w.
Proof.
  intros HQ. unfold _record_evaluation_feedback. apply ok_catch.
  - ok_step. ok_step. destruct (x_recorded env _); ok_step; (apply HQ; [done|split_and!; simpl; [congruence..|ung]]).
  - intros err w1 E. assert (w_state w1 = w_state w ∧ w_task w1 = w_task w) as [E1 E2].
    { unfold bind, await_ in E. destruct (x_raises env (w_moment w)); [by injection E as <- <-|]. by destruct (x_recorded env (w_moment w)). }
    destruct err; try ok_step; (apply HQ; [done|split_and!; simpl; [congruence..|ung]]).
Qed.

(** An attempt is used up. *)
Lemma attempt_progress s s1 step s' :
  steps workflow !! current_step_index s = Some step → same s s1 → fine s →
  counter (attempts_key (s_name step)) 1 s < attempts_limit workflow step →
  loop_iterations s' = loop_iterations (set_counter (attempts_key (s_name step)) (counter (attempts_key (s_name step)) 1 s + 1) s1) →
  current_step_index s' = current_step_index s → ungated s s' → fine s' ∧ progress workflow s s'.
Proof.
  intros Hs Hsame Hf Hlt E1 E2 E3. pose proof (same_stays _ _ Hsame) as Hst. set (k := attempts_key (s_name step)) in *.
  assert (∀ k' d, counter k' d s' = if decide (k' = k) then counter k 1 s + 1 else counter k' d s) as Hk.
  { intros k' d. unfold counter at 1. rewrite E1. fold (counter k' d (set_counter k (counter k 1 s + 1) s1)). rewrite counter_set.
    case_decide; [done|]. unfold counter. destruct Hsame as (_ & -> & _). done. }
  destruct Hf as [Hc Hg]. split.
  - split; [|by apply E3]. intros n. rewrite Hk. case_decide; [|apply Hc]. pose proof (Hc (s_name step)) as Hn. fold k in Hn. lia.
  - right. split; [apply moves_left_le|right; split; [done|]].
    + intros k' Hk'. rewrite Hk, decide_False; [done|]. by apply (tracked_attempts workflow Hplain).
    + unfold attempts_left. rewrite E2, Hs, Hk. fold k. rewrite decide_True by done. apply left_of_lt; lia.
Qed.

Lemma spend_auto step e w :
  steps workflow !! current_step_index (w_state w) = Some step → fine (w_state w) →
  ok (spend_attempt env workflow attempt_number override step e)
    (λ b w', w_task w' = w_task w ∧ (b = true → fine (w_state w') ∧ progress workflow (w_state w) (w_state w'))) w.
Proof.
  intros Hs Hf. unfold spend_attempt. do 2 ok_step. set (s := w_state w) in *. fold (attempts_limit workflow step).
  destruct (_ <=? _) eqn:E; bool_facts.
  { eapply ok_mono; [by apply exhausted_auto|]. intros b w' [Ht Hb]. split; [done|]. by intros ->. }
  ok_step. assert (∀ w1, w_task w1 = w_task w → same s (w_state w1) →
    ok (do! set_st (λ s', set_counter (attempts_key (s_name step)) (counter (attempts_key (s_name step)) 1 s + 1)
              (set_last_retry_reason (Some (match e with Some _ => "evaluation_rejected" | None => "execution_failed" end)) s')) in
        do! _persist_workflow_state env attempt_number false in ret true)%engine
      (λ b w', w_task w' = w_task w ∧ (b = true → fine (w_state w') ∧ progress workflow s (w_state w'))) w1) as Hend.
  { intros w1 E1 E2. do 4 ok_step. ok_step. split; [simpl in *; congruence|]. intros _. simpl in *.
    destruct E2 as (F1 & F2 & F3). apply (attempt_progress s (w_state w1) step); try done; by etrans. }
  destruct e; [apply record_feedback_auto; intros w1 E1 E2; by apply Hend|ok_step; by apply Hend].
Qed.

Lemma spend_stays step e w w0 :
  steps workflow !! current_step_index (w_state w0) = Some step → fine (w_state w0) → w_task w = w_task w0 → stays (w_state w0) (w_state w) →
  ok (spend_attempt env workflow attempt_number override step e)
    (λ b w', w_task w' = w_task w0 ∧ (b = true → fine (w_state w') ∧ progress workflow (w_state w0) (w_state w'))) w.
Proof.
  intros Hs Hf Ht Hst. eapply ok_mono.
  - apply spend_auto; [destruct Hst as (_ & -> & _); done|by eapply stays_fine].
  - intros b w' [Ht' Hb]. split; [congruence|]. intros Htrue. destruct (Hb Htrue) as [Hf' Hp]. split; [done|]. by eapply stays_progress.
Qed.

(** What a turn that goes on has done. *)
Definition advanced (s : WorkflowState) (w' : world) : Prop := fine (w_state w') ∧ progress workflow s (w_state w').

Definition turned (s : WorkflowState) (v : verdict) (w' : world) : Prop := v = VContinue → advanced s w'.

Lemma stays_advanced s s1 w' : stays s s1 → advanced s1 w' → advanced s w'.
Proof. intros Hs [Hf Hp]. split; [done|by eapply stays_progress]. Qed.

Lemma stop_turned st s w : ok (stop st) (turned s) w.
Proof. unfold stop. do 3 ok_step. done. Qed.

Lemma defer_auto step o w :
  fine (w_state w) → ok (_defer_step_recovery env workflow attempt_number override step o) (λ b w', b = true → t_status (w_task w') = READY) w.
Proof.
  intros Hf. unfold _defer_step_recovery, _handle_exhausted, now. rewrite Hauto. do 4 ok_step. destruct (_ <=? _).
  - by repeat ok_step.
  - repeat ok_step. destruct b; [|done]. ok_step. intros _. by match goal with H : w_task _ = _ |- _ => rewrite H end.
Qed.

Lemma retry_auto step o w :
  steps workflow !! current_step_index (w_state w) = Some step → fine (w_state w) →
  ok (_handle_step_retry env workflow attempt_number override step (RFailure o))
    (λ b w', b = true → t_status (w_task w') = READY ∨ advanced (w_state w) w') w.
Proof.
  intros Hs Hf. unfold _handle_step_retry. destruct o as [o|].
  - do 2 ok_step. set (w1 := set_w_state _ w). assert (same (w_state w) (w_state w1)) as Hsame by (split_and!; [done..|ung]).
    pose proof (stays_fine _ _ (same_stays _ _ Hsame) Hf) as Hf1. destruct (step_failure_transient o).
    { eapply ok_mono; [by apply defer_auto|]. intros b w' H Hb. left. by apply H. }
    destruct (is_dict _); [unfold _handle_exhausted; rewrite Hauto; by ok_step|].
    eapply ok_mono; [apply (spend_stays step None w1 w); try done; by apply same_stays|].
    intros b w' [_ H] Hb. right. by apply H.
  - eapply ok_mono; [by apply spend_auto|]. intros b w' [_ H] Hb. right. by apply H.
Qed.

Lemma run_failed_auto step o w :
  steps workflow !! current_step_index (w_state w) = Some step → fine (w_state w) →
  ok (run_failed env workflow attempt_number override step o) (turned (w_state w)) w.
Proof.
  intros Hs Hf. unfold run_failed. apply ok_bind. eapply ok_mono; [by apply retry_auto|]. intros [] w' H; simpl; [|apply stop_turned].
  do 3 ok_step. intros Hv. case_bool_decide; [done|]. by destruct (H eq_refl).
Qed.

(** Every route back has a limit. *)
Definition bounded_routes (step : StepDefinition) : Prop :=
  Forall (λ r, is_Some (_parse_revise_action (o_action r)) → is_Some (o_max_loop_iterations r)) (outcome_routes step).

Lemma resolve_route step status r :
  _resolve_outcome_route step status = Some r → r ∈ outcome_routes step ∨ o_action r = "fail".
Proof.
  unfold _resolve_outcome_route. destruct (find _ _) as [x|] eqn:E.
  - intros [= ->]. left. apply find_some in E as [E _]. by apply list_elem_of_In.
  - case_bool_decide; [done|]. intros [= <-]. by right.
Qed.

Lemma revise_auto step o target s w :
  stays s (w_state w) → (moves_left workflow (w_state w) < moves_left workflow s)%nat → fine s →
  ok (revise_for_outcome env workflow attempt_number step o target) (λ r w', match r with Routed => advanced s w' | RFailed => True | _ => False end) w.
Proof.
  intros Hst Hm Hf. unfold revise_for_outcome. destruct (_find_step_index workflow target) as [index|]; [|by ok_step].
  do 4 ok_step. ok_step. simpl in *. apply (move_progress s (w_state w) index target); try done.
Qed.

Lemma outcome_auto step o w :
  steps workflow !! current_step_index (w_state w) = Some step → bounded_routes step → fine (w_state w) →
  ok (_handle_step_outcome env workflow attempt_number override step o)
    (λ r w', match r with Routed => advanced (w_state w) w' | Onward => same (w_state w) (w_state w') | _ => True end) w.
Proof.
  intros Hs Hl Hf. unfold _handle_step_outcome. set (s := w_state w) in *.
  assert (∀ w, w_state w = s → ok (do! set_st (λ s, set_last_operator_instruction None (forget_feedback s)) in ret Onward)%engine
    (λ r w', match r with Routed => advanced s w' | Onward => same s (w_state w') | _ => True end) w) as Honward.
  { intros w1 E. do 3 ok_step. split_and!; simpl; [by rewrite E..|ung]. }
  destruct (_resolve_outcome_route step (outcome_status o)) as [r|] eqn:Er; [|by apply Honward].
  cbv zeta. case_bool_decide; [by apply Honward|]. case_bool_decide; [by ok_step|]. case_bool_decide; [by ok_step|]. case_bool_decide.
  { unfold outcome_gate. do 2 ok_step. rewrite bool_decide_false by apply Hf. rewrite Hauto. simpl. by ok_step. }
  destruct (_parse_revise_action (o_action r)) as [target|] eqn:Et; [|by ok_step].
  destruct (resolve_route _ _ _ Er) as [Hr|Hr]; [|by rewrite Hr in *].
  destruct (proj1 (Forall_forall _ _) Hl r Hr ltac:(by eexists)) as [max Hmax]. unfold _handle_outcome_review_loop. rewrite Hmax.
  do 3 ok_step. fold s. destruct (_ <=? _) eqn:E; bool_facts.
  { apply ok_bind. eapply ok_mono; [by apply exhausted_auto|]. intros b w' [_ Hb]. do 2 ok_step. destruct b; [|done]. done. }
  do 3 ok_step. fold s. eapply ok_mono; [apply (revise_auto _ _ _ s)|by intros []].
  - apply count_stays. apply outcome_tracked.
  - simpl. apply (moves_left_route workflow _ _ step r max); try done; [apply count_advances|by eapply list_elem_of_lookup_2|].
    rewrite counter_set, decide_True by done. lia.
  - done.
Qed.

Lemma commit_auto step o w :
  steps workflow !! current_step_index (w_state w) = Some step → bounded_routes step → fine (w_state w) →
  ok (commit_output env workflow attempt_number override step o) (turned (w_state w)) w.
Proof.
  intros Hs Hl Hf. unfold commit_output. set (s := w_state w) in *.
  assert (∀ w1, same s (w_state w1) → ok (do! set_st (λ s, set_step_outputs (od_set (s_name step) o (step_outputs s)) s) in
     do! await_ env in let! routed := _handle_step_outcome env workflow attempt_number override step o in
     match routed with
     | RFailed => stop WFailed | RCancelled => stop WCancelled | Routed => ret VContinue
     | Onward => do! set_st (λ s, next_step (set_last_operator_instruction None (forget_feedback (clear_pause (set_current_step_status None s))))) in
                 do! _persist_workflow_state env attempt_number false in ret VContinue
     end)%engine (turned s) w1) as Hend.
  { intros w1 (F1 & F2 & F3). do 5 ok_step. assert (same s (w_state w')) as Hsame by (rewrite H; split_and!; simpl; [congruence..|ung]).
    pose proof (same_stays _ _ Hsame) as Hst. eapply ok_mono; [apply outcome_auto; [by rewrite (proj1 Hsame)|done|by eapply stays_fine]|].
    intros [] w2 Hr; [|ok_step; intros _; by eapply stays_advanced|apply stop_turned..].
    do 4 ok_step. ok_step. intros _. simpl in *. destruct Hsame as (G1 & G2 & G3), Hr as (J1 & J2 & J3).
    apply next_progress; [congruence..| |done]. ung. }
  ok_step. destruct (bool_decide _ && _); simpl; [do 3 ok_step|ok_step]; apply Hend; [rewrite H|done]; done.
Qed.
Lemma ok_true {A} (m : M A) w : ok m (λ _ _, True) w.
Proof. unfold ok. by destruct (m w) as [[a|e] w']. Qed.

Lemma ok_budget {A} (m : M A) Q w : ok m (λ a w', ∀ e, Q a (set_w_elapsed e w')) w → ok (_await_with_workflow_budget env m) Q w.
Proof.
  unfold ok, _await_with_workflow_budget. destruct (_ <=? 0); [done|]. destruct (m w) as [[a|[]] w']; simpl; auto.
Qed.

Lemma ok_deferring {A} step (m : M A) k s w :
  ok m (λ a w', ok (k a) (turned s) w') w → ok (deferring env step m k) (turned s) w.
Proof.
  intros Hm. unfold deferring. apply ok_bind, ok_catch.
  - apply ok_bind. eapply ok_mono; [exact Hm|]. intros a w' Ha. by ok_step.
  - intros e w' _. destruct e; try done. apply ok_bind. eapply ok_mono; [apply ok_true|]. intros b w2 _. by do 2 ok_step.
Qed.

Lemma handled_turned b s w :
  (b = true → advanced s w) → ok (handled_or_failed b) (turned s) w.
Proof. intros Hb. unfold handled_or_failed. destruct b; [|apply stop_turned]. ok_step. intros _. by apply Hb. Qed.

Lemma after_evaluation_auto step o e w :
  steps workflow !! current_step_index (w_state w) = Some step → bounded_routes step → fine (w_state w) →
  ok (after_evaluation env workflow attempt_number override step o e) (turned (w_state w)) w.
Proof.
  intros Hs Hl Hf. unfold after_evaluation. set (s := w_state w) in *. destruct (ev_decision e).
  - by apply commit_auto.
  - do 2 ok_step. set (w1 := set_w_state _ w). assert (same s (w_state w1)) as Hsame by (split_and!; [done..|ung]).
    pose proof (same_stays _ _ Hsame) as Hst. pose proof (stays_fine _ _ Hst Hf) as Hf1. ok_step.
    eapply ok_mono; [apply review_loop_auto; [by eapply list_elem_of_lookup_2|done]|]. intros b w2 [Ht Hb]. destruct b.
    + ok_step. intros _. by eapply stays_advanced.
    + ok_step. assert (stays s (w_state w2)) as Hst2 by exact (stays_trans _ _ _ Hst Hb).
      eapply ok_mono; [apply (spend_stays step (Some e) w2 w); done|].
      intros b w3 [_ Hb3]. apply handled_turned, Hb3.
  - destruct (is_evaluator_malfunction e); [apply stop_turned|]. ok_step.
    eapply ok_mono; [by apply exhausted_auto|]. intros b w' [_ Hb]. apply handled_turned. by intros ->.
Qed.
Lemma ask_auto l w : ok (ask_all env l) (λ _ w', same (w_state w) (w_state w')) w.
Proof.
  revert w. induction l as [|[q p] l IH]; intros w; simpl; [ok_step; split_and!; try done; ung|].
  unfold _set_interactive_pause_state, _clear_interactive_pause_state. repeat ok_step. destruct b0; [|done]. ok_step.
  eapply ok_mono; [apply IH|]. intros [] w2 (F1 & F2 & F3).
  split_and!; [rewrite F1; by states|rewrite F2; by states|]. intros _. apply F3. states. done.
Qed.

Lemma execute_run_auto step w :
  ok (_execute_run_step env step) (λ _ w', same (w_state w) (w_state w')) w.
Proof.
  unfold _execute_run_step. do 6 ok_step. apply ok_bind. eapply ok_mono; [apply ask_auto|]. intros [] w2 (F1 & F2 & F3). simpl in *.
  do 3 ok_step. destruct (x_run env _); do 2 ok_step; split_and!; simpl; try congruence; ung.
Qed.
(** A change before what follows. *)
Lemma turned_after s w (m : M verdict) :
  stays s (w_state w) → ok m (turned (w_state w)) w → ok m (turned s) w.
Proof. intros Hs Hm. eapply ok_mono; [exact Hm|]. intros v w' Hv E. eapply stays_advanced; [exact Hs|by apply Hv]. Qed.

Lemma at_step s s' step : stays s s' → steps workflow !! current_step_index s = Some step → steps workflow !! current_step_index s' = Some step.
Proof. by intros (_ & -> & _). Qed.

Lemma recovered_stays name s : stays s (set_resume_failed_step false (pop_counter (recovery_key name) s)).
Proof.
  split_and!; [|done| |by apply ungated_eq].
  - apply (advances_loops _ (pop_counter (recovery_key name) s)); [|done]. by apply pop_advances, recovery_untracked.
  - intros n. change (counter (attempts_key n) 1 (pop_counter (recovery_key name) s) = counter (attempts_key n) 1 s).
    rewrite counter_pop. case_decide as E; [|done]. by apply (f_equal tx) in E.
Qed.

Lemma run_step_auto step w :
  steps workflow !! current_step_index (w_state w) = Some step → bounded_routes step → fine (w_state w) →
  ok (run_step env workflow attempt_number override step) (turned (w_state w)) w.
Proof.
  intros Hs Hl Hf. unfold run_step. set (s := w_state w) in *. apply ok_deferring, ok_budget.
  eapply ok_mono; [apply execute_run_auto|]. intros o w' Hsame e. set (w1 := set_w_elapsed e w').
  assert (stays s (w_state w1)) as Hst by by apply same_stays. pose proof (at_step _ _ _ Hst Hs) as Hs1.
  pose proof (stays_fine _ _ Hst Hf) as Hf1. apply turned_after; [done|]. clearbody w1 s. clear Hsame.
  destruct o as [o|]; [|by apply run_failed_auto]. destruct (so_error o); [by apply run_failed_auto|]. do 2 ok_step.
  pose proof (recovered_stays (s_name step) (w_state w1)) as Hst2. set (w2 := set_w_state _ w1).
  change (stays (w_state w1) (w_state w2)) in Hst2. apply turned_after; [done|].
  pose proof (at_step _ _ _ Hst2 Hs1) as Hs2. pose proof (stays_fine _ _ Hst2 Hf1) as Hf2. clearbody w2.
  destruct (evaluated workflow step); [|by apply commit_auto]. ok_step. apply ok_budget. unfold _evaluate_step. repeat ok_step. intros e'.
  repeat ok_step. apply turned_after; [apply same_stays; states; by split_and!|].
  apply after_evaluation_auto; states; done.
Qed.
(** ** Routes *)

Lemma bypass_all reason names s :
  loop_iterations (foldl (bypass reason) s names) = loop_iterations s ∧
  pending_pause_type (foldl (bypass reason) s names) = pending_pause_type s.
Proof. revert s. induction names as [|x names IH]; intros s; simpl; [done|]. by destruct (IH (bypass reason s x)) as [-> ->]. Qed.

Lemma renew_counter s name k d : (∀ n, k ≠ generation_key n) → counter k d (renew s name) = counter k d s.
Proof. intros Hk. unfold renew. rewrite counter_set, decide_False by apply Hk. done. Qed.

Lemma renew_all names s :
  (∀ k d, (∀ n, k ≠ generation_key n) → counter k d (foldl renew s names) = counter k d s) ∧
  pending_pause_type (foldl renew s names) = pending_pause_type s.
Proof.
  revert s. induction names as [|x names IH]; intros s; simpl; [done|]. destruct (IH (renew s x)) as [H1 H2]. split; [|by rewrite H2].
  intros k d Hk. by rewrite H1, renew_counter.
Qed.

Lemma tracked_generation k n : tracked workflow k → k ≠ generation_key n.
Proof. intros Hk ->. by apply (generation_untracked workflow Hplain) in Hk. Qed.

Lemma attempts_generation n m : attempts_key n ≠ generation_key m.
Proof. intros E. by apply (f_equal tx) in E. Qed.

(** A route to the next step changes nothing; any other one is counted. *)
Definition routed_to (s : WorkflowState) (target : nat) (s' : WorkflowState) : Prop :=
  target = S (current_step_index s) ∧ s' = s ∨
  counted s' ∧ advances workflow s s' ∧ ungated s s' ∧
  counter jumps_key 0 s < counter jumps_key 0 s' ∧ counter jumps_key 0 s < MAX_DETERMINISTIC_JUMPS.

Lemma route_auto target reason w :
  fine (w_state w) →
  ok (_apply_deterministic_route workflow (current_step_index (w_state w)) target reason) (λ _ w', routed_to (w_state w) target (w_state w')) w.
Proof.
  intros [Hc Hg]. unfold _apply_deterministic_route. destruct (_ =? _)%nat eqn:E1.
  { apply Nat.eqb_eq in E1. ok_step. left. split; [lia|done]. }
  repeat ok_step. set (s := w_state w) in *. set (s1 := set_counter jumps_key _ s). destruct (_ <? _) eqn:E2; [done|]. bool_facts.
  assert (counter jumps_key 0 s1 = counter jumps_key 0 s + 1) as Hj by (unfold s1; by rewrite counter_set, decide_True).
  assert (stays s s1) as Hst by (apply count_stays; by left). destruct (stays_fine _ _ Hst (conj Hc Hg)) as [Hc1 _].
  destruct Hst as (Ha & _ & _ & Hu). destruct (_ <? _)%nat.
  - ok_step. right. simpl. destruct (bypass_all reason (names_between workflow (current_step_index s + 1) target) s1) as [B1 B2].
    fold s1. set (s2 := foldl _ s1 _) in *. split_and!; [intros n| | | |lia]; [|by eapply advances_loops|unfold ungated; by rewrite B2|].
    + unfold counter. rewrite B1. apply Hc1.
    + unfold counter at 2. rewrite B1. fold (counter jumps_key 0 s1). lia.
  - destruct (steps workflow !! target) as [t|]; [|done]. ok_step. right. simpl. fold s1. set (a := attempts_key (s_name t)).
    set (s2 := set_counter a _ _). destruct (renew_all (names_between workflow target (current_step_index s + 1)) s2) as [R1 R2].
    set (s3 := foldl _ s2 _) in *.
    assert (∀ k, k ≠ a → (∀ n, k ≠ generation_key n) → ∀ d, counter k d s3 = counter k d s1) as Hk.
    { intros k Hk1 Hk2 d. rewrite R1 by done. unfold s2. by rewrite counter_set, decide_False. }
    split_and!; [intros n|intros k Hk'| |rewrite Hk; [lia|done|done]|lia].
    + rewrite R1 by apply attempts_generation. unfold s2. rewrite counter_set. case_decide; [lia|]. apply Hc1.
    + rewrite Hk; [by apply Ha|by apply (tracked_attempts workflow Hplain)|intros n; by apply tracked_generation].
    + unfold ungated. by rewrite R2.
Qed.
Lemma route_key_stays k n s : route_key k → stays s (set_counter k n s).
Proof.
  intros (m & x & ->). split_and!; [by apply set_advances, condition_untracked|done| |by apply ungated_eq].
  intros a. rewrite counter_set, decide_False; [done|]. intros E. by apply (f_equal tx) in E.
Qed.

Lemma next_or_routed s s1 target s2 :
  fine s → routed_to s target s1 → current_step_index s2 = target → loop_iterations s2 = loop_iterations s1 → pending_pause_type s2 ≠ Some "gate" →
  fine s2 ∧ progress workflow s s2.
Proof.
  intros Hf [[-> ->]|(Hc & Ha & Hu & Hlt & Hm)] H1 H2 H3.
  - apply next_progress; [done..| |done]. by intros _.
  - split; [split; [|done]|].
    + intros n. unfold counter. rewrite H2. apply Hc.
    + left. apply moves_left_jump; [by eapply advances_loops| |done]. unfold counter at 2. by rewrite H2.
Qed.

Lemma route_from_auto step r w :
  result_ok r → fine (w_state w) → ok (route_from env workflow attempt_number step r) (turned (w_state w)) w.
Proof.
  intros Hr Hf. unfold route_from. ok_step. ok_step. ok_step. set (s := w_state w) in *. set (next := default _ _).
  assert (∀ w1, stays s (w_state w1) →
    ok (do! match ds_revision_context r with Some c => set_st (set_last_revision_context (Some c)) | None => ret tt end in
        do! _apply_deterministic_route workflow (current_step_index s) next (_deterministic_route_reason step (ds_output r)) in
        do! set_st (λ s, set_current_step_index next (clear_pause (set_current_step_status None s))) in
        do! _persist_workflow_state env attempt_number false in ret VContinue)%engine (turned s) w1) as Hend.
  { intros w1 Hst. apply turned_after; [done|]. ok_step.
    assert (∀ w2, same (w_state w1) (w_state w2) → ok (do! _apply_deterministic_route workflow (current_step_index s) next (_deterministic_route_reason step (ds_output r)) in
        do! set_st (λ s, set_current_step_index next (clear_pause (set_current_step_status None s))) in
        do! _persist_workflow_state env attempt_number false in ret VContinue)%engine (turned (w_state w1)) w2) as H2.
    { intros w2 Hsame. pose proof (same_stays _ _ Hsame) as Hst2. apply turned_after; [done|].
      pose proof (stays_fine _ _ Hst2 (stays_fine _ _ Hst Hf)) as Hf2.
      replace (current_step_index s) with (current_step_index (w_state w2)) by (destruct Hst2 as (_ & -> & _), Hst as (_ & -> & _); done).
      ok_step. eapply ok_mono; [by apply route_auto|]. intros [] w3 Hw3. do 4 ok_step. ok_step. intros _.
      apply (next_or_routed _ (w_state w3) next); [done..|]. ung. }
    destruct (ds_revision_context r); ok_step; apply H2; split_and!; try done; ung. }
  unfold result_ok in Hr. destruct (ds_route_loop_key r), (ds_route_loop_iterations r); ok_step; apply Hend;
    first [by apply route_key_stays|apply stays_refl].
Qed.
Lemma after_deterministic_auto step r w :
  result_ok r → fine (w_state w) → ok (after_deterministic env workflow attempt_number override step r) (turned (w_state w)) w.
Proof.
  intros Hr Hf. unfold after_deterministic. do 3 ok_step. set (s := w_state w) in *. set (w1 := set_w_state _ w).
  assert (∀ w2, w_state w2 = w_state w1 → ok (route_from env workflow attempt_number step r) (turned s) w2) as Hroute.
  { intros w2 E. assert (stays s (w_state w2)) as Hst by (rewrite E; apply same_stays; split_and!; try done; ung).
    apply turned_after; [done|]. apply route_from_auto; [done|by eapply stays_fine]. }
  assert (pending_pause_type s ≠ Some "gate") as Hg by apply Hf.
  assert (∀ w2, w_state w2 = w_state w1 → ok (match ds_workflow_status r with
    | Some status => do! set_st (λ s, set_current_step_index (length (steps workflow))
                           (set_ws_status (if bool_decide (status = "completed") then WCompleted else WFailed) s)) in
                     do! _persist_workflow_state env attempt_number false in ret VBreak
    | None =>
      if bool_decide (ds_status r = "paused") then
        do! set_st (λ s, set_current_step_status (Some "paused") (set_ws_status WPaused s)) in pause_task env attempt_number
      else if bool_decide (ds_status r = "failed") then
        let action := or_str (str_of (ds_error_action r)) "fail" in
        if bool_decide (action = "fail") then
          do! set_st (set_ws_status WFailed) in do! _persist_workflow_state env attempt_number false in ret VBreak
        else if bool_decide (action = "gate") then
          let o := ds_output r in
          let! gate_action := _pause_for_deterministic_error env workflow attempt_number override step (or_str (str_of (so_error o)) (so_summary o)) in
          if bool_decide (gate_action = "paused") then ret VReturn
          else if bool_decide (gate_action = "cancel") then stop WCancelled
          else if bool_decide (gate_action = "fail") then stop WFailed
          else route_from env workflow attempt_number step r
        else route_from env workflow attempt_number step r
      else route_from env workflow attempt_number step r
    end)%engine (turned s) w2) as Hend.
  { intros w2 E. destruct (ds_workflow_status r); [by repeat ok_step|]. case_bool_decide; [unfold pause_task; by repeat ok_step|].
    case_bool_decide; [|by apply Hroute]. cbv zeta. case_bool_decide; [by repeat ok_step|]. case_bool_decide; [|by apply Hroute].
    unfold _pause_for_deterministic_error. do 3 ok_step. rewrite E, Hauto. simpl. rewrite bool_decide_false by done. simpl. ok_step.
    rewrite bool_decide_false, bool_decide_false by done. apply stop_turned. }
  destruct (ds_delivery_mode_override r); ok_step; by apply Hend.
Qed.

Lemma run_deterministic_auto step w :
  keyed w → fine (w_state w) → ok (run_deterministic env workflow attempt_number override step) (turned (w_state w)) w.
Proof.
  intros Hk Hf. unfold run_deterministic. apply ok_deferring, ok_budget. unfold ok.
  pose proof (yields_deterministic env workflow step w Hk) as H1. pose proof (still_deterministic env workflow (w_state w) step w eq_refl) as H2.
  destruct (_execute_deterministic_step env workflow step w) as [[r|e] w']; [|done]. intros e. destruct H1 as [_ H1]. unfold still in H2. simpl in H2.
  rewrite <- H2 in Hf. pose proof (after_deterministic_auto step r (set_w_elapsed e w') H1 Hf) as H3. simpl in H3. by rewrite H2 in H3.
Qed.

Lemma next_turned s w :
  same s (w_state w) → fine s →
  ok (do! set_st next_step in do! _persist_workflow_state env attempt_number false in ret VContinue)%engine (turned s) w.
Proof. intros (H1 & H2 & H3) Hf. repeat ok_step. intros _. simpl in *. apply next_progress; [congruence..|ung|done]. Qed.

Lemma run_gate_auto step w :
  fine (w_state w) → ok (run_gate env workflow attempt_number override step) (turned (w_state w)) w.
Proof.
  intros Hf. unfold run_gate. ok_step. unfold ok at 1. rewrite gate_auto by apply Hf. cbv zeta.
  rewrite bool_decide_false, bool_decide_false by done. simpl. apply next_turned; [by split_and!|done].
Qed.

Lemma skip_auto step w :
  fine (w_state w) → ok (skip_without_input env attempt_number step) (turned (w_state w)) w.
Proof. intros Hf. unfold skip_without_input. repeat ok_step. intros _. simpl in *. apply next_progress; [congruence..|ung|done]. Qed.

Lemma iterate_auto step w :
  keyed w → steps workflow !! current_step_index (w_state w) = Some step → bounded_routes step → fine (w_state w) →
  ok (iterate env workflow attempt_number override step) (turned (w_state w)) w.
Proof.
  intros Hk Hs Hl Hf. unfold iterate. do 2 ok_step. set (s := w_state w) in *. rewrite bool_decide_false by apply Hf. simpl. do 2 ok_step.
  set (w1 := set_w_state _ w). assert (same s (w_state w1)) as Hsame by (split_and!; try done; ung).
  pose proof (same_stays _ _ Hsame) as Hst. apply turned_after; [done|]. pose proof (stays_fine _ _ Hst Hf) as Hf1.
  pose proof (at_step _ _ _ Hst Hs) as Hs1. assert (keyed w1) as Hk1 by done. clearbody w1. clear Hst Hsame.
  destruct (deterministic step); [by apply run_deterministic_auto|]. case_bool_decide; [by apply run_gate_auto|]. do 2 ok_step.
  destruct (missing_sources workflow step (w_state w1)); [by apply run_step_auto|by apply skip_auto].
Qed.

Lemma loop_auto fuel w :
  ready w → Forall bounded_routes (steps workflow) → fine (w_state w) → (turns_left workflow (w_state w) ≤ fuel)%nat →
  ok (loop env workflow attempt_number override fuel) (λ v _, is_Some v) w.
Proof.
  intros Hw Hl. revert w Hw. induction fuel as [|fuel IH]; intros w Hw Hf Ht; simpl; (do 2 ok_step); simpl;
    (destruct (steps workflow !! current_step_index (w_state w)) as [step|] eqn:Hs; [|by ok_step]);
    (destruct (_ <? _); [unfold stop; by repeat ok_step|]).
  - exfalso. pose proof (lookup_lt_Some _ _ _ Hs). unfold turns_left in Ht. nia.
  - pose proof (ready_iterate env workflow attempt_number override Hplain step (list_elem_of_lookup_2 _ _ _ Hs) w Hw) as H1.
    pose proof (iterate_auto step w (ready_keyed w Hw) Hs (proj1 (Forall_lookup _ _) Hl _ _ Hs) Hf) as H2.
    ok_step. unfold ok in H2 |- * at 1. destruct (iterate env workflow attempt_number override step w) as [[v|e] w']; [|done].
    destruct v; [|by ok_step..]. destruct (H2 eq_refl) as [Hf' Hp]. apply IH; [done..|].
    pose proof (progress_turns workflow _ _ (mk_is_Some _ _ Hs) (proj1 Hf') Hp). lia.
Qed.
End Autonomous.


