(* ===== verification/QuestionSets.v ===== *)
(** Question sets ([cognis/core/question_sets.py]): what a workflow may ask a human, in canonical
    form, and the replies that answer it.

    A record that pydantic made is a dictionary here: its [model_dump].  [repr] of a string and of
    a float are parameters of the printing of values that are not strings. *)

From S2P Require Import Prelude PyVal.

Inductive reply_error :=
| ValueError (message : string)
| OtherError.

#[global] Instance reply_error_eq_dec : EqDecision reply_error.
Proof. solve_decision. Defined.

Section Questions.
Context (repr_str : string → string) (repr_float : Z → Z → string).
#[local] Abbreviation str := (py_str repr_str repr_float).

Definition invalid {A} (message : string) : result reply_error A := Err (ValueError message).

Definition _as_dict (value : pyval) : result reply_error pydict :=
  match value with PDict d => Ok d | _ => invalid "question-set item must be an object" end.

(** [d.get(k, default)] *)
Definition get_or (k : string) (default : pyval) (d : pydict) : pyval :=
  match od_get k d with Some v => v | None => default end.

(** [str(d.get(k) or "").strip()] *)
Definition text_at (k : string) (d : pydict) : string := str_strip (str (py_or (dict_get k d) (PStr ""))).

(** A text that is not blank, stripped, or [None]. *)
Definition optional_text (k : string) (d : pydict) : pyval :=
  match dict_get k d with
  | PNone => PNone
  | v => let s := str_strip (str v) in if bool_decide (s = "") then PNone else PStr s
  end.

(** ** Canonical questions *)

Fixpoint options_loop (question_id : string) (seen : list string) (raws : list pyval) : result reply_error (list pyval) :=
  match raws with
  | [] => Ok []
  | raw :: raws =>
      let? raw := _as_dict raw in
      let option_id := text_at "id" raw in
      if bool_decide (option_id = "") then invalid ("question " +:+ question_id +:+ " option id is required")
      else
        let label := text_at "label" raw in
        let description := optional_text "description" raw in
        if bool_decide (label = "") then invalid ("question " +:+ question_id +:+ " option " +:+ option_id +:+ " must include a label")
        else if bool_decide (option_id ∈ seen) then invalid ("duplicate option id in question " +:+ question_id +:+ ": " +:+ option_id)
        else
          let? rest := options_loop question_id (option_id :: seen) raws in
          Ok (PDict [("id", PStr option_id); ("label", PStr label); ("description", description)] :: rest)
  end.

Definition normalize_options (value : pyval) (question_id : string) : result reply_error (list pyval) :=
  match value with
  | PNone => Ok []
  | PList raws => options_loop question_id [] raws
  | _ => invalid ("question " +:+ question_id +:+ " options must be an array")
  end.

Fixpoint questions_loop (seen : list string) (raws : list pyval) : result reply_error (list pyval) :=
  match raws with
  | [] => Ok []
  | raw :: raws =>
      let? raw := _as_dict raw in
      let question_id := text_at "id" raw in
      if bool_decide (question_id = "") then invalid "question id is required"
      else if bool_decide (question_id ∈ seen) then invalid ("duplicate question id: " +:+ question_id)
      else
        let question_text := text_at "question" raw in
        if bool_decide (question_text = "") then invalid ("question " +:+ question_id +:+ " must include question text")
        else
          let? options := normalize_options (get_or "options" (PList []) raw) question_id in
          let? rest := questions_loop (question_id :: seen) raws in
          Ok (PDict [("id", PStr question_id); ("header", optional_text "header" raw); ("question", PStr question_text);
                     ("options", PList options); ("multiple", PBool (truthy (get_or "multiple" (PBool false) raw)));
                     ("allow_custom", PBool (truthy (get_or "allow_custom" (PBool true) raw)));
                     ("required", PBool (truthy (get_or "required" (PBool true) raw)))] :: rest)
  end.

Definition normalize_questions (value : pyval) : result reply_error (list pyval) :=
  match value with
  | PList ((_ :: _) as raws) => questions_loop [] raws
  | _ => invalid "questions must be a non-empty array"
  end.

Definition normalize_context (value : pyval) : pyval :=
  match value with
  | PDict d => PDict d
  | PStr s => if bool_decide (str_strip s = "") then PNone else PDict [("note", PStr (str_strip s))]
  | _ => PNone
  end.

(** ** Replies *)

Record question_answer := { question_id : string; selected_option_ids : list string; custom_answer : option string }.
Record question_reply := { answers : list question_answer; mode : string }.

#[global] Instance answer_eq_dec : EqDecision question_answer.
Proof. solve_decision. Defined.
#[global] Instance reply_eq_dec : EqDecision question_reply.
Proof. solve_decision. Defined.

Definition normalize_answer (raw : pyval) : result reply_error question_answer :=
  match raw with
  | PDict raw =>
      let question_id := text_at "question_id" raw in
      if bool_decide (question_id = "") then invalid "answer question_id is required"
      else
        match get_or "selected_option_ids" (PList []) raw with
        | PNone => Ok {| question_id := question_id; selected_option_ids := []; 
                         custom_answer := match dict_get "custom_answer" raw with PNone => None | v => Some (str v) end |}
        | PList selected =>
            Ok {| question_id := question_id; selected_option_ids := str <$> selected;
                  custom_answer := match dict_get "custom_answer" raw with PNone => None | v => Some (str v) end |}
        | _ => invalid "selected_option_ids must be an array"
        end
  | _ => invalid "each answer must be an object"
  end.

Definition normalize_reply (value : pyval) : result reply_error question_reply :=
  match value with
  | PDict value =>
      let mode := str (py_or (dict_get "mode" value) (PStr "structured")) in
      if bool_decide (mode ∉ ["structured"; "plain_text"]) then invalid "mode must be structured or plain_text"
      else
        match dict_get "answers" value with
        | PList raws => let? answers := result_map normalize_answer raws in Ok {| answers := answers; mode := mode |}
        | _ => invalid "answers must be an array"
        end
  | _ => invalid "reply must be an object"
  end.

(** [{str(option.get("id")) for option in question.get("options") or []}] *)
Definition option_ids (question : pydict) : result reply_error (list string) :=
  match py_or (dict_get "options" question) (PList []) with
  | PList options => result_map (λ o, match o with PDict o => Ok (str (dict_get "id" o)) | _ => Err OtherError end) options
  | _ => Err OtherError
  end.

Definition id_of (question : pydict) : string := str (dict_get "id" question).
Definition flag (k : string) (default : bool) (question : pydict) : bool := truthy (get_or k (PBool default) question).

(** [by_id[qid]]: the last question of this id. *)
Definition question_by_id (qid : string) (questions : list pydict) : option pydict :=
  foldl (λ found q, if bool_decide (id_of q = qid) then Some q else found) None questions.

(** Whether a custom answer is given. *)
Definition has_custom (a : question_answer) : bool := match custom_answer a with Some s => negb (bool_decide (s = "")) | None => false end.

(** The tests of one answer against its question. *)
Definition check_answer (question : pydict) (a : question_answer) : result reply_error unit :=
  let qid := question_id a in
  let selected := selected_option_ids a in
  if negb (flag "multiple" false question) && (1 <? length selected) then invalid ("question " +:+ qid +:+ " does not allow multiple selections")
  else
    let? allowed_options := option_ids question in
    match filter (λ o, o ∉ allowed_options) selected with
    | (_ :: _) as invalid_options => invalid ("question " +:+ qid +:+ " has invalid option ids: " +:+ join ", " invalid_options)
    | [] =>
        if has_custom a && negb (flag "allow_custom" true question) then invalid ("question " +:+ qid +:+ " does not allow custom answers")
        else if flag "required" true question && bool_decide (selected = []) && negb (has_custom a)
        then invalid ("question " +:+ qid +:+ " requires an answer")
        else Ok tt
    end.

Fixpoint check_answers (questions : list pydict) (answered : list string) (l : list question_answer) : result reply_error (list string) :=
  match l with
  | [] => Ok answered
  | a :: l =>
      let qid := question_id a in
      match question_by_id qid questions with
      | None => invalid ("unknown question id: " +:+ qid)
      | Some question =>
          if bool_decide (qid ∈ answered) then invalid ("duplicate answer for question id: " +:+ qid)
          else let? _ := check_answer question a in check_answers questions (qid :: answered) l
      end
  end.

Definition validate_reply_for_questions (value : pyval) (questions : list pyval) : result reply_error question_reply :=
  let? normalized := normalize_reply value in
  if bool_decide (mode normalized = "plain_text") then Ok normalized
  else
    let? normalized_questions := result_map _as_dict questions in
    let? answered_ids := check_answers normalized_questions [] (answers normalized) in
    match filter (λ q, flag "required" true q = true ∧ id_of q ∉ answered_ids) normalized_questions with
    | (_ :: _) as missing_required => invalid ("missing required answers: " +:+ join ", " (id_of <$> missing_required))
    | [] => Ok normalized
    end.

Definition plain_text_reply_for_questions (content : string) (questions : list pyval) : result reply_error question_reply :=
  match questions with
  | [] => invalid "pending question set is empty"
  | q :: _ =>
      let? first_question := _as_dict q in
      Ok {| mode := "plain_text";
            answers := [{| question_id := str (py_or (dict_get "id" first_question) (PStr "q1")); selected_option_ids := [];
                           custom_answer := Some content |}] |}
  end.
End Questions.

(** ** Canonical forms are fixed points *)

Lemma lstrip_head t : match lstrip t with [] => True | a :: _ => is_space a = false end.
Proof. induction t as [|a t IH]; simpl; [done|]. destruct (is_space a) eqn:E; [done|]. by rewrite E. Qed.

Lemma lstrip_same t : match t with [] => True | a :: _ => is_space a = false end → lstrip t = t.
Proof. destruct t as [|a t]; simpl; [done|]. by intros ->. Qed.

Lemma lstrip_app_keep t a : is_space a = false → ∃ t', lstrip (t ++ [a]) = t' ++ [a].
Proof.
  intros Ha. induction t as [|b t [t' IH]]; simpl; [rewrite Ha; by exists []|]. destruct (is_space b); [by exists t'|by exists (b :: t)].
Qed.

Lemma strip_strip t : strip (strip t) = strip t.
Proof.
  unfold strip at 1. assert (lstrip (strip t) = strip t) as ->.
  - apply lstrip_same. unfold strip, rstrip. pose proof (lstrip_head t) as H. destruct (lstrip t) as [|a l]; [done|].
    rewrite reverse_cons. destruct (lstrip_app_keep (reverse l) a H) as [l' ->]. by rewrite reverse_app.
  - unfold strip, rstrip. rewrite reverse_involutive. f_equal. apply lstrip_same, lstrip_head.
Qed.

Lemma str_strip_strip s : str_strip (str_strip s) = str_strip s.
Proof. unfold str_strip. rewrite <- (strip_strip (tx s)) at 2. f_equal. f_equal. unfold tx, untx. apply String.list_ascii_of_string_of_list_ascii. Qed.

Ltac checks H :=
  repeat match type of H with
    | context [if bool_decide ?P then _ else _] => destruct (bool_decide P) eqn:?; [done|]
    end.

Section Canonical.
Context (repr_str : string → string) (repr_float : Z → Z → string).
#[local] Abbreviation str := (py_str repr_str repr_float).
#[local] Abbreviation text_at := (text_at repr_str repr_float).
#[local] Abbreviation optional_text := (optional_text repr_str repr_float).

Lemma text_at_same k d d' : od_get k d' = Some (PStr (text_at k d)) → text_at k d' = text_at k d.
Proof.
  intros H. unfold QuestionSets.text_at at 1, dict_get, py_or. rewrite H. unfold truthy. destruct (bool_decide _) eqn:E; simpl.
  - apply bool_decide_eq_true in E. by rewrite E.
  - unfold QuestionSets.text_at. by rewrite str_strip_strip.
Qed.

Lemma optional_text_same k d d' : od_get k d' = Some (optional_text k d) → optional_text k d' = optional_text k d.
Proof.
  intros H. unfold QuestionSets.optional_text at 1, dict_get. rewrite H.
  assert (optional_text k d = PNone ∨ ∃ s, optional_text k d = PStr (str_strip s) ∧ str_strip s ≠ "") as [-> | (s & -> & Hs)]; [|done|].
  - unfold QuestionSets.optional_text. destruct (dict_get k d); try (by left); cbv zeta; case_bool_decide; eauto.
  - simpl. rewrite str_strip_strip. by rewrite bool_decide_false.
Qed.

Lemma od_get_here (k : string) (v : pyval) d : od_get k ((k, v) :: d) = Some v.
Proof. simpl. by rewrite decide_True. Qed.

Lemma od_get_skip (k k' : string) (v : pyval) d : k ≠ k' → od_get k ((k', v) :: d) = od_get k d.
Proof. intros H. simpl. by rewrite decide_False. Qed.

Ltac field := subst; unfold get_or; repeat rewrite od_get_skip by discriminate; by rewrite od_get_here.

Lemma options_canonical qid seen raws os :
  options_loop repr_str repr_float qid seen raws = Ok os → options_loop repr_str repr_float qid seen os = Ok os.
Proof.
  revert seen os. induction raws as [|raw raws IH]; intros seen os; simpl; [by intros [= <-]|].
  destruct raw as [| | | | | |d]; try done. cbn [_as_dict result_bind]. cbv zeta. intros H. checks H.
  destruct (options_loop _ _ qid _ raws) as [rest|] eqn:Hr; [|done]. simpl in H. injection H as <-.
  match goal with |- context [PDict ?x] => remember x as d' eqn:Hd' end.
  assert (text_at "id" d' = text_at "id" d) as E1 by (apply text_at_same; field).
  assert (text_at "label" d' = text_at "label" d) as E2 by (apply text_at_same; field).
  assert (optional_text "description" d' = optional_text "description" d) as E3 by (apply optional_text_same; field).
  cbn [options_loop _as_dict result_bind]. cbv zeta. rewrite E1, E2, E3, Heqb, Heqb0, Heqb1, (IH _ _ Hr). simpl. by rewrite Hd'.
Qed.

Lemma flag_same k b v d d' : od_get k d' = Some (PBool (truthy (get_or k v d))) → truthy (get_or k b d') = truthy (get_or k v d).
Proof. intros H. unfold get_or at 1. by rewrite H. Qed.

Lemma normalize_options_canonical qid v os :
  normalize_options repr_str repr_float v qid = Ok os → normalize_options repr_str repr_float (PList os) qid = Ok os.
Proof. destruct v; simpl; try done; [by intros [= <-]|apply options_canonical]. Qed.

Lemma questions_canonical seen raws qs :
  questions_loop repr_str repr_float seen raws = Ok qs → questions_loop repr_str repr_float seen qs = Ok qs.
Proof.
  revert seen qs. induction raws as [|raw raws IH]; intros seen qs; simpl; [by intros [= <-]|].
  destruct raw as [| | | | | |d]; try done. cbn [_as_dict result_bind]. cbv zeta. intros H. checks H.
  destruct (normalize_options _ _ _ _) as [os|] eqn:Ho in H; [|done]. simpl in H.
  destruct (questions_loop _ _ _ raws) as [rest|] eqn:Hr; [|done]. simpl in H. injection H as <-.
  match goal with |- context [PDict ?x] => remember x as d' eqn:Hd' end.
  assert (text_at "id" d' = text_at "id" d) as E1 by (apply text_at_same; field).
  assert (text_at "question" d' = text_at "question" d) as E2 by (apply text_at_same; field).
  assert (optional_text "header" d' = optional_text "header" d) as E3 by (apply optional_text_same; field).
  assert (get_or "options" (PList []) d' = PList os) as E4 by field.
  assert (truthy (get_or "multiple" (PBool false) d') = truthy (get_or "multiple" (PBool false) d)) as E6 by (apply flag_same; field).
  assert (truthy (get_or "allow_custom" (PBool true) d') = truthy (get_or "allow_custom" (PBool true) d)) as E7 by (apply flag_same; field).
  assert (truthy (get_or "required" (PBool true) d') = truthy (get_or "required" (PBool true) d)) as E8 by (apply flag_same; field).
  cbn [questions_loop _as_dict result_bind]. cbv zeta.
  rewrite E1, E2, E3, E4, E6, E7, E8, Heqb, Heqb0, Heqb1, (normalize_options_canonical _ _ _ Ho). simpl. rewrite (IH _ _ Hr). simpl. by rewrite Hd'.
Qed.
End Canonical.

(** ** What an accepted reply is *)

Section Replies.
Context (repr_str : string → string) (repr_float : Z → Z → string).
#[local] Abbreviation str := (py_str repr_str repr_float).
#[local] Abbreviation id_of := (id_of repr_str repr_float).
#[local] Abbreviation option_ids := (option_ids repr_str repr_float).
#[local] Abbreviation question_by_id := (question_by_id repr_str repr_float).

Definition dicts (l : list pyval) : list pydict := omap (λ v, match v with PDict d => Some d | _ => None end) l.

(** The options that a question offers. *)
Definition offered (question : pydict) : list string :=
  match dict_get "options" question with PList l => (λ o, str (dict_get "id" o)) <$> dicts l | _ => [] end.

(** An answer that a question allows. *)
Definition fits (question : pydict) (a : question_answer) : Prop :=
  (flag "multiple" false question = true ∨ length (selected_option_ids a) ≤ 1) ∧
  (∀ o, o ∈ selected_option_ids a → o ∈ offered question) ∧
  (has_custom a = true → flag "allow_custom" true question = true) ∧
  (flag "required" true question = true → selected_option_ids a ≠ [] ∨ has_custom a = true).

(** Every answer is to a question of its own and fits it, and every required question is answered. *)
Definition answers_fit (questions : list pydict) (l : list question_answer) : Prop :=
  NoDup (question_id <$> l) ∧
  (∀ a, a ∈ l → ∃ q, q ∈ questions ∧ id_of q = question_id a ∧ fits q a) ∧
  (∀ q, q ∈ questions → flag "required" true q = true → id_of q ∈ question_id <$> l).

(** A question whose options are records. *)
Definition listed (question : pydict) : Prop := ∃ l, dict_get "options" question = PList l ∧ Forall (λ v, is_dict v = true) l.

Lemma result_map_dicts l : Forall (λ v, is_dict v = true) l → result_map _as_dict l = Ok (dicts l).
Proof. induction 1 as [|v l Hv _ IH]; [done|]. destruct v; try done. simpl. by rewrite IH. Qed.

Lemma option_ids_listed question : listed question → option_ids question = Ok (offered question).
Proof.
  intros (l & Hl & Hd). unfold QuestionSets.option_ids, offered, py_or. rewrite Hl.
  assert (result_map (λ o, match o with PDict o => Ok (str (dict_get "id" o)) | _ => Err OtherError end) l =
          Ok ((λ o, str (dict_get "id" o)) <$> dicts l)) as Hm.
  { clear Hl. induction Hd as [|v l Hv _ IH]; [done|]. destruct v; try done. simpl. by rewrite IH. }
  destruct l; simpl; [done|exact Hm].
Qed.

Lemma options_are_dicts qid seen raws os : options_loop repr_str repr_float qid seen raws = Ok os → Forall (λ v, is_dict v = true) os.
Proof.
  revert seen os. induction raws as [|raw raws IH]; intros seen os; simpl; [by intros [= <-]|].
  destruct raw as [| | | | | |d]; try done. cbn [_as_dict result_bind]. cbv zeta. intros H.
  checks H.
  destruct (options_loop _ _ qid _ raws) as [rest|] eqn:Hr; [|done]. simpl in H. injection H as <-. constructor; [done|]. by eapply IH.
Qed.

Lemma questions_are_listed seen raws qs :
  questions_loop repr_str repr_float seen raws = Ok qs →
  Forall (λ v, is_dict v = true) qs ∧ Forall listed (dicts qs) ∧ NoDup (id_of <$> dicts qs) ∧ (∀ q, q ∈ dicts qs → id_of q ∉ seen).
Proof.
  revert seen qs. induction raws as [|raw raws IH]; intros seen qs; simpl.
  { intros [= <-]. split_and!; try constructor. intros q Hq. by apply elem_of_nil in Hq. }
  destruct raw as [| | | | | |d]; try done. cbn [_as_dict result_bind]. cbv zeta. intros H.
  checks H.
  destruct (normalize_options _ _ _ _) as [os|] eqn:Ho; [|done]. simpl in H.
  destruct (questions_loop _ _ _ raws) as [rest|] eqn:Hr; [|done]. simpl in H. injection H as <-.
  assert (text_at repr_str repr_float "id" d ∉ seen) as Hs by by bool_facts.
  destruct (IH _ _ Hr) as (H1 & H2 & H3 & H4).
  match goal with |- context [PDict ?x] => remember x as d' eqn:Hd' end.
  assert (id_of d' = text_at repr_str repr_float "id" d) as Hid by (unfold QuestionSets.id_of, dict_get; subst; by rewrite od_get_here).
  assert (Forall (λ v, is_dict v = true) os) as Hos.
  { destruct (get_or "options" _ d); simpl in Ho; try done; [by injection Ho as <-|by eapply options_are_dicts]. }
  cbn [dicts omap list_omap]. split_and!.
  - by constructor.
  - constructor; [|done]. exists os. split; [|done]. unfold dict_get. subst. do 3 rewrite od_get_skip by discriminate. by rewrite od_get_here.
  - simpl. constructor; [|done]. rewrite Hid. intros (q & Hq & Hin)%list_elem_of_fmap. apply (H4 q Hin). rewrite <- Hq. left.
  - intros q [-> | Hq]%elem_of_cons; [by rewrite Hid|]. intros Hin. apply (H4 q Hq). by right.
Qed.

Lemma check_answer_fits question a : listed question → check_answer repr_str repr_float question a = Ok tt ↔ fits question a.
Proof.
  intros Hl. unfold check_answer. cbv zeta. rewrite (option_ids_listed _ Hl). simpl. unfold fits.
  destruct (flag "multiple" false question) eqn:Em; simpl.
  2: destruct (1 <? length (selected_option_ids a)) eqn:E1; simpl; bool_facts; [split; [done|intros ([?|?] & _); [done|lia]]|].
  all: destruct (filter (λ o, o ∉ offered question) (selected_option_ids a)) as [|o l] eqn:Ef;
    [|split; [done|intros (_ & H & _); assert (o ∈ filter (λ o, o ∉ offered question) (selected_option_ids a)) as Ho by (rewrite Ef; left);
       apply list_elem_of_filter in Ho as [Hn Ho]; by apply H in Ho]].
  all: assert (∀ o, o ∈ selected_option_ids a → o ∈ offered question) as Hin by
    (intros o Ho; destruct (decide (o ∈ offered question)) as [|Hn]; [done|]; exfalso;
     assert (o ∈ filter (λ o, o ∉ offered question) (selected_option_ids a)) as Hf by (by apply list_elem_of_filter);
     rewrite Ef in Hf; by apply elem_of_nil in Hf).
  all: destruct (has_custom a), (flag "allow_custom" true question), (flag "required" true question); simpl;
    try (case_bool_decide; simpl); split; intros G; try done; try (split_and!; auto; fail); intuition congruence.
Qed.

Lemma question_by_id_found qid questions found :
  NoDup (id_of <$> questions) →
  match foldl (λ f q, if bool_decide (id_of q = qid) then Some q else f) found questions with
  | Some q => (q ∈ questions ∧ id_of q = qid) ∨ (found = Some q ∧ ∀ q', q' ∈ questions → id_of q' ≠ qid)
  | None => found = None ∧ ∀ q, q ∈ questions → id_of q ≠ qid
  end.
Proof.
  revert found. induction questions as [|q questions IH]; intros found Hn; simpl.
  { destruct found; [right|]; split; try done; intros q' Hq'; by apply elem_of_nil in Hq'. }
  apply NoDup_cons in Hn as [Hq Hn]. case_bool_decide as E.
  - specialize (IH (Some q) Hn). destruct (foldl _ _ _) as [q1|]; [|by destruct IH]. destruct IH as [[H1 H2]|[[= ->] H]].
    + left. split; [by right|done].
    + left. split; [left|done].
  - specialize (IH found Hn). destruct (foldl _ _ _) as [q1|].
    + destruct IH as [[H1 H2]|[-> H]]; [left; split; [by right|done]|right; split; [done|]]. intros q' [-> | Hq']%elem_of_cons; auto.
    + destruct IH as [-> H]. split; [done|]. intros q' [-> | Hq']%elem_of_cons; auto.
Qed.

Lemma id_unique questions q1 q2 : NoDup (id_of <$> questions) → q1 ∈ questions → q2 ∈ questions → id_of q1 = id_of q2 → q1 = q2.
Proof.
  intros Hn [i Hi]%list_elem_of_lookup [j Hj]%list_elem_of_lookup E.
  assert (i = j) as <-; [|congruence]. apply (NoDup_lookup (id_of <$> questions) i j (id_of q1)); [done|by rewrite list_lookup_fmap, Hi|].
  by rewrite list_lookup_fmap, Hj, E.
Qed.

Lemma question_by_id_iff questions qid q : NoDup (id_of <$> questions) → question_by_id qid questions = Some q ↔ q ∈ questions ∧ id_of q = qid.
Proof.
  intros Hn. pose proof (question_by_id_found qid questions None Hn) as H. unfold QuestionSets.question_by_id. destruct (foldl _ _ _) as [q1|].
  - destruct H as [[H1 H2]|[? _]]; [|done]. split; [by intros [= <-]|]. intros [H3 H4]. f_equal. apply (id_unique questions); try done. congruence.
  - destruct H as [_ H]. split; [done|]. intros [H1 H2]. by apply H in H1.
Qed.

Lemma check_answers_ok questions seen l r :
  Forall listed questions → NoDup (id_of <$> questions) →
  check_answers repr_str repr_float questions seen l = Ok r ↔
  r = reverse (question_id <$> l) ++ seen ∧ NoDup (question_id <$> l) ∧ (∀ a, a ∈ l → question_id a ∉ seen) ∧
  (∀ a, a ∈ l → ∃ q, q ∈ questions ∧ id_of q = question_id a ∧ fits q a).
Proof.
  intros Hl Hn. revert seen. induction l as [|a l IH]; intros seen; simpl.
  { split; [intros [= <-]; split_and!; [done|constructor|..]; intros a Ha; by apply elem_of_nil in Ha|by intros (-> & _)]. }
  destruct (question_by_id (question_id a) questions) as [q|] eqn:Eq.
  2: { split; [done|]. intros (_ & _ & _ & H). destruct (H a ltac:(left)) as (q & H1 & H2 & _).
       assert (question_by_id (question_id a) questions = Some q) by by apply question_by_id_iff. congruence. }
  apply question_by_id_iff in Eq as [Hq Hid]; [|done]. case_bool_decide as Hs; [split; [done|]; intros (_ & _ & H & _); by destruct (H a ltac:(left))|].
  pose proof (check_answer_fits q a (proj1 (Forall_forall _ _) Hl q Hq)) as Hc.
  destruct (check_answer _ _ q a) as [[]|] eqn:Ec; simpl.
  2: { split; [done|]. intros (_ & _ & _ & H). destruct (H a ltac:(left)) as (q' & H1 & H2 & H3).
       assert (q' = q) as -> by (apply (id_unique questions); try done; congruence). by apply Hc in H3. }
  assert (fits q a) as Hfit by by apply Hc. rewrite IH, reverse_cons, <- app_assoc. simpl. rewrite NoDup_cons. split.
  - intros (-> & H1 & H2 & H3). split_and!; [done| |done|..].
    + intros (a' & Ha' & Hin)%list_elem_of_fmap. apply (H2 a' Hin). rewrite <- Ha'. left.
    + intros a' [-> | Ha']%elem_of_cons; [done|]. intros Hin. apply (H2 a' Ha'). by right.
    + intros a' [-> | Ha']%elem_of_cons; [by exists q|by apply H3].
  - intros (-> & [H0 H1] & H2 & H3). split_and!; [done|done|..].
    + intros a' Ha' [E|Hin]%elem_of_cons; [|by apply (H2 a'); [right|]]. apply H0. rewrite <- E. by apply list_elem_of_fmap_2.
    + intros a' Ha'. apply H3. by right.
Qed.
End Replies.

(** Canonical question sets are fixed points: what [normalize_questions] made of a set, it accepts
    and leaves as it is, so a set may be stored, read and normalised again. *)
Theorem canonical_questions_stay repr_str repr_float v qs :
  normalize_questions repr_str repr_float v = Ok qs → normalize_questions repr_str repr_float (PList qs) = Ok qs.
Proof.
  destruct v as [| | | | |raws|]; try done. destruct raws as [|raw raws]; [done|]. intros H.
  pose proof (questions_canonical _ _ [] (raw :: raws) qs H) as Hq. destruct qs; [|done].
  simpl in H. destruct (_as_dict raw) as [d|]; simpl in H; [|done]. checks H.
  destruct (normalize_options _ _ _ _); simpl in H; [|done]. by destruct (questions_loop _ _ _ raws).
Qed.

(** C35. A structured reply to a canonical question set is accepted exactly when it answers it: every
    answer is to a question of its own, chooses among its options as many as it allows, says
    something else only where that is allowed, and no required question is left out. *)
Theorem reply_accepted_iff repr_str repr_float v qs value r :
  normalize_questions repr_str repr_float v = Ok qs → normalize_reply repr_str repr_float value = Ok r → mode r ≠ "plain_text" →
  validate_reply_for_questions repr_str repr_float value qs = Ok r ↔ answers_fit repr_str repr_float (dicts qs) (answers r).
Proof.
  intros Hqs Hr Hm. unfold validate_reply_for_questions. rewrite Hr. simpl. rewrite bool_decide_false by done.
  assert (∃ raws, questions_loop repr_str repr_float [] raws = Ok qs) as [raws Hq].
  { destruct v as [| | | | |raws|]; try done. exists raws. by destruct raws. }
  destruct (questions_are_listed _ _ _ _ _ Hq) as (H1 & H2 & H3 & _). rewrite (result_map_dicts _ H1). simpl. unfold answers_fit.
  destruct (check_answers _ _ _ [] (answers r)) as [ids|] eqn:E; simpl.
  - apply check_answers_ok in E as (-> & E1 & _ & E2); [|done..]. rewrite app_nil_r. set (F := filter _ _).
    assert (F = [] ↔ ∀ q, q ∈ dicts qs → flag "required" true q = true → id_of repr_str repr_float q ∈ question_id <$> answers r) as HF.
    { unfold F. split.
      - intros Hf q Hq1 Hreq. destruct (decide (id_of repr_str repr_float q ∈ question_id <$> answers r)) as [|Hn]; [done|]. exfalso.
        assert (q ∈ []) as H; [|by apply elem_of_nil in H]. rewrite <- Hf. apply list_elem_of_filter. rewrite elem_of_reverse. done.
      - intros H. destruct (filter _ _) as [|q l] eqn:Ef; [done|]. assert (q ∈ q :: l) as Hin by left. rewrite <- Ef in Hin.
        apply list_elem_of_filter in Hin as [[Hreq Hn] Hin]. rewrite elem_of_reverse in Hn. by destruct Hn; apply H. }
    destruct F as [|q l]; [|split; [done|intros (_ & _ & H); by apply HF in H]]. split; [|done]. intros _. split_and!; [done..|]. by apply HF.
  - split; [done|]. intros (A1 & A2 & _).
    assert (check_answers repr_str repr_float (dicts qs) [] (answers r) = Ok (reverse (question_id <$> answers r) ++ [])) as H; [|congruence].
    apply check_answers_ok; [done..|]. split_and!; try done. intros a _. by apply not_elem_of_nil.
Qed.

(** ** A sample *)

Module Sample.
Definition option_of (i label : string) : pyval := PDict [("id", PStr i); ("label", PStr label)].

Definition form : pyval := PList
  [PDict [("id", PStr " env "); ("question", PStr "Which environment?"); ("options", PList [option_of "prod" " Production"; option_of "dev" "Development "]);
          ("allow_custom", PBool false)];
   PDict [("id", PStr "why"); ("header", PStr ""); ("question", PStr "Why now?"); ("required", PBool false)]].

Definition canonical : list pyval :=
  match normalize_questions (λ s, s) (λ _ _, "0.0") form with Ok qs => qs | Err _ => [] end.

Definition answer_of (qid : string) (chosen : list string) (custom : pyval) : pyval :=
  PDict [("question_id", PStr qid); ("selected_option_ids", PList (PStr <$> chosen)); ("custom_answer", custom)].

Definition sample_reply (l : list pyval) : pyval := PDict [("answers", PList l)].

Definition good : pyval := sample_reply [answer_of "why" [] (PStr "a release"); answer_of "env" ["prod"] PNone].

Definition good_reply : question_reply :=
  {| answers := [{| question_id := "why"; selected_option_ids := []; custom_answer := Some "a release" |};
                 {| question_id := "env"; selected_option_ids := ["prod"]; custom_answer := None |}];
     mode := "structured" |}.

Definition outcome_of (l : list pyval) : result reply_error question_reply := validate_reply_for_questions (λ s, s) (λ _ _, "0.0") (sample_reply l) canonical.

Example each_error_is_said :
  outcome_of [answer_of "env" ["prod"; "dev"] PNone] = invalid "question env does not allow multiple selections" ∧
  outcome_of [answer_of "env" ["qa"] PNone] = invalid "question env has invalid option ids: qa" ∧
  outcome_of [answer_of "env" ["prod"] (PStr "both")] = invalid "question env does not allow custom answers" ∧
  outcome_of [answer_of "env" [] PNone] = invalid "question env requires an answer" ∧
  outcome_of [answer_of "when" [] PNone] = invalid "unknown question id: when" ∧
  outcome_of [answer_of "env" ["prod"] PNone; answer_of "env" ["dev"] PNone] = invalid "duplicate answer for question id: env" ∧
  outcome_of [answer_of "why" [] (PStr "a release")] = invalid "missing required answers: env".
Proof. by vm_compute. Qed.
End Sample.

Lemma canonical_questions_stay_witness :
  normalize_questions (λ s, s) (λ _ _, "0.0") (PList Sample.canonical) = Ok Sample.canonical ∧ length Sample.canonical = 2%nat.
Proof. split; [|reflexivity]. apply (canonical_questions_stay (λ s, s) (λ _ _, "0.0") Sample.form). vm_compute. reflexivity. Defined.

Lemma reply_accepted_iff_witness :
  answers_fit (λ s, s) (λ _ _, "0.0") (dicts Sample.canonical) (answers Sample.good_reply).
Proof.
  apply (reply_accepted_iff (λ s, s) (λ _ _, "0.0") Sample.form Sample.canonical Sample.good Sample.good_reply); [vm_compute; reflexivity..|discriminate|].
  vm_compute. reflexivity.
Defined.
